(* ===== verification/_CoqProject ===== *)
-Q . S2P
Prelude.v
CtxHelper.v
Heap.v
HeapEnd.v
Hashmap.v
Os.v
Protocol.v
Rapid.v
Redis.v
Thrift.v
IOHelper.v
Model.v
ConnsMgr.v
EventsDriver.v
PoolObjs.v
ThreadPrivacy.v
LockRace.v
Protocols.v
Fds.v
Confs.v
Versions.v
PtrRace.v
EventCtx.v
Msg.v
Session.v
AgentSlave.v
AgentFrame.v
SessionLaws.v
SessionEvents.v
Answers.v
Timeouts.v
Clients.v
Runs.v
Startup.v
IOBasic.v
Api.v
Pipe.v
Waits.v
Race.v
RaceLaws.v
Scheduler.v
Wakeups.v
Mail.v
Agents.v
Notifier.v
Lifecycle.v
Sim.v
