(* ===== verification/Prelude.v ===== *)
(** * Magneto: a verification development

    Magneto is a C++ server framework.  A request handler is a coroutine (a
    business procedure) that calls remote services as if the calls blocked;
    the I/O is done by a few agent threads with epoll, and the coroutines run
    on scheduler threads.  This development models the framework (src/src) and
    the parts of its support library that come as headers
    (src/deps/public-cpp/include/public-cpp), and proves what its parts promise
    each other.

    ** The program and its parts

    A client connects to the acceptor ([AgentMaster]), which hands the
    descriptor to an agent ([AgentSlave]) in a message.  The agent reads the
    request with the protocol of the address and sends it to a scheduler, which
    starts a coroutine ([BizProcedure]) for it.  The coroutine calls
    [IOBasicTPD], which fills a vector of talks, sends it to an agent and
    switches away.  The agent starts a [Session] for the vector: for each talk
    it takes a remote and a connection from [ConnsMgr], registers the
    descriptor in its [EventsDriver] with a timeout, writes, reads, retries, and
    when every talk has ended it answers, and the scheduler resumes the
    coroutine.  At its end the coroutine sends the agent its connections and the
    client back ([MsgDestruct]).  Threads exchange messages through
    [MPSCFixedPipe] rings.

    ** Files

    Shared.  Prelude.v: machine integers, bytes, the state-and-fault monad [M]
    with its notations and tactics, list lemmas, the hint database.  Os.v:
    system calls as operations of an abstract world (classes [NetIO], [Sock],
    [Epoll]) and what is relied on of them ([SockSpec], [EpollLaws], ...).
    Sim.v: one concrete world that implements all of them, for the witnesses.

    Support library.  CtxHelper.v (ctx_helper.h), Heap.v and HeapEnd.v
    (heap.hpp), Hashmap.v (close_hashmap.hpp), EventsDriver.v (events_driver.hpp), IOHelper.v
    (io_helper.h, time/time.h), PoolObjs.v (pool_objs.hpp), ThreadPrivacy.v
    (thread_privacy.h, lock_policy.hpp), Pipe.v (mpsc_fixed_pipe.hpp, one
    operation at a time), Waits.v (its receivers that wait), [DelayDelPtr] in
    Confs.v (delay_del_ptr.hpp).  Three parts are also modelled one access to
    shared memory at a time, with any number of threads: the mailbox in Race.v
    and RaceLaws.v, the locks in LockRace.v, the versioned pointer in PtrRace.v.

    Framework.  Protocol.v (protocol.h, slice.hpp, buffer.hpp), Rapid.v, Redis.v
    and Thrift.v (the wire protocols, ping in Redis.v), Protocols.v
    (pool_protocols.h, thread_private_pool.hpp), Model.v (model.h), ConnsMgr.v
    (conns_mgr/), Confs.v and Versions.v (confs/), EventCtx.v, Msg.v, Mail.v (the
    objects of msg.h as bytes in a mailbox, [SendMsg] and [ReceiveMsg_] of agents
    and schedulers, [SendToOneWorker]), Session.v (session.cpp, model.cpp), AgentSlave.v (agent_slave.cpp), Startup.v (its constructor and
    [Init]), Agents.v (agents.h, agent_master.cpp), Notifier.v
    (mailbox_notifier.cpp), IOBasic.v (biz_procedure.h, io_basic.cpp), Api.v
    (the calls of a handler: magneto.cpp, magneto_base.h, io_basic.h),
    Scheduler.v (scheduler.cpp), Lifecycle.v (threads, agents.cpp,
    schedulers.cpp, magneto_base.cpp, the life of [Magneto]).

    Proofs about the agent.  Fds.v (who owns a descriptor), SessionLaws.v and
    SessionEvents.v (the balance of a session), Answers.v (the invariant of an
    agent), Timeouts.v, Clients.v, Runs.v (whole runs), AgentFrame.v (what the
    loop leaves alone).  Wakeups.v: agents and a scheduler together.

    ** Conventions

    A method becomes a function of the object's record and returns the new
    record; code that works on several objects is written in the monad
    [M S A = S -> option (A * S)], where [None] is a fault: a null dereference,
    an access out of bounds, a failed assertion.  A theorem that gives [Some]
    therefore also says that no fault happens.  Objects that are shared by
    pointer live in stores (PoolObjs.v, module [Store]); a pointer is a [Z] and
    freed pointers are gone from the store.  Integers are [Z]; where a width
    matters the conversion is written ([u16], [u32], [u64], [i32]).  Interfaces
    between components are classes: [TimeoutQueue] (the driver's queue, which
    Heap.v implements), [HashKey], [Worker] (what a thread runs), and the
    classes of the world.

    ** What the theorems show

    Answers.  [run_conserves], [process_conserves], [life_conserves]: from
    [Init] on, in any interleaving of the agent's operations with the other
    threads, every started session is answered exactly once or still waits for
    a descriptor, with one exception: a session whose single talk was handed over
    with a negative descriptor and no error is lost, which is what a second
    [WriteBack] after the loss of the client sends ([lost_session] in Sim.v).  A
    run is a trace of labelled steps (Runs.v, [op]); the labels say which sessions
    were started and which were lost, and [process_conserves] gives the trace of a
    call of the loop the shape of the loop.  [event_answers], [start_answers],
    [timeouts_answers] are its parts, [slave_ready] its start, [no_buffer_broken]
    what happens to the blocking [Read].  What is asked of the outside: configured
    timeouts below [2 ^ 31] ms, which [RegEvent] narrows to [int]; ready events of
    descriptors that wait; messages with open descriptors of their own; other
    threads that leave the talks of waiting sessions alone.  [no_lost_wakeup]: with
    any number of agents and their scheduler interleaved, a procedure that waits
    has its session on the way, served or coming back, and is resumed exactly once
    for it, or is stuck: its session was lost, or the scheduler failed to switch
    to it.
    Wire formats.  [rapid_roundtrip], [Read_frame], [thrift_roundtrip],
    [ParseReply_resp], [ParseReply_partial], [ParseCmd_spec].  Frames have less
    than [2 ^ 31] bytes ([Read_too_big] shows the others); a reader that gets no
    memory for a frame faults.
    Containers.  The heap, the hash map, the object pools, the slots of threads
    and the ring of bytes refine a map, a map, a set, a map and a queue.
    The pools rely on clients that give back only what they hold
    ([double_free_shares]).  Timeouts, remotes, health marks and connections:
    EventsDriver.v and ConnsMgr.v; [weight_selection] covers healthy, unhealthy
    and failed remotes.  Configuration: an accepted one is well formed
    ([conf_accepted_ok]) and the versions refine the list of the accepted ones
    ([versions_refine]).
    Threads.  [threads_joined]: in any order of [Start] and [Stop] every thread is
    joined once, and besides only ids that a failed [pthread_create] left behind.
    [failed_init_faults], [master_conserves], [tasks_fifo].  [notify_wakes]: every
    outcome of a notification, failures included.  [lock_exclusive]: the locks
    exclude, unless their first use is concurrent ([first_use_race]).
    [versions_race]: [Get] and [Change] of the versioned pointer by many threads,
    as long as its lock works ([unlocked_change_loses]), with the one weakness
    that [Get] can return a later version ([get_other_version]).
    Mailbox.  [pipe_fifo], [empty_accepts]: one operation at a time the ring is a
    queue of bytes; [mail_fifo]: with the layout of the message classes it is a
    queue of messages, whatever the padding holds; [receive_mail]: so it is for
    the loop of a scheduler.  [race_fifo]: it still is a queue with any number of
    senders, interleaved at every access to shared memory, as long as no sender
    reads the position of the receiver between the two writes of [MsgConsumed],
    none looks for a message in the last eight bytes of the ring, no message is
    blanked before its sender has looked at the published position, and no sender
    sleeps through 65535 laps of the ring.  For the first three Race.v has a
    schedule that breaks the condition and loses a message, reads beyond the ring
    or delivers an unwritten message, which are defects of the code.
    [receive_in_time]: the receivers that wait return, with a message as soon as
    there is one, and otherwise after their limit.  [heap_deleted]: the heap of
    timeouts gives back its nodes.
    Calls of procedures.  [responses_keep_connections]; [api_refines]: through
    the public interface a call reaches the procedure of its thread, and faults
    before only when the thread is refused the object of its first call.

    ** Bounds and fuel

    Loops whose recursion is not structural take fuel.  Where the code has a
    bound, the fuel is that bound and the theorem shows that it is enough: the
    length of the heap, of the table, of the ring, of the input.  Loops that
    depend on the outside (reading until the kernel has no more, retrying a full
    mailbox) take the fuel of the class [Protocol.Fuel]; running out is a fault,
    and the theorems either show that it does not happen or hold for every run
    that ends.  The loop of a thread runs as often as an argument says.

    ** Not modelled

    The thrift library, which writes and reads message headers, is an argument
    of Thrift.v; the thrift category is behind a build flag and is not among the
    protocols the agents of the model dispatch over.  The JSON parser, [DefaultNotifier], [ThreadPrivacy::Init_]
    and other functions are only in the compiled library; they are operations of
    the world or arguments.  Logging, monitoring and the memory macros of
    common.h have no effect on control flow beyond what the definitions show.
    Memory allocation always succeeds, except in [ThreadPrivacy] and where a
    buffer grows to a size the other side chose.  The pool of messages of a
    scheduler ([pool_msgs_]) is not modelled: its tasks are values.  The heap
    counts its nodes without a bound; the code with an [int].  Weak memory is not modelled: accesses are
    sequentially consistent.  Between components threads are interleaved at whole
    operations; the driver of an agent, which notifying threads also enter, is
    not modelled at single accesses.  What remains of the repository is the
    generated thrift code of an example, the drivers under tests/ and examples/,
    and declarations without a body. *)

From Stdlib Require Import ZArith Lia Ascii String.
From stdpp Require Import base list gmap strings numbers.

Declare Scope mag_scope.
Delimit Scope mag_scope with mag.
#[global] Open Scope Z_scope.

(** ** Machine integers

    A [w]-bit unsigned value is a [Z] in [0, 2^w); a C conversion to a
    narrower or a signed type is written out. *)

Definition uwrap (w z : Z) : Z := z mod 2 ^ w.
Definition swrap (w z : Z) : Z := (z + 2 ^ (w - 1)) mod 2 ^ w - 2 ^ (w - 1).

Abbreviation u8 := (uwrap 8).
Abbreviation u16 := (uwrap 16).
Abbreviation u32 := (uwrap 32).
Abbreviation u64 := (uwrap 64).
Abbreviation i32 := (swrap 32).
Abbreviation i64 := (swrap 64).

Definition in_uint (w z : Z) : Prop := 0 <= z < 2 ^ w.
Definition in_sint (w z : Z) : Prop := - 2 ^ (w - 1) <= z < 2 ^ (w - 1).

Lemma uwrap_small w z : in_uint w z -> uwrap w z = z.
Proof. unfold in_uint, uwrap. intros. by apply Z.mod_small. Qed.

Lemma uwrap_bound w z : 0 <= w -> in_uint w (uwrap w z).
Proof. intros. unfold in_uint, uwrap. apply Z.mod_pos_bound, Z.pow_pos_nonneg; lia. Qed.

Lemma swrap_bound w z : 0 < w -> in_sint w (swrap w z).
Proof.
  intros. unfold in_sint, swrap.
  pose proof (Z.mod_pos_bound (z + 2 ^ (w - 1)) (2 ^ w) ltac:(apply Z.pow_pos_nonneg; lia)).
  replace (2 ^ w) with (2 ^ (w - 1) + 2 ^ (w - 1)) in * ; [lia|].
  replace w with (Z.succ (w - 1)) at 3 by lia. rewrite Z.pow_succ_r; lia.
Qed.

Lemma pow2_half w : 0 < w -> 2 ^ w = 2 * 2 ^ (w - 1).
Proof. intros. replace w with (Z.succ (w - 1)) at 1 by lia. rewrite Z.pow_succ_r; lia. Qed.

Lemma swrap_small w z : 0 < w -> in_sint w z -> swrap w z = z.
Proof.
  unfold in_sint, swrap. intros Hw Hz. pose proof (pow2_half w Hw).
  rewrite Z.mod_small; lia.
Qed.

(** Reading a signed [w]-bit value back as unsigned undoes the conversion. *)
Lemma uwrap_swrap w z : 0 < w -> uwrap w (swrap w z) = uwrap w z.
Proof.
  intros Hw. unfold uwrap, swrap.
  rewrite Zminus_mod_idemp_l. f_equal. lia.
Qed.

(** Bits at or above the width of an unsigned value are clear. *)
Lemma testbit_high b w n : 0 <= w -> in_uint w b -> w <= n -> Z.testbit b n = false.
Proof.
  intros Hw [Hb1 Hb2] Hn. rewrite <- (Z.mod_small b (2 ^ w)) by lia.
  apply Z.mod_pow2_bits_high. lia.
Qed.

(** ** Bytes and host memory

    A byte is an [ascii]; memory is a list of bytes.  Multi-byte fields are
    kept in memory in the little-endian order of the supported hosts, and
    [htons], [htonl] and their inverses reverse the bytes of a value. *)

Abbreviation bytes := (list ascii).

Definition b2z (b : ascii) : Z := Z.of_N (N_of_ascii b).
Definition z2b (z : Z) : ascii := ascii_of_N (Z.to_N (z mod 256)).
Definition str (s : string) : bytes := list_ascii_of_string s.
Arguments str _%_string.

Lemma b2z_bound b : 0 <= b2z b < 256.
Proof. unfold b2z. pose proof (N_ascii_bounded b). lia. Qed.

Lemma z2b_b2z b : z2b (b2z b) = b.
Proof.
  unfold z2b. rewrite Z.mod_small by apply b2z_bound.
  unfold b2z. rewrite N2Z.id. apply ascii_N_embedding.
Qed.

Lemma b2z_z2b z : b2z (z2b z) = z mod 256.
Proof.
  unfold b2z, z2b. pose proof (Z.mod_pos_bound z 256 ltac:(lia)).
  rewrite N_ascii_embedding; lia.
Qed.

(** The value of a little-endian field and the field of a value. *)
Fixpoint le_val (bs : bytes) : Z :=
  match bs with
  | [] => 0
  | b :: bs => b2z b + 256 * le_val bs
  end.

Fixpoint le_bytes (n : nat) (z : Z) : bytes :=
  match n with
  | O => []
  | S n => z2b z :: le_bytes n (z / 256)
  end.

Lemma le_bytes_length n z : length (le_bytes n z) = n.
Proof. revert z; induction n; intros; simpl; auto. Qed.

Lemma le_val_bound bs : 0 <= le_val bs < 256 ^ Z.of_nat (length bs).
Proof.
  induction bs as [|b bs IH]; [cbn; lia|].
  cbn [le_val length]. rewrite Nat2Z.inj_succ, Z.pow_succ_r by lia.
  pose proof (b2z_bound b). lia.
Qed.

Lemma le_val_bytes n z : le_val (le_bytes n z) = z mod 256 ^ Z.of_nat n.
Proof.
  revert z; induction n as [|n IH]; intros z.
  - cbn. by rewrite Z.mod_1_r.
  - cbn [le_bytes le_val]. rewrite IH, b2z_z2b, Nat2Z.inj_succ, Z.pow_succ_r by lia.
    rewrite (Z.rem_mul_r z 256); lia.
Qed.

Lemma le_bytes_val bs : le_bytes (length bs) (le_val bs) = bs.
Proof.
  induction bs as [|b bs IH]; [done|]. cbn [le_val length le_bytes].
  pose proof (b2z_bound b). f_equal.
  - unfold z2b. rewrite Z.mul_comm, Z.mod_add by lia. apply z2b_b2z.
  - rewrite Z.mul_comm, Z.div_add, Z.div_small by lia. exact IH.
Qed.

(** Byte swap of an [n]-byte integer: [htons]/[ntohs] are [bswap 2] and
    [htonl]/[ntohl] are [bswap 4]. *)
Definition bswap (n : nat) (z : Z) : Z := le_val (rev (le_bytes n z)).
Abbreviation htons := (bswap 2).
Abbreviation ntohs := (bswap 2).
Abbreviation htonl := (bswap 4).
Abbreviation ntohl := (bswap 4).

Lemma bswap_bound n z : 0 <= bswap n z < 256 ^ Z.of_nat n.
Proof.
  unfold bswap. pose proof (le_val_bound (rev (le_bytes n z))) as H.
  by rewrite length_rev, le_bytes_length in H.
Qed.

Lemma bswap_bswap n z : 0 <= z < 256 ^ Z.of_nat n -> bswap n (bswap n z) = z.
Proof.
  intros Hz. unfold bswap.
  replace (le_bytes n (le_val (rev (le_bytes n z)))) with (rev (le_bytes n z)).
  - rewrite rev_involutive, le_val_bytes. by apply Z.mod_small.
  - rewrite <- (le_bytes_val (rev (le_bytes n z))) at 1.
    by rewrite length_rev, le_bytes_length.
Qed.

(** [splice pos bs mem] is [mem] with [bs] written at offset [pos]. *)
Definition splice (pos : nat) (bs mem : bytes) : bytes :=
  take pos mem ++ bs ++ drop (pos + length bs) mem.

Lemma splice_length pos bs mem :
  (pos + length bs <= length mem)%nat -> length (splice pos bs mem) = length mem.
Proof. intros. unfold splice. rewrite !length_app, length_take, length_drop. lia. Qed.

Lemma take_splice_end pos bs mem :
  (pos <= length mem)%nat -> take (pos + length bs) (splice pos bs mem) = take pos mem ++ bs.
Proof.
  intros. unfold splice. rewrite (app_assoc (take pos mem)).
  rewrite take_app_le by (rewrite length_app, length_take; lia).
  apply firstn_all2. rewrite length_app, length_take. lia.
Qed.

(** Closed membership goals, by evaluation. *)
Ltac not_in := refine (bool_decide_eq_false_1 _ _); vm_compute; reflexivity.

(** Where a prefix of a concatenation ends. *)
Lemma app_split_le {A} (bs i d rest : list A) :
  bs ++ i = d ++ rest -> (length bs <= length d)%nat ->
  bs = take (length bs) d /\ i = drop (length bs) d ++ rest.
Proof.
  intros E L.
  assert (bs = take (length bs) (bs ++ i)) as H1 by (by rewrite take_app_length).
  assert (i = drop (length bs) (bs ++ i)) as H2 by (by rewrite drop_app_length).
  rewrite E in H1, H2. rewrite take_app_le in H1 by done. rewrite drop_app_le in H2 by done. done.
Qed.

(** ** A state monad with undefined behaviour

    [M S A] is a computation on a state [S]; [None] is undefined behaviour
    (an access out of bounds, a null or dangling pointer, a failed assertion),
    so a theorem whose conclusion is [Some _] shows its absence. *)

Definition M (S A : Type) : Type := S -> option (A * S).

#[global] Instance M_ret S : MRet (M S) := fun A a s => Some (a, s).
#[global] Instance M_bind S : MBind (M S) := fun A B f m s =>
  match m s with Some (a, s') => f a s' | None => None end.

Definition gets {S A} (f : S -> A) : M S A := fun s => Some (f s, s).
Definition modify {S} (f : S -> S) : M S () := fun s => Some ((), f s).
Definition ub {S A} : M S A := fun _ => None.
(** A call to code outside the program, which always returns. *)
Definition call {S A} (f : S -> A * S) : M S A := fun s => Some (f s).
(** Dereference of a pointer or an access by index. *)
Definition deref {S A} (o : option A) : M S A := fun s =>
  match o with Some a => Some (a, s) | None => None end.
Definition when {S} (b : bool) (m : M S ()) : M S () := if b then m else mret ().

(** A computation on a part of the state. *)
Definition zoom {S T A} (get : S -> T) (set : T -> S -> S) (m : M T A) : M S A := fun s =>
  match m (get s) with Some (a, t) => Some (a, set t s) | None => None end.

Lemma zoom_run {S T A} (get : S -> T) set (m : M T A) s a t :
  m (get s) = Some (a, t) -> zoom get set m s = Some (a, set t s).
Proof. unfold zoom. by intros ->. Qed.

Lemma zoom_inv {S T A} (get : S -> T) set (m : M T A) s a s' :
  zoom get set m s = Some (a, s') -> exists t, m (get s) = Some (a, t) /\ s' = set t s.
Proof. unfold zoom. destruct (m (get s)) as [[b t]|]; [|done]. intros [= <- <-]. eauto. Qed.

Lemma bind_Some {S A B} (m : M S A) (f : A -> M S B) s r :
  (m ≫= f) s = Some r <-> exists a s', m s = Some (a, s') /\ f a s' = Some r.
Proof.
  unfold mbind, M_bind. destruct (m s) as [[a s']|]; split.
  - eauto.
  - intros (? & ? & [= <- <-] & ?). done.
  - done.
  - intros (? & ? & ? & ?). done.
Qed.

Lemma bind_run {S A B} (m : M S A) (f : A -> M S B) s a s' :
  m s = Some (a, s') -> (m ≫= f) s = f a s'.
Proof. unfold mbind, M_bind. by intros ->. Qed.

Lemma bind_mret {S A B} (a : A) (f : A -> M S B) s : (mret a ≫= f) s = f a s.
Proof. done. Qed.

Lemma call_run {S A} (f : S -> A * S) s a s' : f s = (a, s') -> call f s = Some (a, s').
Proof. unfold call. by intros ->. Qed.

Lemma deref_run {S A} (o : option A) a (s : S) : o = Some a -> deref o s = Some (a, s).
Proof. unfold deref. by intros ->. Qed.

Lemma deref_inv {S A} (o : option A) a (s s' : S) : deref o s = Some (a, s') -> o = Some a /\ s' = s.
Proof. unfold deref. destruct o; [|done]. by intros [= <- <-]. Qed.

(** [minv] takes a run of a computation apart, one bind at a time. *)
Ltac minv_step :=
  match goal with
  | H : (_ ≫= _) _ = Some _ |- _ => apply bind_Some in H as (? & ? & ? & H)
  | H : mret _ _ = Some _ |- _ => injection H as <- <- || (injection H; clear H; intros)
  | H : ub _ = Some _ |- _ => discriminate H
  | H : call _ _ = Some _ |- _ => unfold call in H; injection H; clear H; intros
  | H : gets _ _ = Some _ |- _ => injection H; clear H; intros
  | H : modify _ _ = Some _ |- _ => injection H; clear H; intros
  | H : Some _ = Some _ |- _ => injection H; clear H; intros
  | H : (_, _) = (_, _) |- _ => injection H; clear H; intros
  end.
Ltac minv := repeat (minv_step; subst; cbn beta iota zeta in * ).

(** One bind of a run: its result, the state after it and its equation. *)
Tactic Notation "step" hyp(E) "as" simple_intropattern(x) simple_intropattern(s) simple_intropattern(E1) :=
  apply bind_Some in E as (x & s & E1 & E).

(** The same for computations that only fail, with their conditions. *)
Ltac take_apart := repeat match goal with
  | H : (_ ≫= _) = Some _ |- _ => apply option.bind_Some in H as (? & ? & H)
  | H : (if ?b then _ else _) = Some _ |- _ => destruct b
  | H : None = Some _ |- _ => discriminate H
  | H : Some _ = Some _ |- _ => injection H as H
  | p : _ * _ |- _ => destruct p
  end; subst.

(** Evaluate the first bind of the goal with a known run. *)
Ltac mrun H := rewrite (bind_run _ _ _ _ _ H); cbn beta iota zeta.
(** The same for a call outside the program and for a pointer that is valid. *)
Ltac mcall H := rewrite (bind_run _ _ _ _ _ (call_run _ _ _ _ H)); cbn beta iota zeta.
Ltac mderef H := rewrite (bind_run _ _ _ _ _ (deref_run _ _ _ H)); cbn beta iota zeta.
(** A bind of a value that is returned at once. *)
Ltac mpure := rewrite bind_mret; cbn beta iota zeta.

(** ** Frames

    [keeps R m]: whatever [m] does relates its states by [R].  [frame] walks
    through a computation; the components add what they know of their
    operations to the [frame] hints. *)

Definition keeps {S A} (R : relation S) (m : M S A) : Prop := forall s a s', m s = Some (a, s') -> R s s'.

Lemma keeps_run {S A} (R : relation S) (m : M S A) s a s' : m s = Some (a, s') -> keeps R m -> R s s'.
Proof. intros E K. by eapply K. Qed.

Create HintDb frame.

Section Keeps.
Context {S : Type} (R : relation S) `{PR : !PreOrder R}.

Lemma keeps_ret {A} (a : A) : keeps R (mret a).
Proof using PR. intros s ? ? [= <- <-]. reflexivity. Qed.
Lemma keeps_bind {A B} (m : M S A) (f : A -> M S B) :
  keeps R m -> (forall a, keeps R (f a)) -> keeps R (m ≫= f).
Proof using PR.
  intros Hm Hf s b s' (a & s1 & E & E')%bind_Some. transitivity s1; [by eapply Hm|by eapply Hf].
Qed.
Lemma keeps_gets {A} (f : S -> A) : keeps R (gets f).
Proof using PR. intros s ? ? [= <- <-]. reflexivity. Qed.
Lemma keeps_ub {A} : keeps R (ub (A := A)).
Proof. done. Qed.
Lemma keeps_deref {A} (o : option A) : keeps R (deref o).
Proof using PR. intros s a s'. unfold deref. destruct o; [|done]. intros [= <- <-]. reflexivity. Qed.
Lemma keeps_when b (m : M S ()) : keeps R m -> keeps R (when b m).
Proof using PR. intros H. destruct b; [done|apply keeps_ret]. Qed.
Lemma keeps_call {A} (f : S -> A * S) : (forall s, R s (f s).2) -> keeps R (call f).
Proof. intros H s a s' [= E]. specialize (H s). by rewrite E in H. Qed.
Lemma keeps_modify (f : S -> S) : (forall s, R s (f s)) -> keeps R (modify f).
Proof. intros H s [] s' [= <-]. done. Qed.
End Keeps.

Lemma keeps_zoom {S T A} (R : relation S) (RT : relation T) (get : S -> T) set (m : M T A) :
  keeps RT m -> (forall s t, RT (get s) t -> R s (set t s)) -> keeps R (zoom get set m).
Proof. intros Hm H s a s' (t & E & ->)%zoom_inv. eapply H, Hm, E. Qed.

#[export] Hint Resolve keeps_ret keeps_gets keeps_ub keeps_deref keeps_when keeps_call keeps_modify : frame.

Ltac frame_step :=
  match goal with
  | |- forall _, _ => intro
  | |- PreOrder _ => tc_solve
  | |- keeps _ (_ ≫= _) => apply keeps_bind
  | |- keeps _ (when _ _) => apply keeps_when
  | |- keeps _ (if ?b then _ else _) => destruct b
  | |- keeps _ (let '(_, _) := ?x in _) => destruct x
  | |- keeps _ (match ?x with _ => _ end) => destruct x
  | |- keeps _ ?m => solve [auto with frame typeclass_instances]
  end.
Ltac frame := repeat frame_step.
