(* ===== verification/CtxHelper.v ===== *)
(** * CtxHelper: passing a pointer through [makecontext]

    Models src/src/ctx_helper.h: [makecontext] hands only [int] arguments to
    the entry function of a coroutine, so [BizProcedure::Procedure] splits
    [this] in two ints and [BizProcedure::Process_] rebuilds it. *)

From Stdlib Require Import ZArith Lia.
From stdpp Require Import base numbers.
From S2P Require Import Prelude.

Module CtxHelper.

Definition kLow32Int : Z := Z.shiftl 1 32 - 1.

(** [(int)(args >> 32)] and [(int)(args & kLow32Int)]. *)
Definition PtrToInts (args : Z) : Z * Z :=
  (i32 (Z.shiftr args 32), i32 (Z.land args kLow32Int)).

(** [((size_t)(uint32_t)hign << 32) | (size_t)(uint32_t)low]. *)
Definition IntsToPtr (hign low : Z) : Z :=
  let hign_ptr := u32 hign in
  let low_ptr := u32 low in
  Z.lor (u64 (Z.shiftl hign_ptr 32)) low_ptr.

Lemma lor_shiftl_low a b : 0 <= a -> in_uint 32 b ->
  Z.lor (Z.shiftl a 32) b = a * 2 ^ 32 + b.
Proof.
  intros Ha [Hb1 Hb2]. symmetry.
  rewrite Z.shiftl_mul_pow2 by lia. rewrite Z.add_nocarry_lxor, <- Z.lxor_lor; try done.
  all: apply Z.bits_inj'; intros n Hn; rewrite Z.land_spec, Z.bits_0.
  all: rewrite <- Z.shiftl_mul_pow2 by lia; rewrite Z.shiftl_spec by lia.
  all: destruct (Z.lt_ge_cases n 32); [rewrite Z.testbit_neg_r by lia; done|].
  all: rewrite (testbit_high b 32 n), andb_false_r by (unfold in_uint; lia); done.
Qed.

(** C27: a 64-bit pointer split by [PtrToInts] is rebuilt exactly by
    [IntsToPtr], although both halves pass through signed 32-bit ints. *)
Theorem PtrToInts_IntsToPtr (p : Z) :
  in_uint 64 p ->
  IntsToPtr (PtrToInts p).1 (PtrToInts p).2 = p /\
  in_sint 32 (PtrToInts p).1 /\ in_sint 32 (PtrToInts p).2.
Proof.
  intros Hp. unfold IntsToPtr, PtrToInts; simpl.
  split; [|split; apply swrap_bound; lia].
  rewrite !uwrap_swrap by lia.
  change kLow32Int with (Z.ones 32). rewrite Z.land_ones by lia.
  rewrite Z.shiftr_div_pow2 by lia.
  unfold in_uint in Hp.
  assert (0 <= p / 2 ^ 32 < 2 ^ 32).
  { split; [apply Z.div_pos; lia|apply Z.div_lt_upper_bound; lia]. }
  rewrite (uwrap_small 32 (p / 2 ^ 32)) by (unfold in_uint; lia).
  rewrite (uwrap_small 32 (p mod 2 ^ 32)) by (unfold in_uint; apply Z.mod_pos_bound; lia).
  rewrite uwrap_small.
  - rewrite lor_shiftl_low; [|lia|unfold in_uint; apply Z.mod_pos_bound; lia].
    rewrite Z.mul_comm. symmetry. apply Z.div_mod; lia.
  - unfold in_uint. rewrite Z.shiftl_mul_pow2 by lia. lia.
Qed.

Lemma PtrToInts_IntsToPtr_witness :
  IntsToPtr (PtrToInts 140737488355327).1 (PtrToInts 140737488355327).2 = 140737488355327.
Proof. apply (PtrToInts_IntsToPtr 140737488355327). unfold in_uint; lia. Defined.

End CtxHelper.
