(* ===== verification/Heap.v ===== *)
(** * Heap: the binary heap with handles of the event driver

    Models src/deps/public-cpp/include/public-cpp/heap.hpp, class
    [HeapBase<Val, Order, FeatureF>].  The heap is an array of pointers to
    [HeapItem] nodes, [heap_items_[0]] unused; a node stores its own position,
    and the handle ([sign]) given to the client is the node's address.  Nodes
    live in a store [nodes]; an address is a positive [nat], 0 being NULL.
    Positions and sizes are [int] in the code and [nat] here: the array doubles,
    so nothing wraps below [2 ^ 30] nodes, one per open descriptor.
    Every array or node access is partial: [None] is an access out of bounds,
    and the theorems show that it never happens on a well-formed heap.

    The abstract view of a heap is [live], the finite map from the handles in
    use to their values: [Insert], [Update] and [Erase] are insertion, update
    and deletion in that map, and [Top] is a minimum of it. *)

From Stdlib Require Import ZArith Lia ZifyNat.
From stdpp Require Import base list gmap option numbers.
From S2P Require Import Prelude.

Local Open Scope nat_scope.
#[local] Arguments Nat.div : simpl never.
#[local] Ltac Zify.zify_post_hook ::= Z.div_mod_to_equations.

(** ** The heap order on an array of keys

    [g i] is the key at position [i]; the children of [i] are [2i] and [2i+1]. *)
Module HeapOrder.

Definition ordered (g : nat -> Z) (n : nat) : Prop :=
  forall i, 2 <= i <= n -> (g (i / 2)%nat <= g i)%Z.

(** In order except that [g p] may be too small for its parent. *)
Definition ord_up (g : nat -> Z) (n p : nat) : Prop :=
  (forall i, 2 <= i <= n -> i <> p -> (g (i / 2)%nat <= g i)%Z) /\
  (forall i, 2 <= i <= n -> i / 2 = p -> 2 <= p -> (g (p / 2)%nat <= g i)%Z).

(** In order except that [g p] may be too large for its children. *)
Definition ord_dn (g : nat -> Z) (n p : nat) : Prop :=
  (forall i, 2 <= i <= n -> i / 2 <> p -> (g (i / 2)%nat <= g i)%Z) /\
  (forall i, 2 <= i <= n -> i / 2 = p -> 2 <= p -> (g (p / 2)%nat <= g i)%Z).

(** In order except at [p], in either direction. *)
Definition ord_at (g : nat -> Z) (n p : nat) : Prop :=
  (forall i, 2 <= i <= n -> i <> p -> i / 2 <> p -> (g (i / 2)%nat <= g i)%Z) /\
  (forall i, 2 <= i <= n -> i / 2 = p -> 2 <= p -> (g (p / 2)%nat <= g i)%Z).

Definition swap (g : nat -> Z) (i j k : nat) : Z :=
  if decide (k = i) then g j else if decide (k = j) then g i else g k.

Ltac half := unfold swap in *; repeat case_decide; subst; try lia.

(** Two key arrays that agree on the positions in use are in the same order. *)
Ltac ext_solve p :=
  intros E Hp [H1 H2]; split; intros i; intros;
  [rewrite <- (E i), <- (E (i / 2)) by lia|rewrite <- (E i), <- (E (p / 2)) by lia]; auto.

Lemma ordered_ext g g' n : (forall i, 1 <= i <= n -> g i = g' i) -> ordered g n -> ordered g' n.
Proof. intros E H i Hi. rewrite <- (E i), <- (E (i / 2)) by lia. by apply H. Qed.

Lemma ord_up_ext g g' n p : (forall i, 1 <= i <= n -> g i = g' i) -> p <= n -> ord_up g n p -> ord_up g' n p.
Proof. ext_solve p. Qed.

Lemma ord_dn_ext g g' n p : (forall i, 1 <= i <= n -> g i = g' i) -> p <= n -> ord_dn g n p -> ord_dn g' n p.
Proof. ext_solve p. Qed.

Lemma ord_at_ext g g' n p : (forall i, 1 <= i <= n -> g i = g' i) -> p <= n -> ord_at g n p -> ord_at g' n p.
Proof. ext_solve p. Qed.

Lemma up_step g n p : 2 <= p <= n -> ord_up g n p -> (g p < g (p / 2)%nat)%Z ->
  ord_up (swap g p (p / 2)) n (p / 2).
Proof.
  intros Hp [H1 H2] Hlt.
  assert (forall i, 2 <= i <= n -> i <> p -> (g (i / 2)%nat <= g i)%Z) as H1' by auto.
  split.
  - intros i Hi Hne. unfold swap.
    destruct (decide (i = p)) as [->|Hip].
    + half.
    + destruct (decide (i / 2 = p)) as [E|E].
      * specialize (H2 i Hi E). half.
      * destruct (decide (i / 2 = p / 2)) as [E2|E2].
        -- specialize (H1 i Hi Hip). rewrite E2 in H1. half.
        -- specialize (H1 i Hi Hip). half.
  - intros i Hi E Hp2. unfold swap.
    assert (g (p / 2 / 2)%nat <= g (p / 2)%nat)%Z by (apply H1'; lia).
    destruct (decide (i = p)) as [->|Hip]; [half|].
    specialize (H1 i Hi Hip). rewrite E in H1. half.
Qed.

Lemma up_stop g n p : ord_up g n p -> (p < 2 \/ (g (p / 2)%nat <= g p)%Z) -> ordered g n.
Proof.
  intros [H1 H2] Hs i Hi. destruct (decide (i = p)) as [->|]; [|auto].
  destruct Hs; [lia|done].
Qed.

Lemma dn_step g n p m : 1 <= p -> (m = 2 * p \/ m = 2 * p + 1) -> m <= n ->
  (forall c, 2 <= c <= n -> c / 2 = p -> (g m <= g c)%Z) ->
  ord_dn g n p -> (g m <= g p)%Z -> ord_dn (swap g p m) n m.
Proof.
  intros Hp Hm Hn Hmin [H1 H2] Hle. assert (m / 2 = p) as Hm2 by lia.
  split.
  - intros i Hi Hne.
    destruct (decide (i = p)) as [->|Hip].
    + specialize (H1 p Hi). specialize (H2 m ltac:(lia) Hm2). half.
    + destruct (decide (i / 2 = p)) as [E|E].
      * specialize (Hmin i Hi E). half.
      * specialize (H1 i Hi E). half.
  - intros i Hi E _. rewrite Hm2. specialize (H1 i Hi ltac:(lia)). rewrite E in H1. half.
Qed.

Lemma dn_stop g n p : ord_dn g n p ->
  (forall c, 2 <= c <= n -> c / 2 = p -> (g p <= g c)%Z) -> ordered g n.
Proof.
  intros [H1 H2] Hs i Hi. destruct (decide (i / 2 = p)) as [E|]; [|auto].
  rewrite E. auto.
Qed.

Lemma ord_at_up g n p : ord_at g n p -> 2 <= p <= n -> (g p < g (p / 2)%nat)%Z -> ord_up g n p.
Proof.
  intros [H1 H2] Hp Hlt. split; [|done]. intros i Hi Hne.
  destruct (decide (i / 2 = p)) as [E|]; [|auto].
  specialize (H2 i Hi E ltac:(lia)). rewrite E. lia.
Qed.

Lemma ord_at_dn g n p : ord_at g n p -> (p < 2 \/ (g (p / 2)%nat <= g p)%Z) -> ord_dn g n p.
Proof.
  intros [H1 H2] Hs. split; [|done]. intros i Hi Hne.
  destruct (decide (i = p)) as [->|]; [|auto]. destruct Hs; [lia|done].
Qed.

Lemma ordered_at g n p : ordered g n -> ord_at g n p.
Proof.
  intros H. split; [auto|]. intros i Hi E Hp.
  transitivity (g p); [apply H; lia|]. rewrite <- E. apply H. lia.
Qed.

(** Replacing one key of an ordered array leaves it in order except there. *)
Lemma ordered_upd_at g g' n p : ordered g n -> (forall i, i <> p -> g' i = g i) -> ord_at g' n p.
Proof.
  intros H E. split; intros i Hi; intros.
  - rewrite (E i), (E (i / 2)) by lia. auto.
  - rewrite (E (p / 2)), (E i) by lia.
    transitivity (g p); [apply H; lia|]. subst p. apply H. lia.
Qed.

(** The root of an ordered array is a minimum. *)
Lemma ordered_root g n i : ordered g n -> 1 <= i <= n -> (g 1%nat <= g i)%Z.
Proof.
  intros H. induction i as [i IH] using lt_wf_ind. intros Hi.
  destruct (decide (i = 1)) as [->|]; [done|].
  transitivity (g (i / 2)%nat); [apply IH; lia|apply H; lia].
Qed.

End HeapOrder.

(** ** The heap *)
Module Heap.
Import HeapOrder.

Section Heap.
Context {Val : Type} `{Inhabited Val}.
(** [FeatureF] and the template argument [Order] ([false] is [kMinHeap]). *)
Variable feature : Val -> Z.
Variable Order : bool.

Record Node := mkNode { index : nat; val : Val }.

Record HeapBase := mkHeap {
  init_size_heap_ : nat;
  num_items_ : nat;
  size_container_ : nat;
  heap_items_ : list nat;
  init_ : bool;
  nodes : gmap nat Node;
  next_node : nat
}.

Definition with_items (h : HeapBase) (l : list nat) : HeapBase :=
  mkHeap (init_size_heap_ h) (num_items_ h) (size_container_ h) l (init_ h) (nodes h) (next_node h).
Definition with_nodes (h : HeapBase) (m : gmap nat Node) : HeapBase :=
  mkHeap (init_size_heap_ h) (num_items_ h) (size_container_ h) (heap_items_ h) (init_ h) m (next_node h).
Definition with_num (h : HeapBase) (n : nat) : HeapBase :=
  mkHeap (init_size_heap_ h) n (size_container_ h) (heap_items_ h) (init_ h) (nodes h) (next_node h).

(** [HeapBase::HeapBase]: nothing is allocated before the first use. *)
Definition HeapBase_new (init_size_heap : nat) : HeapBase :=
  mkHeap init_size_heap 0 0 [] false ∅ 1.

(** [k] fresh nodes ([XFC_NEW] of [HeapItem], fields not initialised). *)
Definition fresh_nodes (h : HeapBase) (k : nat) : gmap nat Node :=
  list_to_map ((fun n => (n, mkNode 0 inhabitant)) <$> seq (next_node h) k).

Definition Init_ (h : HeapBase) : HeapBase :=
  let size := init_size_heap_ h in
  mkHeap size 0 size (seq (next_node h) size) true
    (fresh_nodes h size ∪ nodes h) (next_node h + size).

(** [XFC_RAII_INIT]. *)
Definition raii_init (h : HeapBase) : HeapBase := if init_ h then h else Init_ h.

Definition Resize_ (h : HeapBase) : HeapBase :=
  let size := size_container_ h in
  mkHeap (init_size_heap_ h) (num_items_ h) (2 * size)
    (heap_items_ h ++ seq (next_node h) size) (init_ h)
    (fresh_nodes h size ∪ nodes h) (next_node h + size).

(** Array and node accesses; [None] is an access out of bounds. *)
Definition set_item (h : HeapBase) (i n : nat) : option HeapBase :=
  if decide (i < length (heap_items_ h)) then Some (with_items h (<[i:=n]> (heap_items_ h))) else None.
Definition set_index (h : HeapBase) (n i : nat) : option HeapBase :=
  nd ← nodes h !! n; Some (with_nodes h (<[n:=mkNode i (val nd)]> (nodes h))).
Definition set_val (h : HeapBase) (n : nat) (v : Val) : option HeapBase :=
  nd ← nodes h !! n; Some (with_nodes h (<[n:=mkNode (index nd) v]> (nodes h))).

Definition compare_vals (v1 v2 : Val) : bool :=
  if Order then bool_decide (feature v2 < feature v1)%Z else bool_decide (feature v1 < feature v2)%Z.

Definition Compare_ (h : HeapBase) (node1 node2 : nat) : option bool :=
  n1 ← nodes h !! node1; n2 ← nodes h !! node2; Some (compare_vals (val n1) (val n2)).

(** [heap_items_[i] = n; heap_items_[i]->index = i;] *)
Definition place (h : HeapBase) (i n : nat) : option HeapBase :=
  h1 ← set_item h i n; set_index h1 n i.

(** [while (iter>1 && Compare_(node, heap_items_[iter>>1])) {...}], the loop of
    [Insert] and of the "upstairs" branch of [AdjustNode_]. *)
Fixpoint upstairs (fuel : nat) (h : HeapBase) (node iter : nat) : option (HeapBase * nat) :=
  match fuel with
  | 0 => None
  | S fuel =>
      if decide (1 < iter) then
        p ← heap_items_ h !! (iter / 2);
        c ← Compare_ h node p;
        if (c : bool) then
          h' ← place h iter p;
          upstairs fuel h' node (iter / 2)
        else Some (h, iter)
      else Some (h, iter)
  end.

(** The position of the smaller child of [pos], [iter] being [2 * pos]. *)
Definition min_child (h : HeapBase) (iter : nat) : option nat :=
  if decide (iter = num_items_ h) then Some iter
  else
    a ← heap_items_ h !! iter;
    b ← heap_items_ h !! (iter + 1);
    c ← Compare_ h a b;
    Some (if (c : bool) then iter else iter + 1).

Fixpoint downstairs (fuel : nat) (h : HeapBase) (node pos : nat) : option (HeapBase * nat) :=
  match fuel with
  | 0 => None
  | S fuel =>
      let iter := 2 * pos in
      if decide (iter <= num_items_ h) then
        min ← min_child h iter;
        m ← heap_items_ h !! min;
        c ← Compare_ h node m;
        if (c : bool) then Some (h, pos)
        else
          h' ← place h pos m;
          downstairs fuel h' node min
      else Some (h, pos)
  end.

Definition AdjustNode_ (h : HeapBase) (index : nat) : option HeapBase :=
  if decide (num_items_ h < index) then Some h
  else
    node ← heap_items_ h !! index;
    up ← (if decide (1 < index) then p ← heap_items_ h !! (index / 2); Compare_ h node p
          else Some false);
    '(h', i) ← (if (up : bool) then upstairs (S index) h node index
                else downstairs (S (num_items_ h)) h node index);
    place h' i node.

(** [Insert]: the new heap and the handle. *)
Definition Insert (h : HeapBase) (v : Val) : option (HeapBase * nat) :=
  let h := raii_init h in
  let h := if decide (num_items_ h + 1 = size_container_ h) then Resize_ h else h in
  let num := num_items_ h + 1 in
  new_item ← heap_items_ h !! num;
  h ← set_val (with_num h num) new_item v;
  '(h, iter) ← upstairs (S num) h new_item num;
  h ← place h iter new_item;
  Some (h, new_item).

Definition Update (h : HeapBase) (sign : nat) (v : Val) : option HeapBase :=
  let h := raii_init h in
  h ← set_val h sign v;
  item ← nodes h !! sign;
  AdjustNode_ h (index item).

Definition UpdateTop (h : HeapBase) (v : Val) : option HeapBase :=
  let h := raii_init h in
  if decide (num_items_ h = 0) then Some h
  else
    top ← heap_items_ h !! 1;
    h ← set_val h top v;
    AdjustNode_ h 1.

Definition Refresh (h : HeapBase) (sign : nat) : option HeapBase :=
  let h := raii_init h in
  item ← nodes h !! sign; AdjustNode_ h (index item).

Definition RefreshTop (h : HeapBase) : option HeapBase := AdjustNode_ (raii_init h) 1.

Definition Erase (h : HeapBase) (sign : nat) : option HeapBase :=
  let h := raii_init h in
  if decide (num_items_ h = 0) then Some h
  else
    item ← nodes h !! sign;
    last ← heap_items_ h !! num_items_ h;
    h1 ← set_item h (index item) last;
    h2 ← set_item h1 (num_items_ h) sign;
    let h3 := with_num h2 (num_items_ h - 1) in
    moved ← heap_items_ h3 !! index item;
    h4 ← set_index h3 moved (index item);
    item ← nodes h4 !! sign;
    AdjustNode_ h4 (index item).

Definition Pop (h : HeapBase) : option HeapBase :=
  let h := raii_init h in
  top ← heap_items_ h !! 1; Erase h top.

(** [Top]: the root's value, if any. *)
Definition Top (h : HeapBase) : option Val :=
  if decide (num_items_ h = 0) then None
  else n ← heap_items_ h !! 1; nd ← nodes h !! n; Some (val nd).

Definition Item (h : HeapBase) (sign : nat) : option Val := val <$> nodes h !! sign.
Definition Size (h : HeapBase) : nat := num_items_ h.
Definition Clear (h : HeapBase) : HeapBase := with_num h 0.

(** *** The abstract view *)

(** The map from the handles in use to their values. *)
Definition entry (h : HeapBase) (n : nat) : option (nat * Val) := nd ← nodes h !! n; Some (n, val nd).
Definition slots (h : HeapBase) : list nat := take (num_items_ h) (drop 1 (heap_items_ h)).
Definition live (h : HeapBase) : gmap nat Val := list_to_map (omap (entry h) (slots h)).

Definition valof (h : HeapBase) (n : nat) : option Val := val <$> nodes h !! n.
Definition idxof (h : HeapBase) (n : nat) : option nat := index <$> nodes h !! n.
Definition used (h : HeapBase) (n : nat) : Prop :=
  exists i, 1 <= i <= num_items_ h /\ heap_items_ h !! i = Some n.

(** Keys: the feature, negated for a max-heap, so that the root has the least. *)
Definition keyv (v : Val) : Z := if Order then (- feature v)%Z else feature v.
Definition key (h : HeapBase) (i : nat) : Z :=
  from_option keyv 0%Z (heap_items_ h !! i ≫= valof h).

Record shape (h : HeapBase) : Prop := {
  sh_init : init_ h = true;
  sh_len : length (heap_items_ h) = size_container_ h;
  sh_num : num_items_ h + 1 <= size_container_ h;
  sh_inj : forall i j n, heap_items_ h !! i = Some n -> heap_items_ h !! j = Some n -> i = j;
  sh_node : forall i n, heap_items_ h !! i = Some n -> 0 < n /\ is_Some (nodes h !! n);
  sh_fresh : forall n, is_Some (nodes h !! n) -> n < next_node h
}.

(** The node at each position in use, [skip] excepted, knows its position. *)
Definition idx_ok (h : HeapBase) (skip : nat -> Prop) : Prop :=
  forall i n, 1 <= i <= num_items_ h -> ~ skip i -> heap_items_ h !! i = Some n -> idxof h n = Some i.

(** The representation invariant of an initialised heap. *)
Record wf (h : HeapBase) : Prop := {
  wf_shape : shape h;
  wf_idx : idx_ok h (fun _ => False);
  wf_ord : ordered (key h) (num_items_ h)
}.

(** What the adjustments keep: the sizes, the handles in use and their values. *)
Record frame (h h' : HeapBase) : Prop := {
  fr_num : num_items_ h' = num_items_ h;
  fr_size : size_container_ h' = size_container_ h;
  fr_isize : init_size_heap_ h' = init_size_heap_ h;
  fr_used : forall n, used h' n <-> used h n;
  fr_val : forall n, valof h' n = valof h n
}.

Definition hole (h : HeapBase) (i n : nat) : HeapBase := with_items h (<[i:=n]> (heap_items_ h)).

Lemma frame_refl h : frame h h.
Proof. by split. Qed.

Lemma frame_trans h1 h2 h3 : frame h1 h2 -> frame h2 h3 -> frame h1 h3.
Proof.
  intros [] []. split; try congruence.
  intros n. by rewrite fr_used1, fr_used0.
Qed.

Lemma compare_vals_keyv v1 v2 : compare_vals v1 v2 = bool_decide (keyv v1 < keyv v2)%Z.
Proof. unfold compare_vals, keyv. destruct Order; apply bool_decide_ext; lia. Qed.

Lemma item_some h i : shape h -> i < size_container_ h -> exists n nd, heap_items_ h !! i = Some n /\ nodes h !! n = Some nd.
Proof.
  intros Hs Hi. destruct (lookup_lt_is_Some_2 (heap_items_ h) i) as [n Hn]; [rewrite sh_len; done|].
  destruct (sh_node h Hs i n Hn) as [_ [nd ?]]. eauto.
Qed.

Lemma Compare_keys h a b x y : valof h a = Some x -> valof h b = Some y ->
  Compare_ h a b = Some (bool_decide (keyv x < keyv y)%Z).
Proof.
  unfold valof, Compare_. intros Ha Hb.
  destruct (nodes h !! a) as [na|]; simplify_eq/=. destruct (nodes h !! b) as [nb|]; simplify_eq/=.
  by rewrite compare_vals_keyv.
Qed.

Lemma elem_slots h n : n ∈ slots h <-> used h n.
Proof.
  unfold slots. rewrite list_elem_of_lookup. split.
  - intros [i Hi]. rewrite lookup_take_Some, lookup_drop in Hi. exists (1 + i). split; [lia|tauto].
  - intros (i & Hi & Hx). exists (i - 1). rewrite lookup_take_Some, lookup_drop.
    replace (1 + (i - 1)) with i by lia. split; [done|lia].
Qed.

Lemma slots_nodup h : shape h -> NoDup (slots h).
Proof.
  intros Hs. apply NoDup_alt. intros i j x Hi Hj. unfold slots in *.
  rewrite lookup_take_Some, lookup_drop in Hi, Hj.
  pose proof (sh_inj h Hs _ _ _ (proj1 Hi) (proj1 Hj)). lia.
Qed.

Lemma entries_fst h (l : list nat) : Forall (fun n => is_Some (nodes h !! n)) l ->
  (omap (entry h) l).*1 = l.
Proof.
  induction 1 as [|n l [nd E] _ IH]; [done|]. simpl.
  assert (entry h n = Some (n, val nd)) as -> by (unfold entry; by rewrite E). by f_equal/=.
Qed.

Lemma slots_nodes h : shape h -> Forall (fun n => is_Some (nodes h !! n)) (slots h).
Proof. intros Hs. apply Forall_take, Forall_drop, Forall_lookup. intros i n E. by eapply (sh_node _ Hs). Qed.

Lemma live_lookup h n v : shape h -> live h !! n = Some v <-> used h n /\ valof h n = Some v.
Proof.
  intros Hs. unfold live. rewrite <- elem_of_list_to_map by (rewrite entries_fst; auto using slots_nodes, slots_nodup).
  rewrite list_elem_of_omap, <- elem_slots. unfold valof, entry. split.
  - intros (x & Hx & E). destruct (nodes h !! x) as [nd|] eqn:En; simplify_eq/=. by rewrite En.
  - intros [Hu E]. exists n. split; [done|]. destruct (nodes h !! n); by simplify_eq/=.
Qed.

Lemma live_ext h h' : shape h -> shape h' -> (forall n v, used h n /\ valof h n = Some v <-> used h' n /\ valof h' n = Some v) ->
  live h = live h'.
Proof.
  intros H1 H2 E. apply map_eq. intros n. apply option_eq. intros v.
  rewrite !live_lookup by done. apply E.
Qed.

Lemma frame_live h h' : shape h -> shape h' -> frame h h' -> live h' = live h.
Proof. intros H1 H2 []. apply live_ext; [done..|]. intros n v. by rewrite fr_used0, fr_val0. Qed.

(** Moving node [m] from position [j] to the hole at [i] makes [j] the hole:
    one iteration of either loop. *)
Section Move.
Variables (h : HeapBase) (i j node m : nat) (nd : Node).
Hypothesis Hij : i <> j.
Hypothesis Hi : 1 <= i <= num_items_ h.
Hypothesis Hj : 1 <= j <= num_items_ h.
Hypothesis Hm : heap_items_ h !! j = Some m.
Hypothesis Hnd : nodes h !! m = Some nd.
Hypothesis Hs : shape (hole h i node).
Hypothesis Hidx : idx_ok (hole h i node) (eq i).

Definition moved : HeapBase :=
  with_nodes (with_items h (<[i:=m]> (heap_items_ h))) (<[m:=mkNode i (val nd)]> (nodes h)).

Lemma move_len : i < length (heap_items_ h) /\ j < length (heap_items_ h).
Proof using All.
  pose proof (sh_len _ Hs) as E. pose proof (sh_num _ Hs). simpl in *.
  rewrite length_insert in E. lia.
Qed.

Lemma hole_lookup k : heap_items_ (hole h i node) !! k = if decide (k = i) then Some node else heap_items_ h !! k.
Proof using All.
  pose proof move_len. simpl. case_decide; subst; [apply list_lookup_insert_eq; lia|by rewrite list_lookup_insert_ne].
Qed.

Lemma moved_lookup k : heap_items_ (hole moved j node) !! k =
  if decide (k = i) then Some m else if decide (k = j) then Some node else heap_items_ h !! k.
Proof using All.
  pose proof move_len. simpl. destruct (decide (k = i)) as [->|]; [|destruct (decide (k = j)) as [->|]].
  - rewrite list_lookup_insert_ne by done. apply list_lookup_insert_eq. lia.
  - apply list_lookup_insert_eq. rewrite length_insert. lia.
  - by rewrite !list_lookup_insert_ne.
Qed.

(** Position [k] after the move holds what position [sw k] held before. *)
Lemma moved_hole k :
  heap_items_ (hole moved j node) !! k =
  heap_items_ (hole h i node) !! (if decide (k = i) then j else if decide (k = j) then i else k).
Proof using All.
  rewrite moved_lookup, hole_lookup. repeat case_decide; subst; congruence.
Qed.

Lemma moved_val n : valof (hole moved j node) n = valof (hole h i node) n.
Proof using All. unfold valof; simpl. destruct (decide (n = m)) as [->|]; simplify_map_eq; done. Qed.

Lemma moved_nodes n : is_Some (nodes moved !! n) <-> is_Some (nodes h !! n).
Proof using All. simpl. destruct (decide (n = m)) as [->|]; [rewrite lookup_insert_eq, Hnd|rewrite lookup_insert_ne by done]; split; eauto. Qed.

Lemma moved_shape : shape (hole moved j node).
Proof using All.
  split; try (simpl; rewrite ?length_insert; first [apply Hs|done]).
  - pose proof (sh_len _ Hs) as E. simpl in *. by rewrite !length_insert in *.
  - intros a b n. rewrite !moved_hole. intros Ha Hb. pose proof (sh_inj _ Hs _ _ _ Ha Hb).
    repeat case_decide; subst; congruence.
  - intros k n Hk. rewrite moved_hole in Hk. apply (sh_node _ Hs) in Hk as [? ?].
    split; [done|]. by apply moved_nodes.
  - intros n Hn. apply (sh_fresh _ Hs). by apply moved_nodes.
Qed.

Lemma moved_idx : idx_ok (hole moved j node) (eq j).
Proof using All.
  intros k n Hk Hne Hn. rewrite moved_hole in Hn. unfold idxof; simpl.
  destruct (decide (k = i)) as [->|Hki].
  - rewrite hole_lookup, decide_False in Hn by done. simplify_map_eq. done.
  - rewrite decide_False in Hn by congruence.
    rewrite lookup_insert_ne.
    + apply (Hidx k n); [done|congruence|done].
    + intros <-. apply Hne. eapply (sh_inj _ Hs); [|done]. by rewrite hole_lookup, decide_False.
Qed.

Lemma moved_frame : frame (hole h i node) (hole moved j node).
Proof using All.
  split; try done; [|apply moved_val].
  intros n. unfold used. split; intros (k & Hk & E).
  - rewrite moved_hole in E. eexists; split; [|exact E]. simpl in *. repeat case_decide; lia.
  - exists (if decide (k = i) then j else if decide (k = j) then i else k).
    rewrite moved_hole. split; [simpl in *; repeat case_decide; lia|].
    repeat case_decide; subst; congruence.
Qed.

Lemma moved_key k : key (hole moved j node) k = swap (key (hole h i node)) i j k.
Proof using All.
  unfold key, swap. rewrite moved_hole.
  assert (forall o : option nat, o ≫= valof (hole moved j node) = o ≫= valof (hole h i node)) as E.
  { intros [n|]; simpl; [apply moved_val|done]. }
  rewrite E. repeat case_decide; done.
Qed.

Lemma moved_place : place h i m = Some moved.
Proof using All.
  pose proof move_len. unfold place, set_item, set_index. rewrite decide_True by lia. simpl.
  by rewrite Hnd.
Qed.
End Move.

(** Filling the hole ends an adjustment. *)
Lemma place_final h i node :
  1 <= i <= num_items_ h -> shape (hole h i node) -> idx_ok (hole h i node) (eq i) ->
  ordered (key (hole h i node)) (num_items_ h) ->
  exists h', place h i node = Some h' /\ wf h' /\ frame (hole h i node) h'.
Proof.
  intros Hi Hs Hidx Hord.
  pose proof (sh_len _ Hs) as Hlen. pose proof (sh_num _ Hs) as Hnum. simpl in *. rewrite length_insert in Hlen.
  assert (heap_items_ (hole h i node) !! i = Some node) as Hat by (simpl; apply list_lookup_insert_eq; lia).
  destruct (sh_node _ Hs i node Hat) as [Hn0 [nd Hnd]].
  unfold place, set_item, set_index. rewrite decide_True by lia. simpl in *. rewrite Hnd. simpl.
  set (h' := with_nodes _ _).
  assert (forall n, valof h' n = valof (hole h i node) n) as EV.
  { intros n. unfold valof, h'; simpl. destruct (decide (n = node)) as [->|]; simplify_map_eq; done. }
  assert (forall n, is_Some (nodes h' !! n) <-> is_Some (nodes h !! n)) as EN.
  { intros n. unfold h'; simpl. destruct (decide (n = node)) as [->|]; simplify_map_eq; done. }
  eexists; split; [done|]. split; [split|by split].
  - split; try apply Hs.
    + intros k n Hk. rewrite EN. by apply (sh_node _ Hs k n).
    + intros n. rewrite EN. apply (sh_fresh _ Hs).
  - intros k n Hk _ Hn. unfold idxof, h'; simpl. destruct (decide (n = node)) as [->|].
    + rewrite lookup_insert_eq. simpl. f_equal. symmetry. by apply (sh_inj _ Hs k i node).
    + rewrite lookup_insert_ne by done. apply (Hidx k n); [done| |done].
      intros <-. simpl in Hn. congruence.
  - eapply ordered_ext; [|done]. intros k Hk. unfold key. simpl.
    destruct (<[i:=node]> (heap_items_ h) !! k); simpl; [by rewrite EV|done].
Qed.

(** The nodes of a heap with a hole at [i]: the one to place and the others. *)
Lemma hole_key_at h i node : shape (hole h i node) -> 1 <= i <= num_items_ h ->
  exists nd, nodes h !! node = Some nd /\ key (hole h i node) i = keyv (val nd).
Proof.
  intros Hs Hi. pose proof (sh_num _ Hs). pose proof (sh_len _ Hs) as Hl. simpl in *. rewrite length_insert in Hl.
  assert (heap_items_ (hole h i node) !! i = Some node) as Hat by (simpl; apply list_lookup_insert_eq; lia).
  destruct (sh_node _ Hs i node Hat) as [_ [nd Hnd]]. exists nd. split; [done|].
  unfold key, valof. rewrite Hat. simpl in *. by rewrite Hnd.
Qed.

Lemma hole_key_ne h i j node : shape (hole h i node) -> i <> j -> 1 <= j <= num_items_ h ->
  exists m nd, heap_items_ h !! j = Some m /\ nodes h !! m = Some nd /\ key (hole h i node) j = keyv (val nd).
Proof.
  intros Hs Hne Hj. pose proof (sh_num _ Hs). simpl in *.
  destruct (item_some _ j Hs) as (m & nd & Hm & Hnd); [simpl; lia|]. exists m, nd. simpl in *.
  rewrite list_lookup_insert_ne in Hm by done. split_and!; try done.
  unfold key, valof. simpl. rewrite list_lookup_insert_ne by done. rewrite Hm. simpl. by rewrite Hnd.
Qed.

Lemma Compare_nodes h a b na nb : nodes h !! a = Some na -> nodes h !! b = Some nb ->
  Compare_ h a b = Some (bool_decide (keyv (val na) < keyv (val nb))%Z).
Proof. intros Ha Hb. apply Compare_keys; unfold valof; by rewrite ?Ha, ?Hb. Qed.

Lemma upstairs_spec fuel h node i :
  i < fuel -> 1 <= i <= num_items_ h -> shape (hole h i node) ->
  idx_ok (hole h i node) (eq i) -> ord_up (key (hole h i node)) (num_items_ h) i ->
  exists h' i', upstairs fuel h node i = Some (h', i') /\ 1 <= i' <= num_items_ h' /\
    shape (hole h' i' node) /\ idx_ok (hole h' i' node) (eq i') /\
    ordered (key (hole h' i' node)) (num_items_ h') /\ frame (hole h i node) (hole h' i' node).
Proof.
  revert h i. induction fuel as [|fuel IH]; intros h i Hf Hi Hs Hidx Hord; [lia|]. simpl.
  destruct (decide (1 < i)) as [H1|H1].
  2:{ exists h, i. split_and!; try done; try lia; try apply frame_refl. eapply up_stop; [done|lia]. }
  assert (i <> i / 2) as Hne by lia.
  destruct (hole_key_ne h i (i / 2) node Hs Hne ltac:(lia)) as (p & nd & Hp & Hnd & K2).
  destruct (hole_key_at h i node Hs Hi) as (ndn & Hndn & K1).
  rewrite Hp. simpl. rewrite (Compare_nodes h node p ndn nd) by done. simpl.
  case_bool_decide as Hlt.
  - rewrite (moved_place h i (i / 2) node p nd) by (done || lia). simpl.
    destruct (IH (moved h i p nd) (i / 2)) as (h' & i' & E & Hi' & Hs' & Hidx' & Ho' & Hf').
    + lia.
    + simpl; lia.
    + apply moved_shape; (done || lia).
    + apply moved_idx; (done || lia).
    + eapply ord_up_ext; [| simpl; lia|apply (up_step (key (hole h i node)) (num_items_ h) i); [lia|exact Hord|lia]].
      intros k _. symmetry. apply moved_key; (done || lia).
    + exists h', i'. do 5 (split; [done|]). eapply frame_trans; [|done]. apply moved_frame; (done || lia).
  - exists h, i. split_and!; try done; try lia; try apply frame_refl.
    eapply up_stop; [done|]. right. lia.
Qed.

Lemma min_child_spec h node pos :
  shape (hole h pos node) -> 1 <= pos -> 2 * pos <= num_items_ h ->
  exists min, min_child h (2 * pos) = Some min /\ (min = 2 * pos \/ min = 2 * pos + 1) /\
    min <= num_items_ h /\
    forall c, 2 <= c <= num_items_ h -> c / 2 = pos -> (key (hole h pos node) min <= key (hole h pos node) c)%Z.
Proof.
  intros Hs Hp Hn. unfold min_child. case_decide as E.
  - exists (2 * pos). split_and!; try done; try lia. intros c Hc Hc2.
    assert (c = 2 * pos) as -> by lia. lia.
  - destruct (hole_key_ne h pos (2 * pos) node Hs ltac:(lia) ltac:(lia)) as (a & na & Ha & Hna & Ka).
    destruct (hole_key_ne h pos (2 * pos + 1) node Hs ltac:(lia) ltac:(lia)) as (b & nb & Hb & Hnb & Kb).
    rewrite Ha, Hb. cbn [mbind option_bind]. rewrite (Compare_nodes h a b na nb) by done. cbn [mbind option_bind].
    eexists. split; [done|]. case_bool_decide.
    + split_and!; try lia. intros c Hc Hc2. assert (c = 2 * pos \/ c = 2 * pos + 1) as [-> | ->] by lia; lia.
    + split_and!; try lia. intros c Hc Hc2. assert (c = 2 * pos \/ c = 2 * pos + 1) as [-> | ->] by lia; lia.
Qed.

Lemma downstairs_spec fuel h node pos :
  num_items_ h < pos + fuel -> 1 <= pos <= num_items_ h -> shape (hole h pos node) ->
  idx_ok (hole h pos node) (eq pos) -> ord_dn (key (hole h pos node)) (num_items_ h) pos ->
  exists h' i', downstairs fuel h node pos = Some (h', i') /\ 1 <= i' <= num_items_ h' /\
    shape (hole h' i' node) /\ idx_ok (hole h' i' node) (eq i') /\
    ordered (key (hole h' i' node)) (num_items_ h') /\ frame (hole h pos node) (hole h' i' node).
Proof.
  revert h pos. induction fuel as [|fuel IH]; intros h pos Hf Hi Hs Hidx Hord; [lia|].
  cbn [downstairs].
  destruct (decide (2 * pos <= num_items_ h)) as [H1|H1].
  2:{ exists h, pos. split_and!; try done; try lia; try apply frame_refl. eapply dn_stop; [done|lia]. }
  destruct (min_child_spec h node pos Hs ltac:(lia) H1) as (min & -> & Hmin & Hle & Hleast). cbn [mbind option_bind].
  destruct (hole_key_ne h pos min node Hs ltac:(lia) ltac:(lia)) as (m & nd & Hm & Hnd & Km).
  destruct (hole_key_at h pos node Hs Hi) as (ndn & Hndn & Kn).
  rewrite Hm. cbn [mbind option_bind]. rewrite (Compare_nodes h node m ndn nd) by done. cbn [mbind option_bind].
  case_bool_decide as Hlt.
  - exists h, pos. split_and!; try done; try lia; try apply frame_refl.
    eapply dn_stop; [done|]. intros c Hc Hc2. specialize (Hleast c Hc Hc2). lia.
  - rewrite (moved_place h pos min node m nd) by (done || lia). cbn [mbind option_bind].
    destruct (IH (moved h pos m nd) min) as (h' & i' & E & Hi' & Hs' & Hidx' & Ho' & Hf').
    + simpl; lia.
    + simpl; lia.
    + apply moved_shape; (done || lia).
    + apply moved_idx; (done || lia).
    + eapply ord_dn_ext; [| simpl; lia|apply (dn_step (key (hole h pos node)) (num_items_ h) pos min);
        [lia|lia|lia|done|done|lia]].
      intros k _. symmetry. apply moved_key; (done || lia).
    + exists h', i'. do 5 (split; [done|]). eapply frame_trans; [|done]. apply moved_frame; (done || lia).
Qed.

Lemma hole_self h i n : heap_items_ h !! i = Some n -> hole h i n = h.
Proof. intros E. unfold hole. rewrite list_insert_id by done. by destruct h. Qed.

Lemma AdjustNode_spec h i :
  1 <= i -> shape h -> idx_ok h (eq i) -> ord_at (key h) (num_items_ h) i ->
  exists h', AdjustNode_ h i = Some h' /\ wf h' /\ frame h h'.
Proof.
  intros Hi Hs Hidx Hord. unfold AdjustNode_. case_decide as Hgt.
  { exists h. split; [done|]. split; [split|apply frame_refl]; try done.
    - intros k n Hk _. apply Hidx; lia.
    - intros k Hk. apply Hord; lia. }
  destruct (item_some h i Hs) as (node & nd & Hn & Hnd); [pose proof (sh_num _ Hs); lia|].
  rewrite Hn. simpl. pose proof (hole_self h i node Hn) as Eh.
  rewrite <- Eh in Hs, Hidx, Hord. change (num_items_ (hole h i node)) with (num_items_ h) in *.
  assert (Hup : exists up : bool, (if decide (1 < i) then p ← heap_items_ h !! (i / 2); Compare_ h node p else Some false) = Some up /\
    (if up then ord_up (key (hole h i node)) (num_items_ h) i else ord_dn (key (hole h i node)) (num_items_ h) i)).
  { destruct (decide (1 < i)) as [H1|H1].
    - destruct (hole_key_ne h i (i / 2) node Hs ltac:(lia) ltac:(lia)) as (p & ndp & Hp & Hndp & Kp).
      destruct (hole_key_at h i node Hs ltac:(lia)) as (ndn & Hndn & Kn).
      rewrite Hp. simpl. rewrite (Compare_nodes h node p ndn ndp) by done. eexists; split; [done|].
      case_bool_decide; [apply ord_at_up|apply ord_at_dn]; try done; try lia.
    - exists false. split; [done|]. apply ord_at_dn; [done|lia]. }
  destruct Hup as (up & -> & Hord'). simpl.
  destruct up.
  - destruct (upstairs_spec (S i) h node i ltac:(lia) ltac:(lia) Hs Hidx Hord') as (h' & i' & E & Hi' & Hs' & Hidx' & Ho' & Hf').
    simpl in E. rewrite E. simpl. destruct (place_final h' i' node) as (h'' & E' & Hwf & Hf''); try done.
    exists h''. split_and!; try done. rewrite Eh in Hf'. by eapply frame_trans.
  - destruct (downstairs_spec (S (num_items_ h)) h node i ltac:(lia) ltac:(lia) Hs Hidx Hord') as (h' & i' & E & Hi' & Hs' & Hidx' & Ho' & Hf').
    simpl in E. rewrite E. simpl. destruct (place_final h' i' node) as (h'' & E' & Hwf & Hf''); try done.
    exists h''. split_and!; try done. rewrite Eh in Hf'. by eapply frame_trans.
Qed.

(** Writing the value of a node. *)
Definition valued (h : HeapBase) (n : nat) (nd : Node) (v : Val) : HeapBase :=
  with_nodes h (<[n:=mkNode (index nd) v]> (nodes h)).

Lemma set_val_valued h n nd v : nodes h !! n = Some nd -> set_val h n v = Some (valued h n nd v).
Proof. intros E. unfold set_val. by rewrite E. Qed.

Lemma valued_val h n nd v k : valof (valued h n nd v) k = if decide (k = n) then Some v else valof h k.
Proof. unfold valof; simpl. case_decide; subst; by simplify_map_eq. Qed.

Lemma valued_idx h n nd v k : nodes h !! n = Some nd -> idxof (valued h n nd v) k = idxof h k.
Proof. intros E. unfold idxof; simpl. destruct (decide (k = n)) as [->|]; by simplify_map_eq. Qed.

Lemma valued_shape h n nd v : nodes h !! n = Some nd -> shape h -> shape (valued h n nd v).
Proof.
  intros E Hs.
  assert (forall k, is_Some (nodes (valued h n nd v) !! k) <-> is_Some (nodes h !! k)) as EN.
  { intros k. simpl. destruct (decide (k = n)) as [->|]; simplify_map_eq; split; eauto. }
  split; try apply Hs; [intros i k Hk|intros k Hk]; rewrite EN in *; by eapply Hs.
Qed.

Lemma valued_idx_ok h n nd v P : nodes h !! n = Some nd -> idx_ok h P -> idx_ok (valued h n nd v) P.
Proof. intros E Hi i k Hk HP Hn. rewrite valued_idx by done. by apply Hi. Qed.

(** Only the position of the node sees its new key. *)
Lemma valued_key h n nd v p : shape h -> heap_items_ h !! p = Some n ->
  forall i, i <> p -> key (valued h n nd v) i = key h i.
Proof.
  intros Hs Hp i Hne. unfold key. simpl. destruct (heap_items_ h !! i) as [k|] eqn:Hk; simpl; [|done].
  rewrite valued_val, decide_False; [done|]. intros ->. apply Hne. by eapply (sh_inj _ Hs).
Qed.

Lemma valued_live h n nd v : nodes h !! n = Some nd -> shape h -> used h n ->
  live (valued h n nd v) = <[n:=v]> (live h).
Proof.
  intros E Hs Hu. apply map_eq. intros k. apply option_eq. intros w.
  rewrite live_lookup by (by apply valued_shape). rewrite lookup_insert_Some, live_lookup by done.
  rewrite valued_val. change (used (valued h n nd v) k) with (used h k).
  case_decide; subst; split.
  - intros [? [= ->]]. by left.
  - intros [[_ ->]|[? _]]; [done|congruence].
  - intros ?. right. split; [congruence|done].
  - intros [[? _]|[_ ?]]; [congruence|done].
Qed.

(** A handle in use names the position of its node. *)
Lemma live_position h sign v : wf h -> live h !! sign = Some v ->
  exists nd, nodes h !! sign = Some nd /\ val nd = v /\ 1 <= index nd <= num_items_ h /\ heap_items_ h !! index nd = Some sign.
Proof.
  intros [Hs Hidx _] Hl. apply live_lookup in Hl as [(i & Hi & Hn) Hv]; [|done].
  specialize (Hidx i sign Hi ltac:(tauto) Hn). unfold valof, idxof in *.
  destruct (nodes h !! sign) as [nd|]; simplify_eq/=. eauto.
Qed.

Lemma idx_ok_weaken h P : idx_ok h (fun _ => False) -> idx_ok h P.
Proof. intros H1 i n Hi _ Hn. apply (H1 i n); tauto. Qed.

(** *** Lazy initialisation and growth *)

(** A heap a client may hold: initialised and well formed, or never used. *)
Definition valid (h : HeapBase) : Prop :=
  1 <= init_size_heap_ h /\
  if init_ h then wf h else num_items_ h = 0 /\ heap_items_ h = [] /\ nodes h = ∅ /\ 1 <= next_node h.

Lemma fresh_nodes_lookup h k n nd :
  fresh_nodes h k !! n = Some nd <-> next_node h <= n < next_node h + k /\ nd = mkNode 0 inhabitant.
Proof.
  unfold fresh_nodes. rewrite <- elem_of_list_to_map.
  - rewrite list_elem_of_fmap. setoid_rewrite elem_of_seq. split.
    + intros (x & E & Hx). by simplify_eq.
    + intros [Hn ->]. eauto.
  - rewrite <- list_fmap_compose. unfold compose; simpl. rewrite list_fmap_id. apply NoDup_seq.
Qed.

Lemma fresh_nodes_is_Some h k n : is_Some (fresh_nodes h k !! n) <-> next_node h <= n < next_node h + k.
Proof.
  split.
  - intros [nd E]. by apply fresh_nodes_lookup in E as [? _].
  - intros E. exists (mkNode 0 inhabitant). by apply fresh_nodes_lookup.
Qed.

Lemma raii_init_spec h : valid h ->
  wf (raii_init h) /\ live (raii_init h) = live h /\ init_size_heap_ (raii_init h) = init_size_heap_ h.
Proof.
  intros [Hsz Hv]. unfold raii_init. destruct (init_ h) eqn:Ei; [done|].
  destruct Hv as (Hn & Hit & Hnd & Hnext).
  assert (shape (Init_ h)) as Hs.
  { split; simpl; rewrite ?Hnd, ?(right_id_L ∅ (∪)); try done; [apply length_seq| | |].
    - intros i j n Ei' Ej. apply lookup_seq in Ei', Ej. lia.
    - intros i n Hi. apply lookup_seq in Hi. rewrite fresh_nodes_is_Some. lia.
    - intros n. rewrite fresh_nodes_is_Some. lia. }
  split_and!; [split|..]; try done; simpl.
  - intros i n Hi. simpl in Hi. lia.
  - intros i Hi. lia.
  - unfold live, slots. simpl. by rewrite Hn, Hit.
Qed.

Lemma Resize_spec h : wf h -> wf (Resize_ h) /\ live (Resize_ h) = live h /\
  num_items_ (Resize_ h) = num_items_ h /\ size_container_ (Resize_ h) = 2 * size_container_ h.
Proof.
  intros [Hs Hidx Hord].
  assert (forall n, n < next_node h -> nodes (Resize_ h) !! n = nodes h !! n) as EN.
  { intros n Hn. simpl. apply lookup_union_r. apply eq_None_not_Some. rewrite fresh_nodes_is_Some. lia. }
  assert (forall i n, heap_items_ h !! i = Some n -> n < next_node h) as Hlt.
  { intros i n E. apply (sh_fresh _ Hs). by eapply (sh_node _ Hs). }
  assert (forall i, i <= num_items_ h -> heap_items_ (Resize_ h) !! i = heap_items_ h !! i) as EI.
  { intros i Hi. simpl. apply lookup_app_l. rewrite (sh_len _ Hs). pose proof (sh_num _ Hs). lia. }
  assert (1 <= next_node h) as Hnext.
  { destruct (item_some h 0 Hs) as (n & nd & E & _); [pose proof (sh_num _ Hs); lia|]. apply Hlt in E. lia. }
  assert (shape (Resize_ h)) as Hs'.
  { split; simpl; try apply Hs.
    - rewrite length_app, length_seq, (sh_len _ Hs). lia.
    - pose proof (sh_num _ Hs). lia.
    - intros i j n Ei Ej. rewrite lookup_app_Some in Ei, Ej. rewrite lookup_seq in Ei, Ej.
      destruct Ei as [Ei|[? Ei]], Ej as [Ej|[? Ej]]; [by eapply (sh_inj _ Hs)| | |lia];
        [apply Hlt in Ei|apply Hlt in Ej]; lia.
    - intros i n E. rewrite lookup_app_Some, lookup_seq in E. rewrite lookup_union_is_Some, fresh_nodes_is_Some.
      destruct E as [E|[? E]]; [apply (sh_node _ Hs) in E; tauto|]. split; [lia|left; lia].
    - intros n. rewrite lookup_union_is_Some, fresh_nodes_is_Some. intros [?|E]; [lia|]. apply (sh_fresh _ Hs) in E. lia. }
  split_and!; [split|..]; try done.
  - intros i n Hi HP E. simpl in Hi. rewrite EI in E by lia. unfold idxof. rewrite EN by (by eapply Hlt).
    by apply (Hidx i n).
  - eapply ordered_ext; [|exact Hord]. intros i Hi. simpl in Hi. unfold key. rewrite EI by lia.
    destruct (heap_items_ h !! i) as [n|] eqn:E; simpl; [|done]. unfold valof. by rewrite EN by (by eapply Hlt).
  - apply live_ext; try done. intros n v. unfold used. change (num_items_ (Resize_ h)) with (num_items_ h).
    assert (forall i, i <= num_items_ h -> heap_items_ h !! i = Some n -> valof (Resize_ h) n = valof h n) as EV.
    { intros i Hi E. unfold valof. by rewrite EN by (by eapply Hlt). }
    split; intros [(i & Hi & E) Hv].
    + rewrite EI in E by lia. rewrite (EV i) in Hv by (done || lia). split; [|done]. eauto.
    + split; [exists i; split; [done|by rewrite EI by lia]|]. by rewrite (EV i) by (done || lia).
Qed.

(** *** The operations *)

(** The slot after the last item holds a node that is not in use: taking it
    into use with value [v] leaves a heap in order except at that slot. *)
Lemma take_slot h v : wf h -> num_items_ h + 1 < size_container_ h ->
  exists new nd, heap_items_ h !! (num_items_ h + 1) = Some new /\ nodes h !! new = Some nd /\ 0 < new /\
    live h !! new = None /\
    let h' := valued (with_num h (num_items_ h + 1)) new nd v in
    shape h' /\ idx_ok h' (eq (num_items_ h + 1)) /\ ord_up (key h') (num_items_ h') (num_items_ h + 1) /\
    live h' = <[new:=v]> (live h).
Proof.
  intros [Hs Hidx Hord] Hsz. set (num := num_items_ h + 1).
  destruct (item_some h num Hs Hsz) as (new & nd & Hnew & Hnd). exists new, nd.
  set (h1 := with_num h num).
  assert (shape h1) as Hs1 by (split; try apply Hs; simpl; subst num; lia).
  assert (live h !! new = None) as Hfresh.
  { apply eq_None_not_Some. intros [w Hw]. apply live_lookup in Hw as [(i & Hi & E) _]; [|done].
    pose proof (sh_inj _ Hs _ _ _ Hnew E). subst num. lia. }
  split_and!; try done; [by eapply (sh_node _ Hs)|]. cbv zeta.
  split_and!; [by apply valued_shape|..].
  - apply valued_idx_ok; [done|]. intros i n Hi Hne E. simpl in Hi. apply (Hidx i n); [|tauto|done]. subst num. lia.
  - assert (forall i, 1 <= i <= num_items_ h -> key (valued h1 new nd v) i = key h i) as EK.
    { intros i Hi. rewrite (valued_key h1 new nd v num) by (done || (subst num; lia)). done. }
    simpl. split; intros i Hi; intros; [|subst num; lia].
    rewrite !EK by (subst num; lia). apply Hord. subst num. lia.
  - rewrite valued_live; [|done..|exists num; split; [simpl; subst num; lia|done]].
    apply map_eq. intros n. destruct (decide (n = new)) as [->|]; [by rewrite !lookup_insert_eq|].
    rewrite !lookup_insert_ne by done. apply option_eq. intros w. rewrite !live_lookup by done.
    split; intros [(i & Hi & E) Hw]; (split; [|done]); exists i; (split; [|done]); simpl in *; subst num; [|lia].
    destruct (decide (i = num_items_ h + 1)) as [->|]; [congruence|lia].
Qed.

Lemma Insert_wf h v : valid h ->
  exists h' sign, Insert h v = Some (h', sign) /\ wf h' /\ init_size_heap_ h' = init_size_heap_ h /\ 0 < sign /\
    live h !! sign = None /\ live h' = <[sign:=v]> (live h).
Proof.
  intros Hv. unfold Insert.
  destruct (raii_init_spec h Hv) as (Hwf0 & El0 & Ez0). set (h0 := raii_init h) in *.
  set (h1 := if decide _ then Resize_ h0 else h0).
  assert (wf h1 /\ live h1 = live h /\ num_items_ h1 + 1 < size_container_ h1 /\ init_size_heap_ h1 = init_size_heap_ h)
    as (Hwf & El & Hsz & Ez).
  { pose proof (sh_num _ (wf_shape _ Hwf0)). subst h1. case_decide.
    - destruct (Resize_spec h0 Hwf0) as (? & ? & E1 & E2). split_and!; [done|congruence|lia|done].
    - split_and!; try done. lia. }
  destruct (take_slot h1 v Hwf Hsz) as (new & nd & Hnew & Hnd & Hpos & Hfresh & Hs & Hidx & Hord & Elive).
  rewrite Hnew. cbn [mbind option_bind].
  rewrite (set_val_valued (with_num h1 (num_items_ h1 + 1)) new nd) by done. cbn [mbind option_bind].
  set (h2 := valued _ _ _ _) in *. set (num := num_items_ h1 + 1) in *.
  assert (hole h2 num new = h2) as Eh by (by apply hole_self).
  destruct (upstairs_spec (S num) h2 new num) as (h' & i' & -> & Hi' & Hs' & Hidx' & Ho' & Hf'); try (by rewrite ?Eh).
  { lia. } { subst h2 num; simpl; lia. }
  cbn [mbind option_bind].
  destruct (place_final h' i' new) as (h'' & -> & Hwf'' & Hf''); try done. simpl.
  rewrite Eh in Hf'. pose proof (frame_trans _ _ _ Hf' Hf'') as Hf.
  exists h'', new. split_and!; try done.
  - rewrite (fr_isize _ _ Hf). done.
  - by rewrite <- El.
  - rewrite (frame_live h2) by (done || apply Hwf''). by rewrite Elive, El.
Qed.

Lemma Update_wf h sign v old : valid h -> live h !! sign = Some old ->
  exists h', Update h sign v = Some h' /\ wf h' /\ init_size_heap_ h' = init_size_heap_ h /\
    live h' = <[sign:=v]> (live h).
Proof.
  intros Hv Hl. unfold Update. destruct (raii_init_spec h Hv) as (Hwf & El & Ez).
  rewrite <- El in *. set (h0 := raii_init h) in *.
  destruct (live_position h0 sign old Hwf Hl) as (nd & Hnd & Hval & Hi & Hat).
  rewrite (set_val_valued h0 sign nd v Hnd). simpl. rewrite lookup_insert_eq. simpl.
  destruct Hwf as [Hs Hidx Hord].
  destruct (AdjustNode_spec (valued h0 sign nd v) (index nd)) as (h' & E & Hwf' & Hf).
  - lia.
  - by apply valued_shape.
  - apply valued_idx_ok; [done|]. by apply idx_ok_weaken.
  - eapply ordered_upd_at; [exact Hord|]. by apply valued_key.
  - exists h'. split_and!; try done.
    + by rewrite (fr_isize _ _ Hf).
    + rewrite (frame_live (valued h0 sign nd v)); [|by apply valued_shape|apply Hwf'|done].
      apply valued_live; [done..|]. by exists (index nd).
Qed.

(** [Erase] first exchanges the node with the last one and shrinks the heap. *)
Section Erase.
Variables (h : HeapBase) (sign last : nat) (nd ndl : Node).
Hypothesis Hwf : wf h.
Hypothesis Hnd : nodes h !! sign = Some nd.
Hypothesis Hi : 1 <= index nd <= num_items_ h.
Hypothesis Hat : heap_items_ h !! index nd = Some sign.
Hypothesis Hlast : heap_items_ h !! num_items_ h = Some last.
Hypothesis Hndl : nodes h !! last = Some ndl.

Definition erased : HeapBase :=
  with_nodes
    (with_num (with_items h (<[num_items_ h:=sign]> (<[index nd:=last]> (heap_items_ h)))) (num_items_ h - 1))
    (<[last:=mkNode (index nd) (val ndl)]> (nodes h)).

Lemma erased_lookup k : heap_items_ erased !! k =
  heap_items_ h !! (if decide (k = index nd) then num_items_ h else if decide (k = num_items_ h) then index nd else k).
Proof using All.
  pose proof (sh_len _ (wf_shape _ Hwf)). pose proof (sh_num _ (wf_shape _ Hwf)). simpl.
  destruct (decide (k = num_items_ h)) as [->|].
  - rewrite list_lookup_insert_eq by (rewrite length_insert; lia). case_decide as E; congruence.
  - rewrite list_lookup_insert_ne by done. case_decide; subst; [|by rewrite list_lookup_insert_ne].
    rewrite list_lookup_insert_eq by lia. done.
Qed.

Lemma erased_nodes n : is_Some (nodes erased !! n) <-> is_Some (nodes h !! n).
Proof using All. simpl. destruct (decide (n = last)) as [->|]; [rewrite lookup_insert_eq, Hndl|rewrite lookup_insert_ne by done]; split; eauto. Qed.

Lemma erased_val n : valof erased n = valof h n.
Proof using All. unfold valof; simpl. destruct (decide (n = last)) as [->|]; simplify_map_eq; done. Qed.

Lemma erased_shape : shape erased.
Proof using All.
  pose proof (wf_shape _ Hwf) as Hs. split; try apply Hs.
  - simpl. rewrite !length_insert. apply Hs.
  - pose proof (sh_num _ Hs). simpl. lia.
  - intros a b n. rewrite !erased_lookup. intros Ha Hb. pose proof (sh_inj _ Hs _ _ _ Ha Hb).
    repeat case_decide; subst; congruence.
  - intros k n. rewrite erased_lookup, erased_nodes. apply (sh_node _ Hs).
  - intros n. rewrite erased_nodes. apply (sh_fresh _ Hs).
Qed.

Lemma erased_idx : idx_ok erased (fun _ => False).
Proof using All.
  intros k n Hk _ E. simpl in Hk. rewrite erased_lookup in E. unfold idxof; simpl.
  destruct (decide (k = index nd)) as [->|]; [simplify_map_eq; done|].
  rewrite decide_False in E by lia. rewrite lookup_insert_ne.
  - apply (wf_idx _ Hwf k n); [lia|tauto|done].
  - intros <-. pose proof (sh_inj _ (wf_shape _ Hwf) _ _ _ E Hlast). lia.
Qed.

Lemma erased_ord : ord_at (key erased) (num_items_ h - 1) (index nd).
Proof using All.
  assert (forall k, 1 <= k <= num_items_ h - 1 -> k <> index nd -> key erased k = key h k) as EK.
  { intros k Hk Hne. unfold key. rewrite erased_lookup, decide_False, decide_False by lia.
    destruct (heap_items_ h !! k); simpl; [by rewrite erased_val|done]. }
  pose proof (wf_ord _ Hwf) as Ho. split.
  - intros k Hk ? ?. rewrite (EK k), (EK (k / 2)) by lia. apply Ho. lia.
  - intros k Hk E Hp. rewrite (EK k), (EK (index nd / 2)) by lia.
    transitivity (key h (index nd)); [apply Ho; lia|]. rewrite <- E. apply Ho. lia.
Qed.

Lemma erased_live : live erased = delete sign (live h).
Proof using All.
  pose proof (wf_shape _ Hwf) as Hs. apply map_eq. intros n. apply option_eq. intros v.
  rewrite (live_lookup erased) by apply erased_shape. rewrite lookup_delete_Some, live_lookup by done.
  rewrite erased_val. unfold used. setoid_rewrite erased_lookup. simpl. split.
  - intros [(k & Hk & E) Hv]. split_and!; [|eexists; split; [|exact E]; repeat case_decide; lia|done].
    intros ->. pose proof (sh_inj _ Hs _ _ _ E Hat). repeat case_decide; lia.
  - intros (Hne & (k & Hk & E) & Hv). split; [|done].
    assert (k <> index nd) by (intros ->; congruence).
    destruct (decide (k = num_items_ h)) as [->|].
    + exists (index nd). rewrite decide_True by done. split; [lia|done].
    + exists k. rewrite decide_False, decide_False by done. split; [lia|done].
Qed.
End Erase.

Lemma Erase_wf h sign v : valid h -> live h !! sign = Some v ->
  exists h', Erase h sign = Some h' /\ wf h' /\ init_size_heap_ h' = init_size_heap_ h /\
    live h' = delete sign (live h).
Proof.
  intros Hv Hl. unfold Erase. destruct (raii_init_spec h Hv) as (Hwf & El & Ez).
  rewrite <- El in *. set (h0 := raii_init h) in *.
  destruct (live_position h0 sign v Hwf Hl) as (nd & Hnd & Hval & Hi & Hat).
  rewrite decide_False by lia. rewrite Hnd. cbn [mbind option_bind].
  pose proof (sh_len _ (wf_shape _ Hwf)) as Hlen. pose proof (sh_num _ (wf_shape _ Hwf)) as Hnum.
  destruct (item_some h0 (num_items_ h0) (wf_shape _ Hwf)) as (last & ndl & Hlast & Hndl); [lia|].
  rewrite Hlast. cbn [mbind option_bind]. unfold set_item, set_index. rewrite decide_True by lia.
  cbn [mbind option_bind]. rewrite decide_True by (simpl; rewrite length_insert; lia). cbn [mbind option_bind].
  pose proof (erased_lookup h0 sign last nd ndl Hwf Hnd Hi Hat Hlast Hndl (index nd)) as E.
  rewrite decide_True in E by done. simpl in *. rewrite E, Hlast. simpl. rewrite Hndl. simpl.
  assert (exists nd', <[last:=mkNode (index nd) (val ndl)]> (nodes h0) !! sign = Some nd' /\ index nd' = index nd) as (nd' & -> & Ei).
  { destruct (decide (sign = last)) as [->|]; [rewrite lookup_insert_eq|rewrite lookup_insert_ne by done]; eauto. }
  simpl. rewrite Ei.
  destruct (AdjustNode_spec (erased h0 sign last nd ndl) (index nd)) as (h' & E' & Hwf' & Hf).
  - lia.
  - by apply erased_shape.
  - apply idx_ok_weaken. by apply erased_idx.
  - by apply erased_ord.
  - exists h'. split_and!; try done.
    + by rewrite (fr_isize _ _ Hf).
    + rewrite (frame_live (erased h0 sign last nd ndl)); [|by apply erased_shape|apply Hwf'|done].
      by apply erased_live.
Qed.

Lemma Top_wf h : wf h ->
  match Top h with
  | None => live h = ∅
  | Some v => exists sign, heap_items_ h !! 1 = Some sign /\ live h !! sign = Some v /\
      forall s w, live h !! s = Some w -> (keyv v <= keyv w)%Z
  end.
Proof.
  intros [Hs Hidx Hord]. unfold Top. case_decide as E0.
  - apply map_empty. intros n. apply eq_None_not_Some. intros [v Hv].
    apply live_lookup in Hv as [(i & Hi & _) _]; [lia|done].
  - destruct (item_some h 1 Hs) as (n & nd & Hn & Hnd); [pose proof (sh_num _ Hs); lia|].
    rewrite Hn. simpl. rewrite Hnd. simpl. exists n. split_and!; [done|..].
    + apply live_lookup; [done|]. split; [exists 1; split; [lia|done]|]. unfold valof. by rewrite Hnd.
    + intros s w Hw. apply live_lookup in Hw as [(i & Hi & E) Hw]; [|done].
      pose proof (ordered_root _ _ i Hord Hi) as Hle. unfold key in Hle.
      rewrite Hn, E in Hle. simpl in Hle. rewrite Hw in Hle. unfold valof in Hle. by rewrite Hnd in Hle.
Qed.

Lemma live_size h : wf h -> size (live h) = num_items_ h.
Proof.
  intros [Hs _ _]. unfold live. rewrite map_size_list_to_map.
  - rewrite <- (length_fmap fst), entries_fst by (by apply slots_nodes).
    unfold slots. rewrite length_take, length_drop, (sh_len _ Hs). pose proof (sh_num _ Hs). lia.
  - rewrite entries_fst; auto using slots_nodes, slots_nodup.
Qed.

Lemma wf_valid h : wf h -> 1 <= init_size_heap_ h -> valid h.
Proof. intros Hw Hi. split; [done|]. by rewrite (sh_init _ (wf_shape _ Hw)). Qed.

(** A heap never used before is empty. *)
Lemma new_valid n : 1 <= n -> valid (HeapBase_new n) /\ live (HeapBase_new n) = ∅.
Proof. done. Qed.

Lemma Top_raii h : valid h -> Top h = Top (raii_init h).
Proof.
  intros [_ Hv]. unfold raii_init. destruct (init_ h); [done|]. destruct Hv as (E & _).
  unfold Top. simpl. by rewrite E.
Qed.

Lemma Top_min h : valid h ->
  match Top h with
  | None => live h = ∅
  | Some v => exists sign, live h !! sign = Some v /\ forall s w, live h !! s = Some w -> (keyv v <= keyv w)%Z
  end.
Proof.
  intros Hv. rewrite Top_raii by done. destruct (raii_init_spec h Hv) as (Hw & <- & _).
  pose proof (Top_wf _ Hw) as Ht. destruct (Top _); [|done].
  destruct Ht as (sign & _ & ? & ?). eauto.
Qed.

(** [Insert] on any heap a client may hold succeeds (no access is out of
    bounds, the lazy initialisation and the growth included), returns a
    non-NULL handle that was not in use, adds exactly that entry to the map of
    handles, and leaves a well-formed heap. *)
Theorem Insert_refines h v : valid h ->
  exists h' sign, Insert h v = Some (h', sign) /\ valid h' /\ 0 < sign /\
    live h !! sign = None /\ live h' = <[sign:=v]> (live h).
Proof.
  intros Hv. destruct (Insert_wf h v Hv) as (h' & sign & E & Hw & Ez & Hp & Hn & El).
  exists h', sign. split_and!; try done. apply wf_valid; [done|]. rewrite Ez. apply Hv.
Qed.

(** [Update] through a handle in use changes the value of that handle and
    of no other, and restores the heap order. *)
Theorem Update_refines h sign v old : valid h -> live h !! sign = Some old ->
  exists h', Update h sign v = Some h' /\ valid h' /\ live h' = <[sign:=v]> (live h).
Proof.
  intros Hv Hl. destruct (Update_wf h sign v old Hv Hl) as (h' & E & Hw & Ez & El).
  exists h'. split_and!; try done. apply wf_valid; [done|]. rewrite Ez. apply Hv.
Qed.

(** C16: [Erase] of a handle in use removes that entry and no other, whatever
    its position in the array, and restores the heap order. *)
Theorem Erase_refines h sign v : valid h -> live h !! sign = Some v ->
  exists h', Erase h sign = Some h' /\ valid h' /\ live h' = delete sign (live h).
Proof.
  intros Hv Hl. destruct (Erase_wf h sign v Hv Hl) as (h' & E & Hw & Ez & El).
  exists h'. split_and!; try done. apply wf_valid; [done|]. rewrite Ez. apply Hv.
Qed.

(** [Pop] of a non-empty heap removes one entry, and it is the one [Top]
    shows: an entry of least key (greatest feature for a max-heap). *)
Theorem Pop_least h : valid h -> live h <> ∅ ->
  exists h' sign v, Top h = Some v /\ Pop h = Some h' /\ valid h' /\ live h !! sign = Some v /\
    live h' = delete sign (live h) /\ forall s w, live h !! s = Some w -> (keyv v <= keyv w)%Z.
Proof.
  intros Hv Hne. rewrite Top_raii by done. destruct (raii_init_spec h Hv) as (Hw & El & Ez).
  pose proof (wf_valid _ Hw ltac:(rewrite Ez; apply Hv)) as Hv0.
  pose proof (Top_wf _ Hw) as Ht. rewrite El in Ht. unfold Pop.
  destruct (Top (raii_init h)) as [v|]; [|done]. destruct Ht as (sign & E1 & Hl & Hmin).
  rewrite E1. simpl. rewrite <- El in Hl.
  destruct (Erase_wf _ sign v Hv0 Hl) as (h' & E & Hw' & Ez' & El').
  exists h', sign, v. rewrite El in *. split_and!; try done. apply wf_valid; [done|]. rewrite Ez', Ez. apply Hv.
Qed.
End Heap.

Arguments Node : clear implicits.
Arguments HeapBase : clear implicits.

(** Witnesses: integers as values and keys, container of 1 so that every
    insertion path (initialisation and growth) runs. *)
Definition ex_heap : option (HeapBase Z) :=
  '(h, _) ← Insert id false (HeapBase_new 1) 5%Z;
  '(h, _) ← Insert id false h 3%Z;
  '(h, _) ← Insert id false h 4%Z; Some h.

Lemma Insert_refines_witness :
  exists h' sign, Insert id false (HeapBase_new 1) 5%Z = Some (h', sign) /\ valid id false h' /\ 0 < sign /\
    live (HeapBase_new 1) !! sign = @None Z /\ live h' = <[sign:=5%Z]> (live (HeapBase_new 1)).
Proof. apply (Insert_refines id false (HeapBase_new 1) 5%Z). apply new_valid. lia. Defined.

Definition ex_h : HeapBase Z := default (HeapBase_new 1) ex_heap.

Lemma ex_h_valid : valid id false ex_h.
Proof.
  destruct (Insert_wf id false (HeapBase_new 1) 5%Z) as (h1 & s1 & E1 & W1 & Z1 & _); [split; [done|done]|].
  destruct (Insert_wf id false h1 3%Z) as (h2 & s2 & E2 & W2 & Z2 & _); [apply wf_valid; [done|rewrite Z1; done]|].
  destruct (Insert_wf id false h2 4%Z) as (h3 & s3 & E3 & W3 & Z3 & _); [apply wf_valid; [done|rewrite Z2, Z1; done]|].
  unfold ex_h, ex_heap. rewrite E1. simpl. rewrite E2. simpl. rewrite E3. simpl.
  apply wf_valid; [done|]. rewrite Z3, Z2, Z1. done.
Qed.

Lemma Update_refines_witness :
  live ex_h !! 2 = Some 5%Z /\
  exists h', Update id false ex_h 2 1%Z = Some h' /\ valid id false h' /\ live h' = <[2:=1%Z]> (live ex_h).
Proof.
  split; [vm_compute; reflexivity|].
  apply (Update_refines id false ex_h 2 1%Z 5%Z ex_h_valid). vm_compute. reflexivity.
Defined.

Lemma Erase_refines_witness :
  exists h', Erase id false ex_h 2 = Some h' /\ valid id false h' /\ live h' = delete 2 (live ex_h).
Proof. apply (Erase_refines id false ex_h 2 5%Z ex_h_valid). vm_compute. reflexivity. Defined.

Lemma Pop_least_witness :
  exists h' sign v, Top ex_h = Some v /\ Pop id false ex_h = Some h' /\ valid id false h' /\
    live ex_h !! sign = Some v /\ live h' = delete sign (live ex_h) /\
    forall s w, live ex_h !! s = Some w -> (keyv id false v <= keyv id false w)%Z.
Proof. apply (Pop_least id false ex_h ex_h_valid). vm_compute. discriminate. Defined.
End Heap.
