(* ===== verification/HeapEnd.v ===== *)
(** * HeapEnd: the destruction of the heap of timeouts

    Models [HeapBase::~HeapBase] of deps/public-cpp/include/public-cpp/heap.hpp:
    the container owns the nodes of all its positions, those in use and those
    that wait for reuse, so that after any sequence of operations every node
    that was allocated is deleted once. *)

From Stdlib Require Import ZArith Lia.
From stdpp Require Import base gmap fin_maps fin_map_dom list numbers option.
From S2P Require Import Prelude Heap.
Import Heap.

Local Open Scope nat_scope.

Module HeapEnd.
Section HeapEnd.
Context {Val : Type} `{Inhabited Val}.
Variable feature : Val -> Z.
Variable Order : bool.
#[local] Abbreviation HeapBase := (HeapBase Val).

(** [for (i=0; i<size_container_; ++i) XFC_DELETE(heap_items_[i])]; deleting
    what is not allocated has no meaning, deleting NULL does nothing. *)
Fixpoint delete_items (k i : nat) (h : HeapBase) : option HeapBase :=
  match k with
  | 0 => Some h
  | S k =>
      n ← heap_items_ h !! i;
      if decide (n = 0) then delete_items k (S i) h
      else nd ← nodes h !! n; delete_items k (S i) (with_nodes h (delete n (nodes h)))
  end.

(** The nodes that are left after the destructor. *)
Definition HeapBase_delete (h : HeapBase) : option (gmap nat (Node Val)) :=
  let h := Clear h in
  if init_ h then nodes <$> delete_items (size_container_ h) 0 h else Some (nodes h).

(** What the operations keep: the container and the nodes it was built with. *)
Definition same_nodes (h h' : HeapBase) : Prop :=
  size_container_ h' = size_container_ h /\ dom (nodes h') = dom (nodes h).
#[local] Instance same_nodes_refl : Reflexive same_nodes.
Proof. by split. Qed.
#[local] Instance same_nodes_trans : Transitive same_nodes.
Proof. intros h1 h2 h3 [E1 D1] [E2 D2]. split; congruence. Qed.

Lemma set_item_same h i n h' : set_item h i n = Some h' -> same_nodes h h'.
Proof. unfold set_item. intros E. take_apart. by split. Qed.
Lemma set_index_same h n i h' : set_index h n i = Some h' -> same_nodes h h'.
Proof. unfold set_index. intros E. take_apart. split; [done|]. cbn. apply dom_insert_lookup_L. eauto. Qed.
Lemma set_val_same h n v h' : set_val h n v = Some h' -> same_nodes h h'.
Proof. unfold set_val. intros E. take_apart. split; [done|]. cbn. apply dom_insert_lookup_L. eauto. Qed.
Lemma place_same h i n h' : place h i n = Some h' -> same_nodes h h'.
Proof. unfold place. intros E. take_apart. etrans; [by eapply set_item_same|by eapply set_index_same]. Qed.

Lemma upstairs_same fuel : forall h node iter h' i, upstairs feature Order fuel h node iter = Some (h', i) -> same_nodes h h'.
Proof.
  induction fuel as [|fuel IH]; intros h node iter h' i E; cbn [upstairs] in E; [done|]. take_apart; try reflexivity.
  etrans; [by eapply place_same|by eapply IH].
Qed.
Lemma downstairs_same fuel : forall h node pos h' i, downstairs feature Order fuel h node pos = Some (h', i) -> same_nodes h h'.
Proof.
  induction fuel as [|fuel IH]; intros h node pos h' i E; cbn [downstairs] in E; [done|]. take_apart; try reflexivity.
  etrans; [by eapply place_same|by eapply IH].
Qed.
Lemma AdjustNode_same h i h' : AdjustNode_ feature Order h i = Some h' -> same_nodes h h'.
Proof.
  unfold AdjustNode_. case_decide; [by intros [= ->]|]. intros E.
  apply option.bind_Some in E as (node & _ & E). apply option.bind_Some in E as (up & _ & E).
  apply option.bind_Some in E as ([h1 k] & E1 & E). etrans; [|by eapply place_same].
  destruct up; [by eapply upstairs_same|by eapply downstairs_same].
Qed.

(** Every node of the heap is at a position of the container. *)
Definition owns (h : HeapBase) : Prop := if init_ h then size (nodes h) = size_container_ h else nodes h = ∅.

Lemma owns_same h h' : init_ h = true -> init_ h' = true -> same_nodes h h' -> owns h -> owns h'.
Proof.
  unfold owns. intros -> -> [Ec Ed] E. by rewrite Ec, <- E, <- !(size_dom (D := gset nat)), Ed.
Qed.

Lemma fresh_size (h : HeapBase) k m : (forall n, is_Some (m !! n) -> n < next_node h) ->
  size (fresh_nodes h k ∪ m) = k + size m.
Proof.
  intros F. rewrite map_size_disj_union.
  - f_equal. unfold fresh_nodes. rewrite map_size_list_to_map; [by rewrite length_fmap, length_seq|].
    rewrite <- list_fmap_compose. unfold compose; simpl. rewrite list_fmap_id. apply NoDup_seq.
  - apply map_disjoint_spec. intros n x y Ex Ey. apply fresh_nodes_lookup in Ex as [Hn _].
    assert (n < next_node h) by eauto. lia.
Qed.

Lemma raii_init_owns h : valid feature Order h -> owns h -> owns (raii_init h).
Proof.
  intros [_ Hv]. unfold owns, raii_init. destruct (init_ h) eqn:Ei; [by rewrite Ei|]. intros En. cbn.
  rewrite fresh_size; rewrite En; [|intros n [x E]; done]. by rewrite map_size_empty, Nat.add_0_r.
Qed.

Lemma Resize_owns h : wf feature Order h -> owns h -> owns (Resize_ h).
Proof.
  intros Hw. unfold owns. cbn. rewrite (sh_init _ (wf_shape _ _ _ Hw)). intros En.
  rewrite fresh_size by apply (sh_fresh _ (wf_shape _ _ _ Hw)). lia.
Qed.

Lemma Insert_owns h v h' sign : valid feature Order h -> owns h -> Insert feature Order h v = Some (h', sign) ->
  wf feature Order h' -> owns h'.
Proof.
  intros Hv Ho E Hw'. destruct (raii_init_spec _ _ h Hv) as (Hw & _ & _). apply raii_init_owns in Ho; [|done].
  unfold Insert in E. cbv zeta in E. set (h1 := if decide _ then Resize_ _ else _) in E.
  assert (owns h1 /\ init_ h1 = true) as [Ho1 Hi1].
  { subst h1. case_decide; [|split; [done|apply Hw]]. split; [by apply Resize_owns|cbn; apply Hw]. }
  take_apart. eapply (owns_same h1); [done|apply Hw'| |done].
  etrans; [by eapply (set_val_same (with_num h1 _))|]. etrans; [by eapply upstairs_same|by eapply place_same].
Qed.

Lemma Update_owns h sign v h' : valid feature Order h -> owns h -> Update feature Order h sign v = Some h' ->
  wf feature Order h' -> owns h'.
Proof.
  intros Hv Ho E Hw'. destruct (raii_init_spec _ _ h Hv) as (Hw & _ & _). apply raii_init_owns in Ho; [|done].
  unfold Update in E. cbv zeta in E. take_apart. eapply (owns_same (raii_init h)); [apply Hw|apply Hw'| |done].
  etrans; [by eapply set_val_same|by eapply AdjustNode_same].
Qed.

Lemma Erase_owns h sign h' : valid feature Order h -> owns h -> Erase feature Order h sign = Some h' ->
  wf feature Order h' -> owns h'.
Proof.
  intros Hv Ho E Hw'. destruct (raii_init_spec _ _ h Hv) as (Hw & _ & _). apply raii_init_owns in Ho; [|done].
  unfold Erase in E. cbv zeta in E. take_apart; [done|].
  eapply (owns_same (raii_init h)); [apply Hw|apply Hw'| |done].
  etrans; [by eapply set_item_same|]. etrans; [by eapply set_item_same|].
  etrans; [eapply (set_index_same (with_num _ _)); eassumption|by eapply AdjustNode_same].
Qed.

Lemma Clear_wf h : wf feature Order h -> wf feature Order (Clear h).
Proof.
  intros [Hs _ _]. split; [|intros i n Hi; cbn in Hi; lia|intros i Hi; cbn in Hi; lia].
  destruct Hs. split; cbn; try done; lia.
Qed.

Lemma delete_items_spec k : forall i h, i + k = length (heap_items_ h) ->
  (forall j n, i <= j -> heap_items_ h !! j = Some n -> 0 < n /\ is_Some (nodes h !! n)) ->
  (forall j1 j2 n, heap_items_ h !! j1 = Some n -> heap_items_ h !! j2 = Some n -> j1 = j2) ->
  exists h', delete_items k i h = Some h' /\ size (nodes h') + k = size (nodes h).
Proof.
  induction k as [|k IH]; intros i h L N J; cbn [delete_items]; [exists h; split; [done|lia]|].
  destruct (lookup_lt_is_Some_2 (heap_items_ h) i) as [n En]; [lia|]. destruct (N i n) as [Hn [nd End]]; [lia|done|].
  rewrite En. cbn [mbind option_bind]. case_decide; [lia|]. rewrite End. cbn [mbind option_bind].
  destruct (IH (S i) (with_nodes h (delete n (nodes h)))) as (h' & E & Sz); cbn [heap_items_ nodes with_nodes] in *.
  - lia.
  - intros j m Hj Em. destruct (N j m) as [Hm Sm]; [lia|done|]. split; [done|].
    rewrite lookup_delete_ne; [done|]. intros ->. specialize (J i j m En Em). lia.
  - done.
  - exists h'. split; [done|]. rewrite map_size_delete_Some in Sz by eauto.
    assert (size (nodes h) <> 0) by (apply map_size_ne_0_lookup; eauto). lia.
Qed.

Lemma delete_clean h : valid feature Order h -> owns h -> HeapBase_delete h = Some ∅.
Proof.
  intros [_ Hv] Ho. unfold HeapBase_delete, owns in *. cbn [init_ Clear with_num]. destruct (init_ h); [|by rewrite <- Ho].
  apply Clear_wf in Hv. destruct (wf_shape _ _ _ Hv) as [_ Hl _ J N _].
  destruct (delete_items_spec (size_container_ h) 0 (Clear h)) as (h' & E & Sz); [done|intros j n _; apply N|exact J|].
  cbn zeta. change (size_container_ (Clear h)) with (size_container_ h). rewrite E. cbn. f_equal. apply map_size_empty_inv. cbn in Sz. lia.
Qed.

(** ** Histories *)

Inductive Op := OInsert (v : Val) | OUpdate (sign : nat) (v : Val) | OErase (sign : nat) | OPop | OClear.

(** Clients pass handles in use, and take the least entry of a heap that is not
    empty; other calls are not made. *)
Definition step (h : HeapBase) (o : Op) : option HeapBase :=
  match o with
  | OInsert v => fst <$> Insert feature Order h v
  | OUpdate sign v => if live h !! sign is Some _ then Update feature Order h sign v else Some h
  | OErase sign => if live h !! sign is Some _ then Erase feature Order h sign else Some h
  | OPop => if Top h is Some _ then Pop feature Order h else Some h
  | OClear => Some (Clear h)
  end.
Fixpoint run (h : HeapBase) (ops : list Op) : option HeapBase :=
  match ops with [] => Some h | o :: ops => h ← step h o; run h ops end.

Definition kept (h : HeapBase) : Prop := valid feature Order h /\ owns h.

Lemma Erase_kept h sign v : kept h -> live h !! sign = Some v -> exists h', Erase feature Order h sign = Some h' /\ kept h'.
Proof.
  intros [Hv Ho] Hl. destruct (Erase_wf _ _ h sign v Hv Hl) as (h' & E & Hw & Ez & _).
  exists h'. split; [done|]. split; [apply wf_valid; [done|rewrite Ez; apply Hv]|by eapply Erase_owns].
Qed.

Lemma step_kept h o : kept h -> exists h', step h o = Some h' /\ kept h'.
Proof.
  intros K. pose proof K as [Hv Ho]. destruct o as [v|sign v|sign| |]; cbn [step].
  - destruct (Insert_wf _ _ h v Hv) as (h' & sign & E & Hw & Ez & _). rewrite E. exists h'. split; [done|].
    split; [apply wf_valid; [done|rewrite Ez; apply Hv]|by eapply Insert_owns].
  - destruct (live h !! sign) as [old|] eqn:El; [|by exists h].
    destruct (Update_wf _ _ h sign v old Hv El) as (h' & E & Hw & Ez & _). exists h'. split; [done|].
    split; [apply wf_valid; [done|rewrite Ez; apply Hv]|by eapply Update_owns].
  - destruct (live h !! sign) as [old|] eqn:El; [by eapply Erase_kept|by exists h].
  - destruct (Top h) as [v|] eqn:Et; [|by exists h]. rewrite (Top_raii _ _ h Hv) in Et.
    destruct (raii_init_spec _ _ h Hv) as (Hw & El & Ez). pose proof (Top_wf _ _ _ Hw) as Ht. rewrite Et in Ht.
    destruct Ht as (sign & E1 & Hl & _). unfold Pop. cbv zeta. rewrite E1. cbn [mbind option_bind].
    eapply Erase_kept; [|exact Hl]. split; [apply wf_valid; [done|rewrite Ez; apply Hv]|by apply raii_init_owns].
  - exists (Clear h). split; [done|]. destruct Hv as [Hz Hv]. split; [split; [done|]|exact Ho].
    cbn [init_ Clear with_num]. destruct (init_ h); [by apply Clear_wf|by destruct Hv].
Qed.

Lemma run_kept ops : forall h, kept h -> exists h', run h ops = Some h' /\ kept h'.
Proof.
  induction ops as [|o ops IH]; intros h K; cbn [run]; [by exists h|].
  destruct (step_kept h o K) as (h1 & -> & K1). by apply IH.
Qed.

(** Whatever a client does with a heap, its destructor deletes every node that
    was allocated, and none twice. *)
Theorem heap_deleted n ops : 1 <= n ->
  exists h', run (HeapBase_new n) ops = Some h' /\ HeapBase_delete h' = Some ∅.
Proof.
  intros Hn. destruct (run_kept ops (HeapBase_new n)) as (h' & E & Hv & Ho); [by split; [apply new_valid|]|].
  exists h'. split; [done|]. by apply delete_clean.
Qed.
End HeapEnd.

Example heap_deleted_ex :
  (h ← run id false (HeapBase_new 1) [OInsert 5%Z; OInsert 3%Z; OErase 2; OInsert 4%Z; OPop];
   Some (size (nodes h), HeapBase_delete h)) = Some (4, Some ∅).
Proof. vm_compute. reflexivity. Qed.
End HeapEnd.
