(* ===== verification/Hashmap.v ===== *)
(** * Hashmap: the open-addressing map of deps/public-cpp

    Models deps/public-cpp/include/public-cpp/close_hashmap.hpp, the container
    of the per-remote connection pools.  A slot is empty, live or dead; a
    lookup looks at the slot of the hash first and then walks with a prime
    step chosen by that slot.  Dead slots are passed over, except that the
    first slot is taken for the key when it once held it. *)

From Stdlib Require Import ZArith Znumtheory Lia.
From stdpp Require Import base list numbers.
From S2P Require Import Prelude.

(** What the map asks of its keys ([KeyEqualF] and [HashF]). *)
Class HashKey (K : Type) : Type := { key_equal : K -> K -> bool; hash : K -> Z }.

Class HashKeyLaws (K : Type) `{!HashKey K} : Prop := {
  key_equal_refl k : key_equal k k = true;
  key_equal_sym k k' : key_equal k k' = true -> key_equal k' k = true;
  key_equal_trans k1 k2 k3 :
    key_equal k1 k2 = true -> key_equal k2 k3 = true -> key_equal k1 k3 = true;
  hash_equal k k' : key_equal k k' = true -> hash k = hash k';
}.

Module Hashmap.

Definition kPrimes : list Z := [
  53; 97; 193; 389; 769;
  1543; 3079; 6151; 12289; 24593;
  49157; 98317; 196613; 393241; 786433;
  1572869; 3145739; 6291469; 12582917; 25165843;
  50331653; 100663319; 201326611; 402653189; 805306457;
  1610612741; 3221225473; 4294967291].
Definition kNumPrimes : Z := 28.

Section Hashmap.
Context {K V : Type} `{!HashKey K}.

(** [Item]: the flag 0, 1 or -1 and the pair, which an empty slot does not
    have yet. *)
Inductive Item := Empty | Live (k : K) (v : V) | Dead (k : K) (v : V).

Definition first (i : Item) : Z :=
  match i with Empty => 0 | Live _ _ => 1 | Dead _ _ => -1 end.

(** The key stored in a slot, if any, live or not. *)
Definition item_key (i : Item) : option K :=
  match i with Empty => None | Live k _ | Dead k _ => Some k end.

Record CloseHashmap := mkMap { items_ : list Item; num_elm_ : Z }.
Definition size_array_ (m : CloseHashmap) : Z := Z.of_nat (length (items_ m)).

Definition Init (size_array : nat) : option CloseHashmap :=
  if forallb (fun p => negb (Z.of_nat size_array mod p =? 0)) kPrimes
  then Some {| items_ := replicate size_array Empty; num_elm_ := 0 |}
  else None.

Definition item_at (m : CloseHashmap) (pos : Z) : Item := nth (Z.to_nat pos) (items_ m) Empty.

Definition matches (k : K) (i : Item) : bool :=
  match item_key i with Some k' => key_equal k k' | None => false end.

Definition step_of (pos : Z) : Z := nth (Z.to_nat (pos mod kNumPrimes)) kPrimes 0.

(** The walk after the first slot, [n] turns at most. *)
Fixpoint walk (n : nat) (m : CloseHashmap) (k : K) (pos step : Z) : option Z :=
  match n with
  | O => None
  | S n =>
      let pos := (pos + step) mod size_array_ m in
      let i := item_at m pos in
      if (first i =? 0) || ((0 <? first i) && matches k i) then Some pos
      else walk n m k pos step
  end.

(** [GetItem_]: the position of the item, [None] for NULL. *)
Definition GetItem_ (m : CloseHashmap) (k : K) : option Z :=
  let pos := hash k mod size_array_ m in
  let i := item_at m pos in
  if (first i =? 0) || matches k i then Some pos
  else walk (length (items_ m) - 1) m k pos (step_of pos).

Definition set_item (m : CloseHashmap) (pos : Z) (i : Item) (num : Z) : CloseHashmap :=
  {| items_ := <[Z.to_nat pos := i]> (items_ m); num_elm_ := num |}.

Definition Insert (m : CloseHashmap) (k : K) (v : V) : bool * CloseHashmap :=
  if size_array_ m =? num_elm_ m then (false, m)
  else
    match GetItem_ m k with
    | Some pos =>
        if first (item_at m pos) <=? 0 then (true, set_item m pos (Live k v) (num_elm_ m + 1))
        else (false, m)
    | None => (false, m)
    end.

Definition Erase (m : CloseHashmap) (k : K) : bool * CloseHashmap :=
  match GetItem_ m k with
  | Some pos =>
      match item_at m pos with
      | Live k' v => if key_equal k k' then (true, set_item m pos (Dead k' v) (num_elm_ m - 1)) else (false, m)
      | _ => (false, m)
      end
  | None => (false, m)
  end.

Definition Get (m : CloseHashmap) (k : K) : option V :=
  match GetItem_ m k with
  | Some pos => match item_at m pos with Live _ v => Some v | _ => None end
  | None => None
  end.

Definition Size (m : CloseHashmap) : Z := num_elm_ m.

(** [Iterator]: the position of the next live slot at or after [pos]. *)
Fixpoint next_live (n : nat) (m : CloseHashmap) (pos : nat) : nat :=
  match n with
  | O => pos
  | S n => if 0 <? first (item_at m (Z.of_nat pos)) then pos else next_live n m (S pos)
  end.

Definition Begin (m : CloseHashmap) : nat := next_live (length (items_ m)) m 0.
Definition Next (m : CloseHashmap) (pos : nat) : nat :=
  if (pos =? length (items_ m))%nat then pos
  else next_live (length (items_ m) - S pos) m (S pos).
Definition IsEnd (m : CloseHashmap) (pos : nat) : bool := (pos =? length (items_ m))%nat.

(** ** The reference: a scan of all slots *)

Fixpoint scan (l : list Item) (k : K) : option V :=
  match l with
  | [] => None
  | Live k' v :: l => if key_equal k k' then Some v else scan l k
  | _ :: l => scan l k
  end.

Definition is_live (i : Item) : bool := match i with Live _ _ => true | _ => false end.
Definition count_live (l : list Item) : Z := Z.of_nat (length (filter (fun i => is_live i = true) l)).

(** The [n]-th position looked at for a key, and whether the lookup ends
    there. *)
Definition probe (m : CloseHashmap) (k : K) (n : nat) : Z :=
  let pos := hash k mod size_array_ m in
  (pos + Z.of_nat n * step_of pos) mod size_array_ m.

Definition stop (m : CloseHashmap) (k : K) (n : nat) : bool :=
  let i := item_at m (probe m k n) in
  (first i =? 0) || (((n =? 0)%nat || (0 <? first i)) && matches k i).

(** Every live key is where its lookup ends. *)
Record wf (m : CloseHashmap) : Prop := {
  wf_size : 0 < size_array_ m;
  wf_num : num_elm_ m = count_live (items_ m);
  wf_chain i k v : items_ m !! i = Some (Live k v) ->
    exists n, (n < length (items_ m))%nat /\ probe m k n = Z.of_nat i /\
      forall n', (n' < n)%nat -> stop m k n' = false;
}.

(** The prime steps reach every slot. *)
Definition coprime_steps (m : CloseHashmap) : Prop :=
  Forall (fun p => Z.gcd p (size_array_ m) = 1) kPrimes.

Context `{!HashKeyLaws K}.

Lemma key_equal_l k1 k2 k : key_equal k1 k2 = true -> key_equal k1 k = key_equal k2 k.
Proof.
  intros E. destruct (key_equal k1 k) eqn:E1, (key_equal k2 k) eqn:E2; try done.
  - rewrite <- E2. symmetry. by eapply key_equal_trans; [apply key_equal_sym|].
  - rewrite <- E1. by eapply key_equal_trans.
Qed.

Lemma matches_equal k1 k2 i : key_equal k1 k2 = true -> matches k1 i = matches k2 i.
Proof. intros. unfold matches. destruct (item_key i); [by apply key_equal_l|done]. Qed.

Lemma probe_equal m k1 k2 n : key_equal k1 k2 = true -> probe m k1 n = probe m k2 n.
Proof. intros E. unfold probe. by rewrite (hash_equal _ _ E). Qed.

Lemma stop_equal m k1 k2 n : key_equal k1 k2 = true -> stop m k1 n = stop m k2 n.
Proof. intros E. unfold stop. by rewrite (probe_equal m _ _ n E), (matches_equal _ _ _ E). Qed.

Lemma probe_bound m k n : 0 < size_array_ m -> 0 <= probe m k n < size_array_ m.
Proof. intros. by apply Z.mod_pos_bound. Qed.

Lemma probe_S m k n : 0 < size_array_ m ->
  (probe m k n + step_of (hash k mod size_array_ m)) mod size_array_ m = probe m k (S n).
Proof.
  intros. unfold probe. rewrite Zplus_mod_idemp_l. f_equal. lia.
Qed.

Lemma walk_spec n : forall m k j, 0 < size_array_ m ->
  match walk n m k (probe m k j) (step_of (hash k mod size_array_ m)) with
  | Some p => exists i, (j < i <= j + n)%nat /\ p = probe m k i /\ stop m k i = true /\
      forall i', (j < i' < i)%nat -> stop m k i' = false
  | None => forall i', (j < i' <= j + n)%nat -> stop m k i' = false
  end.
Proof.
  induction n as [|n IH]; intros m k j Hs; cbn [walk]; [lia|].
  rewrite probe_S by done.
  assert (stop m k (S j) = (first (item_at m (probe m k (S j))) =? 0)
    || ((0 <? first (item_at m (probe m k (S j)))) && matches k (item_at m (probe m k (S j))))) as <- by done.
  destruct (stop m k (S j)) eqn:E.
  - exists (S j). split_and!; [lia|lia|done|done|lia].
  - specialize (IH m k (S j) Hs). destruct (walk n m k _ _) as [p|].
    + destruct IH as (i & L & -> & St & No). exists i. split_and!; [lia|lia|done|done|].
      intros i' Hi'. destruct (decide (i' = S j)) as [->|]; [done|]. apply No. lia.
    + intros i' Hi'. destruct (decide (i' = S j)) as [->|]; [done|]. apply IH. lia.
Qed.

Lemma probe_0 m k : 0 < size_array_ m -> probe m k 0 = hash k mod size_array_ m.
Proof. intros. unfold probe. rewrite Z.mul_0_l, Z.add_0_r. by apply Zmod_mod. Qed.

Lemma GetItem_spec m k : 0 < size_array_ m ->
  match GetItem_ m k with
  | Some p => exists n, (n < length (items_ m))%nat /\ p = probe m k n /\ stop m k n = true /\
      forall n', (n' < n)%nat -> stop m k n' = false
  | None => forall n, (n < length (items_ m))%nat -> stop m k n = false
  end.
Proof.
  intros Hs. unfold GetItem_. rewrite <- (probe_0 m k Hs).
  assert (stop m k 0 = (first (item_at m (probe m k 0)) =? 0) || matches k (item_at m (probe m k 0)))
    as <- by done.
  assert (0 < length (items_ m))%nat by (unfold size_array_ in Hs; lia).
  destruct (stop m k 0) eqn:E.
  - exists 0%nat. split_and!; [lia|done|done|lia].
  - pose proof (walk_spec (length (items_ m) - 1) m k 0 Hs) as W. rewrite <- (probe_0 m k Hs) in W.
    destruct (walk _ m k _ _) as [p|].
    + destruct W as (i & L & -> & St & No). exists i. split_and!; [lia|done|done|].
      intros n' Hn'. destruct n'; [done|]. apply No. lia.
    + intros n Hn. destruct n; [done|]. apply W. lia.
Qed.

Lemma GetItem_first m k n : 0 < size_array_ m -> (n < length (items_ m))%nat ->
  stop m k n = true -> (forall n', (n' < n)%nat -> stop m k n' = false) ->
  GetItem_ m k = Some (probe m k n).
Proof.
  intros Hs Hn St No. pose proof (GetItem_spec m k Hs) as G. destruct (GetItem_ m k) as [p|].
  - destruct G as (n1 & L1 & -> & St1 & No1). destruct (lt_eq_lt_dec n n1) as [[Hlt| ->]|Hlt]; [|done|].
    + by rewrite No1 in St by done.
    + by rewrite No in St1 by done.
  - by rewrite G in St by done.
Qed.

Lemma item_at_lookup m i x : items_ m !! i = Some x -> item_at m (Z.of_nat i) = x.
Proof. intros H. unfold item_at. rewrite Nat2Z.id. by apply nth_lookup_Some with (d := Empty) in H. Qed.

Lemma lookup_item_at m p : 0 <= p < size_array_ m -> items_ m !! Z.to_nat p = Some (item_at m p).
Proof.
  intros. unfold item_at, size_array_ in *.
  destruct (lookup_lt_is_Some_2 (items_ m) (Z.to_nat p)) as [x Hx]; [lia|].
  rewrite Hx. f_equal. symmetry. by apply nth_lookup_Some.
Qed.

(** A key equal to a live one is found at its slot. *)
Lemma GetItem_live m i k k' v : wf m -> items_ m !! i = Some (Live k' v) -> key_equal k k' = true ->
  GetItem_ m k = Some (Z.of_nat i).
Proof.
  intros [Hs _ Hc] Hi E. destruct (Hc i k' v Hi) as (n & L & P & No).
  rewrite <- P, <- (probe_equal m k k' n E). apply GetItem_first; [done|done| |].
  - unfold stop. rewrite (probe_equal m k k' n E), P, (item_at_lookup _ _ _ Hi). cbn.
    rewrite E. by rewrite orb_true_r.
  - intros n' Hn'. rewrite (stop_equal m k k' n' E). by apply No.
Qed.

Lemma live_unique m i j k k' v v' : wf m ->
  items_ m !! i = Some (Live k v) -> items_ m !! j = Some (Live k' v') -> key_equal k k' = true -> i = j.
Proof.
  intros Hw Hi Hj E. pose proof (GetItem_live m i k k v Hw Hi (key_equal_refl k)) as G1.
  rewrite (GetItem_live m j k k' v' Hw Hj E) in G1. injection G1. lia.
Qed.

(** What the scan finds. *)
Lemma scan_Some l k v : scan l k = Some v -> exists i k', l !! i = Some (Live k' v) /\ key_equal k k' = true.
Proof.
  induction l as [|x l IH]; [done|]. destruct x; cbn [scan].
  - intros (i & k' & ? & ?)%IH. by exists (S i), k'.
  - destruct (key_equal k k0) eqn:E.
    + intros [= ->]. by exists 0%nat, k0.
    + intros (i & k' & ? & ?)%IH. by exists (S i), k'.
  - intros (i & k' & ? & ?)%IH. by exists (S i), k'.
Qed.

Lemma scan_None l k : scan l k = None ->
  forall i k' v, l !! i = Some (Live k' v) -> key_equal k k' = false.
Proof.
  induction l as [|x l IH]; [done|]. intros H [|i] k' v Hi; cbn in Hi.
  - injection Hi as ->. cbn in H. by destruct (key_equal k k').
  - apply (IH (ltac:(destruct x; cbn in H; [done| |done]; by destruct (key_equal k k0))) i k' v Hi).
Qed.

Lemma scan_live m i k k' v : wf m -> items_ m !! i = Some (Live k' v) -> key_equal k k' = true ->
  scan (items_ m) k = Some v.
Proof.
  intros Hw Hi E. destruct (scan (items_ m) k) as [v'|] eqn:S.
  - apply scan_Some in S as (j & k2 & Hj & E2).
    assert (i = j) as -> by (eapply live_unique; [done..|];
      eapply key_equal_trans; [by apply key_equal_sym|done]).
    rewrite Hi in Hj. by injection Hj as -> ->.
  - by rewrite (scan_None _ _ S _ _ _ Hi) in E.
Qed.

Lemma Get_scan m k : wf m -> Get m k = scan (items_ m) k.
Proof.
  intros Hw. unfold Get. destruct (scan (items_ m) k) as [v|] eqn:S.
  - apply scan_Some in S as (i & k' & Hi & E). rewrite (GetItem_live m i k k' v Hw Hi E).
    by rewrite (item_at_lookup _ _ _ Hi).
  - pose proof (GetItem_spec m k (wf_size m Hw)) as G. destruct (GetItem_ m k) as [p|]; [|done].
    destruct G as (n & L & -> & St & _). unfold stop in St.
    pose proof (lookup_item_at m _ (probe_bound m k n (wf_size m Hw))) as Lk.
    destruct (item_at m (probe m k n)) as [|k' v|k' v]; [done| |done]. cbn in St.
    rewrite (scan_None _ _ S _ _ _ Lk), orb_true_r in St. done.
Qed.
(** ** Updates *)

Lemma set_item_size m p x n : size_array_ (set_item m p x n) = size_array_ m.
Proof. unfold size_array_. cbn. by rewrite length_insert. Qed.

Lemma set_item_probe m p x n k j : probe (set_item m p x n) k j = probe m k j.
Proof. unfold probe. by rewrite set_item_size. Qed.

Lemma set_item_at m p x n q : 0 <= p < size_array_ m -> 0 <= q < size_array_ m ->
  item_at (set_item m p x n) q = if decide (p = q) then x else item_at m q.
Proof.
  unfold size_array_. intros Hp Hq.
  assert (items_ (set_item m p x n) !! Z.to_nat q = Some (item_at (set_item m p x n) q)) as E
    by (apply lookup_item_at; rewrite set_item_size; unfold size_array_; lia).
  cbn [items_ set_item] in E. case_decide as D.
  - subst q. rewrite list_lookup_insert_eq in E by lia. congruence.
  - rewrite list_lookup_insert_ne in E by lia. rewrite lookup_item_at in E by (unfold size_array_; lia).
    congruence.
Qed.

Lemma set_item_lookup m p x n i y : 0 <= p < size_array_ m ->
  items_ (set_item m p x n) !! i = Some y <->
  (Z.of_nat i = p /\ y = x) \/ (Z.of_nat i <> p /\ items_ m !! i = Some y).
Proof.
  unfold size_array_. intros Hp. cbn. rewrite list_lookup_insert_Some.
  split; [intros [(? & <- & ?)|[? ?]]|intros [[? ->]|[? ?]]]; [left|right|left|right]; split_and?; lia || done || auto.
Qed.

(** A new item at a place where lookups of other live keys did not end. *)
Lemma set_item_chain m p x n k j : 0 <= p < size_array_ m ->
  (probe m k j = p -> first x <> 0 /\ (j = 0%nat \/ first x > 0 -> matches k x = false)) ->
  stop m k j = false -> stop (set_item m p x n) k j = false.
Proof.
  intros Hp Hx Hst. unfold stop in *. rewrite set_item_probe.
  rewrite set_item_at by (try done; apply probe_bound; lia). case_decide as D; [|done].
  destruct (Hx (eq_sym D)) as [H1 H2]. rewrite (proj2 (Z.eqb_neq _ _)) by done. cbn [orb].
  destruct (decide (j = 0%nat \/ first x > 0)) as [C|C].
  - rewrite H2 by done. apply andb_false_r.
  - rewrite (proj2 (Nat.eqb_neq _ _)) by tauto. rewrite (proj2 (Z.ltb_ge _ _)) by lia. done.
Qed.

Lemma count_live_set l i x y : l !! i = Some y ->
  count_live (<[i := x]> l) =
  count_live l + (if is_live x then 1 else 0) - (if is_live y then 1 else 0).
Proof.
  unfold count_live. revert i; induction l as [|z l IH]; intros [|i] H; [done|done|..].
  - injection H as ->. cbn [insert list_insert]. rewrite !filter_cons. 
    destruct (is_live x), (is_live y); repeat case_decide; cbn [length]; try done; lia.
  - cbn in H. specialize (IH i H). change (<[S i := x]> (z :: l)) with (z :: <[i := x]> l).
    rewrite !filter_cons. case_decide; cbn [length]; lia.
Qed.

Lemma Insert_place m k p : wf m -> GetItem_ m k = Some p -> first (item_at m p) <= 0 ->
  0 <= p < size_array_ m /\ scan (items_ m) k = None /\
  exists n, (n < length (items_ m))%nat /\ p = probe m k n /\
    (forall n', (n' < n)%nat -> stop m k n' = false) /\
    (item_at m p = Empty \/ n = 0%nat /\ matches k (item_at m p) = true).
Proof.
  intros Hw G Hf. pose proof (GetItem_spec m k (wf_size m Hw)) as S. rewrite G in S.
  destruct S as (n & L & -> & St & No). split; [apply probe_bound, Hw|]. split.
  - rewrite <- Get_scan by done. unfold Get. rewrite G.
    by destruct (item_at m (probe m k n)).
  - exists n. split_and!; [done|done|done|]. unfold stop in St.
    destruct (item_at m (probe m k n)) as [|k' v|k' v]; [by left|done|right].
    cbn [first] in St. destruct n; [done|]. done.
Qed.

Lemma Insert_keeps_chain m k v p k1 j n : wf m -> GetItem_ m k = Some p ->
  first (item_at m p) <= 0 -> scan (items_ m) k1 <> None ->
  stop m k1 j = false -> stop (set_item m p (Live k v) n) k1 j = false.
Proof.
  intros Hw G Hf Hk1 Hst. destruct (Insert_place m k p Hw G Hf) as (Hp & Hno & n0 & L & P & No & C).
  apply set_item_chain; [done| |done]. intros Hj. split; [done|]. intros _. cbn.
  destruct (key_equal k1 k) eqn:E; [|done]. exfalso. apply Hk1.
  rewrite <- Get_scan by done. unfold Get.
  pose proof (GetItem_spec m k1 (wf_size m Hw)) as S. pose proof (GetItem_spec m k (wf_size m Hw)) as S'.
  rewrite G in S'. destruct S' as (n' & L' & P' & St' & No').
  rewrite (GetItem_first m k1 n'); [|by apply wf_size|done| |].
  - rewrite (probe_equal m k1 k n' E), <- P'. by destruct (item_at m p).
  - by rewrite (stop_equal m k1 k n' E).
  - intros. rewrite (stop_equal m k1 k _ E). by apply No'.
Qed.

Lemma map_Insert_wf m k v p : wf m -> GetItem_ m k = Some p -> first (item_at m p) <= 0 ->
  wf (set_item m p (Live k v) (num_elm_ m + 1)).
Proof.
  intros Hw G Hf. pose proof (Insert_place m k p Hw G Hf) as (Hp & Hno & n0 & L & P & No & C).
  split.
  - rewrite set_item_size. apply Hw.
  - cbn [num_elm_ items_ set_item]. rewrite (count_live_set _ _ _ (item_at m p)) by (by apply lookup_item_at).
    rewrite (wf_num m Hw). destruct (item_at m p); cbn in *; lia.
  - intros i k1 v1 Hi. apply set_item_lookup in Hi as [[Hi E]|[Hi Hl]]; [..|done].
    + injection E as -> ->. exists n0. cbn [items_ set_item]. rewrite length_insert, set_item_probe.
      split_and!; [done|congruence|]. intros n' Hn'. apply set_item_chain; [done| |by apply No].
      intros Hp'. exfalso. specialize (No n' Hn'). unfold stop in No. rewrite Hp' in No.
      destruct C as [C|[-> C]]; [|lia]. by rewrite C in No.
    + destruct (wf_chain m Hw i k1 v1 Hl) as (n1 & L1 & P1 & No1). exists n1.
      cbn [items_ set_item]. rewrite length_insert, set_item_probe. split_and!; [done|done|].
      intros n' Hn'. apply Insert_keeps_chain; [done..| |by apply No1].
      rewrite (scan_live m i k1 k1 v1 Hw Hl (key_equal_refl k1)). done.
Qed.

(** The scan after an update, given the invariant of the result. *)
Lemma scan_set m p k v n k' : wf m -> GetItem_ m k = Some p -> first (item_at m p) <= 0 ->
  wf (set_item m p (Live k v) n) ->
  scan (items_ (set_item m p (Live k v) n)) k' =
  if key_equal k' k then Some v else scan (items_ m) k'.
Proof.
  intros Hw G Hf Hw'. pose proof (Insert_place m k p Hw G Hf) as (Hp & _).
  destruct (key_equal k' k) eqn:E.
  - eapply (scan_live _ (Z.to_nat p)); [done| |done]. apply set_item_lookup; [done|]. left. split; [lia|done].
  - destruct (scan (items_ m) k') as [w|] eqn:S.
    + apply scan_Some in S as (i & k2 & Hi & E2). eapply scan_live; [done| |done].
      apply set_item_lookup; [done|]. right. split; [|done]. intros Hpi.
      rewrite <- Hpi, (item_at_lookup _ _ _ Hi) in Hf. cbn in Hf. lia.
    + destruct (scan (items_ (set_item m p (Live k v) n)) k') as [w|] eqn:S'; [|done].
      apply scan_Some in S' as (i & k2 & Hi & E2).
      apply set_item_lookup in Hi as [[_ Hi]|[_ Hi]]; [| |done].
      * injection Hi as -> ->. congruence.
      * by rewrite (scan_None _ _ S _ _ _ Hi) in E2.
Qed.

Lemma map_Erase_wf m p k v : wf m -> 0 <= p < size_array_ m -> item_at m p = Live k v ->
  wf (set_item m p (Dead k v) (num_elm_ m - 1)).
Proof.
  intros Hw Hp Hi. split.
  - rewrite set_item_size. apply Hw.
  - cbn [num_elm_ items_ set_item]. rewrite (count_live_set _ _ _ (item_at m p)) by (by apply lookup_item_at).
    rewrite (wf_num m Hw), Hi. cbn. lia.
  - intros i k1 v1 H1. apply set_item_lookup in H1 as [[_ E]|[Hne Hl]]; [done| |done].
    destruct (wf_chain m Hw i k1 v1 Hl) as (n1 & L1 & P1 & No1). exists n1.
    cbn [items_ set_item]. rewrite length_insert, set_item_probe. split_and!; [done|done|].
    intros n' Hn'. apply set_item_chain; [done| |by apply No1]. intros Hp'. split; [done|]. intros _.
    specialize (No1 n' Hn'). unfold stop in No1. rewrite Hp', Hi in No1. cbn in No1 |- *.
    by destruct (key_equal k1 k); [rewrite orb_true_r in No1|].
Qed.

Lemma scan_erase m p k v n k' : wf m -> 0 <= p < size_array_ m -> item_at m p = Live k v ->
  wf (set_item m p (Dead k v) n) ->
  scan (items_ (set_item m p (Dead k v) n)) k' = if key_equal k' k then None else scan (items_ m) k'.
Proof.
  intros Hw Hp Hi Hw'. pose proof (lookup_item_at m p Hp) as Hl. rewrite Hi in Hl.
  destruct (scan (items_ (set_item m p (Dead k v) n)) k') as [w|] eqn:S.
  - apply scan_Some in S as (i & k2 & Hi2 & E2). apply set_item_lookup in Hi2 as [[_ E]|[Hne Hl2]]; [done| |done].
    destruct (key_equal k' k) eqn:E.
    + exfalso. apply Hne. assert (i = Z.to_nat p) as ->; [|lia].
      eapply (live_unique m i (Z.to_nat p) k2 k w v Hw Hl2 Hl).
      eapply key_equal_trans; [by apply key_equal_sym|done].
    + symmetry. by eapply scan_live.
  - destruct (key_equal k' k) eqn:E; [done|]. destruct (scan (items_ m) k') as [w|] eqn:S2; [|done].
    apply scan_Some in S2 as (i & k2 & Hi2 & E2). exfalso.
    assert (Z.of_nat i <> p) as Hne.
    { intros <-. rewrite (item_at_lookup _ _ _ Hi2) in Hi. injection Hi as -> ->. congruence. }
    assert (items_ (set_item m p (Dead k v) n) !! i = Some (Live k2 w)) as H3
      by (apply set_item_lookup; auto).
    by rewrite (scan_None _ _ S _ _ _ H3) in E2.
Qed.
(** ** Every slot is reached *)

Lemma step_of_prime p : step_of p ∈ kPrimes.
Proof.
  unfold step_of. pose proof (Z.mod_pos_bound p kNumPrimes ltac:(unfold kNumPrimes; lia)) as B.
  unfold kNumPrimes in *. apply list_elem_of_In, nth_In. cbn. lia.
Qed.

Lemma probe_covers m k i : 0 < size_array_ m -> coprime_steps m -> (i < length (items_ m))%nat ->
  exists n, (n < length (items_ m))%nat /\ probe m k n = Z.of_nat i.
Proof.
  intros Hs Hc Hi. set (h := hash k mod size_array_ m). set (st := step_of h).
  assert (Z.gcd st (size_array_ m) = 1) as G.
  { unfold coprime_steps in Hc. rewrite Forall_forall in Hc. apply Hc, list_elem_of_In, step_of_prime. }
  destruct (Z.gcd_bezout _ _ _ G) as (u & v & Huv).
  set (n := ((Z.of_nat i - h) * u) mod size_array_ m).
  pose proof (Z.mod_pos_bound ((Z.of_nat i - h) * u) (size_array_ m) Hs) as Bn. fold n in Bn.
  exists (Z.to_nat n). unfold size_array_ in Bn. split; [lia|].
  unfold probe. fold h. fold st. rewrite Z2Nat.id by lia. unfold n.
  rewrite <- Zplus_mod_idemp_r, Zmult_mod_idemp_l, Zplus_mod_idemp_r.
  replace (h + (Z.of_nat i - h) * u * st)
    with (Z.of_nat i + (- (Z.of_nat i - h) * v) * size_array_ m).
  2: { transitivity (h + (Z.of_nat i - h) * (u * st)); [|ring].
       replace (u * st) with (1 - v * size_array_ m) by lia. ring. }
  rewrite Z.mod_add by lia. apply Z.mod_small. unfold size_array_. lia.
Qed.

Lemma full_no_empty l : Z.of_nat (length l) = count_live l -> forall i : nat, l !! i <> Some (@Empty).
Proof.
  unfold count_live. intros E i Hi.
  assert (length (filter (λ i, is_live i = true) l) < length l)%nat; [|lia]. clear E.
  revert i Hi; induction l as [|x l IH]; intros [|i] Hi; cbn in Hi; [done|done|..].
  - injection Hi as ->. rewrite filter_cons_False by done. cbn.
    pose proof (length_filter (λ i, is_live i = true) l). lia.
  - specialize (IH i Hi). rewrite filter_cons. case_decide; cbn; lia.
Qed.

Lemma GetItem_None_full m k : 0 < size_array_ m -> coprime_steps m -> GetItem_ m k = None ->
  forall i, items_ m !! i <> Some Empty.
Proof.
  intros Hs Hc G i Hi. pose proof (GetItem_spec m k Hs) as S. rewrite G in S.
  destruct (probe_covers m k i Hs Hc (lookup_lt_Some _ _ _ Hi)) as (n & L & P).
  specialize (S n L). unfold stop in S. by rewrite P, (item_at_lookup _ _ _ Hi) in S.
Qed.

Lemma Insert_spec m k v : wf m ->
  let '(ok, m') := Insert m k v in
  wf m' /\
  (ok = true -> scan (items_ m) k = None /\
    forall k', scan (items_ m') k' = if key_equal k' k then Some v else scan (items_ m) k') /\
  (ok = false -> m' = m /\ (scan (items_ m) k <> None \/
    (coprime_steps m -> forall i, items_ m !! i <> Some Empty))).
Proof using All.
  intros Hw. unfold Insert. destruct (Z.eqb_spec (size_array_ m) (num_elm_ m)) as [Hfull|_].
  { split_and!; [done|done|]. intros _. split; [done|right]. intros _. apply full_no_empty.
    unfold size_array_ in Hfull. by rewrite Hfull, (wf_num m Hw). }
  destruct (GetItem_ m k) as [p|] eqn:G.
  - destruct (Z.leb_spec (first (item_at m p)) 0) as [Hf|Hf].
    + pose proof (map_Insert_wf m k v p Hw G Hf) as Hw'.
      split_and!; [done| |done]. intros _. split; [by apply (Insert_place m k p)|].
      intros k'. by apply scan_set.
    + split_and!; [done|done|]. intros _. split; [done|left]. rewrite <- Get_scan by done.
      unfold Get. rewrite G. by destruct (item_at m p).
  - split_and!; [done|done|]. intros _. split; [done|right]. intros Hc.
    by apply (GetItem_None_full m k (wf_size m Hw)).
Qed.

Lemma Erase_spec m k : wf m ->
  let '(ok, m') := Erase m k in
  wf m' /\ (ok = true <-> scan (items_ m) k <> None) /\
  (forall k', scan (items_ m') k' = if key_equal k' k then None else scan (items_ m) k').
Proof using All.
  intros Hw. pose proof (Get_scan m k Hw) as GS. unfold Erase. unfold Get in GS.
  assert (scan (items_ m) k = None -> forall k',
    scan (items_ m) k' = if key_equal k' k then None else scan (items_ m) k') as Hnone.
  { intros N k'. destruct (key_equal k' k) eqn:E; [|done].
    destruct (scan (items_ m) k') as [w|] eqn:S; [|done].
    apply scan_Some in S as (i & k2 & Hi & E2). pose proof (scan_None _ _ N _ _ _ Hi) as E3.
    rewrite (key_equal_trans k k' k2 (key_equal_sym _ _ E) E2) in E3. done. }
  destruct (GetItem_ m k) as [p|] eqn:G; [|split_and!; [done|by rewrite <- GS|auto]].
  destruct (item_at m p) as [|k' v|k' v] eqn:I; [split_and!; [done|by rewrite <- GS|auto]| |
    split_and!; [done|by rewrite <- GS|auto]].
  pose proof (GetItem_spec m k (wf_size m Hw)) as S. rewrite G in S.
  destruct S as (n & L & P & St & _). unfold stop in St. rewrite <- P, I in St.
  assert (key_equal k k' = true) as E.
  { cbn in St. destruct (key_equal k k'); [done|]. by rewrite andb_false_r in St. }
  rewrite E. assert (0 <= p < size_array_ m) as Hp by (subst p; apply probe_bound, Hw).
  pose proof (map_Erase_wf m p k' v Hw Hp I) as Hw'. split_and!; [done|by rewrite <- GS|].
  intros k2. rewrite (scan_erase m p k' v) by done.
  replace (key_equal k2 k') with (key_equal k2 k); [done|].
  destruct (key_equal k2 k) eqn:E2, (key_equal k2 k') eqn:E3; try done.
  - by rewrite (key_equal_trans k2 k k' E2 E) in E3.
  - by rewrite (key_equal_trans k2 k' k E3 (key_equal_sym _ _ E)) in E2.
Qed.

Lemma Init_wf n m : Init n = Some m -> wf m /\ forall k, scan (items_ m) k = None.
Proof.
  unfold Init. case_match eqn:F; [|done]. intros [= <-]. split; [split|].
  - unfold size_array_. cbn. rewrite length_replicate. destruct n; [by vm_compute in F|lia].
  - cbn. clear F. unfold count_live. induction n; [done|].
    rewrite replicate_S, filter_cons_False by done. done.
  - intros i k v [Hi _]%lookup_replicate. done.
  - intros k. cbn. clear F. by induction n.
Qed.
(** ** The interface used by clients *)

Lemma Get_Insert m k v k' : wf m -> (Insert m k v).1 = true ->
  Get (Insert m k v).2 k' = if key_equal k' k then Some v else Get m k'.
Proof.
  intros Hw Hok. pose proof (Insert_spec m k v Hw) as S. destruct (Insert m k v) as [ok m'].
  cbn in *. destruct S as (W & S & _). rewrite !Get_scan by done. by apply S.
Qed.

Lemma Insert_wf_2 m k v : wf m -> wf (Insert m k v).2.
Proof. intros Hw. pose proof (Insert_spec m k v Hw) as S. destruct (Insert m k v). apply S. Qed.

Lemma Insert_false m k v : wf m -> (Insert m k v).1 = false -> (Insert m k v).2 = m.
Proof. intros Hw Hok. pose proof (Insert_spec m k v Hw) as S. destruct (Insert m k v). by apply S. Qed.

Lemma Get_Erase m k k' : wf m ->
  Get (Erase m k).2 k' = if key_equal k' k then None else Get m k'.
Proof.
  intros Hw. pose proof (Erase_spec m k Hw) as S. destruct (Erase m k) as [ok m'].
  cbn. destruct S as (W & _ & S). rewrite !Get_scan by done. apply S.
Qed.

Lemma Erase_wf_2 m k : wf m -> wf (Erase m k).2.
Proof. intros Hw. pose proof (Erase_spec m k Hw) as S. destruct (Erase m k). apply S. Qed.

Lemma Get_equal m k k' : wf m -> key_equal k k' = true -> Get m k = Get m k'.
Proof.
  intros Hw E. rewrite !Get_scan by done.
  destruct (scan (items_ m) k) as [v|] eqn:S.
  - apply scan_Some in S as (i & k2 & Hi & E2). symmetry. eapply scan_live; [done..|].
    eapply key_equal_trans; [by apply key_equal_sym|done].
  - destruct (scan (items_ m) k') as [v|] eqn:S'; [|done].
    apply scan_Some in S' as (i & k2 & Hi & E2). pose proof (scan_None _ _ S _ _ _ Hi) as E3.
    by rewrite (key_equal_trans k k' k2 E E2) in E3.
Qed.

Lemma Get_live m i k v : wf m -> items_ m !! i = Some (Live k v) -> Get m k = Some v.
Proof. intros. rewrite Get_scan by done. eapply scan_live; [done..|apply key_equal_refl]. Qed.

Lemma Get_Some_live m k v : wf m -> Get m k = Some v ->
  exists i k', items_ m !! i = Some (Live k' v) /\ key_equal k k' = true.
Proof. intros Hw. rewrite Get_scan by done. apply scan_Some. Qed.

Lemma Insert_size m k v : length (items_ (Insert m k v).2) = length (items_ m).
Proof.
  unfold Insert. repeat case_match; cbn; try done. by rewrite length_insert.
Qed.

Lemma Erase_size m k : length (items_ (Erase m k).2) = length (items_ m).
Proof. unfold Erase. repeat case_match; cbn; try done. by rewrite length_insert. Qed.

Lemma Erase_at m i k v : wf m -> items_ m !! i = Some (Live k v) ->
  Erase m k = (true, set_item m (Z.of_nat i) (Dead k v) (num_elm_ m - 1)).
Proof.
  intros Hw Hi. unfold Erase. rewrite (GetItem_live m i k k v Hw Hi (key_equal_refl k)).
  by rewrite (item_at_lookup _ _ _ Hi), key_equal_refl.
Qed.

(** Free slots: an insertion of an absent key succeeds while there is one,
    and takes at most one. *)
Definition empties (l : list Item) : nat := length (filter (fun i => first i = 0) l).
Definition free (m : CloseHashmap) : nat := empties (items_ m).

Lemma empties_replicate n : empties (replicate n Empty) = n.
Proof. unfold empties. induction n as [|n IH]; [done|]. cbn [replicate]. rewrite filter_cons_True by done. cbn [length]. by rewrite IH. Qed.
Lemma free_pos m : (0 < free m)%nat -> exists i, items_ m !! i = Some Empty.
Proof.
  unfold free, empties. induction (items_ m) as [|x l IH]; [cbn; lia|]. rewrite filter_cons. case_decide as D.
  - intros _. exists 0%nat. by destruct x.
  - intros (i & Hi)%IH. by exists (S i).
Qed.

Lemma free_set l i x : (empties l <= S (empties (<[i := x]> l)))%nat.
Proof.
  unfold empties.
  revert i; induction l as [|y l IH]; intros i; [destruct i; cbn; lia|]. destruct i as [|i].
  - change (<[0%nat := x]> (y :: l)) with (x :: l). rewrite !filter_cons.
    repeat case_decide; cbn [length]; lia.
  - change (<[S i := x]> (y :: l)) with (y :: <[i := x]> l). rewrite !filter_cons.
    specialize (IH i). case_decide; cbn [length]; lia.
Qed.

Lemma Insert_free m k v : (free m <= S (free (Insert m k v).2))%nat.
Proof. unfold Insert, free. repeat case_match; cbn; try lia. apply free_set. Qed.

Lemma Insert_ok m k v : wf m -> coprime_steps m -> (0 < free m)%nat -> Get m k = None ->
  (Insert m k v).1 = true.
Proof.
  intros Hw Hc Hf Hg. pose proof (Insert_spec m k v Hw) as S.
  destruct (Insert m k v) as [[|] m']; [done|]. destruct S as (_ & _ & S).
  destruct (S eq_refl) as [_ [N|N]].
  - by rewrite Get_scan in Hg.
  - destruct (free_pos m Hf) as [i Hi]. by destruct (N Hc i).
Qed.

(** ** The iterator *)

Lemma next_live_spec n : forall m pos, (pos + n = length (items_ m))%nat ->
  (pos <= next_live n m pos <= length (items_ m))%nat /\
  (next_live n m pos < length (items_ m) ->
    exists k v, items_ m !! next_live n m pos = Some (Live k v))%nat /\
  (forall q k v, (pos <= q < next_live n m pos)%nat -> items_ m !! q <> Some (Live k v)).
Proof.
  induction n as [|n IH]; intros m pos E; cbn [next_live]; [split_and!; [lia|lia|lia|lia]|].
  assert (items_ m !! pos = Some (item_at m (Z.of_nat pos))) as L.
  { rewrite <- (lookup_item_at m (Z.of_nat pos)) by (unfold size_array_; lia). by rewrite Nat2Z.id. }
  destruct (item_at m (Z.of_nat pos)) as [|k v|k v] eqn:I; cbn.
  2: { split_and!; [lia|lia|eauto|lia]. }
  all: destruct (IH m (S pos) ltac:(lia)) as ((I1 & I2) & I3 & I4); split_and!; [lia|lia|done|].
  all: intros q k' v' Hq; destruct (decide (q = pos)) as [->|]; [by rewrite L|apply I4; lia].
Qed.
(** ** Histories *)

Inductive Cmd := CInsert (k : K) (v : V) | CErase (k : K).

Definition exec (m : CloseHashmap) (c : Cmd) : bool * CloseHashmap :=
  match c with CInsert k v => Insert m k v | CErase k => Erase m k end.

(** The results of a sequence of commands and the final map. *)
Fixpoint exec_all (m : CloseHashmap) (cs : list Cmd) : list bool * CloseHashmap :=
  match cs with
  | [] => ([], m)
  | c :: cs => let '(ok, m) := exec m c in let '(oks, m) := exec_all m cs in (ok :: oks, m)
  end.

(** The same history on a function from keys to values. *)
Definition replay1 (f : K -> option V) (c : Cmd) (ok : bool) : K -> option V :=
  match c with
  | CInsert k v => fun k' => if ok && key_equal k' k then Some v else f k'
  | CErase k => fun k' => if key_equal k' k then None else f k'
  end.

Fixpoint replay (f : K -> option V) (cs : list Cmd) (oks : list bool) : K -> option V :=
  match cs, oks with
  | c :: cs, ok :: oks => replay (replay1 f c ok) cs oks
  | _, _ => f
  end.

Lemma exec_wf m c : wf m ->
  wf (exec m c).2 /\ forall f, (forall k, scan (items_ m) k = f k) ->
    forall k, scan (items_ (exec m c).2) k = replay1 f c (exec m c).1 k.
Proof.
  intros Hw. destruct c as [k v|k]; cbn [exec].
  - pose proof (Insert_spec m k v Hw) as S. destruct (Insert m k v) as [ok m'].
    destruct S as (S1 & S2 & S3). split; [done|]. intros f Hf k'. cbn. destruct ok; cbn.
    + rewrite <- Hf. by apply S2.
    + destruct (S3 eq_refl) as [-> _]. apply Hf.
  - pose proof (Erase_spec m k Hw) as S. destruct (Erase m k) as [ok m'].
    destruct S as (S1 & _ & S3). split; [done|]. intros f Hf k'. cbn. rewrite <- Hf. apply S3.
Qed.

Lemma exec_all_spec cs : forall m f, wf m -> (forall k, scan (items_ m) k = f k) ->
  wf (exec_all m cs).2 /\ forall k, scan (items_ (exec_all m cs).2) k = replay f cs (exec_all m cs).1 k.
Proof.
  induction cs as [|c cs IH]; intros m f Hw Hf; [done|]. cbn [exec_all].
  destruct (exec_wf m c Hw) as [W R]. specialize (R f Hf).
  destruct (exec m c) as [ok m1]. cbn [fst snd] in W, R.
  specialize (IH m1 (replay1 f c ok) W R). destruct (exec_all m1 cs) as [oks m2]. done.
Qed.

(** C23: after any history of [Insert] and [Erase] calls on a map set up by
    [Init], [Get] returns for every key what the same history gives on a
    function from keys to values, whatever collisions, tombstones and walks
    the history produced. *)
Theorem map_history_refines n m cs k : Init n = Some m ->
  Get (exec_all m cs).2 k = replay (fun _ => None) cs (exec_all m cs).1 k.
Proof using All.
  intros I. destruct (Init_wf n m I) as [W N].
  destruct (exec_all_spec cs m (fun _ => None) W N) as [W' S].
  rewrite Get_scan by done. apply S.
Qed.

(** [Insert] keeps the map well formed; when it returns true the key was
    absent and is now bound, every other binding unchanged; when it returns
    false nothing changed and either the key was present or, for a size the
    prime steps are coprime to, no slot is empty any more. *)
Theorem map_insert_refines m k v : wf m ->
  let '(ok, m') := Insert m k v in
  wf m' /\
  (ok = true -> scan (items_ m) k = None /\
    forall k', scan (items_ m') k' = if key_equal k' k then Some v else scan (items_ m) k') /\
  (ok = false -> m' = m /\ (scan (items_ m) k <> None \/
    (coprime_steps m -> forall i, items_ m !! i <> Some Empty))).
Proof using All. apply Insert_spec. Qed.

(** [Erase] keeps the map well formed, returns whether the key was
    present, removes its binding and leaves every other one. *)
Theorem map_erase_refines m k : wf m ->
  let '(ok, m') := Erase m k in
  wf m' /\ (ok = true <-> scan (items_ m) k <> None) /\
  (forall k', scan (items_ m') k' = if key_equal k' k then None else scan (items_ m) k').
Proof using All. apply Erase_spec. Qed.

End Hashmap.
Arguments Item : clear implicits.
Arguments CloseHashmap : clear implicits.

(** *** A map of four slots whose keys all collide on slot 1 *)

#[local] Instance mod_key : HashKey Z := {| key_equal := Z.eqb; hash := fun k => k mod 4 |}.
#[local] Instance mod_key_laws : HashKeyLaws Z.
Proof.
  split; cbn.
  - apply Z.eqb_refl.
  - intros k k' ->%Z.eqb_eq. apply Z.eqb_refl.
  - intros k1 k2 k3 ->%Z.eqb_eq. done.
  - intros k k' ->%Z.eqb_eq. done.
Qed.

Definition ex_map : CloseHashmap Z Z := {| items_ := replicate 4 Empty; num_elm_ := 0 |}.
Definition ex_cmds : list Cmd := [CInsert 1 10; CInsert 5 50; CErase 1; CInsert 9 90; CInsert 5 51].

Lemma ex_init : Init 4 = Some ex_map.
Proof. vm_compute. reflexivity. Qed.

Lemma map_history_refines_witness :
  Get (exec_all ex_map ex_cmds).2 5 = Some 50 /\ Get (exec_all ex_map ex_cmds).2 1 = None.
Proof.
  split; rewrite (map_history_refines 4 ex_map ex_cmds _ ex_init); vm_compute; reflexivity.
Defined.

Lemma map_insert_refines_witness :
  let '(ok, m') := Insert ex_map 1 10 in
  wf m' /\ (ok = true -> scan (items_ ex_map) 1 = None /\
    forall k', scan (items_ m') k' = if key_equal k' 1 then Some 10 else scan (items_ ex_map) k') /\
  (ok = false -> m' = ex_map /\ (scan (items_ ex_map) 1 <> None \/
    (coprime_steps ex_map -> forall i, items_ ex_map !! i <> Some Empty))).
Proof. apply (map_insert_refines ex_map 1 10), (Init_wf 4 ex_map), ex_init. Defined.

Lemma map_erase_refines_witness :
  let '(ok, m') := Erase ex_map 1 in
  wf m' /\ (ok = true <-> scan (items_ ex_map) 1 <> None) /\
  (forall k', scan (items_ m') k' = if key_equal k' 1 then None else scan (items_ ex_map) k').
Proof. apply (map_erase_refines ex_map 1), (Init_wf 4 ex_map), ex_init. Defined.

(** Slots are not recycled: with two live keys at most, a map of four slots
    refuses an insertion after enough insertions and erasures of keys that
    share their first slot. *)
Lemma Insert_tombstones_exhaust :
  let cs := [CInsert 1 10; CInsert 5 50; CErase 5; CInsert 5 51; CErase 5; CInsert 5 52; CErase 5] in
  let m := (exec_all ex_map cs).2 in
  Size m = 1 /\ (Insert m 5 53).1 = false.
Proof. vm_compute. split; reflexivity. Qed.

End Hashmap.
