(* ===== verification/Os.v ===== *)
(** * Os: what the program uses of the operating system and of libpublic-cpp

    The system calls and the [IOHelper] functions whose bodies are only in the
    binary library deps/public-cpp/lib are operations on an abstract world
    [W].  The operations are the fields of a class, so every model that
    performs I/O is a function of them; the documented behaviour the program
    relies on is a second class, used only by the theorems that need it. *)

From Stdlib Require Import ZArith Lia Ascii.
From stdpp Require Import base list numbers.
From S2P Require Import Prelude.

Module Os.

(** [IOHelper::ReadNonBlock], [WriteNonBlock] and [WriteVecNonBlock]
    (declared in io_helper.h, lines 24-26).  A read returns the C result and
    the bytes stored; a vector write returns the C result and what is left of
    the [iovec] array, whose length is the updated [num_iov]. *)
Class NetIO (W : Type) : Type := {
  ReadNonBlock : Z -> nat -> W -> (Z * bytes) * W;
  WriteNonBlock : Z -> bytes -> W -> Z * W;
  WriteVecNonBlock : Z -> list bytes -> W -> (Z * list bytes) * W;
}.

(** What the callers rely on.  [input fd w] is the part of the incoming
    stream of [fd] that has not been read, [output fd w] what has been
    accepted for sending: a positive result is the number of bytes
    transferred, and otherwise nothing is. *)
Class NetIOSpec (W : Type) `{!NetIO W} : Type := {
  input : Z -> W -> bytes;
  output : Z -> W -> bytes;
  ReadNonBlock_pos fd n w r bs w' :
    ReadNonBlock fd n w = ((r, bs), w') -> 0 < r ->
    r = Z.of_nat (length bs) /\ (length bs <= n)%nat /\ input fd w = bs ++ input fd w';
  ReadNonBlock_nonpos fd n w r bs w' :
    ReadNonBlock fd n w = ((r, bs), w') -> r <= 0 -> bs = [] /\ input fd w' = input fd w;
  WriteNonBlock_pos fd bs w r w' :
    WriteNonBlock fd bs w = (r, w') -> 0 < r ->
    r <= Z.of_nat (length bs) /\ output fd w' = output fd w ++ take (Z.to_nat r) bs;
  WriteNonBlock_nonpos fd bs w r w' :
    WriteNonBlock fd bs w = (r, w') -> r <= 0 -> output fd w' = output fd w;
  WriteVecNonBlock_pos fd iovs w r iovs' w' :
    WriteVecNonBlock fd iovs w = ((r, iovs'), w') -> 0 < r ->
    (length iovs' <= length iovs)%nat /\
    exists sent, output fd w' = output fd w ++ sent /\
      r = Z.of_nat (length sent) /\ concat iovs = sent ++ concat iovs';
  WriteVecNonBlock_nonpos fd iovs w r iovs' w' :
    WriteVecNonBlock fd iovs w = ((r, iovs'), w') -> r <= 0 ->
    iovs' = iovs /\ output fd w' = output fd w;
}.

(** A network that follows the contract and delivers in chunks: the incoming
    stream of the only connection is a list of chunks, one per read, an empty
    chunk meaning that nothing has arrived; a write accepts at most [quota]
    bytes. *)
Record ChunkNet := { chunks : list bytes; sent_bytes : bytes; quota : nat }.

Definition chunk_read (fd : Z) (n : nat) (w : ChunkNet) : (Z * bytes) * ChunkNet :=
  match chunks w with
  | [] => ((0, []), w)
  | c :: cs =>
      let got := take n c in
      let rest := drop n c in
      ((Z.of_nat (length got), got),
       {| chunks := if decide (rest = []) then cs else rest :: cs;
          sent_bytes := sent_bytes w; quota := quota w |})
  end.

Definition chunk_write (fd : Z) (bs : bytes) (w : ChunkNet) : Z * ChunkNet :=
  let got := take (quota w) bs in
  (Z.of_nat (length got),
   {| chunks := chunks w; sent_bytes := sent_bytes w ++ got; quota := quota w |}).

(** Drop [n] bytes from the front of a vector, and the entries used up. *)
Fixpoint advance (n : nat) (iovs : list bytes) : list bytes :=
  match iovs with
  | [] => []
  | v :: vs => if decide (length v <= n)%nat then advance (n - length v) vs else drop n v :: vs
  end.

Definition chunk_writev (fd : Z) (iovs : list bytes) (w : ChunkNet) : (Z * list bytes) * ChunkNet :=
  let '(r, w') := chunk_write fd (concat iovs) w in
  if decide (r = 0) then ((0, iovs), w) else ((r, advance (Z.to_nat r) iovs), w').

#[export] Instance chunk_net : NetIO ChunkNet := {
  ReadNonBlock := chunk_read;
  WriteNonBlock := chunk_write;
  WriteVecNonBlock := chunk_writev;
}.

Lemma advance_concat n iovs : concat (advance n iovs) = drop n (concat iovs).
Proof.
  revert n; induction iovs as [|v vs IH]; intros n; [by destruct n|].
  simpl. case_decide.
  - by rewrite IH, drop_app_ge.
  - simpl. by rewrite drop_app_le by lia.
Qed.

Lemma advance_length n iovs : (length (advance n iovs) <= length iovs)%nat.
Proof.
  revert n; induction iovs as [|v vs IH]; intros n; [done|].
  simpl. case_decide; [specialize (IH (n - length v)%nat); lia|simpl; lia].
Qed.

#[export] Program Instance chunk_net_spec : NetIOSpec ChunkNet := {
  input := fun _ w => concat (chunks w);
  output := fun _ w => sent_bytes w;
}.
Next Obligation.
  intros fd n w r bs w'. simpl. unfold chunk_read. destruct (chunks w) as [|c cs] eqn:E.
  - intros [= <- <- <-]. lia.
  - intros [= <- <- <-] _. rewrite length_take. split_and!; [done|lia|].
    simpl. rewrite <- (take_drop n c) at 1. rewrite <- app_assoc. f_equal.
    case_decide as D; simpl; [by rewrite D|done].
Qed.
Next Obligation.
  intros fd n w r bs w'. simpl. unfold chunk_read. destruct (chunks w) as [|c cs] eqn:E.
  - intros [= <- <- <-]. by rewrite E.
  - intros [= <- <- <-] Hr.
    assert (take n c = []) as E' by (apply nil_length_inv; lia). split; [done|].
    simpl. rewrite <- (take_drop n c) at 3. rewrite E'.
    case_decide as D; simpl; [by rewrite D|done].
Qed.
Next Obligation.
  intros fd bs w r w'. simpl. unfold chunk_write. intros [= <- <-] _.
  rewrite length_take. split; [lia|]. simpl. rewrite Nat2Z.id. f_equal.
  destruct (decide (quota w <= length bs)%nat).
  - by rewrite Nat.min_l by lia.
  - rewrite Nat.min_r by lia. by rewrite !firstn_all2 by lia.
Qed.
Next Obligation.
  intros fd bs w r w'. simpl. unfold chunk_write. intros [= <- <-] Hr. simpl.
  rewrite (nil_length_inv (take (quota w) bs)) by lia. by rewrite app_nil_r.
Qed.
Next Obligation.
  intros fd iovs w r iovs' w'. simpl. unfold chunk_writev, chunk_write. simpl.
  case_decide; intros [= <- <- <-] Hr; [lia|].
  split; [apply advance_length|]. exists (take (quota w) (concat iovs)).
  split_and!; [done|done|]. rewrite advance_concat, Nat2Z.id.
  rewrite <- (take_drop (length (take (quota w) (concat iovs))) (concat iovs)) at 1.
  f_equal. rewrite length_take. destruct (decide (quota w <= length (concat iovs))%nat).
  - by rewrite Nat.min_l by lia.
  - rewrite Nat.min_r by lia. by rewrite !firstn_all2 by lia.
Qed.
Next Obligation.
  intros fd iovs w r iovs' w'. simpl. unfold chunk_writev, chunk_write. simpl.
  case_decide; intros [= <- <- <-] Hr; [done|lia].
Qed.

End Os.
