(* ===== verification/Protocol.v ===== *)
(** * Protocol: what every wire protocol shares

    Models src/src/protocols/protocol.h (categories, listen addresses, the
    request information of a reader), the [Slice] and [Buffer] of
    deps/public-cpp and the parts of the C library the parsers use. *)

From Stdlib Require Import ZArith Lia Ascii String.
From stdpp Require Import base list strings numbers.
From S2P Require Import Prelude.

(** ** C library: decimal numbers *)
Module CLib.

Definition LONG_MAX : Z := 2 ^ 63 - 1.
Definition LONG_MIN : Z := - 2 ^ 63.

Definition isspace (c : ascii) : bool :=
  let z := b2z c in (z =? 32) || ((9 <=? z) && (z <=? 13)).
Definition isdigit (c : ascii) : bool := let z := b2z c in (48 <=? z) && (z <=? 57).
Definition digit_val (c : ascii) : Z := b2z c - 48.

(** The longest prefix of the bytes that satisfies [f]. *)
Fixpoint span (f : ascii -> bool) (s : bytes) : bytes :=
  match s with
  | c :: s' => if f c then c :: span f s' else []
  | [] => []
  end.

Definition dec_val (ds : bytes) : Z := fold_left (fun acc c => acc * 10 + digit_val c) ds 0.

(** [strtol(s, &endptr, 10)]: the value, clamped to [long], and the offset of
    [endptr], which is 0 when there are no digits. *)
Definition strtol (s : bytes) : Z * nat :=
  let sp := span isspace s in
  let s1 := drop (List.length sp) s in
  let '(neg, nsign) :=
    match s1 with
    | c :: _ => if b2z c =? 45 then (true, 1%nat) else if b2z c =? 43 then (false, 1%nat) else (false, 0%nat)
    | [] => (false, 0%nat)
    end in
  let ds := span isdigit (drop nsign s1) in
  if decide (ds = []) then (0, 0%nat)
  else
    let v := if neg then - dec_val ds else dec_val ds in
    (Z.max LONG_MIN (Z.min LONG_MAX v), (List.length sp + nsign + List.length ds)%nat).

(** [atoi] is [strtol] converted to [int]. *)
Definition atoi (s : bytes) : Z := i32 (strtol s).1.

(** [sprintf("%u")] of a natural number: its decimal digits. *)
Fixpoint digits_rev (fuel : nat) (n : Z) : bytes :=
  match fuel with
  | O => []
  | S fuel => z2b (48 + n mod 10) :: if n <? 10 then [] else digits_rev fuel (n / 10)
  end.

Definition udec (n : Z) : bytes := rev (digits_rev 30 n).

(** [std::string::find] of a pattern from an offset; [None] is [npos]. *)
Fixpoint find_from (fuel : nat) (pat s : bytes) (pos : nat) : option nat :=
  match fuel with
  | O => None
  | S fuel =>
      if decide (length s < pos + length pat)%nat then None
      else if decide (take (length pat) (drop pos s) = pat) then Some pos
      else find_from fuel pat s (S pos)
  end.

Definition find (pat s : bytes) (pos : nat) : option nat :=
  find_from (S (length s)) pat s pos.

(** [std::string::substr(pos, n)]. *)
Definition substr (s : bytes) (pos n : nat) : bytes := take n (drop pos s).

(** *** Facts about them *)

Lemma span_app f s t :
  Forall (fun c => f c = true) s -> span f (s ++ t) = s ++ span f t.
Proof. induction 1 as [|c s Hc _ IH]; simpl; [done|]. by rewrite Hc, IH. Qed.

Lemma span_stop f s c t :
  Forall (fun c => f c = true) s -> f c = false -> span f (s ++ c :: t) = s.
Proof. intros. rewrite span_app by done. simpl. rewrite H0. by rewrite app_nil_r. Qed.

Lemma dec_val_app ds d : dec_val (ds ++ [d]) = dec_val ds * 10 + digit_val d.
Proof. unfold dec_val. by rewrite fold_left_app. Qed.

Lemma digit_char d : 0 <= d < 10 ->
  isdigit (z2b (48 + d)) = true /\ digit_val (z2b (48 + d)) = d.
Proof.
  intros. unfold isdigit, digit_val. rewrite b2z_z2b, Z.mod_small by lia.
  split; [|lia]. apply andb_true_intro. split; apply Z.leb_le; lia.
Qed.

Lemma digits_rev_spec fuel n :
  0 <= n < 10 ^ Z.of_nat fuel -> (0 < fuel)%nat ->
  Forall (fun c => isdigit c = true) (digits_rev fuel n) /\
  dec_val (rev (digits_rev fuel n)) = n /\ digits_rev fuel n <> [].
Proof.
  revert n; induction fuel as [|fuel IH]; intros n Hn Hf; [lia|].
  rewrite Nat2Z.inj_succ, Z.pow_succ_r in Hn by lia.
  pose proof (Z.mod_pos_bound n 10 ltac:(lia)) as Hm.
  destruct (digit_char (n mod 10) Hm) as [D1 D2]. cbn [digits_rev].
  destruct (Z.ltb_spec n 10) as [L|L].
  - split_and!; [by repeat constructor| |done].
    cbn [rev app]. unfold dec_val. cbn [fold_left]. rewrite D2. rewrite Z.mod_small; lia.
  - assert (0 <= n / 10 < 10 ^ Z.of_nat fuel).
    { split; [apply Z.div_pos; lia|apply Z.div_lt_upper_bound; lia]. }
    assert (0 < fuel)%nat.
    { destruct fuel; [|lia]. cbn in *. lia. }
    destruct (IH (n / 10)) as (I1 & I2 & I3); [done..|].
    split_and!; [by constructor| |done].
    cbn [rev]. rewrite dec_val_app, I2, D2. rewrite (Z.div_mod n 10) at 3; lia.
Qed.

Lemma udec_spec n : 0 <= n < 2 ^ 64 ->
  Forall (fun c => isdigit c = true) (udec n) /\ dec_val (udec n) = n /\ udec n <> [].
Proof.
  intros. destruct (digits_rev_spec 30 n) as (A & B & C); [lia..|]. unfold udec.
  split_and!; [by apply Forall_rev|done|]. intros E. apply C.
  rewrite <- (rev_involutive (digits_rev 30 n)). by rewrite E.
Qed.

Lemma digit_not_space c : isdigit c = true -> isspace c = false /\ b2z c <> 45 /\ b2z c <> 43.
Proof.
  unfold isdigit, isspace. intros [?%Z.leb_le ?%Z.leb_le]%andb_prop. split; [|lia].
  apply orb_false_intro; [apply Z.eqb_neq; lia|].
  apply andb_false_intro2. apply Z.leb_gt. lia.
Qed.

(** [strtol] reads back what [sprintf] printed, up to the first byte that is
    not a digit. *)
Lemma strtol_udec n c t : 0 <= n < 2 ^ 63 -> isdigit c = false ->
  strtol (udec n ++ c :: t) = (n, length (udec n)).
Proof.
  intros Hn Hc. destruct (udec_spec n) as (D & V & NE); [lia|].
  unfold strtol. destruct (udec n) as [|d ds] eqn:E; [done|].
  assert (isdigit d = true) as Hd by (by inversion D).
  destruct (digit_not_space d Hd) as (S1 & S2 & S3).
  cbn [app span]. rewrite S1. cbn [drop length].
  destruct (b2z d =? 45) eqn:E1; [lia|]. destruct (b2z d =? 43) eqn:E2; [lia|].
  cbn [drop Nat.add length]. 
  assert (span isdigit (d :: ds ++ c :: t) = d :: ds) as ->.
  { rewrite app_comm_cons. by apply span_stop. }
  case_decide as K; [done|]. rewrite V. f_equal. unfold LONG_MIN, LONG_MAX. lia.
Qed.

(** [find] from an offset whose next occurrence is known. *)
Lemma find_from_hit fuel pat s pos p :
  (pos <= p)%nat -> (p - pos < fuel)%nat -> (p + length pat <= length s)%nat ->
  take (length pat) (drop p s) = pat ->
  (forall q, (pos <= q < p)%nat -> take (length pat) (drop q s) <> pat) ->
  find_from fuel pat s pos = Some p.
Proof.
  revert pos; induction fuel as [|fuel IH]; intros pos Hle Hf Hlen Hp Hno; [lia|].
  cbn [find_from]. case_decide; [lia|]. case_decide as D.
  - f_equal. destruct (decide (pos = p)); [done|]. exfalso. apply (Hno pos); [lia|done].
  - destruct (decide (pos = p)) as [->|]; [done|].
    apply IH; [lia..| |]; [done|]. intros. apply Hno. lia.
Qed.

Lemma find_hit pat s pos p :
  (pos <= p)%nat -> (p + length pat <= length s)%nat ->
  take (length pat) (drop p s) = pat ->
  (forall q, (pos <= q < p)%nat -> take (length pat) (drop q s) <> pat) ->
  find pat s pos = Some p.
Proof. intros. apply find_from_hit; [lia..|done|done]. Qed.

Lemma find_from_sound fuel pat s pos p :
  find_from fuel pat s pos = Some p ->
  (pos <= p)%nat /\ (p + length pat <= length s)%nat /\ take (length pat) (drop p s) = pat /\
  (forall q, (pos <= q < p)%nat -> take (length pat) (drop q s) <> pat).
Proof.
  revert pos; induction fuel as [|fuel IH]; intros pos; [done|]. cbn [find_from].
  case_decide as D1; [done|]. case_decide as D2.
  - intros [= <-]. split_and!; [lia|lia|done|lia].
  - intros (H1 & H2 & H3 & H4)%IH. split_and!; [lia|lia|done|].
    intros q Hq. destruct (decide (q = pos)) as [->|]; [done|]. apply H4. lia.
Qed.

Lemma find_from_none fuel pat s pos :
  (length s < pos + fuel)%nat -> find_from fuel pat s pos = None ->
  forall q, (pos <= q)%nat -> (q + length pat <= length s)%nat -> take (length pat) (drop q s) <> pat.
Proof.
  revert pos; induction fuel as [|fuel IH]; intros pos Hf Hn q Hq1 Hq2; [lia|].
  cbn [find_from] in Hn. case_decide as D1; [lia|]. case_decide as D2; [done|].
  destruct (decide (q = pos)) as [->|]; [done|]. apply (IH (S pos)); [lia|done|lia|lia].
Qed.

Lemma find_sound pat s pos p :
  find pat s pos = Some p ->
  (pos <= p)%nat /\ (p + length pat <= length s)%nat /\ take (length pat) (drop p s) = pat /\
  (forall q, (pos <= q < p)%nat -> take (length pat) (drop q s) <> pat).
Proof. apply find_from_sound. Qed.

Lemma find_none pat s pos :
  find pat s pos = None ->
  forall q, (pos <= q)%nat -> (q + length pat <= length s)%nat -> take (length pat) (drop q s) <> pat.
Proof. apply find_from_none. lia. Qed.

(** A search that starts at the end of [pre] sees only what follows. *)
Lemma find_none_iff pat s pos :
  (forall q, (pos <= q)%nat -> (q + length pat <= length s)%nat -> take (length pat) (drop q s) <> pat) ->
  find pat s pos = None.
Proof.
  intros H. destruct (find pat s pos) as [p|] eqn:E; [|done].
  apply find_sound in E as (H1 & H2 & H3 & _). exfalso. by apply (H p).
Qed.

Lemma drop_app_off {A} (pre s : list A) n : drop (length pre + n) (pre ++ s) = drop n s.
Proof. rewrite drop_app_ge by lia. f_equal. lia. Qed.

(** Single byte patterns. *)
Lemma take_1_drop {A} (c : A) s q : take 1 (drop q s) = [c] <-> s !! q = Some c.
Proof.
  split.
  - intros H. pose proof (f_equal (fun l => l !! 0%nat) H) as H'. simpl in H'.
    rewrite lookup_take_lt in H' by lia. rewrite lookup_drop, Nat.add_0_r in H'. done.
  - intros H. by rewrite (drop_S s c q).
Qed.

Lemma find_char_hit c pre s t : c ∉ s ->
  find [c] (pre ++ s ++ c :: t) (length pre) = Some (length pre + length s)%nat.
Proof.
  intros Hc. apply find_hit; [lia|rewrite !length_app; simpl; lia| |].
  - cbn [length]. apply take_1_drop. rewrite lookup_app_r by lia.
    rewrite lookup_app_r by lia. by replace (length pre + length s - length pre - length s)%nat with 0%nat by lia.
  - intros q Hq. cbn [length]. rewrite take_1_drop. rewrite lookup_app_r by lia.
    rewrite lookup_app_l by lia. intros H%list_elem_of_lookup_2. done.
Qed.

Lemma find_char_miss c pre s : c ∉ s -> find [c] (pre ++ s) (length pre) = None.
Proof.
  intros Hc. apply find_none_iff. intros q Hq _. cbn [length]. rewrite take_1_drop.
  rewrite lookup_app_r by lia. intros H%list_elem_of_lookup_2. done.
Qed.

(** Two byte patterns with different bytes: no false match inside [s] when
    the second byte does not occur in it after the first position. *)
Lemma take_2_drop {A} (a b : A) s q :
  take 2 (drop q s) = [a; b] <-> s !! q = Some a /\ s !! S q = Some b.
Proof.
  split.
  - intros H. pose proof (f_equal (fun l => l !! 0%nat) H) as H0.
    pose proof (f_equal (fun l => l !! 1%nat) H) as H1. simpl in H0, H1.
    rewrite !lookup_take_lt in H0, H1 by lia. rewrite !lookup_drop in H0, H1.
    rewrite Nat.add_0_r in H0. rewrite Nat.add_1_r in H1. done.
  - intros [H1 H2]. rewrite (drop_S s a q) by done. by rewrite (drop_S s b (S q)).
Qed.

Lemma find_pair_hit a b pre s t : a <> b -> b ∉ tail s ->
  find [a; b] (pre ++ s ++ a :: b :: t) (length pre) = Some (length pre + length s)%nat.
Proof.
  intros Hab Hb. apply find_hit; [lia|rewrite !length_app; simpl; lia| |].
  - cbn [length]. apply take_2_drop. rewrite !lookup_app_r by lia.
    replace (length pre + length s - length pre - length s)%nat with 0%nat by lia.
    by replace (S (length pre + length s) - length pre - length s)%nat with 1%nat by lia.
  - intros q Hq. cbn [length]. rewrite take_2_drop.
    intros [_ H2]. rewrite (lookup_app_r pre) in H2 by lia.
    replace (S q - length pre)%nat with (S (q - length pre)) in H2 by lia.
    destruct (decide (S (q - length pre) = length s)) as [E|NE].
    + rewrite lookup_app_r in H2 by lia.
      replace (S (q - length pre) - length s)%nat with 0%nat in H2 by lia. simpl in H2. congruence.
    + rewrite lookup_app_l in H2 by lia. rewrite <- lookup_tail in H2.
      by apply list_elem_of_lookup_2 in H2.
Qed.

Lemma find_pair_miss a b pre s : b ∉ tail s -> find [a; b] (pre ++ s) (length pre) = None.
Proof.
  intros Hb. apply find_none_iff. intros q Hq _. cbn [length]. rewrite take_2_drop.
  intros [_ H2]. rewrite (lookup_app_r pre) in H2 by lia.
  replace (S q - length pre)%nat with (S (q - length pre)) in H2 by lia.
  rewrite <- lookup_tail in H2. by apply list_elem_of_lookup_2 in H2.
Qed.

End CLib.

(** ** protocol.h *)
Module Protocol.

Inductive Category := kRapid | kPing | kRedis | kHttp | kInvalid.
#[global] Instance Category_eq_dec : EqDecision Category.
Proof. solve_decision. Defined.

(** The fields of [sockaddr_in] the program sets. *)
Record Addr := mkAddr { sin_family : Z; s_addr : Z; sin_port : Z }.
#[global] Instance Addr_eq_dec : EqDecision Addr.
Proof. solve_decision. Defined.

Definition AF_INET : Z := 2.
Definition INADDR_NONE : Z := 2 ^ 32 - 1.

(** [Addr::Assign], with what it leaves in the address when it returns false.
    [inet_addr] is the system's address parser, an argument. *)
Definition Assign (inet_addr : bytes -> Z) (self : Addr) (addr_str : bytes) : bool * Addr :=
  match CLib.find (str ":") addr_str 0 with
  | None => (false, self)
  | Some pos_sep =>
      let ip := CLib.substr addr_str 0 pos_sep in
      let port := drop (pos_sep + 1) addr_str in
      let a := inet_addr ip in
      if a =? INADDR_NONE then (false, {| sin_family := AF_INET; s_addr := a; sin_port := 0 |})
      else (true, {| sin_family := AF_INET; s_addr := a; sin_port := htons (u16 (CLib.atoi port)) |})
  end.

Record ListenAddr := mkListenAddr { la_name : bytes; la_category : Category; la_addr : Addr }.

(** [ReqInfo]: the listen address of a request, a pointer. *)
Record ReqInfo := { listen_addr : option ListenAddr }.
Definition ReqInfo_new : ReqInfo := {| listen_addr := None |}.

(** [ProtocolRead::Reset]: an absent argument keeps the address. *)
Definition ProtocolRead_Reset (r : ReqInfo) (la : option ListenAddr) : ReqInfo :=
  match la with Some a => {| listen_addr := Some a |} | None => r end.

Definition kEnd : Z := -100.

(** A [Slice] points at [Data]; [Tail] is the memory that follows it, which
    only code that treats the slice as a C string looks at.
    [typedef std::pair<Slice, const void*> Buf]: the second component belongs
    to the thrift protocol (Thrift.v passes it on its own). *)
Record Slice := mkSlice { Data : bytes; Tail : bytes }.
Definition Size (s : Slice) : Z := Z.of_nat (length (Data s)).
Abbreviation Buf := Slice.

(** The C string at the start of some memory; [None] when no byte of the
    memory is zero, so that reading the string leaves it. *)
Fixpoint c_string (mem : bytes) : option bytes :=
  match mem with
  | [] => None
  | c :: mem => if b2z c =? 0 then Some [] else option_map (cons c) (c_string mem)
  end.

(** A bound on the turns of a loop whose end is decided by the peer or by
    another thread; the theorems hold for every bound that is large enough. *)
Class Fuel : Type := { fuel : nat }.

End Protocol.

(** ** buffer.hpp *)
Module Buffer.

(** Fresh heap memory has unspecified contents, and [realloc] may have no room
    for a size: arguments of every model that allocates. *)
Class Malloc : Type := { junk : nat -> ascii; has_room : nat -> bool }.

Section Buffer.
Context `{!Malloc}.

(** [buf_] is the allocation, whose length is [size_]. *)
Record Buffer := mkBuffer { buf_ : bytes; len_ : nat }.

Definition Buffer_new : Buffer := {| buf_ := []; len_ := 0 |}.
Definition size_ (b : Buffer) : nat := length (buf_ b).
Definition SetLen (b : Buffer) (len : nat) : Buffer := {| buf_ := buf_ b; len_ := len |}.
Definition Clear (b : Buffer) : Buffer := {| buf_ := buf_ b; len_ := 0 |}.

(** [Reserve] when there is memory. *)
Definition Reserve (b : Buffer) (size : nat) : Buffer :=
  if decide (size_ b < size)%nat
  then {| buf_ := buf_ b ++ map junk (seq (size_ b) (size - size_ b)); len_ := len_ b |}
  else b.

(** [Reserve] of a size that the other side chose.  The result of [realloc] is
    not checked: without memory [buf_] becomes a null pointer, which the caller
    uses at once. *)
Definition Realloc (b : Buffer) (size : nat) : option Buffer :=
  if decide (size_ b < size)%nat then if has_room size then Some (Reserve b size) else None else Some (Reserve b size).

Definition Set_ (b : Buffer) (data : bytes) (pos : nat) : Buffer :=
  let b := Reserve b (length data + pos) in
  {| buf_ := splice pos data (buf_ b); len_ := len_ b |}.

Lemma Reserve_size b n : size_ (Reserve b n) = Nat.max (size_ b) n.
Proof.
  unfold Reserve. case_decide; unfold size_ in *; simpl; [|lia].
  rewrite length_app, length_map, length_seq. lia.
Qed.

Lemma Reserve_keeps b n k : (k <= size_ b)%nat -> take k (buf_ (Reserve b n)) = take k (buf_ b).
Proof.
  intros. unfold Reserve. case_decide; [|done]. simpl. by rewrite take_app_le.
Qed.

Lemma Reserve_len b n : len_ (Reserve b n) = len_ b.
Proof. unfold Reserve. by case_decide. Qed.

End Buffer.
End Buffer.
