(* ===== verification/Rapid.v ===== *)
(** * Rapid: the length-prefixed protocol

    Models src/src/protocols/rapid/protocol_rapid.h and
    details/protocol_rapid.cpp: a frame is an 8-byte header (magic, version,
    size, all in network order) and the payload.  The writer gathers header
    and payload in one vector write; the reader reads the header, converts its
    size field in place, grows its buffer and reads the payload.  Both are
    called again by the event loop until they report 0. *)

From Stdlib Require Import ZArith Lia Ascii String.
From stdpp Require Import base list numbers.
From S2P Require Import Prelude Os Protocol.
Import Os Buffer.

Module Rapid.

Definition kMagic : Z := 58764.
Definition kMaxVersion : Z := 10.
Definition sizeof_header : nat := 8.

(** [RapidHeader] as its fields hold it in host memory. *)
Record RapidHeader := mkHeader { magic : Z; version : Z; size : Z }.

Definition header_bytes (h : RapidHeader) : bytes :=
  le_bytes 2 (magic h) ++ le_bytes 2 (version h) ++ le_bytes 4 (size h).

Definition Header (mem : bytes) : RapidHeader :=
  {| magic := le_val (take 2 mem);
     version := le_val (take 2 (drop 2 mem));
     size := le_val (take 4 (drop 4 mem)) |}.

Definition set_header (h : RapidHeader) (mem : bytes) : bytes := splice 0 (header_bytes h) mem.

Section Rapid.
Context {W : Type} `{!NetIO W} `{!Malloc}.

(** ** Writer *)

(** [tmp_iovs_]: until something is written its entries point at [header_]
    and [buf_], afterwards at what is left of them. *)
Inductive Iovs := IovFields | IovRest (rest : list bytes).

Record ProtocolWriteRapid := mkWrite {
  w_buf : Protocol.Slice;
  w_header : RapidHeader;
  w_iovs : Iovs;
}.

Definition WriteReset (p : ProtocolWriteRapid) (buf : Protocol.Buf) : ProtocolWriteRapid :=
  {| w_buf := buf; w_header := w_header p; w_iovs := IovFields |}.

Definition Encode (p : ProtocolWriteRapid) : bool * ProtocolWriteRapid :=
  (true,
   {| w_buf := w_buf p;
      w_header := {| magic := htons kMagic; version := htons 0;
                     size := htonl (u32 (Protocol.Size (w_buf p))) |};
      w_iovs := w_iovs p |}).

Definition iov_contents (p : ProtocolWriteRapid) : list bytes :=
  match w_iovs p with
  | IovFields => [header_bytes (w_header p); Protocol.Data (w_buf p)]
  | IovRest rest => rest
  end.

Definition iov_len (iovs : list bytes) (i : nat) : Z := Z.of_nat (length (nth i iovs [])).

Definition Write (p : ProtocolWriteRapid) (fd : Z) : M W (Z * ProtocolWriteRapid) :=
  '(ret, iovs) ← call (WriteVecNonBlock fd (iov_contents p));
  let p' := {| w_buf := w_buf p; w_header := w_header p; w_iovs := IovRest iovs |} in
  if 0 <? ret then
    mret (match length iovs with
          | 0%nat => 0
          | 1%nat => i32 (iov_len iovs 0)
          | _ => i32 (iov_len iovs 0 + iov_len iovs 1)
          end, p')
  else mret (if ret =? 0 then Protocol.kEnd else ret, p').

(** ** Reader *)

Record ProtocolReadRapid := mkRead {
  req_info_ : Protocol.ReqInfo;
  buffer_ : Buffer;
  read_header_ : bool;
}.

Definition ReadRapid_new : ProtocolReadRapid :=
  {| req_info_ := Protocol.ReqInfo_new; buffer_ := Buffer_new; read_header_ := false |}.

Definition ReadReset (p : ProtocolReadRapid) (la : option Protocol.ListenAddr) : ProtocolReadRapid :=
  {| req_info_ := Protocol.ProtocolRead_Reset (req_info_ p) la;
     buffer_ := Reserve (Clear (buffer_ p)) sizeof_header;
     read_header_ := true |}.

Definition with_buffer (p : ProtocolReadRapid) (b : Buffer) (rh : bool) : ProtocolReadRapid :=
  {| req_info_ := req_info_ p; buffer_ := b; read_header_ := rh |}.

(** [ReadNonBlock(fd, buffer_.Stop(), n)]: undefined when the target is not
    inside the allocation. *)
Definition read_at_stop (b : Buffer) (fd : Z) (n : Z) : M W (Z * Buffer) :=
  if decide (Z.of_nat (len_ b) + n <= Z.of_nat (size_ b)) then
    '(ret, bs) ← call (ReadNonBlock fd (Z.to_nat n));
    mret (ret, {| buf_ := splice (len_ b) bs (buf_ b); len_ := len_ b |})
  else ub.

(** The loop of [Read].  Every further turn has read at least one byte of the
    header, so [sizeof_header + 2] turns are enough. *)
Fixpoint Read_loop (fuel : nat) (p : ProtocolReadRapid) (fd : Z) (has_bytes_read : bool)
  : M W (Z * ProtocolReadRapid) :=
  match fuel with
  | O => ub
  | S fuel =>
      let b := buffer_ p in
      if read_header_ p then
        let bytes_left := u64 (Z.of_nat sizeof_header - Z.of_nat (len_ b)) in
        '(ret, b) ← read_at_stop b fd bytes_left;
        if 0 <? ret then
          let b := SetLen b (len_ b + Z.to_nat ret) in
          if decide (len_ b = sizeof_header) then
            let h := Header (buf_ b) in
            let h := {| magic := magic h; version := version h; size := ntohl (size h) |} in
            let b := {| buf_ := set_header h (buf_ b); len_ := len_ b |} in
            b ← deref (Realloc b (sizeof_header + Z.to_nat (size h)));
            Read_loop fuel (with_buffer p b false) fd true
          else Read_loop fuel (with_buffer p b true) fd true
        else if ret =? 0 then
          mret (if has_bytes_read then i32 bytes_left else Protocol.kEnd, with_buffer p b true)
        else mret (ret, with_buffer p b true)
      else
        let bytes_left := u64 (Z.of_nat sizeof_header + size (Header (buf_ b)) - Z.of_nat (len_ b)) in
        '(ret, b) ← read_at_stop b fd bytes_left;
        if 0 <? ret then
          let b := SetLen b (len_ b + Z.to_nat ret) in
          mret (i32 (bytes_left - ret), with_buffer p b false)
        else if ret =? 0 then
          mret (if has_bytes_read then i32 bytes_left else Protocol.kEnd, with_buffer p b false)
        else mret (ret, with_buffer p b false)
  end.

Definition Read (p : ProtocolReadRapid) (fd : Z) : M W (Z * ProtocolReadRapid) :=
  Read_loop (sizeof_header + 2) p fd false.

(** [Decode] converts magic and version in place and checks them. *)
Definition Decode (p : ProtocolReadRapid) : bool * ProtocolReadRapid :=
  let mem := buf_ (buffer_ p) in
  let h := Header mem in
  let h := {| magic := ntohs (magic h); version := ntohs (version h); size := size h |} in
  ((magic h =? kMagic) && (version h <=? kMaxVersion),
   with_buffer p {| buf_ := set_header h mem; len_ := len_ (buffer_ p) |} (read_header_ p)).

Definition Size (p : ProtocolReadRapid) : Z := size (Header (buf_ (buffer_ p))).
Definition Data (p : ProtocolReadRapid) : bytes :=
  take (Z.to_nat (Size p)) (drop sizeof_header (buf_ (buffer_ p))).

(** ** Frames *)

(** The bytes of a frame on the wire, and in the buffer of a reader that has
    converted the size field. *)
Definition frame (m v : Z) (payload : bytes) : bytes :=
  header_bytes {| magic := htons m; version := htons v; size := htonl (Z.of_nat (length payload)) |}
  ++ payload.
Definition frame_read (m v : Z) (payload : bytes) : bytes :=
  header_bytes {| magic := htons m; version := htons v; size := Z.of_nat (length payload) |}
  ++ payload.
Definition total (payload : bytes) : nat := (sizeof_header + length payload)%nat.

(** The length of every frame fits the [int] results of [Read] and [Write]. *)
Definition fits (payload : bytes) : Prop := Z.of_nat (total payload) < 2 ^ 31.

(** The reader has consumed the first [k] bytes of the frame. *)
Record reader_at (m v : Z) (payload : bytes) (k : nat) (p : ProtocolReadRapid) : Prop := {
  ra_len : len_ (buffer_ p) = k;
  ra_le : (k <= total payload)%nat;
  ra_header : read_header_ p = true -> (k < sizeof_header)%nat /\
    (sizeof_header <= size_ (buffer_ p))%nat /\
    take k (buf_ (buffer_ p)) = take k (frame m v payload);
  ra_body : read_header_ p = false -> (sizeof_header <= k)%nat /\
    (total payload <= size_ (buffer_ p))%nat /\
    take k (buf_ (buffer_ p)) = take k (frame_read m v payload);
}.

Record writer_at (payload : bytes) (k : nat) (p : ProtocolWriteRapid) : Prop := {
  wa_le : (k <= total payload)%nat;
  wa_num : (length (iov_contents p) <= 2)%nat;
  wa_rest : concat (iov_contents p) = drop k (frame kMagic 0 payload);
}.

(** ** Lemmas *)

Definition in_range (h : RapidHeader) : Prop :=
  in_uint 16 (magic h) /\ in_uint 16 (version h) /\ in_uint 32 (size h).

Lemma header_bytes_length h : length (header_bytes h) = sizeof_header.
Proof. unfold header_bytes. by rewrite !length_app, !le_bytes_length. Qed.

Lemma Header_prefix h t : in_range h -> Header (header_bytes h ++ t) = h.
Proof.
  intros (Hm & Hv & Hs). unfold in_uint in *. destruct h as [m v s]. unfold header_bytes, Header.
  cbn [magic version size] in *. rewrite <- !app_assoc.
  change (take 2 (le_bytes 2 m ++ _)) with (le_bytes 2 m).
  change (take 2 (drop 2 (le_bytes 2 m ++ _))) with (le_bytes 2 v).
  change (take 4 (drop 4 (le_bytes 2 m ++ _))) with (le_bytes 4 s).
  rewrite !le_val_bytes. change (256 ^ Z.of_nat 2) with (2 ^ 16).
  change (256 ^ Z.of_nat 4) with (2 ^ 32). f_equal; apply Z.mod_small; lia.
Qed.

Lemma Header_mem h mem : in_range h -> take sizeof_header mem = header_bytes h -> Header mem = h.
Proof.
  intros R E. rewrite <- (take_drop sizeof_header mem), E. by apply Header_prefix.
Qed.

Lemma set_header_eq h mem : set_header h mem = header_bytes h ++ drop sizeof_header mem.
Proof. unfold set_header, splice. rewrite header_bytes_length. done. Qed.

Lemma wire_range (m v s : Z) : in_range {| magic := htons m; version := htons v; size := htonl s |}.
Proof.
  exact (conj (bswap_bound 2 m) (conj (bswap_bound 2 v) (bswap_bound 4 s))).
Qed.

Lemma frame_length m v payload : length (frame m v payload) = total payload.
Proof. unfold frame. by rewrite length_app, header_bytes_length. Qed.

Lemma frame_read_length m v payload : length (frame_read m v payload) = total payload.
Proof. unfold frame_read. by rewrite length_app, header_bytes_length. Qed.

Lemma frame_drop m v payload k : (sizeof_header <= k)%nat ->
  drop k (frame m v payload) = drop k (frame_read m v payload).
Proof.
  intros. unfold frame, frame_read. rewrite !drop_app_ge by (by rewrite header_bytes_length).
  by rewrite !header_bytes_length.
Qed.

Lemma frame_take m v payload : take sizeof_header (frame m v payload) =
  header_bytes {| magic := htons m; version := htons v; size := htonl (Z.of_nat (length payload)) |}.
Proof.
  unfold frame. rewrite take_app_le by (by rewrite header_bytes_length).
  by rewrite firstn_all2 by (by rewrite header_bytes_length).
Qed.

Lemma frame_read_take m v payload : take sizeof_header (frame_read m v payload) =
  header_bytes {| magic := htons m; version := htons v; size := Z.of_nat (length payload) |}.
Proof.
  unfold frame_read. rewrite take_app_le by (by rewrite header_bytes_length).
  by rewrite firstn_all2 by (by rewrite header_bytes_length).
Qed.

Lemma fits_u32 payload : fits payload -> in_uint 32 (Z.of_nat (length payload)).
Proof. unfold fits, total, in_uint, sizeof_header. lia. Qed.

(** A freshly reset reader is at the start of any frame. *)
Lemma ReadReset_at m v payload p la : reader_at m v payload 0 (ReadReset p la).
Proof.
  split; cbn.
  - by rewrite Reserve_len.
  - lia.
  - intros _. rewrite Reserve_size. unfold sizeof_header. split_and!; [lia|lia|done].
  - done.
Qed.

Section Reading.
Context `{!NetIOSpec W}.

(** A read into the free part of the buffer extends what it holds of [F]. *)
Lemma read_at_stop_spec b fd (n k : nat) (F G rest : bytes) w :
  len_ b = k -> (k + n <= size_ b)%nat -> (k + n <= length F)%nat ->
  length F = length G -> drop k F = drop k G ->
  take k (buf_ b) = take k F -> input fd w = drop k G ++ rest ->
  exists r j b' w',
    read_at_stop b fd (Z.of_nat n) w = Some ((r, b'), w') /\
    (0 < r -> r = Z.of_nat j) /\ (r <= 0 -> j = 0%nat) /\ (j <= n)%nat /\
    len_ b' = k /\ size_ b' = size_ b /\
    take (k + j) (buf_ b') = take (k + j) F /\ input fd w' = drop (k + j) G ++ rest.
Proof.
  intros Hk Hsz HF HFG Hd Ht Hin. unfold read_at_stop. rewrite decide_True by lia.
  rewrite Nat2Z.id. destruct (ReadNonBlock fd n w) as [[r bs] w'] eqn:E.
  exists r, (length bs), {| buf_ := splice k bs (buf_ b); len_ := k |}, w'.
  unfold mbind, M_bind, call. rewrite E, Hk. split; [done|].
  destruct (Z_lt_le_dec 0 r) as [Hr|Hr].
  - destruct (ReadNonBlock_pos _ _ _ _ _ _ E Hr) as (R1 & R2 & R3).
    rewrite Hin in R3. symmetry in R3. apply app_split_le in R3 as [R3 R4];
      [|rewrite length_drop; lia].
    split_and!; [done|lia|lia|done|unfold size_; cbn; apply splice_length; unfold size_ in *; lia| |].
    + cbn. rewrite take_splice_end by (unfold size_ in *; lia). rewrite Ht, R3, <- Hd.
      rewrite length_take, length_drop. rewrite <- take_take_drop. f_equal. f_equal.
      rewrite R3 in R2. rewrite length_take, length_drop in R2. rewrite R3, length_take, length_drop. lia.
    + by rewrite R4, drop_drop.
  - destruct (ReadNonBlock_nonpos _ _ _ _ _ _ E Hr) as (-> & R3).
    split_and!; [lia|done|cbn; lia|done|unfold size_; cbn; apply splice_length; cbn; unfold size_ in *; lia| |].
    + cbn. rewrite Nat.add_0_r. unfold splice. cbn [length app]. rewrite Nat.add_0_r, take_drop. done.
    + cbn. rewrite Nat.add_0_r, R3. done.
Qed.

(** The bytes still missing of the part being read: header or whole frame. *)
Definition missing (payload : bytes) (k : nat) : Z :=
  if decide (k < sizeof_header)%nat then Z.of_nat (sizeof_header - k)
  else Z.of_nat (total payload - k).

(** What one call of [Read] promises when [k] bytes of a frame have been
    consumed: some more are, and a result that is not negative is the number
    of bytes still missing.  Without memory for the frame it faults. *)
Definition read_result (hb : bool) m v payload rest fd (k : nat)
    (res : option (Z * ProtocolReadRapid * W)) : Prop :=
  res = None /\ has_room (total payload) = false \/
  exists r p' w' k', res = Some ((r, p'), w') /\ (k <= k')%nat /\
    reader_at m v payload k' p' /\ input fd w' = drop k' (frame m v payload) ++ rest /\
    (0 <= r -> r = missing payload k' /\ (hb = true \/ (k < k')%nat)).

Lemma kEnd_neg : ~ 0 <= Protocol.kEnd.
Proof. unfold Protocol.kEnd. lia. Qed.

Lemma i32_fits payload x : fits payload -> 0 <= x <= Z.of_nat (total payload) -> i32 x = x.
Proof. intros. apply swrap_small; [lia|]. unfold in_sint, fits in *. lia. Qed.

Lemma u64_fits payload x : fits payload -> 0 <= x <= Z.of_nat (total payload) -> u64 x = x.
Proof. intros. apply uwrap_small. unfold in_uint, fits in *. lia. Qed.

Lemma body_header m v payload k p : fits payload ->
  reader_at m v payload k p -> read_header_ p = false ->
  Header (buf_ (buffer_ p)) =
    {| magic := htons m; version := htons v; size := Z.of_nat (length payload) |}.
Proof.
  intros F [Hlen Hle _ Hb] Hrh. destruct (Hb Hrh) as (H1 & H2 & H3).
  apply Header_mem.
  - pose proof (wire_range m v 0) as (R1 & R2 & _). by split_and!; [..|apply fits_u32].
  - rewrite <- frame_read_take. apply (f_equal (take sizeof_header)) in H3.
    by rewrite !take_take, !Nat.min_l in H3 by lia.
Qed.

Lemma Read_body fuel hb m v payload rest fd k p w :
  fits payload -> reader_at m v payload k p -> read_header_ p = false ->
  input fd w = drop k (frame m v payload) ++ rest ->
  read_result hb m v payload rest fd k (Read_loop (S fuel) p fd hb w).
Proof.
  intros F R Hrh Hin. right. pose proof (body_header _ _ _ _ _ F R Hrh) as EH.
  destruct R as [Hlen Hle _ Hb]. destruct (Hb Hrh) as (H1 & H2 & H3).
  cbn [Read_loop]. rewrite Hrh, EH. cbn [size]. rewrite Hlen.
  rewrite (u64_fits payload) by (try done; unfold total in *; lia).
  replace (Z.of_nat sizeof_header + Z.of_nat (length payload) - Z.of_nat k)
    with (Z.of_nat (total payload - k)) by (unfold total in *; lia).
  destruct (read_at_stop_spec (buffer_ p) fd (total payload - k) k
    (frame_read m v payload) (frame m v payload) rest w) as
    (r & j & b' & w' & E & P1 & P2 & P3 & P4 & P5 & P6 & P7); try done.
  all: rewrite ?frame_length, ?frame_read_length; try lia.
  { symmetry. by apply frame_drop. }
  mrun E. set (T := total payload) in *. destruct (Z.ltb_spec 0 r) as [Hr|Hr].
  - specialize (P1 Hr). eexists _, _, _, (k + j)%nat. split; [done|].
    rewrite P4, P1, Nat2Z.id. split_and!; [lia| |done|].
    + split; cbn [with_buffer buffer_ read_header_ SetLen len_]; [done|fold T; lia|done|intros _].
      split_and!; [lia|change (T <= size_ b')%nat; lia|done].
    + rewrite (i32_fits payload) by (try done; fold T; lia). unfold missing. fold T.
      rewrite decide_False by lia. intros; split; [lia|right; lia].
  - rewrite (P2 Hr), Nat.add_0_r in P6, P7.
    assert (reader_at m v payload k (with_buffer p b' false)) as RA.
    { split; cbn; try done. intros _. by rewrite P5. }
    destruct (Z.eqb_spec r 0).
    + eexists _, _, _, k. split; [done|]. split_and!; [lia|done|done|].
      destruct hb; [|by intros ?%kEnd_neg]. fold T.
      rewrite (i32_fits payload) by (try done; fold T; lia). unfold missing. fold T.
      rewrite decide_False by lia. intros; split; [lia|by left].
    + eexists _, _, _, k. split; [done|]. split_and!; [lia|done|done|lia].
Qed.
(** Completing the header: size converted in place, buffer grown. *)
Lemma header_done m v payload p b :
  fits payload -> len_ b = sizeof_header -> (sizeof_header <= size_ b)%nat ->
  take sizeof_header (buf_ b) = take sizeof_header (frame m v payload) ->
  let h := Header (buf_ b) in
  let h := {| magic := magic h; version := version h; size := ntohl (size h) |} in
  let b := {| buf_ := set_header h (buf_ b); len_ := len_ b |} in
  reader_at m v payload sizeof_header
    (with_buffer p (Reserve b (sizeof_header + Z.to_nat (size h))) false) /\
  (sizeof_header + Z.to_nat (size h) = total payload)%nat.
Proof.
  intros F Hlen Hsz Ht. rewrite frame_take in Ht.
  rewrite (Header_mem _ _ (wire_range _ _ _) Ht). cbn [magic version size].
  pose proof (fits_u32 _ F) as U. unfold in_uint in U.
  rewrite bswap_bswap by (change (256 ^ Z.of_nat 4) with (2 ^ 32); lia).
  rewrite Nat2Z.id, set_header_eq. cbn zeta. split; [|done]. split; cbn [with_buffer buffer_ read_header_].
  - by rewrite Reserve_len.
  - unfold total. lia.
  - done.
  - intros _. split_and!; [lia|rewrite Reserve_size; unfold total; lia|].
    rewrite Reserve_keeps, frame_read_take.
    + cbn [buf_]. rewrite take_app_le by (by rewrite header_bytes_length).
      by rewrite firstn_all2 by (by rewrite header_bytes_length).
    + unfold size_ in *. cbn [buf_]. rewrite length_app, header_bytes_length. lia.
Qed.

Lemma read_result_weaken hb m v payload rest fd k0 k res :
  (k0 < k)%nat -> read_result true m v payload rest fd k res ->
  read_result hb m v payload rest fd k0 res.
Proof.
  intros L [N|(r & p' & w' & k' & E & P1 & P2 & P3 & P4)]; [by left|right].
  exists r, p', w', k'. split_and!; [done|lia|done|done|].
  intros Hr. destruct (P4 Hr). split; [done|right; lia].
Qed.

Lemma Read_loop_spec fuel : forall hb m v payload rest fd k p w,
  fits payload -> reader_at m v payload k p ->
  (read_header_ p = true -> sizeof_header - k + 2 <= fuel)%nat -> (0 < fuel)%nat ->
  input fd w = drop k (frame m v payload) ++ rest ->
  read_result hb m v payload rest fd k (Read_loop fuel p fd hb w).
Proof.
  induction fuel as [|fuel IH]; intros hb m v payload rest fd k p w F R Hf Hf0 Hin; [lia|].
  destruct (read_header_ p) eqn:Hrh; [|by apply Read_body].
  specialize (Hf eq_refl). pose proof R as [Hlen Hle Hh _]. destruct (Hh Hrh) as (H1 & H2 & H3).
  cbn [Read_loop]. rewrite Hrh, Hlen.
  rewrite (u64_fits payload) by (try done; unfold total, sizeof_header in *; lia).
  replace (Z.of_nat sizeof_header - Z.of_nat k) with (Z.of_nat (sizeof_header - k)) by lia.
  destruct (read_at_stop_spec (buffer_ p) fd (sizeof_header - k) k
    (frame m v payload) (frame m v payload) rest w) as
    (r & j & b' & w' & E & P1 & P2 & P3 & P4 & P5 & P6 & P7); try done.
  all: rewrite ?frame_length; unfold total in *; try lia.
  mrun E. destruct (Z.ltb_spec 0 r) as [Hr|Hr].
  - specialize (P1 Hr). rewrite P4, P1, Nat2Z.id. apply (read_result_weaken hb _ _ _ _ _ k (k + j)); [lia|].
    cbn [SetLen len_ buf_]. case_decide as D.
    + rewrite D in *. destruct (header_done m v payload p (SetLen b' sizeof_header)) as [Hd Ht]; auto;
        [change (sizeof_header <= size_ b')%nat; lia|]. cbn [SetLen len_ buf_] in Hd, Ht. unfold Realloc.
      rewrite Ht in *. destruct fuel as [|fuel]; [lia|]. case_decide as Dm; [destruct (has_room (total payload)) eqn:Hm|];
        [|by left|]; cbn [deref mbind M_bind]; by apply Read_body.
    + apply IH; auto; try lia.
      split; cbn [with_buffer buffer_ read_header_ len_]; [done|unfold total; lia| |done].
      intros _. split_and!; [lia|change (sizeof_header <= size_ b')%nat; lia|done].
  - rewrite (P2 Hr), Nat.add_0_r in P6, P7.
    assert (reader_at m v payload k (with_buffer p b' true)) as RA.
    { split; cbn [with_buffer buffer_ read_header_]; try done. intros _. by rewrite P5. }
    right. destruct (Z.eqb_spec r 0); eexists _, _, _, k; (split; [done|]); split_and!; try done; [|lia].
    destruct hb; [|by intros ?%kEnd_neg].
    rewrite (i32_fits payload) by (try done; unfold total; lia). unfold missing.
    rewrite decide_True by done. intros; split; [lia|by left].
Qed.
(** ** The writer *)

Lemma Encode_at p payload tail : fits payload ->
  writer_at payload 0 (Encode (WriteReset p (Protocol.mkSlice payload tail))).2.
Proof.
  intros F. split; cbn [Encode WriteReset iov_contents w_iovs w_buf w_header snd]; [lia|cbn; lia|].
  unfold Protocol.Size. cbn [Protocol.Data concat]. rewrite app_nil_r.
  rewrite uwrap_small by (by apply fits_u32). done.
Qed.

Lemma iovs_total (iovs : list bytes) : (length iovs <= 2)%nat ->
  match length iovs with
  | 0%nat => 0
  | 1%nat => i32 (iov_len iovs 0)
  | _ => i32 (iov_len iovs 0 + iov_len iovs 1)
  end = i32 (Z.of_nat (length (concat iovs))).
Proof.
  destruct iovs as [|a [|b [|c l]]]; cbn [length concat]; intros; [done|..|lia].
  - by rewrite app_nil_r.
  - rewrite !length_app. cbn [length]. unfold iov_len. cbn [nth]. f_equal. lia.
Qed.

Lemma Write_step payload k p fd w : fits payload -> writer_at payload k p ->
  exists r p' w' k', Write p fd w = Some ((r, p'), w') /\ (k <= k')%nat /\
    writer_at payload k' p' /\
    output fd w' = output fd w ++ take (k' - k) (drop k (frame kMagic 0 payload)) /\
    (0 <= r -> (k < k')%nat /\ r = Z.of_nat (total payload - k')) /\ (r < 0 -> k' = k).
Proof.
  intros F [Hle Hnum Hrest]. unfold Write.
  destruct (WriteVecNonBlock fd (iov_contents p) w) as [[r iovs] w'] eqn:E.
  unfold mbind, M_bind, call. rewrite E. pose proof (frame_length kMagic 0 payload) as FL.
  destruct (Z.ltb_spec 0 r) as [Hr|Hr].
  - destruct (WriteVecNonBlock_pos _ _ _ _ _ _ E Hr) as (L & sent & O & Rs & C).
    rewrite Hrest in C. assert (length sent <= total payload - k)%nat as LS.
    { apply (f_equal length) in C. rewrite length_app, length_drop, FL in C. lia. }
    assert (concat iovs = drop (k + length sent) (frame kMagic 0 payload)) as C'.
    { by rewrite <- drop_drop, C, drop_app_length. }
    eexists _, _, _, (k + length sent)%nat. split; [done|]. split_and!; [lia| | | |].
    + split; [lia|cbn; lia|done].
    + rewrite O. f_equal. rewrite C. replace (k + length sent - k)%nat with (length sent) by lia.
      by rewrite take_app_length.
    + rewrite iovs_total by lia. rewrite C', length_drop, FL.
      rewrite (i32_fits payload) by (try done; lia). intros; split; lia.
    + rewrite iovs_total by lia. rewrite C', length_drop, FL.
      rewrite (i32_fits payload) by (try done; lia). lia.
  - destruct (WriteVecNonBlock_nonpos _ _ _ _ _ _ E Hr) as (-> & O).
    eexists _, _, _, k. split; [done|]. rewrite Nat.sub_diag, take_0, app_nil_r.
    split_and!; [lia|by split|done| |done].
    destruct (Z.eqb_spec r 0); [by intros ?%kEnd_neg|lia].
Qed.

(** The event loop: a handler is called again while it reports bytes left. *)
Fixpoint until_done {P} (step : P -> Z -> M W (Z * P)) (fuel : nat) (p : P) (fd : Z) : M W (Z * P) :=
  match fuel with
  | O => mret (1, p)
  | S fuel => '(r, p) ← step p fd; if 0 <? r then until_done step fuel p fd else mret (r, p)
  end.

Lemma write_until fuel : forall payload k p fd w r p' w', fits payload ->
  writer_at payload k p -> until_done Write fuel p fd w = Some ((r, p'), w') ->
  exists k', (k <= k')%nat /\ writer_at payload k' p' /\ 
    output fd w' = output fd w ++ take (k' - k) (drop k (frame kMagic 0 payload)) /\
    (r = 0 -> k' = total payload).
Proof.
  induction fuel as [|fuel IH]; intros payload k p fd w r p' w' F WA HR; cbn [until_done] in HR.
  { minv. exists k. rewrite Nat.sub_diag, take_0, app_nil_r. by split_and!. }
  destruct (Write_step payload k p fd w F WA) as (r1 & p1 & w1 & k1 & E & L1 & A1 & O1 & N1 & _).
  rewrite (bind_run _ _ _ _ _ E) in HR. cbn beta iota in HR.
  pose proof (wa_le _ _ _ A1). destruct (Z.ltb_spec 0 r1).
  - destruct (IH _ _ _ _ _ _ _ _ F A1 HR) as (k2 & L2 & A2 & O2 & D2).
    exists k2. split_and!; [lia|done| |done]. rewrite O2, O1, <- app_assoc. f_equal.
    replace (k2 - k)%nat with (k1 - k + (k2 - k1))%nat by lia.
    rewrite <- take_take_drop, drop_drop. by replace (k + (k1 - k))%nat with k1 by lia.
  - minv. exists k1. split_and!; [lia|done|done|]. intros ->. lia.
Qed.

Lemma missing_zero payload k : (k <= total payload)%nat -> missing payload k = 0 -> k = total payload.
Proof. unfold missing, total. case_decide; lia. Qed.

Lemma read_until fuel : forall m v payload rest k p fd w r p' w', fits payload ->
  reader_at m v payload k p -> input fd w = drop k (frame m v payload) ++ rest -> until_done Read fuel p fd w = Some ((r, p'), w') ->
  exists k', (k <= k')%nat /\ reader_at m v payload k' p' /\
    input fd w' = drop k' (frame m v payload) ++ rest /\ (r = 0 -> k' = total payload).
Proof.
  induction fuel as [|fuel IH]; intros m v payload rest k p fd w r p' w' F RA Hin HR; cbn [until_done] in HR.
  { minv. exists k. by split_and!. }
  destruct (Read_loop_spec (sizeof_header + 2) false m v payload rest fd k p w)
    as [[E _]|(r1 & p1 & w1 & k1 & E & L1 & A1 & I1 & N1)]; [done|done|lia|lia|done| |].
  { unfold mbind, M_bind, Read in HR. by rewrite E in HR. }
  rewrite (bind_run _ _ _ _ _ E) in HR. cbn beta iota in HR.
  pose proof (ra_le _ _ _ _ _ A1). destruct (Z.ltb_spec 0 r1).
  - destruct (IH m v payload rest k1 p1 fd w1 r p' w') as (k2 & L2 & A2 & I2 & D2); [done..|].
    exists k2. split_and!; [lia|done..].
  - minv. exists k1. split_and!; [lia|done|done|]. intros ->.
    destruct (N1 ltac:(lia)) as [N2 _]. by apply missing_zero.
Qed.

(** A complete frame: what [Decode], [Size] and [Data] say of it. *)
Lemma Decode_spec m v payload p : fits payload -> in_uint 16 m -> in_uint 16 v ->
  reader_at m v payload (total payload) p ->
  (Decode p).1 = (m =? kMagic) && (v <=? kMaxVersion) /\
  Size (Decode p).2 = Z.of_nat (length payload) /\ Data (Decode p).2 = payload.
Proof.
  intros F Hm Hv R. destruct (read_header_ p) eqn:Hrh.
  { destruct (ra_header _ _ _ _ _ R Hrh) as [? _]. unfold total in *. lia. }
  pose proof (body_header _ _ _ _ _ F R Hrh) as EH. unfold in_uint in *.
  destruct (ra_body _ _ _ _ _ R Hrh) as (H1 & H2 & H3). unfold Decode. rewrite EH.
  cbn [magic version size fst snd]. rewrite !bswap_bswap by (cbn; lia). split; [done|].
  unfold Data, Size. cbn [with_buffer buffer_ buf_]. rewrite set_header_eq, Header_prefix.
  2: { split_and!; cbn; [done|done|by apply fits_u32]. }
  cbn [size]. split; [done|]. rewrite Nat2Z.id, drop_app_ge by (by rewrite header_bytes_length).
  rewrite header_bytes_length, Nat.sub_diag, drop_0.
  apply (f_equal (drop sizeof_header)) in H3. unfold total in H3.
  rewrite !skipn_firstn_comm in H3. replace (sizeof_header + length payload - sizeof_header)%nat
    with (length payload) in H3 by lia. rewrite H3. unfold frame_read.
  rewrite drop_app_ge by (by rewrite header_bytes_length).
  rewrite header_bytes_length, Nat.sub_diag, drop_0. by apply firstn_all2.
Qed.

Lemma i32_big x : 2 ^ 31 <= x < 2 ^ 32 -> i32 x < 0.
Proof.
  intros Hx. unfold swrap. assert ((x + 2 ^ (32 - 1)) mod 2 ^ 32 = x - 2 ^ 31) as ->; [|lia]. symmetry. apply (Z.mod_unique _ _ 1); lia.
Qed.
(** Why [fits] is there: of a body with 2^31 bytes or more left, a call that
    reads some returns a negative number, which the event loop takes for an
    error of the connection. *)
Lemma Read_too_big p fd w r bs w' : read_header_ p = false ->
  let left := Z.of_nat sizeof_header + size (Header (buf_ (buffer_ p))) - Z.of_nat (len_ (buffer_ p)) in
  0 <= left < 2 ^ 64 -> Z.of_nat (len_ (buffer_ p)) + left <= Z.of_nat (size_ (buffer_ p)) ->
  ReadNonBlock fd (Z.to_nat left) w = ((r, bs), w') -> 0 < r -> 2 ^ 31 <= left - r < 2 ^ 32 ->
  exists res p', Read p fd w = Some ((res, p'), w') /\ res < 0.
Proof.
  intros Hrh left Hl Hs E Hr Hb. unfold Read. cbn [Nat.add sizeof_header Read_loop]. rewrite Hrh.
  change (Z.of_nat 8 + size (Header (buf_ (buffer_ p))) - Z.of_nat (len_ (buffer_ p))) with left. rewrite uwrap_small by exact Hl.
  assert (read_at_stop (buffer_ p) fd left w = Some ((r, {| buf_ := splice (len_ (buffer_ p)) bs (buf_ (buffer_ p)); len_ := len_ (buffer_ p) |}), w')) as Es.
  { unfold read_at_stop. rewrite decide_True by exact Hs. unfold mbind, M_bind, call. by rewrite E. }
  mrun Es. rewrite (proj2 (Z.ltb_lt 0 r) Hr). eexists _, _. split; [reflexivity|]. by apply i32_big.
Qed.

(** Once the event loop has read a frame to its end, [Decode] accepts it
    exactly when its magic is the protocol's and its version is at most 10;
    [Size] and [Data] are then those of the payload and the stream is at the
    first byte after the frame, however the bytes were chunked. *)
Theorem read_decode fuel m v payload rest fd p la w r p' w' :
  fits payload -> in_uint 16 m -> in_uint 16 v ->
  input fd w = frame m v payload ++ rest ->
  until_done Read fuel (ReadReset p la) fd w = Some ((r, p'), w') -> r = 0 ->
  ((Decode p').1 = true <-> m = kMagic /\ v <= kMaxVersion) /\
  Size (Decode p').2 = Z.of_nat (length payload) /\ Data (Decode p').2 = payload /\
  input fd w' = rest.
Proof using All.
  intros F Hm Hv Hin E Hr.
  destruct (read_until fuel m v payload rest 0 (ReadReset p la) fd w r p' w')
    as (k1 & _ & A1 & I1 & D1); [done|apply ReadReset_at|done|done|]. rewrite (D1 Hr) in *.
  destruct (Decode_spec m v payload p' F Hm Hv A1) as (D2 & D3 & D4). rewrite D2.
  split_and!; [|done|done|].
  - rewrite andb_true_iff, Z.eqb_eq, Z.leb_le. done.
  - rewrite I1, <- (frame_length m v), drop_all. done.
Qed.
End Reading.
End Rapid.


(** *** A concrete run: "hello" sent five bytes at a time, received in chunks
    of 3, 6 and 6 bytes *)

#[local] Instance zero_malloc : Malloc := {| junk := fun _ => Ascii.zero; has_room := fun _ => true |}.

Definition hello : bytes := str "hello".
Definition ex_send : ChunkNet := {| chunks := []; sent_bytes := []; quota := 5 |}.
Definition ex_writer : ProtocolWriteRapid :=
  {| w_buf := Protocol.mkSlice [] []; w_header := mkHeader 0 0 0; w_iovs := IovFields |}.
Definition ex_recv : ChunkNet :=
  let f := frame kMagic 0 hello ++ str "xy" in
  {| chunks := [take 3 f; take 6 (drop 3 f); drop 9 f]; sent_bytes := []; quota := 0 |}.

Lemma hello_fits : fits hello.
Proof. reflexivity. Qed.


Lemma read_decode_witness :
  exists r p' w', until_done Read 5 (ReadReset ReadRapid_new None) 7 ex_recv = Some ((r, p'), w') /\
  r = 0 /\ ((Decode p').1 = true <-> kMagic = kMagic /\ 0 <= kMaxVersion) /\
  Size (Decode p').2 = 5 /\ Data (Decode p').2 = hello /\ input 7 w' = str "xy".
Proof.
  eexists _, _, _. split; [vm_compute; reflexivity|]. split; [reflexivity|].
  eapply (read_decode 5 kMagic 0 hello (str "xy") 7 ReadRapid_new None ex_recv).
  - exact hello_fits.
  - unfold in_uint, kMagic; lia.
  - unfold in_uint; lia.
  - vm_compute. reflexivity.
  - vm_compute. reflexivity.
  - reflexivity.
Defined.


End Rapid.
