(* ===== verification/Redis.v ===== *)
(** * Redis and ping protocols

    Models src/src/protocols/redis/ (redis_parser.cpp, protocol_redis.h and
    details/protocol_redis.cpp) and src/src/protocols/ping/.  A command is a
    text whose words are separated by the byte 1; [ParseCmd] turns it into a
    RESP array of bulk strings and [ParseReply] turns a RESP reply into the
    number of answers and the answers, separated by the same byte. *)

From Stdlib Require Import ZArith Lia Ascii String.
From stdpp Require Import base list numbers.
From S2P Require Import Prelude Os Protocol.
Import Os.

Module Redis.

Definition kSep : ascii := z2b 1.
Definition CR : ascii := z2b 13.
Definition LF : ascii := z2b 10.
Definition CRLF : bytes := [CR; LF].
Definition DOLLAR : ascii := z2b 36.

(** ** ParseCmd *)

(** The loop: [None] is [return false], otherwise the number of segments and
    the text built so far. *)
Fixpoint ParseCmd_loop (fuel : nat) (inp : bytes) (follower : nat) (num_segs : Z) (result : bytes)
  : option (Z * bytes) :=
  match fuel with
  | O => None
  | S fuel =>
      let leader := CLib.find [kSep] inp follower in
      if decide (leader = Some follower) then None
      else
        let len_seg :=
          u32 (match leader with
               | Some l => Z.of_nat l - Z.of_nat follower
               | None => Z.of_nat (length inp) - Z.of_nat follower
               end) in
        if len_seg =? 0 then Some (num_segs, result)
        else
          let num_segs := u32 (num_segs + 1) in
          let result := result ++ str "$" ++ CLib.udec len_seg ++ CRLF
            ++ CLib.substr inp follower (Z.to_nat len_seg) ++ CRLF in
          match leader with
          | Some l => ParseCmd_loop fuel inp (l + 1) num_segs result
          | None => Some (num_segs, result)
          end
  end.

Definition ParseCmd (inp : bytes) : option bytes :=
  if decide (length inp = 0%nat) then None
  else
    '(num_segs, result) ← ParseCmd_loop (S (length inp)) inp 0 0 CRLF;
    Some (str "*" ++ CLib.udec num_segs ++ result).

(** ** ParseReply *)

(** The result of a parse: the returned int and the output arguments;
    [size_reply] is not always written. *)
Record Reply := mkReply {
  r_ret : Z;
  is_pong : bool;
  size_reply : option Z;
  r_out : bytes;
}.

Definition bad_long (v : Z) : bool := (v =? CLib.LONG_MAX) || (v =? CLib.LONG_MIN).

(** [ParseReplySeg_]: result, size of the segment, output. *)
Definition ParseReplySeg_ (reply : bytes) (start : nat) (size_reply_seg : Z) (out : bytes)
  : Z * Z * bytes :=
  match CLib.find CRLF reply start with
  | None => (1, size_reply_seg, out)
  | Some idx_cr =>
      let '(len_answer, endoff) := CLib.strtol (drop (start + 1) reply) in
      if len_answer =? -1 then (0, Z.of_nat idx_cr + 2 - Z.of_nat start, out ++ str "__null")
      else if bad_long len_answer || (start + 1 + endoff =? 3)%nat || (len_answer <=? 0) then
        (-1, size_reply_seg, out)
      else
        match CLib.find CRLF reply (idx_cr + 1) with
        | None => (1, size_reply_seg, out)
        | Some idx_second_cr =>
            if negb (i32 (Z.of_nat idx_second_cr - Z.of_nat idx_cr - 2) =? len_answer) then
              (-1, size_reply_seg, out)
            else
              (0, Z.of_nat idx_second_cr + 2 - Z.of_nat start,
               out ++ CLib.substr reply (idx_cr + 2) (Z.to_nat len_answer))
        end
  end.

(** The loop over the answers of an array: result, the final [idx_dollar] and
    [size_reply_seg], output.  Every turn finds a further '$', so there are
    at most as many as the reply has bytes; running out of fuel would give the
    result [kNoFuel], which the code never returns. *)
Definition kNoFuel : Z := 2.
Fixpoint ParseReply_loop (fuel : nat) (reply : bytes) (num_answer i : Z) (idx_dollar : nat)
    (size_reply_seg : Z) (out : bytes) : Z * nat * Z * bytes :=
  if num_answer <=? i then (0, idx_dollar, size_reply_seg, out)
  else
    match fuel with
    | O => (kNoFuel, idx_dollar, size_reply_seg, out)
    | S fuel =>
        match CLib.find [DOLLAR] reply idx_dollar with
        | None => (1, idx_dollar, size_reply_seg, out)
        | Some idx_dollar =>
            let '(ret, size_reply_seg, out) := ParseReplySeg_ reply idx_dollar size_reply_seg out in
            if negb (ret =? 0) then (ret, idx_dollar, size_reply_seg, out)
            else
              let out := if negb (num_answer - 1 =? i) then out ++ [kSep] else out in
              ParseReply_loop fuel reply num_answer (i + 1) (idx_dollar + 1) size_reply_seg out
        end
    end.

Definition ParseReply_array (reply out : bytes) (idx_cr : nat) : Reply :=
  let '(num_answer, endoff) := CLib.strtol (drop 1 reply) in
  if bad_long num_answer || (endoff =? 0)%nat then mkReply (-1) false None out
  else if num_answer <=? 0 then
    if num_answer =? -1 then mkReply 0 false (Some (Z.of_nat idx_cr + 2)) (out ++ str "0")
    else mkReply (-1) false None out
  else
    let out := out ++ CLib.udec num_answer ++ [kSep] in
    let '(ret, idx_dollar, size_reply_seg, out) :=
      ParseReply_loop (S (length reply)) reply num_answer 0 0 0 out in
    if ret =? 0 then mkReply 0 false (Some (Z.of_nat idx_dollar + size_reply_seg - 1)) out
    else mkReply ret false None out.

Definition ParseReply_bulk (reply out : bytes) (idx_cr : nat) : Reply :=
  let '(len_answer, endoff) := CLib.strtol (drop 1 reply) in
  if bad_long len_answer || (endoff =? 0)%nat then mkReply (-1) false None out
  else if negb (len_answer =? -1) then
    match CLib.find CRLF reply (idx_cr + 1) with
    | None => mkReply 1 false None out
    | Some idx_second_cr =>
        if negb (i32 (Z.of_nat idx_second_cr - Z.of_nat idx_cr) =? 2 + len_answer) then
          mkReply (-1) false None out
        else
          mkReply 0 false (Some (Z.of_nat idx_second_cr + 2))
            (out ++ str "1" ++ [kSep] ++ CLib.substr reply (idx_cr + 2) (Z.to_nat len_answer))
    end
  else mkReply 0 false (Some (Z.of_nat idx_cr + 2)) (out ++ str "0").

Definition ParseReply (reply out : bytes) : Reply :=
  match reply with
  | [] => mkReply (-1) false None out
  | c :: _ =>
      match CLib.find CRLF reply 0 with
      | None => mkReply 1 false None out
      | Some idx_cr =>
          if decide ([c] = str "*") then ParseReply_array reply out idx_cr
          else if decide ([c] = str "$") then ParseReply_bulk reply out idx_cr
          else if decide ([c] = str ":") then
            mkReply 0 false (Some (Z.of_nat idx_cr + 2))
              (out ++ str "1" ++ [kSep] ++ CLib.substr reply 1 (idx_cr - 1))
          else if decide ([c] = str "+") then
            mkReply 0
              ((5 <=? length reply)%nat && bool_decide (is_Some (CLib.find (str "PONG") reply 0)))
              (Some (Z.of_nat idx_cr + 2)) (out ++ str "0")
          else if decide ([c] = str "-") then
            mkReply 0 false (Some (Z.of_nat idx_cr + 2)) (out ++ str "__null")
          else mkReply (-1) false None out
      end
  end.

(** ** The protocol objects *)

Section Objects.
Context {W : Type} `{!NetIO W} `{!Protocol.Fuel}.

Record ProtocolWriteRedis := mkWriteRedis { in_ : bytes; out_ : bytes; out_pos_ : nat }.
Definition ProtocolWriteRedis_new : ProtocolWriteRedis := mkWriteRedis [] [] 0.

(** [in_.assign(buf.first.Data())] takes the slice as a C string. *)
Definition WriteReset (p : ProtocolWriteRedis) (buf : Protocol.Buf) : option ProtocolWriteRedis :=
  s ← Protocol.c_string (Protocol.Data buf ++ Protocol.Tail buf);
  Some {| in_ := s; out_ := out_ p; out_pos_ := 0 |}.

Definition Encode (p : ProtocolWriteRedis) : bool * ProtocolWriteRedis :=
  match ParseCmd (in_ p) with
  | Some out => (true, {| in_ := in_ p; out_ := out; out_pos_ := out_pos_ p |})
  | None => (false, p)
  end.

Definition Write (p : ProtocolWriteRedis) (fd : Z) : M W (Z * ProtocolWriteRedis) :=
  ret ← call (WriteNonBlock fd (drop (out_pos_ p) (out_ p)));
  if 0 <? ret then
    let p := {| in_ := in_ p; out_ := out_ p; out_pos_ := out_pos_ p + Z.to_nat ret |} in
    mret (i32 (Z.of_nat (length (out_ p)) - Z.of_nat (out_pos_ p)), p)
  else mret (if ret =? 0 then Protocol.kEnd else ret, p).

Definition kTmpBufSize : nat := 100.

Record ProtocolReadRedis := mkReadRedis {
  req_info_ : Protocol.ReqInfo;
  reply_ : bytes;
  rd_out_ : bytes;
}.
Definition ProtocolReadRedis_new : ProtocolReadRedis := mkReadRedis Protocol.ReqInfo_new [] [].

Definition ReadReset (p : ProtocolReadRedis) (la : option Protocol.ListenAddr) : ProtocolReadRedis :=
  {| req_info_ := Protocol.ProtocolRead_Reset (req_info_ p) la; reply_ := []; rd_out_ := [] |}.

(** The receiving loop: it goes on while reads fill the temporary buffer, and
    appends what was read as a C string (the byte after it is set to 0).
    [None] is [return -1]. *)
Fixpoint Recv_loop (n : nat) (reply : bytes) (fd : Z) : M W (option bytes * bytes) :=
  match n with
  | O => ub
  | S n =>
      '(ret, bs) ← call (ReadNonBlock fd kTmpBufSize);
      if 0 <=? ret then
        s ← deref (Protocol.c_string (bs ++ [Ascii.zero]));
        let reply := reply ++ s in
        if ret <? Z.of_nat kTmpBufSize then mret (Some reply, reply) else Recv_loop n reply fd
      else mret (None, reply)
  end.

Definition Read (p : ProtocolReadRedis) (fd : Z) : M W (Z * ProtocolReadRedis) :=
  '(res, reply) ← Recv_loop Protocol.fuel (reply_ p) fd;
  match res with
  | None => mret (-1, {| req_info_ := req_info_ p; reply_ := reply; rd_out_ := rd_out_ p |})
  | Some reply =>
      let r := ParseReply reply (rd_out_ p) in
      mret (r_ret r, {| req_info_ := req_info_ p; reply_ := reply; rd_out_ := r_out r |})
  end.

Definition Decode (p : ProtocolReadRedis) : bool * ProtocolReadRedis := (true, p).
Definition Data (p : ProtocolReadRedis) : bytes := rd_out_ p.
Definition Size (p : ProtocolReadRedis) : Z := Z.of_nat (length (rd_out_ p)).

End Objects.

(** *** Small inputs *)

Definition words (ws : list string) : bytes :=
  match ws with
  | [] => []
  | w :: ws => str w ++ concat (map (fun w => kSep :: str w) ws)
  end.
Definition lines (ws : list string) : bytes := concat (map (fun w => str w ++ CRLF) ws).

Example ParseCmd_set :
  ParseCmd (words ["set"; "key"; "v"]%string) = Some (lines ["*3"; "$3"; "set"; "$3"; "key"; "$1"; "v"]%string).
Proof. vm_compute. reflexivity. Qed.

Example ParseReply_two :
  ParseReply (lines ["*2"; "$3"; "abc"; "$-1"]%string) [] = mkReply 0 false (Some 18) (words ["2"; "abc"; "__null"]%string).
Proof. vm_compute. reflexivity. Qed.

(** ** RESP, independently of the parser *)

Definition bulk (s : bytes) : bytes :=
  str "$" ++ CLib.udec (Z.of_nat (length s)) ++ CRLF ++ s ++ CRLF.
Definition resp (segs : list bytes) : bytes :=
  str "*" ++ CLib.udec (Z.of_nat (length segs)) ++ CRLF ++ concat (map bulk segs).

(** The words of a command. *)
Fixpoint split (s : bytes) : list bytes :=
  match s with
  | [] => [[]]
  | c :: s =>
      if decide (c = kSep) then [] :: split s
      else match split s with w :: ws => (c :: w) :: ws | [] => [[c]] end
  end.

Fixpoint join (segs : list bytes) : bytes :=
  match segs with
  | [] => []
  | [s] => s
  | s :: segs => s ++ kSep :: join segs
  end.

(** Empty words are refused, except a last one, which is dropped. *)
Fixpoint cmd_words (segs : list bytes) : option (list bytes) :=
  match segs with
  | [] => Some []
  | [s] => Some (if decide (s = []) then [] else [s])
  | s :: segs => if decide (s = []) then None else cons s <$> cmd_words segs
  end.

Lemma first_sep (s : bytes) : kSep ∈ s -> exists s1 s2, s = s1 ++ kSep :: s2 /\ kSep ∉ s1.
Proof.
  induction s as [|c s IH]; [by intros ?%not_elem_of_nil|]. intros H.
  destruct (decide (c = kSep)) as [->|N].
  - exists [], s. split; [done|apply not_elem_of_nil].
  - apply elem_of_cons in H as [E|H]; [congruence|]. destruct (IH H) as (s1 & s2 & -> & Hn).
    exists (c :: s1), s2. split; [done|]. apply not_elem_of_cons. done.
Qed.

Lemma split_nosep s : kSep ∉ s -> split s = [s].
Proof.
  induction s as [|c s IH]; [done|]. intros [N H]%not_elem_of_cons. cbn [split].
  rewrite decide_False by congruence. by rewrite IH.
Qed.

Lemma split_sep s1 s2 : kSep ∉ s1 -> split (s1 ++ kSep :: s2) = s1 :: split s2.
Proof.
  induction s1 as [|c s1 IH]; cbn [app split]; intros H; [by rewrite decide_True|].
  apply not_elem_of_cons in H as [N H]. rewrite decide_False by congruence. by rewrite IH.
Qed.

Lemma split_join segs : segs <> [] -> Forall (fun s => kSep ∉ s) segs -> split (join segs) = segs.
Proof.
  induction segs as [|s [|s' segs] IH]; [done|..].
  - intros _ H. apply split_nosep. by inversion H.
  - intros _ H. inversion_clear H as [|? ? H1 H2].
    change (join (s :: s' :: segs)) with (s ++ kSep :: join (s' :: segs)).
    rewrite split_sep by done. by rewrite IH.
Qed.

Lemma split_nonnil s : split s <> [].
Proof. destruct s as [|c s]; cbn; [done|]. case_decide; [done|]. by destruct (split s). Qed.

Definition loop_result (n : Z) (res : bytes) (ws : list bytes) : Z * bytes :=
  (n + Z.of_nat (length ws), res ++ concat (map bulk ws)).

Lemma cmd_words_cons s segs : segs <> [] ->
  cmd_words (s :: segs) = if decide (s = []) then None else cons s <$> cmd_words segs.
Proof. by destruct segs. Qed.

(** One turn of the loop, on the word [w] at [follower]. *)
Lemma ParseCmd_seg pre w t :
  CLib.substr (pre ++ w ++ t) (length pre) (Z.to_nat (Z.of_nat (length w))) = w.
Proof. unfold CLib.substr. by rewrite Nat2Z.id, drop_app_length, take_app_length. Qed.

Lemma u32_len pre (w : bytes) t : Z.of_nat (length (pre ++ w ++ t)) < 2 ^ 32 ->
  u32 (Z.of_nat (length w)) = Z.of_nat (length w).
Proof. intros H. rewrite !length_app in H. apply uwrap_small. unfold in_uint. lia. Qed.

Lemma len_zero (w : bytes) : Z.of_nat (length w) =? 0 = bool_decide (w = []).
Proof. destruct w; [done|]. rewrite bool_decide_false by done. apply Z.eqb_neq. cbn. lia. Qed.

Lemma ParseCmd_loop_spec fuel : forall pre s n res,
  (length s < fuel)%nat -> Z.of_nat (length (pre ++ s)) < 2 ^ 32 ->
  0 <= n -> n <= Z.of_nat (length pre) ->
  ParseCmd_loop fuel (pre ++ s) (length pre) n res = loop_result n res <$> cmd_words (split s).
Proof.
  induction fuel as [|fuel IH]; intros pre s n res Hf Hl Hn Hp; [lia|]. cbn [ParseCmd_loop].
  destruct (decide (kSep ∈ s)) as [Hs|Hs].
  - destruct (first_sep s Hs) as (w & t & -> & Hw). rewrite split_sep by done.
    rewrite cmd_words_cons by apply split_nonnil.
    rewrite (CLib.find_char_hit kSep pre w t) by done.
    replace (Z.of_nat (length pre + length w) - Z.of_nat (length pre)) with (Z.of_nat (length w)) by lia.
    rewrite (u32_len pre w (kSep :: t)), len_zero by done. case_decide as D.
    + rewrite decide_True; [done|]. apply nil_length_inv. injection D. lia.
    + rewrite decide_False by (intros ->; apply D; f_equal; cbn; lia).
      rewrite bool_decide_false by (intros ->; apply D; f_equal; cbn; lia).
      rewrite ParseCmd_seg. rewrite !length_app in *. cbn [length] in *.
      assert (length w <> 0)%nat by (intros ->%nil_length_inv; apply D; f_equal; cbn; lia).
      rewrite (uwrap_small 32) by (unfold in_uint; lia).
      replace (pre ++ w ++ kSep :: t) with ((pre ++ w ++ [kSep]) ++ t) by (by rewrite <- !app_assoc).
      replace (length pre + length w + 1)%nat with (length (pre ++ w ++ [kSep]))
        by (rewrite !length_app; cbn; lia).
      rewrite IH; [|lia|rewrite !length_app; cbn; lia|lia|rewrite !length_app; cbn; lia].
      destruct (cmd_words (split t)) as [ws|]; [|done].
      unfold loop_result. cbn [fmap option_fmap option_map length map concat].
      f_equal. f_equal; [lia|]. unfold bulk. by rewrite <- !app_assoc.
  - rewrite (CLib.find_char_miss kSep pre s) by done. rewrite decide_False by done.
    rewrite split_nosep by done. rewrite length_app.
    replace (Z.of_nat (length pre + length s) - Z.of_nat (length pre)) with (Z.of_nat (length s)) by lia.
    pose proof (u32_len pre s []) as U. rewrite app_nil_r in U. rewrite U, len_zero by done.
    cbn [cmd_words]. case_decide as D.
    + rewrite bool_decide_true by done. unfold loop_result. cbn. rewrite app_nil_r.
      by rewrite Z.add_0_r.
    + rewrite bool_decide_false by done. pose proof (ParseCmd_seg pre s []) as E.
      rewrite app_nil_r in E. rewrite E, length_app in *.
      assert (length s <> 0)%nat by (by intros ->%nil_length_inv).
      rewrite (uwrap_small 32) by (unfold in_uint; lia). unfold loop_result.
      cbn [fmap option_fmap option_map length map concat]. f_equal. f_equal. unfold bulk.
      by rewrite app_nil_r.
Qed.

Lemma ParseCmd_words inp : inp <> [] -> Z.of_nat (length inp) < 2 ^ 32 ->
  ParseCmd inp = resp <$> cmd_words (split inp).
Proof.
  intros N L. unfold ParseCmd.
  rewrite decide_False by (by intros ->%nil_length_inv).
  pose proof (ParseCmd_loop_spec (S (length inp)) [] inp 0 CRLF) as E. cbn [app length] in E.
  rewrite E by lia.
  destruct (cmd_words (split inp)) as [ws|]; [|done].
  unfold loop_result, resp. cbn [fmap option_fmap option_map mbind option_bind].
  by rewrite Z.add_0_l.
Qed.
(** ** ParseReply on RESP arrays *)

(** Answers the parser can delimit: not empty, no line feed, no dollar. *)
Definition plain (s : bytes) : Prop := s <> [] /\ LF ∉ s /\ DOLLAR ∉ s.

Lemma digit_not c : CLib.isdigit c = true -> c <> LF /\ c <> DOLLAR /\ c <> CR.
Proof. intros H. split_and!; intros ->; vm_compute in H; discriminate H. Qed.

Lemma udec_plain n : 0 <= n < 2 ^ 64 -> LF ∉ CLib.udec n /\ DOLLAR ∉ CLib.udec n.
Proof.
  intros Hn. destruct (CLib.udec_spec n Hn) as (D & _ & _). rewrite List.Forall_forall in D.
  split; intros H%list_elem_of_In%D%digit_not; naive_solver.
Qed.

Lemma bulk_shape s t : bulk s ++ t =
  (DOLLAR :: CLib.udec (Z.of_nat (length s))) ++ CR :: LF :: s ++ CR :: LF :: t.
Proof. unfold bulk. rewrite <- !app_assoc. reflexivity. Qed.

Lemma bulk_length s :
  length (bulk s) = (1 + length (CLib.udec (Z.of_nat (length s))) + 2 + length s + 2)%nat.
Proof. unfold bulk. rewrite !length_app. cbn. lia. Qed.

Lemma CR_LF : CR <> LF.
Proof. vm_compute. discriminate. Qed.

(** The header line of a bulk string, wherever it is. *)
Lemma seg_header (pre s t : bytes) : Z.of_nat (length s) < 2 ^ 31 ->
  let hd := DOLLAR :: CLib.udec (Z.of_nat (length s)) in
  CLib.find CRLF (pre ++ hd ++ CR :: LF :: t) (length pre) = Some (length pre + length hd)%nat /\
  CLib.strtol (drop (length pre + 1) (pre ++ hd ++ CR :: LF :: t)) =
    (Z.of_nat (length s), length (CLib.udec (Z.of_nat (length s)))).
Proof.
  intros L hd. destruct (udec_plain (Z.of_nat (length s))) as [U1 U2]; [lia|]. split.
  - apply CLib.find_pair_hit; [apply CR_LF|done].
  - rewrite CLib.drop_app_off. cbn [hd app drop]. apply CLib.strtol_udec; [lia|done].
Qed.

Lemma seg_guard (s : bytes) (start : nat) : plain s -> Z.of_nat (length s) < 2 ^ 31 -> (3 <= start)%nat ->
  (Z.of_nat (length s) =? -1) = false /\
  bad_long (Z.of_nat (length s))
    || (start + 1 + length (CLib.udec (Z.of_nat (length s))) =? 3)%nat
    || (Z.of_nat (length s) <=? 0) = false.
Proof.
  intros [N _] L S. assert (length s <> 0)%nat by (by intros ?%nil_length_inv).
  split; [apply Z.eqb_neq; lia|]. unfold bad_long, CLib.LONG_MAX, CLib.LONG_MIN.
  rewrite !orb_false_iff. split_and!; try (apply Z.eqb_neq; lia).
  - apply Nat.eqb_neq. lia.
  - apply Z.leb_gt. lia.
Qed.

Lemma ParseReplySeg_bulk (pre s t : bytes) sz out :
  plain s -> Z.of_nat (length s) < 2 ^ 31 -> (3 <= length pre)%nat ->
  ParseReplySeg_ (pre ++ bulk s ++ t) (length pre) sz out =
    (0, Z.of_nat (length (bulk s)), out ++ s).
Proof.
  intros P L S. rewrite bulk_shape, bulk_length. unfold ParseReplySeg_.
  destruct (seg_header pre s (s ++ CR :: LF :: t) L) as [-> ->].
  destruct (seg_guard s (length pre) P L S) as [-> ->].
  set (hd := DOLLAR :: CLib.udec (Z.of_nat (length s))).
  replace (pre ++ hd ++ CR :: LF :: s ++ CR :: LF :: t)
    with ((pre ++ hd ++ [CR]) ++ (LF :: s) ++ CR :: LF :: t) by (by rewrite <- !app_assoc).
  replace (length pre + length hd + 1)%nat with (length (pre ++ hd ++ [CR]))
    by (rewrite !length_app; cbn; lia).
  destruct P as (P1 & P2 & P3). unfold CRLF.
  rewrite CLib.find_pair_hit by (try apply CR_LF; done).
  rewrite !length_app. cbn [length]. rewrite swrap_small by (try lia; unfold in_sint; lia).
  rewrite (proj2 (Z.eqb_eq _ _)) by lia. cbn [negb].
  f_equal; [f_equal; subst hd; cbn [length]; lia|]. f_equal. unfold CLib.substr.
  replace (length pre + length hd + 2)%nat with (length (pre ++ hd ++ [CR]) + 1)%nat
    by (rewrite !length_app; cbn; lia).
  rewrite CLib.drop_app_off. cbn [app drop].
  by rewrite drop_0, Nat2Z.id, take_app_length.
Qed.

(** A bulk string that has not arrived completely. *)
Lemma LF_take_CR n (s : bytes) : LF ∉ s -> LF ∉ take n (s ++ [CR]).
Proof.
  intros H [i [H1 _]%lookup_take_Some]%list_elem_of_lookup_1.
  apply list_elem_of_lookup_2, elem_of_app in H1 as [H1|H1]; [done|].
  apply list_elem_of_singleton in H1. by apply CR_LF.
Qed.

Lemma first_line_miss (pre hd rest p t : bytes) : LF ∉ hd -> hd ++ CR :: LF :: rest = p ++ t -> (length p < length hd + 2)%nat ->
  CLib.find CRLF (pre ++ p) (length pre) = None.
Proof.
  intros N E L. unfold CRLF. apply CLib.find_pair_miss. replace (hd ++ CR :: LF :: rest) with ((hd ++ [CR]) ++ LF :: rest) in E by (by rewrite <- app_assoc).
  symmetry in E. apply app_split_le in E as [-> _]; [|rewrite length_app; cbn [length]; lia].
  intros H. apply (LF_take_CR (length p) hd N). by destruct (take (length p) (hd ++ [CR])); [|right].
Qed.
Lemma first_line_hit (hd rest p t : bytes) : hd ++ CR :: LF :: rest = p ++ t -> (length hd + 2 <= length p)%nat ->
  exists q, p = hd ++ CR :: LF :: q /\ rest = q ++ t.
Proof.
  intros E L. replace (hd ++ CR :: LF :: rest) with ((hd ++ [CR; LF]) ++ rest) in E by (by rewrite <- app_assoc).
  apply app_split_le in E as [E1 E2]; [|rewrite length_app; cbn [length]; lia]. exists (drop (length (hd ++ [CR; LF])) p). split; [|done].
  rewrite <- (take_drop (length (hd ++ [CR; LF])) p) at 1. rewrite <- E1. by rewrite <- app_assoc.
Qed.
(** The end of the text is missing. *)
Lemma body_miss (pre hd s q t : bytes) : LF ∉ s -> s ++ [CR; LF] = q ++ t -> t <> [] ->
  CLib.find CRLF (pre ++ hd ++ CR :: LF :: q) (length pre + length hd + 1) = None.
Proof.
  intros N E T. replace (pre ++ hd ++ CR :: LF :: q) with ((pre ++ hd ++ [CR]) ++ (LF :: q)) by (by rewrite <- !app_assoc).
  replace (length pre + length hd + 1)%nat with (length (pre ++ hd ++ [CR])) by (rewrite !length_app; cbn; lia).
  unfold CRLF. rewrite CLib.find_pair_miss; [done|]. cbn [tail]. pose proof (f_equal length E) as L. rewrite !length_app in L.
  replace (s ++ [CR; LF]) with ((s ++ [CR]) ++ [LF]) in E by (by rewrite <- app_assoc). symmetry in E. destruct t; [done|]. cbn [length] in L.
  apply app_split_le in E as [-> _]; [by apply LF_take_CR|]. rewrite length_app. cbn [length]. lia.
Qed.

Lemma ParseReplySeg_partial (pre s p t : bytes) sz out :
  plain s -> Z.of_nat (length s) < 2 ^ 31 -> (3 <= length pre)%nat ->
  bulk s = p ++ t -> t <> [] ->
  (ParseReplySeg_ (pre ++ p) (length pre) sz out).1.1 = 1.
Proof.
  intros P L Hs E T. rewrite <- (app_nil_r (bulk s)), bulk_shape in E. pose proof P as (_ & P2 & _).
  destruct (udec_plain (Z.of_nat (length s))) as [U1 _]; [lia|]. set (hd := DOLLAR :: CLib.udec (Z.of_nat (length s))) in *.
  assert (LF ∉ hd) as Nh by (unfold hd; rewrite elem_of_cons; intros [D|?]; [revert D; vm_compute; discriminate|done]). unfold ParseReplySeg_.
  destruct (decide (length p < length hd + 2)%nat) as [Lp|Lp]; [by erewrite first_line_miss by done|].
  apply first_line_hit in E as (q & -> & E); [|lia]. destruct (seg_header pre s q L) as [H1 H2]. fold hd in H1, H2. rewrite H1, H2.
  destruct (seg_guard s (length pre) P L Hs) as [-> ->]. fold hd. by rewrite (body_miss pre hd s q t).
Qed.

Lemma bulk_dollar (s t : bytes) : exists u, bulk s ++ t = DOLLAR :: u.
Proof. rewrite bulk_shape. eexists. reflexivity. Qed.

Lemma bulk_rest_plain s : plain s -> Z.of_nat (length s) < 2 ^ 31 -> DOLLAR ∉ tail (bulk s).
Proof.
  intros (_ & _ & P3) L. destruct (udec_plain (Z.of_nat (length s))) as [_ U2]; [lia|].
  change (tail (bulk s)) with (CLib.udec (Z.of_nat (length s)) ++ [CR; LF] ++ s ++ [CR; LF]).
  assert (DOLLAR ∉ [CR; LF]) by not_in.
  rewrite !not_elem_of_app. done.
Qed.

(** An answer of an array: a bulk string or null. *)
Definition answer (o : option bytes) : bytes := match o with Some s => bulk s | None => str "$-1" ++ CRLF end.
Definition small (s : bytes) : Prop := plain s /\ Z.of_nat (length s) < 2 ^ 31.
Definition small_answer (o : option bytes) : Prop := match o with Some s => small s | None => True end.

Lemma null_strtol t : CLib.strtol (drop 1 (str "$-1" ++ CR :: LF :: t)) = (-1, 2%nat).
Proof. reflexivity. Qed.
Lemma answer_dollar o t : exists u, answer o ++ t = DOLLAR :: u.
Proof. destruct o; [apply bulk_dollar|by eexists]. Qed.
Lemma answer_rest o : small_answer o -> DOLLAR ∉ tail (answer o).
Proof. destruct o as [s|]; [intros []; by apply bulk_rest_plain|]. intros _. not_in. Qed.
Lemma ParseReplySeg_answer (pre t : bytes) o sz out : small_answer o -> (3 <= length pre)%nat ->
  exists z out', ParseReplySeg_ (pre ++ answer o ++ t) (length pre) sz out = (0, z, out').
Proof.
  intros S L. destruct o as [s|]; [destruct S; cbn [answer]; rewrite ParseReplySeg_bulk by done; eauto|]. unfold ParseReplySeg_, answer.
  replace ((str "$-1" ++ CRLF) ++ t) with (str "$-1" ++ CR :: LF :: t) by (by rewrite <- app_assoc). unfold CRLF at 1.
  rewrite CLib.find_pair_hit by (try apply CR_LF; not_in). rewrite Nat.add_1_r, <- Nat.add_1_r, CLib.drop_app_off, null_strtol. cbn [Z.eqb Pos.eqb]. eauto.
Qed.
Lemma ParseReplySeg_answer_partial (pre p t : bytes) o sz out : small_answer o -> (3 <= length pre)%nat ->
  answer o = p ++ t -> t <> [] -> (ParseReplySeg_ (pre ++ p) (length pre) sz out).1.1 = 1.
Proof.
  intros S L E T. destruct o as [s|]; [destruct S; by eapply ParseReplySeg_partial|]. unfold ParseReplySeg_.
  assert (LF ∉ str "$-1") as N by not_in. rewrite (first_line_miss pre (str "$-1") [] p t N E); [done|].
  apply (f_equal length) in E. rewrite length_app in E. destruct t; [done|]. cbn in E |- *. lia.
Qed.

(** The search for the next dollar: the text between [idx] and the segment at
    the end of [pre] has none. *)
Definition clear_from (idx : nat) (pre : bytes) : Prop :=
  (idx <= length pre)%nat /\ DOLLAR ∉ drop idx pre.

Lemma find_dollar idx pre u : clear_from idx pre ->
  CLib.find [DOLLAR] (pre ++ DOLLAR :: u) idx = Some (length pre).
Proof.
  intros [L N]. rewrite <- (take_drop idx pre) at 1. rewrite <- app_assoc.
  replace idx with (length (take idx pre)) at 3 by (rewrite length_take; lia).
  rewrite CLib.find_char_hit by done. f_equal. rewrite length_take, length_drop. lia.
Qed.

Lemma find_no_dollar idx pre : clear_from idx pre -> CLib.find [DOLLAR] pre idx = None.
Proof.
  intros [L N]. rewrite <- (take_drop idx pre) at 1.
  replace idx with (length (take idx pre)) at 3 by (rewrite length_take; lia).
  by apply CLib.find_char_miss.
Qed.

Lemma clear_from_next pre s : plain s -> Z.of_nat (length s) < 2 ^ 31 ->
  clear_from (length pre + 1) (pre ++ bulk s).
Proof.
  intros P L. split; [rewrite length_app, bulk_length; lia|].
  rewrite CLib.drop_app_off. pose proof (bulk_rest_plain s P L) as H.
  by destruct (bulk s).
Qed.

Lemma clear_from_answer pre o : small_answer o -> clear_from (length pre + 1) (pre ++ answer o).
Proof.
  intros S. destruct (answer_dollar o []) as [u E]. rewrite app_nil_r in E. pose proof (answer_rest o S) as H. rewrite E in *.
  split; [rewrite length_app; cbn; lia|]. by rewrite CLib.drop_app_off.
Qed.

Lemma join_cons_out (out s : bytes) segs i n :
  n - i = Z.of_nat (length (s :: segs)) ->
  (if negb (n - 1 =? i) then (out ++ s) ++ [kSep] else out ++ s) ++ join segs = out ++ join (s :: segs).
Proof.
  intros E. destruct segs as [|s' segs]; cbn [length] in E.
  - rewrite (proj2 (Z.eqb_eq _ _)) by lia. cbn. by rewrite app_nil_r.
  - rewrite (proj2 (Z.eqb_neq _ _)) by lia. cbn [negb join]. by rewrite <- !app_assoc.
Qed.

Lemma ParseReply_loop_spec segs : forall fuel pre t idx i n sz out,
  Forall small segs -> (length segs <= fuel)%nat -> (3 <= length pre)%nat ->
  clear_from idx pre -> n - i = Z.of_nat (length segs) -> segs <> [] ->
  exists k z, ParseReply_loop fuel (pre ++ concat (map bulk segs) ++ t) n i idx sz out =
    (0, k, z, out ++ join segs) /\
    Z.of_nat k + z - 1 = Z.of_nat (length (pre ++ concat (map bulk segs))).
Proof.
  induction segs as [|s segs IH]; intros fuel pre t idx i n sz out F Hf Hp C Hn NE; [done|].
  inversion_clear F as [|? ? [P L] F']. destruct fuel as [|fuel]; [cbn in Hf; lia|].
  cbn [ParseReply_loop map concat]. rewrite (proj2 (Z.leb_gt _ _)) by (cbn [length] in Hn; lia).
  rewrite <- app_assoc. destruct (bulk_dollar s (concat (map bulk segs) ++ t)) as [u Eu].
  rewrite Eu, find_dollar, <- Eu by done. rewrite ParseReplySeg_bulk by done. cbn [negb Z.eqb].
  pose proof (join_cons_out out s segs i n Hn) as J. cbn [length] in Hf, Hn.
  set (o := if negb (n - 1 =? i) then (out ++ s) ++ [kSep] else out ++ s) in *. rewrite <- J. destruct segs as [|s' segs].
  - destruct fuel; cbn [ParseReply_loop]; rewrite (proj2 (Z.leb_le _ _)) by (cbn in Hn; lia).
    all: eexists _, _; rewrite app_nil_r; split; [done|].
    all: cbn [map concat]; rewrite length_app, app_nil_r; lia.
  - destruct (IH fuel (pre ++ bulk s) t (length pre + 1)%nat (i + 1) n (Z.of_nat (length (bulk s))) o)
      as (k & z & E & Z); [done|lia|rewrite length_app; lia|by apply clear_from_next|lia|done|].
    rewrite <- app_assoc in E, Z. exists k, z. rewrite E. done.
Qed.

(** The same loop when the reply ends before the array does: every answer takes
    at least a byte of it. *)
Lemma ParseReply_loop_partial l : forall fuel pre p t idx i n sz out,
  Forall small_answer l -> (length p < fuel)%nat -> (3 <= length pre)%nat ->
  clear_from idx pre -> n - i = Z.of_nat (length l) ->
  concat (map answer l) = p ++ t -> t <> [] ->
  (ParseReply_loop fuel (pre ++ p) n i idx sz out).1.1.1 = 1.
Proof.
  induction l as [|o l IH]; intros fuel pre p t idx i n sz out F Hf Hp C Hn E T.
  { symmetry in E. by apply app_nil in E as [_ ->]. }
  inversion_clear F as [|? ? So F']. cbn [length] in Hn. destruct fuel as [|fuel]; [lia|]. cbn [ParseReply_loop].
  rewrite (proj2 (Z.leb_gt _ _)) by lia. cbn [map concat] in E. destruct (decide (p = [])) as [->|Np].
  { by rewrite app_nil_r, find_no_dollar by done. }
  assert (exists u, p = DOLLAR :: u) as [u Eu].
  { destruct (answer_dollar o (concat (map answer l))) as [v Ev]. rewrite Ev in E. destruct p; [done|]. injection E as <- _. eauto. }
  rewrite Eu, find_dollar, <- Eu by done. destruct (decide (length p < length (answer o))%nat) as [Lp|Lp].
  - symmetry in E. apply app_split_le in E as [E1 _]; [|lia].
    pose proof (ParseReplySeg_answer_partial pre p (drop (length p) (answer o)) o sz out So Hp) as R.
    destruct (ParseReplySeg_ (pre ++ p) (length pre) sz out) as [[r z] w]. cbn [fst] in R.
    rewrite R; [done|by rewrite E1 at 1; rewrite take_drop|].
    intros D%(f_equal length). rewrite length_drop in D. change (length (@nil ascii)) with 0%nat in D. lia.
  - apply app_split_le in E as [E1 E2]; [|lia]. assert (p = answer o ++ drop (length (answer o)) p) as E3.
    { rewrite E1 at 1. by rewrite take_drop. }
    rewrite E3. destruct (ParseReplySeg_answer pre (drop (length (answer o)) p) o sz out So Hp) as (z & w & ->). cbn [negb Z.eqb].
    rewrite app_assoc. eapply IH; [done| |rewrite length_app; lia|by apply clear_from_answer|lia|done|done].
    rewrite length_drop. destruct (answer_dollar o []) as [v Ev]. rewrite app_nil_r in Ev. rewrite Ev. subst p. cbn [length] in *. lia.
Qed.
(** The header line of an array. *)
Definition array_head {A} (segs : list A) : bytes :=
  str "*" ++ CLib.udec (Z.of_nat (length segs)) ++ CRLF.

Lemma resp_shape segs : resp segs = array_head segs ++ concat (map bulk segs).
Proof. unfold resp, array_head. by rewrite <- !app_assoc. Qed.

Lemma concat_bulk_length segs : (length segs <= length (concat (map bulk segs)))%nat.
Proof.
  induction segs as [|s segs IH]; cbn [map concat length]; [lia|].
  rewrite length_app, bulk_length. lia.
Qed.

Lemma array_head_spec {A} (segs : list A) (t : bytes) : Z.of_nat (length segs) < 2 ^ 31 ->
  let hd := str "*" ++ CLib.udec (Z.of_nat (length segs)) in
  CLib.find CRLF (array_head segs ++ t) 0 = Some (length hd) /\
  CLib.strtol (drop 1 (array_head segs ++ t)) =
    (Z.of_nat (length segs), length (CLib.udec (Z.of_nat (length segs)))) /\
  clear_from 0 (array_head segs) /\ (3 <= length (array_head segs))%nat /\
  length (CLib.udec (Z.of_nat (length segs))) <> 0%nat.
Proof.
  intros L hd. destruct (udec_plain (Z.of_nat (length segs))) as [U1 U2]; [lia|].
  destruct (CLib.udec_spec (Z.of_nat (length segs))) as (_ & _ & U3); [lia|].
  assert (length (CLib.udec (Z.of_nat (length segs))) <> 0)%nat by (by intros ?%nil_length_inv).
  assert (array_head segs = hd ++ [CR; LF]) as Ah by (unfold array_head, hd; by rewrite <- app_assoc).
  split_and!; [| | | |done].
  - rewrite Ah, <- app_assoc. by apply (CLib.find_pair_hit CR LF [] hd t CR_LF).
  - rewrite Ah, <- app_assoc. cbn [hd app drop]. apply CLib.strtol_udec; [lia|done].
  - split; [lia|]. rewrite drop_0, Ah. unfold hd. rewrite !not_elem_of_app.
    split_and!; [not_in|done|not_in].
  - rewrite Ah. unfold hd. rewrite !length_app. cbn [length str list_ascii_of_string]. lia.
Qed.

Lemma array_guard {A} (segs : list A) : segs <> [] -> Z.of_nat (length segs) < 2 ^ 31 ->
  bad_long (Z.of_nat (length segs)) = false /\ (Z.of_nat (length segs) <=? 0) = false.
Proof.
  intros N L. assert (length segs <> 0)%nat by (by intros ?%nil_length_inv).
  unfold bad_long, CLib.LONG_MAX, CLib.LONG_MIN. rewrite orb_false_iff, !Z.eqb_neq, Z.leb_gt. lia.
Qed.

Lemma ParseReply_star {A} (segs : list A) (t out : bytes) : Z.of_nat (length segs) < 2 ^ 31 ->
  exists i, ParseReply (array_head segs ++ t) out = ParseReply_array (array_head segs ++ t) out i.
Proof.
  intros L. destruct (array_head_spec segs t L) as (H1 & _).
  eexists. unfold ParseReply. rewrite H1. unfold array_head. cbn [str list_ascii_of_string app].
  rewrite decide_True by done. reflexivity.
Qed.

Lemma ParseReply_array_eq {A} (segs : list A) (t out : bytes) i :
  segs <> [] -> Z.of_nat (length segs) < 2 ^ 31 ->
  ParseReply_array (array_head segs ++ t) out i =
    let '(ret, idx_dollar, size_reply_seg, out) :=
      ParseReply_loop (S (length (array_head segs ++ t))) (array_head segs ++ t)
        (Z.of_nat (length segs)) 0 0 0
        (out ++ CLib.udec (Z.of_nat (length segs)) ++ [kSep]) in
    if ret =? 0 then mkReply 0 false (Some (Z.of_nat idx_dollar + size_reply_seg - 1)) out
    else mkReply ret false None out.
Proof.
  intros N L. destruct (array_head_spec segs t L) as (_ & H2 & _ & _ & H5).
  destruct (array_guard segs N L) as [G1 G2]. unfold ParseReply_array. rewrite H2, G1, G2.
  rewrite (proj2 (Nat.eqb_neq _ _)) by done. reflexivity.
Qed.

(** C26: [ParseCmd] computes exactly the RESP array of the words of the command:
    it fails on an empty text and on an empty word that is not the last one,
    drops an empty last word, and otherwise writes the number of words and
    each word with its length. *)
Theorem ParseCmd_spec inp : Z.of_nat (length inp) < 2 ^ 32 ->
  ParseCmd inp = if decide (inp = []) then None else resp <$> cmd_words (split inp).
Proof.
  intros L. case_decide as D; [by rewrite D|]. by apply ParseCmd_words.
Qed.

Lemma ParseCmd_spec_witness :
  ParseCmd (words ["get"; ""; "k"]%string) = None /\
  ParseCmd (words ["get"; "k"; ""]%string) = Some (lines ["*2"; "$3"; "get"; "$1"; "k"]%string).
Proof.
  split; rewrite ParseCmd_spec by (vm_compute; reflexivity); vm_compute; reflexivity.
Defined.

(** C24: a RESP array of plain bulk strings, alone or followed by further
    replies, is parsed completely: [ParseReply] returns 0, reports the size of
    the array, and appends the number of answers and the answers joined by the
    separator. *)
Theorem ParseReply_resp segs t out :
  segs <> [] -> Z.of_nat (length segs) < 2 ^ 31 -> Forall small segs ->
  ParseReply (resp segs ++ t) out =
    mkReply 0 false (Some (Z.of_nat (length (resp segs))))
      (out ++ CLib.udec (Z.of_nat (length segs)) ++ [kSep] ++ join segs).
Proof.
  intros N L F. rewrite resp_shape, <- app_assoc.
  destruct (ParseReply_star segs (concat (map bulk segs) ++ t) out L) as [i ->].
  rewrite ParseReply_array_eq by done.
  destruct (array_head_spec segs [] L) as (_ & _ & H3 & H4 & _).
  edestruct (ParseReply_loop_spec segs) as (k & z & E & Z); [..|rewrite E]; [done| |done|done|lia|done|].
  { rewrite !length_app. pose proof (concat_bulk_length segs). lia. }
  cbn [Z.eqb]. rewrite Z. by rewrite <- !app_assoc.
Qed.

Lemma ParseReply_resp_witness :
  ParseReply (resp [str "abc"; str "d"] ++ str "+OK") [] = mkReply 0 false (Some 20) (words ["2"; "abc"; "d"]%string).
Proof.
  rewrite ParseReply_resp; [vm_compute; reflexivity|discriminate|vm_compute; reflexivity|].
  repeat constructor; try discriminate; try (vm_compute; reflexivity); not_in.
Defined.

(** ** Replies that have not arrived completely *)

(** The replies of the server: an array of answers or a null array, one bulk
    string or null, and the lines of integers, states and errors. *)
Inductive reply :=
  | RArray (l : list (option bytes))
  | RNullArray
  | RBulk (s : bytes)
  | RNull
  | RInt (s : bytes)
  | RStatus (s : bytes)
  | RError (s : bytes).
Definition wire (r : reply) : bytes :=
  match r with
  | RArray l => array_head l ++ concat (map answer l)
  | RNullArray => str "*-1" ++ CRLF
  | RBulk s => bulk s
  | RNull => str "$-1" ++ CRLF
  | RInt s => str ":" ++ s ++ CRLF
  | RStatus s => str "+" ++ s ++ CRLF
  | RError s => str "-" ++ s ++ CRLF
  end.
(** The texts hold no line feed; the answers of an array are not empty and hold
    no dollar either. *)
Definition reply_ok (r : reply) : Prop :=
  match r with
  | RArray l => l <> [] /\ Z.of_nat (length l) < 2 ^ 31 /\ Forall small_answer l
  | RNullArray | RNull => True
  | RBulk s => LF ∉ s /\ Z.of_nat (length s) < 2 ^ 31
  | RInt s | RStatus s | RError s => LF ∉ s
  end.

Lemma ParseReply_no_line hd rest p t out : LF ∉ hd -> hd ++ CR :: LF :: rest = p ++ t -> (length p < length hd + 2)%nat -> p <> [] ->
  r_ret (ParseReply p out) = 1.
Proof.
  intros N E L Np. unfold ParseReply. destruct p as [|c p]; [done|]. pose proof (first_line_miss [] hd rest (c :: p) t N E L) as M.
  cbn [app length] in M. by rewrite M.
Qed.
(** A reply of one line. *)
Lemma ParseReply_line_partial hd p t out : LF ∉ hd -> hd ++ CRLF = p ++ t -> p <> [] -> t <> [] -> r_ret (ParseReply p out) = 1.
Proof.
  intros N E Np Nt. apply (ParseReply_no_line hd [] p t); [done..| |done].
  apply (f_equal length) in E. rewrite !length_app in E. destruct t; [done|]. cbn in E. lia.
Qed.

Lemma ParseReply_bulk_partial s p t out : LF ∉ s -> Z.of_nat (length s) < 2 ^ 31 -> bulk s = p ++ t -> p <> [] -> t <> [] ->
  r_ret (ParseReply p out) = 1.
Proof.
  intros N L E Np Nt. rewrite <- (app_nil_r (bulk s)), bulk_shape in E. destruct (udec_plain (Z.of_nat (length s))) as [U1 _]; [lia|].
  destruct (CLib.udec_spec (Z.of_nat (length s))) as (_ & _ & U3); [lia|]. set (hd := DOLLAR :: CLib.udec (Z.of_nat (length s))) in *.
  assert (LF ∉ hd) as Nh by (unfold hd; rewrite elem_of_cons; intros [D|?]; [revert D; vm_compute; discriminate|done]).
  destruct (decide (length p < length hd + 2)%nat) as [Lp|Lp]; [by eapply ParseReply_no_line|].
  apply first_line_hit in E as (q & -> & E); [|lia]. destruct (seg_header [] s q L) as [H1 H2]. fold hd in H1, H2. cbn [app length Nat.add] in H1, H2.
  unfold ParseReply. rewrite H1. unfold hd at 1. cbn [app]. rewrite decide_False by (vm_compute; discriminate). rewrite decide_True by done.
  unfold ParseReply_bulk. rewrite H2. rewrite (proj2 (Nat.eqb_neq _ _)) by (by intros ?%nil_length_inv).
  assert (bad_long (Z.of_nat (length s)) = false) as -> by (unfold bad_long, CLib.LONG_MAX, CLib.LONG_MIN; rewrite orb_false_iff, !Z.eqb_neq; lia).
  cbn [orb]. rewrite (proj2 (Z.eqb_neq _ (-1))) by lia. cbn [negb]. pose proof (body_miss [] hd s q t N E Nt) as M. cbn [app length Nat.add] in M. by rewrite M.
Qed.

Lemma ParseReply_array_partial l p t out : l <> [] -> Z.of_nat (length l) < 2 ^ 31 -> Forall small_answer l ->
  array_head l ++ concat (map answer l) = p ++ t -> p <> [] -> t <> [] -> r_ret (ParseReply p out) = 1.
Proof.
  intros N L F E Np Nt. assert (array_head l = (str "*" ++ CLib.udec (Z.of_nat (length l))) ++ CRLF) as Ah by (unfold array_head; by rewrite app_assoc).
  destruct (decide (length p < length (array_head l))%nat) as [Lp|Lp].
  - rewrite Ah, <- app_assoc in E. destruct (udec_plain (Z.of_nat (length l))) as [U1 _]; [lia|].
    eapply ParseReply_no_line; [|exact E| |done]; [rewrite not_elem_of_app; split; [not_in|done]|].
    rewrite Ah, length_app in Lp. exact Lp.
  - apply app_split_le in E as [E1 E2]; [|lia]. assert (p = array_head l ++ drop (length (array_head l)) p) as E3.
    { rewrite E1 at 1. by rewrite take_drop. }
    rewrite E3. set (q := drop _ p) in *. destruct (ParseReply_star l q out L) as [i ->]. rewrite ParseReply_array_eq by done.
    destruct (array_head_spec l [] L) as (_ & _ & H3 & H4 & _).
    pose proof (ParseReply_loop_partial l (S (length (array_head l ++ q))) (array_head l) q t
      0 0 (Z.of_nat (length l)) 0 (out ++ CLib.udec (Z.of_nat (length l)) ++ [kSep])
      F ltac:(rewrite length_app; lia) H4 H3 ltac:(lia) E2 Nt) as R.
    destruct (ParseReply_loop _ _ _ _ _ _ _) as [[[r k] z] o]. cbn [fst] in R. by rewrite R.
Qed.

(** C25: of a reply (an array of bulk strings and nulls, a null array, one bulk
    string or null, an integer, a state or an error) whose texts hold no line
    feed, and in arrays are not empty and hold no dollar, let a part have
    arrived that is neither empty nor complete: [ParseReply] returns 1, which
    asks for more; it neither fails nor takes the part for a reply. *)
Theorem ParseReply_partial r p t out :
  reply_ok r -> wire r = p ++ t -> p <> [] -> t <> [] -> r_ret (ParseReply p out) = 1.
Proof.
  intros Ok E Np Nt. destruct r; cbn [reply_ok wire] in *.
  - destruct Ok as (N & L & F). by eapply ParseReply_array_partial.
  - by eapply (ParseReply_line_partial (str "*-1")); [not_in|..].
  - destruct Ok. by eapply ParseReply_bulk_partial.
  - by eapply (ParseReply_line_partial (str "$-1")); [not_in|..].
  - rewrite app_assoc in E. by eapply (ParseReply_line_partial (str ":" ++ s)); [rewrite not_elem_of_app; split; [not_in|]|..].
  - rewrite app_assoc in E. by eapply (ParseReply_line_partial (str "+" ++ s)); [rewrite not_elem_of_app; split; [not_in|]|..].
  - rewrite app_assoc in E. by eapply (ParseReply_line_partial (str "-" ++ s)); [rewrite not_elem_of_app; split; [not_in|]|..].
Qed.

Lemma ParseReply_partial_witness :
  r_ret (ParseReply (str "*2" ++ CRLF ++ str "$-1" ++ CRLF ++ str "$3") []) = 1 /\
  r_ret (ParseReply (str "$0" ++ CRLF ++ [CR]) []) = 1 /\ r_ret (ParseReply (str "+PON") []) = 1.
Proof.
  split_and!.
  - apply (ParseReply_partial (RArray [None; Some (str "abc")]) _ (CRLF ++ str "abc" ++ CRLF));
      [|vm_compute; reflexivity|discriminate|discriminate].
    split; [discriminate|split; [vm_compute; reflexivity|]]. repeat constructor; try discriminate; try (vm_compute; reflexivity); not_in.
  - apply (ParseReply_partial (RBulk []) _ [LF]); [|vm_compute; reflexivity|discriminate|discriminate]. split; [not_in|vm_compute; reflexivity].
  - apply (ParseReply_partial (RStatus (str "PONG")) _ (str "G" ++ CRLF)); [|vm_compute; reflexivity|discriminate|discriminate]. cbn [reply_ok]. not_in.
Defined.

(** What the restriction on the texts leaves out: nothing has arrived yet, and an
    array of no answers, are refused. *)
Example ParseReply_refuses : r_ret (ParseReply [] []) = -1 /\ r_ret (ParseReply (str "*0" ++ CRLF) []) = -1.
Proof. split; vm_compute; reflexivity. Qed.

(** ** Behaviours of the reader object worth knowing *)

#[local] Instance ten : Protocol.Fuel := {| Protocol.fuel := 10 |}.

Definition two_chunks : ChunkNet :=
  let r := lines ["*1"; "$3"; "abc"]%string in
  {| chunks := [take 6 r; drop 6 r]; sent_bytes := []; quota := 0 |}.

(** A reply that arrives in two parts: [Read] appends to [out_] on both calls,
    so the data seen by the caller starts with the output of the first,
    incomplete parse. *)
Definition read_twice : M ChunkNet (Z * Z * bytes) :=
  '(r1, p1) ← Read ProtocolReadRedis_new 5;
  '(r2, p2) ← Read p1 5;
  mret (r1, r2, Data p2).

Lemma Read_two_chunks_garbled :
  fst <$> read_twice two_chunks = Some (1, 0, words ["1"; "1"; "abc"]%string) /\
  r_out (ParseReply (lines ["*1"; "$3"; "abc"]%string) []) = words ["1"; "abc"]%string.
Proof. vm_compute. split; reflexivity. Qed.

(** A dollar inside an answer is taken for the start of the next one, and an
    empty answer inside an array is refused. *)
Lemma ParseReply_dollar_answer :
  r_ret (ParseReply (resp [str "a$1"; str "b"]) []) = -1 /\
  r_ret (ParseReply (resp [[]; str "b"]) []) = -1.
Proof. vm_compute. split; reflexivity. Qed.

End Redis.

(** ** Ping: one byte each way *)
Module Ping.
Section Ping.
Context {W : Type} `{!NetIO W}.

Record ProtocolReadPing := mkReadPing { req_info_ : Protocol.ReqInfo; buffer_ : bytes }.
Definition ProtocolReadPing_new : ProtocolReadPing := mkReadPing Protocol.ReqInfo_new [].

Definition PingWrite (fd : Z) : M W Z :=
  ret ← call (WriteNonBlock fd (str "p"));
  mret (if 0 <? ret then 0 else if ret =? 0 then Protocol.kEnd else ret).

Definition PingReadReset (p : ProtocolReadPing) (la : option Protocol.ListenAddr) : ProtocolReadPing :=
  {| req_info_ := Protocol.ProtocolRead_Reset (req_info_ p) la; buffer_ := buffer_ p |}.

Definition PingRead (p : ProtocolReadPing) (fd : Z) : M W (Z * ProtocolReadPing) :=
  '(ret, bs) ← call (ReadNonBlock fd 1);
  if 0 <? ret then mret (0, {| req_info_ := req_info_ p; buffer_ := bs |})
  else mret (if ret =? 0 then Protocol.kEnd else ret, p).

End Ping.
End Ping.
