(* ===== verification/Thrift.v ===== *)
(** * Thrift: framed thrift messages

    Models src/src/protocols/thrift/protocol_thrift.h and
    details/protocol_thrift.cpp, which are compiled with
    MAGNETO_THRIFT_SUPPORT only.  A frame is a 32-bit size in network order and
    a body: the header of a thrift message (function, direction, sequence
    number), which the thrift library writes and reads, and the struct.  The
    library is an argument, the class [ThriftLib]; what is relied on of it is
    the class [ThriftSpec]. *)

From Stdlib Require Import ZArith Lia Ascii String.
From stdpp Require Import base list numbers option.
From S2P Require Import Prelude Os Protocol Rapid.
Import Os Buffer.

Module Thrift.

(** [TMessageType]. *)
Definition T_CALL : Z := 1.
Definition T_REPLY : Z := 2.
Definition T_ONEWAY : Z := 4.

Inductive Direction := kRequest | kReply | kOneway.

(** [writeMessageBegin], [writeMessageEnd], [writeEnd] and [flush] on an empty
    memory buffer: its contents, or an exception.  [readMessageBegin] on a
    buffer: function, type, sequence number and the number of bytes it took;
    [readMessageEnd] and [readEnd] once the whole buffer was consumed. *)
Class ThriftLib : Type := {
  writeMessage : string -> Z -> Z -> option bytes;
  readMessageBegin : bytes -> option (string * Z * Z * nat);
  readEnd : bytes -> bool;
}.

(** What is written at the start of a buffer is read back from it; the calls
    that read throw an exception rather than going beyond the buffer. *)
Class ThriftSpec `{TL : !ThriftLib} : Prop := {
  read_bound mem fn t seqid n : readMessageBegin mem = Some (fn, t, seqid, n) -> (n <= length mem)%nat;
  read_written fn t seqid h rest :
    writeMessage fn t seqid = Some h -> readMessageBegin (h ++ rest) = Some (fn, t, seqid, length h);
  end_written fn t seqid h rest : writeMessage fn t seqid = Some h -> readEnd (h ++ rest) = true;
}.

Record Params := mkParams { fn : string; dir : Direction; seqid : Z }.

Section Thrift.
Context {W : Type} `{NI : !NetIO W} `{MA : !Malloc} `{TL : !ThriftLib}.

(** ** Writer *)

Record ProtocolWriteThrift := mkWrite {
  w_params : Params;
  w_struct : Protocol.Slice;
  w_size_all : Z;
  w_iovs : list bytes;
}.

Definition WriteReset (p : ProtocolWriteThrift) (s : Protocol.Slice) (pa : Params) : ProtocolWriteThrift :=
  mkWrite pa s (w_size_all p) (w_iovs p).

Definition mtype (d : Direction) : Z :=
  match d with kRequest => T_CALL | kReply => T_REPLY | kOneway => T_ONEWAY end.

Definition Encode (p : ProtocolWriteThrift) : bool * ProtocolWriteThrift :=
  let pa := w_params p in
  match writeMessage (fn pa) (mtype (dir pa)) (seqid pa) with
  | None => (false, p)
  | Some buf_proto =>
      let size_all := htonl (u32 (Z.of_nat (length buf_proto) + Protocol.Size (w_struct p))) in
      (true, mkWrite pa (w_struct p) size_all [le_bytes 4 size_all; buf_proto; Protocol.Data (w_struct p)])
  end.

Definition iov_len (iovs : list bytes) (i : nat) : Z := Z.of_nat (length (nth i iovs [])).

Definition Write (p : ProtocolWriteThrift) (fd : Z) : M W (Z * ProtocolWriteThrift) :=
  '(ret, iovs) ← call (WriteVecNonBlock fd (w_iovs p));
  let p := mkWrite (w_params p) (w_struct p) (w_size_all p) iovs in
  if 0 <? ret then
    mret (match length iovs with
          | 0%nat => 0
          | 1%nat => i32 (iov_len iovs 0)
          | 2%nat => i32 (iov_len iovs 0 + iov_len iovs 1)
          | _ => i32 (iov_len iovs 0 + iov_len iovs 1 + iov_len iovs 2)
          end, p)
  else mret (if ret =? 0 then Protocol.kEnd else ret, p).

(** ** Reader *)

Definition kMinSizeBuf : Z := 9.
Definition kMaxSizeBuf : Z := Z.shiftl 8 20.
Definition sizeof_size : nat := 4.

Record ProtocolReadThrift := mkRead {
  req_info_ : Protocol.ReqInfo;
  buffer_ : Buffer;
  read_header_ : bool;
  size_body_ : Z;
  struct_ : bytes;
  fn_ : string;
  dir_ : Direction;
  seqid_ : Z;
}.

Definition with_buffer (p : ProtocolReadThrift) (b : Buffer) (rh : bool) (size_body : Z) : ProtocolReadThrift :=
  mkRead (req_info_ p) b rh size_body (struct_ p) (fn_ p) (dir_ p) (seqid_ p).

Definition ReadReset (p : ProtocolReadThrift) (la : option Protocol.ListenAddr) : ProtocolReadThrift :=
  mkRead (Protocol.ProtocolRead_Reset (req_info_ p) la) (Reserve (Clear (buffer_ p)) sizeof_size) true (size_body_ p)
    (struct_ p) (fn_ p) (dir_ p) (seqid_ p).

(** The loop of [Read].  A turn that goes on has read at least one byte of the
    size, so [sizeof_size + 2] turns are enough. *)
Fixpoint Read_loop (fuel : nat) (p : ProtocolReadThrift) (fd : Z) (has_bytes_read : bool)
  : M W (Z * ProtocolReadThrift) :=
  match fuel with
  | O => ub
  | S fuel =>
      let b := buffer_ p in
      if read_header_ p then
        let bytes_left := u64 (Z.of_nat sizeof_size - Z.of_nat (len_ b)) in
        '(ret, b) ← Rapid.read_at_stop b fd bytes_left;
        if 0 <? ret then
          let b := SetLen b (len_ b + Z.to_nat ret) in
          if decide (len_ b = sizeof_size) then
            let size_body := ntohl (le_val (take 4 (buf_ b))) in
            b ← deref (Realloc (Clear b) (Z.to_nat size_body));
            Read_loop fuel (with_buffer p b false size_body) fd true
          else Read_loop fuel (with_buffer p b true (size_body_ p)) fd true
        else if ret =? 0 then
          mret (if has_bytes_read then i32 bytes_left else Protocol.kEnd, with_buffer p b true (size_body_ p))
        else mret (ret, with_buffer p b true (size_body_ p))
      else
        let bytes_left := u64 (size_body_ p - Z.of_nat (len_ b)) in
        '(ret, b) ← Rapid.read_at_stop b fd bytes_left;
        if 0 <? ret then
          let b := SetLen b (len_ b + Z.to_nat ret) in
          mret (i32 (bytes_left - ret), with_buffer p b false (size_body_ p))
        else if ret =? 0 then
          mret (if has_bytes_read then i32 bytes_left else Protocol.kEnd, with_buffer p b false (size_body_ p))
        else mret (ret, with_buffer p b false (size_body_ p))
  end.

Definition Read (p : ProtocolReadThrift) (fd : Z) : M W (Z * ProtocolReadThrift) :=
  Read_loop (sizeof_size + 2) p fd false.

Definition direction (mtype : Z) : option Direction :=
  if mtype =? T_CALL then Some kRequest
  else if mtype =? T_REPLY then Some kReply
  else if mtype =? T_ONEWAY then Some kOneway
  else None.

(** The fields are set as far as the code gets.  A header that went beyond the
    buffer would leave a struct that wraps around; [read_bound] says that the
    library has thrown before, so that branch stands for no run. *)
Definition Decode (p : ProtocolReadThrift) : bool * ProtocolReadThrift :=
  let b := buffer_ p in
  let len := Z.of_nat (len_ b) in
  if (len <? kMinSizeBuf) || (kMaxSizeBuf <? len) then (false, p)
  else
    let mem := take (len_ b) (buf_ b) in
    match readMessageBegin mem with
    | None => (false, p)
    | Some (fn, mtype, seqid, size_func) =>
        match direction mtype with
        | None => (false, mkRead (req_info_ p) b (read_header_ p) (size_body_ p) (struct_ p) fn (dir_ p) seqid)
        | Some d =>
            if (size_func <=? len_ b)%nat then
              (readEnd mem, mkRead (req_info_ p) b (read_header_ p) (size_body_ p) (drop size_func mem) fn d seqid)
            else (false, mkRead (req_info_ p) b (read_header_ p) (size_body_ p) (struct_ p) fn d seqid)
        end
    end.

Definition Data (p : ProtocolReadThrift) : bytes := struct_ p.
Definition Size (p : ProtocolReadThrift) : Z := Z.of_nat (length (struct_ p)).

(** ** Frames *)

Definition size_bytes (body : bytes) : bytes := le_bytes 4 (htonl (Z.of_nat (length body))).
Definition frame (body : bytes) : bytes := size_bytes body ++ body.
Definition total (body : bytes) : nat := (sizeof_size + length body)%nat.
Definition fits (body : bytes) : Prop := Z.of_nat (total body) < 2 ^ 31.

Lemma size_bytes_length body : length (size_bytes body) = sizeof_size.
Proof. apply le_bytes_length. Qed.
Lemma thrift_frame_length body : length (frame body) = total body.
Proof. unfold frame. by rewrite length_app, size_bytes_length. Qed.

(** The reader has taken the first [k] bytes of the frame. *)
Record reader_at (body : bytes) (k : nat) (p : ProtocolReadThrift) : Prop := {
  ra_le : (k <= total body)%nat;
  ra_header : read_header_ p = true -> (k < sizeof_size)%nat /\ len_ (buffer_ p) = k /\ (sizeof_size <= size_ (buffer_ p))%nat /\
    take k (buf_ (buffer_ p)) = take k (size_bytes body);
  ra_body : read_header_ p = false -> (sizeof_size <= k)%nat /\ len_ (buffer_ p) = (k - sizeof_size)%nat /\
    size_body_ p = Z.of_nat (length body) /\ (length body <= size_ (buffer_ p))%nat /\
    take (k - sizeof_size) (buf_ (buffer_ p)) = take (k - sizeof_size) body;
}.

Lemma thrift_ReadReset_at body p la : reader_at body 0 (ReadReset p la).
Proof.
  split; cbn; [lia| |done]. intros _. rewrite Reserve_len, Reserve_size. unfold sizeof_size. split_and!; [lia|done|lia|done].
Qed.

Lemma size_read body : fits body -> ntohl (le_val (size_bytes body)) = Z.of_nat (length body).
Proof.
  intros F. unfold size_bytes, fits, total, sizeof_size in *. rewrite le_val_bytes, Z.mod_small by apply bswap_bound.
  apply bswap_bswap. change (256 ^ Z.of_nat 4) with (2 ^ 32). lia.
Qed.

Section Reading.
Context `{NS : !NetIOSpec W}.

Definition missing (body : bytes) (k : nat) : Z :=
  if decide (k < sizeof_size)%nat then Z.of_nat (sizeof_size - k) else Z.of_nat (total body - k).

Definition read_result (hb : bool) body rest fd (k : nat) (res : option (Z * ProtocolReadThrift * W)) : Prop :=
  res = None /\ has_room (length body) = false \/
  exists r p' w' k', res = Some ((r, p'), w') /\ (k <= k')%nat /\ reader_at body k' p' /\
    input fd w' = drop k' (frame body) ++ rest /\ (0 <= r -> r = missing body k' /\ (hb = true \/ (k < k')%nat)).

Lemma thrift_i32_fits body x : fits body -> 0 <= x <= Z.of_nat (total body) -> i32 x = x.
Proof. intros. apply swrap_small; [lia|]. unfold in_sint, fits in *. lia. Qed.
Lemma thrift_u64_fits body x : fits body -> 0 <= x <= Z.of_nat (total body) -> u64 x = x.
Proof. intros. apply uwrap_small. unfold in_uint, fits in *. lia. Qed.

Lemma drop_frame_header body k : (k <= sizeof_size)%nat -> drop k (frame body) = drop k (size_bytes body) ++ body.
Proof. intros. unfold frame. by rewrite drop_app_le by (rewrite size_bytes_length; lia). Qed.
Lemma drop_frame_body body k : (sizeof_size <= k)%nat -> drop k (frame body) = drop (k - sizeof_size) body.
Proof. intros. unfold frame. rewrite drop_app_ge by (rewrite size_bytes_length; lia). by rewrite size_bytes_length. Qed.

Lemma thrift_Read_body fuel hb body rest fd k p w : fits body -> reader_at body k p -> read_header_ p = false ->
  input fd w = drop k (frame body) ++ rest -> read_result hb body rest fd k (Read_loop (S fuel) p fd hb w).
Proof.
  intros F [Hle _ Hb] Hrh Hin. right. destruct (Hb Hrh) as (H1 & H2 & H3 & H4 & H5). set (k0 := (k - sizeof_size)%nat) in *.
  rewrite drop_frame_body in Hin by done. unfold total in Hle.
  cbn [Read_loop]. rewrite Hrh, H2, H3. rewrite (thrift_u64_fits body) by (try done; unfold total; lia).
  replace (Z.of_nat (length body) - Z.of_nat k0) with (Z.of_nat (length body - k0)) by lia.
  destruct (Rapid.read_at_stop_spec (buffer_ p) fd (length body - k0) k0 body body rest w) as
    (r & j & b' & w' & E & P1 & P2 & P3 & P4 & P5 & P6 & P7); try done; try lia.
  mrun E. assert (forall n, (n <= length body - k0)%nat -> drop (k + n) (frame body) = drop (k0 + n) body) as Df.
  { intros n Hn. rewrite drop_frame_body by lia. f_equal. lia. }
  destruct (Z.ltb_spec 0 r) as [Hr|Hr].
  - specialize (P1 Hr). eexists _, _, _, (k + j)%nat. split; [done|]. rewrite P4, P1, Nat2Z.id, (Df j) by lia. split_and!; [lia| |done|].
    + split; cbn [with_buffer buffer_ read_header_ size_body_ SetLen len_ buf_]; [unfold total; lia|done|intros _].
      replace (k + j - sizeof_size)%nat with (k0 + j)%nat by lia. change (size_ (SetLen b' (k0 + j))) with (size_ b'). split_and!; try done; lia.
    + rewrite (thrift_i32_fits body) by (try done; unfold total; lia). unfold missing, total. rewrite decide_False by lia. intros; split; [lia|right; lia].
  - rewrite (P2 Hr), Nat.add_0_r in P6, P7. rewrite <- (Nat.add_0_r k0), <- Df, Nat.add_0_r in P7 by lia.
    assert (reader_at body k (with_buffer p b' false (Z.of_nat (length body)))) as RA.
    { split; cbn [with_buffer buffer_ read_header_ size_body_]; [unfold total; lia|done|intros _]. rewrite P5. by split_and!. }
    destruct (Z.eqb_spec r 0); eexists _, _, _, k; (split; [done|]); (split_and!; [lia|done|done|]); [|lia].
    destruct hb; [|by intros ?%Rapid.kEnd_neg]. rewrite (thrift_i32_fits body) by (try done; unfold total; lia). unfold missing, total.
    rewrite decide_False by lia. intros; split; [lia|by left].
Qed.

Lemma thrift_read_result_weaken hb body rest fd k0 k res : (k0 < k)%nat -> read_result true body rest fd k res -> read_result hb body rest fd k0 res.
Proof.
  intros L [N|(r & p' & w' & k' & E & P1 & P2 & P3 & P4)]; [by left|right]. exists r, p', w', k'. split_and!; [done|lia|done|done|].
  intros Hr. destruct (P4 Hr). split; [done|right; lia].
Qed.

Lemma thrift_Read_loop_spec fuel : forall hb body rest fd k p w, fits body -> reader_at body k p ->
  (read_header_ p = true -> sizeof_size - k + 2 <= fuel)%nat -> (0 < fuel)%nat ->
  input fd w = drop k (frame body) ++ rest -> read_result hb body rest fd k (Read_loop fuel p fd hb w).
Proof.
  induction fuel as [|fuel IH]; intros hb body rest fd k p w F R Hf Hf0 Hin; [lia|].
  destruct (read_header_ p) eqn:Hrh; [|by apply thrift_Read_body]. specialize (Hf eq_refl). pose proof R as [Hle Hh _].
  destruct (Hh Hrh) as (H1 & H2 & H3 & H4). cbn [Read_loop]. rewrite Hrh, H2.
  rewrite (thrift_u64_fits body) by (try done; unfold total, sizeof_size in *; lia).
  replace (Z.of_nat sizeof_size - Z.of_nat k) with (Z.of_nat (sizeof_size - k)) by lia.
  rewrite drop_frame_header, <- app_assoc in Hin by lia.
  destruct (Rapid.read_at_stop_spec (buffer_ p) fd (sizeof_size - k) k (size_bytes body) (size_bytes body) (body ++ rest) w) as
    (r & j & b' & w' & E & P1 & P2 & P3 & P4 & P5 & P6 & P7); try done; rewrite ?size_bytes_length; try lia.
  mrun E. rewrite app_assoc, <- drop_frame_header in P7 by lia. destruct (Z.ltb_spec 0 r) as [Hr|Hr].
  - specialize (P1 Hr). rewrite P4, P1, Nat2Z.id. apply (thrift_read_result_weaken hb _ _ _ k (k + j)); [lia|]. cbn [SetLen len_ buf_]. case_decide as D.
    + destruct fuel as [|fuel]; [lia|]. assert (take 4 (buf_ b') = size_bytes body) as Es.
      { change 4%nat with sizeof_size. rewrite <- D, P6, D. apply firstn_all2. by rewrite size_bytes_length. }
      rewrite Es, size_read, Nat2Z.id by done.
      assert (forall o, Realloc (Clear (SetLen b' (k + j))) (length body) = Some o -> o = Reserve (Clear (SetLen b' (k + j))) (length body)) as Ro.
      { intros o. unfold Realloc. case_decide; [destruct (has_room _)|]; by intros [= <-]. }
      destruct (Realloc _ _) as [o|] eqn:Er.
      2: { left. split; [done|]. unfold Realloc in Er. case_decide; [|done]. by destruct (has_room (length body)). }
      rewrite (Ro o eq_refl). clear Ro Er. cbn [deref mbind M_bind].
      apply thrift_Read_body; try done. split; cbn [with_buffer buffer_ read_header_ size_body_]; [unfold total; lia|done|intros _].
      rewrite D, Reserve_len, Reserve_size, Nat.sub_diag. cbn [Clear len_]. split_and!; try done; lia.
    + apply IH; auto; try lia. split; cbn [with_buffer buffer_ read_header_ len_ buf_]; [unfold total; lia| |done].
      intros _. change (size_ (SetLen b' (k + j))) with (size_ b'). split_and!; try done; lia.
  - rewrite (P2 Hr), Nat.add_0_r in P6, P7. assert (reader_at body k (with_buffer p b' true (size_body_ p))) as RA.
    { split; cbn [with_buffer buffer_ read_header_]; try done. intros _. rewrite P5. by split_and!. }
    right. destruct (Z.eqb_spec r 0); eexists _, _, _, k; (split; [done|]); split_and!; try done; [|lia].
    destruct hb; [|by intros ?%Rapid.kEnd_neg]. rewrite (thrift_i32_fits body) by (try done; unfold total; lia). unfold missing.
    rewrite decide_True by done. intros; split; [lia|by left].
Qed.

(** ** The writer *)

(** The writer has sent the first [k] bytes of the frame. *)
Record writer_at (body : bytes) (k : nat) (p : ProtocolWriteThrift) : Prop := {
  wa_le : (k <= total body)%nat;
  wa_num : (length (w_iovs p) <= 3)%nat;
  wa_rest : concat (w_iovs p) = drop k (frame body);
}.

Lemma thrift_encode p pa h st tail : writeMessage (fn pa) (mtype (dir pa)) (seqid pa) = Some h -> fits (h ++ st) ->
  let e := Encode (WriteReset p (Protocol.mkSlice st tail) pa) in e.1 = true /\ writer_at (h ++ st) 0 e.2.
Proof.
  intros Eh F. unfold Encode, WriteReset. cbn [w_params w_struct]. rewrite Eh. split; [done|].
  split; cbn [w_iovs snd length]; [lia|lia|]. unfold Protocol.Size. cbn [Protocol.Data concat]. rewrite app_nil_r, drop_0.
  unfold frame, size_bytes, fits, total, sizeof_size in *. rewrite length_app, Nat2Z.inj_add in *. rewrite uwrap_small; [done|]. unfold in_uint. lia.
Qed.

Lemma thrift_iovs_total (iovs : list bytes) : (length iovs <= 3)%nat ->
  match length iovs with
  | 0%nat => 0
  | 1%nat => i32 (iov_len iovs 0)
  | 2%nat => i32 (iov_len iovs 0 + iov_len iovs 1)
  | _ => i32 (iov_len iovs 0 + iov_len iovs 1 + iov_len iovs 2)
  end = i32 (Z.of_nat (length (concat iovs))).
Proof.
  destruct iovs as [|a [|b [|c [|d l]]]]; cbn [length concat]; intros; [done|..|lia].
  all: rewrite !length_app; cbn [length]; unfold iov_len; cbn [nth]; f_equal; lia.
Qed.

Lemma thrift_Write_step body k p fd w : fits body -> writer_at body k p ->
  exists r p' w' k', Write p fd w = Some ((r, p'), w') /\ (k <= k')%nat /\ writer_at body k' p' /\
    output fd w' = output fd w ++ take (k' - k) (drop k (frame body)) /\ (0 <= r -> r = Z.of_nat (total body - k')).
Proof.
  intros F [Hle Hnum Hrest]. unfold Write. destruct (WriteVecNonBlock fd (w_iovs p) w) as [[r iovs] w'] eqn:E.
  unfold mbind, M_bind, call. rewrite E. pose proof (thrift_frame_length body) as FL. destruct (Z.ltb_spec 0 r) as [Hr|Hr].
  - destruct (WriteVecNonBlock_pos _ _ _ _ _ _ E Hr) as (L & sent & O & Rs & C). rewrite Hrest in C.
    assert (length sent <= total body - k)%nat as LS. { apply (f_equal length) in C. rewrite length_app, length_drop, FL in C. lia. }
    assert (concat iovs = drop (k + length sent) (frame body)) as C'. { by rewrite <- drop_drop, C, drop_app_length. }
    eexists _, _, _, (k + length sent)%nat. split; [done|]. split_and!; [lia| | |].
    + split; [lia|cbn; lia|done].
    + rewrite O. f_equal. rewrite C. replace (k + length sent - k)%nat with (length sent) by lia. by rewrite take_app_length.
    + rewrite thrift_iovs_total by lia. rewrite C', length_drop, FL. by rewrite (thrift_i32_fits body) by (try done; lia).
  - destruct (WriteVecNonBlock_nonpos _ _ _ _ _ _ E Hr) as (-> & O). eexists _, _, _, k. split; [done|].
    rewrite Nat.sub_diag, take_0, app_nil_r. split_and!; [lia|by destruct p|done|].
    destruct (Z.eqb_spec r 0); [by intros ?%Rapid.kEnd_neg|lia].
Qed.

Lemma thrift_write_until fuel : forall body k p fd w r p' w', fits body -> writer_at body k p -> Rapid.until_done Write fuel p fd w = Some ((r, p'), w') ->
  exists k', (k <= k')%nat /\ writer_at body k' p' /\ output fd w' = output fd w ++ take (k' - k) (drop k (frame body)) /\
    (r = 0 -> k' = total body).
Proof.
  induction fuel as [|fuel IH]; intros body k p fd w r p' w' F WA HR; cbn [Rapid.until_done] in HR.
  { minv. exists k. rewrite Nat.sub_diag, take_0, app_nil_r. by split_and!. }
  destruct (thrift_Write_step body k p fd w F WA) as (r1 & p1 & w1 & k1 & E & L1 & A1 & O1 & N1).
  rewrite (bind_run _ _ _ _ _ E) in HR. cbn beta iota in HR. pose proof (wa_le _ _ _ A1). destruct (Z.ltb_spec 0 r1).
  - destruct (IH _ _ _ _ _ _ _ _ F A1 HR) as (k2 & L2 & A2 & O2 & D2). exists k2. split_and!; [lia|done| |done].
    rewrite O2, O1, <- app_assoc. f_equal. replace (k2 - k)%nat with (k1 - k + (k2 - k1))%nat by lia.
    rewrite <- take_take_drop, drop_drop. by replace (k + (k1 - k))%nat with k1 by lia.
  - minv. exists k1. split_and!; [lia|done|done|]. intros ->. lia.
Qed.

(** ** A complete frame *)

Lemma thrift_missing_zero body k : (k <= total body)%nat -> missing body k = 0 -> k = total body.
Proof. unfold missing, total. case_decide; lia. Qed.

Lemma thrift_read_until fuel : forall body rest k p fd w r p' w', fits body -> reader_at body k p -> input fd w = drop k (frame body) ++ rest ->
  Rapid.until_done Read fuel p fd w = Some ((r, p'), w') -> exists k', (k <= k')%nat /\ reader_at body k' p' /\
    input fd w' = drop k' (frame body) ++ rest /\ (r = 0 -> k' = total body).
Proof.
  induction fuel as [|fuel IH]; intros body rest k p fd w r p' w' F RA Hin HR; cbn [Rapid.until_done] in HR.
  { minv. exists k. by split_and!. }
  destruct (thrift_Read_loop_spec (sizeof_size + 2) false body rest fd k p w) as [[E _]|(r1 & p1 & w1 & k1 & E & L1 & A1 & I1 & N1)]; [done|done|lia|lia|done| |].
  { unfold mbind, M_bind, Read in HR. by rewrite E in HR. }
  rewrite (bind_run _ _ _ _ _ E) in HR. cbn beta iota in HR. pose proof (ra_le _ _ _ A1). destruct (Z.ltb_spec 0 r1).
  - destruct (IH body rest k1 p1 fd w1 r p' w') as (k2 & L2 & A2 & I2 & D2); [done..|]. exists k2. split_and!; [lia|done..].
  - minv. exists k1. split_and!; [lia|done|done|]. intros ->. destruct (N1 ltac:(lia)) as [N2 _]. by apply thrift_missing_zero.
Qed.

Lemma direction_mtype d : direction (mtype d) = Some d.
Proof. by destruct d. Qed.

(** What [Decode] says of a complete frame whose body the library wrote. *)
Lemma thrift_decode `{!ThriftSpec} pa h st p : writeMessage (fn pa) (mtype (dir pa)) (seqid pa) = Some h ->
  reader_at (h ++ st) (total (h ++ st)) p ->
  let d := Decode p in d.1 = (kMinSizeBuf <=? Z.of_nat (length (h ++ st))) && (Z.of_nat (length (h ++ st)) <=? kMaxSizeBuf) /\
  (d.1 = true -> Data d.2 = st /\ fn_ d.2 = fn pa /\ dir_ d.2 = dir pa /\ seqid_ d.2 = seqid pa).
Proof.
  intros Eh R. destruct (read_header_ p) eqn:Hrh.
  { destruct (ra_header _ _ _ R Hrh) as [? _]. unfold total in *. lia. }
  destruct (ra_body _ _ _ R Hrh) as (_ & H2 & _ & _ & H5). replace (total (h ++ st) - sizeof_size)%nat with (length (h ++ st)) in * by (unfold total; lia).
  rewrite firstn_all in H5. unfold Decode. rewrite H2, H5. destruct (Z.ltb_spec (Z.of_nat (length (h ++ st))) kMinSizeBuf) as [L1|L1].
  { rewrite (proj2 (Z.leb_gt _ _)) by lia. by split. }
  rewrite (proj2 (Z.leb_le kMinSizeBuf _)) by lia. destruct (Z.ltb_spec kMaxSizeBuf (Z.of_nat (length (h ++ st)))) as [L2|L2]; cbn [orb andb].
  { rewrite (proj2 (Z.leb_gt _ kMaxSizeBuf)) by lia. by split. }
  rewrite (proj2 (Z.leb_le _ kMaxSizeBuf)) by lia.
  rewrite (read_written _ _ _ _ _ Eh), direction_mtype, (end_written _ _ _ _ _ Eh). rewrite (proj2 (Nat.leb_le _ _)) by (rewrite length_app; lia).
  unfold Data. cbn. by rewrite drop_app_length.
Qed.

End Reading.

End Thrift.

(** C14: what a thrift writer sends, a thrift reader receives, for every body
    (header of the message and struct) of less than 2^31 - 4 bytes.  If the
    event loop drives [Write] of an encoded message to 0 on one machine and the
    bytes arrive, in any chunks and followed by anything, at another whose event
    loop drives [Read] to 0, then the stream is at the first byte after the
    frame, and [Decode] accepts exactly the bodies of 9 bytes to 8 megabytes,
    a limit the writer does not have.  When it accepts, [Data] is the struct,
    and the function, the direction and the sequence number are those of the
    writer's parameters. *)
Theorem thrift_roundtrip {W1 W2} `{!NetIO W1, !NetIOSpec W1, !NetIO W2, !NetIOSpec W2, !Malloc} `{TL : !ThriftLib} `{TS : !ThriftSpec}
    pa h st tail rest fd1 fd2 pw pr la (w1 w1' : W1) (w2 w2' : W2) n1 n2 r1 r2 pw' pr' :
  writeMessage (fn pa) (mtype (dir pa)) (seqid pa) = Some h ->
  fits (h ++ st) -> output fd1 w1 = [] ->
  Rapid.until_done Write n1 (Encode (WriteReset pw (Protocol.mkSlice st tail) pa)).2 fd1 w1 = Some ((r1, pw'), w1') -> r1 = 0 ->
  input fd2 w2 = output fd1 w1' ++ rest ->
  Rapid.until_done Read n2 (ReadReset pr la) fd2 w2 = Some ((r2, pr'), w2') -> r2 = 0 ->
  let d := Decode pr' in
  d.1 = (kMinSizeBuf <=? Z.of_nat (length (h ++ st))) && (Z.of_nat (length (h ++ st)) <=? kMaxSizeBuf) /\
  (d.1 = true -> Data d.2 = st /\ fn_ d.2 = fn pa /\ dir_ d.2 = dir pa /\ seqid_ d.2 = seqid pa) /\ input fd2 w2' = rest.
Proof.
  intros Eh F O E1 R1 I E2 R2.
  destruct (thrift_write_until _ _ _ _ _ _ _ _ _ F (proj2 (thrift_encode pw pa h st tail Eh F)) E1) as (k & _ & A & O' & D).
  rewrite (D R1), O, drop_0, Nat.sub_0_r, firstn_all2 in O' by (by rewrite thrift_frame_length). rewrite O' in I. cbn [app] in I.
  destruct (thrift_read_until n2 (h ++ st) rest 0 (ReadReset pr la) fd2 w2 r2 pr' w2') as (k3 & _ & A3 & I3 & D3); [done|apply thrift_ReadReset_at|done|done|].
  rewrite (D3 R2) in *. destruct (thrift_decode pa h st pr') as [D1 D2]; [done..|]. cbn zeta. split_and!; [done|done|].
  by rewrite I3, <- thrift_frame_length, drop_all.
Qed.

(** *** A concrete library and run

    A header of 7 bytes (type, sequence number and length of the name) and the
    name, for names shorter than 65536; "ping" is sent seven bytes at a time
    and received in chunks of 3, 6 and the rest. *)

Definition ex_write (fn : string) (t seqid : Z) : option bytes :=
  if decide ((0 <= t < 256 /\ 0 <= seqid < 256 ^ 4) /\ Z.of_nat (length (str fn)) < 256 ^ 2) then
    Some (le_bytes 1 t ++ le_bytes 4 seqid ++ le_bytes 2 (Z.of_nat (length (str fn))) ++ str fn)
  else None.

Definition ex_read (mem : bytes) : option (string * Z * Z * nat) :=
  let n := Z.to_nat (le_val (take 2 (drop 5 mem))) in
  if decide (7 + n <= length mem)%nat then
    Some (string_of_list_ascii (take n (drop 7 mem)), le_val (take 1 mem), le_val (take 4 (drop 1 mem)), (7 + n)%nat)
  else None.

#[local] Instance ex_lib : ThriftLib := {| writeMessage := ex_write; readMessageBegin := ex_read; readEnd := fun _ => true |}.

Lemma ex_read_written fn t seqid h rest : ex_write fn t seqid = Some h -> ex_read (h ++ rest) = Some (fn, t, seqid, length h).
Proof.
  unfold ex_write. case_decide as D; [|done]. destruct D as [[Ht Hs] Hl]. intros H; apply (inj Some) in H as <-. rewrite <- !app_assoc. unfold ex_read.
  set (n := length (str fn)) in *. change (take 1 (le_bytes 1 t ++ _)) with (le_bytes 1 t).
  change (drop 1 (le_bytes 1 t ++ ?x)) with x. change (take 4 (le_bytes 4 seqid ++ _)) with (le_bytes 4 seqid).
  change (drop 5 (le_bytes 1 t ++ le_bytes 4 seqid ++ ?x)) with x. change (take 2 (le_bytes 2 (Z.of_nat n) ++ _)) with (le_bytes 2 (Z.of_nat n)).
  change (drop 7 (le_bytes 1 t ++ le_bytes 4 seqid ++ le_bytes 2 (Z.of_nat n) ++ ?x)) with x.
  rewrite !le_val_bytes. change (256 ^ Z.of_nat 1) with 256. change (Z.of_nat 4) with 4. change (Z.of_nat 2) with 2.
  rewrite !Z.mod_small, Nat2Z.id by lia. subst n. rewrite take_app_length, decide_True by (rewrite !length_app, !le_bytes_length; lia).
  rewrite !length_app, !le_bytes_length. unfold str. by rewrite string_of_list_ascii_of_string.
Qed.

#[local] Instance ex_spec : ThriftSpec.
Proof.
  split; [|exact ex_read_written|done]. intros mem f t q n. cbn. unfold ex_read. case_decide; [|done]. by intros [= <- <- <- <-].
Qed.

#[local] Instance ex_malloc : Malloc := {| junk := fun _ => Ascii.zero; has_room := fun _ => true |}.

Definition ex_params : Params := mkParams "ping" kReply 7.
Definition ex_header : bytes := Eval vm_compute in default [] (ex_write "ping" (mtype kReply) 7).
Definition ex_struct : bytes := str "hello".
Definition ex_writer : ProtocolWriteThrift := mkWrite ex_params (Protocol.mkSlice [] []) 0 [].
Definition ex_reader : ProtocolReadThrift := mkRead Protocol.ReqInfo_new Buffer_new false 0 [] "" kRequest 0.
Definition ex_send : ChunkNet := {| chunks := []; sent_bytes := []; quota := 7 |}.
Definition ex_recv : ChunkNet :=
  let f := frame (ex_header ++ ex_struct) ++ str "xy" in
  {| chunks := [take 3 f; take 6 (drop 3 f); drop 9 f]; sent_bytes := []; quota := 0 |}.

Definition ex_sent : option (Z * ProtocolWriteThrift * ChunkNet) :=
  Rapid.until_done Write 4 (Encode (WriteReset ex_writer (Protocol.mkSlice ex_struct []) ex_params)).2 3 ex_send.
Definition ex_done : option (Z * ProtocolReadThrift * ChunkNet) := Rapid.until_done Read 5 (ReadReset ex_reader None) 7 ex_recv.

Lemma thrift_roundtrip_witness :
  exists pr' w2', Rapid.until_done Read 5 (ReadReset ex_reader None) 7 ex_recv = Some ((0, pr'), w2') /\
  (Decode pr').1 = true /\ Data (Decode pr').2 = ex_struct /\ fn_ (Decode pr').2 = "ping"%string /\ dir_ (Decode pr').2 = kReply /\
  seqid_ (Decode pr').2 = 7 /\ input 7 w2' = str "xy".
Proof.
  assert ((fun x => (x.1.1, output 3 x.2)) <$> ex_sent = Some (0, frame (ex_header ++ ex_struct))) as E1 by (vm_compute; reflexivity).
  assert ((fun x => x.1.1) <$> ex_done = Some 0) as E2 by (vm_compute; reflexivity).
  apply fmap_Some in E1 as ([[r1 pw'] w1'] & E1 & H1). apply fmap_Some in E2 as ([[r2 pr'] w2'] & E2 & H2). injection H1 as H1 H1'.
  cbn [fst snd] in *. exists pr', w2'. rewrite <- H2 in E2. split; [exact E2|].
  destruct (thrift_roundtrip ex_params ex_header ex_struct [] (str "xy") 3 7 ex_writer ex_reader None ex_send w1' ex_recv w2' 4 5 r1 0 pw' pr')
    as (D1 & D2 & I); [reflexivity|vm_compute; reflexivity|reflexivity|exact E1|exact (eq_sym H1)|transitivity (frame (ex_header ++ ex_struct) ++ str "xy"); [vm_compute; reflexivity|exact (f_equal (fun x => x ++ str "xy") H1')]|exact E2|reflexivity|].
  assert ((Decode pr').1 = true) as Dt by (rewrite D1; vm_compute; reflexivity). destruct (D2 Dt) as (A1 & A2 & A3 & A4).
  split; [exact Dt|]. split; [exact A1|]. split; [exact A2|]. split; [exact A3|]. split; [exact A4|exact I].
Defined.

End Thrift.
