(* ===== verification/IOHelper.v ===== *)
(** * IOHelper: sockets and the cached clock

    Models the parts of deps/public-cpp whose code is in headers:
    io_helper.h ([IpToInt], [Connect], [SetNonBlock], [CheckConn], [Close]) and
    time/time.h (the process-wide cached time, [Timer]).  The system calls they make are fields of
    a class over the world [W]; the cached time is part of the world because
    every thread of the process updates it. *)

From Stdlib Require Import ZArith Lia Ascii String.
From stdpp Require Import base list numbers.
From S2P Require Import Prelude Protocol.

(** The calls on sockets.  [sys_connect] returns the result and [errno];
    [sys_recv1] is [recv(fd, buf, 1, MSG_DONTWAIT)]. *)
Class Sock (W : Type) : Type := {
  CreateSocket : bool -> W -> Z * W;
  sys_connect : Z -> Protocol.Addr -> W -> (Z * Z) * W;
  sys_recv1 : Z -> W -> (Z * Z) * W;
  sys_close : Z -> W -> W;
}.

(** [fcntl(fd, F_GETFL, 0)] and [fcntl(fd, F_SETFL, flags)]. *)
Class Fcntl (W : Type) : Type := {
  fcntl_getfl : Z -> W -> Z * W;
  fcntl_setfl : Z -> Z -> W -> Z * W;
}.

(** The static [Time::time_] in microseconds, and the system clock. *)
Class Clock (W : Type) : Type := {
  load_time : W -> Z * W;
  store_time : Z -> W -> W;
  gettimeofday : W -> Z * W;
}.

(** The descriptors closed so far: only [close] adds to them. *)
Class SockSpec (W : Type) `{!Sock W, !Clock W} : Type := {
  closed : W -> list Z;
  closed_close fd w : closed (sys_close fd w) = closed w ++ [fd];
  closed_create b w : closed (CreateSocket b w).2 = closed w;
  closed_connect fd a w : closed (sys_connect fd a w).2 = closed w;
  closed_recv1 fd w : closed (sys_recv1 fd w).2 = closed w;
  closed_load w : closed (load_time w).2 = closed w;
  closed_store t w : closed (store_time t w) = closed w;
  closed_gettimeofday w : closed (gettimeofday w).2 = closed w;
}.

(** The cached time never goes back: other threads store what the system
    clock gave them, and that clock does not go back either. *)
Class ClockLaws (W : Type) `{!Clock W} : Type := {
  time_ : W -> Z;
  load_time_law w : (load_time w).1 = time_ (load_time w).2 /\ time_ w <= time_ (load_time w).2;
  gettimeofday_law w : time_ w <= (gettimeofday w).1 /\ time_ (gettimeofday w).2 = time_ w;
  store_time_law t w : time_ w <= t -> time_ (store_time t w) = t;
}.

Module IOHelper.

Definition EINTR : Z := 4.
Definition EAGAIN : Z := 11.
Definition EWOULDBLOCK : Z := 11.
Definition EINPROGRESS : Z := 115.

(** [IpToInt]: the four numbers of a dotted address, [None] for false.  The
    pointer [cur] is kept as the text it points at; after the last number it
    is not used any more. *)
Fixpoint IpToInt_loop (n : nat) (i : Z) (cur : bytes) (ipint : Z) : option Z :=
  match n with
  | O => Some ipint
  | S n =>
      let segvalue := CLib.atoi cur in
      if (255 <? segvalue) || (segvalue <? 0) then None
      else
        let ipint := u32 (ipint + segvalue * 2 ^ ((3 - i) * 8)) in
        match CLib.find (str ".") cur 0 with
        | None => if i =? 3 then IpToInt_loop n (i + 1) [] ipint else None
        | Some p => IpToInt_loop n (i + 1) (drop (p + 1) cur) ipint
        end
  end.
Definition IpToInt (ipstr : bytes) : option Z := IpToInt_loop 4 0 ipstr 0.

Example IpToInt_localhost : IpToInt (str "127.0.0.1") = Some 2130706433.
Proof. vm_compute. reflexivity. Qed.

Section IOHelper.
Context {W : Type} `{!Sock W, !Clock W} {FU : Protocol.Fuel}.

Definition Close (fd : Z) : M W () := modify (sys_close fd).

(** [Connect]: the descriptor or -1, and whether no connection event is
    needed; it starts again after an interrupted call. *)
Fixpoint Connect_loop (n : nat) (addr : Protocol.Addr) (is_non_block : bool) : M W (Z * bool) :=
  match n with
  | O => ub
  | S n =>
      fd ← call (CreateSocket is_non_block);
      if fd <=? 0 then mret (-1, true)
      else
        '(ret, errno) ← call (sys_connect fd addr);
        if ret =? 0 then mret (fd, true)
        else if errno =? EINPROGRESS then mret (fd, false)
        else if errno =? EINTR then Connect_loop n addr is_non_block
        else Close fd;; mret (-1, true)
  end.
Definition Connect (addr : Protocol.Addr) : M W (Z * bool) := Connect_loop Protocol.fuel addr true.

(** The flag is added to those that are set. *)
Definition O_NONBLOCK : Z := 2048.
Definition SetNonBlock `{!Fcntl W} (fd : Z) : M W bool :=
  ret ← call (fcntl_getfl fd);
  if negb (-1 =? ret) then ret ← call (fcntl_setfl fd (Z.lor ret O_NONBLOCK)); mret (negb (-1 =? ret))
  else mret false.

Definition CheckConn (fd : Z) : M W bool :=
  '(ret, errno) ← call (sys_recv1 fd);
  mret ((ret <? 0) && ((errno =? EWOULDBLOCK) || (errno =? EAGAIN))).

(** ** time.h *)

Definition UpdateTimer : M W () :=
  t ← call gettimeofday; modify (store_time t).

Definition refresh (update : bool) : M W () :=
  t ← call load_time; when (update || (t =? 0)) UpdateTimer.

Definition GetCurrentUsec (update : bool) : M W Z := refresh update;; call load_time.
Definition GetCurrentMsec (update : bool) : M W Z :=
  refresh update;; t ← call load_time; mret (Z.quot t 1000).
Definition GetCurrentSec (update : bool) : M W Z :=
  refresh update;; t ← call load_time; mret (Z.quot t 1000000).

Lemma refresh_run b w : exists w', refresh b w = Some ((), w').
Proof.
  unfold refresh, mbind, M_bind, call. destruct (load_time w) as [t w1].
  destruct (b || (t =? 0)); cbn; [|by eexists].
  unfold UpdateTimer, mbind, M_bind, call. destruct (gettimeofday w1). by eexists.
Qed.

Lemma GetCurrentSec_run b w : exists t w', GetCurrentSec b w = Some (t, w').
Proof.
  unfold GetCurrentSec. destruct (refresh_run b w) as [w1 E].
  rewrite (bind_run _ _ _ _ _ E). unfold mbind, M_bind, call. destruct (load_time w1). eauto.
Qed.

Lemma GetCurrentMsec_run b w : exists t w', GetCurrentMsec b w = Some (t, w').
Proof.
  unfold GetCurrentMsec. destruct (refresh_run b w) as [w1 E].
  rewrite (bind_run _ _ _ _ _ E). unfold mbind, M_bind, call. destruct (load_time w1). eauto.
Qed.

(** [Timer]; [stop_] has no value before [Stop]. *)
Record Timer := mkTimer { start_ : Z; stop_ : option Z }.
Definition Timer_new : M W Timer := t ← GetCurrentUsec true; mret (mkTimer t None).
Definition Start (update : bool) (r : Timer) : M W Timer := t ← GetCurrentUsec update; mret (mkTimer t (stop_ r)).
Definition Stop (update : bool) (r : Timer) : M W Timer := t ← GetCurrentUsec update; mret (mkTimer (start_ r) (Some t)).
Definition TimeUs (r : Timer) : option Z := s ← stop_ r; Some (s - start_ r).
Definition TimeMs (r : Timer) : option Z := s ← stop_ r; Some (Z.quot (s - start_ r) 1000).
Definition TimeSec (r : Timer) : option Z := s ← stop_ r; Some (Z.quot (s - start_ r) 1000000).

Section Monotone.
Context `{!ClockLaws W}.

Lemma refresh_mono b w w' : refresh b w = Some ((), w') -> time_ w <= time_ w'.
Proof.
  unfold refresh, mbind, M_bind, call. pose proof (load_time_law w) as [L1 L2].
  destruct (load_time w) as [t w1]. cbn in *. destruct (b || (t =? 0)); cbn.
  - unfold UpdateTimer, mbind, M_bind, call. pose proof (gettimeofday_law w1) as [G1 G2].
    destruct (gettimeofday w1) as [t2 w2]. cbn in *. intros [= <-]. rewrite store_time_law; lia.
  - intros [= <-]. done.
Qed.

Lemma Msec_law b w t w' : GetCurrentMsec b w = Some (t, w') ->
  t = Z.quot (time_ w') 1000 /\ time_ w <= time_ w'.
Proof.
  unfold GetCurrentMsec. intros E. apply bind_Some in E as ([] & w1 & R & E).
  apply refresh_mono in R. unfold mbind, M_bind, call in E. pose proof (load_time_law w1) as [L1 L2].
  destruct (load_time w1). cbn in *. injection E as <- <-. rewrite L1. split; [done|lia].
Qed.

Lemma Usec_law b w t w' : GetCurrentUsec b w = Some (t, w') -> t = time_ w' /\ time_ w <= time_ w'.
Proof.
  unfold GetCurrentUsec. intros E. apply bind_Some in E as ([] & w1 & R & E). apply refresh_mono in R. unfold call in E.
  pose proof (load_time_law w1) as [L1 L2]. destruct (load_time w1). cbn in *. injection E as <- <-. split; [done|lia].
Qed.

(** What a timer shows is the time between its construction and its stop, with
    whatever happens in between; it is never negative. *)
Lemma timer_measures b w w1 w2 w3 r r' : Timer_new w = Some (r, w1) -> time_ w1 <= time_ w2 -> Stop b r w2 = Some (r', w3) ->
  TimeUs r' = Some (time_ w3 - time_ w1) /\ 0 <= time_ w3 - time_ w1 /\ TimeMs r' = Some ((time_ w3 - time_ w1) / 1000).
Proof.
  unfold Timer_new, Stop. intros E1 L E2. apply bind_Some in E1 as (t1 & ? & E1 & [= <- <-]). apply bind_Some in E2 as (t2 & ? & E2 & [= <- <-]).
  apply Usec_law in E1 as [-> _]. apply Usec_law in E2 as [-> L2]. unfold TimeUs, TimeMs. cbn. split_and!; [done|lia|].
  f_equal. apply Z.quot_div_nonneg; lia.
Qed.

End Monotone.

Context `{!SockSpec W}.

Lemma closed_refresh b w w' : refresh b w = Some ((), w') -> closed w' = closed w.
Proof.
  unfold refresh, mbind, M_bind, call. pose proof (closed_load w) as L.
  destruct (load_time w) as [t w1]. cbn in L. destruct (b || (t =? 0)); cbn.
  - unfold UpdateTimer, mbind, M_bind, call. pose proof (closed_gettimeofday w1) as G.
    destruct (gettimeofday w1) as [t2 w2]. cbn in *. intros [= <-]. rewrite closed_store. congruence.
  - intros [= <-]. done.
Qed.

Lemma closed_Sec b w t w' : GetCurrentSec b w = Some (t, w') -> closed w' = closed w.
Proof.
  unfold GetCurrentSec. intros H. apply bind_Some in H as ([] & w1 & E & H).
  apply closed_refresh in E. unfold mbind, M_bind, call in H. pose proof (closed_load w1) as L.
  destruct (load_time w1). cbn in *. injection H as <- <-. congruence.
Qed.

Lemma closed_Msec b w t w' : GetCurrentMsec b w = Some (t, w') -> closed w' = closed w.
Proof.
  unfold GetCurrentMsec. intros H. apply bind_Some in H as ([] & w1 & E & H).
  apply closed_refresh in E. unfold mbind, M_bind, call in H. pose proof (closed_load w1) as L.
  destruct (load_time w1). cbn in *. injection H as <- <-. congruence.
Qed.

End IOHelper.

(** A small world for concrete runs: descriptors are handed out in order,
    connections complete at once, idle connections are open unless listed as
    dead, the clock stands still. *)
Record SmallNet := mkNet { next_fd : Z; closed_fds : list Z; dead_fds : list Z; time_us : Z }.

#[global] Instance small_sock : Sock SmallNet := {
  CreateSocket _ w := (next_fd w, mkNet (next_fd w + 1) (closed_fds w) (dead_fds w) (time_us w));
  sys_connect _ _ w := ((0, 0), w);
  sys_recv1 fd w := (if decide (fd ∈ dead_fds w) then (0, 0) else (-1, EAGAIN), w);
  sys_close fd w := mkNet (next_fd w) (closed_fds w ++ [fd]) (dead_fds w) (time_us w);
}.
#[global] Instance small_clock : Clock SmallNet := {
  load_time w := (time_us w, w);
  store_time t w := mkNet (next_fd w) (closed_fds w) (dead_fds w) t;
  gettimeofday w := (time_us w, w);
}.
#[global] Instance small_clock_laws : ClockLaws SmallNet.
Proof. refine {| time_ := time_us |}; cbn; intros; lia. Defined.
#[global] Instance small_spec : SockSpec SmallNet.
Proof. by refine {| closed := closed_fds |}. Defined.

End IOHelper.
