(* ===== verification/Model.v ===== *)
(** * Model: remotes, services, talks

    Models src/src/model.h, error_no.h and local_limits.h: the configuration
    data a request works on and the state of one conversation with a
    service. *)

From Stdlib Require Import ZArith Lia Ascii String.
From stdpp Require Import base list strings numbers.
From S2P Require Import Prelude Protocol Hashmap.

Module ErrorNo.
Definition kOk : Z := 0.
Definition kPartial : Z := -1.
Definition kTimeout : Z := -2.
Definition kIO : Z := -3.
Definition kBroken : Z := -4.
Definition kEncode : Z := -5.
Definition kDecode : Z := -6.
Definition kSwapCtx : Z := -7.
Definition kQueueBusy : Z := -8.
Definition kNotFound : Z := -9.
Definition kOther : Z := -100.
End ErrorNo.

Module Model.

Definition kNumRemotes : nat := 1000.

Record Remote := mkRemote {
  r_addr : Protocol.Addr;
  weight : Z;
  long_conns : Z;
  ctimeo_ms : Z;
  rtimeo_ms : Z;
  wtimeo_ms : Z;
}.
#[global] Instance Remote_eq_dec : EqDecision Remote.
Proof. solve_decision. Defined.

(** [HashRemote]: [std::tr1::hash<size_t>] is the identity. *)
Definition HashRemote (r : Remote) : Z :=
  u64 (Z.shiftl (Protocol.sin_port (r_addr r)) 32 + Protocol.s_addr (r_addr r)).

Definition EqRemote (l r : Remote) : bool :=
  (Protocol.s_addr (r_addr l) =? Protocol.s_addr (r_addr r))
  && (Protocol.sin_port (r_addr l) =? Protocol.sin_port (r_addr r)).

(** [Remote::operator=] copies everything but the family of the address. *)
Definition Remote_assign (self other : Remote) : Remote :=
  {| r_addr := {| Protocol.sin_family := Protocol.sin_family (r_addr self);
                  Protocol.s_addr := Protocol.s_addr (r_addr other);
                  Protocol.sin_port := Protocol.sin_port (r_addr other) |};
     weight := weight other; long_conns := long_conns other;
     ctimeo_ms := ctimeo_ms other; rtimeo_ms := rtimeo_ms other; wtimeo_ms := wtimeo_ms other |}.

#[global] Instance remote_key : HashKey Remote := {| key_equal := EqRemote; hash := HashRemote |}.

Lemma EqRemote_spec l r : EqRemote l r = true <->
  Protocol.s_addr (r_addr l) = Protocol.s_addr (r_addr r) /\
  Protocol.sin_port (r_addr l) = Protocol.sin_port (r_addr r).
Proof. unfold EqRemote. by rewrite andb_true_iff, !Z.eqb_eq. Qed.

#[global] Instance remote_key_laws : HashKeyLaws Remote.
Proof.
  split; cbn.
  - intros. by apply EqRemote_spec.
  - intros ? ? [? ?]%EqRemote_spec. by apply EqRemote_spec.
  - intros ? ? ? [A B]%EqRemote_spec [C D]%EqRemote_spec. apply EqRemote_spec. split; congruence.
  - intros ? ? [E1 E2]%EqRemote_spec. unfold HashRemote. by rewrite E1, E2.
Qed.

Inductive Strategy := kNormal | kWeight | kInvalidStrategy.
Definition kDefaultStrategy : Strategy := kWeight.
Definition GetServiceStrategy (s : string) : Strategy :=
  if decide (s = "normal"%string) then kNormal
  else if decide (s = "weight"%string) then kWeight
  else kInvalidStrategy.

Record Service := mkService {
  no : Z;
  s_name : string;
  protocol_category : Protocol.Category;
  service_strategy : Strategy;
  remotes : list Remote;
  weight_all : Z;
  s_retry : Z;
}.

Inductive TypeSession := kServiceSet | kService | kRemote | kInvalidSession.

Inductive TalkCategory := kWriteOnly | kReadOnly | kWriteAndRead.
Inductive TalkStatus := kStart | kConn | kRead | kWrite | kClose | kEnd.
#[global] Instance TalkCategory_eq_dec : EqDecision TalkCategory.
Proof. solve_decision. Defined.
#[global] Instance TalkStatus_eq_dec : EqDecision TalkStatus.
Proof. solve_decision. Defined.

(** Pointers to a [Remote] the program keeps: into the remotes of a service,
    which a loaded configuration does not change, or into the temporary array
    of the connection manager, by index. *)
Inductive RemotePtr := InService (r : Remote) | InTmp (i : nat).

(** Protocol objects are allocated by [PoolProtocols] and referred to by
    pointer. *)
Abbreviation ptr := Z.

Record Talk := mkTalk {
  no_talk : nat;
  category : TalkCategory;
  service : option Service;
  buf : option Protocol.Buf;
  protocol_write : option ptr;
  protocol_read : option ptr;
  starttime_ms : Z;
  endtime_ms : Z;
  status : TalkStatus;
  error : Z;
  fail_remotes : list Remote;
  retry : Z;
  fd : Z;
  remote : option RemotePtr;
}.

End Model.
