(* ===== verification/ConnsMgr.v ===== *)
(** * ConnsMgr: connections to remotes, their health and their selection

    Models src/src/conns_mgr/: [PoolConnsPerRemote] keeps the idle long
    connections of one remote and its health mark; [ConnsMgr] owns one pool
    per remote in a [CloseHashmap], keeps the set of unhealthy remotes and
    selects the remote a talk is sent to.  The seeds of the random numbers are
    static variables of the functions, shared by the managers of all agents: a
    manager has fields for what it reads and writes there, no theorem assumes
    anything of their values, and in Runs.v a step of the other agents sets them
    to anything. *)

From Stdlib Require Import ZArith Lia Ascii String.
From stdpp Require Import base list gmap numbers.
From S2P Require Import Prelude Protocol Hashmap IOHelper Model.
Import Model.

(** [rand_r]: the number drawn from a seed and the next seed. *)
Class Rand : Type := { rand_r : Z -> Z * Z }.
Class RandLaws `{!Rand} : Prop := { rand_r_nonneg s : 0 <= (rand_r s).1 < 2 ^ 31 }.

Module Pool.

Definition kDefaultMaxFd : nat := Z.to_nat 10240.
Definition kFullMarkHealth : Z := 100.

Record PoolConnsPerRemote := mkPool {
  remote_ : Remote;
  long_conn_keepalive_sec_ : Z;
  health_mark_ : Z;
  fds_ : list Z;
  expiretime_sec_ : list Z;
}.

Definition Pool_new (r : Remote) (keepalive : Z) : PoolConnsPerRemote :=
  {| remote_ := r; long_conn_keepalive_sec_ := keepalive; health_mark_ := kFullMarkHealth;
     fds_ := []; expiretime_sec_ := replicate kDefaultMaxFd 0 |}.

Definition SetNumLongConnsPerRemote (p : PoolConnsPerRemote) (n : Z) : PoolConnsPerRemote :=
  let r := remote_ p in
  {| remote_ := {| r_addr := r_addr r; weight := weight r; long_conns := n;
                   ctimeo_ms := ctimeo_ms r; rtimeo_ms := rtimeo_ms r; wtimeo_ms := wtimeo_ms r |};
     long_conn_keepalive_sec_ := long_conn_keepalive_sec_ p; health_mark_ := health_mark_ p;
     fds_ := fds_ p; expiretime_sec_ := expiretime_sec_ p |}.

Definition GetNumLongConnsPerRemote (p : PoolConnsPerRemote) : Z := long_conns (remote_ p).

Definition ReportMark (mark : Z) (status : bool) : Z :=
  if status then Z.min (u64 (Z.shiftl mark 1)) kFullMarkHealth else Z.max (Z.shiftr mark 1) 1.

Definition PoolReportStatus (p : PoolConnsPerRemote) (status : bool) : PoolConnsPerRemote :=
  {| remote_ := remote_ p; long_conn_keepalive_sec_ := long_conn_keepalive_sec_ p;
     health_mark_ := ReportMark (health_mark_ p) status;
     fds_ := fds_ p; expiretime_sec_ := expiretime_sec_ p |}.

Definition IsHealthy (p : PoolConnsPerRemote) : bool := kFullMarkHealth =? health_mark_ p.

Definition with_fds (p : PoolConnsPerRemote) (fds ex : list Z) : PoolConnsPerRemote :=
  {| remote_ := remote_ p; long_conn_keepalive_sec_ := long_conn_keepalive_sec_ p;
     health_mark_ := health_mark_ p; fds_ := fds; expiretime_sec_ := ex |}.

(** *** Health marks *)

Definition good_mark (h : Z) : Prop := 1 <= h <= kFullMarkHealth.

Lemma ReportMark_good h status : good_mark h -> good_mark (ReportMark h status).
Proof.
  unfold good_mark, ReportMark, kFullMarkHealth. intros H. destruct status.
  - rewrite Z.shiftl_mul_pow2, (uwrap_small 64) by (try lia; unfold in_uint; lia). lia.
  - rewrite Z.shiftr_div_pow2 by lia. change (2 ^ 1) with 2.
    pose proof (Z.div_le_upper_bound h 2 100). lia.
Qed.

Lemma ReportMark_ok h : good_mark h -> ReportMark h true = Z.min (2 * h) kFullMarkHealth.
Proof.
  unfold good_mark, ReportMark, kFullMarkHealth. intros H.
  rewrite Z.shiftl_mul_pow2, (uwrap_small 64) by (try lia; unfold in_uint; lia). lia.
Qed.

(** The mark after a list of reports. *)
Definition marks (h : Z) (reports : list bool) : Z := fold_left ReportMark reports h.

Lemma marks_good reports : forall h, good_mark h -> good_mark (marks h reports).
Proof.
  induction reports as [|b l IH]; intros h H; [done|]. cbn. by apply IH, ReportMark_good.
Qed.

Lemma marks_success n : forall h, good_mark h ->
  marks h (repeat true n) = Z.min (2 ^ Z.of_nat n * h) kFullMarkHealth.
Proof.
  induction n as [|n IH]; intros h H.
  - cbn. unfold good_mark in *. lia.
  - cbn [repeat marks fold_left]. rewrite ReportMark_ok by done.
    fold (marks (Z.min (2 * h) kFullMarkHealth) (repeat true n)).
    rewrite IH by (unfold good_mark, kFullMarkHealth in *; lia).
    rewrite Nat2Z.inj_succ, Z.pow_succ_r by lia. unfold good_mark, kFullMarkHealth in *.
    pose proof (Z.pow_pos_nonneg 2 (Z.of_nat n)). nia.
Qed.

(** C22: whatever has been reported about a remote since it was configured, its
    health mark is between 1 and 100, and seven successes in a row make it
    healthy again, while any failure of a healthy remote makes it unhealthy. *)
Theorem health_recovers reports :
  good_mark (marks kFullMarkHealth reports) /\
  (forall n, (7 <= n)%nat -> marks kFullMarkHealth (reports ++ repeat true n) = kFullMarkHealth) /\
  marks kFullMarkHealth (reports ++ [false]) < kFullMarkHealth.
Proof.
  assert (good_mark (marks kFullMarkHealth reports)) as G
    by (apply marks_good; unfold good_mark, kFullMarkHealth; lia).
  split_and!; [done| |].
  - intros n Hn. unfold marks at 1. rewrite fold_left_app.
    fold (marks kFullMarkHealth reports) (marks (marks kFullMarkHealth reports) (repeat true n)).
    rewrite marks_success by done. unfold good_mark, kFullMarkHealth in *.
    assert (2 ^ 7 <= 2 ^ Z.of_nat n) by (apply Z.pow_le_mono_r; lia). nia.
  - unfold marks at 1. rewrite fold_left_app. fold (marks kFullMarkHealth reports). cbn.
    unfold good_mark, ReportMark, kFullMarkHealth in *. rewrite Z.shiftr_div_pow2 by lia.
    pose proof (Z.div_le_upper_bound (marks 100 reports) (2 ^ 1) 50). lia.
Qed.

Section IO.
Context {W : Type} `{!Sock W, !Clock W} {FU : Protocol.Fuel}.

(** [Get]: an idle connection that is still open, otherwise a new one; the
    flag says that no connection event is needed. *)
Definition PoolGet (p : PoolConnsPerRemote) : M W (Z * bool * PoolConnsPerRemote) :=
  let connect (p : PoolConnsPerRemote) : M W (Z * bool * PoolConnsPerRemote) :=
    '(fd, b) ← IOHelper.Connect (r_addr (remote_ p)); mret (fd, b, p) in
  match list.last (fds_ p) with
  | None => connect p
  | Some fd =>
      let p := with_fds p (removelast (fds_ p)) (expiretime_sec_ p) in
      if fd =? 0 then connect p
      else
        ok ← IOHelper.CheckConn fd;
        if (ok : bool) then mret (fd, true, p) else IOHelper.Close fd;; connect p
  end.

Definition num_fds (p : PoolConnsPerRemote) : Z := Z.of_nat (length (fds_ p)).

Definition grow (ex : list Z) (fd : Z) : list Z :=
  if Z.of_nat (length ex) <=? fd then ex ++ replicate (Z.to_nat (fd + 1) - length ex) 0 else ex.

Definition Put (p : PoolConnsPerRemote) (fd : Z) : M W PoolConnsPerRemote :=
  if long_conns (remote_ p) <=? num_fds p then IOHelper.Close fd;; mret p
  else
    let p := with_fds p (fds_ p) (grow (expiretime_sec_ p) fd) in
    if num_fds p <? long_conns (remote_ p) then
      e ← (if fd <? 0 then ub else deref (expiretime_sec_ p !! Z.to_nat fd));
      if negb (e =? 0) then
        now ← IOHelper.GetCurrentSec false;
        if now <? e then mret (with_fds p (fds_ p ++ [fd]) (expiretime_sec_ p))
        else
          IOHelper.Close fd;;
          mret (with_fds p (fds_ p) (<[Z.to_nat fd := 0]> (expiretime_sec_ p)))
      else
        now ← IOHelper.GetCurrentSec false;
        mret (with_fds p (fds_ p ++ [fd])
          (<[Z.to_nat fd := now + long_conn_keepalive_sec_ p]> (expiretime_sec_ p)))
    else IOHelper.Close fd;; mret p.

Context `{!SockSpec W}.

Lemma grow_lookup ex fd : 0 <= fd -> exists e, grow ex fd !! Z.to_nat fd = Some e.
Proof.
  intros H. unfold grow. apply lookup_lt_is_Some_2. destruct (Z.leb_spec (Z.of_nat (length ex)) fd); [|lia].
  rewrite length_app, length_replicate. lia.
Qed.

(** The connection given to [Put] is stored or closed, never both and never
    lost, and the pool does not outgrow its limit. *)
Lemma Put_once p fd w : 0 <= fd -> exists p' w', Put p fd w = Some (p', w') /\
  remote_ p' = remote_ p /\ health_mark_ p' = health_mark_ p /\
  ((fds_ p' = fds_ p ++ [fd] /\ closed w' = closed w /\ num_fds p' <= long_conns (remote_ p)) \/
   (fds_ p' = fds_ p /\ closed w' = closed w ++ [fd])).
Proof.
  intros Hfd. unfold Put. destruct (Z.leb_spec (long_conns (remote_ p)) (num_fds p)) as [L|L].
  - eexists _, _. split; [done|]. rewrite closed_close. auto.
  - change (num_fds (with_fds p (fds_ p) (grow (expiretime_sec_ p) fd))) with (num_fds p).
    cbn [remote_ with_fds expiretime_sec_ fds_]. rewrite (proj2 (Z.ltb_lt _ _)) by done.
    rewrite (proj2 (Z.ltb_ge fd 0)) by done.
    destruct (grow_lookup (expiretime_sec_ p) fd Hfd) as [e He]. rewrite He.
    assert (forall q, fds_ q = fds_ p ++ [fd] -> num_fds q <= long_conns (remote_ p)) as NB.
    { intros q Hq. unfold num_fds in *. rewrite Hq, length_app. cbn. lia. }
    unfold deref. rewrite (bind_run _ _ w e w) by done.
    destruct (IOHelper.GetCurrentSec_run false w) as (t & w1 & E). pose proof (IOHelper.closed_Sec _ _ _ _ E) as C.
    destruct (e =? 0); cbn [negb]; rewrite (bind_run _ _ _ _ _ E).
    + eexists _, _. split; [done|]. cbn. split_and!; [done|done|]. left. split_and!; [done|done|by apply NB].
    + destruct (t <? e).
      * eexists _, _. split; [done|]. cbn. split_and!; [done|done|]. left. split_and!; [done|done|by apply NB].
      * eexists _, _. split; [done|]. cbn. rewrite closed_close, C. auto.
Qed.

End IO.
End Pool.

Module ConnsMgr.
Import Pool.

Record ConnsMgr := mkConnsMgr {
  keepalive_sec_ : Z;
  conns_ : Hashmap.CloseHashmap Remote ptr;
  pools : gmap Z PoolConnsPerRemote;
  next_pool : ptr;
  unhealthy_guys_ : list Remote;
  tmp_remotes_ : list Remote;
  tmp_weights_ : list Z;
  seed_normal : Z;
  seed_weight : Z;
}.

Definition set_conns (m : ConnsMgr) (c : Hashmap.CloseHashmap Remote ptr) (ps : gmap Z PoolConnsPerRemote)
    (next : ptr) (un : list Remote) : ConnsMgr :=
  {| keepalive_sec_ := keepalive_sec_ m; conns_ := c; pools := ps; next_pool := next;
     unhealthy_guys_ := un; tmp_remotes_ := tmp_remotes_ m; tmp_weights_ := tmp_weights_ m;
     seed_normal := seed_normal m; seed_weight := seed_weight m |}.

(** Write through a pool pointer. *)
Definition set_pool (m : ConnsMgr) (q : ptr) (p : PoolConnsPerRemote) : ConnsMgr :=
  set_conns m (conns_ m) (<[q := p]> (pools m)) (next_pool m) (unhealthy_guys_ m).

Definition set_unhealthy (m : ConnsMgr) (un : list Remote) : ConnsMgr :=
  set_conns m (conns_ m) (pools m) (next_pool m) un.

Definition set_tmp (m : ConnsMgr) (tr : list Remote) (tw : list Z) (sn sw : Z) : ConnsMgr :=
  {| keepalive_sec_ := keepalive_sec_ m; conns_ := conns_ m; pools := pools m;
     next_pool := next_pool m; unhealthy_guys_ := unhealthy_guys_ m;
     tmp_remotes_ := tr; tmp_weights_ := tw; seed_normal := sn; seed_weight := sw |}.

Definition ConnsMgr_new (keepalive : Z) (size : nat) : option ConnsMgr :=
  c ← Hashmap.Init size;
  Some {| keepalive_sec_ := keepalive; conns_ := c; pools := ∅; next_pool := 1;
          unhealthy_guys_ := []; tmp_remotes_ := []; tmp_weights_ := [];
          seed_normal := 0; seed_weight := 0 |}.

(** [std::tr1::unordered_set] with [EqRemote]. *)
Definition set_mem (l : list Remote) (r : Remote) : bool := existsb (fun x => EqRemote x r) l.
Definition set_insert (l : list Remote) (r : Remote) : list Remote :=
  if set_mem l r then l else r :: l.
Definition set_erase (l : list Remote) (r : Remote) : list Remote :=
  filter (fun x => EqRemote x r = false) l.

(** [new PoolConnsPerRemote] and [conns_.Insert]. *)
Definition new_pool (m : ConnsMgr) (r : Remote) : ptr * ConnsMgr :=
  let q := next_pool m in
  let c := (Hashmap.Insert (conns_ m) r q).2 in
  (q, set_conns m c (<[q := Pool_new r (keepalive_sec_ m)]> (pools m)) (q + 1) (unhealthy_guys_ m)).

(** ** ConfigRemotes *)

Definition ConfigRemote1 (m : ConnsMgr) (r : Remote) : option ConnsMgr :=
  '(q, m) ← match Hashmap.Get (conns_ m) r with
            | Some q => Some (q, m)
            | None =>
                let m := (new_pool m r).2 in
                q ← Hashmap.Get (conns_ m) r; Some (q, m)
            end;
  p ← pools m !! q;
  Some (set_pool m q (SetNumLongConnsPerRemote p (long_conns r))).

Definition ConfigErase1 (m : ConnsMgr) (remotes : list Remote) (pos : nat) : option ConnsMgr :=
  r ← Hashmap.item_key (Hashmap.item_at (conns_ m) (Z.of_nat pos));
  if set_mem remotes r then Some m
  else
    q ← Hashmap.Get (conns_ m) r;
    Some (set_conns m (Hashmap.Erase (conns_ m) r).2 (delete q (pools m)) (next_pool m)
            (set_erase (unhealthy_guys_ m) r)).

Fixpoint ConfigErase_loop (n : nat) (m : ConnsMgr) (remotes : list Remote) (pos : nat) : option ConnsMgr :=
  match n with
  | O => None
  | S n =>
      if Hashmap.IsEnd (conns_ m) pos then Some m
      else
        m ← ConfigErase1 m remotes pos;
        ConfigErase_loop n m remotes (Hashmap.Next (conns_ m) pos)
  end.

Fixpoint ConfigInsert_loop (m : ConnsMgr) (remotes : list Remote) : option ConnsMgr :=
  match remotes with
  | [] => Some m
  | r :: rs => m ← ConfigRemote1 m r; ConfigInsert_loop m rs
  end.

Definition ConfigRemotes (m : ConnsMgr) (remotes : list Remote) : option ConnsMgr :=
  m ← ConfigInsert_loop m remotes;
  ConfigErase_loop (S (length (Hashmap.items_ (conns_ m)))) m remotes (Hashmap.Begin (conns_ m)).

(** ** Health *)

Definition IsHealthy_ (m : ConnsMgr) (r : Remote) : bool := negb (set_mem (unhealthy_guys_ m) r).
Definition FailedBefore_ (r : Remote) (fail_remotes : list Remote) : bool :=
  existsb (fun x => EqRemote r x) fail_remotes.

Definition ReportStatus (m : ConnsMgr) (r : Remote) (status : bool) : option ConnsMgr :=
  match Hashmap.Get (conns_ m) r with
  | None => Some m
  | Some q =>
      p ← pools m !! q;
      let old_status := IsHealthy p in
      let p := PoolReportStatus p status in
      let new_status := IsHealthy p in
      let m := set_pool m q p in
      Some (if old_status && negb new_status then set_unhealthy m (set_insert (unhealthy_guys_ m) r)
            else if negb old_status && new_status then set_unhealthy m (set_erase (unhealthy_guys_ m) r)
            else m)
  end.

(** ** Selection *)

(** The loop over the weights: the first index whose running sum, an [int],
    is above the random number. *)
Fixpoint pick (ws : list Z) (weight random : Z) (i : nat) : option nat :=
  match ws with
  | [] => None
  | w :: ws =>
      let weight := i32 (u64 (weight + w)) in
      if random <? weight then Some i else pick ws weight random (S i)
  end.

Section Select.
Context `{!Rand}.

(** [rand_r(&seed) % n]: undefined for [n = 0]. *)
Definition rand_mod (seed n : Z) : option (Z * Z) :=
  if n =? 0 then None else let '(v, seed') := rand_r seed in Some (v mod n, seed').

Definition GetRemoteNormal_ (m : ConnsMgr) (s : Service) (fail_remotes : list Remote)
  : option (option RemotePtr * ConnsMgr) :=
  match List.find (fun r => IsHealthy_ m r && negb (FailedBefore_ r fail_remotes)) (remotes s) with
  | Some r => Some (Some (InService r), m)
  | None =>
      '(v, seed) ← rand_mod (seed_normal m) (Z.of_nat (length (remotes s)));
      r ← remotes s !! Z.to_nat v;
      Some (Some (InService r), set_tmp m (tmp_remotes_ m) (tmp_weights_ m) seed (seed_weight m))
  end.

(** The weight of a remote times its health mark. *)
Definition health_weight (m : ConnsMgr) (r : Remote) : option Z :=
  q ← Hashmap.Get (conns_ m) r;
  p ← pools m !! q;
  Some (u64 (weight r * health_mark_ p)).

Fixpoint health_weights (m : ConnsMgr) (rs : list Remote) : option (list Z) :=
  match rs with
  | [] => Some []
  | r :: rs => w ← health_weight m r; ws ← health_weights m rs; Some (w :: ws)
  end.

Definition sum_u64 (ws : list Z) : Z := fold_left (fun acc w => u64 (acc + w)) ws 0.

Definition GetRemoteWeight_ (m : ConnsMgr) (s : Service) (fail_remotes : list Remote)
  : option (option RemotePtr * ConnsMgr) :=
  match unhealthy_guys_ m with
  | [] =>
      '(random, seed) ← rand_mod (seed_weight m) (weight_all s);
      let m := set_tmp m (tmp_remotes_ m) (tmp_weights_ m) (seed_normal m) seed in
      match pick (map weight (remotes s)) 0 (i32 random) 0 with
      | Some i => r ← remotes s !! i; Some (Some (InService r), m)
      | None => Some (None, m)
      end
  | _ =>
      let rs := filter (fun r => FailedBefore_ r fail_remotes = false) (remotes s) in
      ws ← health_weights m rs;
      let m := set_tmp m rs ws (seed_normal m) (seed_weight m) in
      if decide (ws = []) then
        '(v, seed) ← rand_mod (seed_weight m) (Z.of_nat (length (remotes s)));
        r ← remotes s !! Z.to_nat v;
        Some (Some (InService r), set_tmp m rs ws (seed_normal m) seed)
      else
        '(random, seed) ← rand_mod (seed_weight m) (sum_u64 ws);
        let m := set_tmp m rs ws (seed_normal m) seed in
        match pick ws 0 (i32 random) 0 with
        | Some i => Some (Some (InTmp i), m)
        | None => Some (None, m)
        end
  end.

Definition GetRemote_ (m : ConnsMgr) (s : Service) (fail_remotes : list Remote)
  : option (option RemotePtr * ConnsMgr) :=
  match service_strategy s with
  | kNormal => GetRemoteNormal_ m s fail_remotes
  | kWeight => GetRemoteWeight_ m s fail_remotes
  | kInvalidStrategy => Some (None, m)
  end.

(** [*remote]: a pointer into the temporary array sees what it holds now. *)
Definition deref_remote (m : ConnsMgr) (r : RemotePtr) : option Remote :=
  match r with InService r => Some r | InTmp i => tmp_remotes_ m !! i end.

Section IO.
Context {W : Type} `{!Sock W, !Clock W} {FU : Protocol.Fuel}.

Definition GetFd_ (m : ConnsMgr) (r : Remote) : M W (Z * bool * ConnsMgr) :=
  let '(q, m) := match Hashmap.Get (conns_ m) r with
                 | Some q => (q, m)
                 | None => new_pool m r
                 end in
  p ← deref (pools m !! q);
  '(fd, b, p) ← PoolGet p;
  mret (fd, b, set_pool m q p).

Definition GetFd (m : ConnsMgr) (s : Service) (fail_remotes : list Remote)
  : M W (Z * bool * RemotePtr * ConnsMgr) :=
  '(sel, m) ← deref (GetRemote_ m s fail_remotes);
  rp ← deref sel;
  r ← deref (deref_remote m rp);
  '(fd, b, m) ← GetFd_ m r;
  mret (fd, b, rp, m).

Definition FreeFd (m : ConnsMgr) (r : Remote) (fd : Z) : M W ConnsMgr :=
  match Hashmap.Get (conns_ m) r with
  | None => IOHelper.Close fd;; mret m
  | Some q =>
      p ← deref (pools m !! q);
      if 0 <? GetNumLongConnsPerRemote p then
        p ← Put p fd; mret (set_pool m q p)
      else IOHelper.Close fd;; mret m
  end.

End IO.
End Select.

(** ** The manager's invariant

    Every remote in the map has a pool of its own with a mark in range, and
    the unhealthy set is exact. *)

Definition mark_of (m : ConnsMgr) (r : Remote) : option Z :=
  q ← Hashmap.Get (conns_ m) r; p ← pools m !! q; Some (health_mark_ p).

Record cm_wf (m : ConnsMgr) : Prop := {
  cw_map : Hashmap.wf (conns_ m);
  cw_pool r q : Hashmap.Get (conns_ m) r = Some q ->
    exists p, pools m !! q = Some p /\ good_mark (health_mark_ p) /\ EqRemote (remote_ p) r = true;
  cw_next q : is_Some (pools m !! q) -> q < next_pool m;
  cw_unhealthy r : set_mem (unhealthy_guys_ m) r = true <->
    exists h, mark_of m r = Some h /\ h <> kFullMarkHealth;
}.

Lemma EqRemote_sym a b : EqRemote a b = EqRemote b a.
Proof. unfold EqRemote. by rewrite (Z.eqb_sym (Protocol.s_addr _)), (Z.eqb_sym (Protocol.sin_port _)). Qed.

Lemma EqRemote_trans a b c : EqRemote a b = true -> EqRemote b c = true -> EqRemote a c = true.
Proof. exact (key_equal_trans (K := Remote) a b c). Qed.

Lemma EqRemote_l a b c : EqRemote a b = true -> EqRemote a c = EqRemote b c.
Proof. exact (Hashmap.key_equal_l (K := Remote) a b c). Qed.

Lemma set_mem_equal l r r' : EqRemote r r' = true -> set_mem l r = set_mem l r'.
Proof.
  intros E. unfold set_mem. induction l as [|x l IH]; [done|]. cbn. rewrite IH.
  by rewrite (EqRemote_sym x r), (EqRemote_sym x r'), (EqRemote_l r r' x E).
Qed.

Lemma set_mem_insert l r r' : set_mem (set_insert l r) r' = EqRemote r r' || set_mem l r'.
Proof.
  unfold set_insert. destruct (set_mem l r) eqn:M; [|done].
  destruct (EqRemote r r') eqn:E; [|done]. by rewrite <- (set_mem_equal l r r' E).
Qed.

Lemma set_mem_erase l r r' : set_mem (set_erase l r) r' = negb (EqRemote r r') && set_mem l r'.
Proof.
  unfold set_erase. induction l as [|x l IH]; [by rewrite andb_false_r|]. rewrite filter_cons.
  case_decide as D; cbn [set_mem existsb] in *.
  - fold (set_mem (filter (λ x, EqRemote x r = false) l) r'). rewrite IH.
    destruct (EqRemote x r') eqn:E; [|done]. destruct (EqRemote r r') eqn:E'; [|done].
    rewrite EqRemote_sym in E'. by rewrite (EqRemote_trans x r' r E E') in D.
  - fold (set_mem (filter (λ x, EqRemote x r = false) l) r'). rewrite IH.
    destruct (EqRemote x r) eqn:E; [|done]. destruct (EqRemote x r') eqn:E'; [|done].
    rewrite (EqRemote_l x r r' E) in E'. by rewrite E'.
Qed.

(** Pools are not shared. *)
Lemma pool_owner m r r' q : cm_wf m ->
  Hashmap.Get (conns_ m) r = Some q -> Hashmap.Get (conns_ m) r' = Some q -> EqRemote r r' = true.
Proof.
  intros Hw H1 H2. destruct (cw_pool m Hw r q H1) as (p & P1 & _ & P2).
  destruct (cw_pool m Hw r' q H2) as (p' & P1' & _ & P2'). rewrite P1 in P1'. injection P1' as <-.
  rewrite EqRemote_sym in P2. by eapply EqRemote_trans.
Qed.

(** Writing to the pool of [r]: marks of other remotes are unchanged. *)
Lemma mark_of_set_pool m r q p r' : cm_wf m -> Hashmap.Get (conns_ m) r = Some q ->
  mark_of (set_pool m q p) r' = if EqRemote r r' then Some (health_mark_ p) else mark_of m r'.
Proof.
  intros Hw Hq. unfold mark_of. cbn [conns_ set_pool set_conns pools].
  destruct (EqRemote r r') eqn:E.
  - rewrite <- (Hashmap.Get_equal _ r r' (cw_map m Hw) E), Hq. cbn. by rewrite lookup_insert_eq.
  - destruct (Hashmap.Get (conns_ m) r') as [q'|] eqn:G; [|done]. cbn.
    rewrite lookup_insert_ne; [done|]. intros <-. by rewrite (pool_owner m r r' q Hw Hq G) in E.
Qed.

(** A write that keeps the unhealthy set exact for [r]. *)
Lemma set_pool_wf m r q p p' un : cm_wf m -> Hashmap.Get (conns_ m) r = Some q ->
  pools m !! q = Some p -> good_mark (health_mark_ p') -> EqRemote (remote_ p') (remote_ p) = true ->
  (forall r', EqRemote r r' = false -> set_mem un r' = set_mem (unhealthy_guys_ m) r') ->
  (forall r', EqRemote r r' = true -> set_mem un r' = true <-> health_mark_ p' <> kFullMarkHealth) ->
  cm_wf (set_unhealthy (set_pool m q p') un).
Proof.
  intros Hw Hq Hp Hm Hr Hun1 Hun2. split.
  - apply Hw.
  - intros r' q' Hq'. cbn in Hq' |- *. destruct (decide (q = q')) as [<-|N].
    + rewrite lookup_insert_eq. eexists. split_and!; [done|done|].
      destruct (cw_pool m Hw r' q Hq') as (p2 & P1 & _ & P2). rewrite Hp in P1. injection P1 as <-.
      by eapply EqRemote_trans.
    + rewrite lookup_insert_ne by done. by apply Hw.
  - intros q'. cbn. destruct (decide (q = q')) as [<-|N].
    + intros _. apply (cw_next m Hw). by eexists.
    + rewrite lookup_insert_ne by done. apply Hw.
  - intros r'. change (mark_of (set_unhealthy (set_pool m q p') un) r') with (mark_of (set_pool m q p') r').
    rewrite (mark_of_set_pool m r q p' r' Hw Hq). cbn [unhealthy_guys_ set_unhealthy set_conns].
    destruct (EqRemote r r') eqn:E.
    + rewrite Hun2 by done. split; [eauto|]. by intros (h & [= <-] & ?).
    + rewrite Hun1 by done. apply Hw.
Qed.

Lemma ReportStatus_spec m r status : cm_wf m -> exists m', ReportStatus m r status = Some m' /\
  cm_wf m' /\ conns_ m' = conns_ m /\ tmp_remotes_ m' = tmp_remotes_ m /\
  (forall r', mark_of m' r' = if EqRemote r r' then (fun h => ReportMark h status) <$> mark_of m r' else mark_of m r').
Proof.
  intros Hw. unfold ReportStatus. destruct (Hashmap.Get (conns_ m) r) as [q|] eqn:G.
  2: { exists m. split_and!; try done. intros r'. destruct (EqRemote r r') eqn:E; [|done].
       unfold mark_of. by rewrite <- (Hashmap.Get_equal _ r r' (cw_map m Hw) E), G. }
  destruct (cw_pool m Hw r q G) as (p & P1 & P2 & P3). rewrite P1. cbn [mbind option_bind].
  set (p' := PoolReportStatus p status). eexists. split; [done|].
  assert (forall r', EqRemote r r' = true -> mark_of m r' = Some (health_mark_ p)) as M0.
  { intros r' E. unfold mark_of. rewrite <- (Hashmap.Get_equal _ r r' (cw_map m Hw) E), G. cbn. by rewrite P1. }
  assert (forall r', EqRemote r r' = true ->
    set_mem (unhealthy_guys_ m) r' = true <-> health_mark_ p <> kFullMarkHealth) as U0.
  { intros r' E. rewrite (cw_unhealthy m Hw r'), (M0 r' E). naive_solver. }
  assert (forall un, (forall r', mark_of (set_unhealthy (set_pool m q p') un) r' =
    if EqRemote r r' then (fun h => ReportMark h status) <$> mark_of m r' else mark_of m r')) as MM.
  { intros un r'. change (mark_of (set_unhealthy _ un) r') with (mark_of (set_pool m q p') r').
    rewrite (mark_of_set_pool m r q p' r' Hw G). destruct (EqRemote r r') eqn:E; [|done].
    by rewrite (M0 r' E). }
  assert (good_mark (health_mark_ p')) as G' by (by apply ReportMark_good).
  assert (EqRemote (remote_ p') (remote_ p) = true) as R' by (by apply EqRemote_spec).
  assert (forall b, IsHealthy b = true <-> health_mark_ b = kFullMarkHealth) as IH.
  { intros b. unfold IsHealthy. rewrite Z.eqb_eq. done. }
  destruct (IsHealthy p) eqn:E1, (IsHealthy p') eqn:E2; cbn [andb negb].
  all: try apply IH in E1; try apply IH in E2.
  all: try (assert (health_mark_ p <> kFullMarkHealth) by (by intros ?%IH; congruence)).
  all: try (assert (health_mark_ p' <> kFullMarkHealth) by (by intros ?%IH; congruence)).
  - assert (set_pool m q p' = set_unhealthy (set_pool m q p') (unhealthy_guys_ m)) as -> by (by destruct m).
    split_and!; try done. apply (set_pool_wf m r q p); try done. intros r' E. rewrite U0 by done. tauto.
  - split_and!; try done. apply (set_pool_wf m r q p); try done; intros r' E; rewrite set_mem_insert, E; done.
  - split_and!; try done. apply (set_pool_wf m r q p); try done; intros r' E; rewrite set_mem_erase, E; cbn; [done|].
    split; [done|tauto].
  - assert (set_pool m q p' = set_unhealthy (set_pool m q p') (unhealthy_guys_ m)) as -> by (by destruct m).
    split_and!; try done. apply (set_pool_wf m r q p); try done. intros r' E. rewrite U0 by done. tauto.
Qed.

(** ** Configuration *)

Lemma mark_of_None m r : cm_wf m -> Hashmap.Get (conns_ m) r = None <-> mark_of m r = None.
Proof.
  intros Hw. unfold mark_of. destruct (Hashmap.Get (conns_ m) r) as [q|] eqn:G; [|done].
  destruct (cw_pool m Hw r q G) as (p & P & _). cbn. by rewrite P.
Qed.

Lemma new_pool_fresh m : cm_wf m -> pools m !! next_pool m = None.
Proof.
  intros Hw. destruct (pools m !! next_pool m) eqn:E; [|done].
  pose proof (cw_next m Hw (next_pool m) ltac:(eauto)). lia.
Qed.

Lemma new_pool_spec m r : cm_wf m -> Hashmap.Get (conns_ m) r = None ->
  (Hashmap.Insert (conns_ m) r (next_pool m)).1 = true ->
  let m' := (new_pool m r).2 in
  cm_wf m' /\ Hashmap.Get (conns_ m') r = Some (next_pool m) /\
  pools m' !! next_pool m = Some (Pool_new r (keepalive_sec_ m)) /\
  (forall r', mark_of m' r' = if EqRemote r r' then Some kFullMarkHealth else mark_of m r').
Proof.
  intros Hw G Ok m'. pose proof (new_pool_fresh m Hw) as Fr.
  assert (forall r', Hashmap.Get (conns_ m') r' =
    if EqRemote r r' then Some (next_pool m) else Hashmap.Get (conns_ m) r') as GI.
  { intros r'. rewrite EqRemote_sym. exact (Hashmap.Get_Insert _ r _ r' (cw_map m Hw) Ok). }
  assert (forall q, q <> next_pool m -> pools m' !! q = pools m !! q) as PI
    by (intros q N; cbn; by rewrite lookup_insert_ne).
  assert (pools m' !! next_pool m = Some (Pool_new r (keepalive_sec_ m))) as PN
    by (cbn; by rewrite lookup_insert_eq).
  assert (forall r' q, Hashmap.Get (conns_ m) r' = Some q -> q <> next_pool m) as NQ.
  { intros r' q Hq ->. destruct (cw_pool m Hw r' _ Hq) as (p & P & _). by rewrite Fr in P. }
  assert (forall r', mark_of m' r' = if EqRemote r r' then Some kFullMarkHealth else mark_of m r') as MO.
  { intros r'. unfold mark_of. rewrite GI. destruct (EqRemote r r').
    - cbn [mbind option_bind]. by rewrite PN.
    - destruct (Hashmap.Get (conns_ m) r') as [q|] eqn:Gq; [|done]. cbn [mbind option_bind].
      by rewrite PI by (by eapply NQ). }
  split; [|split_and!; [rewrite GI; by rewrite (proj2 (EqRemote_spec r r))|done|done]].
  split.
  - apply (Hashmap.Insert_wf_2 _ r), Hw.
  - intros r' q. rewrite GI. destruct (EqRemote r r') eqn:E.
    + intros [= <-]. rewrite PN. eexists. split_and!; [done|by unfold good_mark, kFullMarkHealth; cbn|done].
    + intros Hq. rewrite PI by (by eapply NQ). by apply Hw.
  - intros q. cbn [next_pool m' new_pool set_conns snd]. destruct (decide (q = next_pool m)) as [->|N]; [lia|].
    rewrite PI by done. intros H. pose proof (cw_next m Hw q H). lia.
  - intros r'. cbn [unhealthy_guys_ m' new_pool set_conns snd]. fold m'. rewrite MO.
    rewrite (cw_unhealthy m Hw r'). destruct (EqRemote r r') eqn:E; [|done].
    assert (mark_of m r' = None) as ->.
    { apply mark_of_None; [done|]. by rewrite <- (Hashmap.Get_equal _ r r' (cw_map m Hw) E). }
    naive_solver.
Qed.

(** A pool changed without touching mark and address. *)
Lemma set_pool_same_mark m r q p p' : cm_wf m -> Hashmap.Get (conns_ m) r = Some q ->
  pools m !! q = Some p -> health_mark_ p' = health_mark_ p -> r_addr (remote_ p') = r_addr (remote_ p) ->
  cm_wf (set_pool m q p') /\ forall r', mark_of (set_pool m q p') r' = mark_of m r'.
Proof.
  intros Hw Hq Hp Hm Hr. destruct (cw_pool m Hw r q Hq) as (p0 & P1 & P2 & P3).
  rewrite Hp in P1. injection P1 as <-.
  assert (forall r', EqRemote r r' = true -> mark_of m r' = Some (health_mark_ p)) as M0.
  { intros r' E. unfold mark_of. rewrite <- (Hashmap.Get_equal _ r r' (cw_map m Hw) E), Hq. cbn. by rewrite Hp. }
  split.
  - assert (set_pool m q p' = set_unhealthy (set_pool m q p') (unhealthy_guys_ m)) as -> by (by destruct m).
    apply (set_pool_wf m r q p); try done; [by rewrite Hm|by apply EqRemote_spec; rewrite Hr|].
    intros r' E. rewrite (cw_unhealthy m Hw r'), (M0 r' E), Hm. naive_solver.
  - intros r'. rewrite (mark_of_set_pool m r q p' r' Hw Hq). destruct (EqRemote r r') eqn:E; [|done].
    by rewrite (M0 r' E), Hm.
Qed.

Definition cfree (m : ConnsMgr) : nat := Hashmap.free (conns_ m).

Lemma coprime_size {V} (m m' : Hashmap.CloseHashmap Remote V) :
  length (Hashmap.items_ m') = length (Hashmap.items_ m) -> Hashmap.coprime_steps m -> Hashmap.coprime_steps m'.
Proof. unfold Hashmap.coprime_steps, Hashmap.size_array_. by intros ->. Qed.

Lemma ConfigRemote1_spec m r : cm_wf m -> Hashmap.coprime_steps (conns_ m) -> (0 < cfree m)%nat ->
  exists m', ConfigRemote1 m r = Some m' /\ cm_wf m' /\ Hashmap.coprime_steps (conns_ m') /\
    (cfree m <= S (cfree m'))%nat /\
    (forall r', mark_of m' r' = if EqRemote r r' then Some (default kFullMarkHealth (mark_of m r')) else mark_of m r').
Proof.
  intros Hw Hc Hf. unfold ConfigRemote1. destruct (Hashmap.Get (conns_ m) r) as [q|] eqn:G.
  - destruct (cw_pool m Hw r q G) as (p & P1 & P2 & P3). cbn [mbind option_bind]. rewrite P1.
    eexists. split; [done|].
    destruct (set_pool_same_mark m r q p (SetNumLongConnsPerRemote p (long_conns r))) as [W M]; try done.
    split_and!; [done|done|unfold cfree; cbn; lia|]. intros r'. rewrite M.
    destruct (EqRemote r r') eqn:E; [|done]. destruct (mark_of m r') eqn:K; [done|].
    apply mark_of_None in K; [|done].
    by rewrite <- (Hashmap.Get_equal _ r r' (cw_map m Hw) E), G in K.
  - pose proof (Hashmap.Insert_ok (conns_ m) r (next_pool m) (cw_map m Hw) Hc Hf G) as Ok.
    destruct (new_pool_spec m r Hw G Ok) as (W & G' & P' & M'). set (m1 := (new_pool m r).2) in *.
    rewrite G'. cbn [mbind option_bind]. rewrite P'. eexists. split; [done|].
    destruct (set_pool_same_mark m1 r (next_pool m) _
      (SetNumLongConnsPerRemote (Pool_new r (keepalive_sec_ m)) (long_conns r)) W G' P') as [W2 M2]; try done.
    split_and!; [done| | |].
    + eapply coprime_size; [|exact Hc]. apply Hashmap.Insert_size.
    + apply (Hashmap.Insert_free (conns_ m) r).
    + intros r'. rewrite M2, M'. destruct (EqRemote r r') eqn:E; [|done].
      assert (mark_of m r' = None) as ->; [|done]. apply mark_of_None; [done|].
      by rewrite <- (Hashmap.Get_equal _ r r' (cw_map m Hw) E).
Qed.

Lemma ConfigInsert_spec rs : forall m, cm_wf m -> Hashmap.coprime_steps (conns_ m) ->
  (length rs <= cfree m)%nat ->
  exists m', ConfigInsert_loop m rs = Some m' /\ cm_wf m' /\
    (forall r, mark_of m' r = if set_mem rs r then Some (default kFullMarkHealth (mark_of m r)) else mark_of m r).
Proof.
  induction rs as [|r rs IH]; intros m Hw Hc Hf; cbn [ConfigInsert_loop]; [by exists m|].
  cbn [length] in Hf.
  destruct (ConfigRemote1_spec m r Hw Hc ltac:(lia)) as (m1 & -> & W1 & C1 & F1 & M1). cbn [mbind option_bind].
  destruct (IH m1 W1 C1 ltac:(lia)) as (m2 & E2 & W2 & M2). exists m2. split_and!; [done|done|].
  intros r'. rewrite M2, M1. cbn [set_mem existsb].
  destruct (EqRemote r r'); cbn [orb]; [|done]. fold (set_mem rs r'). by destruct (set_mem rs r').
Qed.

(** *** Removal of remotes that are not configured any more *)

Lemma ConfigErase1_spec m rs pos k q : cm_wf m ->
  Hashmap.items_ (conns_ m) !! pos = Some (Hashmap.Live k q) ->
  exists m', ConfigErase1 m rs pos = Some m' /\ cm_wf m' /\
    Hashmap.items_ (conns_ m') =
      (if set_mem rs k then Hashmap.items_ (conns_ m)
       else <[pos := Hashmap.Dead k q]> (Hashmap.items_ (conns_ m))) /\
    (forall r, mark_of m' r = if EqRemote k r && negb (set_mem rs k) then None else mark_of m r).
Proof.
  intros Hw Hl. unfold ConfigErase1. rewrite (Hashmap.item_at_lookup _ _ _ Hl). cbn [Hashmap.item_key mbind option_bind].
  destruct (set_mem rs k) eqn:S.
  { exists m. split_and!; try done. intros r. by rewrite andb_false_r. }
  pose proof (Hashmap.Get_live _ _ _ _ (cw_map m Hw) Hl) as G. rewrite G. eexists. split; [done|].
  set (m' := set_conns _ _ _ _ _).
  assert (forall r, Hashmap.Get (conns_ m') r = if EqRemote k r then None else Hashmap.Get (conns_ m) r) as GE.
  { intros r. rewrite EqRemote_sym. exact (Hashmap.Get_Erase _ k r (cw_map m Hw)). }
  assert (forall r q', Hashmap.Get (conns_ m) r = Some q' -> EqRemote k r = false -> q' <> q) as NQ.
  { intros r q' H1 H2 ->. by rewrite (pool_owner m k r q Hw G H1) in H2. }
  assert (forall r, mark_of m' r = if EqRemote k r then None else mark_of m r) as MO.
  { intros r. unfold mark_of. rewrite GE. destruct (EqRemote k r) eqn:E; [done|].
    destruct (Hashmap.Get (conns_ m) r) as [q'|] eqn:Gr; [|done]. cbn.
    by rewrite lookup_delete_ne by (intros ->; by apply (NQ r q' Gr E)). }
  split_and!.
  - split.
    + apply Hashmap.Erase_wf_2, Hw.
    + intros r q'. rewrite GE. destruct (EqRemote k r) eqn:E; [done|]. intros Gr. cbn.
      rewrite lookup_delete_ne by (intros ->; by apply (NQ r q' Gr E)). by apply Hw.
    + intros q'. cbn. intros [p [_ Hp]%lookup_delete_Some]. apply (cw_next m Hw). eauto.
    + intros r. rewrite MO. cbn [unhealthy_guys_ m' set_conns]. rewrite set_mem_erase.
      destruct (EqRemote k r) eqn:E; cbn [negb andb]; [naive_solver|apply Hw].
  - cbn [m' set_conns conns_]. rewrite (Hashmap.Erase_at _ _ _ _ (cw_map m Hw) Hl). cbn. by rewrite Nat2Z.id.
  - intros r. rewrite MO. by rewrite andb_true_r.
Qed.

(** The live slots before [pos] hold configured remotes. *)
Definition clean (m : ConnsMgr) (rs : list Remote) (pos : nat) : Prop :=
  forall i k q, (i < pos)%nat -> Hashmap.items_ (conns_ m) !! i = Some (Hashmap.Live k q) -> set_mem rs k = true.

Definition at_live (m : ConnsMgr) (pos : nat) : Prop :=
  (pos <= length (Hashmap.items_ (conns_ m)))%nat /\
  ((pos < length (Hashmap.items_ (conns_ m)))%nat ->
   exists k q, Hashmap.items_ (conns_ m) !! pos = Some (Hashmap.Live k q)).

Lemma ConfigErase_loop_spec n : forall m rs pos, cm_wf m ->
  (length (Hashmap.items_ (conns_ m)) < n + pos)%nat -> at_live m pos -> clean m rs pos ->
  exists m', ConfigErase_loop n m rs pos = Some m' /\ cm_wf m' /\
    clean m' rs (length (Hashmap.items_ (conns_ m'))) /\
    (forall r, set_mem rs r = true -> mark_of m' r = mark_of m r) /\
    (forall r, mark_of m' r = None \/ mark_of m' r = mark_of m r).
Proof.
  induction n as [|n IH]; intros m rs pos Hw Hn [L1 L2] Cl; [lia|]. cbn [ConfigErase_loop].
  unfold Hashmap.IsEnd. destruct (Nat.eqb_spec pos (length (Hashmap.items_ (conns_ m)))) as [E|E].
  { exists m. split_and!; auto. by rewrite <- E. }
  destruct (L2 ltac:(lia)) as (k & q & Hl).
  destruct (ConfigErase1_spec m rs pos k q Hw Hl) as (m1 & -> & W1 & I1 & M1). cbn [mbind option_bind].
  assert (length (Hashmap.items_ (conns_ m1)) = length (Hashmap.items_ (conns_ m))) as Len.
  { rewrite I1. case_match; [done|]. by rewrite length_insert. }
  unfold Hashmap.Next. rewrite (proj2 (Nat.eqb_neq _ _)) by lia.
  destruct (Hashmap.next_live_spec (length (Hashmap.items_ (conns_ m1)) - S pos) (conns_ m1) (S pos))
    as ((N1 & N1') & N2 & N3); [lia|].
  destruct (IH m1 rs (Hashmap.next_live (length (Hashmap.items_ (conns_ m1)) - S pos) (conns_ m1) (S pos)))
    as (m2 & E2 & W2 & C2 & M2 & M2'); [done|lia|done| |].
  { intros i k' q' Hi Hl'. destruct (decide (S pos <= i)%nat) as [G|G]; [by destruct (N3 i k' q' ltac:(lia))|].
    rewrite I1 in Hl'. destruct (set_mem rs k) eqn:S.
    - destruct (decide (i = pos)) as [->|]; [|apply (Cl i k' q'); [lia|done]].
      rewrite Hl in Hl'. by injection Hl' as <- <-.
    - destruct (decide (i = pos)) as [->|].
      + by rewrite list_lookup_insert_eq in Hl' by (by eapply lookup_lt_Some).
      + rewrite list_lookup_insert_ne in Hl' by done. apply (Cl i k' q'); [lia|done]. }
  exists m2. split_and!; [done|done|done| |].
  - intros r Hr. rewrite M2, M1 by done. destruct (EqRemote k r) eqn:E'; [|done].
    by rewrite (set_mem_equal rs k r E'), Hr.
  - intros r. destruct (M2' r) as [->| ->]; [by left|]. rewrite M1. destruct (EqRemote k r && negb (set_mem rs k)); auto.
Qed.

Lemma ConfigRemotes_spec m rs : cm_wf m -> Hashmap.coprime_steps (conns_ m) ->
  (length rs <= Hashmap.free (conns_ m))%nat ->
  exists m', ConfigRemotes m rs = Some m' /\ cm_wf m' /\
    forall r, mark_of m' r =
      if set_mem rs r then Some (default kFullMarkHealth (mark_of m r)) else None.
Proof.
  intros Hw Hc Hf. unfold ConfigRemotes.
  destruct (ConfigInsert_spec rs m Hw Hc Hf) as (m1 & -> & W1 & M1). cbn [mbind option_bind].
  destruct (Hashmap.next_live_spec (length (Hashmap.items_ (conns_ m1))) (conns_ m1) 0)
    as ((N1 & N1') & N2 & N3); [lia|].
  destruct (ConfigErase_loop_spec (S (length (Hashmap.items_ (conns_ m1)))) m1 rs (Hashmap.Begin (conns_ m1)))
    as (m2 & -> & W2 & C2 & M2 & M2'); [done|unfold Hashmap.Begin; lia|done| |].
  { intros i k q Hi Hl. unfold Hashmap.Begin in Hi. by destruct (N3 i k q ltac:(lia)). }
  exists m2. split_and!; [done|done|]. intros r. destruct (set_mem rs r) eqn:S.
  - by rewrite M2, M1, S by done.
  - destruct (Hashmap.Get (conns_ m2) r) as [q|] eqn:G; [|by apply mark_of_None].
    apply Hashmap.Get_Some_live in G as (i & k & Hi & E); [|apply W2].
    rewrite (set_mem_equal rs r k E), (C2 i k q (lookup_lt_Some _ _ _ Hi) Hi) in S. done.
Qed.


(** [ReportStatus] never faults on a well-formed manager, changes only the
    mark of the reported remote (doubling or halving it within bounds), and
    afterwards a remote counts as unhealthy exactly when its mark is below
    the full mark. *)
Theorem ReportStatus_exact m r status : cm_wf m ->
  exists m', ReportStatus m r status = Some m' /\ cm_wf m' /\
    (forall r', mark_of m' r' = if EqRemote r r' then (fun h => ReportMark h status) <$> mark_of m r'
                               else mark_of m r') /\
    (forall r', IsHealthy_ m' r' = false <-> exists h, mark_of m' r' = Some h /\ h < kFullMarkHealth).
Proof.
  intros Hw. destruct (ReportStatus_spec m r status Hw) as (m' & E & W & _ & _ & M).
  exists m'. split_and!; [done|done|done|]. intros r'. unfold IsHealthy_.
  rewrite negb_false_iff, (cw_unhealthy m' W r'). split; intros (h & H1 & H2); exists h; split; try done.
  - unfold mark_of in H1. destruct (Hashmap.Get (conns_ m') r') as [q|] eqn:G; [|done].
    destruct (cw_pool m' W r' q G) as (p & P1 & [P2 P3] & _). cbn in H1. rewrite P1 in H1. cbn in H1.
    injection H1 as <-. lia.
  - lia.
Qed.

Lemma ConnsMgr_new_wf k n m : ConnsMgr_new k n = Some m -> cm_wf m /\ forall r, mark_of m r = None.
Proof.
  unfold ConnsMgr_new. destruct (Hashmap.Init n) as [c|] eqn:I; [|done]. intros [= <-].
  destruct (Hashmap.Init_wf n c I) as [Wc Sc].
  assert (forall r, Hashmap.Get c r = None) as G by (intros r; rewrite Hashmap.Get_scan; auto).
  match goal with |- cm_wf ?m /\ _ => assert (forall r, mark_of m r = None) as MO
    by (intros r; unfold mark_of; cbn; by rewrite G) end.
  split; [split; cbn [conns_ pools next_pool unhealthy_guys_]|done].
  - done.
  - intros r q. by rewrite G.
  - intros q [? H]. by rewrite lookup_empty in H.
  - intros r. rewrite MO. split; [done|by intros (h & ? & ?)].
Qed.

(** ** Selection by weight *)

Definition zsum (ws : list Z) : Z := fold_right Z.add 0 ws.

Lemma zsum_nonneg ws : Forall (fun w => 0 <= w) ws -> 0 <= zsum ws.
Proof. unfold zsum. induction 1; cbn [fold_right]; lia. Qed.

Lemma pick_spec ws : forall acc random i, Forall (fun w => 0 <= w) ws -> 0 <= acc ->
  acc + zsum ws < 2 ^ 31 -> acc <= random < acc + zsum ws ->
  exists j w, pick ws acc random i = Some (i + j)%nat /\ ws !! j = Some w /\
    acc + zsum (take j ws) <= random < acc + zsum (take j ws) + w.
Proof.
  induction ws as [|w ws IH]; intros acc random i F Ha Hs Hr; cbn [zsum fold_right] in *; [lia|].
  inversion_clear F as [|? ? F1 F2]. pose proof (zsum_nonneg ws F2) as N. fold (zsum ws) in *.
  cbn [pick]. rewrite (uwrap_small 64) by (unfold in_uint; lia).
  rewrite (swrap_small 32) by (try lia; unfold in_sint; lia).
  destruct (Z.ltb_spec random (acc + w)) as [L|L].
  - exists 0%nat, w. rewrite Nat.add_0_r. cbn. split_and!; [done|done|lia|lia].
  - destruct (IH (acc + w) random (S i) F2) as (j & w' & E & Hw' & B); [lia..|].
    exists (S j), w'. rewrite E. split_and!; [f_equal; lia|done|..]; cbn [take zsum fold_right]; fold (zsum (take j ws)); lia.
Qed.

Section SelectionTheorems.
Context `{!Rand, !RandLaws}.

Lemma rand_mod_spec seed n : 0 < n < 2 ^ 31 -> exists v seed', rand_mod seed n = Some (v, seed') /\
  v = (rand_r seed).1 mod n /\ 0 <= v < n /\ i32 v = v.
Proof.
  intros Hn. unfold rand_mod. rewrite (proj2 (Z.eqb_neq _ _)) by lia.
  destruct (rand_r seed) as [v seed']. exists (v mod n), seed'.
  pose proof (Z.mod_pos_bound v n ltac:(lia)). split_and!; [done|done|lia|lia|].
  apply swrap_small; [lia|]. unfold in_sint. change (2 ^ (32 - 1)) with (2 ^ 31). lia.
Qed.

(** Who can be selected, and with which share of the random numbers: all
    remotes by weight while nobody is unhealthy, otherwise the remotes the talk
    has not failed on by weight times health mark. *)
Definition candidates (m : ConnsMgr) (s : Service) (fails : list Remote) : list Remote :=
  match unhealthy_guys_ m with [] => remotes s | _ => filter (fun r => FailedBefore_ r fails = false) (remotes s) end.
Definition share (m : ConnsMgr) (r : Remote) : Z :=
  match unhealthy_guys_ m with [] => weight r | _ => weight r * default 0 (mark_of m r) end.
(** The service can be served by this manager: no negative weight, a pool for
    every remote that is asked for its health, and shares that fit an [int]. *)
Definition selectable (m : ConnsMgr) (s : Service) : Prop :=
  Forall (fun r => 0 <= weight r /\ (unhealthy_guys_ m <> [] -> is_Some (mark_of m r))) (remotes s) /\
  weight_all s = zsum (map weight (remotes s)) /\ zsum (map (share m) (remotes s)) < 2 ^ 31.

Lemma mark_of_good m r h : cm_wf m -> mark_of m r = Some h -> 1 <= h <= 100.
Proof.
  intros Hw. unfold mark_of. destruct (Hashmap.Get (conns_ m) r) as [q|] eqn:G; [|done].
  destruct (cw_pool m Hw r q G) as (p & P & Gm & _). cbn. rewrite P. by intros [= <-].
Qed.
Lemma share_nonneg m s : cm_wf m -> selectable m s -> Forall (fun r => 0 <= share m r) (remotes s).
Proof.
  intros Hw (F & _ & _). eapply list.Forall_impl; [exact F|]. cbn. intros r [Wr _]. unfold share. destruct (unhealthy_guys_ m) as [|u us]; [done|].
  destruct (mark_of m r) as [h|] eqn:Hm; cbn; [apply (mark_of_good _ _ _ Hw) in Hm|]; nia.
Qed.
Lemma candidates_sub m s fails : candidates m s fails ⊆ remotes s.
Proof. unfold candidates. destruct (unhealthy_guys_ m) as [|u us]; [done|]. apply list_subseteq_filter. Qed.
Lemma candidates_sum m s fails : Forall (fun r => 0 <= share m r) (remotes s) ->
  zsum (map (share m) (candidates m s fails)) <= zsum (map (share m) (remotes s)).
Proof.
  intros F. unfold candidates. destruct (unhealthy_guys_ m) as [|u us]; [lia|]. induction F as [|r l F1 F2 IH]; [done|].
  rewrite filter_cons. unfold zsum in *. case_decide; cbn [map fold_right] in *; lia.
Qed.
Lemma zsum_elem ws w : Forall (fun w => 0 <= w) ws -> w ∈ ws -> w <= zsum ws.
Proof.
  intros F. induction F as [|x ws F1 F2 IH]; [by intros ?%elem_of_nil|]. pose proof (zsum_nonneg _ F2). unfold zsum in *. cbn [fold_right].
  intros [->|Hw]%elem_of_cons; [lia|]. specialize (IH Hw). lia.
Qed.

(** With shares below [2 ^ 31] nothing wraps. *)
Lemma health_weights_spec m rs : cm_wf m -> unhealthy_guys_ m <> [] ->
  Forall (fun r => 0 <= weight r /\ is_Some (mark_of m r)) rs -> Forall (fun r => 0 <= share m r < 2 ^ 31) rs ->
  health_weights m rs = Some (map (share m) rs).
Proof.
  intros Hw U F B. induction F as [|r rs [Fw [h Fm]] F IH]; [done|]. apply list.Forall_cons in B as [B1 B2]. cbn [health_weights map].
  rewrite (IH B2). assert (share m r = weight r * h) as Es by (unfold share; rewrite Fm; by destruct (unhealthy_guys_ m)). rewrite Es in *. unfold health_weight.
  unfold mark_of in Fm. destruct (Hashmap.Get (conns_ m) r) as [q|]; [|done]. cbn in *. destruct (pools m !! q) as [p|]; [|done].
  cbn in *. injection Fm as ->. rewrite (uwrap_small 64) by (unfold in_uint; lia). done.
Qed.
Lemma sum_u64_spec ws : forall acc, Forall (fun w => 0 <= w) ws -> 0 <= acc -> acc + zsum ws < 2 ^ 64 ->
  fold_left (fun acc w => u64 (acc + w)) ws acc = acc + zsum ws.
Proof.
  induction ws as [|w ws IH]; intros acc F Ha B; cbn [fold_left zsum fold_right] in *; [lia|].
  inversion_clear F as [|? ? F1 F2]. fold (zsum ws) in *. pose proof (zsum_nonneg _ F2).
  rewrite (uwrap_small 64) by (unfold in_uint; lia). rewrite IH by (try done; lia). lia.
Qed.

(** The remote that is picked is the candidate whose interval of shares holds
    the random number. *)
Definition picks (m : ConnsMgr) (s : Service) (fails : list Remote) (random : Z) (r : Remote) : Prop :=
  let cs := candidates m s fails in
  exists i, cs !! i = Some r /\
    zsum (take i (map (share m) cs)) <= random mod zsum (map (share m) cs) < zsum (take i (map (share m) cs)) + share m r.

Lemma pick_share (f : Remote -> Z) cs random : Forall (fun r => 0 <= f r) cs -> 0 <= random < zsum (map f cs) -> zsum (map f cs) < 2 ^ 31 ->
  exists j r, pick (map f cs) 0 random 0 = Some j /\ cs !! j = Some r /\ zsum (take j (map f cs)) <= random < zsum (take j (map f cs)) + f r.
Proof.
  intros F B L. destruct (pick_spec (map f cs) 0 random 0) as (j & w & E & Hj & Hb); [by apply Forall_map|lia..|]. rewrite E.
  rewrite list.list_lookup_fmap in Hj. destruct (cs !! j) as [r|] eqn:Hr; [|done]. injection Hj as <-. exists j, r. split_and!; [done|done|lia|lia].
Qed.

Lemma share_selection m s fails : cm_wf m -> selectable m s -> 0 < zsum (map (share m) (candidates m s fails)) ->
  exists rp r m', GetRemoteWeight_ m s fails = Some (Some rp, m') /\ deref_remote m' rp = Some r /\
    picks m s fails (rand_r (seed_weight m)).1 r.
Proof using All.
  intros Hw Hs P. pose proof (share_nonneg _ _ Hw Hs) as N. pose proof (candidates_sum m s fails N) as Le. destruct Hs as (F & A & B).
  assert (Forall (fun r => 0 <= share m r) (candidates m s fails)) as Nc.
  { apply list.Forall_forall. intros r Hr%candidates_sub. by eapply list.Forall_forall in N. }
  destruct (rand_mod_spec (seed_weight m) (zsum (map (share m) (candidates m s fails)))) as (v & seed & R & V1 & V2 & V3); [lia|].
  destruct (pick_share (share m) (candidates m s fails) v Nc V2) as (j & r & E & Hj & Hb); [lia|]. rewrite V1 in Hb.
  assert (picks m s fails (rand_r (seed_weight m)).1 r) as Pk by (exists j; done). revert R E Hj Nc P Le. unfold GetRemoteWeight_.
  destruct (unhealthy_guys_ m) as [|u us] eqn:U.
  - assert (candidates m s fails = remotes s) as -> by (unfold candidates; by rewrite U).
    assert (map (share m) (remotes s) = map weight (remotes s)) as -> by (apply map_ext; intros x; unfold share; by rewrite U).
    rewrite <- A. intros -> E Hj _ _ _. cbn [mbind option_bind]. rewrite V3, E, Hj. by eexists _, r, _.
  - set (cs := candidates m s fails). assert (filter (fun r => FailedBefore_ r fails = false) (remotes s) = cs) as -> by (subst cs; unfold candidates; by rewrite U).
    intros R E Hj Nc P Le. rewrite (health_weights_spec m cs Hw); [|by rewrite U|..].
    + cbn [mbind option_bind seed_weight set_tmp]. rewrite decide_False by (by intros Hn; rewrite Hn in P).
      unfold sum_u64. rewrite sum_u64_spec by (by apply Forall_map || lia). rewrite Z.add_0_l, R. cbn [mbind option_bind]. rewrite V3, E.
      by eexists (InTmp j), r, _.
    + apply list.Forall_forall. intros x Hx%candidates_sub. eapply list.Forall_forall in F as [? M]; [|exact Hx]. split; [done|]. by apply M.
    + apply list.Forall_forall. intros x Hx. split; [by eapply list.Forall_forall in Nc|]. eapply Z.le_lt_trans; [|exact B].
      etransitivity; [|exact Le]. apply zsum_elem; [by apply Forall_map|]. by apply (list_elem_of_fmap_2 (share m)).
Qed.

(** Everybody has failed: any remote of the service. *)
Lemma uniform_selection m s fails : unhealthy_guys_ m <> [] -> candidates m s fails = [] -> remotes s <> [] ->
  exists r m', GetRemoteWeight_ m s fails = Some (Some (InService r), m') /\
    remotes s !! Z.to_nat ((rand_r (seed_weight m)).1 mod Z.of_nat (length (remotes s))) = Some r.
Proof using All.
  intros U C Ne. unfold GetRemoteWeight_, candidates in *. destruct (unhealthy_guys_ m) as [|u us]; [done|]. rewrite C. cbn.
  unfold rand_mod. assert (0 < Z.of_nat (length (remotes s))) as L by (destruct (remotes s); [done|cbn; lia]).
  rewrite (proj2 (Z.eqb_neq _ _)) by lia. destruct (rand_r (seed_weight m)) as [v seed]. cbn.
  pose proof (Z.mod_pos_bound v _ L). destruct (lookup_lt_is_Some_2 (remotes s) (Z.to_nat (v mod Z.of_nat (length (remotes s))))) as [r E]; [lia|].
  exists r. rewrite E. cbn. by eexists.
Qed.

(** C21: weighted selection, for a service without negative weights whose remotes
    have pools and whose shares add up to less than [2 ^ 31].  While nobody is
    unhealthy the candidates are all remotes, with their weights as shares;
    otherwise they are the remotes the talk has not failed on, with weight times
    health mark as shares.  When the shares of the candidates are not all zero
    the selection succeeds and takes the candidate whose interval of shares
    contains the random number: a candidate is chosen for exactly its share many
    of the residues.  When every remote has failed, each of them is chosen for
    one residue of the number of remotes. *)
Theorem weight_selection m s fails : cm_wf m -> selectable m s ->
  (0 < zsum (map (share m) (candidates m s fails)) ->
   exists rp r m', GetRemoteWeight_ m s fails = Some (Some rp, m') /\ deref_remote m' rp = Some r /\
     picks m s fails (rand_r (seed_weight m)).1 r) /\
  (unhealthy_guys_ m <> [] -> candidates m s fails = [] -> remotes s <> [] ->
   exists r m', GetRemoteWeight_ m s fails = Some (Some (InService r), m') /\
     remotes s !! Z.to_nat ((rand_r (seed_weight m)).1 mod Z.of_nat (length (remotes s))) = Some r).
Proof using All. intros Hw Hs. split; [by apply share_selection|by apply uniform_selection]. Qed.

(** C20: while some remote is unhealthy, and the service has no negative weight,
    a pool for every remote, shares that add up to less than [2 ^ 31], and a
    remote of positive weight the talk has not failed on: weighted selection
    never fails, and the pointer it returns denotes, at that moment, a remote of
    the service that is not among the failed ones and has a positive weight. *)
Theorem retry_avoids_failed m s fails : cm_wf m -> unhealthy_guys_ m <> [] -> selectable m s ->
  (exists r, r ∈ remotes s /\ FailedBefore_ r fails = false /\ 0 < weight r) ->
  exists rp r m', GetRemoteWeight_ m s fails = Some (Some rp, m') /\
    deref_remote m' rp = Some r /\ r ∈ remotes s /\ FailedBefore_ r fails = false /\ 0 < weight r.
Proof using All.
  intros Hw U Hs (r0 & R1 & R2 & R3).
  assert (forall r, r ∈ candidates m s fails <-> FailedBefore_ r fails = false /\ r ∈ remotes s) as C.
  { intros r. unfold candidates. destruct (unhealthy_guys_ m) as [|u us]; [done|]. by rewrite list_elem_of_filter. }
  assert (forall r, r ∈ remotes s -> 0 < share m r <-> 0 < weight r) as Sp.
  { intros r Hr. destruct Hs as [F _]. eapply list.Forall_forall in F as [W M]; [|exact Hr]. destruct (M U) as [h Hh].
    pose proof (mark_of_good _ _ _ Hw Hh). unfold share. destruct (unhealthy_guys_ m) as [|u us]; [done|]. rewrite Hh. cbn. nia. }
  destruct (share_selection m s fails Hw Hs) as (rp & r & m' & E & D & i & Hi & Hb).
  - apply (Z.lt_le_trans _ (share m r0)); [by apply Sp|]. apply zsum_elem; [|by apply (list_elem_of_fmap_2 (share m)), C].
    apply Forall_map, list.Forall_forall. intros r Hr%candidates_sub. by eapply list.Forall_forall in Hr; [|by apply share_nonneg].
  - exists rp, r, m'. apply list_elem_of_lookup_2, C in Hi as [Fr Hr]. split_and!; [done..|]. apply Sp; [done|lia].
Qed.
Section Freeing.
Context {W : Type} `{!Sock W, !Clock W, !SockSpec W} {FU : Protocol.Fuel}.

(** A connection given back with [FreeFd] never faults on a well-formed
    manager and ends in exactly one place: in the pool of its remote, which
    stays within its limit, or closed. *)
Theorem FreeFd_once m r fd (w : W) : cm_wf m -> 0 <= fd ->
  exists m' w', FreeFd m r fd w = Some (m', w') /\ cm_wf m' /\
    ((closed w' = closed w ++ [fd] /\ forall q, fds_ <$> pools m' !! q = fds_ <$> pools m !! q) \/
     (closed w' = closed w /\ exists q p p', Hashmap.Get (conns_ m) r = Some q /\
        pools m !! q = Some p /\ pools m' !! q = Some p' /\ fds_ p' = fds_ p ++ [fd] /\
        num_fds p' <= long_conns (remote_ p) /\
        forall q', q' <> q -> pools m' !! q' = pools m !! q')).
Proof using All.
  intros Hw Hfd. unfold FreeFd. destruct (Hashmap.Get (conns_ m) r) as [q|] eqn:G.
  2: { eexists _, _. split; [done|]. split; [done|]. left. by rewrite closed_close. }
  destruct (cw_pool m Hw r q G) as (p & P1 & P2 & P3). rewrite P1.
  unfold deref. rewrite (bind_run _ _ w p w) by done.
  destruct (0 <? GetNumLongConnsPerRemote p).
  - destruct (Put_once p fd w Hfd) as (p' & w' & E & R & Hm & C). rewrite (bind_run _ _ _ _ _ E).
    eexists _, _. split; [done|].
    destruct (set_pool_same_mark m r q p p') as [W1 _]; [done|done|done|done|by rewrite R|].
    split; [done|]. destruct C as [(C1 & C2 & C3)|[C1 C2]].
    + right. split; [done|]. exists q, p, p'. cbn. rewrite lookup_insert_eq.
      split_and!; try done. intros q' N. by rewrite lookup_insert_ne.
    + left. split; [done|]. intros q'. cbn. destruct (decide (q = q')) as [<-|N].
      * rewrite lookup_insert_eq, P1. cbn. by rewrite C1.
      * by rewrite lookup_insert_ne.
  - eexists _, _. split; [done|]. split; [done|]. left. by rewrite closed_close.
Qed.

End Freeing.
End SelectionTheorems.

(** *** Two remotes configured, one of them failing *)

Definition ex_addr (a : Z) : Protocol.Addr := Protocol.mkAddr 2 a 80.
Definition ex_remote (a w : Z) : Remote := mkRemote (ex_addr a) w 2 10 20 30.
Definition ex_mgr : ConnsMgr := default (mkConnsMgr 0 (Hashmap.mkMap [] 0) ∅ 0 [] [] [] 0 0) (ConnsMgr_new 60 4).

Lemma ex_mgr_wf : cm_wf ex_mgr.
Proof. apply (ConnsMgr_new_wf 60 4). vm_compute. reflexivity. Qed.


Lemma ReportStatus_exact_witness :
  exists m', ReportStatus ex_mgr (ex_remote 1 5) false = Some m' /\ cm_wf m' /\
    (forall r', mark_of m' r' = if EqRemote (ex_remote 1 5) r'
      then (fun h => ReportMark h false) <$> mark_of ex_mgr r' else mark_of ex_mgr r') /\
    (forall r', IsHealthy_ m' r' = false <-> exists h, mark_of m' r' = Some h /\ h < kFullMarkHealth).
Proof. apply ReportStatus_exact. exact ex_mgr_wf. Defined.

#[local] Instance lcg_rand : Rand := {| rand_r s := (s mod 2 ^ 31, (s * 1103515245 + 12345) mod 2 ^ 31) |}.
#[local] Instance lcg_rand_laws : RandLaws.
Proof. split. intros s. cbn. apply Z.mod_pos_bound. lia. Qed.

Definition ex_service : Service :=
  mkService 0 "svc" Protocol.kRapid kWeight [ex_remote 1 5; ex_remote 2 5] 10 1.

(** The manager with both remotes configured, and after a failure of the
    first. *)
Definition ex_mgr2 : ConnsMgr := default ex_mgr (ConfigRemotes ex_mgr (remotes ex_service)).
Definition ex_mgr3 : ConnsMgr := default ex_mgr2 (ReportStatus ex_mgr2 (ex_remote 1 5) false).

Lemma ex_mgr2_wf : cm_wf ex_mgr2.
Proof.
  destruct (ConfigRemotes_spec ex_mgr (remotes ex_service) ex_mgr_wf) as (m & E & W & _);
    [repeat constructor|vm_compute; lia|]. unfold ex_mgr2. by rewrite E.
Qed.

Lemma ex_mgr3_wf : cm_wf ex_mgr3.
Proof.
  destruct (ReportStatus_spec ex_mgr2 (ex_remote 1 5) false ex_mgr2_wf) as (m & E & W & _).
  unfold ex_mgr3. by rewrite E.
Qed.

Lemma ex_selectable m : m = ex_mgr2 \/ m = ex_mgr3 -> selectable m ex_service.
Proof.
  intros [-> | ->]; (split; [|split; [reflexivity|vm_compute; reflexivity]]);
    repeat constructor; try (vm_compute; discriminate); intros _; vm_compute; eauto.
Qed.

(** Before the failure, after it, and after a failure of both remotes. *)
Lemma weight_selection_witness :
  (exists rp r m', GetRemoteWeight_ ex_mgr2 ex_service [] = Some (Some rp, m') /\ deref_remote m' rp = Some r /\
     picks ex_mgr2 ex_service [] (rand_r (seed_weight ex_mgr2)).1 r) /\
  (exists rp r m', GetRemoteWeight_ ex_mgr3 ex_service [] = Some (Some rp, m') /\ deref_remote m' rp = Some r /\
     picks ex_mgr3 ex_service [] (rand_r (seed_weight ex_mgr3)).1 r) /\
  (exists r m', GetRemoteWeight_ ex_mgr3 ex_service (remotes ex_service) = Some (Some (InService r), m') /\
     remotes ex_service !! Z.to_nat ((rand_r (seed_weight ex_mgr3)).1 mod 2) = Some r) /\
  map (share ex_mgr3) (remotes ex_service) = [250; 500].
Proof.
  split_and!; [..|vm_compute; reflexivity].
  - apply (weight_selection ex_mgr2 ex_service []); [exact ex_mgr2_wf|apply ex_selectable; by left|vm_compute; reflexivity].
  - apply (weight_selection ex_mgr3 ex_service []); [exact ex_mgr3_wf|apply ex_selectable; by right|vm_compute; reflexivity].
  - apply (weight_selection ex_mgr3 ex_service (remotes ex_service)); [exact ex_mgr3_wf|apply ex_selectable; by right|vm_compute; discriminate|vm_compute; reflexivity|done].
Defined.

Lemma retry_avoids_failed_witness :
  exists rp r m', GetRemoteWeight_ ex_mgr3 ex_service [ex_remote 1 5] = Some (Some rp, m') /\
    deref_remote m' rp = Some r /\ r ∈ remotes ex_service /\ FailedBefore_ r [ex_remote 1 5] = false /\ 0 < weight r.
Proof.
  apply retry_avoids_failed; [exact ex_mgr3_wf|vm_compute; discriminate|apply ex_selectable; by right|].
  exists (ex_remote 2 5). split; [by right; left|split; [vm_compute; reflexivity|reflexivity]].
Defined.

#[local] Instance three : Protocol.Fuel := {| Protocol.fuel := 3 |}.
Definition ex_net : IOHelper.SmallNet := IOHelper.mkNet 7 [] [] 5000000.

Lemma FreeFd_once_witness :
  exists m' w', FreeFd ex_mgr2 (ex_remote 1 5) 9 ex_net = Some (m', w') /\ cm_wf m' /\
    ((closed w' = closed ex_net ++ [9] /\ forall q, fds_ <$> pools m' !! q = fds_ <$> pools ex_mgr2 !! q) \/
     (closed w' = closed ex_net /\ exists q p p', Hashmap.Get (conns_ ex_mgr2) (ex_remote 1 5) = Some q /\
        pools ex_mgr2 !! q = Some p /\ pools m' !! q = Some p' /\ fds_ p' = fds_ p ++ [9] /\
        num_fds p' <= long_conns (remote_ p) /\
        forall q', q' <> q -> pools m' !! q' = pools ex_mgr2 !! q')).
Proof. apply FreeFd_once; [exact ex_mgr2_wf|lia]. Defined.

(** The pointer returned for a talk is an index into an array that the next
    selection overwrites: here a talk is sent to the second remote, another
    talk then selects, and the first talk's pointer denotes the first remote. *)
Lemma selected_remote_changes :
  (match GetRemoteWeight_ ex_mgr3 ex_service [ex_remote 1 5] with
   | Some (Some rp, m1) =>
       match GetRemoteWeight_ m1 ex_service [] with
       | Some (_, m2) => (deref_remote m1 rp, deref_remote m2 rp)
       | None => (None, None)
       end
   | _ => (None, None)
   end) = (Some (ex_remote 2 5), Some (ex_remote 1 5)).
Proof. vm_compute. reflexivity. Qed.

(** A remote dropped from the configuration takes its idle connections with
    it: they are neither closed nor reachable. *)
Definition ex_mgr4 : ConnsMgr :=
  match FreeFd ex_mgr2 (ex_remote 1 5) 9 ex_net with Some (m, _) => m | None => ex_mgr2 end.

Lemma dropped_remote_leaks :
  map (fun p => fds_ p) (map_to_list (pools ex_mgr4)).*2 = [[]; [9]] /\
  (fun m => map (fun p => fds_ p) (map_to_list (pools m)).*2) <$> ConfigRemotes ex_mgr4 [ex_remote 2 5] = Some [[]].
Proof. vm_compute. split; reflexivity. Qed.

(** The map of the real manager has 100000 slots, a size all the steps are
    coprime to. *)
Lemma manager_size_ok : forallb (fun p => Z.gcd p (Z.of_nat kNumRemotes * 100) =? 1) Hashmap.kPrimes = true.
Proof. vm_compute. reflexivity. Qed.
End ConnsMgr.
