(* ===== verification/EventsDriver.v ===== *)
(** * EventsDriver: epoll with timeouts

    Models deps/public-cpp/include/public-cpp/events_driver.hpp.  The driver
    keeps, per descriptor, the context of the client and the handle of its
    timeout in a queue ordered by expiry.  The queue is used through an
    interface, [TimeoutQueue]; the binary heap of heap.hpp is the instance the
    program uses.  epoll and the lock around its calls are operations of the
    world. *)

From Stdlib Require Import ZArith Lia.
From stdpp Require Import base list gmap numbers option.
From S2P Require Import Prelude Protocol IOHelper Heap.

(** [EventTimeo]. *)
Record EventTimeo := mkTimeo { expire_time_ms : Z; t_fd : Z }.
#[global] Instance EventTimeo_inhabited : Inhabited EventTimeo := populate (mkTimeo 0 0).
#[global] Instance EventTimeo_eq_dec : EqDecision EventTimeo.
Proof. solve_decision. Defined.

(** What the driver uses of its queue.  Handles are never 0. *)
Class TimeoutQueue (Q : Type) : Type := {
  q_insert : Q -> EventTimeo -> option (Q * nat);
  q_update : Q -> nat -> EventTimeo -> option Q;
  q_erase : Q -> nat -> option Q;
  q_top : Q -> option EventTimeo;
  q_size : Q -> nat;
}.

(** What it relies on: a finite map from handles to timeouts, whose top is one
    that expires first. *)
Class TimeoutQueueLaws (Q : Type) `{!TimeoutQueue Q} : Type := {
  q_ok : Q -> Prop;
  q_live : Q -> gmap nat EventTimeo;
  q_insert_law q e : q_ok q -> exists q' s, q_insert q e = Some (q', s) /\ q_ok q' /\
    (0 < s)%nat /\ q_live q !! s = None /\ q_live q' = <[s := e]> (q_live q);
  q_update_law q s e : q_ok q -> is_Some (q_live q !! s) ->
    exists q', q_update q s e = Some q' /\ q_ok q' /\ q_live q' = <[s := e]> (q_live q);
  q_erase_law q s : q_ok q -> is_Some (q_live q !! s) ->
    exists q', q_erase q s = Some q' /\ q_ok q' /\ q_live q' = delete s (q_live q);
  q_top_law q : q_ok q ->
    match q_top q with
    | None => q_live q = ∅
    | Some e => (exists s, q_live q !! s = Some e) /\
        forall s e', q_live q !! s = Some e' -> expire_time_ms e <= expire_time_ms e'
    end;
  q_size_law q : q_ok q -> q_size q = size (q_live q);
}.

(** [SimpleHeap<EventTimeo, kMinHeap, GetExpireTime>]. *)
Abbreviation TimeoutHeap := (Heap.HeapBase EventTimeo).

#[global] Instance heap_queue : TimeoutQueue TimeoutHeap := {
  q_insert := Heap.Insert expire_time_ms false;
  q_update := Heap.Update expire_time_ms false;
  q_erase := Heap.Erase expire_time_ms false;
  q_top := Heap.Top;
  q_size := Heap.Size;
}.

#[global] Instance heap_queue_laws : TimeoutQueueLaws TimeoutHeap.
Proof.
  refine {| q_ok := Heap.valid expire_time_ms false; q_live := Heap.live |}.
  - intros q e Hv. destruct (Heap.Insert_wf _ _ q e Hv) as (q' & s & E & W & Z & P & N & L).
    exists q', s. split_and!; try done. apply Heap.wf_valid; [done|]. rewrite Z. apply Hv.
  - intros q s e Hv [o Ho]. destruct (Heap.Update_wf _ _ q s e o Hv Ho) as (q' & E & W & Z & L).
    exists q'. split_and!; try done. apply Heap.wf_valid; [done|]. rewrite Z. apply Hv.
  - intros q s Hv [o Ho]. destruct (Heap.Erase_wf _ _ q s o Hv Ho) as (q' & E & W & Z & L).
    exists q'. split_and!; try done. apply Heap.wf_valid; [done|]. rewrite Z. apply Hv.
  - intros q Hv. pose proof (Heap.Top_min _ _ q Hv) as T. cbn.
    destruct (Heap.Top q) as [e|]; [|done]. destruct T as (s & L & M). split; [eauto|].
    intros s' e' H. exact (M s' e' H).
  - intros q Hv. destruct (Heap.raii_init_spec _ _ q Hv) as (W & L & _).
    cbn. unfold Heap.Size. rewrite <- L, (Heap.live_size _ _ _ W).
    destruct Hv as [_ Hv]. unfold Heap.raii_init. destruct (Heap.init_ q); [done|].
    destruct Hv as (-> & _). done.
Defined.

(** ** epoll *)

Inductive CtlOp := EPOLL_CTL_ADD | EPOLL_CTL_MOD | EPOLL_CTL_DEL.

Class Epoll (W : Type) : Type := {
  epoll_create : W -> Z * W;
  epoll_ctl : Z -> CtlOp -> Z -> Z -> W -> Z * W;
  epoll_wait : Z -> Z -> W -> (Z * list (Z * Z)) * W;
  lock_Lock : W -> bool * W;
}.

(** None of these calls turns the cached time back. *)
Class EpollLaws (W : Type) `{!Epoll W, !Clock W, !ClockLaws W} : Prop := {
  ctl_mono e op fd ev w : time_ w <= time_ (epoll_ctl e op fd ev w).2;
  lock_mono w : time_ w <= time_ (lock_Lock w).2;
}.

Module EventsDriver.

Definition EPOLLIN : Z := 1.
Definition EPOLLOUT : Z := 4.
Definition EPOLLERR : Z := 8.
Definition EPOLLHUP : Z := 16.
Definition EPOLLET : Z := 2 ^ 31.

Inductive Op := kAddEvent | kModEvent | kDelEvent.
Inductive Event := kIn | kOut | kErr.
#[global] Instance Event_eq_dec : EqDecision Event.
Proof. solve_decision. Defined.

(** [EventCtx] of the driver: a context (NULL is [None]) and a handle (0 for
    none). *)
Record Slot := mkSlot { context : option Z; sign_timeo : nat }.
Definition empty_slot : Slot := mkSlot None 0.

Section Driver.
Context {W Q : Type} `{EP : !Epoll W, CK : !Clock W, TQ : !TimeoutQueue Q}.

Record EventsDriver := mkDriver {
  event_in_ : Z;
  event_out_ : Z;
  fd_epoll_ : Z;
  events_ready_ : list (Z * Z);
  heap_timeo_ : Q;
  fd_to_event_ctx_ : list Slot;
  init_ : bool;
}.

Definition EventsDriver_new (level_trigger : bool) (q : Q) : EventsDriver :=
  let et := if level_trigger then 0 else EPOLLET in
  {| event_in_ := Z.lor (Z.lor EPOLLIN (Z.lor EPOLLHUP EPOLLERR)) et;
     event_out_ := Z.lor (Z.lor EPOLLOUT (Z.lor EPOLLHUP EPOLLERR)) et;
     fd_epoll_ := 0; events_ready_ := []; heap_timeo_ := q; fd_to_event_ctx_ := []; init_ := false |}.

Definition with_slots (d : EventsDriver) (q : Q) (l : list Slot) : EventsDriver :=
  {| event_in_ := event_in_ d; event_out_ := event_out_ d; fd_epoll_ := fd_epoll_ d;
     events_ready_ := events_ready_ d; heap_timeo_ := q; fd_to_event_ctx_ := l; init_ := init_ d |}.

Definition Init_ (d : EventsDriver) : M W (bool * EventsDriver) :=
  fd ← call epoll_create;
  let d' := {| event_in_ := event_in_ d; event_out_ := event_out_ d; fd_epoll_ := fd;
               events_ready_ := events_ready_ d; heap_timeo_ := heap_timeo_ d;
               fd_to_event_ctx_ := fd_to_event_ctx_ d; init_ := negb (fd <=? 0) |} in
  mret (negb (fd <=? 0), d').

(** [XFC_RAII_INIT]. *)
Definition raii (d : EventsDriver) : M W (bool * EventsDriver) :=
  if init_ d then mret (true, d) else Init_ d.

(** [fd_to_event_ctx_[fd]]. *)
Definition slot (d : EventsDriver) (fd : Z) : option Slot :=
  if fd <? 0 then None else fd_to_event_ctx_ d !! Z.to_nat fd.
Definition set_slot (d : EventsDriver) (q : Q) (fd : Z) (s : Slot) : EventsDriver :=
  with_slots d q (<[Z.to_nat fd := s]> (fd_to_event_ctx_ d)).

Definition Wait (d : EventsDriver) (timeo_ms : Z) : M W (Z * EventsDriver) :=
  '(ok, d) ← raii d;
  if negb ok then mret (-1, d)
  else
    time_to_wait_ms ←
      match q_top (heap_timeo_ d) with
      | Some e =>
          now ← IOHelper.GetCurrentMsec false;
          mret (Z.max 0 (Z.min (expire_time_ms e - now) timeo_ms))
      | None => mret timeo_ms
      end;
    '(ret, evs) ← call (epoll_wait (fd_epoll_ d) time_to_wait_ms);
    IOHelper.UpdateTimer;;
    mret (ret, {| event_in_ := event_in_ d; event_out_ := event_out_ d; fd_epoll_ := fd_epoll_ d;
                  events_ready_ := evs; heap_timeo_ := heap_timeo_ d;
                  fd_to_event_ctx_ := fd_to_event_ctx_ d; init_ := init_ d |}).

Definition RegEventDel_body (d : EventsDriver) (fd : Z) : M W (bool * EventsDriver) :=
  s ← deref (slot d fd);
  d ← (if decide (sign_timeo s = 0%nat) then mret d
       else
         q ← deref (q_erase (heap_timeo_ d) (sign_timeo s));
         mret (set_slot d q fd (mkSlot (context s) 0)));
  locked ← call lock_Lock;
  if negb locked then mret (false, d)
  else
    ret ← call (epoll_ctl (fd_epoll_ d) EPOLL_CTL_DEL fd 0);
    if negb (ret =? 0) then mret (false, d)
    else mret (true, set_slot d (heap_timeo_ d) fd (mkSlot None 0)).

Definition RegEventDel (d : EventsDriver) (fd : Z) : M W (bool * EventsDriver) :=
  '(ok, d) ← raii d;
  if negb ok then mret (false, d) else RegEventDel_body d fd.

(** [fd_to_event_ctx_.resize(fd+1)] when the descriptor is new. *)
Definition grow (d : EventsDriver) (fd : Z) : EventsDriver :=
  let l := fd_to_event_ctx_ d in
  if Z.of_nat (length l) <=? fd
  then with_slots d (heap_timeo_ d) (l ++ replicate (Z.to_nat (fd + 1) - length l) empty_slot)
  else d.

(** The epoll call of an addition or a modification, with its error handling. *)
Definition ctl_or_del (d : EventsDriver) (op : CtlOp) (fd events : Z) : M W (bool * EventsDriver) :=
  locked ← call lock_Lock;
  if negb locked then '(_, d) ← RegEventDel d fd; mret (false, d)
  else
    ret ← call (epoll_ctl (fd_epoll_ d) op fd events);
    if negb (ret =? 0) then '(_, d) ← RegEventDel d fd; mret (false, d)
    else mret (true, d).

Definition RegEvent (d : EventsDriver) (fd : Z) (op : Op) (direction : Event) (ctx : Z) (timeo_ms : Z)
  : M W (bool * EventsDriver) :=
  '(ok, d) ← raii d;
  if negb ok then mret (false, d)
  else
    let d := grow d fd in
    let events := match direction with kIn => event_in_ d | _ => event_out_ d end in
    match op with
    | kAddEvent =>
        s ← deref (slot d fd);
        d ← (if 0 <=? timeo_ms then
               now ← IOHelper.GetCurrentMsec false;
               '(q, sign) ← deref (q_insert (heap_timeo_ d) (mkTimeo (now + timeo_ms) fd));
               mret (set_slot d q fd (mkSlot (Some ctx) sign))
             else mret (set_slot d (heap_timeo_ d) fd (mkSlot (Some ctx) 0)));
        ctl_or_del d EPOLL_CTL_ADD fd events
    | kModEvent =>
        s ← deref (slot d fd);
        d ← (if 0 <=? timeo_ms then
               now ← IOHelper.GetCurrentMsec false;
               if decide (sign_timeo s = 0%nat) then
                 '(q, sign) ← deref (q_insert (heap_timeo_ d) (mkTimeo (now + timeo_ms) fd));
                 mret (set_slot d q fd (mkSlot (context s) sign))
               else
                 q ← deref (q_update (heap_timeo_ d) (sign_timeo s) (mkTimeo (now + timeo_ms) fd));
                 mret (with_slots d q (fd_to_event_ctx_ d))
             else mret d);
        ctl_or_del d EPOLL_CTL_MOD fd events
    | kDelEvent =>
        '(ret, d) ← RegEventDel d fd;
        if (ret : bool) then '(_, d) ← RegEventDel d fd; mret (false, d)
        else
          s ← deref (slot d fd);
          mret (true, set_slot d (heap_timeo_ d) fd (mkSlot None (sign_timeo s)))
    end.

(** [CheckReadyEvent]: the event and the context of the [i]-th ready
    descriptor. *)
Definition event_of (events : Z) : Event :=
  if events =? EPOLLOUT then kOut else if events =? EPOLLIN then kIn else kErr.

Definition CheckReadyEvent (d : EventsDriver) (i : nat) : option (Event * option Z) :=
  '(events, fd) ← events_ready_ d !! i;
  s ← slot d fd;
  Some (event_of events, context s).

(** [RemoveTimeouts]: the contexts whose timeout has passed.  Every turn erases
    one entry of the queue, so as many turns as it has entries, and one more,
    are enough. *)
Fixpoint RemoveTimeouts_loop (n : nat) (d : EventsDriver) (acc : list Z) : M W (list Z * EventsDriver) :=
  match n with
  | O => ub
  | S n =>
      match q_top (heap_timeo_ d) with
      | None => mret (acc, d)
      | Some e =>
          now ← IOHelper.GetCurrentMsec false;
          if now <=? expire_time_ms e then mret (acc, d)
          else
            s ← deref (slot d (t_fd e));
            let acc := match context s with Some c => acc ++ [c] | None => acc end in
            '(_, d) ← RegEventDel d (t_fd e);
            RemoveTimeouts_loop n d acc
      end
  end.

Definition RemoveTimeouts (d : EventsDriver) : M W (list Z * EventsDriver) :=
  '(ok, d) ← raii d;
  if negb ok then ub else RemoveTimeouts_loop (S (q_size (heap_timeo_ d))) d [].

Fixpoint ClearAll_loop (n : nat) (d : EventsDriver) (fd : Z) (acc : list Z) : M W (list Z * EventsDriver) :=
  match n with
  | O => mret (acc, d)
  | S n =>
      s ← deref (slot d fd);
      match context s with
      | Some c => '(_, d) ← RegEventDel d fd; ClearAll_loop n d (fd + 1) (acc ++ [c])
      | None => ClearAll_loop n d (fd + 1) acc
      end
  end.

Definition ClearAll (d : EventsDriver) : M W (list Z * EventsDriver) :=
  '(ok, d) ← raii d;
  if negb ok then ub else ClearAll_loop (length (fd_to_event_ctx_ d)) d 0 [].

(** ** The invariant: timeouts and descriptors refer to each other *)

Context `{TQL : !TimeoutQueueLaws Q}.

Record drv_ok (d : EventsDriver) : Prop := {
  do_q : q_ok (heap_timeo_ d);
  do_init : init_ d = true;
  do_slot (i : nat) s : fd_to_event_ctx_ d !! i = Some s -> sign_timeo s <> 0%nat ->
    exists e, q_live (heap_timeo_ d) !! sign_timeo s = Some e /\ t_fd e = Z.of_nat i;
  do_live h e : q_live (heap_timeo_ d) !! h = Some e ->
    h <> 0%nat /\ exists i s, t_fd e = Z.of_nat i /\ fd_to_event_ctx_ d !! i = Some s /\ sign_timeo s = h;
}.

Definition pending (d : EventsDriver) : gmap nat EventTimeo := q_live (heap_timeo_ d).

Lemma slot_Some d fd s : slot d fd = Some s <-> 0 <= fd /\ fd_to_event_ctx_ d !! Z.to_nat fd = Some s.
Proof.
  unfold slot. destruct (Z.ltb_spec fd 0); split; try done; try lia. tauto.
Qed.

(** Two descriptors never share a timeout. *)
Lemma sign_inj d i j s t : drv_ok d -> fd_to_event_ctx_ d !! i = Some s -> fd_to_event_ctx_ d !! j = Some t ->
  sign_timeo s = sign_timeo t -> sign_timeo s <> 0%nat -> i = j.
Proof.
  intros Hok Hi Hj E N. destruct (do_slot d Hok i s Hi N) as (e & L & F).
  rewrite E in N. destruct (do_slot d Hok j t Hj N) as (e' & L' & F').
  rewrite E in L. rewrite L in L'. injection L' as <-. lia.
Qed.

(** Changing the context or dropping the handle of a slot. *)
Lemma set_slot_ok d q fd s s' : drv_ok d -> slot d fd = Some s -> q_ok q ->
  (sign_timeo s' = sign_timeo s /\ q_live q = pending d \/
   sign_timeo s' = 0%nat /\ q_live q = delete (sign_timeo s) (pending d)) ->
  drv_ok (set_slot d q fd s').
Proof.
  intros Hok [Hfd Hs]%slot_Some Hq C. split; [done|apply Hok|..]; cbn [heap_timeo_ fd_to_event_ctx_ set_slot with_slots].
  - intros i t Hi Hn. apply list_lookup_insert_Some in Hi as [(<- & -> & _)|[Hne Hi]].
    + destruct C as [[E ->]|[E _]]; [|done]. rewrite E in *. by apply (do_slot d Hok).
    + destruct (do_slot d Hok i t Hi Hn) as (e & L & F). exists e. split; [|done].
      destruct C as [[_ ->]|[_ ->]]; [done|]. rewrite lookup_delete_ne; [done|].
      intros E. apply Hne. apply (sign_inj d _ _ s t Hok Hs Hi E). by rewrite E.
  - intros h e He. destruct C as [[E Hl]|[E Hl]]; rewrite Hl in He.
    + destruct (do_live d Hok h e He) as (N & i & t & F & Hi & St). split; [done|].
      destruct (decide (i = Z.to_nat fd)) as [->|Ne].
      * exists (Z.to_nat fd), s'. rewrite Hs in Hi. injection Hi as <-. split_and!; [done| |congruence].
        apply list_lookup_insert_eq. by eapply lookup_lt_Some.
      * exists i, t. split_and!; [done|by rewrite list_lookup_insert_ne|done].
    + apply lookup_delete_Some in He as [Hne He].
      destruct (do_live d Hok h e He) as (N & i & t & F & Hi & St). split; [done|].
      exists i, t. split_and!; [done| |done]. rewrite list_lookup_insert_ne; [done|].
      intros <-. rewrite Hs in Hi. injection Hi as <-. done.
Qed.

(** A slot without a handle gets the handle of a new entry. *)
Lemma set_slot_new d q fd s c sign e : drv_ok d -> slot d fd = Some s -> sign_timeo s = 0%nat -> q_ok q ->
  (0 < sign)%nat -> pending d !! sign = None -> q_live q = <[sign := e]> (pending d) -> t_fd e = fd ->
  drv_ok (set_slot d q fd (mkSlot c sign)).
Proof.
  intros Hok [Hfd Hs]%slot_Some Hz Hq Hp Hn Hl Hf. split; [done|apply Hok|..]; cbn [heap_timeo_ fd_to_event_ctx_ set_slot with_slots].
  - intros i t Hi Ht. rewrite Hl. apply list_lookup_insert_Some in Hi as [(<- & <- & _)|[Hne Hi]].
    + exists e. cbn. rewrite lookup_insert_eq. split; [done|lia].
    + destruct (do_slot d Hok i t Hi Ht) as (e' & L & F). exists e'. split; [|done].
      rewrite lookup_insert_ne; [done|]. intros E. rewrite <- E in L. unfold pending in Hn. congruence.
  - intros h e' He. rewrite Hl in He. apply lookup_insert_Some in He as [[<- <-]|[Hne He]].
    + split; [lia|]. exists (Z.to_nat fd), (mkSlot c sign). split_and!; [lia| |done].
      apply list_lookup_insert_eq. by eapply lookup_lt_Some.
    + destruct (do_live d Hok h e' He) as (N & i & t & F & Hi & St). split; [done|].
      exists i, t. split_and!; [done| |done]. rewrite list_lookup_insert_ne; [done|].
      intros <-. rewrite Hs in Hi. injection Hi as <-. congruence.
Qed.

Lemma raii_ready d w : init_ d = true -> raii d w = Some ((true, d), w).
Proof. unfold raii. by intros ->. Qed.

Lemma slot_set_slot d q fd s s' fd' : slot d fd = Some s ->
  slot (set_slot d q fd s') fd' = if decide (fd' = fd) then Some s' else slot d fd'.
Proof.
  intros [Hfd Hs]%slot_Some. unfold slot. destruct (Z.ltb_spec fd' 0); case_decide; subst; try done; try lia.
  - cbn. apply list_lookup_insert_eq. by eapply lookup_lt_Some.
  - cbn. apply list_lookup_insert_ne. lia.
Qed.

(** [RegEventDel] on a known descriptor: no fault, the invariant is kept, the
    timeout of the descriptor and no other is gone. *)
Lemma RegEventDel_spec d fd s (w : W) : drv_ok d -> slot d fd = Some s ->
  exists b d' w', RegEventDel d fd w = Some ((b, d'), w') /\ drv_ok d' /\
    pending d' = delete (sign_timeo s) (pending d) /\
    slot d' fd = Some (mkSlot (if b then None else context s) 0) /\
    (forall fd', fd' <> fd -> slot d' fd' = slot d fd').
Proof.
  intros Hok Hs. unfold RegEventDel. rewrite (bind_run _ _ _ _ _ (raii_ready d w (do_init d Hok))).
  cbn [negb]. unfold RegEventDel_body. mderef Hs.
  assert (exists d1, (if decide (sign_timeo s = 0%nat) then mret d
       else q ← deref (q_erase (heap_timeo_ d) (sign_timeo s));
            mret (set_slot d q fd (mkSlot (context s) 0))) w = Some (d1, w) /\ drv_ok d1 /\
       pending d1 = delete (sign_timeo s) (pending d) /\ slot d1 fd = Some (mkSlot (context s) 0) /\
       (forall fd', fd' <> fd -> slot d1 fd' = slot d fd')) as (d1 & E & Ok1 & P1 & S1 & O1).
  { destruct s as [c sg]. cbn [sign_timeo context] in *. case_decide as D.
    - subst sg. exists d. split_and!; try done. symmetry. apply delete_id.
      destruct (pending d !! 0%nat) as [e|] eqn:L; [|done]. by destruct (do_live d Hok 0 e L).
    - destruct (do_slot d Hok _ _ (proj2 (proj1 (slot_Some d fd _) Hs)) D) as (e & L & F). cbn in L.
      destruct (q_erase_law (heap_timeo_ d) sg (do_q d Hok)) as (q & Eq & Hq & Lq); [by eexists|].
      mderef Eq. eexists. split; [done|]. split_and!.
      + eapply set_slot_ok; [done..|]. by right.
      + done.
      + rewrite (slot_set_slot d q fd _ _ fd Hs). by rewrite decide_True.
      + intros fd' N. rewrite (slot_set_slot d q fd _ _ fd' Hs). by rewrite decide_False. }
  mrun E. destruct (lock_Lock w) as [[|] w1] eqn:Lk; mcall Lk; cbn [negb].
  2: { eexists false, d1, w1. split_and!; done. }
  destruct (epoll_ctl (fd_epoll_ d1) EPOLL_CTL_DEL fd 0 w1) as [r w2] eqn:C. mcall C.
  destruct (r =? 0); cbn [negb].
  - eexists true, _, w2. split; [done|]. split_and!.
    + eapply set_slot_ok; [done..|apply Ok1|]. by left.
    + done.
    + rewrite (slot_set_slot d1 _ fd _ _ fd S1). by rewrite decide_True.
    + intros fd' N. rewrite (slot_set_slot d1 _ fd _ _ fd' S1), decide_False by done. by apply O1.
  - eexists false, d1, w2. split_and!; done.
Qed.
Lemma grow_spec d fd : drv_ok d -> 0 <= fd ->
  drv_ok (grow d fd) /\ pending (grow d fd) = pending d /\
  (exists s, slot (grow d fd) fd = Some s) /\
  (forall fd' s, slot d fd' = Some s -> slot (grow d fd) fd' = Some s) /\
  (forall fd' s, slot (grow d fd) fd' = Some s -> slot d fd' = Some s \/ s = empty_slot).
Proof.
  intros Hok Hfd. unfold grow. destruct (Z.leb_spec (Z.of_nat (length (fd_to_event_ctx_ d))) fd) as [L|L].
  2: { split_and!; auto. unfold slot. rewrite (proj2 (Z.ltb_ge _ _)) by lia.
       apply lookup_lt_is_Some_2. lia. }
  set (l := fd_to_event_ctx_ d) in *. set (n := (Z.to_nat (fd + 1) - length l)%nat).
  assert (forall i s, (l ++ replicate n empty_slot) !! i = Some s -> l !! i = Some s \/ s = empty_slot) as App.
  { intros i s [Hi|[_ Hi]]%lookup_app_Some; [by left|right].
    by apply lookup_replicate in Hi as [-> _]. }
  split_and!.
  - split; cbn; [apply Hok|apply Hok|..].
    + intros i s [Hi| ->]%App Hn; [by apply (do_slot d Hok)|done].
    + intros h e He. destruct (do_live d Hok h e He) as (N & j & s & F & Hj & St). split; [done|].
      exists j, s. split_and!; [done|by apply lookup_app_l_Some|done].
  - done.
  - unfold slot. rewrite (proj2 (Z.ltb_ge _ _)) by lia. cbn. apply lookup_lt_is_Some_2.
    rewrite length_app, length_replicate. lia.
  - intros fd' s [? Hs]%slot_Some. apply slot_Some. split; [done|]. cbn. by apply lookup_app_l_Some.
  - intros fd' s [? Hs]%slot_Some. cbn in Hs. apply App in Hs as [Hs|]; [left|by right].
    by apply slot_Some.
Qed.

Lemma ctl_or_del_spec d op fd ev s (w : W) : drv_ok d -> slot d fd = Some s ->
  exists b d' w', ctl_or_del d op fd ev w = Some ((b, d'), w') /\ drv_ok d' /\ (b = true -> d' = d) /\
    (b = false -> pending d' = delete (sign_timeo s) (pending d) /\
       exists c, slot d' fd = Some (mkSlot c 0)) /\
    (forall fd', fd' <> fd -> slot d' fd' = slot d fd').
Proof.
  intros Hok Hs. unfold ctl_or_del.
  assert (forall w, exists d' w', (RegEventDel d fd ≫= λ '(_, d), mret (false, d)) w = Some ((false, d'), w') /\
    drv_ok d' /\ pending d' = delete (sign_timeo s) (pending d) /\
    (exists c, slot d' fd = Some (mkSlot c 0)) /\ (forall fd', fd' <> fd -> slot d' fd' = slot d fd')) as Del.
  { intros w0. destruct (RegEventDel_spec d fd s w0 Hok Hs) as (b & d' & w' & E & O & P & S & R).
    mrun E. eexists _, _. split; [done|]. split_and!; [done|done|by eexists|done]. }
  destruct (lock_Lock w) as [[|] w1] eqn:Lk; mcall Lk; cbn [negb].
  2: { destruct (Del w1) as (d' & w' & E & O & P & S & R). exists false, d', w'. by split_and!. }
  destruct (epoll_ctl (fd_epoll_ d) op fd ev w1) as [r w2] eqn:C. mcall C.
  destruct (r =? 0); cbn [negb].
  - exists true, d, w2. by split_and!.
  - destruct (Del w2) as (d' & w' & E & O & P & S & R). exists false, d', w'. by split_and!.
Qed.

(** The timeout part of an addition on a slot without a handle. *)
Lemma add_timeout d fd s c timeo (w : W) : drv_ok d -> slot d fd = Some s -> sign_timeo s = 0%nat ->
  exists d' w' sign, (if 0 <=? timeo then
       now ← IOHelper.GetCurrentMsec false;
       '(q, sign) ← deref (q_insert (heap_timeo_ d) (mkTimeo (now + timeo) fd));
       mret (set_slot d q fd (mkSlot c sign))
     else mret (set_slot d (heap_timeo_ d) fd (mkSlot c 0))) w = Some (d', w') /\
    drv_ok d' /\ slot d' fd = Some (mkSlot c sign) /\ (forall fd', fd' <> fd -> slot d' fd' = slot d fd') /\
    (0 <= timeo -> exists now w1, IOHelper.GetCurrentMsec false w = Some (now, w1) /\
       pending d !! sign = None /\ pending d' = <[sign := mkTimeo (now + timeo) fd]> (pending d)) /\
    (timeo < 0 -> sign = 0%nat /\ pending d' = pending d).
Proof.
  intros Hok Hs Hz. destruct (Z.leb_spec 0 timeo) as [L|L].
  - destruct (IOHelper.GetCurrentMsec_run false w) as (now & w1 & E). mrun E.
    destruct (q_insert_law (heap_timeo_ d) (mkTimeo (now + timeo) fd) (do_q d Hok))
      as (q & sign & Eq & Hq & Hp & Hn & Hl). mderef Eq.
    eexists _, _, sign. split; [done|]. split_and!.
    + by eapply set_slot_new.
    + by rewrite (slot_set_slot d q fd s _ fd Hs), decide_True.
    + intros fd' N. by rewrite (slot_set_slot d q fd s _ fd' Hs), decide_False.
    + intros _. exists now, w1. done.
    + lia.
  - eexists _, _, 0%nat. split; [done|]. split_and!; [|..|lia|done].
    + eapply set_slot_ok; [done..|apply Hok|]. left. done.
    + by rewrite (slot_set_slot d _ fd s _ fd Hs), decide_True.
    + intros fd' N. by rewrite (slot_set_slot d _ fd s _ fd' Hs), decide_False.
Qed.

(** Registering a descriptor that has no timeout pending: no fault, and on
    success its context and its only timeout are the new ones. *)
Lemma RegEvent_add d fd dir ctx timeo (w : W) : drv_ok d -> 0 <= fd ->
  (forall s, slot d fd = Some s -> sign_timeo s = 0%nat) ->
  exists b d' w', RegEvent d fd kAddEvent dir ctx timeo w = Some ((b, d'), w') /\ drv_ok d' /\
    (b = true -> exists sign, slot d' fd = Some (mkSlot (Some ctx) sign) /\
       (0 <= timeo -> exists now w1, IOHelper.GetCurrentMsec false w = Some (now, w1) /\
          pending d' = <[sign := mkTimeo (now + timeo) fd]> (pending d))) /\
    (b = false -> pending d' = pending d /\ exists c, slot d' fd = Some (mkSlot c 0)) /\
    (forall fd' s, fd' <> fd -> slot d fd' = Some s -> slot d' fd' = Some s).
Proof.
  intros Hok Hfd Hz. unfold RegEvent.
  rewrite (bind_run _ _ _ _ _ (raii_ready d w (do_init d Hok))). cbn beta iota zeta delta [negb].
  destruct (grow_spec d fd Hok Hfd) as (Ok1 & P1 & [s Hs] & K1 & K2). set (g := grow d fd) in *.
  assert (sign_timeo s = 0%nat) as Hz'.
  { destruct (K2 fd s Hs) as [H| ->]; [by apply Hz|done]. }
  mderef Hs.
  destruct (add_timeout g fd s (Some ctx) timeo w Ok1 Hs Hz') as (d2 & w2 & sign & E & Ok2 & S2 & O2 & T2 & T2').
  mrun E.
  destruct (ctl_or_del_spec d2 EPOLL_CTL_ADD fd (match dir with kIn => event_in_ g | _ => event_out_ g end)
    _ w2 Ok2 S2) as (b & d3 & w3 & E3 & Ok3 & T3 & F3 & O3).
  exists b, d3, w3. split_and!; [exact E3|done| | |].
  - intros Hb. rewrite (T3 Hb). exists sign. split; [done|]. intros Ht.
    destruct (T2 Ht) as (now & w1 & M1 & _ & M2). exists now, w1. by rewrite <- P1.
  - intros Hb. destruct (F3 Hb) as [F4 F5]. split; [|done]. rewrite F4. cbn [sign_timeo].
    destruct (Z.leb_spec 0 timeo) as [L|L].
    + destruct (T2 L) as (now & w1 & _ & M1 & M2). rewrite M2, delete_insert_id by done. done.
    + destruct (T2' L) as [-> ->]. rewrite P1. apply delete_id. destruct (pending d !! 0%nat) as [e|] eqn:Z; [|done].
      by destruct (do_live d Hok 0 e Z).
  - intros fd' s' N Hs'. rewrite O3, O2 by done. by apply K1.
Qed.

(** What a successful registration without a timeout did. *)
Lemma RegEvent_added d fd dir c (w : W) d' w' : init_ d = true -> RegEvent d fd kAddEvent dir c (-1) w = Some ((true, d'), w') ->
  d' = set_slot (grow d fd) (heap_timeo_ (grow d fd)) fd (mkSlot (Some c) 0) /\
  exists ev w1, lock_Lock w = (true, w1) /\ epoll_ctl (fd_epoll_ (grow d fd)) EPOLL_CTL_ADD fd ev w1 = (0, w').
Proof.
  intros Hi E. unfold RegEvent in E. step E as [ok d1] w1 E1. rewrite (raii_ready d w Hi) in E1. injection E1 as <- <- <-. cbn [negb] in E.
  step E as sl w1 E1. apply deref_inv in E1 as [_ ->]. cbn [Z.leb Z.compare] in E. step E as d2 w1 E1. injection E1 as <- <-.
  unfold ctl_or_del in E. step E as locked w1 E1. unfold call in E1. injection E1 as E1.
  destruct locked; cbn [negb] in E; [|step E as [x d3] w2 E2; done]. step E as ret w2 E2. unfold call in E2. injection E2 as E2.
  destruct (Z.eqb_spec ret 0) as [->|]; cbn [negb] in E; [|step E as [x d3] w3 E3; done]. injection E as <- <-. split; [done|]. by eexists _, w1.
Qed.
Lemma added_slot d fd c : drv_ok d -> 0 <= fd -> slot (set_slot (grow d fd) (heap_timeo_ (grow d fd)) fd (mkSlot (Some c) 0)) fd = Some (mkSlot (Some c) 0).
Proof. intros Hok Hfd. destruct (grow_spec d fd Hok Hfd) as (_ & _ & [sl Gs] & _). by rewrite (slot_set_slot _ _ _ _ _ _ Gs), decide_True. Qed.

(** Moving a timeout that is pending. *)
Lemma update_ok d fd s q e : drv_ok d -> slot d fd = Some s -> sign_timeo s <> 0%nat -> q_ok q ->
  t_fd e = fd -> q_live q = <[sign_timeo s := e]> (pending d) -> drv_ok (with_slots d q (fd_to_event_ctx_ d)).
Proof.
  intros Hok [Hfd Hs]%slot_Some Hz Hq Hf Hl. split; [done|apply Hok|..]; cbn.
  - intros i t Hi Ht. rewrite Hl. destruct (decide (sign_timeo s = sign_timeo t)) as [E|N].
    + rewrite E, lookup_insert_eq. eexists. split; [done|].
      rewrite <- (sign_inj d _ _ s t Hok Hs Hi E Hz). lia.
    + rewrite lookup_insert_ne by done. by apply (do_slot d Hok).
  - intros h e' He. rewrite Hl in He. apply lookup_insert_Some in He as [[<- <-]|[N He]].
    + split; [done|]. exists (Z.to_nat fd), s. split_and!; [lia|done|done].
    + by apply (do_live d Hok).
Qed.

(** The timeout of a descriptor is set anew. *)
Lemma renew_timeout d fd timeo s now (w w1 : W) : drv_ok d -> slot d fd = Some s -> IOHelper.GetCurrentMsec false w = Some (now, w1) ->
  exists d2 sign, (now ← IOHelper.GetCurrentMsec false;
      if decide (sign_timeo s = 0%nat) then
        '(q, sign) ← deref (q_insert (heap_timeo_ d) (mkTimeo (now + timeo) fd));
        mret (set_slot d q fd (mkSlot (context s) sign))
      else q ← deref (q_update (heap_timeo_ d) (sign_timeo s) (mkTimeo (now + timeo) fd));
        mret (with_slots d q (fd_to_event_ctx_ d))) w = Some (d2, w1) /\ drv_ok d2 /\
    slot d2 fd = Some (mkSlot (context s) sign) /\ (forall fd', fd' <> fd -> slot d2 fd' = slot d fd') /\
    pending d2 = <[sign := mkTimeo (now + timeo) fd]> (delete (sign_timeo s) (pending d)) /\
    delete sign (pending d2) = delete (sign_timeo s) (pending d).
Proof.
  intros Hok Hs E. mrun E. case_decide as D.
  - destruct (q_insert_law (heap_timeo_ d) (mkTimeo (now + timeo) fd) (do_q d Hok))
      as (q & sign & Eq & Hq & Hp & Hn & Hl). mderef Eq. exists (set_slot d q fd (mkSlot (context s) sign)), sign.
    assert (delete (sign_timeo s) (pending d) = pending d) as ->.
    { apply delete_id. rewrite D. destruct (pending d !! 0%nat) as [e|] eqn:Z; [|done].
      by destruct (do_live d Hok 0 e Z). }
    split_and!; [done|by eapply set_slot_new|..].
    + by rewrite (slot_set_slot d q fd s _ fd Hs), decide_True.
    + intros fd' N. by rewrite (slot_set_slot d q fd s _ fd' Hs), decide_False.
    + done.
    + change (pending (set_slot d q fd _)) with (q_live q). rewrite Hl. by apply delete_insert_id.
  - destruct (do_slot d Hok _ s (proj2 (proj1 (slot_Some d fd s) Hs)) D) as (e0 & L0 & _).
    destruct (q_update_law (heap_timeo_ d) (sign_timeo s) (mkTimeo (now + timeo) fd) (do_q d Hok))
      as (q & Eq & Hq & Hl); [by eexists|]. mderef Eq. exists (with_slots d q (fd_to_event_ctx_ d)), (sign_timeo s).
    split_and!; [done|by apply (update_ok d fd s q (mkTimeo (now + timeo) fd))|by destruct s|done|..].
    + change (pending (with_slots d q _)) with (q_live q). by rewrite Hl, insert_delete_eq.
    + change (pending (with_slots d q _)) with (q_live q). by rewrite Hl, delete_insert_eq.
Qed.

(** Re-registering a descriptor: no fault, its context is kept and on success
    its only timeout is the new one. *)
Lemma RegEvent_mod d fd dir ctx timeo s (w : W) : drv_ok d -> slot d fd = Some s -> 0 <= timeo ->
  exists b d' w', RegEvent d fd kModEvent dir ctx timeo w = Some ((b, d'), w') /\ drv_ok d' /\
    (b = true -> exists sign now w1, slot d' fd = Some (mkSlot (context s) sign) /\
       IOHelper.GetCurrentMsec false w = Some (now, w1) /\
       pending d' = <[sign := mkTimeo (now + timeo) fd]> (delete (sign_timeo s) (pending d))) /\
    (b = false -> pending d' = delete (sign_timeo s) (pending d) /\ exists c, slot d' fd = Some (mkSlot c 0)) /\
    (forall fd', fd' <> fd -> slot d' fd' = slot d fd').
Proof.
  intros Hok Hs Ht. unfold RegEvent.
  rewrite (bind_run _ _ _ _ _ (raii_ready d w (do_init d Hok))). cbn beta iota zeta delta [negb].
  assert (grow d fd = d) as ->.
  { unfold grow. apply slot_Some in Hs as [? Hs]. apply lookup_lt_Some in Hs.
    by rewrite (proj2 (Z.leb_gt _ _)) by lia. }
  mderef Hs. rewrite (proj2 (Z.leb_le _ _)) by done.
  destruct (IOHelper.GetCurrentMsec_run false w) as (now & w1 & E).
  destruct (renew_timeout d fd timeo s now w w1 Hok Hs E) as (d2 & sign & E2 & Ok2 & S2 & O2 & P2 & P2').
  mrun E2.
  destruct (ctl_or_del_spec d2 EPOLL_CTL_MOD fd (match dir with kIn => event_in_ d | _ => event_out_ d end)
    _ w1 Ok2 S2) as (b & d3 & w3 & E3 & Ok3 & T3 & F3 & O3).
  exists b, d3, w3. split_and!; [exact E3|done| | |].
  - intros Hb. rewrite (T3 Hb). exists sign, now, w1. done.
  - intros Hb. destruct (F3 Hb) as [F4 F5]. split; [by rewrite F4|done].
  - intros fd' N. by rewrite O3, O2.
Qed.

(** Without a new timeout the pending one stays. *)
Lemma RegEvent_mod_none d fd dir ctx timeo s (w : W) : drv_ok d -> slot d fd = Some s -> timeo < 0 ->
  exists b d' w', RegEvent d fd kModEvent dir ctx timeo w = Some ((b, d'), w') /\ drv_ok d' /\
    (b = true -> d' = d) /\
    (b = false -> pending d' = delete (sign_timeo s) (pending d) /\ exists c, slot d' fd = Some (mkSlot c 0)) /\
    (forall fd', fd' <> fd -> slot d' fd' = slot d fd').
Proof.
  intros Hok Hs Ht. unfold RegEvent.
  rewrite (bind_run _ _ _ _ _ (raii_ready d w (do_init d Hok))). cbn beta iota zeta delta [negb].
  assert (grow d fd = d) as ->.
  { unfold grow. apply slot_Some in Hs as [? Hs]. apply lookup_lt_Some in Hs.
    by rewrite (proj2 (Z.leb_gt _ _)) by lia. }
  mderef Hs. rewrite (proj2 (Z.leb_gt _ _)) by done. mpure. by apply ctl_or_del_spec.
Qed.

(** ** Timeouts *)

Section Timeouts.
Context `{CKL : !ClockLaws W, EPL : !EpollLaws W}.

Definition now_ms (w : W) : Z := Z.quot (time_ w) 1000.

Lemma now_ms_mono w w' : time_ w <= time_ w' -> now_ms w <= now_ms w'.
Proof. intros. unfold now_ms. apply Z.quot_le_mono; lia. Qed.

Lemma RegEventDel_mono d fd w r w' : init_ d = true -> RegEventDel d fd w = Some (r, w') -> time_ w <= time_ w'.
Proof.
  intros Hi. unfold RegEventDel. rewrite (bind_run _ _ _ _ _ (raii_ready d w Hi)). cbn [negb].
  unfold RegEventDel_body. intros E. apply bind_Some in E as (s & w0 & E0 & E).
  unfold deref in E0. destruct (slot d fd); [|done]. injection E0 as <- <-.
  apply bind_Some in E as (d1 & w1 & E1 & E).
  assert (w1 = w) as ->.
  { case_decide; [by injection E1|]. apply bind_Some in E1 as (q & w2 & E2 & E1).
    unfold deref in E2. destruct (q_erase _ _); [|done]. injection E2 as <- <-. by injection E1. }
  apply bind_Some in E as (b & w2 & E2 & E). pose proof (lock_mono w) as L. unfold call in E2.
  injection E2 as E2. rewrite E2 in L. cbn in L. destruct b; cbn [negb] in E; [|by injection E as <- <-].
  apply bind_Some in E as (z & w3 & E3 & E). pose proof (ctl_mono (fd_epoll_ d1) EPOLL_CTL_DEL fd 0 w2) as C.
  unfold call in E3. injection E3 as E3. rewrite E3 in C. cbn in C.
  destruct (z =? 0); cbn [negb] in E; injection E as <- <-; lia.
Qed.

(** Entries of [m] that are gone in [m']. *)
Definition gone (m m' : gmap nat EventTimeo) (h : nat) (e : EventTimeo) : Prop :=
  m !! h = Some e /\ m' !! h = None.

Record timeouts_post (d d' : EventsDriver) (w w' : W) (cs : list Z) : Prop := {
  tp_ok : drv_ok d';
  tp_sub h e : pending d' !! h = Some e -> pending d !! h = Some e;
  tp_left h e : pending d' !! h = Some e -> now_ms w <= expire_time_ms e;
  tp_gone h e : gone (pending d) (pending d') h e -> expire_time_ms e < now_ms w';
  tp_ctx c : c ∈ cs <-> exists h e s, gone (pending d) (pending d') h e /\
    slot d (t_fd e) = Some s /\ context s = Some c;
  tp_time : time_ w <= time_ w';
}.

Lemma timeouts_stop d w : drv_ok d -> 
  (forall h e, pending d !! h = Some e -> now_ms w <= expire_time_ms e) -> timeouts_post d d w w [].
Proof.
  intros Hok Hl. split; try done.
  - intros h e [H1 H2]. congruence.
  - intros c. split; [by inversion 1|]. intros (h & e & s & [H1 H2] & _). congruence.
Qed.

(** A timeout that has passed is removed first, then the others. *)
Lemma timeouts_step d d1 d' h e s i cs (w w1 w2 w' : W) : drv_ok d -> pending d !! h = Some e -> expire_time_ms e < now_ms w1 ->
  fd_to_event_ctx_ d !! i = Some s -> t_fd e = Z.of_nat i -> sign_timeo s = h -> slot d (t_fd e) = Some s ->
  pending d1 = delete h (pending d) -> (forall fd', fd' <> t_fd e -> slot d1 fd' = slot d fd') ->
  time_ w <= time_ w1 -> time_ w1 <= time_ w2 -> timeouts_post d1 d' w2 w' cs ->
  timeouts_post d d' w w' (match context s with Some c => c :: cs | None => cs end).
Proof.
  intros Hok Hh L Hi F St Hs P1 O1 Hm Hm2 [A B C D G K].
  assert (pending d' !! h = None) as Hgone.
  { destruct (pending d' !! h) as [e'|] eqn:H'; [|done]. apply B in H'. by rewrite P1, lookup_delete_eq in H'. }
  assert (forall h' e', h' <> h -> gone (pending d) (pending d') h' e' <-> gone (pending d1) (pending d') h' e') as GG.
  { intros h' e' Hne. unfold gone. by rewrite P1, lookup_delete_ne by done. }
  pose proof (now_ms_mono w1 w2 Hm2) as Q1. pose proof (now_ms_mono w w1 Hm) as Q2. pose proof (now_ms_mono w2 w' K) as Q3.
  split; try done; try lia.
  - intros h' e' H'. apply B in H'. rewrite P1 in H'. by apply lookup_delete_Some in H' as [_ ?].
  - intros h' e' H'. specialize (C h' e' H'). lia.
  - intros h' e' H'. destruct (decide (h' = h)) as [->|Hne]; [|by apply GG, D in H'].
    destruct H' as [H' _]. rewrite Hh in H'. injection H' as <-. lia.
  - assert (forall h' e', h' <> h -> pending d !! h' = Some e' -> t_fd e' <> t_fd e) as Hfd.
    { intros h' e' Hne H' Ef. destruct (do_live d Hok h' e' H') as (_ & i' & s' & F' & Hi' & St').
      apply Hne. rewrite <- St', <- St. assert (i = i') as -> by lia. rewrite Hi in Hi'. by injection Hi' as ->. }
    intros c. assert (c ∈ match context s with Some c0 => c0 :: cs | None => cs end <->
      context s = Some c \/ c ∈ cs) as ->.
    { destruct (context s) as [c0|]; [rewrite elem_of_cons|]; naive_solver. }
    rewrite G. split.
    + intros [Hc|(h' & e' & s' & H1 & H2 & H3)].
      * exists h, e, s. by split_and!.
      * assert (h' <> h) as Hne. { intros ->. destruct H1 as [H1 _]. by rewrite P1, lookup_delete_eq in H1. }
        exists h', e', s'. apply GG in H1; [|done]. split_and!; [done| |done].
        rewrite <- O1; [done|]. eapply Hfd; [done|apply H1].
    + intros (h' & e' & s' & H1 & H2 & H3). destruct (decide (h' = h)) as [->|Hne].
      * destruct H1 as [H1 _]. rewrite Hh in H1. injection H1 as <-. rewrite Hs in H2. injection H2 as <-. by left.
      * right. exists h', e', s'. pose proof (Hfd h' e' Hne (proj1 H1)).
        apply GG in H1; [|done]. split_and!; [done| |done]. by rewrite O1.
Qed.

Lemma RemoveTimeouts_loop_spec n : forall d acc (w : W), drv_ok d -> (size (pending d) < n)%nat ->
  exists cs d' w', RemoveTimeouts_loop n d acc w = Some ((acc ++ cs, d'), w') /\ timeouts_post d d' w w' cs.
Proof.
  induction n as [|n IH]; intros d acc w Hok Hn; [lia|]. cbn [RemoveTimeouts_loop].
  pose proof (q_top_law (heap_timeo_ d) (do_q d Hok)) as T. fold (pending d) in T.
  destruct (q_top (heap_timeo_ d)) as [e|].
  2: { exists [], d, w. rewrite app_nil_r. split; [done|]. apply timeouts_stop; [done|].
       intros h e. rewrite T, lookup_empty. done. }
  destruct T as [[h Hh] Tmin]. destruct (IOHelper.GetCurrentMsec_run false w) as (now & w1 & E). mrun E.
  apply IOHelper.Msec_law in E as [-> Hm]. fold (now_ms w1).
  destruct (Z.leb_spec (now_ms w1) (expire_time_ms e)) as [L|L].
  { exists [], d, w1. rewrite app_nil_r. split; [done|]. pose proof (now_ms_mono _ _ Hm).
    destruct (timeouts_stop d w Hok) as [A B C D G _].
    - intros h' e' H'. specialize (Tmin h' e' H'). lia.
    - split; try done. intros h' e' [H1 H2]. congruence. }
  destruct (do_live d Hok h e Hh) as (N & i & s & F & Hi & St).
  assert (slot d (t_fd e) = Some s) as Hs.
  { rewrite F. apply slot_Some. split; [lia|]. by rewrite Nat2Z.id. }
  mderef Hs. destruct (RegEventDel_spec d (t_fd e) s w1 Hok Hs) as (b & d1 & w2 & E1 & Ok1 & P1 & S1 & O1).
  pose proof (RegEventDel_mono _ _ _ _ _ (do_init d Hok) E1) as Hm2. mrun E1. rewrite St in P1.
  set (acc' := match context s with Some c => acc ++ [c] | None => acc end).
  destruct (IH d1 acc' w2 Ok1) as (cs & d' & w' & E2 & Post).
  { rewrite P1, map_size_delete_Some by (by eexists). pose proof (map_size_ne_0_lookup_2 (pending d)). 
    assert (size (pending d) <> 0)%nat by (apply map_size_ne_0_lookup; eauto). lia. }
  exists (match context s with Some c => c :: cs | None => cs end), d', w'. split.
  { rewrite E2. unfold acc'. destruct (context s); [by rewrite <- app_assoc|done]. }
  by eapply (timeouts_step d d1 d' h e s i cs w w1 w2 w').
Qed.

(** C18: [RemoveTimeouts] always returns on a driver whose timeouts and
    descriptors match (its loop runs at most once per pending timeout): every
    timeout that had passed when it was called is gone, only timeouts that
    have passed are gone, and the contexts returned are exactly those of the
    descriptors whose timeout is gone. *)
Theorem RemoveTimeouts_exact d (w : W) : drv_ok d ->
  exists cs d' w', RemoveTimeouts d w = Some ((cs, d'), w') /\ drv_ok d' /\
    (forall h e, pending d' !! h = Some e -> pending d !! h = Some e /\ now_ms w <= expire_time_ms e) /\
    (forall h e, gone (pending d) (pending d') h e -> expire_time_ms e < now_ms w') /\
    (forall c, c ∈ cs <-> exists h e s, gone (pending d) (pending d') h e /\
       slot d (t_fd e) = Some s /\ context s = Some c).
Proof using All.
  intros Hok. unfold RemoveTimeouts. rewrite (bind_run _ _ _ _ _ (raii_ready d w (do_init d Hok))).
  cbn [negb]. destruct (RemoveTimeouts_loop_spec (S (q_size (heap_timeo_ d))) d [] w Hok)
    as (cs & d' & w' & E & [A B C D G K]).
  { rewrite q_size_law by apply Hok. unfold pending. lia. }
  exists cs, d', w'. split_and!; [exact E|done|intros h e H'; split; [by apply B|by eapply C]|done|done].
Qed.

(** The clock is read before the descriptor is handed to epoll. *)
Lemma RegEvent_mono d fd dir ctx T (w : W) d' w' : init_ d = true -> 0 <= T -> RegEvent d fd kAddEvent dir ctx T w = Some ((true, d'), w') ->
  exists now wt, IOHelper.GetCurrentMsec false w = Some (now, wt) /\ time_ wt <= time_ w'.
Proof.
  intros Hi HT E. unfold RegEvent in E. step E as [ok d1] w1 E1. rewrite (raii_ready d w Hi) in E1. injection E1 as <- <- <-. cbn [negb] in E.
  step E as sl w1 E1. apply deref_inv in E1 as [_ ->]. rewrite (proj2 (Z.leb_le 0 T) HT) in E. step E as d2 w1 E1.
  step E1 as now wt Et. exists now, wt. split; [done|]. step E1 as [q sign] w2 E2. apply deref_inv in E2 as [_ ->]. injection E1 as _ <-.
  unfold ctl_or_del in E. step E as locked w1 E1. pose proof (lock_mono wt) as Lm. unfold call in E1. injection E1 as E1. rewrite E1 in Lm.
  destruct locked; cbn [negb] in E; [|step E as [x d3] w2 E2; done]. step E as ret w2 E2. pose proof (ctl_mono (fd_epoll_ d2) EPOLL_CTL_ADD fd
    (match dir with kIn => event_in_ (grow d fd) | _ => event_out_ (grow d fd) end) w1) as Cm. unfold call in E2. injection E2 as E2. rewrite E2 in Cm.
  destruct (Z.eqb_spec ret 0) as [->|]; cbn [negb] in E; [|step E as [x d3] w3 E3; done]. injection E as _ <-. cbn in *. lia.
Qed.

(** C17: a descriptor registered with a timeout of [T] milliseconds is reported
    by a later [RemoveTimeouts] when more than [T] milliseconds have passed
    since a moment of the registration (not before the call, and not after its
    return), and its context is not reported while they have not (unless the
    client registered the same context elsewhere). *)
Theorem timeout_fires d fd dir ctx T (w : W) d1 w1 w2 cs d2 w3 : drv_ok d -> 0 <= fd -> 0 <= T ->
  (forall s, slot d fd = Some s -> sign_timeo s = 0%nat) ->
  (forall fd' s, slot d fd' = Some s -> fd' <> fd -> context s <> Some ctx) ->
  RegEvent d fd kAddEvent dir ctx T w = Some ((true, d1), w1) ->
  RemoveTimeouts d1 w2 = Some ((cs, d2), w3) ->
  exists t, now_ms w <= t <= now_ms w1 /\ (t + T < now_ms w2 -> ctx ∈ cs) /\ (now_ms w3 <= t + T -> ctx ∉ cs).
Proof using All.
  intros Hok Hfd HT Hz Hctx ER ET.
  destruct (RegEvent_add d fd dir ctx T w Hok Hfd Hz) as (b & d1' & w1' & E & Ok1 & T1 & _ & O1).
  rewrite ER in E. injection E as <- <- <-. destruct (T1 eq_refl) as (sign & S1 & P1).
  destruct (P1 HT) as (t & wt & Mt & P2). destruct (RegEvent_mono _ _ _ _ _ _ _ _ (do_init d Hok) HT ER) as (t' & wt' & Mt' & Lt).
  rewrite Mt in Mt'. injection Mt' as <- <-. apply IOHelper.Msec_law in Mt as [Et Mt].
  destruct (RemoveTimeouts_loop_spec (S (q_size (heap_timeo_ d1))) d1 [] w2 Ok1)
    as (cs' & d2' & w3' & E2 & [A B C D G K]).
  { rewrite q_size_law by apply Ok1. unfold pending. lia. }
  unfold RemoveTimeouts in ET. rewrite (bind_run _ _ _ _ _ (raii_ready d1 w2 (do_init d1 Ok1))) in ET.
  cbn [negb] in ET. cbn [app] in E2. rewrite E2 in ET. injection ET as -> -> ->.
  assert (pending d1 !! sign = Some (mkTimeo (t + T) fd)) as L by (rewrite P2; apply lookup_insert_eq).
  exists t. split; [split; subst t; by apply now_ms_mono|]. split.
  - intros Hlt. apply G. exists sign, (mkTimeo (t + T) fd), (mkSlot (Some ctx) sign). split_and!; [|done|done].
    split; [done|]. destruct (pending d2 !! sign) as [e|] eqn:Pe; [|done].
    pose proof (C sign e Pe) as Ce. apply B in Pe. rewrite L in Pe. injection Pe as <-. cbn in Ce. lia.
  - intros Hle Hin. apply G in Hin as (h & e & s & [H1 H2] & H3 & H4).
    destruct (decide (h = sign)) as [->|Hne].
    + rewrite L in H1. injection H1 as <-. specialize (D sign (mkTimeo (t + T) fd) (conj L H2)). cbn in D. lia.
    + assert (pending d !! h = Some e) as Hd by (by rewrite P2, lookup_insert_ne in H1).
      destruct (do_live d Hok h e Hd) as (N & i & s0 & F & Hi & St).
      assert (slot d (t_fd e) = Some s0) as Hs0.
      { rewrite F. apply slot_Some. split; [lia|]. by rewrite Nat2Z.id. }
      destruct (decide (t_fd e = fd)) as [Ef|Nf].
      * rewrite Ef in Hs0. by rewrite (Hz s0 Hs0) in St.
      * apply (Hctx (t_fd e) s0 Hs0 Nf). rewrite (O1 (t_fd e) s0 Nf Hs0) in H3. congruence.
Qed.

End Timeouts.

(** The result of a deletion through [RegEvent] is inverted: when epoll
    removes the descriptor, [RegEvent] reports failure. *)
Lemma RegEvent_del_inverted d fd dir ctx t (w : W) s d1 w1 : drv_ok d -> slot d fd = Some s ->
  RegEventDel d fd w = Some ((true, d1), w1) ->
  exists d2 w2, RegEvent d fd kDelEvent dir ctx t w = Some ((false, d2), w2).
Proof.
  intros Hok Hs E. unfold RegEvent.
  rewrite (bind_run _ _ _ _ _ (raii_ready d w (do_init d Hok))). cbn beta iota zeta delta [negb].
  assert (grow d fd = d) as ->.
  { unfold grow. apply slot_Some in Hs as [? Hs]. apply lookup_lt_Some in Hs.
    by rewrite (proj2 (Z.leb_gt _ _)) by lia. }
  mrun E. destruct (RegEventDel_spec d fd s w Hok Hs) as (b & d' & w' & E' & Ok' & _ & S' & _).
  rewrite E in E'. injection E' as <- <- <-.
  destruct (RegEventDel_spec d1 fd _ w1 Ok' S') as (b2 & d2 & w2 & E2 & _). mrun E2. by eexists _, _.
Qed.
End Driver.
Arguments EventsDriver : clear implicits.

(** *** A concrete run: the heap as queue, an epoll that always succeeds *)

Record EpWorld := mkEp { ep_time : Z }.
#[global] Instance ep_clock : Clock EpWorld := {
  load_time w := (ep_time w, w); store_time t _ := mkEp t; gettimeofday w := (ep_time w, w) }.
#[global] Instance ep_clock_laws : ClockLaws EpWorld.
Proof. refine {| time_ := ep_time |}; cbn; intros; lia. Defined.
#[global] Instance ep_epoll : Epoll EpWorld := {
  epoll_create w := (3, w); epoll_ctl _ _ _ _ w := (0, w);
  epoll_wait _ _ w := ((0, []), w); lock_Lock w := (true, w) }.
#[global] Instance ep_laws : EpollLaws EpWorld.
Proof. split; cbn; intros; lia. Qed.

Definition ex_driver : EventsDriver TimeoutHeap :=
  {| event_in_ := 0; event_out_ := 0; fd_epoll_ := 3; events_ready_ := [];
     heap_timeo_ := Heap.HeapBase_new 1; fd_to_event_ctx_ := []; init_ := true |}.

Lemma ex_driver_ok : drv_ok ex_driver.
Proof.
  split; [exact (proj1 (Heap.new_valid expire_time_ms false 1 ltac:(lia)))|done|by intros [|i]|].
  intros h e. cbn. unfold Heap.live. cbn. by rewrite lookup_empty.
Qed.

Lemma ex_driver_slot fd : slot ex_driver fd = None.
Proof. unfold slot. by destruct (fd <? 0), (Z.to_nat fd). Qed.

(** Descriptor 5 registered at 1000 ms for 20 ms. *)
Definition ex_reg : option (bool * EventsDriver TimeoutHeap * EpWorld) :=
  RegEvent ex_driver 5 kAddEvent kIn 77 20 (mkEp 1000000).
Definition ex_d1 : EventsDriver TimeoutHeap :=
  match ex_reg with Some (_, d, _) => d | None => ex_driver end.

Lemma RemoveTimeouts_exact_witness :
  exists cs d' w', RemoveTimeouts ex_driver (mkEp 5) = Some ((cs, d'), w') /\ drv_ok d' /\
    (forall h e, pending d' !! h = Some e -> pending ex_driver !! h = Some e /\ now_ms (mkEp 5) <= expire_time_ms e) /\
    (forall h e, gone (pending ex_driver) (pending d') h e -> expire_time_ms e < now_ms w') /\
    (forall c, c ∈ cs <-> exists h e s, gone (pending ex_driver) (pending d') h e /\
       slot ex_driver (t_fd e) = Some s /\ context s = Some c).
Proof. apply RemoveTimeouts_exact. exact ex_driver_ok. Defined.

Lemma timeout_fires_witness :
  exists t, now_ms (mkEp 1000000) <= t <= now_ms (mkEp 1000000) /\
    (t + 20 < now_ms (mkEp 1021000) -> 77 ∈ [77]) /\ (now_ms (mkEp 1021000) <= t + 20 -> 77 ∉ [77]).
Proof.
  eapply (timeout_fires ex_driver 5 kIn 77 20 (mkEp 1000000) ex_d1 (mkEp 1000000) (mkEp 1021000) [77]).
  - exact ex_driver_ok.
  - lia.
  - lia.
  - intros s. by rewrite ex_driver_slot.
  - intros fd' s. by rewrite ex_driver_slot.
  - vm_compute. reflexivity.
  - vm_compute. reflexivity.
Defined.

(** A descriptor registered twice without a deletion in between leaves a stale
    entry in the queue; once it has expired the loop of [RemoveTimeouts] makes
    no progress. *)
Definition ex_d2 : EventsDriver TimeoutHeap :=
  match RegEvent ex_d1 5 kAddEvent kIn 78 30 (mkEp 1000000) with Some (_, d, _) => d | None => ex_driver end.

Lemma RemoveTimeouts_stale_stuck :
  RemoveTimeouts ex_d2 (mkEp 1021000) = None /\
  RemoveTimeouts_loop 50 ex_d2 [] (mkEp 1021000) = None.
Proof. vm_compute. split; reflexivity. Qed.

End EventsDriver.
