(* ===== verification/PoolObjs.v ===== *)
(** * PoolObjs: recycling of objects

    Models deps/public-cpp/include/public-cpp/pool_objs/pool_objs.hpp, with the
    lock policy [NoLock] the program uses.  A pool keeps the pointers of its
    free objects in rows of [num_objs_per_block_] slots and a position
    (row, column) in them, which it uses as a stack.  Objects live in a store;
    [new] always succeeds. *)

From Stdlib Require Import ZArith Lia.
From stdpp Require Import base list gmap numbers option.
From S2P Require Import Prelude.

(** ** The store of one class of objects *)

Module Store.
Section Store.
Context {Obj : Type}.

Record Store := mkStore { objs : gmap Z Obj; next : Z }.
Definition nothing : Store := mkStore ∅ 1.

Definition new (o : Obj) : M Store Z := fun s =>
  Some (next s, mkStore (<[next s := o]> (objs s)) (next s + 1)).
(** [delete]: undefined on a pointer that is not allocated. *)
Definition free (p : Z) : M Store () := fun s =>
  match objs s !! p with
  | Some _ => Some ((), mkStore (delete p (objs s)) (next s))
  | None => None
  end.
Definition load (s : Store) (p : Z) : option Obj := objs s !! p.
Definition store (p : Z) (o : Obj) (s : Store) : Store := mkStore (<[p := o]> (objs s)) (next s).

(** Pointers are never null and addresses that were not handed out are free. *)
Definition ok (s : Store) : Prop := 0 < next s /\ forall p, is_Some (objs s !! p) -> 0 < p < next s.

Lemma ok_nothing : ok nothing.
Proof. split; [done|]. intros p [? H]. cbn in H. by rewrite lookup_empty in H. Qed.

Lemma ok_new o s p s' : ok s -> new o s = Some (p, s') ->
  ok s' /\ p = next s /\ objs s !! p = None /\ objs s' = <[p := o]> (objs s) /\ next s' = next s + 1.
Proof.
  intros [Hn Hs] [= <- <-]. split_and!; [split|..]; cbn [objs next]; try done.
  - lia.
  - intros p Hp. destruct (decide (p = next s)) as [->|Hne]; [lia|].
    rewrite lookup_insert_ne in Hp by done. specialize (Hs p Hp). lia.
  - apply eq_None_not_Some. intros Hp%Hs. lia.
Qed.

Lemma ok_store p o s : ok s -> is_Some (objs s !! p) -> ok (store p o s).
Proof.
  intros [Hn Hs] Hp. split; [done|]. intros q Hq. cbn in *.
  destruct (decide (p = q)) as [->|Hne]; [by apply Hs|]. rewrite lookup_insert_ne in Hq by done. by apply Hs.
Qed.

Lemma load_store p o s : load (store p o s) p = Some o.
Proof. apply lookup_insert_eq. Qed.
Lemma load_store_ne p q o s : p <> q -> load (store p o s) q = load s q.
Proof. intros. by apply lookup_insert_ne. Qed.

End Store.
Arguments Store : clear implicits.
End Store.

Module PoolObjs.
Section Pool.
Context {Obj : Type}.
Abbreviation ptr := Z (only parsing).

Record PoolObjs := mkPoolObjs {
  init_obj_ : Obj;
  init_num_objs_ : nat;
  num_objs_per_block_ : nat;
  to_resize_ : bool;
  new_if_no_resize_ : bool;
  max_num_blocks_ : Z;
  pool_objs_ : list (list (option ptr));
  current_row_ : nat;
  current_col_ : nat;
  num_objs_alloc_ : nat;
  num_blocks_alloc_ : nat;
  init_ : bool;
}.

Definition kDefaultMemPerBlock : nat := Nat.pow 2 16.
Definition kDefaultMaxNumBlocks : Z := 2 ^ 18.

Definition PoolObjs_new (obj : Obj) (sizeof init_num mem_per_block : nat) (resize new_no_resize : bool)
    (max_blocks : Z) : PoolObjs :=
  {| init_obj_ := obj; init_num_objs_ := init_num;
     num_objs_per_block_ := Nat.div (mem_per_block + sizeof - 1) sizeof;
     to_resize_ := resize; new_if_no_resize_ := new_no_resize; max_num_blocks_ := max_blocks;
     pool_objs_ := []; current_row_ := 0; current_col_ := 0; num_objs_alloc_ := 0;
     num_blocks_alloc_ := 0; init_ := false |}.

Definition with_blocks (p : PoolObjs) (bs : list (list (option ptr))) (row col alloc nblocks : nat) (i : bool)
  : PoolObjs :=
  {| init_obj_ := init_obj_ p; init_num_objs_ := init_num_objs_ p;
     num_objs_per_block_ := num_objs_per_block_ p; to_resize_ := to_resize_ p;
     new_if_no_resize_ := new_if_no_resize_ p; max_num_blocks_ := max_num_blocks_ p;
     pool_objs_ := bs; current_row_ := row; current_col_ := col; num_objs_alloc_ := alloc;
     num_blocks_alloc_ := nblocks; init_ := i |}.
Definition with_pos (p : PoolObjs) (row col : nat) : PoolObjs :=
  with_blocks p (pool_objs_ p) row col (num_objs_alloc_ p) (num_blocks_alloc_ p) (init_ p).

(** [pool_objs_[i] = new Obj* [n]]; rows that were never set are null. *)
Definition set_row (bs : list (list (option ptr))) (i : nat) (row : list (option ptr)) :=
  if decide (i < length bs)%nat then <[i := row]> bs
  else bs ++ replicate (i - length bs) [] ++ [row].
Definition new_row (p : PoolObjs) : list (option ptr) := replicate (num_objs_per_block_ p) None.

(** [pool_objs_[r][c] = o]. *)
Definition write_slot (bs : list (list (option ptr))) (r c : nat) (o : ptr) : option (list (list (option ptr))) :=
  row ← bs !! r;
  if decide (c < length row)%nat then Some (<[r := <[c := Some o]> row]> bs) else None.
Definition read_slot (bs : list (list (option ptr))) (r c : nat) : option ptr :=
  row ← bs !! r; x ← row !! c; x.

(** The loop of [AllocABlock_]. *)
Fixpoint AllocObjs (n : nat) (p : PoolObjs) (i : nat) (bs : list (list (option ptr)))
  : M (Store.Store Obj) (list (list (option ptr))) :=
  match n with
  | O => mret bs
  | S n =>
      o ← Store.new (init_obj_ p);
      bs ← deref (write_slot bs (current_row_ p) i o);
      AllocObjs n p (S i) bs
  end.

Definition AllocABlock_ (p : PoolObjs) : M (Store.Store Obj) (bool * PoolObjs) :=
  if Z.of_nat (num_blocks_alloc_ p) =? max_num_blocks_ p then mret (false, p)
  else
    bs ← AllocObjs (num_objs_per_block_ p) p 0 (set_row (pool_objs_ p) (num_blocks_alloc_ p) (new_row p));
    mret (true, with_blocks p bs (S (current_row_ p)) (current_col_ p)
            (num_objs_alloc_ p + num_objs_per_block_ p) (S (num_blocks_alloc_ p)) (init_ p)).

Fixpoint Init_loop (n : nat) (p : PoolObjs) : M (Store.Store Obj) (bool * PoolObjs) :=
  if (num_blocks_alloc_ p * num_objs_per_block_ p <? init_num_objs_ p)%nat then
    match n with
    | O => ub
    | S n =>
        '(ret, p) ← AllocABlock_ p;
        if (ret : bool) then Init_loop n p else mret (false, p)
    end
  else mret (true, p).

(** Every turn of the loop allocates one of at most [max_num_blocks_] rows. *)
Definition Init_ (p : PoolObjs) : M (Store.Store Obj) (bool * PoolObjs) :=
  let reset (p : PoolObjs) (i : bool) (bs : list (list (option ptr))) :=
    with_blocks p bs (current_row_ p) (current_col_ p) (num_objs_alloc_ p) (num_blocks_alloc_ p) i in
  if max_num_blocks_ p =? 0 then mret (false, reset p false [])
  else
    '(ret, p) ← Init_loop (S (Z.to_nat (max_num_blocks_ p))) (reset p (init_ p) []);
    mret (if (ret : bool) then (true, reset p true (pool_objs_ p)) else (false, reset p false [])).

Definition raii (p : PoolObjs) : M (Store.Store Obj) (bool * PoolObjs) :=
  if init_ p then mret (true, p) else Init_ p.

Definition Get (p : PoolObjs) : M (Store.Store Obj) (option ptr * PoolObjs) :=
  '(ok, p) ← raii p;
  if negb ok then mret (None, p)
  else if decide (current_col_ p <> 0)%nat then
    let col := (current_col_ p - 1)%nat in
    o ← deref (read_slot (pool_objs_ p) (current_row_ p) col);
    mret (Some o, with_pos p (current_row_ p) col)
  else if decide (current_row_ p <> 0)%nat then
    let row := (current_row_ p - 1)%nat in
    let col := (num_objs_per_block_ p - 1)%nat in
    o ← deref (read_slot (pool_objs_ p) row col);
    mret (Some o, with_pos p row col)
  else
    '(ret, p) ← (if to_resize_ p then AllocABlock_ p else mret (false, p));
    if (ret : bool) then
      let p := with_pos p 0 (num_objs_per_block_ p - 1)%nat in
      o ← deref (read_slot (pool_objs_ p) (current_row_ p) (current_col_ p));
      mret (Some o, p)
    else if new_if_no_resize_ p then
      o ← Store.new (init_obj_ p);
      mret (Some o, p)
    else mret (None, p).

Definition NumObjsLeft (p : PoolObjs) : nat :=
  (current_row_ p * num_blocks_alloc_ p + current_col_ p)%nat.
(** [num_objs_alloc_ - NumObjsLeft()] on [size_t]. *)
Definition NumObjsAlloc (p : PoolObjs) : Z :=
  u64 (Z.of_nat (num_objs_alloc_ p) - Z.of_nat (NumObjsLeft p)).

Definition Free (p : PoolObjs) (obj : option ptr) : M (Store.Store Obj) PoolObjs :=
  '(ok, p) ← raii p;
  if negb ok then mret p
  else
    match obj with
    | None => mret p
    | Some o =>
        if negb (to_resize_ p) && (NumObjsLeft p =? init_num_objs_ p)%nat then Store.free o;; mret p
        else if (num_blocks_alloc_ p =? current_row_ p)%nat && (max_num_blocks_ p =? Z.of_nat (num_blocks_alloc_ p))
        then mret p
        else
          let p := if (num_blocks_alloc_ p =? current_row_ p)%nat
                   then with_blocks p (set_row (pool_objs_ p) (num_blocks_alloc_ p) (new_row p))
                          (current_row_ p) (current_col_ p) (num_objs_alloc_ p) (S (num_blocks_alloc_ p)) (init_ p)
                   else p in
          bs ← deref (write_slot (pool_objs_ p) (current_row_ p) (current_col_ p) o);
          mret (if decide (num_objs_per_block_ p - 1 = current_col_ p)%nat
                then with_blocks p bs (S (current_row_ p)) 0 (num_objs_alloc_ p) (num_blocks_alloc_ p) (init_ p)
                else with_blocks p bs (current_row_ p) (S (current_col_ p)) (num_objs_alloc_ p)
                       (num_blocks_alloc_ p) (init_ p))
    end.

(** [~PoolObjsBase]: every free object is deleted. *)
Fixpoint DeleteAll (l : list (option ptr)) : M (Store.Store Obj) () :=
  match l with
  | [] => mret ()
  | None :: _ => ub
  | Some o :: l => Store.free o;; DeleteAll l
  end.
Definition Pool_delete (p : PoolObjs) : M (Store.Store Obj) () :=
  DeleteAll (mjoin (take (current_row_ p) (pool_objs_ p)));;
  when (negb (current_row_ p =? num_blocks_alloc_ p)%nat)
    (row ← deref (pool_objs_ p !! current_row_ p); DeleteAll (take (current_col_ p) row)).

(** ** The pool is a stack of the free objects *)

Definition pos (p : PoolObjs) : nat := (current_row_ p * num_objs_per_block_ p + current_col_ p)%nat.

(** [holds p l]: the pool is initialised and keeps the objects [l], the last
    one on top. *)
Record holds (p : PoolObjs) (l : list Z) : Prop := {
  ho_init : init_ p = true;
  ho_nb : num_blocks_alloc_ p = length (pool_objs_ p);
  ho_max : Z.of_nat (num_blocks_alloc_ p) <= max_num_blocks_ p;
  ho_npb : (0 < num_objs_per_block_ p)%nat;
  ho_rows : Forall (fun r => length r = num_objs_per_block_ p) (pool_objs_ p);
  ho_col : (current_col_ p < num_objs_per_block_ p)%nat;
  ho_pos : (pos p <= num_blocks_alloc_ p * num_objs_per_block_ p)%nat;
  ho_list : take (pos p) (mjoin (pool_objs_ p)) = Some <$> l;
}.

Lemma join_length (n : nat) (bs : list (list (option Z))) : Forall (fun r => length r = n) bs ->
  length (mjoin bs) = (length bs * n)%nat.
Proof. induction 1 as [|r bs E _ IH]; [done|]. cbn. rewrite length_app, E. f_equal. exact IH. Qed.

Lemma join_lookup (n : nat) (bs : list (list (option Z))) r c row : Forall (fun r => length r = n) bs ->
  (c < n)%nat -> bs !! r = Some row -> mjoin bs !! (r * n + c)%nat = row !! c.
Proof.
  intros F Hc. revert r. induction F as [|r0 bs E _ IH]; intros r Hr; [done|].
  destruct r as [|r]; cbn in *.
  - injection Hr as <-. by rewrite lookup_app_l by lia.
  - rewrite lookup_app_r by lia. rewrite <- (IH r Hr). f_equal. lia.
Qed.

Lemma join_insert (n : nat) (bs : list (list (option Z))) r c row x : Forall (fun r => length r = n) bs ->
  (c < n)%nat -> bs !! r = Some row ->
  mjoin (<[r := <[c := x]> row]> bs) = <[(r * n + c)%nat := x]> (mjoin bs).
Proof.
  intros F Hc. revert r. induction F as [|r0 bs E _ IH]; intros r Hr; [done|].
  destruct r as [|r].
  - injection Hr as <-. apply eq_sym, insert_app_l. lia.
  - transitivity (r0 ++ mjoin (<[r := <[c := x]> row]> bs)); [done|].
    rewrite (IH r Hr). transitivity (<[(S r * n + c)%nat := x]> (r0 ++ mjoin bs)); [|done].
    rewrite insert_app_r_alt by lia. do 2 f_equal. lia.
Qed.

Lemma set_row_end (bs : list (list (option Z))) row : set_row bs (length bs) row = bs ++ [row].
Proof. unfold set_row. rewrite decide_False by lia. by rewrite Nat.sub_diag. Qed.

Lemma take_S_insert {A} (L : list A) k x : (k < length L)%nat -> take (S k) (<[k := x]> L) = take k L ++ [x].
Proof.
  intros H. rewrite (take_S_r _ _ x) by (by apply list_lookup_insert_eq).
  by rewrite take_insert_ge by lia.
Qed.

Lemma holds_length p l : holds p l -> length l = pos p.
Proof.
  intros H. pose proof (f_equal length (ho_list p l H)) as E.
  rewrite length_fmap, length_take, (join_length _ _ (ho_rows p l H)) in E.
  pose proof (ho_pos p l H). pose proof (ho_nb p l H) as E2. rewrite E2 in *. lia.
Qed.

(** The slot under the position holds the last object. *)
Lemma holds_top p l o r c : holds p (l ++ [o]) -> (r * num_objs_per_block_ p + c)%nat = length l ->
  (c < num_objs_per_block_ p)%nat -> read_slot (pool_objs_ p) r c = Some o.
Proof.
  intros H E Hc. pose proof (holds_length p _ H) as HL. rewrite length_app in HL. cbn in HL.
  pose proof (f_equal (.!! length l) (ho_list p _ H)) as EL. cbn beta in EL.
  rewrite lookup_take_lt, list_lookup_fmap, list_lookup_middle in EL by (done || lia).
  pose proof (ho_pos p _ H). pose proof (ho_nb p _ H). pose proof (ho_npb p _ H).
  destruct (pool_objs_ p !! r) as [row|] eqn:Er.
  - rewrite <- E, (join_lookup _ _ _ _ _ (ho_rows p _ H) Hc Er) in EL.
    unfold read_slot. rewrite Er. cbn. by rewrite EL.
  - apply lookup_ge_None in Er. nia.
Qed.

Lemma holds_pop p l o row col : holds p (l ++ [o]) ->
  (row * num_objs_per_block_ p + col)%nat = length l -> (col < num_objs_per_block_ p)%nat ->
  holds (with_pos p row col) l.
Proof.
  intros H E Hc. pose proof (holds_length p _ H) as HL. rewrite length_app in HL. cbn in HL.
  destruct H. split; try done; unfold pos in *; cbn in *; [lia|].
  rewrite E. rewrite <- (take_app_length l [o]) at 2. rewrite fmap_take.
  rewrite <- ho_list0, take_take. f_equal. lia.
Qed.

(** Taking from a pool that is not empty. *)
Lemma Get_pop p l o s : holds p (l ++ [o]) ->
  exists p', Get p s = Some ((Some o, p'), s) /\ holds p' l /\ init_obj_ p' = init_obj_ p
    /\ to_resize_ p' = to_resize_ p /\ max_num_blocks_ p' = max_num_blocks_ p.
Proof.
  intros H. pose proof (holds_length p _ H) as HL. rewrite length_app in HL. cbn in HL. unfold pos in HL.
  pose proof (ho_col p _ H). pose proof (ho_npb p _ H).
  unfold Get, raii. rewrite (ho_init p _ H). mpure. cbn [negb].
  destruct (decide (current_col_ p <> 0)%nat) as [Hc|Hc];
    [|destruct (decide (current_row_ p <> 0)%nat) as [Hr|Hr]; [|exfalso; nia]].
  - pose proof (holds_top p l o (current_row_ p) (current_col_ p - 1) H ltac:(lia) ltac:(lia)) as R.
    mderef R. eexists. split; [done|]. split; [|done]. apply (holds_pop p l o _ _ H); lia.
  - assert ((current_row_ p - 1) * num_objs_per_block_ p + (num_objs_per_block_ p - 1) = length l)%nat as E by nia.
    mderef (holds_top p l o _ _ H E ltac:(lia)). eexists. split; [done|]. split; [|done].
    apply (holds_pop p l o _ _ H); [done|lia].
Qed.
(** ** Growth *)

(** The store after [n] allocations of the initial object. *)
Definition grown (p : PoolObjs) (n : nat) (s s' : Store.Store Obj) : Prop :=
  Store.next s' = Store.next s + Z.of_nat n /\
  forall q, Store.objs s' !! q =
    if decide (Store.next s <= q < Store.next s + Z.of_nat n) then Some (init_obj_ p) else Store.objs s !! q.

Lemma grown_0 p s : grown p 0 s s.
Proof. split; [lia|]. intros q. rewrite decide_False by lia. done. Qed.

Lemma grown_S p n s s1 s' q : Store.new (init_obj_ p) s = Some (q, s1) -> grown p n s1 s' -> grown p (S n) s s'.
Proof.
  intros [= <- <-] [N L]. cbn in N, L. split; [lia|]. intros q. rewrite L.
  destruct (decide (q = Store.next s)) as [->|Hne].
  - rewrite lookup_insert_eq, decide_False, decide_True by lia. done.
  - rewrite lookup_insert_ne by done. repeat case_decide; done || lia.
Qed.

Lemma grown_ok p n s s' : Store.ok s -> grown p n s s' ->
  Store.ok s' /\ (forall q x, Store.objs s !! q = Some x -> Store.objs s' !! q = Some x) /\
  forall q, Store.next s <= q < Store.next s' -> Store.objs s' !! q = Some (init_obj_ p).
Proof.
  intros [Hn Hs] [N L]. split_and!.
  - split; [lia|]. intros q Hq. rewrite L in Hq. case_decide; [lia|]. specialize (Hs q Hq). lia.
  - intros q x Hx. rewrite L, decide_False; [done|]. specialize (Hs q ltac:(eauto)). lia.
  - intros q Hq. rewrite L, decide_True; [done|lia].
Qed.

Lemma AllocObjs_run n p : forall i bs row s, bs !! current_row_ p = Some row -> length row = (i + n)%nat ->
  exists s', AllocObjs n p i bs s =
    Some (<[current_row_ p := take i row ++ (Some <$> seqZ (Store.next s) (Z.of_nat n))]> bs, s')
    /\ grown p n s s'.
Proof.
  induction n as [|n IH]; intros i bs row s Hr HL.
  - exists s. split; [|apply grown_0]. rewrite seqZ_nil by lia. cbn. rewrite app_nil_r.
    rewrite take_ge by lia. by rewrite list_insert_id.
  - cbn [AllocObjs]. pose (s1 := Store.mkStore (<[Store.next s := init_obj_ p]> (Store.objs s)) (Store.next s + 1)).
    assert (Store.new (init_obj_ p) s = Some (Store.next s, s1)) as E1 by done. mrun E1.
    assert (write_slot bs (current_row_ p) i (Store.next s) =
      Some (<[current_row_ p := <[i := Some (Store.next s)]> row]> bs)) as E2.
    { unfold write_slot. rewrite Hr. cbn. by rewrite decide_True by lia. }
    mderef E2.
    destruct (IH (S i) (<[current_row_ p := <[i := Some (Store.next s)]> row]> bs)
      (<[i := Some (Store.next s)]> row) s1) as (s' & E & G).
    { apply list_lookup_insert_eq. by apply lookup_lt_Some in Hr. }
    { rewrite length_insert. lia. }
    exists s'. split; [|by eapply grown_S]. rewrite E, list_insert_insert_eq. do 3 f_equal.
    rewrite take_S_insert by lia. rewrite <- app_assoc. f_equal.
    rewrite (seqZ_cons (Store.next s)) by lia. cbn. do 4 f_equal; lia.
Qed.

Lemma set_row_rows p l : holds p l ->
  Forall (fun r => length r = num_objs_per_block_ p) (set_row (pool_objs_ p) (num_blocks_alloc_ p) (new_row p)).
Proof.
  intros H. rewrite (ho_nb p l H), set_row_end. apply Forall_app. split; [apply (ho_rows p l H)|].
  constructor; [|constructor]. apply length_replicate.
Qed.

(** The objects a growing pool gets. *)
Definition fresh (p : PoolObjs) (s : Store.Store Obj) : list Z :=
  seqZ (Store.next s) (Z.of_nat (num_objs_per_block_ p)).

Lemma fresh_length p s : length (fresh p s) = num_objs_per_block_ p.
Proof. unfold fresh. rewrite length_seqZ. lia. Qed.

(** A new row becomes the first one: the position is at the bottom. *)
Lemma AllocABlock_run p s : holds p [] -> Z.of_nat (num_blocks_alloc_ p) < max_num_blocks_ p ->
  exists bs s', AllocABlock_ p s = Some ((true,
      with_blocks p ((Some <$> fresh p s) :: bs) 1 0 (num_objs_alloc_ p + num_objs_per_block_ p)
        (S (num_blocks_alloc_ p)) true), s') /\
    length bs = num_blocks_alloc_ p /\ Forall (fun r => length r = num_objs_per_block_ p) bs /\
    grown p (num_objs_per_block_ p) s s'.
Proof.
  intros H Hm. pose proof (holds_length p _ H) as HL. unfold pos in HL. cbn in HL.
  pose proof (ho_npb p _ H). assert (current_row_ p = 0 /\ current_col_ p = 0)%nat as [R0 C0] by nia.
  pose proof (set_row_rows p _ H) as F.
  assert (length (set_row (pool_objs_ p) (num_blocks_alloc_ p) (new_row p)) = S (num_blocks_alloc_ p)) as LB.
  { rewrite (ho_nb p _ H), set_row_end, length_app. cbn. lia. }
  unfold AllocABlock_. rewrite (proj2 (Z.eqb_neq _ _)) by lia.
  destruct (set_row (pool_objs_ p) (num_blocks_alloc_ p) (new_row p)) as [|r0 bs'] eqn:Ebs; [done|].
  apply list.Forall_cons in F as [F0 F'].
  destruct (AllocObjs_run (num_objs_per_block_ p) p 0 (r0 :: bs') r0 s) as (s' & E & G); [by rewrite R0|done|].
  mrun E. rewrite R0, C0, (ho_init p _ H). exists bs', s'. split_and!; try done. cbn in LB. lia.
Qed.

Lemma split_last {A} (l : list A) n : length l = n -> (0 < n)%nat ->
  exists l' x, l = l' ++ [x] /\ length l' = (n - 1)%nat /\ l !! (n - 1)%nat = Some x.
Proof.
  intros HL Hn. destruct (exists_last (l := l)) as (l' & x & ->); [intros ->; cbn in *; lia|].
  rewrite length_app in HL. cbn in HL. exists l', x. split_and!; [done|lia|].
  rewrite lookup_app_r by lia. replace (n - 1 - length l')%nat with 0%nat by lia. done.
Qed.

Lemma holds_fresh p s l o bs k : l ++ [o] = fresh p s -> length bs = num_blocks_alloc_ p ->
  (0 < num_objs_per_block_ p)%nat -> Z.of_nat (num_blocks_alloc_ p) < max_num_blocks_ p ->
  Forall (fun r => length r = num_objs_per_block_ p) bs ->
  holds (with_pos (with_blocks p ((Some <$> fresh p s) :: bs) 1 0 k (S (num_blocks_alloc_ p)) true)
           0 (num_objs_per_block_ p - 1)%nat) l.
Proof.
  intros E LB Hn Hm F. pose proof (fresh_length p s) as FL.
  split; cbn [with_pos with_blocks init_ num_blocks_alloc_ pool_objs_ max_num_blocks_ num_objs_per_block_
              current_col_ length]; try done; try lia.
  - constructor; [|done]. by rewrite length_fmap.
  - unfold pos. cbn. lia.
  - unfold pos. cbn [with_pos with_blocks current_row_ current_col_ num_objs_per_block_].
    set (n := num_objs_per_block_ p) in *.
    transitivity (take (0 * n + (n - 1)) ((Some <$> fresh p s) ++ mjoin bs)); [done|].
    rewrite take_app_le by (rewrite length_fmap, FL; lia). rewrite <- E, length_app in FL. cbn in FL.
    rewrite <- E, fmap_app. replace (0 * n + (n - 1))%nat with (length (Some <$> l)) by (rewrite length_fmap; lia).
    by rewrite take_app_length.
Qed.

(** Taking from an empty pool that may grow: a row of new objects, the last of
    which is handed out. *)
Lemma Get_grow p s : holds p [] -> to_resize_ p = true -> Z.of_nat (num_blocks_alloc_ p) < max_num_blocks_ p ->
  exists o l p' s', Get p s = Some ((Some o, p'), s') /\ holds p' l /\ l ++ [o] = fresh p s /\
    grown p (num_objs_per_block_ p) s s' /\
    init_obj_ p' = init_obj_ p /\ to_resize_ p' = to_resize_ p /\ max_num_blocks_ p' = max_num_blocks_ p.
Proof.
  intros H Hr Hm. pose proof (holds_length p _ H) as HL. unfold pos in HL. cbn in HL.
  pose proof (ho_npb p _ H) as Hn. assert (current_row_ p = 0 /\ current_col_ p = 0)%nat as [R0 C0] by nia.
  destruct (AllocABlock_run p s H Hm) as (bs & s' & E & LB & F & G).
  destruct (split_last (fresh p s) _ (fresh_length p s) Hn) as (l & o & Ef & Ll & Lo).
  unfold Get, raii. rewrite (ho_init p _ H). mpure. cbn [negb].
  rewrite !decide_False by lia. rewrite Hr. mrun E.
  assert (read_slot ((Some <$> fresh p s) :: bs) 0 (num_objs_per_block_ p - 1) = Some o) as RS.
  { unfold read_slot. cbn. rewrite list_lookup_fmap, Lo. done. }
  mderef RS. eexists o, l, _, s'. split; [done|]. split; [|done].
  exact (holds_fresh p s l o bs _ (eq_sym Ef) LB Hn Hm F).
Qed.

(** At the limit of rows an object of its own is allocated. *)
Lemma Get_full p s : holds p [] -> new_if_no_resize_ p = true ->
  to_resize_ p = false \/ Z.of_nat (num_blocks_alloc_ p) = max_num_blocks_ p ->
  exists s', Get p s = Some ((Some (Store.next s), p), s') /\ grown p 1 s s'.
Proof.
  intros H Hnew Hr. pose proof (holds_length p _ H) as HL. unfold pos in HL. cbn in HL.
  pose proof (ho_npb p _ H) as Hn. assert (current_row_ p = 0 /\ current_col_ p = 0)%nat as [R0 C0] by nia.
  unfold Get, raii. rewrite (ho_init p _ H). mpure. cbn [negb]. rewrite !decide_False by lia.
  assert ((if to_resize_ p then AllocABlock_ p else mret (false, p)) s = Some ((false, p), s)) as E.
  { destruct (to_resize_ p); [|done]. unfold AllocABlock_. destruct Hr as [Hr|Hr]; [done|]. by rewrite Hr, Z.eqb_refl. }
  mrun E. rewrite Hnew. eexists. split; [done|]. eapply grown_S; [done|]. apply grown_0.
Qed.

Lemma write_top p l o : holds p l -> (pos p < num_blocks_alloc_ p * num_objs_per_block_ p)%nat ->
  exists bs, write_slot (pool_objs_ p) (current_row_ p) (current_col_ p) o = Some bs /\
    length bs = length (pool_objs_ p) /\ Forall (fun r => length r = num_objs_per_block_ p) bs /\
    mjoin bs = <[pos p := Some o]> (mjoin (pool_objs_ p)).
Proof.
  intros H Hp. pose proof (ho_nb p l H) as NB. pose proof (ho_col p l H) as HC. unfold pos in Hp.
  destruct (lookup_lt_is_Some_2 (pool_objs_ p) (current_row_ p)) as [row Hr]; [nia|].
  pose proof (proj1 (Forall_lookup _ _) (ho_rows p l H) _ _ Hr) as LR. cbn in LR.
  unfold write_slot. rewrite Hr. cbn. rewrite decide_True by lia. eexists. split; [done|].
  split_and!.
  - by rewrite length_insert.
  - apply Forall_insert; [apply (ho_rows p l H)|]. by rewrite length_insert.
  - by apply (join_insert _ _ _ _ _ _ (ho_rows p l H) HC Hr).
Qed.

(** Pushing an object below the limit of rows. *)
Lemma push_holds p l o bs : holds p l -> (pos p < num_blocks_alloc_ p * num_objs_per_block_ p)%nat ->
  length bs = length (pool_objs_ p) -> Forall (fun r => length r = num_objs_per_block_ p) bs ->
  mjoin bs = <[pos p := Some o]> (mjoin (pool_objs_ p)) ->
  holds (if decide (num_objs_per_block_ p - 1 = current_col_ p)%nat
         then with_blocks p bs (S (current_row_ p)) 0 (num_objs_alloc_ p) (num_blocks_alloc_ p) (init_ p)
         else with_blocks p bs (current_row_ p) (S (current_col_ p)) (num_objs_alloc_ p)
                (num_blocks_alloc_ p) (init_ p)) (l ++ [o]).
Proof.
  intros H Hp LB F J. pose proof (ho_npb p l H) as HN. pose proof (ho_col p l H) as HC.
  match goal with |- holds ?q _ => set (q' := q); assert (pos q' = S (pos p)) as Eq end.
  { unfold q', pos. case_decide; cbn; nia. }
  assert (take (S (pos p)) (mjoin bs) = Some <$> (l ++ [o])) as El.
  { rewrite J, take_S_insert, fmap_app, (ho_list p l H); [done|].
    rewrite (join_length _ _ (ho_rows p l H)), <- (ho_nb p l H). lia. }
  rewrite <- Eq in El. clear J. unfold q' in *. destruct H.
  case_decide; split; cbn [with_blocks init_ num_blocks_alloc_ pool_objs_ max_num_blocks_ num_objs_per_block_
    current_col_] in *; try done; try lia.
Qed.

(** Giving back an object to a resizing pool: it is on top, unless the pool
    has all the rows it may have and they are full. *)
Lemma Free_spec p l o s : holds p l -> to_resize_ p = true ->
  exists p', Free p (Some o) s = Some (p', s) /\ to_resize_ p' = true /\
    init_obj_ p' = init_obj_ p /\ max_num_blocks_ p' = max_num_blocks_ p /\ new_if_no_resize_ p' = new_if_no_resize_ p /\
    (holds p' (l ++ [o]) \/
     p' = p /\ Z.of_nat (length l) = max_num_blocks_ p * Z.of_nat (num_objs_per_block_ p)).
Proof.
  intros H Hr. unfold Free, raii. rewrite (ho_init p l H). mpure. rewrite Hr. cbn [negb andb].
  pose proof (ho_npb p l H) as HN. pose proof (ho_col p l H) as HC. pose proof (ho_pos p l H) as HP.
  pose proof (holds_length p l H) as HL. unfold pos in *.
  destruct (Nat.eqb_spec (num_blocks_alloc_ p) (current_row_ p)) as [E|E]; cbn [andb].
  - assert (current_col_ p = 0)%nat as C0 by nia. destruct (Z.eqb_spec (max_num_blocks_ p) (Z.of_nat (num_blocks_alloc_ p))) as [M|M].
    + exists p. split_and!; try done. right. split; [done|]. rewrite HL, C0, M, E. lia.
    + set (p1 := with_blocks p (set_row (pool_objs_ p) (num_blocks_alloc_ p) (new_row p)) (current_row_ p)
               (current_col_ p) (num_objs_alloc_ p) (S (num_blocks_alloc_ p)) (init_ p)).
      assert (holds p1 l) as H1.
      { pose proof (set_row_rows p l H) as F. pose proof (ho_nb p l H) as NB. pose proof (ho_max p l H).
        split; cbn [p1 with_blocks init_ num_blocks_alloc_ pool_objs_ max_num_blocks_ num_objs_per_block_ current_col_];
          try done; try lia; try apply (ho_init p l H).
        - rewrite NB, set_row_end, length_app. cbn. lia.
        - unfold pos. cbn. nia.
        - unfold pos. cbn [p1 with_blocks current_row_ current_col_ num_objs_per_block_].
          rewrite NB, set_row_end, join_app, take_app_le, <- (ho_list p l H); [done|].
          rewrite (join_length _ _ (ho_rows p l H)). nia. }
      assert (pos p1 < num_blocks_alloc_ p1 * num_objs_per_block_ p1)%nat as Hp by (unfold pos; cbn; nia).
      destruct (write_top p1 l o H1 Hp) as (bs & W & LB & F & J). mderef W.
      eexists. split; [done|]. pose proof (push_holds p1 l o bs H1 Hp LB F J) as HH.
      split_and!; [..|left; exact HH]; case_decide; done.
  - assert (pos p < num_blocks_alloc_ p * num_objs_per_block_ p)%nat as Hp by (unfold pos; nia).
    destruct (write_top p l o H Hp) as (bs & W & LB & F & J). mderef W.
    eexists. split; [done|]. pose proof (push_holds p l o bs H Hp LB F J) as HH.
    split_and!; [..|left; exact HH]; case_decide; done.
Qed.

(** A pool as constructed, which initialises itself on first use. *)
Definition is_new (p : PoolObjs) : Prop :=
  init_ p = false /\ init_num_objs_ p = 0%nat /\ pool_objs_ p = [] /\ current_row_ p = 0%nat /\
  current_col_ p = 0%nat /\ num_blocks_alloc_ p = 0%nat /\ 0 < max_num_blocks_ p /\ (0 < num_objs_per_block_ p)%nat.
Definition started (p : PoolObjs) : PoolObjs :=
  if init_ p then p else with_blocks p [] 0 0 (num_objs_alloc_ p) 0 true.

(** The pool keeps the objects [l], grows when needed and never refuses. *)
Record valid (p : PoolObjs) (l : list Z) : Prop := {
  va_state : holds p l \/ is_new p /\ l = [];
  va_resize : to_resize_ p = true;
  va_new : new_if_no_resize_ p = true;
}.

Lemma valid_started p l : valid p l -> holds (started p) l.
Proof.
  intros [[H|[(I & _ & B & R & C & N & M & K) ->]] _ _]; unfold started.
  - by rewrite (ho_init p l H).
  - rewrite I. split; cbn; try done; lia.
Qed.

Lemma started_run p l s : valid p l -> raii p s = Some ((true, started p), s).
Proof.
  intros [[H|[(I & N0 & B & R & C & N & M & K) ->]] _ _]; unfold raii, started.
  - by rewrite (ho_init p l H).
  - rewrite I. unfold Init_. rewrite (proj2 (Z.eqb_neq _ _)) by lia.
    cbn [Init_loop]. unfold with_blocks. cbn. rewrite N, N0. cbn. by rewrite ?R, ?C.
Qed.

Lemma valid_Get p l s : valid p l -> Get p s = Get (started p) s.
Proof.
  intros V. unfold Get. mrun (started_run p l s V).
  assert (raii (started p) s = Some ((true, started p), s)) as E.
  { unfold raii. by rewrite (ho_init _ l (valid_started p l V)). }
  by mrun E.
Qed.

Lemma valid_Free p l o s : valid p l -> Free p o s = Free (started p) o s.
Proof.
  intros V. unfold Free. mrun (started_run p l s V).
  assert (raii (started p) s = Some ((true, started p), s)) as E.
  { unfold raii. by rewrite (ho_init _ l (valid_started p l V)). }
  by mrun E.
Qed.

Lemma started_obj p : init_obj_ (started p) = init_obj_ p.
Proof. unfold started. by destruct (init_ p). Qed.
Lemma started_flags p l : valid p l -> to_resize_ (started p) = true /\ new_if_no_resize_ (started p) = true.
Proof. intros [_ R N]. unfold started. by destruct (init_ p). Qed.

Lemma AllocABlock_flags p s b p' s' : AllocABlock_ p s = Some ((b, p'), s') -> new_if_no_resize_ p' = new_if_no_resize_ p.
Proof. unfold AllocABlock_. destruct (_ =? _); intros H; minv; done. Qed.

Lemma Get_flags p s o p' s' : init_ p = true -> Get p s = Some ((o, p'), s') -> new_if_no_resize_ p' = new_if_no_resize_ p.
Proof.
  intros I. unfold Get, raii. rewrite I. mpure. cbn [negb].
  destruct (decide _); [|destruct (decide _)]; intros H; [by minv|by minv|].
  apply bind_Some in H as ([b q] & s1 & E1 & H). assert (new_if_no_resize_ q = new_if_no_resize_ p) as E.
  { revert E1. destruct (to_resize_ p); intros E1; [by eapply AllocABlock_flags|by minv]. }
  cbn beta iota in H. destruct b; [by minv|]. revert H. destruct (new_if_no_resize_ q) eqn:Nq; intros H; minv; congruence.
Qed.

(** What a client of a growing pool relies on: it gets an allocated object,
    either one of the free ones or a new one, and the objects allocated
    before stay as they are. *)
Lemma Get_spec p l s : valid p l -> Store.ok s ->
  exists o l' p' s', Get p s = Some ((Some o, p'), s') /\ valid p' l' /\ Store.ok s' /\
    init_obj_ p' = init_obj_ p /\
    (forall q x, Store.objs s !! q = Some x -> Store.objs s' !! q = Some x) /\
    (l = l' ++ [o] /\ s' = s \/
     l = [] /\ NoDup (l' ++ [o]) /\ forall q, q ∈ l' ++ [o] ->
       Store.next s <= q < Store.next s' /\ Store.objs s' !! q = Some (init_obj_ p)).
Proof.
  intros V Hs. rewrite (valid_Get p l s V), <- (started_obj p).
  pose proof (valid_started p l V) as H. destruct (started_flags p l V) as [Hr Hw].
  assert (forall o p' s' l', Get (started p) s = Some ((o, p'), s') -> holds p' l' -> to_resize_ p' = true -> valid p' l') as VV.
  { intros o p' s' l' E H' R'. split; [auto|done|]. rewrite (Get_flags _ _ _ _ _ (ho_init _ _ H) E). done. }
  destruct (decide (l = [])) as [->|Hl].
  - destruct (decide (Z.of_nat (num_blocks_alloc_ (started p)) < max_num_blocks_ (started p))) as [Hm|Hm].
    + destruct (Get_grow _ s H Hr Hm) as (o & l' & p' & s' & E & H' & Ef & G & O & R & _).
      destruct (grown_ok _ _ _ _ Hs G) as (Hs' & K & Nw). destruct G as [N _].
      exists o, l', p', s'. split_and!; try done; [eapply VV; naive_solver|]. right.
      split_and!; [done|rewrite Ef; apply NoDup_seqZ|].
      intros q. rewrite Ef. unfold fresh. rewrite elem_of_seqZ. intros Hq. split; [lia|apply Nw; lia].
    + pose proof (ho_max _ _ H). destruct (Get_full _ s H Hw) as (s' & E & G); [right; lia|].
      destruct (grown_ok _ _ _ _ Hs G) as (Hs' & K & Nw). destruct G as [N _].
      exists (Store.next s), [], (started p), s'. split_and!; try done; [by eapply VV|]. right.
      split_and!; [done|apply NoDup_singleton|]. intros q. cbn. rewrite list_elem_of_singleton.
      intros ->. split; [lia|apply Nw; lia].
  - destruct (exists_last Hl) as (l' & o & ->).
    destruct (Get_pop _ l' o s H) as (p' & E & H' & O & R & _).
    exists o, l', p', s. split_and!; try done; [eapply VV; naive_solver|]. by left.
Qed.

Lemma Free_valid p l o s : valid p l -> exists p' l', Free p (Some o) s = Some (p', s) /\ valid p' l' /\
  init_obj_ p' = init_obj_ p /\ (l' = l ++ [o] \/ l' = l).
Proof.
  intros V. rewrite (valid_Free p l _ s V), <- (started_obj p).
  pose proof (valid_started p l V) as H. destruct (started_flags p l V) as [Hr Hw].
  destruct (Free_spec _ l o s H Hr) as (p' & E & R & O & _ & N & C).
  destruct C as [H'|[-> _]]; [exists p', (l ++ [o])|exists (started p), l]; split_and!; auto; split; auto; congruence.
Qed.

(** ** Clients that give back only what they hold *)

Inductive reach (p0 : PoolObjs) : PoolObjs -> Store.Store Obj -> list Z -> Prop :=
| reach_new : reach p0 p0 Store.nothing []
| reach_get p s held o p' s' : reach p0 p s held -> Get p s = Some ((Some o, p'), s') -> reach p0 p' s' (o :: held)
| reach_free p s held held' o p' s' : reach p0 p s held -> held ≡ₚ o :: held' ->
    Free p (Some o) s = Some (p', s') -> reach p0 p' s' held'.

Definition exclusive (s : Store.Store Obj) (all : list Z) : Prop :=
  NoDup all /\ forall q, q ∈ all -> is_Some (Store.objs s !! q).

Lemma exclusive_perm s l l' : l ≡ₚ l' -> exclusive s l -> exclusive s l'.
Proof. intros P [N A]. split; [by rewrite <- P|]. intros q. rewrite <- P. apply A. Qed.

Lemma reach_exclusive p0 p s held : is_new p0 -> to_resize_ p0 = true -> new_if_no_resize_ p0 = true ->
  reach p0 p s held -> exists l, valid p l /\ Store.ok s /\ exclusive s (held ++ l).
Proof.
  intros Hn Hr Hw R. induction R as [|p s held o p' s' R IH E|p s held held' o p' s' R IH P E].
  - exists []. split_and!; [split; auto|apply Store.ok_nothing|]. split; [constructor|]. cbn. intros q Hq. set_solver.
  - destruct IH as (l & V & Hs & ND & A).
    destruct (Get_spec p l s V Hs) as (o2 & l' & p2 & s2 & E2 & V' & Hs' & _ & K & C).
    rewrite E in E2. injection E2 as <- <- <-. exists l'. split_and!; [done|done|].
    apply (exclusive_perm s' (held ++ l' ++ [o])).
    { cbn. rewrite Permutation_middle, (Permutation_app_comm l'). done. }
    destruct C as [[-> ->]|(-> & ND' & Hin)]; [done|]. rewrite app_nil_r in *. split.
    + apply list.NoDup_app. split_and!; [done| |done]. intros q Hq [Hq2 _]%Hin.
      apply A, (proj2 Hs) in Hq. lia.
    + intros q [Hq|Hq]%elem_of_app; [|eexists; by apply Hin].
      destruct (A q Hq) as [x Hx]. exists x. by apply K.
  - destruct IH as (l & V & Hs & ND & A).
    destruct (Free_valid p l o s V) as (p2 & l' & E2 & V' & _ & C).
    rewrite E in E2. injection E2 as <- ->. exists l'. split_and!; [done|done|].
    destruct C as [->| ->].
    + apply (exclusive_perm s (held ++ l)); [|done]. rewrite P. cbn.
      by rewrite Permutation_middle, (Permutation_app_comm l).
    + rewrite P in ND. cbn in ND. apply list.NoDup_cons in ND as [_ ND]. split; [done|].
      intros q Hq. apply A. rewrite P. cbn. by right.
Qed.

(** C29: a pool made the way the program makes its pools (it starts empty, may
    grow, and allocates when it cannot grow), used in any order by clients that
    give back only objects they hold: it never runs into undefined behaviour and
    always hands out an allocated object that no client holds; the objects held
    are distinct.  [double_free_shares] below shows that the condition on the
    clients is needed. *)
Theorem pool_exclusive p0 p s held : is_new p0 -> to_resize_ p0 = true -> new_if_no_resize_ p0 = true ->
  reach p0 p s held ->
  NoDup held /\ (forall o, exists p', Free p (Some o) s = Some (p', s)) /\
  exists o p' s', Get p s = Some ((Some o, p'), s') /\ o ∉ held /\ is_Some (Store.objs s' !! o).
Proof using All.
  intros Hn Hr Hw R. destruct (reach_exclusive p0 p s held Hn Hr Hw R) as (l & V & Hs & ND & A).
  apply list.NoDup_app in ND as ND2. split_and!; [apply ND2| |].
  - intros o. destruct (Free_valid p l o s V) as (p' & l' & E & _). eauto.
  - destruct (Get_spec p l s V Hs) as (o & l' & p' & s' & E & _ & _ & _ & K & C).
    exists o, p', s'. split; [done|]. destruct C as [[-> ->]|(-> & _ & Hin)].
    + split; [|apply A; set_solver]. intros Ho. apply (proj1 (proj2 ND2) o Ho). set_solver.
    + destruct (Hin o) as [B Ho]; [set_solver|]. split; [|eauto]. intros Hh.
      assert (o ∈ held ++ []) as H%A by set_solver. apply (proj2 Hs) in H. lia.
Qed.

End Pool.
Arguments PoolObjs : clear implicits.

(** A pool of two-object rows after one object was taken. *)
Definition witness_pool : PoolObjs Z := PoolObjs_new 0 4 0 8 true true 3.
Definition witness_run : PoolObjs Z * Store.Store Z :=
  match Get witness_pool Store.nothing with Some ((_, p), s) => (p, s) | None => (witness_pool, Store.nothing) end.

Lemma pool_exclusive_witness : NoDup [2] /\
  exists o p' s', Get witness_run.1 witness_run.2 = Some ((Some o, p'), s') /\ o ∉ [2].
Proof.
  destruct (pool_exclusive witness_pool witness_run.1 witness_run.2 [2]) as (N & _ & o & p' & s' & E & Ho & _).
  - repeat split; cbn; lia.
  - done.
  - done.
  - apply (reach_get _ witness_pool Store.nothing [] 2); [apply reach_new|]. vm_compute. reflexivity.
  - split; [exact N|]. exists o, p', s'. split; [exact E|exact Ho].
Defined.

(** A client that gives an object back twice makes two clients share it: what
    happens to the writer of a talk whose encoding fails (model.cpp). *)
Definition twice : M (PoolObjs Z * Store.Store Z) (option Z * option Z * option Z) := fun '(p, s) =>
  '((a, p), s) ← Get p s;
  '(p, s) ← Free p a s;
  '(p, s) ← Free p a s;
  '((b, p), s) ← Get p s;
  '((c, p), s) ← Get p s;
  Some ((a, b, c), (p, s)).
Example double_free_shares : fst <$> twice (witness_pool, Store.nothing) = Some (Some 2, Some 2, Some 2).
Proof. vm_compute. reflexivity. Qed.

(** [NumObjsLeft] multiplies the rows by the number of rows instead of their
    length: a pool that holds 4 objects in two rows of 2 is right by chance,
    one that holds 6 objects in three rows of 2 reports 9. *)
Example NumObjsLeft_wrong :
  exists p s, Init_ (Obj := Z) (PoolObjs_new 0 4 6 8 true true 5) Store.nothing = Some ((true, p), s) /\
    pos p = 6%nat /\ NumObjsLeft p = 9%nat.
Proof. eexists _, _. split; [vm_compute; reflexivity|]. vm_compute. done. Qed.
End PoolObjs.
