(* ===== verification/ThreadPrivacy.v ===== *)
(** * ThreadPrivacy: objects that belong to one thread

    Models deps/public-cpp/include/public-cpp/thread_privacy/thread_privacy.h
    and the locks of lock_policy.hpp.  A pthread key holds, for each thread, a
    pointer to a vector of slots; [Get] creates the vector and the object of a
    slot on first use.  The body of [Init_] is in the compiled library: it
    makes the key, whose value is null in every thread, and sets [init_] when
    it succeeds.  An operation is modelled as a whole; a thread only writes its
    own vector, and the vector of all vectors is written under the lock. *)

From Stdlib Require Import ZArith Lia.
From stdpp Require Import base list gmap numbers option.
From S2P Require Import Prelude PoolObjs.

(** ** Locks with initialisation on first use *)

(** [pthread_mutex_*] or [pthread_spin_*]: the error numbers they return. *)
Class LockOs (W : Type) : Type := {
  lock_init : W -> Z * W;
  lock_lock : W -> Z * W;
  lock_unlock : W -> Z * W;
  lock_destroy : W -> Z * W;
}.

Module Locks.
Section Locks.
Context {W : Type} `{LO : !LockOs W}.

Record ThreadMutex := mkMutex { init_ : bool; world : W }.
Definition on_world {A} (m : M W A) : M ThreadMutex A := zoom world (fun w s => mkMutex (init_ s) w) m.

Definition Init_ : M ThreadMutex bool :=
  ret ← on_world (call lock_init);
  if ret =? 0 then modify (fun s => mkMutex true (world s));; mret true else mret false.
(** [XFC_RAII_INIT]. *)
Definition raii : M ThreadMutex bool := s ← gets id; if init_ s then mret true else Init_.
Definition Lock : M ThreadMutex bool :=
  ok ← raii;
  if negb ok then mret false else ret ← on_world (call lock_lock); mret (ret =? 0).
Definition Unlock : M ThreadMutex () :=
  ok ← raii;
  if negb ok then mret () else on_world (call lock_unlock);; mret ().
(** [~SpinLock]. *)
Definition Destroy : M ThreadMutex () :=
  s ← gets id; when (init_ s) (on_world (call lock_destroy);; mret ()).

(** Every operation returns. *)
Lemma Lock_run s : exists b s', Lock s = Some (b, s').
Proof.
  destruct s as [i w]. unfold Lock, raii, Init_, on_world, zoom, call, mbind, M_bind. cbn. destruct i; cbn.
  - destruct (lock_lock w). eauto.
  - destruct (lock_init w) as [r w1]. cbn. destruct (r =? 0); cbn; [destruct (lock_lock w1)|]; eauto.
Qed.
Lemma Unlock_run s : exists s', Unlock s = Some ((), s').
Proof.
  destruct s as [i w]. unfold Unlock, raii, Init_, on_world, zoom, call, mbind, M_bind. cbn. destruct i; cbn.
  - destruct (lock_unlock w). eauto.
  - destruct (lock_init w) as [r w1]. cbn. destruct (r =? 0); cbn; [destruct (lock_unlock w1)|]; eauto.
Qed.
End Locks.
Arguments ThreadMutex : clear implicits.
End Locks.

(** ** The slots *)

Class PrivacyOs (W : Type) : Type := {
  privacy_Init_ : W -> bool * W;
  (** [new (std::nothrow)]: whether there was memory. *)
  nothrow_new : W -> bool * W;
  pthread_setspecific : W -> Z * W;
}.

Module ThreadPrivacy.
Definition kMaxTimesTryLock : nat := Z.to_nat 1000000.

Section Privacy.
Context {W Obj : Type} `{LO : !LockOs W, PO : !PrivacyOs W}.
Abbreviation ptr := Z (only parsing).

(** [key_] is the value of the key in each thread that has one; a slot of a
    vector is null or an object. *)
Record ThreadPrivacy := mkPrivacy {
  init_ : bool;
  key_ : gmap Z ptr;
  privacies_set_ : list ptr;
  vectors : Store.Store (list (option ptr));
  objs : Store.Store Obj;
  lock_ : Locks.ThreadMutex W;
}.
Definition ThreadPrivacy_new (w : W) : ThreadPrivacy := mkPrivacy false ∅ [] Store.nothing Store.nothing (Locks.mkMutex false w).

Definition set_key (k : gmap Z ptr) (s : ThreadPrivacy) : ThreadPrivacy :=
  mkPrivacy (init_ s) k (privacies_set_ s) (vectors s) (objs s) (lock_ s).
Definition set_vectors (v : Store.Store (list (option ptr))) (s : ThreadPrivacy) : ThreadPrivacy :=
  mkPrivacy (init_ s) (key_ s) (privacies_set_ s) v (objs s) (lock_ s).
Definition set_objs (o : Store.Store Obj) (s : ThreadPrivacy) : ThreadPrivacy :=
  mkPrivacy (init_ s) (key_ s) (privacies_set_ s) (vectors s) o (lock_ s).
Definition set_lock (l : Locks.ThreadMutex W) (s : ThreadPrivacy) : ThreadPrivacy :=
  mkPrivacy (init_ s) (key_ s) (privacies_set_ s) (vectors s) (objs s) l.
Definition on_lock {A} (m : M (Locks.ThreadMutex W) A) : M ThreadPrivacy A := zoom lock_ set_lock m.
Definition on_world {A} (m : M W A) : M ThreadPrivacy A := on_lock (Locks.on_world m).
Definition on_vectors {A} (m : M (Store.Store (list (option ptr))) A) : M ThreadPrivacy A := zoom vectors set_vectors m.
Definition on_objs {A} (m : M (Store.Store Obj) A) : M ThreadPrivacy A := zoom objs set_objs m.

Definition raii : M ThreadPrivacy bool :=
  s ← gets id;
  if init_ s then mret true
  else
    ok ← on_world (call privacy_Init_);
    if negb ok then mret false
    else modify (fun s => mkPrivacy true ∅ (privacies_set_ s) (vectors s) (objs s) (lock_ s));; mret true.

(** The loop around [lock_.Lock()]; [ret] is 0 before it. *)
Fixpoint try_lock (n : nat) : M ThreadPrivacy bool :=
  match n with
  | O => mret false
  | S n => ret ← on_lock Locks.Lock; if (ret : bool) then mret true else try_lock n
  end.

(** The vector of a thread that has none yet. *)
Definition new_privacies (t : Z) : M ThreadPrivacy (Z * option ptr) :=
  ok ← on_world (call nothrow_new);
  if negb ok then mret (-1, None)
  else
    v ← on_vectors (Store.new []);
    ret ← on_world (call pthread_setspecific);
    if negb (ret =? 0) then on_vectors (Store.free v);; mret (-2, Some v)
    else
      modify (fun s => set_key (<[t := v]> (key_ s)) s);;
      ok ← try_lock kMaxTimesTryLock;
      if negb ok then mret (-3, Some v)
      else
        modify (fun s => mkPrivacy (init_ s) (key_ s) (privacies_set_ s ++ [v]) (vectors s) (objs s) (lock_ s));;
        on_lock Locks.Unlock;;
        mret (1, Some v).
(** The code, the object found and the vector of thread [t]. *)
Definition Get_ (t : Z) (no : nat) : M ThreadPrivacy (Z * option ptr * option ptr) :=
  s ← gets id;
  match key_ s !! t with
  | Some v =>
      l ← deref (Store.load (vectors s) v);
      match l !! no with Some (Some p) => mret (0, Some p, Some v) | _ => mret (1, None, Some v) end
  | None => '(ret, v) ← new_privacies t; mret (ret, None, v)
  end.

(** [Get(no, tpl, &first_create)] in thread [t]: the object, null on an error,
    and what is written to [first_create].  [Get(no, &first_create)] is the
    same with an object made by the default constructor. *)
Definition Get (t : Z) (no : nat) (tpl : Obj) : M ThreadPrivacy (option ptr * option bool) :=
  ok ← raii;
  if negb ok then mret (None, None)
  else
    '(ret, result, v) ← Get_ t no;
    if ret =? 0 then mret (result, Some false)
    else if ret <? 0 then mret (None, None)
    else
      ok ← on_world (call nothrow_new);
      if negb ok then mret (None, None)
      else
        p ← on_objs (Store.new tpl);
        v ← deref v;
        s ← gets id;
        l ← deref (Store.load (vectors s) v);
        let l := if (length l <=? no)%nat then resize (S no) None l else l in
        modify (fun s => set_vectors (Store.store v (<[no := Some p]> l) (vectors s)) s);;
        mret (Some p, Some true).
Definition Get_default (default : Obj) (t : Z) (no : nat) : M ThreadPrivacy (option ptr * option bool) := Get t no default.

(** The constant [Get(no)]. *)
Definition Peek (t : Z) (no : nat) : M ThreadPrivacy (option ptr) :=
  s ← gets id;
  if negb (init_ s) then mret None
  else
    match key_ s !! t with
    | None => mret None
    | Some v => l ← deref (Store.load (vectors s) v); mret (mjoin (l !! no))
    end.

(** ** Each thread has its own object in each slot *)

Definition slot (s : ThreadPrivacy) (t : Z) (no : nat) : option ptr :=
  v ← key_ s !! t; l ← Store.load (vectors s) v; mjoin (l !! no).

Record valid (s : ThreadPrivacy) : Prop := {
  v_vectors : Store.ok (vectors s);
  v_objs : Store.ok (objs s);
  v_init : init_ s = false -> key_ s = ∅;
  v_key t v : key_ s !! t = Some v -> is_Some (Store.load (vectors s) v);
  v_inj t t' v : key_ s !! t = Some v -> key_ s !! t' = Some v -> t = t';
  v_slot t no p : slot s t no = Some p -> is_Some (Store.load (objs s) p);
  v_once t t' no no' p : slot s t no = Some p -> slot s t' no' = Some p -> t = t' /\ no = no';
}.

Lemma privacy_new_valid w : valid (ThreadPrivacy_new w).
Proof.
  split; try apply Store.ok_nothing; try done; unfold slot; cbn; intros *; by rewrite lookup_empty.
Qed.

(** What the steps of [Get] leave alone: the initialisation, the key of the
    threads that have one, the vectors and the objects. *)
Definition same (s s' : ThreadPrivacy) : Prop :=
  init_ s' = init_ s /\ key_ s' = key_ s /\ Store.objs (vectors s') = Store.objs (vectors s) /\ Store.next (vectors s) <= Store.next (vectors s') /\
  objs s' = objs s.
#[local] Instance same_preorder : PreOrder same.
Proof. split; [by intros s|]. intros s1 s2 s3 (?&?&?&?&?) (?&?&?&?&?). split_and!; [congruence..|lia|congruence]. Qed.

Lemma same_slot s s' t no : same s s' -> slot s' t no = slot s t no.
Proof. intros (_ & E1 & E2 & _). unfold slot, Store.load. by rewrite E1, E2. Qed.
Lemma same_valid s s' : same s s' -> valid s -> valid s'.
Proof.
  intros Sm V. pose proof Sm as (E1 & E2 & E3 & L & E4). destruct V. split; unfold Store.load in *; rewrite ?E1, ?E2, ?E3, ?E4; try done.
  - destruct v_vectors0 as [P B]. split; [lia|]. rewrite E3. intros p Hp%B. lia.
  - intros t no p. rewrite (same_slot s s') by done. apply v_slot0.
  - intros t t' no no' p. rewrite !(same_slot s s') by done. apply v_once0.
Qed.

Lemma on_lock_run {A} (m : M (Locks.ThreadMutex W) A) s : (forall l, exists a l', m l = Some (a, l')) ->
  exists a s', on_lock m s = Some (a, s') /\ same s s'.
Proof. intros H. destruct (H (lock_ s)) as (a & l & E). exists a, (set_lock l s). unfold on_lock. by rewrite (zoom_run _ _ _ _ _ _ E). Qed.
Lemma on_world_run {A} (f : W -> A * W) s : exists a s', on_world (call f) s = Some (a, s') /\ same s s'.
Proof.
  apply on_lock_run. intros [i w]. unfold Locks.on_world, zoom, call. cbn. destruct (f w) as [a w']. eauto.
Qed.
Lemma try_lock_run n : forall s, exists b s', try_lock n s = Some (b, s') /\ same s s'.
Proof.
  induction n as [|n IH]; intros s; [by exists false, s|]. cbn [try_lock].
  destruct (on_lock_run Locks.Lock s Locks.Lock_run) as (b & s1 & E & Sm). mrun E. destruct b; [by exists true, s1|].
  destruct (IH s1) as (b & s2 & E2 & Sm2). exists b, s2. split; [done|]. by transitivity s1.
Qed.

(** What a call for slot [no] of thread [t] may do. *)
Definition outcome (t : Z) (no : nat) (tpl : Obj) (s : ThreadPrivacy) (r : option ptr * option bool) (s' : ThreadPrivacy) : Prop :=
  valid s' /\
  match slot s t no with
  | Some p => r = (Some p, Some false) /\ objs s' = objs s /\ forall t' no', slot s' t' no' = slot s t' no'
  | None =>
      r = (None, None) /\ objs s' = objs s /\ (forall t' no', slot s' t' no' = slot s t' no') \/
      exists p, r = (Some p, Some true) /\ Store.load (objs s) p = None /\ Store.objs (objs s') = <[p := tpl]> (Store.objs (objs s)) /\
        forall t' no', slot s' t' no' = if decide (t' = t /\ no' = no) then Some p else slot s t' no'
  end.

(** Slots and objects stay as they are. *)
Definition quiet (s s' : ThreadPrivacy) : Prop := objs s' = objs s /\ forall t no, slot s' t no = slot s t no.
Lemma same_quiet s s' : same s s' -> quiet s s'.
Proof. intros Sm. split; [apply Sm|]. intros t no. by apply same_slot. Qed.
#[local] Instance quiet_preorder : PreOrder quiet.
Proof.
  split; [by split|]. intros s1 s2 s3 [O1 S1] [O2 S2]. split; [congruence|]. intros t no. by rewrite S2, S1.
Qed.

Lemma raii_run s : valid s -> exists b s', raii s = Some (b, s') /\ valid s' /\ quiet s s' /\
  if b then init_ s' = true else forall t no, slot s' t no = None.
Proof.
  intros V. unfold raii. destruct (init_ s) eqn:Hi.
  - exists true, s. cbn. unfold mbind, M_bind. cbn. rewrite Hi. by split_and!.
  - assert ((gets id : M ThreadPrivacy _) s = Some (s, s)) as Rg by done. mrun Rg. rewrite Hi.
    destruct (on_world_run privacy_Init_ s) as (ok & s1 & E & Sm). mrun E. pose proof (same_valid _ _ Sm V) as V1.
    pose proof Sm as (I1 & K1 & _). assert (key_ s1 = ∅) as K by (apply (v_init _ V1); congruence).
    assert (forall t no, slot s1 t no = None) as N by (intros t no; unfold slot; by rewrite K, lookup_empty).
    destruct ok; cbn [negb]; [|exists false, s1; split_and!; [done|done|by apply same_quiet|exact N]].
    eexists true, _. split; [done|].
    assert (forall t no, slot {| init_ := true; key_ := ∅; privacies_set_ := privacies_set_ s1; vectors := vectors s1;
      objs := objs s1; lock_ := lock_ s1 |} t no = None) as N' by (intros t no; unfold slot; cbn; by rewrite lookup_empty).
    split_and!; [|split|done]; [|apply Sm|intros t no; by rewrite N', <- (same_slot s s1), N].
    split; try apply V1; try done; cbn; intros *; by rewrite ?lookup_empty, ?N'.
Qed.

(** A thread gets an empty vector of its own. *)
Lemma new_vector t s v s1 : valid s -> init_ s = true -> key_ s !! t = None -> on_vectors (Store.new []) s = Some (v, s1) ->
  valid (set_key (<[t := v]> (key_ s1)) s1) /\ quiet s (set_key (<[t := v]> (key_ s1)) s1).
Proof.
  intros V Hi Ht (vs & E & ->)%zoom_inv. apply (Store.ok_new _ _ _ _ (v_vectors _ V)) in E as (Ok & -> & N & Eo & En).
  set (v := Store.next (vectors s)) in *. set (s' := set_key _ _).
  assert (forall t' v', key_ s !! t' = Some v' -> v' <> v) as Nv.
  { intros t' v' K ->. destruct (v_key _ V _ _ K) as [l L]. unfold Store.load in L. congruence. }
  assert (forall t' no, slot s' t' no = slot s t' no) as Sl.
  { intros t' no. unfold slot. cbn. destruct (decide (t' = t)) as [->|Nt].
    - rewrite lookup_insert_eq, Ht. cbn. unfold Store.load. rewrite Eo, lookup_insert_eq. cbn. done.
    - rewrite lookup_insert_ne by done. destruct (key_ s !! t') as [v'|] eqn:K; [|done]. cbn. unfold Store.load.
      rewrite Eo, lookup_insert_ne; [done|]. apply not_eq_sym. by eapply Nv. }
  split; [|by split]. split; [done|apply V|cbn; congruence|..].
  - intros t' v'. cbn. unfold Store.load. rewrite Eo. intros [[-> <-]|[Nt K]]%lookup_insert_Some; [rewrite lookup_insert_eq; eauto|].
    rewrite lookup_insert_ne by (apply not_eq_sym; by eapply Nv). by eapply V.
  - intros t1 t2 v'. cbn. intros [[-> <-]|[N1 K1]]%lookup_insert_Some [[-> ?]|[N2 K2]]%lookup_insert_Some; [done|..].
    + by apply Nv in K2.
    + subst. by apply Nv in K1.
    + by eapply V.
  - intros t' no p. rewrite Sl. apply V.
  - intros t1 t2 no no' p. rewrite !Sl. apply V.
Qed.

(** What [new_privacies] and [Get_] leave: nothing, or a vector of the thread. *)
Definition prepared (t : Z) (s s' : ThreadPrivacy) (ret : Z) (v : option ptr) : Prop :=
  valid s' /\ quiet s s' /\ (ret < 0 \/ ret = 1 /\ exists v', v = Some v' /\ key_ s' !! t = Some v').

Lemma register_run t v s : key_ s !! t = Some v -> exists b s',
  (ok ← try_lock kMaxTimesTryLock;
   if negb ok then mret (-3, Some v)
   else
     modify (fun s => mkPrivacy (init_ s) (key_ s) (privacies_set_ s ++ [v]) (vectors s) (objs s) (lock_ s));;
     on_lock Locks.Unlock;;
     mret (1, Some v)) s = Some ((b, Some v), s') /\ same s s' /\ (b < 0 \/ b = 1).
Proof.
  intros K. destruct (try_lock_run kMaxTimesTryLock s) as (lk & s1 & E & Sm). mrun E.
  destruct lk; cbn [negb]; [|exists (-3), s1; split_and!; [done|done|by left]].
  match goal with |- context [modify ?f] => set (g := f) end. assert (modify g s1 = Some ((), g s1)) as Rm by done. mrun Rm.
  destruct (on_lock_run Locks.Unlock (g s1)) as ([] & s2 & E2 & Sm2); [intros l; destruct (Locks.Unlock_run l) as [l' ->]; eauto|]. mrun E2.
  exists 1, s2. split_and!; [done| |by right]. by transitivity s1; [|transitivity (g s1)].
Qed.

Lemma new_privacies_run t s : valid s -> init_ s = true -> key_ s !! t = None ->
  exists ret v s', new_privacies t s = Some ((ret, v), s') /\ prepared t s s' ret v.
Proof.
  intros V Hi K. unfold new_privacies. destruct (on_world_run nothrow_new s) as (ok & s1 & E1 & Sm1). mrun E1.
  pose proof (same_valid _ _ Sm1 V) as V1.
  destruct ok; cbn [negb]; [|eexists _, _, s1; split; [done|]; split_and!; [done|by apply same_quiet|by left]].
  pose proof Sm1 as (I1 & K1 & _). rewrite <- I1 in Hi. rewrite <- K1 in K. destruct (on_vectors (Store.new []) s1) as [[v s2]|] eqn:E2; [|done].
  mrun E2. destruct (on_world_run pthread_setspecific s2) as (ret & s3 & E3 & Sm3). mrun E3.
  destruct (new_vector t s1 v s2 V1 Hi K E2) as [V2 Q2]. destruct (ret =? 0) eqn:Hr; cbn [negb].
  - match goal with |- context [modify ?f] =>
      assert (modify f s3 = Some ((), set_key (<[t := v]> (key_ s3)) s3)) as Rm by done end. mrun Rm. clear Rm. set (s4 := set_key _ s3).
    assert (same (set_key (<[t := v]> (key_ s2)) s2) s4) as Sm4.
    { destruct Sm3 as (? & Kk & ? & ? & ?). split_and!; cbn; [done|by rewrite Kk|done..]. }
    assert (key_ s4 !! t = Some v) as K4 by apply lookup_insert_eq. destruct (register_run t v s4 K4) as (b & s5 & E5 & Sm5 & Hb).
    exists b, (Some v), s5. split; [exact E5|]. assert (same (set_key (<[t := v]> (key_ s2)) s2) s5) as Sm by (by transitivity s4).
    split_and!; [by eapply same_valid| |].
    + transitivity s1; [by apply same_quiet|]. etransitivity; [exact Q2|]. by apply same_quiet.
    + destruct Hb as [|Hb]; [by left|right]. split; [done|]. exists v. split; [done|]. by destruct Sm5 as (_ & -> & _).
  - apply zoom_inv in E2 as (vs & E2 & ->). apply (Store.ok_new _ _ _ _ (v_vectors _ V1)) in E2 as (_ & _ & N & Eo & En).
    destruct Sm3 as (I3 & K3 & Vo & Vn & Ob). cbn in I3, K3, Vo, Vn, Ob. unfold on_vectors at 1. unfold zoom at 1, Store.free, mbind at 1, M_bind at 1.
    rewrite Vo, Eo, lookup_insert_eq. eexists _, _, _. split; [done|]. match goal with |- prepared _ _ ?x _ _ => assert (same s1 x) as Sm end.
    { split_and!; cbn; [congruence..| |lia|done]. by rewrite delete_insert_id. }
    split_and!; [by eapply same_valid| |by left]. transitivity s1; by apply same_quiet.
Qed.

Lemma Get__run t no s : valid s -> init_ s = true -> exists ret r v s', Get_ t no s = Some ((ret, r, v), s') /\
  (s' = s /\ ret = 0 /\ slot s t no = r /\ is_Some r \/ slot s t no = None /\ prepared t s s' ret v).
Proof.
  intros V Hi. unfold Get_. assert ((gets id : M ThreadPrivacy _) s = Some (s, s)) as Rg by done. mrun Rg. clear Rg.
  destruct (key_ s !! t) as [v|] eqn:K.
  - destruct (v_key _ V _ _ K) as [l L]. mderef L. assert (slot s t no = mjoin (l !! no)) as -> by (unfold slot; rewrite K; cbn; by rewrite L).
    destruct (l !! no) as [[p|]|]; eexists _, _, _, s; (split; [done|]); [left; eauto|right..]; (split; [done|]); split_and!; eauto; done.
  - destruct (new_privacies_run t s V Hi K) as (ret & v & s' & E & P). mrun E. exists ret, None, v, s'. split; [done|]. right.
    split; [unfold slot; by rewrite K|done].
Qed.

Lemma resized_lookup (l : list (option ptr)) no p no' :
  mjoin (<[no := Some p]> (if (length l <=? no)%nat then resize (S no) None l else l) !! no') =
  if decide (no' = no) then Some p else mjoin (l !! no').
Proof.
  set (l' := if (length l <=? no)%nat then _ else _).
  assert (no < length l')%nat as Hl by (subst l'; destruct (Nat.leb_spec (length l) no); [rewrite length_resize|]; lia).
  case_decide as H; [subst; by rewrite list_lookup_insert_eq|]. rewrite list_lookup_insert_ne by done. subst l'.
  destruct (Nat.leb_spec (length l) no); [|done]. destruct (decide (no' < length l)%nat).
  - by rewrite lookup_resize by lia.
  - rewrite (lookup_ge_None_2 l) by lia. destruct (decide (no' < S no)%nat); [by rewrite lookup_resize_new by lia|].
    by rewrite lookup_resize_old by lia.
Qed.

(** A new object in an empty slot. *)
Lemma put_slot t no tpl v l p os s : valid s -> key_ s !! t = Some v -> Store.load (vectors s) v = Some l -> slot s t no = None ->
  Store.new tpl (objs s) = Some (p, os) ->
  let l' := if (length l <=? no)%nat then resize (S no) None l else l in
  outcome t no tpl s (Some p, Some true) (set_vectors (Store.store v (<[no := Some p]> l') (vectors s)) (set_objs os s)).
Proof.
  intros V K L N E l'. apply (Store.ok_new _ _ _ _ (v_objs _ V)) in E as (Ok & _ & F & Eo & _).
  assert (Store.load (objs s) p = None) as F' by exact F. set (s' := set_vectors _ _).
  assert (forall t' no', slot s' t' no' = if decide (t' = t /\ no' = no) then Some p else slot s t' no') as Sl.
  { intros t' no'. unfold slot. cbn. destruct (decide (t' = t)) as [->|Nt].
    - rewrite K. cbn. rewrite Store.load_store, L. cbn. subst l'. rewrite resized_lookup. by repeat case_decide; naive_solver.
    - rewrite decide_False by naive_solver. destruct (key_ s !! t') as [v'|] eqn:K'; [|done]. cbn. rewrite Store.load_store_ne; [done|].
      intros ->. by eapply Nt, V. }
  assert (forall t' no' q, slot s t' no' = Some q -> q <> p) as Np.
  { intros t' no' q Hq ->. destruct (v_slot _ V _ _ _ Hq) as [x Lx]. congruence. }
  split; [|rewrite N; right; by exists p]. split; [by apply Store.ok_store; [apply V|exists l]|done|apply V|..].
  - intros t' v' K'. cbn. destruct (decide (v = v')) as [<-|]; [rewrite Store.load_store; eauto|].
    rewrite Store.load_store_ne by done. by eapply V.
  - apply V.
  - intros t' no' q. rewrite Sl. unfold Store.load. cbn. rewrite Eo. case_decide; [intros [= <-]; rewrite lookup_insert_eq; eauto|].
    intros Hq. rewrite lookup_insert_ne by (by apply not_eq_sym; eapply Np). by eapply V.
  - intros t1 t2 n1 n2 q. rewrite !Sl. repeat case_decide; [by destruct_and!; subst|..|by eapply V].
    + by intros [= <-] Hq%Np.
    + by intros Hq%Np [= <-].
Qed.

Lemma Get_outcome t no tpl s : valid s -> exists r s', Get t no tpl s = Some (r, s') /\ outcome t no tpl s r s'.
Proof.
  intros V. unfold Get. destruct (raii_run s V) as (b & s1 & E1 & V1 & [O1 S1] & I1). mrun E1.
  assert (forall r s', outcome t no tpl s1 r s' -> outcome t no tpl s r s') as Up.
  { intros r s' [V' H]. split; [done|]. rewrite <- S1, <- O1. destruct (slot s1 t no); [destruct H as (? & ? & H)|destruct H as [(? & ? & H)|(p & ? & ? & ? & H)]].
    - split_and!; [done..|]. intros. by rewrite <- S1.
    - left. split_and!; [done..|]. intros. by rewrite <- S1.
    - right. exists p. split_and!; [done..|]. intros. by rewrite <- S1. }
  assert (forall s', slot s1 t no = None -> valid s' -> quiet s1 s' -> outcome t no tpl s1 (None, None) s') as Nil.
  { intros s' N V' [O S]. split; [done|]. rewrite N. left. by split_and!. }
  destruct b; cbn [negb]; [|exists (None, None), s1; split; [done|]; apply Up; by apply Nil].
  destruct (Get__run t no s1 V1 I1) as (ret & r & v & s2 & E2 & C). mrun E2. destruct C as [(-> & -> & Sr & [p ->])|(N & V2 & Q2 & C)].
  { exists (Some p, Some false), s1. split; [done|]. apply Up. split; [done|]. by rewrite Sr. }
  destruct C as [C|(-> & v' & -> & K)].
  { rewrite (proj2 (Z.eqb_neq _ _)), (proj2 (Z.ltb_lt _ _)) by lia. exists (None, None), s2. split; [done|]. by apply Up, Nil. }
  cbn [Z.eqb Z.ltb Z.compare]. destruct (on_world_run nothrow_new s2) as (ok & s3 & E3 & Sm3). mrun E3.
  pose proof (same_valid _ _ Sm3 V2) as V3. assert (quiet s1 s3) as Q3 by (transitivity s2; [done|by apply same_quiet]).
  destruct ok; cbn [negb]; [|exists (None, None), s3; split; [done|]; by apply Up, Nil].
  assert (key_ s3 !! t = Some v') as K3 by (by destruct Sm3 as (_ & -> & _)). destruct (v_key _ V3 _ _ K3) as [l L].
  destruct (Store.new tpl (objs s3)) as [[p os]|] eqn:En; [|done].
  assert (on_objs (Store.new tpl) s3 = Some (p, set_objs os s3)) as Ro by (unfold on_objs; by rewrite (zoom_run _ _ _ _ _ _ En)). mrun Ro.
  assert (slot s3 t no = None) as N3 by (destruct Q3 as [_ ->]; done).
  pose proof (put_slot t no tpl v' l p os s3 V3 K3 L N3 En) as [Vp Hp]. eexists _, _. split; [apply bind_Some; eexists _, _; split; [done|]|].
  { assert ((gets id : M ThreadPrivacy _) (set_objs os s3) = Some (set_objs os s3, set_objs os s3)) as Rg by done. mrun Rg. mderef L. done. }
  apply Up. split; [exact Vp|]. rewrite N3 in Hp. rewrite N. destruct Hp as [(? & _)|(q & Eq & F & Eo & Sl)]; [done|]. right. exists q.
  destruct Q3 as [O3 S3]. split_and!; [done|by rewrite <- O3|by rewrite <- O3|]. intros t' no'. by rewrite Sl, S3.
Qed.

(** ** The object of a slot *)

Definition object (s : ThreadPrivacy) (t : Z) (no : nat) : option Obj := p ← slot s t no; Store.load (objs s) p.

(** Writing to an object that a call returned. *)
Definition assign (p : ptr) (x : Obj) : M ThreadPrivacy () := modify (fun s => set_objs (Store.store p x (objs s)) s).

Lemma slot_object s t no p : valid s -> slot s t no = Some p -> exists x, Store.load (objs s) p = Some x /\ object s t no = Some x.
Proof. intros V Sp. destruct (v_slot _ V _ _ _ Sp) as [x L]. exists x. split; [done|]. unfold object. by rewrite Sp. Qed.

(** A call leaves the objects of the other slots alone and returns the object
    of its slot, which is a copy of its argument if there was none. *)
Lemma Get_object t no tpl s : valid s -> exists r o s', Get t no tpl s = Some ((r, o), s') /\ valid s' /\
  match r with
  | None => object s t no = None /\ forall t' no', object s' t' no' = object s t' no'
  | Some p => slot s' t no = Some p /\
      forall t' no', object s' t' no' = if decide (t' = t /\ no' = no) then Some (default tpl (object s t no)) else object s t' no'
  end.
Proof.
  intros V. destruct (Get_outcome t no tpl s V) as ([r o] & s' & E & V' & O). exists r, o, s'. split_and!; [done..|].
  destruct (slot s t no) as [p|] eqn:Sl.
  - destruct O as ([= -> ->] & Oo & Os). split; [by rewrite Os|]. destruct (slot_object _ _ _ _ V Sl) as (x & _ & Ex). intros t' no'.
    assert (object s' t' no' = object s t' no') as -> by (unfold object; by rewrite Os, Oo). case_decide as D; [|done].
    destruct D as [-> ->]. by rewrite Ex.
  - assert (object s t no = None) as N by (unfold object; by rewrite Sl). destruct O as [([= -> ->] & Oo & Os)|(p & [= -> ->] & F & Oo & Os)].
    { split; [done|]. intros t' no'. unfold object. by rewrite Os, Oo. }
    split; [by rewrite Os, decide_True|]. intros t' no'. unfold object at 1. unfold Store.load. rewrite Os, Oo, N. case_decide as D; cbn; [apply lookup_insert_eq|].
    unfold object. destruct (slot s t' no') as [q|] eqn:Sq; [|done]. cbn. apply lookup_insert_ne. intros <-.
    destruct (v_slot _ V _ _ _ Sq). congruence.
Qed.

(** ** When a call returns null *)

(** What the first use of a slot asks of the system, in order: the key unless
    it was made, a vector and its registration unless the thread has one, and
    the object.  The result tells whether everything was granted. *)
Definition ask {A} (good : A -> bool) (m : M (Locks.ThreadMutex W) A) (rest : M (Locks.ThreadMutex W) bool) : M (Locks.ThreadMutex W) bool :=
  a ← m; if good a then rest else mret false.
Fixpoint ask_lock (n : nat) : M (Locks.ThreadMutex W) bool :=
  match n with
  | O => mret false
  | S n => ret ← Locks.Lock; if (ret : bool) then mret true else ask_lock n
  end.
Definition ask_object : M (Locks.ThreadMutex W) bool := Locks.on_world (call nothrow_new).
Definition ask_vector (rest : M (Locks.ThreadMutex W) bool) : M (Locks.ThreadMutex W) bool :=
  ask id (Locks.on_world (call nothrow_new))
    (ask (fun ret => ret =? 0) (Locks.on_world (call pthread_setspecific))
      (ask id (ask_lock kMaxTimesTryLock) (Locks.Unlock;; rest))).
Definition first_use (made keyed : bool) : M (Locks.ThreadMutex W) bool :=
  let slot := if keyed then ask_object else ask_vector ask_object in
  if made then slot else ask id (Locks.on_world (call privacy_Init_)) slot.
(** The system refuses something that thread [t] needs for its first use. *)
Definition refused (s : ThreadPrivacy) (t : Z) : Prop :=
  fst <$> first_use (init_ s) (bool_decide (is_Some (key_ s !! t))) (lock_ s) = Some false.

Lemma try_lock_asks n : forall s, try_lock n s = on_lock (ask_lock n) s.
Proof.
  induction n as [|n IH]; intros s; [by destruct s|]. cbn [try_lock ask_lock]. unfold on_lock, zoom, mbind, M_bind.
  destruct (Locks.Lock (lock_ s)) as [[b l]|]; [|done]. destruct b; [done|]. rewrite IH. unfold on_lock, zoom. cbn.
  by destruct (ask_lock n l) as [[]|].
Qed.

Lemma ask_run {A} (good : A -> bool) m rest l a l' : m l = Some (a, l') ->
  ask good m rest l = if good a then rest l' else Some (false, l').
Proof. intros E. unfold ask. mrun E. by destruct (good a). Qed.

Lemma new_privacies_asks t s ret v s' rest : new_privacies t s = Some ((ret, v), s') ->
  ret <> 0 /\ ask_vector rest (lock_ s) = if ret <? 0 then Some (false, lock_ s') else rest (lock_ s').
Proof.
  unfold new_privacies, ask_vector. intros E. step E as ok s1 E1. apply zoom_inv in E1 as (l1 & E1 & ->). rewrite (ask_run _ _ _ _ _ _ E1).
  destruct ok; cbn [negb id] in *; [|by injection E as <- _ <-]. step E as v' s2 E2. apply zoom_inv in E2 as (vs & _ & ->).
  step E as ret' s3 E3. apply zoom_inv in E3 as (l3 & E3 & ->). cbn in E3. rewrite (ask_run _ _ _ _ _ _ E3).
  destruct (ret' =? 0); cbn [negb] in *; [|step E as u s4 E4; apply zoom_inv in E4 as (vs' & _ & ->); by injection E as <- _ <-].
  step E as u s4 E4. injection E4 as _ <-. step E as lk s5 E5. rewrite try_lock_asks in E5. apply zoom_inv in E5 as (l5 & E5 & ->). cbn in E5.
  rewrite (ask_run _ _ _ _ _ _ E5). destruct lk; cbn [negb id] in *; [|by injection E as <- _ <-]. step E as u' s6 E6. injection E6 as _ <-.
  step E as u'' s7 E7. apply zoom_inv in E7 as (l7 & E7 & ->). cbn in E7. injection E as <- _ <-. split; [done|]. by mrun E7.
Qed.

Lemma Get__asks t no s ret r v s' rest : slot s t no = None -> Get_ t no s = Some ((ret, r, v), s') ->
  ret <> 0 /\ (if bool_decide (is_Some (key_ s !! t)) then rest else ask_vector rest) (lock_ s) =
    if ret <? 0 then Some (false, lock_ s') else rest (lock_ s').
Proof.
  unfold slot, Get_. intros N E. step E as s0 s1 E1. injection E1 as <- <-. destruct (key_ s !! t) as [v'|]; cbn in N |- *.
  - step E as l s2 E2. apply deref_inv in E2 as [L ->]. rewrite L in N. cbn in N.
    destruct (l !! no) as [[p|]|]; [done|by injection E as <- _ _ <-..].
  - step E as x s2 E2. destruct x as [ret' v']. injection E as <- _ _ <-. exact (new_privacies_asks _ _ _ _ _ _ E2).
Qed.

(** A call returns null exactly when the slot is empty and the system refuses
    something its first use needs. *)
Lemma Get_null t no tpl s r s' : valid s -> Get t no tpl s = Some (r, s') -> r.1 = None <-> slot s t no = None /\ refused s t.
Proof.
  intros V E. destruct (Get_outcome t no tpl s V) as (r' & s0 & E' & O). rewrite E in E'. injection E' as <- <-. destruct O as [_ O].
  destruct (slot s t no) as [p|] eqn:N; [destruct O as (-> & _); by split; [|intros []]|]. clear O.
  enough (fst <$> first_use (init_ s) (bool_decide (is_Some (key_ s !! t))) (lock_ s) = Some (bool_decide (is_Some r.1))) as H.
  { unfold refused. rewrite H. destruct r.1; cbn; naive_solver. }
  unfold Get in E. step E as ok s1 E1. unfold first_use. set (keyed := bool_decide (is_Some (key_ s !! t))).
  assert (forall s1, slot s1 t no = None -> bool_decide (is_Some (key_ s1 !! t)) = keyed ->
    ('(ret, result, v) ← Get_ t no;
     if ret =? 0 then mret (result, Some false)
     else if ret <? 0 then mret (None, None)
     else
       ok ← on_world (call nothrow_new);
       if negb ok then mret (None, None)
       else
         p ← on_objs (Store.new tpl);
         v ← deref v;
         s ← gets id;
         l ← deref (Store.load (vectors s) v);
         let l := if (length l <=? no)%nat then resize (S no) None l else l in
         modify (fun s => set_vectors (Store.store v (<[no := Some p]> l) (vectors s)) s);;
         mret (Some p, Some true)) s1 = Some (r, s') ->
    fst <$> (if keyed then ask_object else ask_vector ask_object) (lock_ s1) = Some (bool_decide (is_Some r.1))) as Rest.
  { clear E E1 s1. intros s1 N1 K1 E. step E as x s2 E2. destruct x as [[ret q] v]. destruct (Get__asks _ _ _ _ _ _ _ ask_object N1 E2) as [Nz A].
    rewrite K1 in A. rewrite A. rewrite (proj2 (Z.eqb_neq _ _) Nz) in E. destruct (ret <? 0); [by injection E as <- <-|].
    step E as ok' s3 E3. apply zoom_inv in E3 as (l3 & E3 & ->). unfold ask_object. rewrite E3. cbn. destruct ok'; cbn [negb] in E; [|by injection E as <- <-].
    step E as p s4 E4. step E as v' s5 E5. step E as s6 s7 E6. step E as l s8 E8. step E as u s9 E9. by injection E as <- <-. }
  unfold raii in E1. step E1 as s0 s2 E0. injection E0 as <- <-. destruct (init_ s) eqn:Hi; [injection E1 as <- <-; by apply Rest|].
  step E1 as ok' s2 E2. apply zoom_inv in E2 as (l2 & E2 & ->). rewrite (ask_run _ _ _ _ _ _ E2).
  destruct ok'; cbn [negb id] in *; [|injection E1 as <- <-; by injection E as <- <-].
  step E1 as u s3 E3. injection E3 as _ <-. injection E1 as <- <-. apply (Rest _) in E; [exact E|unfold slot; cbn; by rewrite lookup_empty|].
  cbn. rewrite lookup_empty. subst keyed. by rewrite (v_init _ V Hi), lookup_empty.
Qed.

Lemma assign_object t no p x s : valid s -> slot s t no = Some p -> exists s', assign p x s = Some ((), s') /\ valid s' /\
  slot s' t no = Some p /\ forall t' no', object s' t' no' = if decide (t' = t /\ no' = no) then Some x else object s t' no'.
Proof.
  intros V Sp. destruct (v_slot _ V _ _ _ Sp) as [y L]. eexists. split; [done|]. set (s' := set_objs _ s).
  assert (forall t' no', slot s' t' no' = slot s t' no') as Sl by done. split_and!; [|done|].
  - destruct V. split; try done; [apply Store.ok_store; [done|by exists y]|]. intros t' no' q Hq%v_slot0. cbn.
    destruct (decide (p = q)) as [<-|]; [rewrite Store.load_store; eauto|by rewrite Store.load_store_ne].
  - intros t' no'. unfold object. rewrite Sl. cbn. case_decide as D; [destruct D as [-> ->]; rewrite Sp; cbn; apply Store.load_store|].
    destruct (slot s t' no') as [q|] eqn:Sq; [|done]. cbn. apply Store.load_store_ne. intros <-. apply D. by eapply V.
Qed.

(** ** Histories *)

(** A call: the thread, the slot and the object to copy. *)
Abbreviation Call := (Z * nat * Obj)%type.
Fixpoint calls (l : list Call) : M ThreadPrivacy (list (option ptr)) :=
  match l with
  | [] => mret []
  | (t, no, tpl) :: l => r ← Get t no tpl; rs ← calls l; mret (r.1 :: rs)
  end.

Lemma outcome_slot t no tpl s r s' : outcome t no tpl s r s' ->
  (forall t' no' p, slot s t' no' = Some p -> slot s' t' no' = Some p) /\ (forall p, r.1 = Some p -> slot s' t no = Some p).
Proof.
  intros [_ H]. destruct (slot s t no) as [q|] eqn:N.
  - destruct H as (-> & _ & S). split; [intros; by rewrite S|]. intros p [= <-]. by rewrite S.
  - destruct H as [(-> & _ & S)|(q & -> & _ & _ & S)]; [split; [intros; by rewrite S|done]|]. split.
    + intros t' no' p Hp. rewrite S. case_decide; [|done]. destruct_and!; subst. congruence.
    + intros p [= <-]. rewrite S. by rewrite decide_True.
Qed.

(** Every call returns, keeps what the slots hold, and what it returned is in
    its slot at the end. *)
Lemma calls_slots l : forall s, valid s -> exists rs s', calls l s = Some (rs, s') /\ valid s' /\
  (forall t no p, slot s t no = Some p -> slot s' t no = Some p) /\
  Forall2 (fun c r => forall p, r = Some p -> slot s' c.1.1 c.1.2 = Some p) l rs.
Proof.
  induction l as [|[[t no] tpl] l IH]; intros s V; [by exists [], s|]. cbn [calls].
  destruct (Get_outcome t no tpl s V) as (r & s1 & E1 & O). mrun E1. apply outcome_slot in O as O'. destruct O' as [K1 R1].
  destruct (IH s1 (proj1 O)) as (rs & s2 & E2 & V2 & K2 & F). mrun E2. exists (r.1 :: rs), s2. split_and!; [done|done|auto|].
  constructor; [|done]. cbn. intros p Hp. auto.
Qed.

Lemma calls_filled l : forall s rs s' j t no o p, valid s -> slot s t no = Some p -> calls l s = Some (rs, s') -> l !! j = Some (t, no, o) ->
  rs !! j = Some (Some p).
Proof.
  induction l as [|[[t' no'] tpl] l IH]; intros s rs s' j t no o p V Hp E Hj; [done|]. cbn [calls] in E.
  destruct (Get_outcome t' no' tpl s V) as (r & s1 & E1 & O). rewrite (bind_run _ _ _ _ _ E1) in E. step E as rs' s2 E2. injection E as <- <-.
  destruct j as [|j]; [|cbn; eapply (IH s1); [apply O|exact (proj1 (outcome_slot _ _ _ _ _ _ O) _ _ _ Hp)|exact E2|exact Hj]].
  injection Hj as -> -> _. destruct O as [_ O]. rewrite Hp in O. by destruct O as (-> & _).
Qed.
Lemma calls_kept l : forall s rs s' i j t no o o' p, valid s -> calls l s = Some (rs, s') -> (i <= j)%nat -> rs !! i = Some (Some p) ->
  l !! i = Some (t, no, o) -> l !! j = Some (t, no, o') -> rs !! j = Some (Some p).
Proof.
  induction l as [|[[t' no'] tpl] l IH]; intros s rs s' i j t no o o' p V E Hij Hp Hi Hj; [done|]. cbn [calls] in E.
  destruct (Get_outcome t' no' tpl s V) as (r & s1 & E1 & O). rewrite (bind_run _ _ _ _ _ E1) in E. step E as rs' s2 E2. injection E as <- <-.
  destruct i as [|i], j as [|j]; [done| |lia|].
  - injection Hp as Hp. injection Hi as -> -> _. cbn. eapply calls_filled; [apply O|exact (proj2 (outcome_slot _ _ _ _ _ _ O) _ Hp)|exact E2|exact Hj].
  - eapply (IH s1 rs' s2 i j); [apply O|exact E2|lia|done..].
Qed.

(** C36: in any sequence of calls by any threads, every call returns; once a
    call has returned an object, every later call for the same slot in the
    same thread returns that object, and two calls return the same object only
    if they are for the same slot in the same thread. *)
Theorem privacy_exclusive l w : exists rs s', calls l (ThreadPrivacy_new w) = Some (rs, s') /\ length rs = length l /\
  forall i j t no o t' no' o' p q, l !! i = Some (t, no, o) -> l !! j = Some (t', no', o') ->
    rs !! i = Some (Some p) ->
    ((i <= j)%nat -> t' = t -> no' = no -> rs !! j = Some (Some p)) /\
    (rs !! j = Some (Some q) -> p = q <-> t = t' /\ no = no').
Proof using All.
  destruct (calls_slots l (ThreadPrivacy_new w) (privacy_new_valid w)) as (rs & s' & E & V & _ & F). exists rs, s'. split; [done|].
  split; [symmetry; by eapply Forall2_length|]. intros i j t no o t' no' o' p q Hi Hj Hp. split.
  - intros Hij -> ->. by eapply calls_kept; [apply privacy_new_valid|exact E|exact Hij|exact Hp|exact Hi|exact Hj].
  - intros Hq. pose proof (list.Forall2_lookup_lr _ _ _ _ _ _ F Hi Hp p eq_refl) as Sp.
    pose proof (list.Forall2_lookup_lr _ _ _ _ _ _ F Hj Hq q eq_refl) as Sq. cbn in Sp, Sq. split; [intros <-; by eapply V|].
    intros [<- <-]. congruence.
Qed.

End Privacy.
Arguments ThreadPrivacy : clear implicits.

(** Two threads and two slots, with enough memory. *)
#[local] Instance free_locks : LockOs () := {| lock_init w := (0, w); lock_lock w := (0, w); lock_unlock w := (0, w); lock_destroy w := (0, w) |}.
#[local] Instance much_memory : PrivacyOs () := {| privacy_Init_ w := (true, w); nothrow_new w := (true, w); pthread_setspecific w := (0, w) |}.
Definition ex_calls : list (Z * nat * bool) := [(10, 0%nat, true); (11, 0%nat, true); (10, 2%nat, false); (10, 0%nat, false)].
Lemma privacy_exclusive_witness : exists s', calls ex_calls (ThreadPrivacy_new ()) = Some ([Some 1; Some 2; Some 3; Some 1], s').
Proof.
  destruct (privacy_exclusive ex_calls ()) as (rs & s' & E & _). exists s'. rewrite E.
  assert (fst <$> calls ex_calls (ThreadPrivacy_new ()) = Some [Some 1; Some 2; Some 3; Some 1]) as R by (vm_compute; reflexivity).
  rewrite E in R. injection R as ->. reflexivity.
Defined.
End ThreadPrivacy.
