(* ===== verification/LockRace.v ===== *)
(** * LockRace: the locks with several threads at once

    The code of lock_policy.hpp one access to shared memory at a time: a thread
    is the point it has reached in [Lock] or [Unlock]; [XFC_RAII_INIT] tests
    [init_], calls the initialisation of the system and sets [init_], each in a
    step of its own.  The functions of the system are single steps:
    [pthread_spin_init] or [pthread_mutex_init] makes the lock free whatever it
    was, taking a lock waits until it is free.  [ThreadMutex] and [SpinLock] are
    the same code with the functions of another lock.  The clients differ in what
    they do when [Lock] returns false: pool_conns_per_remote.cpp and
    thread_privacy.h call it again, events_driver.hpp gives up, and
    delay_del_ptr.hpp does not look. *)

From Stdlib Require Import ZArith Lia.
From stdpp Require Import base list numbers option.
From S2P Require Import Prelude.

Module LockRace.

(** The lock of the system; [Raw] before its initialisation. *)
Inductive Word := Raw | Free | Taken (owner : nat).

Inductive Point :=
| Out
| LockTest | LockInit | LockSet | LockTake
| Refused
| Inside
| UnlockTest | UnlockInit | UnlockSet | UnlockDrop.
#[global] Instance Point_eq_dec : EqDecision Point.
Proof. solve_decision. Defined.

Inductive Policy := Retry | GiveUp | Ignore.

Record State := mkState { init_ : bool; lock_ : Word; threads : list (Policy * Point) }.

(** [Call]: a thread calls [Lock]; [Leave]: it calls [Unlock]; [Run i ok]: its
    next access, where [ok] is the result of an initialisation. *)
Inductive Label := Call (i : nat) | Leave (i : nat) | Run (i : nat) (ok : bool).

(** One access of thread [i]: its next point, [init_] and the lock.  [None] is the
    use of a lock that is not initialised, or the release of a lock that is not
    held. *)
Definition access (i : nat) (ok : bool) (po : Policy) (x : Point) (b : bool) (w : Word) : option (Point * bool * Word) :=
  match x with
  | Out => Some (Out, b, w)
  | LockTest => Some (if b then LockTake else LockInit, b, w)
  | LockInit => Some (if ok then (LockSet, b, Free) else (Refused, b, w))
  | LockSet => Some (LockTake, true, w)
  | LockTake =>
      match w with
      | Raw => None
      | Free => Some (Inside, b, Taken i)
      | Taken _ => Some (LockTake, b, w)
      end
  | Refused => Some (match po with Retry => LockTest | GiveUp => Out | Ignore => Inside end, b, w)
  | Inside => Some (Inside, b, w)
  | UnlockTest => Some (if b then UnlockDrop else UnlockInit, b, w)
  | UnlockInit => Some (if ok then (UnlockSet, b, Free) else (Out, b, w))
  | UnlockSet => Some (UnlockDrop, true, w)
  | UnlockDrop =>
      match w with
      | Taken o => if decide (o = i) then Some (Out, b, Free) else None
      | _ => None
      end
  end.

Definition step (st : State) (l : Label) : option State :=
  match l with
  | Call i =>
      match threads st !! i with
      | Some (po, Out) => Some (mkState (init_ st) (lock_ st) (<[i := (po, LockTest)]> (threads st)))
      | _ => Some st
      end
  | Leave i =>
      match threads st !! i with
      | Some (po, Inside) => Some (mkState (init_ st) (lock_ st) (<[i := (po, UnlockTest)]> (threads st)))
      | _ => Some st
      end
  | Run i ok =>
      match threads st !! i with
      | Some (po, x) =>
          '(y, b, w) ← access i ok po x (init_ st) (lock_ st);
          Some (mkState b w (<[i := (po, y)]> (threads st)))
      | None => Some st
      end
  end.
Fixpoint exec (st : State) (ls : list Label) : option State :=
  match ls with [] => Some st | l :: ls => st ← step st l; exec st ls end.

(** [SpinLock::SpinLock], with the threads that will use the lock. *)
Definition start (ps : list Policy) : State := mkState false Raw ((fun po => (po, Out)) <$> ps).
Definition inside (st : State) (i : nat) : Prop := snd <$> threads st !! i = Some Inside.

(** ** What the code takes for granted *)

(** Until the lock is initialised one thread uses it at a time; for a client that
    does not look at the result of [Lock] the initialisation succeeds. *)
Definition calm (st : State) (l : Label) : Prop :=
  match l with
  | Call i => init_ st = true \/ forall j t, threads st !! j = Some t -> j <> i -> t.2 = Out
  | Run i ok => forall x, threads st !! i = Some (Ignore, x) -> ok = true
  | Leave _ => True
  end.

Inductive reach (st0 : State) : State -> Prop :=
| reach_start : reach st0 st0
| reach_step st l st' : reach st0 st -> calm st l -> step st l = Some st' -> reach st0 st'.

Definition calmb (st : State) (l : Label) : bool :=
  match l with
  | Call i => init_ st || forallb (fun j => match threads st !! j with Some (_, x) => bool_decide (j = i \/ x = Out) | None => true end)
                            (seq 0 (length (threads st)))
  | Run i ok => match threads st !! i with Some (Ignore, _) => ok | _ => true end
  | Leave _ => true
  end.
Fixpoint calm_exec (st : State) (ls : list Label) : option State :=
  match ls with
  | [] => Some st
  | l :: ls => if calmb st l then st ← step st l; calm_exec st ls else None
  end.

Lemma lock_calmb_sound st l : calmb st l = true -> calm st l.
Proof.
  destruct l as [i|i|i ok]; cbn; [|done|].
  - intros [->|H]%orb_true_iff; [by left|right]. intros j t E N. rewrite forallb_forall in H.
    specialize (H j). rewrite E in H. destruct t as [po x]. apply lookup_lt_Some in E.
    assert (j = i \/ x = Out) as [?| ->] by (eapply bool_decide_eq_true_1, H, in_seq; lia); done.
  - intros H x E. by rewrite E in H.
Qed.

Lemma lock_calm_exec_reach st0 ls : forall st st', reach st0 st -> calm_exec st ls = Some st' -> reach st0 st'.
Proof.
  induction ls as [|l ls IH]; intros st st' R E; cbn in E; [by injection E as <-|].
  destruct (calmb st l) eqn:C; [|done]. apply option.bind_Some in E as (st1 & E1 & E). eapply IH; [|exact E].
  eapply reach_step; [exact R|by apply lock_calmb_sound|done].
Qed.

(** ** The invariant *)

(** Where a thread holds the lock, and where it can be before the lock is
    initialised. *)
Definition holding (x : Point) : Prop := x = Inside \/ x = UnlockTest \/ x = UnlockDrop.
Definition early (x : Point) : Prop := x = LockTest \/ x = LockInit \/ x = LockSet \/ x = Refused.
Definition late (x : Point) : Prop := x = Out \/ x = LockTest \/ x = LockTake \/ x = Refused \/ holding x.

Lemma holding_late x : holding x -> late x.
Proof. unfold late. auto. Qed.
Lemma holding_points : holding Inside /\ holding UnlockTest /\ holding UnlockDrop.
Proof. unfold holding. auto. Qed.

Inductive ok (st : State) : Prop :=
| ok_early : init_ st = false ->
    (forall i po x, threads st !! i = Some (po, x) -> x = Out \/ early x) ->
    (forall i j po po' x y, threads st !! i = Some (po, x) -> threads st !! j = Some (po', y) -> x <> Out -> y <> Out -> i = j) ->
    (forall i po, threads st !! i = Some (po, LockSet) -> lock_ st = Free) ->
    (forall i x, threads st !! i = Some (Ignore, x) -> x <> Refused) -> ok st
| ok_late : init_ st = true -> lock_ st <> Raw ->
    (forall i po x, threads st !! i = Some (po, x) -> late x) ->
    (forall i po x, threads st !! i = Some (po, x) -> holding x <-> lock_ st = Taken i) ->
    (forall i, lock_ st = Taken i -> is_Some (threads st !! i)) ->
    (forall i x, threads st !! i = Some (Ignore, x) -> x <> Refused) -> ok st.

Lemma lock_start_ok ps : ok (start ps).
Proof.
  assert (forall i po x, threads (start ps) !! i = Some (po, x) -> x = Out) as H.
  { intros i po x E. cbn in E. rewrite list_lookup_fmap in E. destruct (ps !! i); [|done]. by injection E. }
  apply ok_early; [done| | | |].
  - intros i po x E. left. by eapply H.
  - intros i j po po' x y E _ N. by apply H in E.
  - intros i po E. by apply H in E.
  - intros i x E. apply H in E. by subst.
Qed.

(** A thread moves: the others are where they were. *)
Lemma lock_moved (l : list (Policy * Point)) i t j t' : <[i := t]> l !! j = Some t' -> (j = i /\ t' = t) \/ (j <> i /\ l !! j = Some t').
Proof. intros E. apply list_lookup_insert_Some in E as [(<- & <- & _)|[N E]]; auto. Qed.

Lemma late_moves st i po x y w : ok st -> init_ st = true -> threads st !! i = Some (po, x) -> late y -> (po = Ignore -> y <> Refused) ->
  (holding y <-> w = Taken i) -> (forall j, j <> i -> w = Taken j <-> lock_ st = Taken j) -> w <> Raw ->
  ok (mkState true w (<[i := (po, y)]> (threads st))).
Proof.
  intros [I _ _ _ _|_ Nr La Ho Ow Ig] I' E Ly Ny Hy Hw Nw; [congruence|]. apply ok_late; cbn [init_ lock_ threads]; try done.
  - intros j po' z [[-> [= -> ->]]|[N Ej]]%lock_moved; [done|by eapply La].
  - intros j po' z [[-> [= -> ->]]|[N Ej]]%lock_moved; [done|]. rewrite Hw by done. by eapply Ho.
  - intros j Ej. destruct (decide (j = i)) as [->|N]; [rewrite list_lookup_insert_eq; [done|by eapply lookup_lt_Some]|].
    rewrite list_lookup_insert_ne by done. apply Ow. by apply Hw.
  - intros j z [[-> [= <- ->]]|[N Ej]]%lock_moved; [by apply Ny|by eapply Ig].
Qed.

Lemma early_moves st i po x y w : ok st -> init_ st = false -> threads st !! i = Some (po, x) -> x <> Out \/ y = Out -> y = Out \/ early y ->
  (po = Ignore -> y <> Refused) -> (y = LockSet -> w = Free) -> (y <> LockSet -> w = lock_ st \/ x <> Out) ->
  ok (mkState false w (<[i := (po, y)]> (threads st))).
Proof.
  intros [_ Ea On Se Ig|I] I' E Nx Ey Ny Sy Wy; [|congruence].
  assert (forall j po' z, j <> i -> threads st !! j = Some (po', z) -> x <> Out -> z = Out) as Alone.
  { intros j po' z N Ej Hx. destruct (decide (z = Out)); [done|]. destruct N. by eapply On. }
  apply ok_early; cbn [init_ lock_ threads]; try done.
  - intros j po' z [[-> [= -> ->]]|[N Ej]]%lock_moved; [done|by eapply Ea].
  - intros j k po1 po2 z1 z2 [[-> [= -> ->]]|[N Ej]]%lock_moved [[-> [= -> ->]]|[N' Ek]]%lock_moved Z1 Z2; try done.
    + destruct Nx as [Nx| ->]; [|done]. by apply (Alone k) in Ek.
    + destruct Nx as [Nx| ->]; [|done]. by apply (Alone j) in Ej.
    + by eapply On.
  - intros j po' [[-> [= -> <-]]|[N Ej]]%lock_moved; [by apply Sy|]. destruct (decide (y = LockSet)) as [Hy|Hy]; [by apply Sy|].
    destruct (Wy Hy) as [->|Nx']; [by eapply Se|]. by apply (Alone j) in Ej.
  - intros j z [[-> [= <- ->]]|[N Ej]]%lock_moved; [by apply Ny|by eapply Ig].
Qed.

(** The end of the initialisation: no other thread uses the lock yet. *)
Lemma initialised st i po : ok st -> init_ st = false -> threads st !! i = Some (po, LockSet) ->
  ok (mkState true (lock_ st) (<[i := (po, LockTake)]> (threads st))).
Proof.
  intros [_ Ea On Se Ig|I] I' E; [|congruence]. pose proof (Se i po E) as Hf.
  assert (forall j po' z, threads st !! j = Some (po', z) -> j <> i -> z = Out) as Alone.
  { intros j po' z Ej N. destruct (decide (z = Out)); [done|]. destruct N. by eapply (On j i). }
  apply ok_late; cbn [init_ lock_ threads]; rewrite ?Hf; try done.
  - intros j po' z [[-> [= -> ->]]|[N Ej]]%lock_moved; [unfold late; auto|]. apply Alone in Ej as ->; [by left|done].
  - intros j po' z [[-> [= -> ->]]|[N Ej]]%lock_moved; [by split; [intros [?|[?|?]]|]|]. apply Alone in Ej as ->; [|done].
    by split; [intros [?|[?|?]]|].
  - intros j z [[-> [= <- ->]]|[N Ej]]%lock_moved; [done|by eapply Ig].
Qed.

Lemma run_late st i po x b : ok st -> init_ st = true -> threads st !! i = Some (po, x) ->
  exists y w, access i b po x true (lock_ st) = Some (y, true, w) /\ ok (mkState true w (<[i := (po, y)]> (threads st))) /\
    (x = LockTake -> lock_ st = Free -> y = Inside).
Proof.
  intros O I E. pose proof O as [I2 _ _ _ _|_ Nr La Ho Ow Ig]; [congruence|]. pose proof (La i po x E) as Lx. pose proof (Ho i po x E) as Hx.
  assert (forall y, late y -> (po = Ignore -> y <> Refused) -> (holding y <-> lock_ st = Taken i) -> ok (mkState true (lock_ st) (<[i := (po, y)]> (threads st)))) as Same
    by (intros y L1 L2 L3; by apply (late_moves st i po x)).
  destruct Lx as [->|[->|[->|[->|Hd]]]]; cbn [access].
  - eexists _, _. split; [done|]. split; [|done]. apply Same; [by left|done|done].
  - eexists _, _. split; [done|]. split; [|done]. apply Same; [by right; right; left|done|]. rewrite <- Hx. by split; intros [?|[?|?]].
  - destruct (lock_ st) as [| |o] eqn:Ew; [done| |].
    + eexists _, _. split; [done|]. split; [|done]. apply (late_moves st i po LockTake); try done.
      * apply holding_late, holding_points.
      * split; [done|]. by left.
      * intros j N. rewrite Ew. split; [|done]. intros [= <-]. done.
    + eexists _, _. split; [done|]. split; [|done]. rewrite <- Ew in *. apply Same; [by right; right; left|done|done].
  - eexists _, _. split; [done|]. split; [|done].
    assert (po <> Ignore) as Np by (intros ->; by apply (Ig i Refused)).
    assert (lock_ st <> Taken i) as Nt by (rewrite <- Hx; by intros [?|[?|?]]).
    destruct po; [| |done]; apply Same; try done; [by right; left|split; [by intros [?|[?|?]]|done]|by left|split; [by intros [?|[?|?]]|done]].
  - pose proof (proj1 Hx Hd) as Ew. destruct Hd as [->|[->| ->]]; cbn [access].
    + eexists _, _. split; [done|]. split; [|done]. apply Same; [apply holding_late, holding_points|done|done].
    + eexists _, _. split; [done|]. split; [|done]. apply Same; [apply holding_late, holding_points|done|]. split; [done|]. intros _. by right; right.
    + rewrite Ew, decide_True by done. eexists _, _. split; [done|]. split; [|done].
      apply (late_moves st i po UnlockDrop); try done; [by left|split; [by intros [?|[?|?]]|done]|].
      intros j N. rewrite Ew. split; [done|]. by intros [= <-].
Qed.

Lemma run_early st i po x b : ok st -> init_ st = false -> threads st !! i = Some (po, x) -> (po = Ignore -> b = true) ->
  exists y b' w, access i b po x false (lock_ st) = Some (y, b', w) /\ ok (mkState b' w (<[i := (po, y)]> (threads st))).
Proof.
  intros O I E Hb. pose proof O as [_ Ea On Se Ig|I2]; [|congruence].
  assert (forall y w, x <> Out \/ y = Out -> y = Out \/ early y -> (po = Ignore -> y <> Refused) -> (y = LockSet -> w = Free) ->
    (y <> LockSet -> w = lock_ st \/ x <> Out) -> ok (mkState false w (<[i := (po, y)]> (threads st)))) as Go
    by (intros y w; by apply (early_moves st i po x)).
  destruct (Ea i po x E) as [->|[->|[->|[->| ->]]]]; cbn [access].
  - eexists _, _, _. split; [done|]. apply Go; auto; done.
  - eexists _, _, _. split; [done|]. apply Go; unfold early; auto; done.
  - destruct b; (eexists _, _, _; split; [done|]; apply Go; unfold early; auto; try done). intros ->. by specialize (Hb eq_refl).
  - eexists _, _, _. split; [done|]. by apply initialised.
  - eexists _, _, _. split; [done|]. assert (po <> Ignore) as Np by (intros ->; by apply (Ig i Refused)).
    destruct po; [| |done]; (apply Go; unfold early; auto; done).
Qed.

Lemma lock_step_ok st l : ok st -> calm st l -> exists st', step st l = Some st' /\ ok st'.
Proof.
  intros O C. destruct l as [i|i|i b]; cbn [step calm] in *.
  - destruct (threads st !! i) as [[po []]|] eqn:E; try (by exists st). eexists. split; [done|]. destruct (init_ st) eqn:I.
    + pose proof O as [I2|_ Nr _ Ho _ _]; [congruence|]. apply (late_moves st i po Out); try done; [by right; left|].
      rewrite <- (Ho i po Out E). by split; intros [?|[?|?]].
    + destruct C as [?|C]; [done|]. pose proof O as [_ Ea On Se Ig|I2]; [|congruence].
      apply ok_early; cbn [init_ lock_ threads]; try done.
      * intros j po' z [[-> [= -> ->]]|[N Ej]]%lock_moved; [unfold early; auto|by eapply Ea].
      * intros j k po1 po2 z1 z2 [[-> [= -> ->]]|[N Ej]]%lock_moved [[-> [= -> ->]]|[N' Ek]]%lock_moved Z1 Z2; try done;
          [by apply C in Ek|by apply C in Ej|by eapply On].
      * intros j po' [[-> [= -> <-]]|[N Ej]]%lock_moved; by eapply Se.
      * intros j z [[-> [= <- ->]]|[N Ej]]%lock_moved; [done|by eapply Ig].
  - destruct (threads st !! i) as [[po []]|] eqn:E; try (by exists st). eexists. split; [done|].
    pose proof O as [_ Ea|I Nr La Ho Ow Ig]; [by destruct (Ea i po Inside E) as [?|[?|[?|[?|?]]]]|]. rewrite I.
    apply (late_moves st i po Inside); try done; [apply holding_late, holding_points|].
    rewrite <- (Ho i po Inside E). split; intros _; apply holding_points.
  - destruct (threads st !! i) as [[po x]|] eqn:E; [|by exists st]. destruct (init_ st) eqn:I.
    + destruct (run_late st i po x b O I E) as (y & w & -> & O' & _). by eexists.
    + destruct (run_early st i po x b O I E) as (y & b' & w & -> & O'); [|by eexists]. intros ->. by eapply C.
Qed.

Lemma lock_reach_ok ps st : reach (start ps) st -> ok st.
Proof.
  induction 1 as [|st l st' _ IH C E]; [apply lock_start_ok|]. destruct (lock_step_ok st l IH C) as (st2 & E2 & O). by rewrite E in E2; injection E2 as ->.
Qed.

(** C39: With any number of threads, at one access to shared memory at a time, at
    most one is between [Lock] and [Unlock]; no lock is used before it is
    initialised or released by a thread that does not hold it; and as long as no
    thread is on its way out, a thread that waits for the lock gets it with its
    next step, unless another is inside.  This needs that the threads do not
    start using the lock at the same time, and that the clients that do not look
    at the result of [Lock] can initialise it. *)
Theorem lock_exclusive ps st : reach (start ps) st ->
  (forall l, calm st l -> is_Some (step st l)) /\
  (forall i j, inside st i -> inside st j -> i = j) /\
  (forall i po b, threads st !! i = Some (po, LockTake) -> (forall j po' x, threads st !! j = Some (po', x) -> ~ holding x) ->
     exists st', step st (Run i b) = Some st' /\ inside st' i).
Proof.
  intros R%lock_reach_ok. split_and!.
  - intros l C. destruct (lock_step_ok st l R C) as (st' & -> & _). by eexists.
  - assert (forall i, inside st i -> lock_ st = Taken i) as H.
    { intros i Hi. unfold inside in Hi. destruct (threads st !! i) as [[po x]|] eqn:E; [|done]. injection Hi as ->.
      destruct R as [_ Ea|_ _ _ Ho]; [by destruct (Ea i po Inside E) as [?|[?|[?|[?|?]]]]|]. apply (Ho i po Inside E). by left. }
    intros i j Hi%H Hj%H. congruence.
  - intros i po b E N. destruct (init_ st) eqn:I.
    + pose proof R as [I2|_ Nr _ Ho Ow _]; [congruence|]. assert (lock_ st = Free) as Ew.
      { destruct (lock_ st) as [| |o] eqn:Ew; [done|done|]. destruct (Ow o eq_refl) as [[po' x] Eo]. destruct (N o po' x Eo). by apply (Ho o po' x Eo). }
      destruct (run_late st i po LockTake b R I E) as (y & w & Ea & _ & Hy). cbn [step]. rewrite E, I, Ea. eexists. split; [done|].
      unfold inside. cbn [threads]. rewrite list_lookup_insert_eq by (by eapply lookup_lt_Some). cbn. by rewrite Hy.
    + destruct R as [_ Ea|I2]; [|congruence]. by destruct (Ea i po LockTake E) as [?|[?|[?|[?|?]]]].
Qed.

(** ** Schedules *)

Definition runs (k i : nat) : list Label := replicate k (Run i true).

(** Two threads take turns: the second waits until the first has left. *)
Definition ex_turns : list Label := Call 0 :: runs 4 0 ++ [Call 1] ++ runs 3 1 ++ [Leave 0] ++ runs 2 0 ++ runs 1 1.
Lemma lock_exclusive_witness : exists st, calm_exec (start [Ignore; Ignore]) ex_turns = Some st /\
  threads st = [(Ignore, Out); (Ignore, Inside)] /\ (forall i j, inside st i -> inside st j -> i = j).
Proof.
  destruct (calm_exec (start [Ignore; Ignore]) ex_turns) as [st|] eqn:E; [|vm_compute in E; discriminate]. exists st. split; [done|].
  split; [vm_compute in E; injection E as <-; reflexivity|].
  destruct (lock_exclusive [Ignore; Ignore] st (lock_calm_exec_reach _ ex_turns _ st (reach_start _) E)) as (_ & P & _). exact P.
Defined.

(** Two threads use a new lock at the same time: the second initialises it while
    the first is inside, and both are inside; the first then releases a lock it
    does not hold. *)
Definition ex_first_use : list Label := [Call 0; Call 1; Run 0 true; Run 1 true] ++ runs 3 0 ++ runs 3 1.
Theorem first_use_race :
  threads <$> exec (start [Retry; Retry]) ex_first_use = Some [(Retry, Inside); (Retry, Inside)] /\
  exec (start [Retry; Retry]) (ex_first_use ++ [Leave 0] ++ runs 2 0) = None.
Proof. split; reflexivity. Qed.

(** A client that does not look at the result of [Lock] enters without a lock
    when the initialisation fails. *)
Example ignored_failure :
  threads <$> exec (start [Ignore; Ignore])
    [Call 0; Run 0 true; Run 0 false; Run 0 true; Call 1; Run 1 true; Run 1 false; Run 1 true] = Some [(Ignore, Inside); (Ignore, Inside)].
Proof. reflexivity. Qed.
End LockRace.
