(* ===== verification/Protocols.v ===== *)
(** * Protocols: protocol objects and their pools

    Models the virtual calls on [ProtocolWrite] and [ProtocolRead]
    (src/src/protocols/protocol.h), the pool of objects of one family per
    thread (deps/public-cpp/include/public-cpp/thread_private_pool.hpp) and
    [PoolProtocols] (src/src/protocols/pool_protocols.h).  An object is a value
    of its class; the base classes are classes too, since the pools create
    objects of the base class first. *)

From Stdlib Require Import ZArith Lia Ascii String.
From stdpp Require Import base list gmap strings numbers option.
From S2P Require Import Prelude Os Protocol Rapid Redis PoolObjs.
Import Os Buffer.

(** ** A pool per thread and class *)

Module ThreadPrivatePool.
Section TP.
Context {Obj : Type} (category : Obj -> Protocol.Category) (sizeof : nat).

(** The pools of one thread ([ThreadPrivacy::Get] creates them on first use)
    and the counter. *)
Record ThreadPrivatePool := mkTP {
  pools_ : Protocol.Category -> PoolObjs.PoolObjs Obj;
  num_objs_ : Z;
}.

(** [PoolObjs<Father>()]: its objects are of the base class. *)
Definition TP_new (father : Obj) : ThreadPrivatePool :=
  {| pools_ := fun _ => PoolObjs.PoolObjs_new father sizeof 0 PoolObjs.kDefaultMemPerBlock true true
                          PoolObjs.kDefaultMaxNumBlocks;
     num_objs_ := 0 |}.

Definition set_pool (t : ThreadPrivatePool) (c : Protocol.Category) (p : PoolObjs.PoolObjs Obj) (n : Z)
  : ThreadPrivatePool :=
  {| pools_ := fun c' => if decide (c = c') then p else pools_ t c'; num_objs_ := n |}.

(** [Get<Son>]: an object of another class is replaced by one of class [c]. *)
Definition Get (t : ThreadPrivatePool) (c : Protocol.Category) (son : Obj) : M (Store.Store Obj) (Z * ThreadPrivatePool) :=
  '(o, p) ← PoolObjs.Get (pools_ t c);
  let t := set_pool t c p (u64 (num_objs_ t + 1)) in
  o ← deref o;
  s ← gets id;
  x ← deref (Store.load s o);
  if decide (category x = c) then mret (o, t)
  else Store.free o;; o ← Store.new son; mret (o, t).

Definition Free (t : ThreadPrivatePool) (o : Z) : M (Store.Store Obj) ThreadPrivatePool :=
  s ← gets id;
  x ← deref (Store.load s o);
  let c := category x in
  p ← PoolObjs.Free (pools_ t c) (Some o);
  mret (set_pool t c p (u64 (num_objs_ t - 1))).

End TP.
Arguments ThreadPrivatePool : clear implicits.
End ThreadPrivatePool.

Module Protocols.

(** ** The classes *)

Inductive WriteObj :=
| WBase
| WRapid (p : Rapid.ProtocolWriteRapid)
| WPing
| WRedis (p : Redis.ProtocolWriteRedis).

Inductive ReadObj :=
| RBase (i : Protocol.ReqInfo)
| RRapid (p : Rapid.ProtocolReadRapid)
| RPing (p : Ping.ProtocolReadPing)
| RRedis (p : Redis.ProtocolReadRedis).

Definition WCategory (o : WriteObj) : Protocol.Category :=
  match o with
  | WBase => Protocol.kInvalid | WRapid _ => Protocol.kRapid | WPing => Protocol.kPing | WRedis _ => Protocol.kRedis
  end.
Definition RCategory (o : ReadObj) : Protocol.Category :=
  match o with
  | RBase _ => Protocol.kInvalid | RRapid _ => Protocol.kRapid | RPing _ => Protocol.kPing | RRedis _ => Protocol.kRedis
  end.

Section Calls.
Context {W : Type} `{!NetIO W, !Malloc} {FU : Protocol.Fuel}.

(** [None]: the redis writer reads past the memory of the buffer. *)
Definition WReset (o : WriteObj) (buf : Protocol.Buf) : option WriteObj :=
  match o with
  | WBase => Some WBase
  | WRapid p => Some (WRapid (Rapid.WriteReset p buf))
  | WPing => Some WPing
  | WRedis p => WRedis <$> Redis.WriteReset p buf
  end.

Definition WEncode (o : WriteObj) : bool * WriteObj :=
  match o with
  | WBase => (false, WBase)
  | WRapid p => let '(b, p) := Rapid.Encode p in (b, WRapid p)
  | WPing => (true, WPing)
  | WRedis p => let '(b, p) := Redis.Encode p in (b, WRedis p)
  end.

Definition WWrite (o : WriteObj) (fd : Z) : M W (Z * WriteObj) :=
  match o with
  | WBase => mret (-1, WBase)
  | WRapid p => '(r, p) ← Rapid.Write p fd; mret (r, WRapid p)
  | WPing => r ← Ping.PingWrite fd; mret (r, WPing)
  | WRedis p => '(r, p) ← Redis.Write p fd; mret (r, WRedis p)
  end.

Definition RReset (o : ReadObj) (la : option Protocol.ListenAddr) : ReadObj :=
  match o with
  | RBase i => RBase (Protocol.ProtocolRead_Reset i la)
  | RRapid p => RRapid (Rapid.ReadReset p la)
  | RPing p => RPing (Ping.PingReadReset p la)
  | RRedis p => RRedis (Redis.ReadReset p la)
  end.

Definition RDecode (o : ReadObj) : bool * ReadObj :=
  match o with
  | RBase i => (false, RBase i)
  | RRapid p => let '(b, p) := Rapid.Decode p in (b, RRapid p)
  | RPing p => (true, RPing p)
  | RRedis p => let '(b, p) := Redis.Decode p in (b, RRedis p)
  end.

Definition RRead (o : ReadObj) (fd : Z) : M W (Z * ReadObj) :=
  match o with
  | RBase i => mret (Protocol.kEnd, RBase i)
  | RRapid p => '(r, p) ← Rapid.Read p fd; mret (r, RRapid p)
  | RPing p => '(r, p) ← Ping.PingRead p fd; mret (r, RPing p)
  | RRedis p => '(r, p) ← Redis.Read p fd; mret (r, RRedis p)
  end.

Definition RData (o : ReadObj) : bytes :=
  match o with
  | RBase _ => []
  | RRapid p => Rapid.Data p
  | RPing p => Ping.buffer_ p
  | RRedis p => Redis.Data p
  end.

(** ** PoolProtocols *)

Definition GetCategory (category : string) : Protocol.Category :=
  if decide (category = "rapid"%string) then Protocol.kRapid
  else if decide (category = "ping"%string) then Protocol.kPing
  else if decide (category = "redis"%string) then Protocol.kRedis
  else Protocol.kInvalid.

(** [new ProtocolWriteRapid] and the like. *)
Definition new_write (c : Protocol.Category) : WriteObj :=
  match c with
  | Protocol.kRapid => WRapid {| Rapid.w_buf := Protocol.mkSlice [] []; Rapid.w_header := Rapid.mkHeader 0 0 0;
                                 Rapid.w_iovs := Rapid.IovFields |}
  | Protocol.kPing => WPing
  | Protocol.kRedis => WRedis Redis.ProtocolWriteRedis_new
  | _ => WBase
  end.
Definition new_read (c : Protocol.Category) : ReadObj :=
  match c with
  | Protocol.kRapid => RRapid Rapid.ReadRapid_new
  | Protocol.kPing => RPing Ping.ProtocolReadPing_new
  | Protocol.kRedis => RRedis Redis.ProtocolReadRedis_new
  | _ => RBase Protocol.ReqInfo_new
  end.

(** The protocol objects of the process and the pools of the running thread. *)
Record Protos := mkProtos {
  wobjs : Store.Store WriteObj;
  wpool : ThreadPrivatePool.ThreadPrivatePool WriteObj;
  robjs : Store.Store ReadObj;
  rpool : ThreadPrivatePool.ThreadPrivatePool ReadObj;
}.

Definition sizeof_write : nat := 8.
Definition sizeof_read : nat := 16.
Definition Protos_new : Protos :=
  {| wobjs := Store.nothing; wpool := ThreadPrivatePool.TP_new sizeof_write WBase;
     robjs := Store.nothing; rpool := ThreadPrivatePool.TP_new sizeof_read (RBase Protocol.ReqInfo_new) |}.

Definition on_write {A} (f : ThreadPrivatePool.ThreadPrivatePool WriteObj ->
    M (Store.Store WriteObj) (A * ThreadPrivatePool.ThreadPrivatePool WriteObj)) : M Protos A := fun s =>
  match f (wpool s) (wobjs s) with
  | Some ((a, t), o) => Some (a, {| wobjs := o; wpool := t; robjs := robjs s; rpool := rpool s |})
  | None => None
  end.
Definition on_read {A} (f : ThreadPrivatePool.ThreadPrivatePool ReadObj ->
    M (Store.Store ReadObj) (A * ThreadPrivatePool.ThreadPrivatePool ReadObj)) : M Protos A := fun s =>
  match f (rpool s) (robjs s) with
  | Some ((a, t), o) => Some (a, {| wobjs := wobjs s; wpool := wpool s; robjs := o; rpool := t |})
  | None => None
  end.

(** [None]: [NULL], for a category that has no class. *)
Definition GetWrite (c : Protocol.Category) : M Protos (option Z) :=
  match c with
  | Protocol.kPing | Protocol.kRapid | Protocol.kRedis =>
      p ← on_write (fun t => ThreadPrivatePool.Get WCategory t c (new_write c)); mret (Some p)
  | _ => mret None
  end.
Definition GetRead (c : Protocol.Category) : M Protos (option Z) :=
  match c with
  | Protocol.kPing | Protocol.kRapid | Protocol.kRedis =>
      p ← on_read (fun t => ThreadPrivatePool.Get RCategory t c (new_read c)); mret (Some p)
  | _ => mret None
  end.
Definition FreeWrite (p : Z) : M Protos () :=
  on_write (fun t => t ← ThreadPrivatePool.Free WCategory t p; mret ((), t)).
Definition FreeRead (p : Z) : M Protos () :=
  on_read (fun t => t ← ThreadPrivatePool.Free RCategory t p; mret ((), t)).

(** Calls through a pointer. *)
Definition load_write (p : Z) : M Protos WriteObj := s ← gets id; deref (Store.load (wobjs s) p).
Definition load_read (p : Z) : M Protos ReadObj := s ← gets id; deref (Store.load (robjs s) p).
Definition store_write (p : Z) (o : WriteObj) : M Protos () :=
  modify (fun s => {| wobjs := Store.store p o (wobjs s); wpool := wpool s; robjs := robjs s; rpool := rpool s |}).
Definition store_read (p : Z) (o : ReadObj) : M Protos () :=
  modify (fun s => {| wobjs := wobjs s; wpool := wpool s; robjs := Store.store p o (robjs s); rpool := rpool s |}).

End Calls.
End Protocols.
