(* ===== verification/Fds.v ===== *)
(** * Fds: who owns which descriptor

    An agent's descriptors are waiting in its events driver, idle in the pools
    of its connection manager, or in the hands of a talk.  This file states
    what the system promises about open descriptors and shows that the driver
    and the manager keep the first two groups apart: a descriptor the manager
    hands out is open and not waiting. *)

From Stdlib Require Import ZArith Lia.
From stdpp Require Import base list gmap numbers option.
From S2P Require Import Prelude Hashmap Os Protocol Rapid Redis IOHelper Model ConnsMgr EventsDriver PoolObjs Protocols.
Import Os Buffer Model.

(** The descriptors that are open.  A new socket gets a number that is not in
    use; a descriptor stays open until it is closed. *)
Class OpenSpec (W : Type) `{NI : !NetIO W, SK : !Sock W, CK : !Clock W, EP : !Epoll W} : Type := {
  opened : W -> Z -> Prop;
  opened_create b w f g : opened w g -> opened (CreateSocket b w).2 g /\
    ((CreateSocket b w).1 = f -> 0 < f -> f <> g);
  opened_new b w : 0 < (CreateSocket b w).1 -> opened (CreateSocket b w).2 (CreateSocket b w).1;
  opened_close fd w g : g <> fd -> opened w g -> opened (sys_close fd w) g;
  opened_connect fd a w g : opened w g -> opened (sys_connect fd a w).2 g;
  opened_recv1 fd w g : opened w g -> opened (sys_recv1 fd w).2 g;
  opened_load w g : opened w g -> opened (load_time w).2 g;
  opened_store t w g : opened w g -> opened (store_time t w) g;
  opened_gettimeofday w g : opened w g -> opened (gettimeofday w).2 g;
  opened_epoll_create w g : opened w g -> opened (epoll_create w).2 g;
  opened_wait e n w g : opened w g -> opened (epoll_wait e n w).2 g;
  opened_ctl e op fd ev w g : opened w g -> opened (epoll_ctl e op fd ev w).2 g;
  opened_lock w g : opened w g -> opened (lock_Lock w).2 g;
  opened_read fd n w g : opened w g -> opened (ReadNonBlock fd n w).2 g;
  opened_write fd bs w g : opened w g -> opened (WriteNonBlock fd bs w).2 g;
  opened_writev fd iovs w g : opened w g -> opened (WriteVecNonBlock fd iovs w).2 g;
}.

(** ** Relations that calls of the system respect

    A relation on worlds that every call but [close] respects is respected by
    the operations of the components that never close. *)

Class Inert {W : Type} `{NI : !NetIO W, SK : !Sock W, CK : !Clock W, EP : !Epoll W} (R : relation W) : Prop := {
  in_pre :: PreOrder R;
  in_create b w : R w (CreateSocket b w).2;
  in_connect fd a w : R w (sys_connect fd a w).2;
  in_recv1 fd w : R w (sys_recv1 fd w).2;
  in_load w : R w (load_time w).2;
  in_store t w : R w (store_time t w);
  in_gettimeofday w : R w (gettimeofday w).2;
  in_epoll_create w : R w (epoll_create w).2;
  in_wait e n w : R w (epoll_wait e n w).2;
  in_ctl e op fd ev w : R w (epoll_ctl e op fd ev w).2;
  in_lock w : R w (lock_Lock w).2;
  in_read fd n w : R w (ReadNonBlock fd n w).2;
  in_write fd bs w : R w (WriteNonBlock fd bs w).2;
  in_writev fd iovs w : R w (WriteVecNonBlock fd iovs w).2;
}.

Module Inert.
Section Inert.
Context {W Q : Type} `{NI : !NetIO W, SK : !Sock W, CK : !Clock W, EP : !Epoll W, TQ : !TimeoutQueue Q, MA : !Malloc}
  {FU : Protocol.Fuel} (R : relation W) `{IN : !Inert R}.

#[local] Instance respects_pre : PreOrder R := in_pre.
Hint Extern 1 (R _ _) => first [apply in_load | apply in_store | apply in_gettimeofday | apply in_lock | apply in_ctl | apply in_read |
  apply in_write | apply in_writev | apply in_recv1 | apply in_connect | apply in_create | apply in_wait | apply in_epoll_create] : frame.

Lemma inert_refresh b : keeps R (IOHelper.refresh b).
Proof using IN. unfold IOHelper.refresh, IOHelper.UpdateTimer. frame. Qed.
Hint Resolve inert_refresh : frame.
Lemma inert_Msec b : keeps R (IOHelper.GetCurrentMsec b).
Proof using IN. unfold IOHelper.GetCurrentMsec. frame. Qed.
Lemma inert_Sec b : keeps R (IOHelper.GetCurrentSec b).
Proof using IN. unfold IOHelper.GetCurrentSec. frame. Qed.
Lemma inert_CheckConn fd : keeps R (IOHelper.CheckConn fd).
Proof using IN. unfold IOHelper.CheckConn. frame. Qed.
Hint Resolve inert_Msec inert_Sec inert_CheckConn : frame.

(** *** Protocol objects *)

Lemma inert_rapid_read n p fd b : keeps R (Rapid.Read_loop n p fd b).
Proof using IN. revert p b. induction n as [|n IH]; intros p b; cbn [Rapid.Read_loop]; unfold Rapid.read_at_stop; frame; auto. Qed.
Lemma inert_redis_recv n reply fd : keeps R (Redis.Recv_loop n reply fd).
Proof using IN. revert reply. induction n as [|n IH]; intros reply; cbn [Redis.Recv_loop]; frame; auto. Qed.
Hint Resolve inert_rapid_read inert_redis_recv : frame.
Lemma inert_RRead o fd : keeps R (Protocols.RRead o fd).
Proof using IN. unfold Protocols.RRead, Rapid.Read, Redis.Read, Ping.PingRead. frame. Qed.
Lemma inert_WWrite o fd : keeps R (Protocols.WWrite o fd).
Proof using IN. unfold Protocols.WWrite, Rapid.Write, Redis.Write, Ping.PingWrite. frame. Qed.

(** *** The driver *)

Import EventsDriver.

Lemma inert_raii (d : EventsDriver Q) : keeps R (raii d).
Proof using IN. unfold raii, Init_. frame. Qed.
Hint Resolve inert_raii : frame.
Lemma inert_Wait (d : EventsDriver Q) timeo : keeps R (Wait d timeo).
Proof using IN. unfold Wait, IOHelper.UpdateTimer. frame. Qed.
Lemma inert_RegEventDel (d : EventsDriver Q) fd : keeps R (RegEventDel d fd).
Proof using IN. unfold RegEventDel, RegEventDel_body. frame. Qed.
Hint Resolve inert_RegEventDel : frame.
Lemma inert_RegEvent (d : EventsDriver Q) fd op dir ctx timeo : keeps R (RegEvent d fd op dir ctx timeo).
Proof using IN. unfold RegEvent, ctl_or_del. frame. Qed.
Lemma inert_timeouts n : forall (d : EventsDriver Q) acc, keeps R (RemoveTimeouts_loop n d acc).
Proof using IN. induction n as [|n IH]; intros d acc; cbn [RemoveTimeouts_loop]; frame; auto. Qed.
Hint Resolve inert_timeouts : frame.
Lemma inert_RemoveTimeouts (d : EventsDriver Q) : keeps R (RemoveTimeouts d).
Proof using IN. unfold RemoveTimeouts. frame. Qed.

(** *** With [close] *)

Context (in_close : forall fd w, R w (sys_close fd w)) `{RD : !Rand}.
Hint Resolve in_close : frame.
Lemma inert_Close fd : keeps R (IOHelper.Close fd).
Proof using IN in_close. apply keeps_modify, in_close. Qed.
Hint Resolve inert_Close : frame.
Lemma inert_Connect n addr b : keeps R (IOHelper.Connect_loop n addr b).
Proof using IN in_close. induction n as [|n IH]; cbn [IOHelper.Connect_loop]; frame; auto. Qed.
Hint Resolve inert_Connect : frame.
Lemma inert_GetFd m sv fails : keeps R (ConnsMgr.GetFd m sv fails).
Proof using IN in_close. unfold ConnsMgr.GetFd, ConnsMgr.GetFd_, Pool.PoolGet, IOHelper.Connect. frame. Qed.
Lemma inert_FreeFd m r fd : keeps R (ConnsMgr.FreeFd m r fd).
Proof using IN in_close. unfold ConnsMgr.FreeFd, Pool.Put. frame. Qed.
End Inert.
End Inert.

Module Fds.
Import Inert.
Section Fds.
Context {W Q : Type} `{NI : !NetIO W, SK : !Sock W, CK : !Clock W, EP : !Epoll W, TQ : !TimeoutQueue Q,
  TQL : !TimeoutQueueLaws Q, RD : !Rand, MA : !Malloc, OS : !OpenSpec W} {FU : Protocol.Fuel}.

(** No descriptor is closed. *)
Definition stay (w w' : W) : Prop := forall g, opened w g -> opened w' g.
#[export] Instance stay_preorder : PreOrder stay.
Proof. split; [by intros w g|]. intros w1 w2 w3 A B g H. by apply B, A. Qed.
#[export] Instance stay_inert : Inert stay.
Proof.
  split; [apply _|intros; intros g ..]; [|apply opened_connect|apply opened_recv1|apply opened_load|apply opened_store|apply opened_gettimeofday
    |apply opened_epoll_create|apply opened_wait|apply opened_ctl|apply opened_lock|apply opened_read|apply opened_write|apply opened_writev].
  intros H. by apply (opened_create b w 0 g).
Qed.

Import EventsDriver.

(** A descriptor with a pending timeout, and the contexts of those. *)
Definition live_fd (d : EventsDriver Q) (f : Z) : Prop := exists s, slot d f = Some s /\ sign_timeo s <> 0%nat.
Definition contexts (sl : Z -> option Slot) (m : gmap nat EventTimeo) : list Z :=
  omap (fun he => sl (t_fd he.2) ≫= context) (map_to_list m).
Definition armed (d : EventsDriver Q) : list Z := contexts (slot d) (pending d).

Lemma contexts_ext sl sl' m : (forall h e, m !! h = Some e -> sl (t_fd e) = sl' (t_fd e)) ->
  contexts sl m = contexts sl' m.
Proof.
  intros H. unfold contexts. assert (Forall (fun he : nat * EventTimeo => sl (t_fd he.2) = sl' (t_fd he.2)) (map_to_list m)) as F.
  { apply Forall_forall. intros [h e] Hin. apply H with h. by apply elem_of_map_to_list, list_elem_of_In. }
  induction F as [|he l E F IH]; [done|]. cbn. by rewrite E, IH.
Qed.

Lemma contexts_insert sl m h e : m !! h = None ->
  contexts sl (<[h := e]> m) ≡ₚ option_list (sl (t_fd e) ≫= context) ++ contexts sl m.
Proof.
  intros H. unfold contexts. rewrite (map_to_list_insert m h e H). cbn. by destruct (sl (t_fd e) ≫= context).
Qed.

(** The pending timeout of a descriptor that is waiting. *)
Lemma live_pending d f s : drv_ok d -> slot d f = Some s -> sign_timeo s <> 0%nat ->
  exists e, pending d !! sign_timeo s = Some e /\ t_fd e = f.
Proof.
  intros Hok [Hf Hs]%slot_Some Hn. destruct (do_slot d Hok _ s Hs Hn) as (e & L & F). exists e. split; [done|lia].
Qed.

Lemma pending_live d h e : drv_ok d -> pending d !! h = Some e ->
  exists s, slot d (t_fd e) = Some s /\ sign_timeo s = h /\ h <> 0%nat.
Proof.
  intros Hok L. destruct (do_live d Hok h e L) as (N & i & s & F & Hi & St). exists s. split_and!; try done.
  apply slot_Some. rewrite F. split; [lia|]. by rewrite Nat2Z.id.
Qed.

Lemma elem_of_armed d c : drv_ok d ->
  c ∈ armed d <-> exists f s, slot d f = Some s /\ sign_timeo s <> 0%nat /\ context s = Some c.
Proof.
  intros Hok. unfold armed, contexts. rewrite list_elem_of_omap. split.
  - intros ([h e] & Hin & E). apply elem_of_map_to_list in Hin. cbn in E.
    destruct (pending_live d h e Hok Hin) as (s & S & Sg & N). rewrite S in E. exists (t_fd e), s. split_and!; try done. congruence.
  - intros (f & s & S & N & C). destruct (live_pending d f s Hok S N) as (e & P & F).
    exists (sign_timeo s, e). split; [by apply elem_of_map_to_list|]. cbn. rewrite F, S. done.
Qed.

Lemma live_fd_pending d f : drv_ok d -> live_fd d f <-> exists h e, pending d !! h = Some e /\ t_fd e = f.
Proof.
  intros Hok. split.
  - intros (s & S & N). destruct (live_pending d f s Hok S N) as (e & P & F). eauto.
  - intros (h & e & L & <-). destruct (pending_live d h e Hok L) as (s & S & Sg & N). exists s. split; [done|congruence].
Qed.

(** The context a descriptor waits with. *)
Definition ctx_at (d : EventsDriver Q) (f : Z) : option Z :=
  s ← slot d f; if decide (sign_timeo s = 0%nat) then None else context s.

Lemma ctx_at_Some d f c : ctx_at d f = Some c <-> exists s, slot d f = Some s /\ sign_timeo s <> 0%nat /\ context s = Some c.
Proof. unfold ctx_at. destruct (slot d f) as [s|]; [|naive_solver]. cbn. case_decide; naive_solver. Qed.
Lemma ctx_at_armed d c : drv_ok d -> c ∈ armed d <-> exists f, ctx_at d f = Some c.
Proof. intros Hok. rewrite elem_of_armed by done. by setoid_rewrite ctx_at_Some. Qed.
Lemma ctx_at_dead d f : ~ live_fd d f -> ctx_at d f = None.
Proof. intros H. destruct (ctx_at d f) as [c|] eqn:E; [|done]. exfalso. apply ctx_at_Some in E as (s & S & N & _). apply H. by exists s. Qed.
Lemma ctx_at_same (d d' : EventsDriver Q) f s : slot d f = Some s -> slot d' f = Some s -> ctx_at d' f = ctx_at d f.
Proof. unfold ctx_at. by intros -> ->. Qed.

(** Only [f] changes its slot. *)
Lemma armed_pending_ne (d d' : EventsDriver Q) f m : drv_ok d -> (forall h e, m !! h = Some e -> pending d !! h = Some e /\ t_fd e <> f) ->
  (forall f' s, f' <> f -> slot d f' = Some s -> slot d' f' = Some s) ->
  contexts (slot d') m = contexts (slot d) m.
Proof.
  intros Hok Hf H. apply contexts_ext. intros h e [L N]%Hf. destruct (pending_live d h e Hok L) as (s & S & _).
  rewrite S. by apply H.
Qed.

(** Registering: the context joins those waited for, or nothing changes. *)
Lemma armed_add d f dir c timeo w b d' w' : drv_ok d -> 0 <= f -> ~ live_fd d f -> 0 <= timeo ->
  RegEvent d f kAddEvent dir c timeo w = Some ((b, d'), w') -> drv_ok d' /\
  armed d' ≡ₚ (if b then [c] else []) ++ armed d /\
  (forall f', live_fd d' f' <-> live_fd d f' \/ b = true /\ f' = f) /\
  (forall f', ctx_at d' f' = if decide (f' = f) then (if b then Some c else None) else ctx_at d f') /\ stay w w'.
Proof.
  intros Hok Hf Hl Ht E. pose proof (keeps_run stay _ _ _ _ E (inert_RegEvent stay _ _ _ _ _ _)) as St.
  assert (forall s, slot d f = Some s -> sign_timeo s = 0%nat) as Hz.
  { intros s S. destruct (decide (sign_timeo s = 0%nat)); [done|]. exfalso. apply Hl. by exists s. }
  destruct (RegEvent_add d f dir c timeo w Hok Hf Hz) as (b0 & d0 & w0 & E0 & Ok' & T & F & K).
  rewrite E0 in E. injection E as -> -> ->. split; [done|].
  assert (contexts (slot d') (pending d) = armed d) as A.
  { apply (armed_pending_ne d d' f); try done. intros h e L. split; [done|]. intros <-.
    apply Hl, live_fd_pending; eauto. }
  assert ((forall f', live_fd d' f' <-> live_fd d f' \/ b = true /\ f' = f) ->
    (b = true -> exists sg, slot d' f = Some (mkSlot (Some c) sg)) ->
    forall f', ctx_at d' f' = if decide (f' = f) then (if b then Some c else None) else ctx_at d f') as Ctx.
  { intros Lv Sb f'. case_decide as Df; [subst f'; destruct b|].
    - destruct (Sb eq_refl) as [sg S]. apply ctx_at_Some. exists (mkSlot (Some c) sg). split_and!; [done| |done].
      destruct (proj2 (Lv f)) as (s0 & S0 & N0); [by right|]. congruence.
    - apply ctx_at_dead. rewrite Lv. naive_solver.
    - destruct (slot d f') as [s0|] eqn:S0; [by eapply ctx_at_same; eauto|].
      rewrite !ctx_at_dead; [done|intros (? & ? & ?); congruence|]. rewrite Lv. intros [(? & ? & ?)|[_ ?]]; congruence. }
  destruct b.
  - destruct T as (sg & S & P); [done|]. destruct (P Ht) as (now & w1 & _ & Pd).
    assert (pending d !! sg = None) as N.
    { destruct (pending d !! sg) as [e|] eqn:L; [|done]. exfalso.
      assert (t_fd e <> f) as Ne by (intros <-; apply Hl, live_fd_pending; eauto).
      destruct (pending_live d sg e Hok L) as (s & S' & Sg & N). apply K in S'; [|done].
      destruct (live_pending d' (t_fd e) s Ok' S') as (e' & P' & F'); [congruence|].
      rewrite Sg, Pd, lookup_insert_eq in P'. injection P' as <-. done. }
    assert (forall f', live_fd d' f' <-> live_fd d f' \/ true = true /\ f' = f) as Lv.
    { intros f'. rewrite !live_fd_pending by done. rewrite Pd. split.
      * intros (h & e & [[<- <-]|[_ L]]%lookup_insert_Some & Fe); [by right|left; eauto].
      * intros [(h & e & L & Fe)|[_ ->]].
        -- exists h, e. split; [|done]. rewrite lookup_insert_ne; [done|congruence].
        -- eexists sg, _. rewrite lookup_insert_eq. done. }
    split_and!; [|done|apply Ctx; eauto|done].
    unfold armed. rewrite Pd, contexts_insert by done. cbn [t_fd]. rewrite S, A. done.
  - destruct (F eq_refl) as [Pd _].
    assert (forall f', live_fd d' f' <-> live_fd d f' \/ false = true /\ f' = f) as Lv
      by (intros f'; rewrite !live_fd_pending by done; rewrite Pd; naive_solver).
    split_and!; [|done|by apply Ctx|done]. unfold armed. by rewrite Pd, A.
Qed.

(** The other pending timeouts belong to other descriptors. *)
Lemma others_ne d f s h e : drv_ok d -> slot d f = Some s ->
  delete (sign_timeo s) (pending d) !! h = Some e -> pending d !! h = Some e /\ t_fd e <> f.
Proof.
  intros Hok S [N L]%lookup_delete_Some. split; [done|]. intros <-.
  destruct (pending_live d h e Hok L) as (s0 & S0 & Sg & _). rewrite S in S0. injection S0 as <-. done.
Qed.

Lemma others_same (d d' : EventsDriver Q) f s : drv_ok d -> slot d f = Some s -> (forall f', f' <> f -> slot d' f' = slot d f') ->
  contexts (slot d') (delete (sign_timeo s) (pending d)) = contexts (slot d) (delete (sign_timeo s) (pending d)).
Proof.
  intros Hok S K. apply (armed_pending_ne d d' f); [done|by eauto using others_ne|]. intros f' s0 N S0. by rewrite K.
Qed.

Lemma armed_split d f s : drv_ok d -> slot d f = Some s -> sign_timeo s <> 0%nat ->
  armed d ≡ₚ option_list (context s) ++ contexts (slot d) (delete (sign_timeo s) (pending d)).
Proof.
  intros Hok S D. destruct (live_pending d f s Hok S D) as (e & L & F). unfold armed at 1.
  rewrite <- (insert_delete_id (pending d) _ e L), contexts_insert by apply lookup_delete_eq.
  by rewrite F, S, delete_insert_eq, delete_delete_eq.
Qed.

Lemma live_split d f s f' : drv_ok d -> slot d f = Some s -> sign_timeo s <> 0%nat ->
  live_fd d f' <-> f' = f \/ exists h e, delete (sign_timeo s) (pending d) !! h = Some e /\ t_fd e = f'.
Proof.
  intros Hok S Hn. destruct (live_pending d f s Hok S Hn) as (e & L & Fe). rewrite live_fd_pending by done. split.
  - intros (h & e0 & L0 & <-). destruct (decide (h = sign_timeo s)) as [->|N]; [left; congruence|].
    right. exists h, e0. by rewrite lookup_delete_ne.
  - intros [->|(h & e0 & [L0 _]%(others_ne d f s) & <-)]; eauto.
Qed.

(** Removing the descriptor of a context. *)
Lemma armed_del d f s w b d' w' : drv_ok d -> slot d f = Some s ->
  RegEventDel d f w = Some ((b, d'), w') -> drv_ok d' /\
  armed d ≡ₚ (if decide (sign_timeo s = 0%nat) then [] else option_list (context s)) ++ armed d' /\
  (forall f', live_fd d' f' <-> live_fd d f' /\ f' <> f) /\
  (forall f', ctx_at d' f' = if decide (f' = f) then None else ctx_at d f') /\ stay w w'.
Proof.
  intros Hok S E. pose proof (keeps_run stay _ _ _ _ E (inert_RegEventDel stay _ _)) as St.
  destruct (RegEventDel_spec d f s w Hok S) as (b0 & d0 & w0 & E0 & Ok' & P & S' & K).
  rewrite E0 in E. injection E as -> -> ->. split; [done|].
  assert (forall f', live_fd d' f' <-> live_fd d f' /\ f' <> f) as Lv.
  2: { split_and!; [|done| |done]; cycle 1.
  { intros f'. case_decide as Df; [apply ctx_at_dead; rewrite Lv; naive_solver|]. unfold ctx_at. by rewrite K. }
  case_decide as D.
    + unfold armed at 2. rewrite P, (others_same d d' f s) by done. rewrite D, delete_id; [done|].
      destruct (pending d !! 0%nat) as [e|] eqn:L; [|done]. by destruct (pending_live d 0 e Hok L) as (? & ? & ? & ?).
    + rewrite (armed_split d f s) by done. unfold armed. by rewrite P, (others_same d d' f s). }
  - intros f'. rewrite (live_fd_pending d') by done. rewrite P. destruct (decide (sign_timeo s = 0%nat)) as [D|D].
    + rewrite D, delete_id, <- live_fd_pending; [|done|].
      * split; [|naive_solver]. intros H. split; [done|]. intros ->. destruct H as (s0 & S0 & N). rewrite S in S0. injection S0 as <-. done.
      * destruct (pending d !! 0%nat) as [e|] eqn:L; [|done]. by destruct (pending_live d 0 e Hok L) as (? & ? & ? & ?).
    + rewrite (live_split d f s) by done. split.
      * intros (h & e & L & <-). split; [eauto|]. by apply (others_ne d f s) in L as [_ N].
      * naive_solver.
Qed.

(** A modification keeps the entry or replaces it; when it fails, the entry
    is gone. *)
Lemma RegEvent_mod_cases d f s dir c timeo w b d' w' : drv_ok d -> slot d f = Some s ->
  RegEvent d f kModEvent dir c timeo w = Some ((b, d'), w') ->
  drv_ok d' /\ (b = true -> d' = d \/ exists sg e, slot d' f = Some (mkSlot (context s) sg) /\
    pending d' = <[sg := e]> (delete (sign_timeo s) (pending d)) /\ t_fd e = f) /\
  (b = false -> pending d' = delete (sign_timeo s) (pending d) /\ exists c, slot d' f = Some (mkSlot c 0)) /\
  (forall f', f' <> f -> slot d' f' = slot d f').
Proof.
  intros Hok S E. destruct (Z.lt_ge_cases timeo 0) as [Ht|Ht].
  - destruct (RegEvent_mod_none d f dir c timeo s w Hok S Ht) as (b0 & d0 & w0 & E0 & Ok' & T & F & K).
    rewrite E0 in E. injection E as -> -> ->. split_and!; try done. auto.
  - destruct (RegEvent_mod d f dir c timeo s w Hok S Ht) as (b0 & d0 & w0 & E0 & Ok' & T & F & K).
    rewrite E0 in E. injection E as -> -> ->. split_and!; try done. intros Hb.
    destruct (T Hb) as (sg & now & w1 & S' & _ & Pd). right. by eexists sg, _.
Qed.

(** Going on with a descriptor that is waiting. *)
Lemma armed_mod d f s dir c timeo w b d' w' : drv_ok d -> slot d f = Some s -> sign_timeo s <> 0%nat ->
  RegEvent d f kModEvent dir c timeo w = Some ((b, d'), w') -> drv_ok d' /\
  armed d ≡ₚ (if b then [] else option_list (context s)) ++ armed d' /\
  (exists s', slot d' f = Some s' /\ (if b then sign_timeo s' <> 0%nat /\ context s' = context s else sign_timeo s' = 0%nat)) /\
  (forall f', live_fd d' f' <-> live_fd d f' /\ (b = true \/ f' <> f)) /\ stay w w'.
Proof.
  intros Hok S Hn E. pose proof (keeps_run stay _ _ _ _ E (inert_RegEvent stay _ _ _ _ _ _)) as St.
  destruct (RegEvent_mod_cases d f s dir c timeo w b d' w' Hok S E) as (Ok' & T & F & K).
  split; [done|]. pose proof (armed_split d f s Hok S Hn) as Ad. pose proof (others_same d d' f s Hok S K) as A.
  pose proof (fun f' => live_split d f s f' Hok S Hn) as Lv.
  destruct b.
  - destruct (T eq_refl) as [->|(sg & e & S' & Pd & Fe)].
    { split_and!; [done|by exists s|naive_solver|done]. }
    assert (sg <> 0%nat) as Nz.
    { assert (pending d' !! sg = Some e) as Lg by by rewrite Pd, lookup_insert_eq.
      by destruct (pending_live d' _ _ Ok' Lg) as (? & ? & ? & ?). }
    assert (delete (sign_timeo s) (pending d) !! sg = None) as Ng.
    { destruct (delete _ _ !! sg) as [e0|] eqn:L0; [|done]. exfalso. destruct (others_ne d f s _ _ Hok S L0) as [L1 N1].
      destruct (pending_live d sg e0 Hok L1) as (s0 & S0 & Sg0 & _). rewrite <- (K (t_fd e0) N1) in S0.
      destruct (live_pending d' (t_fd e0) s0 Ok' S0) as (e1 & P1 & F1); [congruence|].
      rewrite Sg0, Pd, lookup_insert_eq in P1. congruence. }
    split_and!; [|by eexists| |done].
    + rewrite Ad. unfold armed at 1. rewrite Pd, contexts_insert by done. by rewrite Fe, S', A.
    + intros f'. rewrite Lv, live_fd_pending, Pd by done. split.
      * intros (h & e0 & [[<- <-]|[_ L0]]%lookup_insert_Some & <-); [by auto|]. split; [right; eauto|by left].
      * intros [[->|(h & e0 & L0 & <-)] _].
        -- eexists sg, _. by rewrite lookup_insert_eq.
        -- exists h, e0. rewrite lookup_insert_ne; [done|congruence].
  - destruct (F eq_refl) as (Pd & c0 & S'). split_and!; [|by eexists| |done].
    + rewrite Ad. unfold armed at 1. by rewrite Pd, A.
    + intros f'. rewrite Lv, live_fd_pending, Pd by done. split; [|by intros [[->|H] [|N]]].
      intros (h & e & L & <-). split; [right; eauto|right]. by apply (others_ne d f s) in L as [_ N].
Qed.

Lemma ctx_mod d f s dir c timeo w b d' w' : drv_ok d -> slot d f = Some s -> sign_timeo s <> 0%nat ->
  RegEvent d f kModEvent dir c timeo w = Some ((b, d'), w') ->
  forall f', ctx_at d' f' = if decide (f' = f) then (if b then ctx_at d f else None) else ctx_at d f'.
Proof.
  intros Hok S Hn E. destruct (armed_mod _ _ _ _ _ _ _ _ _ _ Hok S Hn E) as (_ & _ & (s' & S' & Hb) & _).
  destruct (RegEvent_mod_cases _ _ _ _ _ _ _ _ _ _ Hok S E) as (_ & _ & _ & K). intros f'. case_decide as Df.
  - subst f'. unfold ctx_at. rewrite S, S'. cbn. rewrite (decide_False (P := sign_timeo s = 0%nat)) by done.
    destruct b; [destruct Hb as [? ->]; by rewrite decide_False|by rewrite decide_True].
  - unfold ctx_at. by rewrite K.
Qed.

(** *** The connection manager *)

Import Pool ConnsMgr.

(** The idle connections of all pools. *)
Definition idle (m : ConnsMgr) : list Z := map_to_list (pools m) ≫= fun qp => fds_ qp.2.

Lemma idle_pool m q p : pools m !! q = Some p ->
  idle m ≡ₚ fds_ p ++ (map_to_list (delete q (pools m)) ≫= fun qp => fds_ qp.2).
Proof. intros H. unfold idle. by rewrite <- (map_to_list_delete (pools m) q p H). Qed.

Lemma idle_set_pool m q p p' : pools m !! q = Some p -> fds_ p ++ idle (set_pool m q p') ≡ₚ fds_ p' ++ idle m.
Proof.
  intros H. rewrite (idle_pool m q p H), (idle_pool (set_pool m q p') q p') by apply lookup_insert_eq.
  cbn [pools set_pool set_conns]. rewrite delete_insert_eq. rewrite !app_assoc. by rewrite (Permutation_app_comm (fds_ p)).
Qed.

(** What a call that hands out the descriptor [f], having taken [x] from a
    pool, does to the open descriptors. *)
Definition handed (x : option Z) (f : Z) (w w' : W) : Prop :=
  (forall g, x <> Some g -> opened w g -> opened w' g /\ (0 < f -> g <> f)) /\ (0 < f -> opened w' f).

Lemma Connect_handed n a b w f b' w' : IOHelper.Connect_loop n a b w = Some ((f, b'), w') -> handed None f w w'.
Proof.
  revert w. induction n as [|n IH]; intros w E; cbn [IOHelper.Connect_loop] in E; [done|].
  apply bind_Some in E as (f0 & w1 & E1 & E). injection E1 as E1.
  pose proof (fun g => opened_create b w f0 g) as Oc. pose proof (opened_new b w) as On. rewrite E1 in *. cbn [fst snd] in *.
  destruct (Z.leb_spec f0 0) as [L|L].
  { injection E as <- <- <-. split; [|lia]. intros g _ H. split; [by apply Oc|lia]. }
  apply bind_Some in E as ([r e] & w2 & E2 & E). apply (keeps_run stay) in E2; [|apply keeps_call, in_connect; apply _].
  assert (handed None f0 w w2) as H0.
  { split; [|intros _; by apply E2, On]. intros g _ H. split; [by apply E2, Oc|]. intros _. destruct (Oc g H) as [_ N]. by intros ->; apply N. }
  destruct (r =? 0); [by injection E as <- <- <-|]. destruct (e =? IOHelper.EINPROGRESS); [by injection E as <- <- <-|].
  destruct (e =? IOHelper.EINTR).
  - apply IH in E as [A B]. split; [|done]. intros g _ H. by apply A, H0.
  - apply bind_Some in E as ([] & w3 & E3 & E). injection E as <- <- <-. injection E3 as <-. split; [|lia].
    intros g _ H. split; [|lia]. destruct (proj1 H0 g) as [O N]; [done..|]. apply opened_close; [by apply N|done].
Qed.

Lemma PoolGet_handed p w f b p' w' : Forall (opened w) (fds_ p) -> PoolGet p w = Some ((f, b, p'), w') ->
  exists x, fds_ p = fds_ p' ++ option_list x /\ handed x f w w'.
Proof.
  intros Ho. unfold PoolGet.
  assert (forall p w x w0, (forall g, x <> Some g -> opened w0 g -> opened w g) ->
    ('(f, b) ← IOHelper.Connect (r_addr (remote_ p)); mret (f, b, p)) w = Some ((f, b, p'), w') ->
    p' = p /\ handed x f w0 w') as Con.
  { intros p0 w1 x w0 Hw E. apply bind_Some in E as ([f0 b0] & w2 & E1 & E). injection E as -> -> -> ->.
    apply Connect_handed in E1 as [A B]. split; [done|]. split; [|done]. intros g N H. apply A; [done|]. by apply Hw. }
  destruct (list.last (fds_ p)) as [x|] eqn:La.
  2: { intros E. apply (Con _ _ None w) in E as [-> H]; [|done]. exists None. by rewrite app_nil_r. }
  apply list.last_Some in La as [l Hl]. rewrite Hl, removelast_last. rewrite Hl in Ho.
  apply Forall_app in Ho as [Ho Hx]. assert (opened w x) as Hox by (by inversion Hx). destruct (x =? 0).
  { intros E. apply (Con _ _ None w) in E as [-> [A B]]; [|done]. exists (Some x). split; [done|]. split; [|done]. intros g _. by apply A. }
  intros E. apply bind_Some in E as (ok & w1 & E1 & E). apply (keeps_run stay) in E1; [|apply inert_CheckConn, _]. destruct ok.
  - injection E as <- <- <- <-. exists (Some x). split; [done|]. split; [|by intros _; apply E1].
    intros g N H. split; [by apply E1|]. congruence.
  - apply bind_Some in E as ([] & w2 & E2 & E). injection E2 as <-.
    apply (Con _ _ (Some x) w) in E as [-> H]; [by exists (Some x)|].
    intros g N H. apply opened_close; [congruence|by apply E1].
Qed.

(** Timeouts a configuration should have: not negative, and of the width of
    the [int] the driver takes. *)
Definition timeo_ok (r : Remote) : Prop := 0 <= rtimeo_ms r < 2 ^ 31 /\ 0 <= wtimeo_ms r < 2 ^ 31.
Definition rp_ok (m : ConnsMgr) (rp : RemotePtr) : Prop := forall r, deref_remote m rp = Some r -> timeo_ok r.

(** Waiting descriptors are open; idle ones are open, distinct and not
    waiting. *)
Record fds_ok (d : EventsDriver Q) (m : ConnsMgr) (w : W) : Prop := {
  fo_live f : live_fd d f -> opened w f;
  fo_idle f : f ∈ idle m -> opened w f /\ ~ live_fd d f;
  fo_nodup : NoDup (idle m);
  fo_next q : is_Some (pools m !! q) -> q < next_pool m;
  fo_tmp : Forall timeo_ok (tmp_remotes_ m);
}.

Lemma fds_ok_stay d m w w' : fds_ok d m w -> stay w w' -> fds_ok d m w'.
Proof. intros [A B C D E] S. split; [auto|naive_solver|done..]. Qed.

Lemma GetRemote_tmp m sv fails sel m' : Forall timeo_ok (remotes sv) -> Forall timeo_ok (tmp_remotes_ m) ->
  GetRemote_ m sv fails = Some (sel, m') ->
  pools m' = pools m /\ next_pool m' = next_pool m /\ conns_ m' = conns_ m /\ Forall timeo_ok (tmp_remotes_ m') /\
  (forall rp, sel = Some rp -> rp_ok m' rp).
Proof.
  intros Hs Ht. assert (forall m' i, Forall timeo_ok (tmp_remotes_ m') -> rp_ok m' (InTmp i)) as Tmp.
  { intros m1 i F r Hr. cbn in Hr. by eapply list.Forall_lookup_1 in Hr. }
  assert (forall i r m', remotes sv !! i = Some r -> rp_ok m' (InService r)) as Ser.
  { intros i r m1 L r' [= <-]. by eapply list.Forall_lookup_1 in L. }
  unfold GetRemote_, GetRemoteNormal_, GetRemoteWeight_. intros E.
  assert (Forall timeo_ok (filter (fun r => FailedBefore_ r fails = false) (remotes sv))) as Ff.
  { apply list.Forall_forall. intros r [_ Hr]%list_elem_of_filter. by eapply list.Forall_forall in Hr. }
  destruct (service_strategy sv).
  - destruct (List.find _ _) as [r|] eqn:Fi.
    + injection E as <- <-. split_and!; try done. intros rp [= <-]. apply find_some in Fi as [Hin _].
      apply list_elem_of_In, list_elem_of_lookup in Hin as [i Hi]. by eapply Ser.
    + destruct (rand_mod _ _) as [[v sd]|]; [|done]. cbn in E. destruct (remotes sv !! Z.to_nat v) as [r|] eqn:L; [|done].
      injection E as <- <-. split_and!; try done. intros rp [= <-]. by eapply Ser.
  - destruct (unhealthy_guys_ m).
    + destruct (rand_mod _ _) as [[v sd]|]; [|done]. cbn in E. destruct (pick _ _ _ _) as [i|].
      * destruct (remotes sv !! i) as [r|] eqn:L; [|done]. injection E as <- <-. split_and!; try done.
        intros rp [= <-]. by eapply Ser.
      * by injection E as <- <-.
    + destruct (health_weights _ _) as [ws|]; [|done]. cbn in E. case_decide.
      * destruct (rand_mod _ _) as [[v sd]|]; [|done]. cbn in E. destruct (remotes sv !! Z.to_nat v) as [r0|] eqn:L; [|done].
        injection E as <- <-. split_and!; try done. intros rp [= <-]. by eapply Ser.
      * destruct (rand_mod _ _) as [[v sd]|]; [|done]. cbn in E. destruct (pick _ _ _ _) as [i|]; injection E as <- <-; split_and!; try done.
        intros rp [= <-]. by apply Tmp.
  - by injection E as <- <-.
Qed.

Lemma next_pool_free m : (forall q, is_Some (pools m !! q) -> q < next_pool m) -> pools m !! next_pool m = None.
Proof. intros H. destruct (pools m !! next_pool m) eqn:E; [|done]. specialize (H (next_pool m) ltac:(eauto)). lia. Qed.

(** A pool that is created is empty. *)
Lemma pool_of_spec m r q m1 : (forall q, is_Some (pools m !! q) -> q < next_pool m) ->
  match Hashmap.Get (conns_ m) r with Some q => (q, m) | None => new_pool m r end = (q, m1) ->
  idle m1 ≡ₚ idle m /\ tmp_remotes_ m1 = tmp_remotes_ m /\ (forall q, is_Some (pools m1 !! q) -> q < next_pool m1).
Proof.
  intros Hn. destruct (Hashmap.Get (conns_ m) r); [by intros [= <- <-]|]. unfold new_pool. intros [= <- <-]. cbn. split_and!; [|done|].
  - unfold idle. cbn. rewrite map_to_list_insert by (by apply next_pool_free). done.
  - intros q. rewrite lookup_insert_is_Some. intros [<-|[N H]]; [lia|]. apply Hn in H. lia.
Qed.

(** The descriptor [GetFd] hands out is open, not waiting and not idle;
    descriptors in the hands of others stay so. *)
(** A report changes a mark only. *)
Lemma ReportStatus_idle m r succ m' : ReportStatus m r succ = Some m' ->
  idle m' ≡ₚ idle m /\ tmp_remotes_ m' = tmp_remotes_ m /\ next_pool m' = next_pool m /\
  (forall q, is_Some (pools m' !! q) -> is_Some (pools m !! q)).
Proof.
  unfold ReportStatus. destruct (Hashmap.Get (conns_ m) r) as [q|]; [|by intros [= <-]].
  destruct (pools m !! q) as [p|] eqn:P; [|done]. cbn [mbind option_bind]. set (m1 := set_pool m q (PoolReportStatus p succ)).
  intros E. assert (pools m' = pools m1 /\ tmp_remotes_ m' = tmp_remotes_ m1 /\ next_pool m' = next_pool m1) as (E1 & -> & ->).
  { injection E as <-. by repeat case_match. }
  pose proof (idle_set_pool m q p (PoolReportStatus p succ) P) as I. apply Permutation_app_inv_l in I.
  split_and!; [|done|done|].
  - unfold idle in *. by rewrite E1.
  - intros q'. rewrite E1. unfold m1, set_pool. cbn. destruct (decide (q' = q)) as [->|N]; [by rewrite P|by rewrite lookup_insert_ne].
Qed.

Lemma GetFd_owned d m sv fails w f b rp m' w' : fds_ok d m w -> Forall timeo_ok (remotes sv) ->
  GetFd m sv fails w = Some ((f, b, rp, m'), w') ->
  fds_ok d m' w' /\ rp_ok m' rp /\ (0 < f -> opened w' f /\ ~ live_fd d f /\ f ∉ idle m') /\
  (forall g, opened w g -> g ∉ idle m -> opened w' g /\ g ∉ idle m' /\ (0 < f -> g <> f)) /\
  (forall r, rp = InService r -> timeo_ok r).
Proof.
  intros [Lv Id Nd Nx Tm] Hs E. unfold GetFd in E. apply bind_Some in E as ([sel m1] & w1 & E1 & E).
  apply deref_inv in E1 as [G ->].
  destruct (GetRemote_tmp m sv fails sel m1 Hs Tm G) as (P1 & N1 & C1 & T1 & R1).
  apply bind_Some in E as (rp0 & w2 & E2 & E). apply deref_inv in E2 as [-> ->].
  apply bind_Some in E as (r & w3 & E3 & E). apply deref_inv in E3 as [Dr ->].
  apply bind_Some in E as ([[f0 b0] m2] & w4 & E4 & E). injection E as -> -> -> -> ->.
  unfold GetFd_ in E4. destruct (match Hashmap.Get (conns_ m1) r with Some q => (q, m1) | None => new_pool m1 r end) as [q m3] eqn:Pq.
  rewrite <- P1 in Nx. rewrite <- N1 in Nx. destruct (pool_of_spec m1 r q m3 Nx Pq) as (I3 & T3 & Nx3).
  assert (idle m3 ≡ₚ idle m) as I3' by (rewrite I3; unfold idle; by rewrite P1). clear I3.
  apply bind_Some in E4 as (p & w5 & E5 & E4). apply deref_inv in E5 as [Lp ->].
  apply bind_Some in E4 as ([[f1 b1] p1] & w6 & E6 & E4). injection E4 as <- <- <- <-.
  assert (Forall (opened w) (fds_ p)) as Fo.
  { apply list.Forall_forall. intros g Hg. apply Id. rewrite <- I3', (idle_pool m3 q p Lp). apply elem_of_app. by left. }
  destruct (PoolGet_handed p w f1 b1 p1 w6 Fo E6) as (x & Px & Hh & Hf).
  pose proof (idle_set_pool m3 q p p1 Lp) as Is. rewrite Px, <- app_assoc in Is. apply Permutation_app_inv_l in Is.
  rewrite I3' in Is. rewrite <- Is in Nd. apply list.NoDup_app in Nd as (_ & Nd1 & Nd2).
  assert (forall g, g ∈ idle (set_pool m3 q p1) -> g ∈ idle m /\ x <> Some g) as Sub.
  { intros g Hg. split; [rewrite <- Is; apply elem_of_app; by right|]. intros ->. by apply (Nd1 g); [apply list_elem_of_here|]. }
  assert (forall g, live_fd d g -> x <> Some g) as Lx.
  { intros g Hg ->. apply (Id g); [|done]. rewrite <- Is. apply list_elem_of_here. }
  split_and!.
  - split; cbn [pools set_pool set_conns next_pool tmp_remotes_]; [..|done| |by rewrite T3].
    + intros g Hg. apply Hh; [by apply Lx|by apply Lv].
    + intros g [Hg Nx0]%Sub. split; [|by apply Id]. apply Hh; [done|by apply Id].
    + intros q0. rewrite lookup_insert_is_Some. intros [<-|[_ H]]; apply Nx3; [by eexists|done].
  - intros r' Hr'. apply (R1 rp eq_refl). by destruct rp; cbn in *; [|rewrite T3 in Hr'].
  - intros L. split_and!; [by apply Hf|..].
    + intros Hl. destruct (Hh f1 (Lx _ Hl) (Lv _ Hl)) as [_ N]. by apply N.
    + intros [Hg N0]%Sub. destruct (Hh f1 N0 ltac:(by apply Id)) as [_ N]. by apply N.
  - intros g Hg Ng. destruct (Hh g) as [O N]; [|done|].
    + intros ->. apply Ng. rewrite <- Is. apply list_elem_of_here.
    + split_and!; [done| |done]. by intros [? _]%Sub.
  - intros r' ->. by apply (R1 (InService r') eq_refl).
Qed.

(** A connection that is given back is idle or closed. *)
Lemma Put_given p fd w p' w' : Put p fd w = Some (p', w') ->
  exists b : bool, fds_ p' = fds_ p ++ (if b then [fd] else []) /\ forall g, b = true \/ g <> fd -> opened w g -> opened w' g.
Proof.
  assert (forall p1 w1, fds_ p1 = fds_ p -> stay w w1 -> (IOHelper.Close fd;; mret p1) w1 = Some (p', w') ->
    exists b : bool, fds_ p' = fds_ p ++ (if b then [fd] else []) /\ forall g, b = true \/ g <> fd -> opened w g -> opened w' g) as Closed.
  { intros p1 w1 F St E. step E as [] w2 E2. injection E2 as <-. injection E as <- <-. exists false. rewrite app_nil_r. split; [done|].
    intros g [|N] O; [done|]. apply opened_close; [done|by apply St]. }
  intros E. unfold Put in E. destruct (long_conns (remote_ p) <=? num_fds p); [by eapply Closed; [..|exact E]|].
  cbn zeta in E. set (p1 := with_fds p (fds_ p) _) in E. destruct (num_fds p1 <? long_conns (remote_ p1)); [|by eapply Closed; [..|exact E]].
  step E as e w1 E1. assert (w1 = w) as -> by (destruct (fd <? 0); [done|by apply deref_inv in E1 as [_ ->]]).
  destruct (negb (e =? 0)); step E as now w2 E2; pose proof (keeps_run stay _ _ _ _ E2 (inert_Sec stay _)) as St.
  - destruct (now <? e); [injection E as <- <-; exists true; split; [done|]; intros g _; apply St|].
    eapply Closed; [..|exact E]; done.
  - injection E as <- <-. exists true. split; [done|]. intros g _. apply St.
Qed.

Lemma FreeFd_owned d m r fd w m' w' : fds_ok d m w -> opened w fd -> ~ live_fd d fd -> fd ∉ idle m ->
  FreeFd m r fd w = Some (m', w') -> fds_ok d m' w' /\ forall g, g <> fd -> opened w g -> g ∉ idle m -> opened w' g /\ g ∉ idle m'.
Proof.
  intros [Lv Id Nd Nx Tm] Ho Nl Ni E.
  assert (exists b : bool, idle m' ≡ₚ (if b then [fd] else []) ++ idle m /\ (forall g, b = true \/ g <> fd -> opened w g -> opened w' g) /\
    (forall q, is_Some (pools m' !! q) -> q < next_pool m') /\ tmp_remotes_ m' = tmp_remotes_ m) as (b & I & O & Nx' & Tm').
  { assert ((IOHelper.Close fd;; mret m) w = Some (m', w') -> exists b : bool, idle m' ≡ₚ (if b then [fd] else []) ++ idle m /\
      (forall g, b = true \/ g <> fd -> opened w g -> opened w' g) /\ (forall q, is_Some (pools m' !! q) -> q < next_pool m') /\
      tmp_remotes_ m' = tmp_remotes_ m) as Closed.
    { intros F. step F as [] w2 F2. injection F2 as <-. injection F as <- <-. exists false. split_and!; [done| |done|done].
      intros g [|N] G; [done|]. by apply opened_close. }
    unfold FreeFd in E. destruct (Hashmap.Get (conns_ m) r) as [q|]; [|by apply Closed].
    step E as p w1 E1. apply deref_inv in E1 as [P ->]. destruct (0 <? GetNumLongConnsPerRemote p); [|by apply Closed].
    step E as p1 w1 E1. injection E as <- <-. apply Put_given in E1 as (b & F & O). exists b.
    pose proof (idle_set_pool m q p p1 P) as I. rewrite F, <- app_assoc in I. apply Permutation_app_inv_l in I. split_and!; [done|done| |done].
    intros q'. cbn. rewrite lookup_insert_is_Some. intros [<-|[_ H]]; apply Nx; [by eexists|done]. }
  split; [split; [..|done|by rewrite Tm']|].
  - intros g Hg. apply O; [right; by intros ->|by apply Lv].
  - intros g. rewrite I, elem_of_app. intros [Hg|Hg].
    + destruct b; [|by apply not_elem_of_nil in Hg]. apply list_elem_of_singleton in Hg as ->. split; [by apply O; [left|]|done].
    + destruct (Id g Hg) as [Og Ng]. split; [|done]. apply O; [right; by intros ->|done].
  - rewrite I. destruct b; [|done]. cbn. by apply list.NoDup_cons.
  - intros g N G Gi. split; [by apply O; [right|]|]. rewrite I, elem_of_app. intros [Hg|Hg]; [|done].
    destruct b; [by apply list_elem_of_singleton in Hg|by apply not_elem_of_nil in Hg].
Qed.

(** A new configuration keeps idle connections or forgets them. *)
Definition fewer (m m' : ConnsMgr) : Prop :=
  (exists l, idle m ≡ₚ idle m' ++ l) /\ tmp_remotes_ m' = tmp_remotes_ m /\
  ((forall q, is_Some (pools m !! q) -> q < next_pool m) -> forall q, is_Some (pools m' !! q) -> q < next_pool m').
#[export] Instance fewer_preorder : PreOrder fewer.
Proof.
  split; [intros m; split_and!; [exists []; by rewrite app_nil_r|done..]|].
  intros a b c ([l A1] & A2 & A3) ([l' B1] & B2 & B3). split_and!; [|congruence|auto]. exists (l' ++ l). by rewrite A1, B1, app_assoc.
Qed.

Lemma ConfigRemote1_fewer m r m' : (forall q, is_Some (pools m !! q) -> q < next_pool m) -> ConfigRemote1 m r = Some m' -> fewer m m'.
Proof.
  intros Nx E. unfold ConfigRemote1 in E.
  assert (exists q m1 p, fewer m m1 /\ pools m1 !! q = Some p /\ m' = set_pool m1 q (SetNumLongConnsPerRemote p (long_conns r))) as (q & m1 & p & F & P & ->).
  { pose proof (pool_of_spec m r) as Po. destruct (Hashmap.Get (conns_ m) r) as [q|] eqn:G.
    - cbn in E. destruct (pools m !! q) as [p|] eqn:P; [|done]. injection E as <-. by exists q, m, p.
    - destruct (new_pool m r) as [q1 m1] eqn:N. destruct (Po q1 m1 Nx eq_refl) as (I & T & Nx'). cbn [snd] in E.
      destruct (Hashmap.Get (conns_ m1) r) as [q|]; [|done]. cbn in E. destruct (pools m1 !! q) as [p|] eqn:P; [|done]. injection E as <-.
      exists q, m1, p. split_and!; [|done|done]. split_and!; [exists []; by rewrite app_nil_r|done|done]. }
  etransitivity; [exact F|]. pose proof (idle_set_pool m1 q p (SetNumLongConnsPerRemote p (long_conns r)) P) as I.
  apply Permutation_app_inv_l in I. split_and!; [exists []; by rewrite app_nil_r|done|].
  intros Nx1 q'. cbn. rewrite lookup_insert_is_Some. intros [<-|[_ H]]; apply Nx1; [by eexists|done].
Qed.
Lemma ConfigErase1_fewer m rs pos m' : ConfigErase1 m rs pos = Some m' -> fewer m m'.
Proof.
  unfold ConfigErase1. destruct (Hashmap.item_key _) as [r|]; [|done]. cbn. destruct (set_mem rs r); [by intros [= <-]|].
  destruct (Hashmap.Get (conns_ m) r) as [q|]; [|done]. intros [= <-]. split_and!; [|done|].
  - destruct (pools m !! q) as [p|] eqn:P.
    + exists (fds_ p). rewrite (idle_pool m q p P), Permutation_app_comm. done.
    + exists []. unfold idle. cbn. rewrite delete_id by done. by rewrite app_nil_r.
  - intros Nx q'. cbn. intros [_ H]%lookup_delete_is_Some. by apply Nx.
Qed.
Lemma ConfigInsert_fewer rs : forall m m', (forall q, is_Some (pools m !! q) -> q < next_pool m) -> ConfigInsert_loop m rs = Some m' -> fewer m m'.
Proof.
  induction rs as [|r l IH]; intros m m' Nx E; cbn [ConfigInsert_loop] in E; [by injection E as <-|].
  destruct (ConfigRemote1 m r) as [m2|] eqn:E2; [|done]. pose proof (ConfigRemote1_fewer m r m2 Nx E2) as F.
  etransitivity; [exact F|]. apply (IH m2); [by apply F|done].
Qed.
Lemma ConfigErase_fewer n rs : forall m pos m', ConfigErase_loop n m rs pos = Some m' -> fewer m m'.
Proof.
  induction n as [|n IH]; intros m pos m' E; [done|]. cbn [ConfigErase_loop] in E.
  destruct (Hashmap.IsEnd (conns_ m) pos); [by injection E as <-|]. destruct (ConfigErase1 m rs pos) as [m2|] eqn:E2; [|done].
  etransitivity; [by eapply ConfigErase1_fewer|]. by eapply IH.
Qed.
Lemma ConfigRemotes_fewer m rs m' : (forall q, is_Some (pools m !! q) -> q < next_pool m) -> ConfigRemotes m rs = Some m' -> fewer m m'.
Proof.
  unfold ConfigRemotes. intros Nx E. destruct (ConfigInsert_loop m rs) as [m1|] eqn:E1; [|done]. cbn [mbind option_bind] in E.
  etransitivity; [by eapply ConfigInsert_fewer|]. by eapply ConfigErase_fewer.
Qed.
Lemma fds_ok_fewer d m m' w : fds_ok d m w -> fewer m m' -> fds_ok d m' w /\ forall g, g ∉ idle m -> g ∉ idle m'.
Proof.
  intros [Lv Id Nd Nx Tm] ([l I] & T & N). assert (forall g, g ∈ idle m' -> g ∈ idle m) as Sub by (intros g Hg; rewrite I; apply elem_of_app; auto).
  split; [|naive_solver]. split; [done|auto| |auto|by rewrite T]. rewrite I in Nd. by apply list.NoDup_app in Nd as [Nd _].
Qed.
End Fds.
End Fds.
