(* ===== verification/Confs.v ===== *)
(** * Confs: the configuration

    Models src/src/confs/: the checks on the two configuration files, the
    services, their remotes and the sets of services built from them, and the
    versions of the service configuration kept for requests in flight
    (deps/public-cpp/include/public-cpp/delay_del_ptr.hpp).  The files arrive
    as parsed JSON values; the parser is only in the binary library. *)

From Stdlib Require Import ZArith Lia Ascii String.
From stdpp Require Import base list gmap strings numbers option.
From S2P Require Import Prelude Protocol Hashmap Model Rapid Redis PoolObjs Protocols IOHelper ConnsMgr.
Import Model.

(** ** JSON values (jsontype.h)

    A dictionary lists its entries in the order of iteration. *)
Module Json.
Inductive Json :=
| JNull
| JBool (b : bool)
| JInt (z : Z)
| JDouble
| JStr (s : string)
| JList (l : list Json)
| JDict (d : list (string * Json)).

Fixpoint assoc (key : string) (d : list (string * Json)) : Json :=
  match d with
  | [] => JNull
  | (k, v) :: d => if decide (k = key) then v else assoc key d
  end.
(** [operator[]] on a constant value. *)
Definition field (j : Json) (key : string) : Json :=
  match j with JDict d => assoc key d | _ => JNull end.
Definition index (j : Json) (i : nat) : Json :=
  match j with JList l => nth i l JNull | _ => JNull end.
End Json.
Import Json.

Module Confs.

(** The system's [inet_addr]. *)
Class InetAddr : Type := { inet_addr : bytes -> Z }.

(** ** ConfHelper *)

Definition ParseServiceTag (service_tag : string) : option (string * Protocol.Category) :=
  match String.index 0 "|" service_tag with
  | None => None
  | Some pos_sep =>
      if decide (pos_sep = 0%nat) then None
      else
        let name := String.substring 0 pos_sep service_tag in
        let category := Protocols.GetCategory
          (String.substring (pos_sep + 1) (String.length service_tag - (pos_sep + 1)) service_tag) in
        if decide (category = Protocol.kInvalid) then None else Some (name, category)
  end.

(** ** ConfNormal *)

Record ConfNormal := mkConfNormal {
  num_schedulers_ : Z;
  num_agents_ : Z;
  client_keepalive_sec_ : Z;
  max_num_clients_keepalive_ : Z;
  long_conn_keepalive_sec_ : Z;
  cn_ctimeo_ms : Z;
  cn_wtimeo_ms : Z;
  cn_rtimeo_ms : Z;
  listen_addrs_ : list Protocol.ListenAddr;
  size_scheduler_mailbox_ : Z;
  size_agent_mailbox_ : Z;
  size_stack_ : Z;
  low_latency_ : bool;
  default_long_conns_ : Z;
  default_weight_ : Z;
}.

Section Confs.
Context `{IA : !InetAddr}.

(** One of the checked integers of the file. *)
Definition int_field (conf : Json) (key : string) (ok : Z -> bool) : option Z :=
  match field conf key with
  | JInt v => if ok v then Some v else None
  | _ => None
  end.
Definition positive (v : Z) : bool := negb (v <=? 0).
Definition nonneg (v : Z) : bool := negb (v <? 0).

(** An address that could not be read is kept all the same; [addr0] is what
    the uninitialised variable holds. *)
Fixpoint listen_addrs (addr0 : Protocol.Addr) (d : list (string * Json)) : option (list Protocol.ListenAddr) :=
  match d with
  | [] => Some []
  | (tag, v) :: d =>
      '(name, category) ← ParseServiceTag tag;
      match v with
      | JStr s =>
          let a := (Protocol.Assign inet_addr addr0 (str s)).2 in
          l ← listen_addrs addr0 d;
          Some (Protocol.mkListenAddr (str name) category a :: l)
      | _ => None
      end
  end.

Definition ConfNormal_Init (conf_normal : option Json) (addr0 : Protocol.Addr) : option ConfNormal :=
  conf ← conf_normal;
  match conf with
  | JDict _ =>
      num_schedulers ← int_field conf "num_schedulers" positive;
      num_agents ← int_field conf "num_agents" positive;
      client_keepalive_sec ← int_field conf "client_keepalive_sec" nonneg;
      max_num_clients_keepalive ← int_field conf "max_num_clients_keepalive" nonneg;
      long_conn_keepalive_sec ← int_field conf "long_conn_keepalive_sec" nonneg;
      ctimeo ← int_field conf "ctimeo_ms" nonneg;
      wtimeo ← int_field conf "wtimeo_ms" nonneg;
      rtimeo ← int_field conf "rtimeo_ms" nonneg;
      addrs ← match field conf "listen_addrs" with
              | JDict d => listen_addrs addr0 d
              | _ => None
              end;
      size_scheduler_mailbox ← int_field conf "size_scheduler_mailbox" positive;
      size_agent_mailbox ← int_field conf "size_agent_mailbox" positive;
      size_stack ← int_field conf "size_stack" positive;
      low_latency ← int_field conf "low_latency" (fun _ => true);
      default_long_conns ← int_field conf "default_long_conns" nonneg;
      default_weight ← int_field conf "default_weight" positive;
      Some {| num_schedulers_ := num_schedulers; num_agents_ := num_agents;
              client_keepalive_sec_ := client_keepalive_sec;
              max_num_clients_keepalive_ := max_num_clients_keepalive;
              long_conn_keepalive_sec_ := long_conn_keepalive_sec;
              cn_ctimeo_ms := ctimeo; cn_wtimeo_ms := wtimeo; cn_rtimeo_ms := rtimeo;
              listen_addrs_ := addrs; size_scheduler_mailbox_ := size_scheduler_mailbox;
              size_agent_mailbox_ := size_agent_mailbox; size_stack_ := size_stack;
              low_latency_ := negb (low_latency =? 0);
              default_long_conns_ := default_long_conns; default_weight_ := default_weight |}
  | _ => None
  end.

(** ** ConfServices *)

Record ConfServices := mkConfServices {
  remotes_ : list Remote;
  services_ : gmap string Service;
  services_sets_ : gmap string (list Service);
  set_to_services_ : gmap string (list string);
}.
Definition ConfServices_new : ConfServices := mkConfServices [] ∅ ∅ ∅.

Definition GetService (c : ConfServices) (service : string) : option Service := services_ c !! service.
Definition GetServicesSet (c : ConfServices) (set : string) : option (list Service) := services_sets_ c !! set.
Definition GetServiceNames (c : ConfServices) (set : string) : option (list string) := set_to_services_ c !! set.

(** A setting of a remote, or the default; a [size_t] takes a negative number
    modulo 2^64. *)
Definition int_or (conf : Json) (key : string) (default : Z) : Z :=
  match field conf key with JInt v => v | _ => default end.

Definition BuildRemote_ (cn : ConfNormal) (set : list Remote) (conf : Json) (addr0 : Protocol.Addr)
  : option (Remote * list Remote) :=
  match conf, field conf "addr" with
  | JDict _, JStr s =>
      let '(ret, a) := Protocol.Assign inet_addr addr0 (str s) in
      if negb ret then None
      else if (match field conf "weight" with JInt w => w <? 0 | _ => false end) then None
      else
        let r := {| r_addr := a;
                    weight := int_or conf "weight" (default_weight_ cn);
                    long_conns := u64 (int_or conf "long_conns" (default_long_conns_ cn));
                    ctimeo_ms := int_or conf "ctimeo_ms" (cn_ctimeo_ms cn);
                    rtimeo_ms := int_or conf "rtimeo_ms" (cn_rtimeo_ms cn);
                    wtimeo_ms := int_or conf "wtimeo_ms" (cn_wtimeo_ms cn) |} in
        if ConnsMgr.set_mem set r then Some (r, set)
        else
          let set := r :: set in
          if (kNumRemotes <? length set)%nat then None else Some (r, set)
  | _, _ => None
  end.

Fixpoint BuildRemotes (cn : ConfNormal) (set : list Remote) (confs : list Json) (addr0 : Protocol.Addr)
    (weight_all : Z) : option (list Remote * Z * list Remote) :=
  match confs with
  | [] => Some ([], weight_all, set)
  | c :: confs =>
      '(r, set) ← BuildRemote_ cn set c addr0;
      '(rs, weight_all, set) ← BuildRemotes cn set confs addr0 (u64 (weight_all + weight r));
      Some (r :: rs, weight_all, set)
  end.

Definition BuildService_ (cn : ConfNormal) (set : list Remote) (no : Z) (service_tag : string) (desc : Json)
    (addr0 : Protocol.Addr) : option (Service * list Remote) :=
  '(name, category) ← ParseServiceTag service_tag;
  match desc, field desc "remotes" with
  | JDict _, JList confs =>
      let strategy :=
        match field desc "strategy" with
        | JStr s =>
            match GetServiceStrategy s with
            | kInvalidStrategy => kDefaultStrategy
            | st => st
            end
        | _ => kDefaultStrategy
        end in
      '(rs, weight_all, set) ← BuildRemotes cn set confs addr0 0;
      let retry := match field desc "retry" with JInt v => if 0 <=? v then v else 0 | _ => 0 end in
      Some ({| Model.no := no; s_name := name; protocol_category := category; service_strategy := strategy;
               remotes := rs; Model.weight_all := weight_all; s_retry := retry |}, set)
  | _, _ => None
  end.

(** [services_.insert]: the first service of a name is kept. *)
Definition add_service (m : gmap string Service) (s : Service) : gmap string Service :=
  match m !! s_name s with Some _ => m | None => <[s_name s := s]> m end.

Fixpoint BuildServices_ (cn : ConfNormal) (set : list Remote) (m : gmap string Service) (no : Z)
    (d : list (string * Json)) (addr0 : Protocol.Addr) : option (list Remote * gmap string Service) :=
  match d with
  | [] => Some (set, m)
  | (tag, desc) :: d =>
      '(s, set) ← BuildService_ cn set no tag desc addr0;
      BuildServices_ cn set (add_service m s) (no + 1) d addr0
  end.

(** The services of one set, with their names. *)
Fixpoint BuildServicesSet (m : gmap string Service) (l : list Json) : option (list Service * list string) :=
  match l with
  | [] => Some ([], [])
  | JStr name :: l =>
      s ← m !! name;
      '(ss, names) ← BuildServicesSet m l;
      Some (s :: ss, name :: names)
  | _ :: _ => None
  end.

Fixpoint BuildServicesSets_ (c : ConfServices) (d : list (string * Json)) : option ConfServices :=
  match d with
  | [] => Some c
  | (key, JList l) :: d =>
      '(ss, names) ← BuildServicesSet (services_ c) l;
      BuildServicesSets_
        {| remotes_ := remotes_ c; services_ := services_ c;
           services_sets_ := <[key := ss]> (services_sets_ c);
           set_to_services_ := <[key := names]> (set_to_services_ c) |} d
  | _ :: _ => None
  end.

Definition ConfServices_Init (conf : option Json) (cn : ConfNormal) (addr0 : Protocol.Addr) : option ConfServices :=
  conf ← conf;
  match conf, field conf "services", field conf "services_sets" with
  | JDict _, JDict services, JDict sets =>
      '(set, m) ← BuildServices_ cn [] ∅ 0 services addr0;
      BuildServicesSets_ (mkConfServices set m ∅ ∅) sets
  | _, _, _ => None
  end.

(** ** A configuration that was accepted *)

Definition remote_id (r : Remote) : Z * Z := (Protocol.s_addr (r_addr r), Protocol.sin_port (r_addr r)).

(** The set of remotes: distinct and no more than the table of the connection
    manager is made for. *)
Definition set_ok (set : list Remote) : Prop := NoDup (remote_id <$> set) /\ (length set <= kNumRemotes)%nat.
Definition covers (set : list Remote) (rs : list Remote) : Prop :=
  Forall (fun r => ConnsMgr.set_mem set r = true) rs.
Definition grows (set set' : list Remote) : Prop :=
  forall r, ConnsMgr.set_mem set r = true -> ConnsMgr.set_mem set' r = true.

Record service_ok (set : list Remote) (s : Service) : Prop := {
  so_category : protocol_category s <> Protocol.kInvalid;
  so_strategy : service_strategy s <> kInvalidStrategy;
  so_retry : 0 <= s_retry s;
  so_remotes : covers set (remotes s);
  so_weights : Forall (fun r => 0 <= weight r) (remotes s);
  so_weight : weight_all s = ConnsMgr.sum_u64 (map weight (remotes s));
}.

Definition services_ok (set : list Remote) (m : gmap string Service) : Prop :=
  map_Forall (fun name s => s_name s = name /\ service_ok set s) m.

Record conf_ok (c : ConfServices) : Prop := {
  co_set : set_ok (remotes_ c);
  co_services : services_ok (remotes_ c) (services_ c);
  co_sets set ss : services_sets_ c !! set = Some ss ->
    exists names, set_to_services_ c !! set = Some names /\
      Forall2 (fun s name => services_ c !! name = Some s) ss names;
}.

Lemma set_mem_id set r : ConnsMgr.set_mem set r = true <-> remote_id r ∈ remote_id <$> set.
Proof.
  unfold ConnsMgr.set_mem. rewrite existsb_exists, list_elem_of_fmap. split.
  - intros (x & Hx & [E1 E2]%EqRemote_spec). exists x. rewrite list_elem_of_In. unfold remote_id. split; [congruence|done].
  - intros (x & [= E1 E2] & Hx). exists x. rewrite <- list_elem_of_In. split; [done|]. apply EqRemote_spec. split; congruence.
Qed.

Lemma covers_grows set set' rs : grows set set' -> covers set rs -> covers set' rs.
Proof. intros G C. eapply list.Forall_impl; [exact C|]. cbn. intros r Hr. by apply G. Qed.

Lemma service_ok_grows set set' s : grows set set' -> service_ok set s -> service_ok set' s.
Proof. intros G [? ? ? C ? ?]. split; try done. by apply (covers_grows set). Qed.

Lemma BuildRemote_ok cn set conf a0 r set' : 0 <= default_weight_ cn -> set_ok set ->
  BuildRemote_ cn set conf a0 = Some (r, set') ->
  set_ok set' /\ grows set set' /\ ConnsMgr.set_mem set' r = true /\ 0 <= weight r.
Proof.
  intros Hd [N L] H. unfold BuildRemote_ in H. destruct conf; try done. destruct (field _ _); try done.
  destruct (Protocol.Assign _ _ _) as [[] a]; [|done]. cbn [negb] in H.
  destruct (match field (JDict d) "weight" with JInt w => w <? 0 | _ => false end) eqn:Hw; [done|].
  match type of H with context [ConnsMgr.set_mem set ?x] => set (r0 := x) in * end.
  assert (0 <= weight r0) as W.
  { unfold r0, int_or. cbn [weight]. destruct (field (JDict d) "weight"); try done. apply Z.ltb_ge in Hw. done. }
  destruct (ConnsMgr.set_mem set r0) eqn:M.
  - injection H as <- <-. split_and!; [by split|by intros ?|done|done].
  - destruct (kNumRemotes <? length (r0 :: set))%nat eqn:K; [done|]. injection H as <- <-.
    apply Nat.ltb_ge in K. split_and!; [split; [|done]|..|done].
    + cbn. apply list.NoDup_cons. split; [|done]. rewrite <- set_mem_id. congruence.
    + intros x Hx. apply set_mem_id. apply set_mem_id in Hx. cbn. by right.
    + apply set_mem_id. cbn. by left.
Qed.

Lemma BuildRemotes_ok cn confs a0 : 0 <= default_weight_ cn -> forall set wa rs wa' set', set_ok set ->
  BuildRemotes cn set confs a0 wa = Some (rs, wa', set') ->
  set_ok set' /\ grows set set' /\ covers set' rs /\ Forall (fun r => 0 <= weight r) rs /\
  wa' = fold_left (fun acc w => u64 (acc + w)) (map weight rs) wa.
Proof.
  intros Hd. induction confs as [|c confs IH]; intros set wa rs wa' set' Hs H; cbn in H.
  - injection H as <- <- <-. split_and!; [done|by intros ?|constructor|constructor|done].
  - destruct (BuildRemote_ cn set c a0) as [[r set1]|] eqn:E; [|done]. cbn in H.
    destruct (BuildRemote_ok _ _ _ _ _ _ Hd Hs E) as (S1 & G1 & M1 & W1).
    destruct (BuildRemotes cn set1 confs a0 (u64 (wa + weight r))) as [[[rs1 wa1] set2]|] eqn:E2; [|done].
    cbn in H. injection H as <- <- <-. destruct (IH _ _ _ _ _ S1 E2) as (S2 & G2 & C2 & W2 & F2).
    split_and!; [done|intros x Hx; by apply G2, G1|constructor; [by apply G2|done]|by constructor|]. done.
Qed.

Lemma ParseServiceTag_category tag name c : ParseServiceTag tag = Some (name, c) -> c <> Protocol.kInvalid.
Proof.
  unfold ParseServiceTag. destruct (String.index _ _ _); [|done]. case_decide; [done|].
  case_decide; [done|]. by intros [= _ <-].
Qed.

Lemma BuildService_ok cn set no tag desc a0 s set' : 0 <= default_weight_ cn -> set_ok set ->
  BuildService_ cn set no tag desc a0 = Some (s, set') -> set_ok set' /\ grows set set' /\ service_ok set' s.
Proof.
  intros Hd Hs H. unfold BuildService_ in H. destruct (ParseServiceTag tag) as [[name c]|] eqn:T; [|done].
  apply ParseServiceTag_category in T. cbn [mbind option_bind] in H. destruct desc; try done.
  destruct (field (JDict d) "remotes"); try done.
  destruct (BuildRemotes cn set l a0 0) as [[[rs wa] set1]|] eqn:E; [|done]. cbn [mbind option_bind] in H. injection H as <- <-.
  destruct (BuildRemotes_ok cn l a0 Hd set 0 rs wa set1 Hs E) as (S & G & C & W & F).
  split_and!; [done|done|]. split; cbn [protocol_category service_strategy s_retry remotes weight_all]; try done.
  - unfold kDefaultStrategy. repeat case_match; done.
  - repeat case_match; lia.
Qed.

Lemma BuildServices_ok cn d a0 : 0 <= default_weight_ cn -> forall set m no set' m', set_ok set -> services_ok set m ->
  BuildServices_ cn set m no d a0 = Some (set', m') -> set_ok set' /\ services_ok set' m'.
Proof.
  intros Hd. induction d as [|[tag desc] d IH]; intros set m no set' m' Hs Hm H; cbn in H.
  - by injection H as <- <-.
  - destruct (BuildService_ cn set no tag desc a0) as [[s set1]|] eqn:E; [|done]. cbn in H.
    destruct (BuildService_ok _ _ _ _ _ _ _ _ Hd Hs E) as (S1 & G1 & K1).
    apply (IH set1 _ _ _ _ S1) in H; [done|]. unfold add_service, services_ok.
    assert (map_Forall (fun name s => s_name s = name /\ service_ok set1 s) m) as Hm1.
    { intros n x Hx. destruct (Hm n x Hx). split; [done|]. by apply (service_ok_grows set). }
    destruct (m !! s_name s); [done|]. by apply map_Forall_insert_2.
Qed.

Lemma BuildServicesSet_ok m l : forall ss names, BuildServicesSet m l = Some (ss, names) ->
  Forall2 (fun s name => m !! name = Some s) ss names.
Proof.
  induction l as [|j l IH]; intros ss names H; cbn in H; [injection H as <- <-; constructor|].
  destruct j; try done. destruct (m !! s) eqn:E; [|done]. cbn in H.
  destruct (BuildServicesSet m l) as [[ss1 names1]|]; [|done]. cbn in H. injection H as <- <-.
  constructor; [done|by apply IH].
Qed.

Lemma BuildServicesSets_ok d : forall c c', conf_ok c -> BuildServicesSets_ c d = Some c' -> conf_ok c'.
Proof.
  induction d as [|[key j] d IH]; intros c c' Hc H; cbn in H; [by injection H as <-|].
  destruct j; try done. destruct (BuildServicesSet (services_ c) l) as [[ss names]|] eqn:E; [|done]. cbn in H.
  apply IH in H; [done|]. destruct Hc as [C1 C2 C3]. split; cbn; [done|done|].
  intros set ss'. destruct (decide (key = set)) as [->|Hne].
  - rewrite !lookup_insert_eq. intros [= <-]. exists names. split; [done|by apply (BuildServicesSet_ok _ l)].
  - rewrite !lookup_insert_ne by done. apply C3.
Qed.

Lemma int_field_spec conf key ok v : int_field conf key ok = Some v -> ok v = true.
Proof. unfold int_field. destruct (field conf key); try done. destruct (ok z) eqn:E; [|done]. by intros [= <-]. Qed.

(** What the checks of normal.conf give. *)
Lemma ConfNormal_Init_ok j a0 cn : ConfNormal_Init j a0 = Some cn ->
  0 < num_schedulers_ cn /\ 0 < num_agents_ cn /\ 0 <= cn_ctimeo_ms cn /\ 0 <= cn_wtimeo_ms cn /\
  0 <= cn_rtimeo_ms cn /\ 0 <= client_keepalive_sec_ cn /\ 0 < default_weight_ cn.
Proof.
  unfold ConfNormal_Init. destruct j as [[]|]; cbn [mbind option_bind]; try done. intros H.
  repeat match type of H with
  | ((int_field ?c ?k ?o) ≫= _) = _ =>
      destruct (int_field c k o) eqn:?; cbn [mbind option_bind] in H; [|done]
  | (?m ≫= _) = _ => destruct m; cbn [mbind option_bind] in H; [|done]
  end.
  injection H as <-. cbn.
  repeat match goal with E : int_field _ _ _ = Some _ |- _ => apply int_field_spec in E end.
  unfold positive, nonneg in *. repeat match goal with
  | E : negb (_ <=? _) = true |- _ => apply negb_true_iff, Z.leb_gt in E
  | E : negb (_ <? _) = true |- _ => apply negb_true_iff, Z.ltb_ge in E end.
  split_and!; done.
Qed.

(** C37: a service configuration that is accepted is complete: its remotes are
    distinct and at most as many as the connection manager's table is made for,
    every service has a protocol, a strategy and a total weight that is the sum
    of its remotes' weights, all remotes of all services are known, and every
    set refers to services that exist. *)
Theorem conf_accepted_ok jn js a0 a1 cn c :
  ConfNormal_Init jn a0 = Some cn -> ConfServices_Init js cn a1 = Some c -> conf_ok c.
Proof using All.
  intros HN H. apply ConfNormal_Init_ok in HN as (_ & _ & _ & _ & _ & _ & Hd).
  unfold ConfServices_Init in H. destruct js as [[]|]; cbn [mbind option_bind] in H; try done.
  destruct (field _ "services"); try done. destruct (field _ "services_sets"); try done.
  destruct (BuildServices_ cn [] ∅ 0 d0 a1) as [[set m]|] eqn:E; [|done]. cbn in H.
  apply BuildServices_ok in E as [S K]; [|lia|split; [constructor|cbn; unfold kNumRemotes; lia]|done].
  apply (BuildServicesSets_ok _ _ _) in H; [done|]. split; cbn; [done|done|]. intros ? ? Hx. by rewrite lookup_empty in Hx.
Qed.

End Confs.

(** ** Small configurations *)

#[local] Instance loopback : InetAddr := {| inet_addr := fun _ => 16777343 |}.
Definition ex_normal : Json := JDict
  [("num_schedulers", JInt 1); ("num_agents", JInt 1); ("client_keepalive_sec", JInt 60);
   ("max_num_clients_keepalive", JInt 10); ("long_conn_keepalive_sec", JInt 60); ("ctimeo_ms", JInt 10);
   ("wtimeo_ms", JInt 10); ("rtimeo_ms", JInt 10); ("listen_addrs", JDict [("web|rapid", JStr "127.0.0.1:80")]);
   ("size_scheduler_mailbox", JInt 1000000); ("size_agent_mailbox", JInt 1000000); ("size_stack", JInt 65536);
   ("low_latency", JInt 1); ("default_long_conns", JInt 2); ("default_weight", JInt 1)]%string.
Definition ex_services (w : Z) : Json := JDict
  [("services", JDict [("kv|redis", JDict [("remotes", JList
       [JDict [("addr", JStr "127.0.0.1:6379"); ("weight", JInt w)]; JDict [("addr", JStr "127.0.0.1:6380"); ("weight", JInt w)]])])]);
   ("services_sets", JDict [("all", JList [JStr "kv"])])]%string.
Definition no_addr : Protocol.Addr := Protocol.mkAddr 0 0 0.

Definition ex_conf (w : Z) : option ConfServices :=
  cn ← ConfNormal_Init (Some ex_normal) no_addr; ConfServices_Init (Some (ex_services w)) cn no_addr.

Lemma conf_accepted_ok_witness : exists c, ex_conf 3 = Some c /\ conf_ok c /\ length (remotes_ c) = 2%nat.
Proof.
  destruct (ConfNormal_Init (Some ex_normal) no_addr) as [cn|] eqn:E; [|vm_compute in E; discriminate].
  destruct (ConfServices_Init (Some (ex_services 3)) cn no_addr) as [c|] eqn:E2;
    [|vm_compute in E; injection E as <-; vm_compute in E2; discriminate].
  exists c. split_and!.
  - unfold ex_conf. rewrite E. exact E2.
  - exact (conf_accepted_ok (Some ex_normal) (Some (ex_services 3)) no_addr no_addr cn c E E2).
  - vm_compute in E. injection E as <-. vm_compute in E2. injection E2 as <-. reflexivity.
Defined.

(** A service whose remotes all have weight 0 is accepted, and choosing one of
    them divides by zero. *)
Lemma zero_weight_divides `{!Rand} m : ConnsMgr.unhealthy_guys_ m = [] ->
  exists c s, ex_conf 0 = Some c /\ GetService c "kv"%string = Some s /\ ConnsMgr.GetRemote_ m s [] = None.
Proof.
  intros Hm. destruct (ex_conf 0) as [c|] eqn:E; [|vm_compute in E; discriminate].
  vm_compute in E. injection E as <-. eexists _, _. split; [done|]. split; [vm_compute; reflexivity|].
  unfold ConnsMgr.GetRemote_, ConnsMgr.GetRemoteWeight_. cbn [service_strategy weight_all]. by rewrite Hm.
Qed.
End Confs.

(** ** DelayDelPtr: versions of a shared object *)

Module DelayDelPtr.

Record DelayDelPtr := mkDelay {
  delay_del_time_in_sec_ : Z;
  to_delete_ : bool;
  obj_ : option Z;
  version_ : Z;
  delay_del_ptr_map_ : gmap Z (Z * Z);
}.

Definition kDefaultDelayDelTimeSec : Z := 60.
Definition DelayDelPtr_new (obj : option Z) (to_delete : bool) (delay : Z) : DelayDelPtr :=
  mkDelay delay to_delete obj 0 ∅.

(** The entries that are older than the delay, and the others. *)
Definition expired (delay now : Z) (e : Z * Z) : Prop := delay < now - e.2.
#[global] Instance expired_dec delay now e : Decision (expired delay now e).
Proof. unfold expired. apply _. Defined.

(** [Change] at time [now]: the new state and the objects it deletes. *)
Definition Change (p : DelayDelPtr) (obj now : Z) : DelayDelPtr * list Z :=
  let m := delay_del_ptr_map_ p in
  let kept := filter (fun kv => ~ expired (delay_del_time_in_sec_ p) now kv.2) m in
  let gone := filter (fun kv => expired (delay_del_time_in_sec_ p) now kv.2) m in
  let deleted := if to_delete_ p then (fun kv => kv.2.1) <$> map_to_list gone else [] in
  match obj_ p with
  | Some o =>
      let kept := match kept !! version_ p with Some _ => kept | None => <[version_ p := (o, now)]> kept end in
      ({| delay_del_time_in_sec_ := delay_del_time_in_sec_ p; to_delete_ := to_delete_ p; obj_ := Some obj;
          version_ := u64 (version_ p + 1); delay_del_ptr_map_ := kept |}, deleted)
  | None =>
      ({| delay_del_time_in_sec_ := delay_del_time_in_sec_ p; to_delete_ := to_delete_ p; obj_ := Some obj;
          version_ := version_ p; delay_del_ptr_map_ := kept |}, deleted)
  end.

Definition kLatest : Z := 2 ^ 64 - 1.
Definition Get (p : DelayDelPtr) (version : Z) : option Z :=
  if (version_ p =? version) || (version =? kLatest) then obj_ p
  else fst <$> delay_del_ptr_map_ p !! version.

(** Versions are handed out in order. *)
Definition dd_ok (p : DelayDelPtr) : Prop :=
  0 <= version_ p < kLatest /\ forall v e, delay_del_ptr_map_ p !! v = Some e -> v < version_ p.

Definition run (p : DelayDelPtr) (changes : list (Z * Z)) : DelayDelPtr :=
  fold_left (fun p c => (Change p c.1 c.2).1) changes p.

Lemma Change_version p obj now o : dd_ok p -> version_ p + 1 < kLatest -> obj_ p = Some o ->
  let p' := (Change p obj now).1 in
  dd_ok p' /\ version_ p' = version_ p + 1 /\ obj_ p' = Some obj /\
  delay_del_time_in_sec_ p' = delay_del_time_in_sec_ p /\
  delay_del_ptr_map_ p' !! version_ p = Some (o, now) /\
  forall v e, delay_del_ptr_map_ p !! v = Some e -> now - e.2 <= delay_del_time_in_sec_ p ->
    delay_del_ptr_map_ p' !! v = Some e.
Proof.
  intros [Hv Hm] Hb Ho. unfold Change. rewrite Ho. cbn zeta.
  set (kept := filter _ _).
  assert (forall v e, kept !! v = Some e -> v < version_ p) as Hk.
  { intros v e [He _]%map_lookup_filter_Some. by apply (Hm v e). }
  assert (kept !! version_ p = None) as N.
  { destruct (kept !! version_ p) as [e|] eqn:E; [|done]. apply Hk in E. lia. }
  rewrite N. cbn [fst version_ obj_ delay_del_time_in_sec_ delay_del_ptr_map_].
  rewrite uwrap_small by (unfold in_uint, kLatest in *; lia). split_and!; try done.
  - split; cbn; [lia|]. intros v e. destruct (decide (v = version_ p)) as [->|Hne].
    + intros _. lia.
    + rewrite lookup_insert_ne by done. intros H%Hk. lia.
  - apply lookup_insert_eq.
  - intros v e He Hn. pose proof (Hm v e He). rewrite lookup_insert_ne by lia.
    apply map_lookup_filter_Some. split; [done|]. unfold expired. cbn. lia.
Qed.

Lemma run_keeps changes : forall p v e, dd_ok p -> is_Some (obj_ p) ->
  version_ p + Z.of_nat (length changes) < kLatest ->
  delay_del_ptr_map_ p !! v = Some e -> Forall (fun c => c.2 - e.2 <= delay_del_time_in_sec_ p) changes ->
  delay_del_ptr_map_ (run p changes) !! v = Some e /\ version_ (run p changes) = version_ p + Z.of_nat (length changes).
Proof.
  induction changes as [|[obj now] cs IH]; intros p v e Hok [o Ho] Hb He F; [cbn; split; [done|lia]|].
  inversion_clear F as [|? ? F1 F2]. cbn [length] in Hb. cbn [fst snd] in F1.
  destruct (Change_version p obj now o Hok ltac:(lia) Ho) as (Hok' & V & O & D & _ & K).
  destruct (IH (Change p obj now).1 v e Hok') as [I1 I2].
  - eauto.
  - rewrite V. lia.
  - by apply K.
  - by rewrite D.
  - cbn [run fold_left]. split; [exact I1|]. cbn [length]. transitivity (version_ (run (Change p obj now).1 cs)); [done|].
    rewrite I2, V. lia.
Qed.

(** A request that remembers the version it started with gets the same
    object for as long as the delay after that version was replaced, whatever
    is loaded in between; a request without a version gets the latest one. *)
Theorem version_survives p o obj now changes :
  dd_ok p -> obj_ p = Some o -> version_ p + Z.of_nat (S (length changes)) < kLatest ->
  Forall (fun c => c.2 - now <= delay_del_time_in_sec_ p) changes ->
  let p' := run (Change p obj now).1 changes in
  Get p (version_ p) = Some o /\ Get p' (version_ p) = Some o /\
  Get p' kLatest = Some (List.last ((obj, now) :: changes) (obj, now)).1.
Proof.
  intros Hok Ho Hb F p'. destruct (Change_version p obj now o Hok ltac:(lia) Ho) as (Hok' & V & O & D & L & K).
  destruct (run_keeps changes (Change p obj now).1 (version_ p) (o, now) Hok') as [R1 R2];
    [eauto|rewrite V; lia|done|by rewrite D|]. fold p' in R1, R2. split_and!.
  - unfold Get. by rewrite Z.eqb_refl.
  - unfold Get. rewrite R2, V, (proj2 (Z.eqb_neq _ _)) by lia.
    rewrite (proj2 (Z.eqb_neq _ _)) by (destruct Hok; lia). cbn [orb]. by rewrite R1.
  - unfold Get. rewrite Z.eqb_refl, orb_true_r. unfold p'. clear -Hok' O V Hb.
    set (q := (Change p obj now).1) in *. assert (version_ q + Z.of_nat (length changes) < kLatest) as Hb' by lia.
    clearbody q. clear V Hb. revert q obj O Hok' Hb'. induction changes as [|[obj2 now2] cs IH]; intros q obj O Hok Hb; [done|].
    cbn [length] in Hb. destruct (Change_version q obj2 now2 obj Hok ltac:(lia) O) as (Hok2 & V2 & O2 & _).
    transitivity (obj_ (run (Change q obj2 now2).1 cs)); [done|].
    rewrite (IH _ obj2 O2 Hok2 ltac:(rewrite V2; lia)). destruct cs as [|c cs]; [done|]. cbn [List.last].
    f_equal. clear. revert c. induction cs as [|c' cs IH]; intros c; [done|]. apply IH.
Qed.

Lemma version_survives_witness :
  let p := DelayDelPtr_new (Some 7) true kDefaultDelayDelTimeSec in
  let p' := run (Change p 8 100).1 [(9, 130)] in
  Get p 0 = Some 7 /\ Get p' 0 = Some 7 /\ Get p' kLatest = Some 9.
Proof.
  apply (version_survives (DelayDelPtr_new (Some 7) true kDefaultDelayDelTimeSec) 7 8 100 [(9, 130)]).
  - split; [cbn; unfold kLatest; lia|]. intros v e H. cbn in H. by rewrite lookup_empty in H.
  - reflexivity.
  - vm_compute. reflexivity.
  - repeat constructor. cbn. unfold kDefaultDelayDelTimeSec. lia.
Defined.
End DelayDelPtr.
