(* ===== verification/Versions.v ===== *)
(** * Versions: the services, loaded again while requests run

    Models src/src/confs/details/versioned_conf_services.cpp and confs.cpp: a
    configuration is built in a new object and becomes the latest version; the
    versions it replaces stay for the requests that started with them, until
    they are deleted by a later load. *)

From Stdlib Require Import ZArith Lia String.
From stdpp Require Import base list gmap strings numbers option.
From S2P Require Import Prelude Protocol Model PoolObjs Confs.
Import Json.

Module VersionedConfServices.
Import Confs DelayDelPtr.

(** The versions and the configurations they point at. *)
Record Versioned := mkVersioned { confs_ : DelayDelPtr; objects : Store.Store ConfServices }.
Definition Versioned_new : Versioned := mkVersioned (DelayDelPtr_new None true kDefaultDelayDelTimeSec) Store.nothing.

Definition on_objects {A} (m : M (Store.Store ConfServices) A) : M Versioned A := zoom objects (fun o s => mkVersioned (confs_ s) o) m.
Fixpoint delete_all (l : list Z) : M (Store.Store ConfServices) () :=
  match l with [] => mret () | p :: l => Store.free p;; delete_all l end.
(** [Change] of the versions, with the deletions it does. *)
Definition change (obj now : Z) : M Versioned () :=
  s ← gets id;
  let '(p, deleted) := Change (confs_ s) obj now in
  on_objects (delete_all deleted);;
  modify (fun s => mkVersioned p (objects s)).

Section Load.
Context `{IA : !InetAddr}.
(** [Load] at time [now], of a file whose contents are [services]; the object
    of a configuration that is refused is not deleted. *)
Definition Load (services : option Json) (cn : ConfNormal) (addr0 : Protocol.Addr) (now : Z) : M Versioned bool :=
  obj ← on_objects (Store.new ConfServices_new);
  match ConfServices_Init services cn addr0 with
  | None => mret false
  | Some c => on_objects (modify (Store.store obj c));; change obj now;; mret true
  end.
Definition GetConf (s : Versioned) (version : Z) : option ConfServices := p ← Get (confs_ s) version; Store.load (objects s) p.
Definition GetLatestConfVersion (s : Versioned) : Z := version_ (confs_ s).
(** [~DelayDelPtr]. *)
Definition delete_versions : M Versioned () :=
  s ← gets id;
  on_objects (delete_all ((fun e => e.2.1) <$> map_to_list (delay_del_ptr_map_ (confs_ s))));;
  match obj_ (confs_ s) with Some o => on_objects (Store.free o) | None => mret () end;;
  modify (fun s => mkVersioned (DelayDelPtr_new None true kDefaultDelayDelTimeSec) (objects s)).

(** [Confs::Init]. *)
Definition Confs_Init (normal services : option Json) (addr0 : Protocol.Addr) (now : Z) (s : Versioned) : option (bool * option ConfNormal * Versioned) :=
  match ConfNormal_Init normal addr0 with
  | None => Some (false, None, s)
  | Some cn => '(ret, s) ← Load services cn addr0 now s; Some (ret, Some cn, s)
  end.

(** *** Versions refine the list of accepted configurations *)

(** A history of loads: the time, and the contents of the file. *)
Fixpoint loads (cn : ConfNormal) (addr0 : Protocol.Addr) (l : list (Z * option Json)) : M Versioned () :=
  match l with [] => mret () | (now, j) :: l => Load j cn addr0 now;; loads cn addr0 l end.
(** The accepted ones, in order; version [v] is the one at position [v]. *)
Fixpoint accepted (cn : ConfNormal) (addr0 : Protocol.Addr) (l : list (Z * option Json)) : list (Z * ConfServices) :=
  match l with
  | [] => []
  | (now, j) :: l => match ConfServices_Init j cn addr0 with Some c => (now, c) :: accepted cn addr0 l | None => accepted cn addr0 l end
  end.

(** Version [v] was replaced at [t] and every later version was loaded within
    the delay after that. *)
Definition recent (acc : list (Z * ConfServices)) (v : nat) : Prop :=
  exists e, acc !! S v = Some e /\ Forall (fun e' => e'.1 - e.1 <= kDefaultDelayDelTimeSec) (drop (S (S v)) acc).

(** The versions [p] and the objects [o] after the loads of [acc]. *)
Record keeps_versions (acc : list (Z * ConfServices)) (s : Versioned) : Prop := {
  kv_ok : Store.ok (objects s);
  kv_delay : delay_del_time_in_sec_ (confs_ s) = kDefaultDelayDelTimeSec /\ to_delete_ (confs_ s) = true;
  kv_version : version_ (confs_ s) = Z.of_nat (pred (length acc));
  kv_latest : match acc !! pred (length acc) with
    | None => obj_ (confs_ s) = None
    | Some e => exists p, obj_ (confs_ s) = Some p /\ Store.load (objects s) p = Some e.2 /\
        forall v e', delay_del_ptr_map_ (confs_ s) !! v = Some e' -> e'.1 <> p
    end;
  kv_old v p t : delay_del_ptr_map_ (confs_ s) !! v = Some (p, t) -> 0 <= v < version_ (confs_ s) /\
    (exists e, acc !! Z.to_nat v = Some e /\ Store.load (objects s) p = Some e.2) /\ (exists e, acc !! S (Z.to_nat v) = Some e /\ e.1 = t);
  kv_once v v' e e' : delay_del_ptr_map_ (confs_ s) !! v = Some e -> delay_del_ptr_map_ (confs_ s) !! v' = Some e' -> e.1 = e'.1 -> v = v';
  kv_recent v : recent acc v -> is_Some (delay_del_ptr_map_ (confs_ s) !! Z.of_nat v);
}.

Lemma delete_all_run l : forall (o : Store.Store ConfServices), Store.ok o -> NoDup l -> (forall p, p ∈ l -> is_Some (Store.load o p)) ->
  exists o', delete_all l o = Some ((), o') /\ Store.ok o' /\ forall p, Store.load o' p = if decide (p ∈ l) then None else Store.load o p.
Proof.
  induction l as [|p l IH]; intros o Ok Nd Hl; [exists o; split_and!; [done|done|]; intros q; by rewrite decide_False by apply not_elem_of_nil|].
  apply list.NoDup_cons in Nd as [Np Nd]. destruct (Hl p (list_elem_of_here _ _)) as [c Lc]. unfold Store.load in Lc.
  assert (Store.free p o = Some ((), Store.mkStore (delete p (Store.objs o)) (Store.next o))) as Ef by (unfold Store.free; by rewrite Lc).
  cbn [delete_all]. mrun Ef. destruct (IH (Store.mkStore (delete p (Store.objs o)) (Store.next o))) as (o' & E & Ok' & Lo); [|done|..].
  - destruct Ok as [N B]. split; [done|]. intros q [c' Hq]. cbn in Hq. apply lookup_delete_Some in Hq as [_ Hq]. apply B. eauto.
  - intros q Hq. unfold Store.load. cbn. rewrite lookup_delete_ne by (intros <-; done). apply Hl. by apply list_elem_of_further.
  - exists o'. split_and!; [done|done|]. intros q. rewrite Lo. unfold Store.load. cbn. destruct (decide (q = p)) as [->|D].
    + rewrite decide_False, decide_True by (done || apply list_elem_of_here). by rewrite lookup_delete_eq.
    + rewrite lookup_delete_ne by done. destruct (decide (q ∈ l)) as [H|H]; [by rewrite decide_True by (by apply list_elem_of_further)|].
      rewrite decide_False; [done|]. by intros [->|]%elem_of_cons.
Qed.
(** The objects [Change] deletes. *)
Lemma expired_objects acc s now : keeps_versions acc s ->
  let gone := filter (fun kv => expired kDefaultDelayDelTimeSec now kv.2) (delay_del_ptr_map_ (confs_ s)) in
  let l := (fun kv => kv.2.1) <$> map_to_list gone in
  NoDup l /\ forall p, p ∈ l <-> exists v t, delay_del_ptr_map_ (confs_ s) !! v = Some (p, t) /\ expired kDefaultDelayDelTimeSec now (p, t).
Proof.
  intros K gone l. assert (forall kv, kv ∈ map_to_list gone <-> delay_del_ptr_map_ (confs_ s) !! kv.1 = Some kv.2 /\ expired kDefaultDelayDelTimeSec now kv.2) as G.
  { intros [v e]. rewrite elem_of_map_to_list. subst gone. by rewrite map_lookup_filter_Some. }
  split.
  - apply NoDup_fmap_2_strong; [|apply NoDup_map_to_list]. intros [v e] [v' e'] [G1 _]%G [G2 _]%G Ee. cbn in *.
    assert (v = v') as <- by (by eapply (kv_once _ _ K)). by simplify_eq.
  - intros p. subst l. rewrite list_elem_of_fmap. split.
    + intros ([v [q t]] & -> & [G1 G2]%G). by exists v, t.
    + intros (v & t & G1 & G2). exists (v, (p, t)). split; [done|]. by apply G.
Qed.

(** What [Change] leaves of the versions. *)
Lemma Change_map acc s obj now : keeps_versions acc s -> Z.of_nat (S (length acc)) < kLatest ->
  let p := (Change (confs_ s) obj now).1 in
  version_ p = Z.of_nat (length acc) /\ obj_ p = Some obj /\ delay_del_time_in_sec_ p = kDefaultDelayDelTimeSec /\ to_delete_ p = true /\
  forall v e, delay_del_ptr_map_ p !! v = Some e <->
    (exists o, v = version_ (confs_ s) /\ obj_ (confs_ s) = Some o /\ e = (o, now)) \/
    (delay_del_ptr_map_ (confs_ s) !! v = Some e /\ ~ expired kDefaultDelayDelTimeSec now e).
Proof.
  intros K Hb. destruct (kv_delay _ _ K) as [Hd Ht]. pose proof (kv_version _ _ K) as Hv. pose proof (kv_latest _ _ K) as Hl. unfold Change. rewrite Hd.
  set (kept := filter _ _). assert (forall v e, kept !! v = Some e <-> delay_del_ptr_map_ (confs_ s) !! v = Some e /\ ~ expired kDefaultDelayDelTimeSec now e) as Hk
    by (intros v e; subst kept; by rewrite map_lookup_filter_Some).
  destruct (obj_ (confs_ s)) as [o|] eqn:Ho; cbn [fst version_ obj_ delay_del_time_in_sec_ to_delete_ delay_del_ptr_map_].
  - assert (0 < length acc)%nat as Hn by (destruct acc; [done|cbn; lia]). assert (kept !! version_ (confs_ s) = None) as N.
    { destruct (kept !! _) as [[q t]|] eqn:E; [|done]. apply Hk in E as [E _]. apply (kv_old _ _ K) in E as (? & _). lia. }
    rewrite N, Hv, uwrap_small by (unfold in_uint, kLatest in *; lia). split_and!; [lia|done..|]. intros v e. rewrite lookup_insert_Some. split.
    + intros [[<- <-]|[_ E]]; [left; by exists o|right; by apply Hk].
    + intros [(o' & -> & [= <-] & ->)|E]; [by left|right]. split; [|by apply Hk]. destruct E as [E _], e as [q t]. apply (kv_old _ _ K) in E as (? & _). lia.
  - assert (acc = []) as -> by (destruct acc as [|e acc]; [done|]; destruct (lookup_lt_is_Some_2 (e :: acc) (pred (length (e :: acc)))) as [? E]; [cbn; lia|];
      rewrite E in Hl; by destruct Hl as (? & ? & _)).
    split_and!; try done. intros v e. rewrite Hk. split; [by right|]. intros [(? & _ & ? & _)|?]; done.
Qed.

(** The version that is about to be replaced. *)
Lemma latest_version acc s v o : keeps_versions acc s -> v = version_ (confs_ s) -> obj_ (confs_ s) = Some o ->
  (0 < length acc)%nat /\ Z.to_nat v = pred (length acc) /\
  exists e, acc !! pred (length acc) = Some e /\ Store.load (objects s) o = Some e.2 /\ forall v e', delay_del_ptr_map_ (confs_ s) !! v = Some e' -> e'.1 <> o.
Proof.
  intros K -> Ho. pose proof (kv_latest _ _ K) as Hl. rewrite (kv_version _ _ K), Nat2Z.id. rewrite Ho in Hl. destruct acc as [|e0 acc]; [done|].
  split_and!; [cbn; lia|done|]. destruct ((e0 :: acc) !! _) as [e|]; [|done]. destruct Hl as (q & [= <-] & ? & ?). by exists e.
Qed.

(** A version that was replaced recently is not deleted. *)
Lemma recent_kept acc s now c v : keeps_versions acc s -> recent (acc ++ [(now, c)]) v ->
  (Z.of_nat v = version_ (confs_ s) /\ (0 < length acc)%nat) \/
  exists e, delay_del_ptr_map_ (confs_ s) !! Z.of_nat v = Some e /\ ~ expired kDefaultDelayDelTimeSec now e.
Proof.
  intros K (e & Le & Fa). destruct (decide (S v < length acc)%nat) as [Lt|Ge].
  - rewrite lookup_app_l in Le by done. rewrite drop_app_le in Fa by lia. apply Forall_app in Fa as [Fa [Fn _]%list.Forall_cons].
    destruct (kv_recent _ _ K v) as [[p t] Ev]; [by exists e|]. right. exists (p, t). split; [done|].
    destruct (kv_old _ _ K _ _ _ Ev) as (_ & _ & (e' & Le' & <-)). rewrite Nat2Z.id in Le'. simplify_eq. unfold expired. cbn in *. lia.
  - left. apply lookup_lt_Some in Le. rewrite length_app in Le. cbn in Le. rewrite (kv_version _ _ K). lia.
Qed.

(** An accepted configuration becomes the next version. *)
Lemma change_run acc s c obj now : keeps_versions acc s -> Z.of_nat (S (length acc)) < kLatest -> Store.load (objects s) obj = Some c ->
  (forall v e, delay_del_ptr_map_ (confs_ s) !! v = Some e -> e.1 <> obj) -> obj_ (confs_ s) <> Some obj ->
  exists s', change obj now s = Some ((), s') /\ keeps_versions (acc ++ [(now, c)]) s'.
Proof.
  intros K Hb Lo Nm Nl. destruct (Change_map acc s obj now K Hb) as (F1 & F2 & F3 & F4 & F5). destruct (expired_objects acc s now K) as [Nd El].
  set (l := _ <$> map_to_list _) in *. assert ((Change (confs_ s) obj now).2 = l) as Ed.
  { destruct (kv_delay _ _ K) as [Hd Ht]. unfold Change. rewrite Hd, Ht. by destruct (obj_ (confs_ s)). }
  destruct (delete_all_run l (objects s) (kv_ok _ _ K) Nd) as (o' & E & Ok & Lo').
  { intros p (v & t & Ev & _)%El. apply (kv_old _ _ K) in Ev as (_ & (e & _ & ?) & _). eauto. }
  assert (forall p, (forall v t, delay_del_ptr_map_ (confs_ s) !! v = Some (p, t) -> ~ expired kDefaultDelayDelTimeSec now (p, t)) ->
    Store.load o' p = Store.load (objects s) p) as Keep.
  { intros p Hp. rewrite Lo'. rewrite decide_False; [done|]. intros (v & t & E1 & E2)%El. by eapply Hp. }
  exists (mkVersioned (Change (confs_ s) obj now).1 o'). split.
  { unfold change. unfold mbind at 1, M_bind at 1. cbn [gets id]. destruct (Change (confs_ s) obj now) as [p del] eqn:Ec. cbn in Ed. subst del.
    assert (on_objects (delete_all l) s = Some ((), mkVersioned (confs_ s) o')) as R by (unfold on_objects; by rewrite (zoom_run _ _ _ _ _ _ E)). by mrun R. }
  pose proof (latest_version acc s) as New.
  split; cbn [objects confs_]; [done|done|rewrite F1, length_app; cbn; lia|..].
  - rewrite length_app, Nat.add_comm. cbn [length Nat.add pred]. rewrite list_lookup_middle by done. exists obj. split_and!; [done|cbn|].
    + rewrite Keep; [done|]. intros v t Ev _. by apply (Nm v (obj, t)).
    + intros v e [(o & _ & Ho & ->)|[Ev _]]%F5; cbn; [congruence|by eapply Nm].
  - intros v p t [(o & Hvv & Ho & [= -> ->])|[Ev Nx]]%F5.
    + destruct (New v o K Hvv Ho) as (Hn & Hz & e & Le & Lo2 & Np). rewrite F1. pose proof (kv_version _ _ K). split; [lia|]. rewrite Hz. split.
      * exists e. split; [by apply lookup_app_l_Some|]. rewrite Keep; [done|]. intros v' t' Ev' _. by apply (Np _ _ Ev').
      * exists (now, c). split; [|done]. replace (S (pred (length acc))) with (length acc) by lia. by apply list_lookup_middle.
    + destruct (kv_old _ _ K _ _ _ Ev) as (B & (e & Le & Lp) & (e' & Le' & He')). rewrite F1. apply lookup_lt_Some in Le' as Lt. split; [lia|]. split.
      * exists e. split; [by apply lookup_app_l_Some|]. rewrite Keep; [done|]. intros v' t' Ev'. assert (v = v') as <- by (by eapply (kv_once _ _ K)). by simplify_eq.
      * exists e'. split; [by apply lookup_app_l_Some|done].
  - intros v v' e e' [(o & -> & Ho & ->)|[Ev _]]%F5 [(o2 & -> & Ho' & ->)|[Ev' _]]%F5 Ee; [done|..|by eapply (kv_once _ _ K)]; cbn in Ee; exfalso.
    + destruct (New _ o K eq_refl Ho) as (_ & _ & ? & _ & _ & Np). by apply (Np _ _ Ev').
    + destruct (New _ o2 K eq_refl Ho') as (_ & _ & ? & _ & _ & Np). by apply (Np _ _ Ev).
  - intros v [[Hvv Hn]|(e & Ev & Nx)]%(recent_kept acc s now c v K); [|exists e; apply F5; by right].
    destruct (obj_ (confs_ s)) as [o|] eqn:Ho; [exists (o, now); apply F5; left; by exists o|]. pose proof (kv_latest _ _ K) as Hl.
    destruct (lookup_lt_is_Some_2 acc (pred (length acc))) as [e Le]; [lia|]. rewrite Le in Hl. destruct Hl as (? & ? & _). congruence.
Qed.
(** A new object changes nothing that the versions refer to. *)
Lemma fresh_object acc s c obj o : keeps_versions acc s -> Store.new c (objects s) = Some (obj, o) ->
  keeps_versions acc (mkVersioned (confs_ s) o) /\ (forall v e, delay_del_ptr_map_ (confs_ s) !! v = Some e -> e.1 <> obj) /\ obj_ (confs_ s) <> Some obj /\
  forall c', keeps_versions acc (mkVersioned (confs_ s) (Store.store obj c' o)).
Proof.
  intros K E. apply (Store.ok_new _ _ _ _ (kv_ok _ _ K)) in E as (Ok & _ & N & Eo & _).
  assert (forall v e, delay_del_ptr_map_ (confs_ s) !! v = Some e -> e.1 <> obj) as Nm.
  { intros v [p t] Ev. cbn. intros ->. destruct (kv_old _ _ K _ _ _ Ev) as (_ & (e & _ & L) & _). unfold Store.load in L. congruence. }
  assert (obj_ (confs_ s) <> Some obj) as No.
  { intros Ho. destruct (latest_version acc s _ obj K eq_refl Ho) as (_ & _ & e & _ & L & _). unfold Store.load in L. congruence. }
  assert (forall o', Store.ok o' -> (forall p, p <> obj -> Store.load o' p = Store.load (objects s) p) -> keeps_versions acc (mkVersioned (confs_ s) o')) as Up.
  { intros o' Ok' Hp. destruct K. split; try done; cbn [confs_ objects].
    - destruct (acc !! _) as [e|]; [|done]. destruct kv_latest0 as (p & Hpp & L & Np). exists p. rewrite Hp by congruence. by split_and!.
    - intros v p t Ev. destruct (kv_old0 _ _ _ Ev) as (B & (e & Le & L) & R). split_and!; [lia|lia| |done]. exists e. split; [done|].
      rewrite Hp; [done|]. by apply (Nm _ _ Ev). }
  split_and!; [|done|done|]; [|intros c']; apply Up; try done.
  - intros p D. unfold Store.load. rewrite Eo. by apply lookup_insert_ne.
  - apply Store.ok_store; [done|]. rewrite Eo, lookup_insert_eq. eauto.
  - intros p D. rewrite Store.load_store_ne by done. unfold Store.load. rewrite Eo. by apply lookup_insert_ne.
Qed.

Lemma Load_run acc s j cn addr0 now : keeps_versions acc s -> Z.of_nat (S (length acc)) < kLatest ->
  exists b s', Load j cn addr0 now s = Some (b, s') /\ keeps_versions (acc ++ accepted cn addr0 [(now, j)]) s'.
Proof.
  intros K Hb. unfold Load. destruct (Store.new ConfServices_new (objects s)) as [[obj o]|] eqn:En; [|done].
  assert (on_objects (Store.new ConfServices_new) s = Some (obj, mkVersioned (confs_ s) o)) as Rn by (unfold on_objects; by rewrite (zoom_run _ _ _ _ _ _ En)).
  mrun Rn. destruct (fresh_object _ _ _ _ _ K En) as (K1 & Nm & No & K2). cbn [accepted]. destruct (ConfServices_Init j cn addr0) as [c|].
  - destruct (change_run acc (mkVersioned (confs_ s) (Store.store obj c o)) c obj now (K2 c) Hb) as (s' & E & K'); [apply Store.load_store|done|done|].
    exists true, s'. split; [|done]. assert (on_objects (modify (Store.store obj c)) (mkVersioned (confs_ s) o) = Some ((), mkVersioned (confs_ s) (Store.store obj c o))) as Rs by done.
    mrun Rs. by mrun E.
  - exists false, (mkVersioned (confs_ s) o). split; [done|]. by rewrite app_nil_r.
Qed.

Lemma loads_run l : forall acc s cn addr0, keeps_versions acc s -> Z.of_nat (S (length acc + length l)) < kLatest ->
  exists s', loads cn addr0 l s = Some ((), s') /\ keeps_versions (acc ++ accepted cn addr0 l) s'.
Proof.
  induction l as [|[now j] l IH]; intros acc s cn addr0 K Hb; [exists s; by rewrite app_nil_r|]. cbn [length] in Hb.
  destruct (Load_run acc s j cn addr0 now K) as (b & s1 & E1 & K1); [lia|]. cbn [loads]. mrun E1.
  destruct (IH _ s1 cn addr0 K1) as (s2 & E2 & K2).
  { rewrite length_app. cbn [accepted]. destruct (ConfServices_Init j cn addr0); cbn [length]; lia. }
  exists s2. split; [done|]. rewrite <- app_assoc in K2. cbn [accepted] in *. by destruct (ConfServices_Init j cn addr0).
Qed.

Lemma new_keeps : keeps_versions [] Versioned_new.
Proof.
  split; try done; cbn; [apply Store.ok_nothing|..]; try by intros *; rewrite lookup_empty.
  by intros v (e & ? & _).
Qed.

(** C38: whatever files are loaded and whenever, no load faults (nothing is
    deleted twice), a refused file changes no version, the latest version is
    the last configuration that was accepted, and an older one can be had, with
    the contents it was accepted with, as long as every configuration that was
    accepted after the one that replaced it came within the delay of 60 seconds
    after that replacement. *)
Theorem versions_refine cn addr0 l : Z.of_nat (S (length l)) < kLatest ->
  let acc := accepted cn addr0 l in
  exists s, loads cn addr0 l Versioned_new = Some ((), s) /\ GetConf s kLatest = snd <$> acc !! pred (length acc) /\
    GetLatestConfVersion s = Z.of_nat (pred (length acc)) /\
    forall v e, recent acc v -> acc !! v = Some e -> GetConf s (Z.of_nat v) = Some e.2.
Proof using All.
  intros Hb acc. destruct (loads_run l [] Versioned_new cn addr0 new_keeps Hb) as (s & E & K). exists s. cbn [app] in K. fold acc in K. split; [done|].
  split_and!; [|apply (kv_version _ _ K)|].
  - unfold GetConf, Get. rewrite Z.eqb_refl, orb_true_r. pose proof (kv_latest _ _ K) as Hl. destruct (acc !! _) as [e|]; [|by rewrite Hl].
    destruct Hl as (p & -> & L & _). exact L.
  - intros v e Hr Le. destruct (kv_recent _ _ K v Hr) as [[p t] Ev]. destruct (kv_old _ _ K _ _ _ Ev) as (B & (e' & Le' & L) & _).
    rewrite Nat2Z.id in Le'. simplify_eq. unfold GetConf, Get. rewrite (proj2 (Z.eqb_neq _ _)) by lia. pose proof (kv_version _ _ K) as Hv.
    assert (length acc <= length l)%nat as La by (subst acc; clear; induction l as [|[? j] l IH]; cbn; [done|]; destruct (ConfServices_Init j cn addr0); cbn; lia).
    rewrite (proj2 (Z.eqb_neq _ _)) by lia. cbn [orb]. rewrite Ev. exact L.
Qed.
End Load.

#[local] Existing Instance Confs.loopback.

(** Three accepted files and one that cannot be read; the first configuration
    was replaced at 110 and the third came at 170. *)
Definition ex_loads : list (Z * option Json) :=
  [(100, Some (ex_services 3)); (105, None); (110, Some (ex_services 5)); (170, Some (ex_services 4))].
Definition ex_cn : ConfNormal :=
  ltac:(let c := eval vm_compute in (ConfNormal_Init (Some ex_normal) no_addr) in match c with Some ?x => exact x end).
Lemma versions_refine_witness : ConfNormal_Init (Some ex_normal) no_addr = Some ex_cn /\ exists s, loads ex_cn no_addr ex_loads Versioned_new = Some ((), s) /\
  GetLatestConfVersion s = 2 /\ GetConf s 0 = ConfServices_Init (Some (ex_services 3)) ex_cn no_addr.
Proof.
  split; [vm_compute; reflexivity|]. destruct (versions_refine ex_cn no_addr ex_loads ltac:(reflexivity)) as (s & E & _ & V & H). exists s.
  split; [exact E|]. split; [rewrite V; vm_compute; reflexivity|].
  change 0 with (Z.of_nat 0). rewrite (H 0%nat (100, default ConfServices_new (ConfServices_Init (Some (ex_services 3)) ex_cn no_addr))); [vm_compute; reflexivity| |vm_compute; reflexivity].
  exists (110, default ConfServices_new (ConfServices_Init (Some (ex_services 5)) ex_cn no_addr)). split; [vm_compute; reflexivity|].
  vm_compute. repeat constructor. discriminate.
Defined.

(** The object of a configuration that is refused stays, and no version refers
    to it. *)
Example refused_stays cn now : exists s, Load None cn no_addr now Versioned_new = Some (false, s) /\
  is_Some (Store.load (objects s) 1) /\ obj_ (confs_ s) = None /\ delay_del_ptr_map_ (confs_ s) = ∅.
Proof. eexists. split; [reflexivity|]. split; [eexists; reflexivity|done]. Qed.
End VersionedConfServices.
