(* ===== verification/PtrRace.v ===== *)
(** * PtrRace: versions of a shared object with several threads at once

    The code of delay_del_ptr.hpp, as in [DelayDelPtr] of Confs.v, one access to
    shared memory at a time: [Get] reads [version_] and [obj_] without the lock,
    [Change] writes them, one after the other, under it.  What is done to the map
    between two accesses to these two members, under the lock, is one step.  The
    lock is one that is initialised; what goes wrong while it is not is the
    subject of LockRace.v.  A call of [Lock] can fail, which the code does not
    look at: [LockFails] lets the thread go on without the lock.  A thread is the point it has
    reached with its local variables, a schedule says who moves. *)

From Stdlib Require Import ZArith Lia.
From stdpp Require Import base list gmap numbers option.
From S2P Require Import Prelude Confs.
Import DelayDelPtr.

Module PtrRace.

Inductive Point :=
| Idle
| GetVersion (version : Z)
| GetObj (version : Z)
| GetLock (version : Z) | GetFind (version : Z) | GetUnlock (version : Z) (obj : option Z)
| Got (version : Z) (obj : option Z)
| ChangeLock (obj now : Z) | ChangeClean (obj now : Z) | ChangeInsert (obj now : Z)
| ChangeObj (obj : Z) (inc : bool) | ChangeVersion | ChangeUnlock.

(** [began]: how many versions there were when the call began. *)
Record Thread := mkThread { pc : Point; began : Z }.
Definition published (p : DelayDelPtr) : Z := match obj_ p with None => 0 | Some _ => version_ p + 1 end.

(** An object that was deleted: its version, when it was replaced, and the time of
    the [Change] that deleted it. *)
Record Deleted := mkDeleted { d_version : Z; d_obj : Z; d_replaced : Z; d_now : Z }.

(** [objects]: all objects, in the order in which they became the current one. *)
Record State := mkState {
  shared : DelayDelPtr;
  lock_map_ : option nat;
  threads : list Thread;
  objects : list Z;
  deleted : list Deleted;
}.

Definition with_obj (p : DelayDelPtr) (o : Z) : DelayDelPtr :=
  mkDelay (delay_del_time_in_sec_ p) (to_delete_ p) (Some o) (version_ p) (delay_del_ptr_map_ p).
Definition with_version (p : DelayDelPtr) (v : Z) : DelayDelPtr :=
  mkDelay (delay_del_time_in_sec_ p) (to_delete_ p) (obj_ p) v (delay_del_ptr_map_ p).
Definition with_map (p : DelayDelPtr) (m : gmap Z (Z * Z)) : DelayDelPtr :=
  mkDelay (delay_del_time_in_sec_ p) (to_delete_ p) (obj_ p) (version_ p) m.

(** The loop over the map: the entries that are kept and those that are not. *)
Definition kept (p : DelayDelPtr) (now : Z) : gmap Z (Z * Z) :=
  filter (fun kv => ~ expired (delay_del_time_in_sec_ p) now kv.2) (delay_del_ptr_map_ p).
Definition dropped (p : DelayDelPtr) (now : Z) : list Deleted :=
  (fun kv => mkDeleted kv.1 kv.2.1 kv.2.2 now) <$>
    map_to_list (filter (fun kv => expired (delay_del_time_in_sec_ p) now kv.2) (delay_del_ptr_map_ p)).
(** [insert] of the standard map keeps an entry that is there. *)
Definition insert_old (p : DelayDelPtr) (o now : Z) : gmap Z (Z * Z) :=
  match delay_del_ptr_map_ p !! version_ p with
  | Some _ => delay_del_ptr_map_ p
  | None => <[version_ p := (o, now)]> (delay_del_ptr_map_ p)
  end.

(** One access of thread [i]. *)
Definition access (i : nat) (st : State) (x : Point) : Point * DelayDelPtr * option nat * list Z * list Deleted :=
  let p := shared st in
  let stay y := (y, p, lock_map_ st, objects st, deleted st) in
  let take y := match lock_map_ st with None => (y, p, Some i, objects st, deleted st) | Some _ => stay x end in
  match x with
  | Idle => stay Idle
  | GetVersion v => stay (if (version_ p =? v) || (v =? kLatest) then GetObj v else GetLock v)
  | GetObj v => stay (Got v (obj_ p))
  | GetLock v => take (GetFind v)
  | GetFind v => stay (GetUnlock v (fst <$> delay_del_ptr_map_ p !! v))
  | GetUnlock v o => (Got v o, p, None, objects st, deleted st)
  | Got v o => stay Idle
  | ChangeLock o now => take (ChangeClean o now)
  | ChangeClean o now => (ChangeInsert o now, with_map p (kept p now), lock_map_ st, objects st, deleted st ++ dropped p now)
  | ChangeInsert o now =>
      match obj_ p with
      | Some old => (ChangeObj o true, with_map p (insert_old p old now), lock_map_ st, objects st, deleted st)
      | None => stay (ChangeObj o false)
      end
  | ChangeObj o inc => (if inc then ChangeVersion else ChangeUnlock, with_obj p o, lock_map_ st, objects st ++ [o], deleted st)
  | ChangeVersion => (ChangeUnlock, with_version p (u64 (version_ p + 1)), lock_map_ st, objects st, deleted st)
  | ChangeUnlock => (Idle, p, None, objects st, deleted st)
  end.

(** [time] is called at the beginning of [Change]. *)
Inductive Label := CallGet (i : nat) (version : Z) | CallChange (i : nat) (obj now : Z) | Run (i : nat) | LockFails (i : nat).
(** [Lock] returned false and nobody looked. *)
Definition unlocked (x : Point) : Point :=
  match x with GetLock v => GetFind v | ChangeLock o now => ChangeClean o now | x => x end.

Definition enter (st : State) (i : nat) (x : Point) : State :=
  match threads st !! i with
  | Some (mkThread Idle _) =>
      mkState (shared st) (lock_map_ st) (<[i := mkThread x (published (shared st))]> (threads st)) (objects st) (deleted st)
  | _ => st
  end.
Definition step (st : State) (l : Label) : State :=
  match l with
  | CallGet i v => enter st i (GetVersion v)
  | CallChange i o now => enter st i (ChangeLock o now)
  | Run i =>
      match threads st !! i with
      | Some t =>
          let '(y, p, k, os, ds) := access i st (pc t) in
          mkState p k (<[i := mkThread y (began t)]> (threads st)) os ds
      | None => st
      end
  | LockFails i =>
      match threads st !! i with
      | Some t => mkState (shared st) (lock_map_ st) (<[i := mkThread (unlocked (pc t)) (began t)]> (threads st)) (objects st) (deleted st)
      | None => st
      end
  end.
Definition exec (st : State) (ls : list Label) : State := fold_left step ls st.
Definition start (n : nat) (delay : Z) : State :=
  mkState (DelayDelPtr_new None true delay) None (replicate n (mkThread Idle 0)) [] [].

(** ** One thread alone: the operations of Confs.v *)

Definition runs (k i : nat) : list Label := replicate k (Run i).

Lemma exec_app st l1 l2 : exec st (l1 ++ l2) = exec (exec st l1) l2.
Proof. apply fold_left_app. Qed.

(** A step of the thread whose point is known. *)
Lemma step_at p k ts os ds i x b : (i < length ts)%nat ->
  step (mkState p k (<[i := mkThread x b]> ts) os ds) (Run i) =
  let '(y, p', k', os', ds') := access i (mkState p k [] os ds) x in mkState p' k' (<[i := mkThread y b]> ts) os' ds'.
Proof.
  intros L. cbn [step threads]. rewrite list_lookup_insert_eq by done. cbn [pc began].
  assert (access i (mkState p k (<[i := mkThread x b]> ts) os ds) x = access i (mkState p k [] os ds) x) as -> by (by destruct x).
  destruct (access _ _ _) as [[[[y p'] k'] os'] ds']. cbn [threads]. by rewrite list_insert_insert_eq.
Qed.

Lemma enter_idle st i b x : threads st !! i = Some (mkThread Idle b) ->
  enter st i x = mkState (shared st) (lock_map_ st) (<[i := mkThread x (published (shared st))]> (threads st)) (objects st) (deleted st).
Proof. intros E. unfold enter. by rewrite E. Qed.

(** [Change] alone is that of Confs.v. *)
Lemma change_alone st i b o now : threads st !! i = Some (mkThread Idle b) -> lock_map_ st = None ->
  let st' := exec st (CallChange i o now :: runs 7 i) in
  shared st' = (Change (shared st) o now).1 /\ lock_map_ st' = None /\ pc <$> threads st' !! i = Some Idle /\
  objects st' = objects st ++ [o].
Proof.
  intros E L. assert (i < length (threads st))%nat as Li by (by eapply lookup_lt_Some).
  unfold exec. cbn [fold_left runs replicate]. change (step st (CallChange i o now)) with (enter st i (ChangeLock o now)).
  rewrite (enter_idle st i b _ E), L.
  rewrite step_at by done. cbn [access lock_map_]. rewrite step_at by done. cbn [access shared lock_map_ objects deleted].
  rewrite step_at by done. cbn [access shared lock_map_ objects deleted].
  unfold Change. change (obj_ (with_map (shared st) _)) with (obj_ (shared st)). destruct (obj_ (shared st)) as [old|].
  all: repeat (rewrite step_at by done; cbn [access shared lock_map_ objects deleted]).
  all: cbn [shared lock_map_ threads objects]; rewrite list_lookup_insert_eq by done; done.
Qed.

(** [Get] alone is that of Confs.v: five steps lead to its result. *)
Lemma get_alone st i b v : threads st !! i = Some (mkThread Idle b) -> lock_map_ st = None ->
  exists k, let st' := exec st (CallGet i v :: runs k i) in
  pc <$> threads st' !! i = Some (Got v (Get (shared st) v)) /\ shared st' = shared st /\ lock_map_ st' = None.
Proof.
  intros E L. assert (i < length (threads st))%nat as Li by (by eapply lookup_lt_Some).
  unfold Get. destruct ((version_ (shared st) =? v) || (v =? kLatest)) eqn:V; [exists 2%nat|exists 4%nat];
    unfold exec; cbn [fold_left runs replicate]; change (step st (CallGet i v)) with (enter st i (GetVersion v));
    rewrite (enter_idle st i b _ E), L.
  all: rewrite step_at by done; cbn [access shared lock_map_ objects deleted]; rewrite V.
  all: repeat (rewrite step_at by done; cbn [access shared lock_map_ objects deleted]).
  all: cbn [shared lock_map_ threads]; rewrite list_lookup_insert_eq by done; done.
Qed.

Definition ex_alone : State := exec (start 2 60) (CallChange 0 7 100 :: runs 6 0 ++ CallChange 0 8 130 :: runs 7 0 ++ CallChange 0 9 191 :: runs 7 0).
Example ex_alone_ok :
  shared ex_alone = (Change (Change (Change (DelayDelPtr_new None true 60) 7 100).1 8 130).1 9 191).1 /\
  objects ex_alone = [7; 8; 9] /\ deleted ex_alone = [mkDeleted 0 7 130 191].
Proof. vm_compute. done. Qed.

(** ** The invariant *)

(** Versions do not come round. *)
Definition fresh (st : State) : Prop := Z.of_nat (length (objects st)) < kLatest.
(** A version is a [size_t], and [Lock] does not fail. *)
Definition regular (l : Label) : Prop := match l with CallGet _ v => 0 <= v <= kLatest | LockFails _ => False | _ => True end.
Inductive reach (st0 : State) : State -> Prop :=
| reach_start : reach st0 st0
| reach_step st l : reach st0 st -> regular l -> fresh (step st l) -> reach st0 (step st l).

Definition critical (x : Point) : Prop :=
  match x with
  | GetFind _ | GetUnlock _ _ | ChangeClean _ _ | ChangeInsert _ _ | ChangeObj _ _ | ChangeVersion | ChangeUnlock => True
  | _ => False
  end.
(** The old object is in the map, and its version is still the current one. *)
Definition inserting (x : Point) : Prop := match x with ChangeObj _ true | ChangeVersion => True | _ => False end.
(** The point of the thread that holds the lock. *)
Definition phase (st : State) : Point :=
  match lock_map_ st with
  | None => Idle
  | Some i => match threads st !! i with Some t => pc t | None => Idle end
  end.

Definition was_deleted (ds : list Deleted) (v : Z) : Prop := exists d, d ∈ ds /\ d_version d = v.

Record shared_ok (ph : Point) (p : DelayDelPtr) (os : list Z) (ds : list Deleted) : Prop := {
  so_obj : obj_ p = os !! pred (length os);
  so_version : version_ p = Z.of_nat (length os) - (match ph with ChangeVersion => 2 | _ => if decide (os = []) then 0 else 1 end);
  so_two : ph = ChangeVersion -> (2 <= length os)%nat;
  so_map : forall v e, delay_del_ptr_map_ p !! v = Some e ->
    (exists k, v = Z.of_nat k /\ os !! k = Some e.1) /\ (v < version_ p \/ (v = version_ p /\ inserting ph));
  so_inserted : inserting ph -> is_Some (delay_del_ptr_map_ p !! version_ p) /\ os <> [];
  so_first : forall o, ph = ChangeObj o false -> os = [];
  so_past : forall k, Z.of_nat k < version_ p -> is_Some (delay_del_ptr_map_ p !! Z.of_nat k) \/ was_deleted ds (Z.of_nat k);
  so_deleted : forall d, d ∈ ds -> (exists k, d_version d = Z.of_nat k /\ os !! k = Some (d_obj d)) /\ d_version d < version_ p /\
    delay_del_time_in_sec_ p < d_now d - d_replaced d /\ delay_del_ptr_map_ p !! d_version d = None;
  so_once : NoDup (d_version <$> ds);
}.

(** What [Get] may return. *)
Definition result (os : list Z) (ds : list Deleted) (b v : Z) (r : option Z) : Prop :=
  match r with
  | Some o => exists k, os !! k = Some o /\ (if decide (v = kLatest) then b <= Z.of_nat k + 1 else v <= Z.of_nat k)
  | None => if decide (v = kLatest) then b = 0 else was_deleted ds v \/ b <= v
  end.

Definition thread_ok (st : State) (t : Thread) : Prop :=
  0 <= began t <= published (shared st) /\
  match pc t with
  | GetVersion v => 0 <= v
  | GetObj v => 0 <= v /\ (v <> kLatest -> v <= version_ (shared st))
  | GetLock v | GetFind v => 0 <= v /\ v <> kLatest /\ (v < version_ (shared st) \/ began t <= v)
  | GetUnlock v r | Got v r => result (objects st) (deleted st) (began t) v r
  | _ => True
  end.

Record ok (st : State) : Prop := {
  ok_lock : forall i t, threads st !! i = Some t -> critical (pc t) <-> lock_map_ st = Some i;
  ok_owner : forall i, lock_map_ st = Some i -> is_Some (threads st !! i);
  ok_shared : shared_ok (phase st) (shared st) (objects st) (deleted st);
  ok_thread : forall i t, threads st !! i = Some t -> thread_ok st t;
}.

Lemma ptr_start_ok n delay : ok (start n delay).
Proof.
  assert (forall i t, threads (start n delay) !! i = Some t -> t = mkThread Idle 0) as H.
  { intros i t E. by apply lookup_replicate in E as [-> _]. }
  split; cbn [lock_map_ start].
  - intros i t ->%H. done.
  - done.
  - split; cbn; try done; try (intros; lia).
    + intros d Hd. by apply not_elem_of_nil in Hd.
    + constructor.
  - intros i t ->%H. split; cbn; [lia|done].
Qed.

(** *** Steps *)

(** What the threads know stays true when objects, versions and deletions are
    added. *)
Lemma was_deleted_app ds ds' v : was_deleted ds v -> was_deleted (ds ++ ds') v.
Proof. intros (d & H & E). exists d. split; [apply elem_of_app; by left|done]. Qed.
Lemma result_mono os os' ds ds' b v r : result os ds b v r -> result (os ++ os') (ds ++ ds') b v r.
Proof.
  destruct r as [o|]; cbn.
  - intros (k & E & H). exists k. split; [by apply lookup_app_l_Some|done].
  - destruct (decide _); [done|]. intros [H|H]; [left; by apply was_deleted_app|by right].
Qed.
Lemma thread_mono st st' t os ds : thread_ok st t -> objects st' = objects st ++ os -> deleted st' = deleted st ++ ds ->
  version_ (shared st) <= version_ (shared st') -> published (shared st) <= published (shared st') -> thread_ok st' t.
Proof.
  intros [B H] Eo Ed V P. split; [lia|]. rewrite Eo, Ed. destruct (pc t); try done; try (by apply result_mono); intuition lia.
Qed.

(** Thread [i] moves to [y]; the others stay. *)
Definition moved (st : State) (i : nat) (b : Z) (y : Point) (p : DelayDelPtr) (k : option nat) (os : list Z) (ds : list Deleted) : State :=
  mkState p k (<[i := mkThread y b]> (threads st)) os ds.

Lemma moved_ok st i x b y p k os ds : ok st -> threads st !! i = Some (mkThread x b) ->
  (critical y <-> k = Some i) -> (forall j, j <> i -> k = Some j <-> lock_map_ st = Some j) ->
  shared_ok (match k with None => Idle | Some j => if decide (j = i) then y else phase st end) p (objects st ++ os) (deleted st ++ ds) ->
  version_ (shared st) <= version_ p -> published (shared st) <= published p ->
  thread_ok (moved st i b y p k (objects st ++ os) (deleted st ++ ds)) (mkThread y b) ->
  ok (moved st i b y p k (objects st ++ os) (deleted st ++ ds)).
Proof.
  intros [Lk Ow Sh Th] E Cy Ck Sh' V P Ty. assert (i < length (threads st))%nat as Li by (by eapply lookup_lt_Some). split; cbn [threads lock_map_ moved].
  - intros j t Ej. apply list_lookup_insert_Some in Ej as [(<- & <- & _)|[N Ej]]; [done|]. rewrite Ck by done. by apply Lk.
  - intros j Ej. destruct (decide (j = i)) as [->|N]; [by rewrite list_lookup_insert_eq|]. rewrite list_lookup_insert_ne by done. apply Ow. by apply Ck.
  - unfold phase at 1. cbn [lock_map_ threads moved shared objects deleted]. destruct k as [j|]; [|done]. destruct (decide (j = i)) as [->|N].
    + by rewrite list_lookup_insert_eq.
    + rewrite list_lookup_insert_ne by done. assert (lock_map_ st = Some j) as Ej by (by apply Ck). unfold phase in Sh'. by rewrite Ej in Sh'.
  - intros j t Ej. apply list_lookup_insert_Some in Ej as [(<- & <- & _)|[N Ej]]; [done|]. by eapply (thread_mono st); [apply (Th j)|..].
Qed.

(** *** The shared members *)

Definition plain (x : Point) : Prop := match x with ChangeObj _ _ | ChangeVersion => False | _ => True end.
Lemma shared_plain x y p os ds : plain x -> plain y -> shared_ok x p os ds -> shared_ok y p os ds.
Proof.
  intros Px Py []. split; try done; destruct x, y; try done.
Qed.

Lemma version_bound ph p os ds : shared_ok ph p os ds -> 0 <= version_ p < Z.of_nat (length os) + 1 /\ (os <> [] -> version_ p < Z.of_nat (length os)).
Proof.
  intros []. destruct (decide (os = [])) as [->|N].
  - destruct ph; try (rewrite so_version0; cbn; split; [lia|done]). specialize (so_two0 eq_refl). cbn in so_two0. lia.
  - assert (0 < length os)%nat by (destruct os; [done|cbn; lia]). destruct ph; try (split; lia). specialize (so_two0 eq_refl). split; lia.
Qed.

Lemma obj_none ph p os ds : shared_ok ph p os ds -> obj_ p = None <-> os = [].
Proof.
  intros []. rewrite so_obj0. split; [|by intros ->]. intros E%lookup_ge_None. destruct os; [done|cbn in E; lia].
Qed.

Lemma no_current ph p os ds : shared_ok ph p os ds -> ~ inserting ph -> delay_del_ptr_map_ p !! version_ p = None.
Proof.
  intros S N. destruct (delay_del_ptr_map_ p !! version_ p) as [e|] eqn:E; [|done]. destruct (so_map _ _ _ _ S _ _ E) as [_ [L|[_ I]]]; [lia|done].
Qed.

Lemma dropped_in p now d : d ∈ dropped p now <->
  delay_del_ptr_map_ p !! d_version d = Some (d_obj d, d_replaced d) /\ expired (delay_del_time_in_sec_ p) now (d_obj d, d_replaced d) /\ d_now d = now.
Proof.
  unfold dropped. rewrite list_elem_of_fmap. split.
  - intros ([v [o t]] & -> & H). apply elem_of_map_to_list, map_lookup_filter_Some in H as [H X]. done.
  - intros (H & X & <-). exists (d_version d, (d_obj d, d_replaced d)). split; [by destruct d|].
    apply elem_of_map_to_list, map_lookup_filter_Some. done.
Qed.
Lemma dropped_once p now : NoDup (d_version <$> dropped p now).
Proof.
  unfold dropped. rewrite <- list_fmap_compose. unfold compose. cbn. apply (NoDup_fst_map_to_list (M := gmap Z)).
Qed.
Lemma kept_lookup p now v e : kept p now !! v = Some e <-> delay_del_ptr_map_ p !! v = Some e /\ ~ expired (delay_del_time_in_sec_ p) now e.
Proof. unfold kept. by rewrite map_lookup_filter_Some. Qed.

Lemma clean_shared o now p os ds : shared_ok (ChangeClean o now) p os ds ->
  shared_ok (ChangeInsert o now) (with_map p (kept p now)) os (ds ++ dropped p now).
Proof.
  intros S. pose proof S as []. split; cbn [obj_ version_ with_map delay_del_ptr_map_ delay_del_time_in_sec_]; try done.
  - intros v e [E _]%kept_lookup. by apply so_map0.
  - intros k L. destruct (so_past0 k L) as [[e E]|D]; [|right; by apply was_deleted_app]. destruct (decide (expired (delay_del_time_in_sec_ p) now e)) as [X|X].
    + right. exists (mkDeleted (Z.of_nat k) e.1 e.2 now). split; [|done]. apply elem_of_app. right. apply dropped_in. by destruct e.
    + left. exists e. by apply kept_lookup.
  - intros d [H|H]%elem_of_app.
    + destruct (so_deleted0 d H) as (K & V & T & N). split_and!; try done. destruct (kept p now !! d_version d) as [e|] eqn:E; [|done].
      apply kept_lookup in E as [E _]. congruence.
    + apply dropped_in in H as (E & X & <-). destruct (so_map0 _ _ E) as [K [V|[_ []]]]. split_and!; try done.
      destruct (kept p (d_now d) !! d_version d) as [e|] eqn:E2; [|done]. apply kept_lookup in E2 as [E2 N]. rewrite E in E2. by injection E2 as <-.
  - rewrite fmap_app. apply list.NoDup_app. split_and!; [done| |apply dropped_once]. intros v (d & -> & H)%list_elem_of_fmap (d' & Ev & H')%list_elem_of_fmap.
    apply dropped_in in H' as (E & _). destruct (so_deleted0 d H) as (_ & _ & _ & N). congruence.
Qed.

Lemma insert_shared o now old p os ds : shared_ok (ChangeInsert o now) p os ds -> obj_ p = Some old ->
  shared_ok (ChangeObj o true) (with_map p (insert_old p old now)) os ds.
Proof.
  intros S Eo. pose proof (no_current _ _ _ _ S ltac:(by intros [])) as N. pose proof S as []. unfold insert_old. rewrite N.
  assert (os <> []) as No by (intros E; apply (obj_none _ _ _ _ S) in E; congruence).
  rewrite decide_False in so_version0 by done. assert (0 < length os)%nat as L by (destruct os; [done|cbn; lia]).
  split; cbn [obj_ version_ with_map delay_del_ptr_map_ delay_del_time_in_sec_]; try done.
  - by rewrite decide_False.
  - intros v e E. destruct (decide (v = version_ p)) as [->|Nv].
    + rewrite lookup_insert_eq in E. injection E as <-. split; [|by right]. exists (pred (length os)). split; [lia|]. cbn. by rewrite <- so_obj0.
    + rewrite lookup_insert_ne in E by done. destruct (so_map0 v e E) as [K [V|[_ []]]]. split; [done|by left].
  - intros _. rewrite lookup_insert_eq. split; [by eexists|done].
  - intros k Hk. rewrite lookup_insert_ne by lia. by apply so_past0.
  - intros d H. destruct (so_deleted0 d H) as (K & V & T & Nd). rewrite lookup_insert_ne by lia. done.
Qed.

Lemma first_shared o now p os ds : shared_ok (ChangeInsert o now) p os ds -> obj_ p = None -> shared_ok (ChangeObj o false) p os ds.
Proof.
  intros S E. apply (obj_none _ _ _ _ S) in E. subst os. destruct S. split; try done.
Qed.

Lemma obj_shared o inc p os ds : shared_ok (ChangeObj o inc) p os ds ->
  shared_ok (if inc then ChangeVersion else ChangeUnlock) (with_obj p o) (os ++ [o]) ds.
Proof.
  intros S. pose proof S as []. assert ((os ++ [o]) !! pred (length (os ++ [o])) = Some o) as Lo.
  { rewrite length_app, Nat.add_1_r. cbn. by apply list_lookup_middle. }
  assert (os ++ [o] <> []) as Na by (by destruct os).
  assert (forall k x, os !! k = Some x -> (os ++ [o]) !! k = Some x) as Mo by (intros k x; apply lookup_app_l_Some).
  destruct inc.
  - destruct (so_inserted0 I) as [Is No]. rewrite decide_False in so_version0 by done. assert (0 < length os)%nat by (destruct os; [done|cbn; lia]).
    split; cbn [obj_ version_ with_obj delay_del_ptr_map_ delay_del_time_in_sec_]; try done.
    + rewrite length_app. cbn. lia.
    + intros _. rewrite length_app. cbn. lia.
    + intros v e E. destruct (so_map0 v e E) as [(k & -> & Ek) V]. split; [|done]. exists k. auto.
    + intros d H'. destruct (so_deleted0 d H') as ((k & Ev & Ek) & D). split; [|done]. exists k. auto.
  - rewrite (so_first0 o eq_refl) in *. cbn in so_version0.
    split; cbn [obj_ version_ with_obj delay_del_ptr_map_ delay_del_time_in_sec_ app]; try done.
    + intros v e E. destruct (so_map0 v e E) as [(k & -> & Ek) V]. done.
    + intros d H'. destruct (so_deleted0 d H') as ((k & Ev & Ek) & D). done.
Qed.

Lemma version_shared p os ds : shared_ok ChangeVersion p os ds -> Z.of_nat (length os) < kLatest ->
  shared_ok ChangeUnlock (with_version p (u64 (version_ p + 1))) os ds /\ u64 (version_ p + 1) = version_ p + 1.
Proof.
  intros S L. pose proof S as []. destruct (so_inserted0 I) as [Is No]. specialize (so_two0 eq_refl).
  assert (u64 (version_ p + 1) = version_ p + 1) as -> by (apply uwrap_small; unfold in_uint, kLatest in *; lia). split; [|done].
  split; cbn [obj_ version_ with_version delay_del_ptr_map_ delay_del_time_in_sec_]; try done.
  - rewrite decide_False by done. lia.
  - intros v e E. destruct (so_map0 v e E) as [K V]. split; [done|]. left. lia.
  - intros k Hk. destruct (decide (Z.of_nat k = version_ p)) as [->|N]; [by left|]. apply so_past0. lia.
  - intros d H. destruct (so_deleted0 d H) as (K & V & D). split_and!; [done|lia|apply D|apply D].
Qed.

(** *** All steps *)

Lemma phase_of st i x b : ok st -> threads st !! i = Some (mkThread x b) -> critical x -> lock_map_ st = Some i /\ phase st = x.
Proof.
  intros O E C. assert (lock_map_ st = Some i) as L by (by apply (ok_lock st O i _ E)). split; [done|]. unfold phase. by rewrite L, E.
Qed.
Lemma not_owner st i x b : ok st -> threads st !! i = Some (mkThread x b) -> ~ critical x -> lock_map_ st <> Some i.
Proof. intros O E C L. apply C. by apply (ok_lock st O i _ E). Qed.

(** Only the point of the thread changes. *)
Lemma stay_ok st i x b y : ok st -> threads st !! i = Some (mkThread x b) -> (critical y <-> critical x) ->
  (critical x -> shared_ok y (shared st) (objects st) (deleted st)) -> thread_ok st (mkThread y b) ->
  ok (moved st i b y (shared st) (lock_map_ st) (objects st) (deleted st)).
Proof.
  intros O E C Sh Ty. rewrite <- (app_nil_r (objects st)), <- (app_nil_r (deleted st)).
  apply (moved_ok st i x b); try done; rewrite ?app_nil_r; try done.
  - rewrite C. apply (ok_lock st O i _ E).
  - pose proof (ok_shared st O) as S. unfold phase in S. destruct (lock_map_ st) as [j|] eqn:L; [|done]. destruct (decide (j = i)) as [->|N].
    + apply Sh. by apply (ok_lock st O i _ E).
    + unfold phase. by rewrite L.
Qed.

(** The lock is taken or, when it is not free, waited for. *)
Lemma take_ok st i x b y : ok st -> threads st !! i = Some (mkThread x b) -> ~ critical x -> critical y -> plain y -> thread_ok st (mkThread y b) ->
  lock_map_ st = None -> ok (moved st i b y (shared st) (Some i) (objects st) (deleted st)).
Proof.
  intros O E Cx Cy Py Ty L. rewrite <- (app_nil_r (objects st)), <- (app_nil_r (deleted st)).
  apply (moved_ok st i x b); try done; rewrite ?app_nil_r; try done.
  - intros j N. rewrite L. split; [|done]. intros [= <-]. done.
  - rewrite decide_True by done. pose proof (ok_shared st O) as S. unfold phase in S. rewrite L in S. by apply (shared_plain Idle).
Qed.
Lemma release_ok st i x b y : ok st -> threads st !! i = Some (mkThread x b) -> critical x -> plain x -> ~ critical y -> thread_ok st (mkThread y b) ->
  ok (moved st i b y (shared st) None (objects st) (deleted st)).
Proof.
  intros O E Cx Px Cy Ty. destruct (phase_of st i x b O E Cx) as [L Ph]. rewrite <- (app_nil_r (objects st)), <- (app_nil_r (deleted st)).
  apply (moved_ok st i x b); try done; rewrite ?app_nil_r; try done.
  - intros j N. rewrite L. split; [done|]. intros [= <-]. done.
  - pose proof (ok_shared st O) as S. rewrite Ph in S. by apply (shared_plain x).
Qed.
(** The owner of the lock changes the shared members. *)
Lemma write_ok st i x b y p os ds : ok st -> threads st !! i = Some (mkThread x b) -> critical x -> critical y ->
  shared_ok y p (objects st ++ os) (deleted st ++ ds) -> version_ (shared st) <= version_ p -> published (shared st) <= published p ->
  (match y with ChangeInsert _ _ | ChangeObj _ _ | ChangeVersion | ChangeUnlock => True | _ => False end) ->
  ok (moved st i b y p (lock_map_ st) (objects st ++ os) (deleted st ++ ds)).
Proof.
  intros O E Cx Cy S V P Hy. destruct (phase_of st i x b O E Cx) as [L Ph]. apply (moved_ok st i x b); try done; rewrite L.
  - by rewrite decide_True.
  - split; [|by destruct y]. pose proof (proj1 (ok_thread st O i _ E)) as B. cbn in *. lia.
Qed.

(** What the readers find. *)
Lemma GetObj_result st i v b : ok st -> threads st !! i = Some (mkThread (GetObj v) b) ->
  result (objects st) (deleted st) b v (obj_ (shared st)).
Proof.
  intros O E. destruct (ok_thread st O i _ E) as [B [V0 V]]. cbn [began] in B. pose proof (ok_shared st O) as S.
  pose proof (version_bound _ _ _ _ S) as [VB VL]. unfold published in B. destruct (obj_ (shared st)) as [o|] eqn:Eo; cbn.
  - pose proof (so_obj _ _ _ _ S) as Es. rewrite Eo in Es. exists (pred (length (objects st))). split; [done|].
    assert (objects st <> []) as N by (intros N; rewrite N in Es; done). specialize (VL N).
    destruct (decide (v = kLatest)) as [->|Nv]; [lia|]. specialize (V Nv). lia.
  - destruct (decide (v = kLatest)) as [->|Nv]; [lia|]. right. lia.
Qed.
Lemma GetFind_result st i v b : ok st -> threads st !! i = Some (mkThread (GetFind v) b) ->
  result (objects st) (deleted st) b v (fst <$> delay_del_ptr_map_ (shared st) !! v).
Proof.
  intros O E. destruct (ok_thread st O i _ E) as [B (V0 & Nv & V)]. cbn [began] in *. pose proof (ok_shared st O) as S.
  destruct (delay_del_ptr_map_ (shared st) !! v) as [e|] eqn:Em; cbn.
  - destruct (so_map _ _ _ _ S _ _ Em) as [(k & -> & Ek) _]. exists k. split; [done|]. rewrite decide_False by done. lia.
  - rewrite decide_False by done. destruct V as [V|V]; [|by right]. left. destruct (so_past _ _ _ _ S (Z.to_nat v)) as [[e Ee]|D]; rewrite Z2Nat.id in * by lia; [done|congruence|done].
Qed.

Lemma run_ok st i t : ok st -> fresh st -> threads st !! i = Some t -> ok (step st (Run i)).
Proof.
  intros O Fr E. cbn [step]. rewrite E. destruct t as [x b]. cbn [pc began]. pose proof (ok_thread st O i _ E) as Tk. pose proof Tk as [B T]. cbn [pc began] in B, T.
  pose proof (ok_shared st O) as S. pose proof (version_bound _ _ _ _ S) as [VB _].
  destruct x as [|v|v|v|v|v r|v r|o now|o now|o now|o inc| |]; cbn [access].
  - by apply (stay_ok st i Idle).
  - apply (stay_ok st i (GetVersion v)); try done; [by destruct (_ || _)|]. destruct (Z.eqb_spec (version_ (shared st)) v) as [Ev|Ev]; cbn [orb].
    + split; [done|]. cbn. split; [done|]. intros _. lia.
    + destruct (Z.eqb_spec v kLatest) as [->|Nv]; (split; [done|]); cbn; [done|]. split_and!; [done|done|].
      unfold published in B. destruct (obj_ (shared st)); lia.
  - apply (stay_ok st i (GetObj v)); try done. split; [done|]. by apply (GetObj_result st i).
  - destruct (lock_map_ st) as [j|] eqn:L; [rewrite <- L; by apply (stay_ok st i (GetLock v))|apply (take_ok st i (GetLock v)); [done|exact E|by intros []|done|done|exact Tk|done]].
  - apply (stay_ok st i (GetFind v)); try done.
    + intros _. destruct (phase_of st i _ b O E I) as [_ Ph]. rewrite Ph in S. by apply (shared_plain (GetFind v)).
    + split; [done|]. by apply (GetFind_result st i).
  - apply (release_ok st i (GetUnlock v r)); [done|exact E|done|done|by intros []|exact Tk].
  - by apply (stay_ok st i (Got v r)).
  - destruct (lock_map_ st) as [j|] eqn:L; [rewrite <- L; by apply (stay_ok st i (ChangeLock o now))|apply (take_ok st i (ChangeLock o now)); [done|exact E|by intros []|done|done|exact Tk|done]].
  - destruct (phase_of st i _ b O E I) as [_ Ph]. rewrite Ph in S. apply clean_shared in S. rewrite <- (app_nil_r (objects st)) in S |- *.
    by apply (write_ok st i (ChangeClean o now)).
  - destruct (phase_of st i _ b O E I) as [_ Ph]. rewrite Ph in S. destruct (obj_ (shared st)) as [old|] eqn:Eo.
    + apply (insert_shared _ _ old) in S; [|done]. rewrite <- (app_nil_r (objects st)), <- (app_nil_r (deleted st)) in S |- *.
      by apply (write_ok st i (ChangeInsert o now)).
    + apply (stay_ok st i (ChangeInsert o now)); try done. intros _. by apply (first_shared o now).
  - destruct (phase_of st i _ b O E I) as [_ Ph]. rewrite Ph in S. apply obj_shared in S. rewrite <- (app_nil_r (deleted st)) in S |- *.
    apply (write_ok st i (ChangeObj o inc)); try done; [by destruct inc| |by destruct inc].
    unfold published. cbn. destruct (obj_ (shared st)); lia.
  - destruct (phase_of st i _ b O E I) as [_ Ph]. rewrite Ph in S. destruct (version_shared _ _ _ S Fr) as [S' Ev].
    rewrite <- (app_nil_r (objects st)), <- (app_nil_r (deleted st)) in S' |- *. apply (write_ok st i ChangeVersion); try done; unfold published;
      cbn [version_ obj_ with_version]; rewrite Ev; [lia|]. destruct (obj_ (shared st)); lia.
  - apply (release_ok st i ChangeUnlock); [done|exact E|done|done|by intros []|exact Tk].
Qed.

(** A call begins; versions are sizes. *)
Lemma enter_ok st i x : ok st -> (match x with GetVersion v => 0 <= v | ChangeLock _ _ => True | _ => False end) -> ok (enter st i x).
Proof.
  intros O Hx. unfold enter. destruct (threads st !! i) as [[[] b]|] eqn:E; try done.
  pose proof (version_bound _ _ _ _ (ok_shared st O)) as [VB _].
  assert (thread_ok st (mkThread x (published (shared st)))) as Tx.
  { split; [cbn; unfold published; destruct (obj_ (shared st)); lia|]. by destruct x. }
  assert (0 <= b <= published (shared st)) as B by apply (ok_thread st O i _ E).
  pose proof (stay_ok st i Idle b Idle O E ltac:(done) ltac:(done) ltac:(by split)) as O1.
  destruct O as [Lk Ow Sh Th]. destruct O1 as [_ Ow1 Sh1 _]. split; cbn [threads lock_map_ shared objects deleted] in *.
  - intros j t Ej. apply list_lookup_insert_Some in Ej as [(<- & <- & _)|[N Ej]]; [|by apply Lk].
    cbn [pc]. rewrite <- (Lk i _ E). by destruct x.
  - intros j Ej. destruct (decide (j = i)) as [->|N]; [rewrite list_lookup_insert_eq; [done|by eapply lookup_lt_Some]|].
    rewrite list_lookup_insert_ne by done. by apply Ow.
  - unfold phase in *. cbn [threads lock_map_ moved] in *. destruct (lock_map_ st) as [j|] eqn:L; [|done].
    assert (j <> i) as N by (intros ->; by apply (Lk i _ E)). by rewrite list_lookup_insert_ne in Sh1 |- * by done.
  - intros j t Ej. apply list_lookup_insert_Some in Ej as [(<- & <- & _)|[N Ej]]; [done|by apply (Th j)].
Qed.

Lemma ptr_step_ok st l : ok st -> fresh st -> regular l -> ok (step st l).
Proof.
  intros O Fr Sz. destruct l as [i v|i o now|i|i]; [apply enter_ok; [done|cbn in *; lia]|by apply enter_ok| |done].
  destruct (threads st !! i) as [t|] eqn:E; [by apply (run_ok st i t)|]. cbn [step]. by rewrite E.
Qed.
Lemma ptr_reach_ok n delay st : reach (start n delay) st -> ok st /\ fresh st.
Proof.
  induction 1 as [|st l _ [O Fr] Sz Fr']; [by split; [apply ptr_start_ok|]|]. split; [by apply ptr_step_ok|done].
Qed.

(** C40: With any number of threads in [Get] and [Change], at one access to shared
    memory at a time, as long as the lock is initialised before they start, no
    call of [Lock] fails and there are fewer than [2 ^ 64 - 1] versions: one thread at a time is under the lock; the current object
    is the one that was set last; [Get] of a version returns the object of this
    version or, when it is replaced during the call, of a later one, and nothing
    only when the version has been deleted or did not exist when the call began;
    [Get] of the latest version does not return an older object than the one that
    was current when the call began; every object is deleted at most once, only
    when a later one is current and the delay since its replacement has passed;
    and every version that was replaced and not deleted is in the map. *)
Theorem versions_race n delay st : reach (start n delay) st ->
  (forall i j ti tj, threads st !! i = Some ti -> threads st !! j = Some tj -> critical (pc ti) -> critical (pc tj) -> i = j) /\
  obj_ (shared st) = objects st !! pred (length (objects st)) /\
  (forall i v r b, threads st !! i = Some (mkThread (Got v r) b) -> result (objects st) (deleted st) b v r) /\
  (forall d, d ∈ deleted st -> (exists k, d_version d = Z.of_nat k /\ objects st !! k = Some (d_obj d)) /\
     d_version d < version_ (shared st) /\ delay_del_time_in_sec_ (shared st) < d_now d - d_replaced d) /\
  NoDup (d_version <$> deleted st) /\
  (forall k, Z.of_nat k < version_ (shared st) ->
     (exists e, delay_del_ptr_map_ (shared st) !! Z.of_nat k = Some e /\ objects st !! k = Some e.1) \/ was_deleted (deleted st) (Z.of_nat k)).
Proof.
  intros R. destruct (ptr_reach_ok n delay st R) as [O _]. pose proof (ok_shared st O) as []. split_and!; try done.
  - intros i j ti tj Ei Ej Ci%(ok_lock st O i ti Ei) Cj%(ok_lock st O j tj Ej). congruence.
  - intros i v r b E. apply (ok_thread st O i _ E).
  - intros d H. destruct (so_deleted0 d H) as (K & V & T & _). done.
  - intros k L. destruct (so_past0 k L) as [[e E]|D]; [|by right]. left. exists e. split; [done|].
    destruct (so_map0 _ _ E) as [(k' & Ek & Ee) _]. by replace k with k' by lia.
Qed.

(** ** Schedules *)

Definition freshb (st : State) : bool := Z.of_nat (length (objects st)) <? kLatest.
Definition regularb (l : Label) : bool := match l with CallGet _ v => (0 <=? v) && (v <=? kLatest) | LockFails _ => false | _ => true end.
Fixpoint check (st : State) (ls : list Label) : bool :=
  match ls with [] => true | l :: ls => regularb l && freshb (step st l) && check (step st l) ls end.
Lemma check_reach st0 ls : forall st, reach st0 st -> check st ls = true -> reach st0 (exec st ls).
Proof.
  induction ls as [|l ls IH]; intros st R C; [done|]. cbn in C. apply andb_true_iff in C as [[Sz Fr]%andb_true_iff C].
  apply (IH (step st l)); [|done]. apply reach_step; [done| |by apply Z.ltb_lt]. destruct l; try done. cbn in *. apply andb_true_iff in Sz. lia.
Qed.

(** [Get] of version 0 reads [version_], then version 1 is made, then it reads
    [obj_]: the object of version 1. *)
Definition ex_overtaken : list Label :=
  CallChange 0 7 100 :: runs 6 0 ++ [CallGet 1 0; Run 1] ++ CallChange 0 8 110 :: runs 7 0 ++ [Run 1].
Example get_other_version : (pc <$> threads (exec (start 2 60) ex_overtaken)) = [Idle; Got 0 (Some 8)].
Proof. reflexivity. Qed.

(** Without the lock nothing of this holds: two threads whose [Lock] fails replace
    version 0 at the same time, the object 8 is overwritten before it is kept, and
    version 1 is neither found nor deleted. *)
Definition ex_unlocked : list Label :=
  CallChange 0 7 100 :: runs 6 0 ++ [CallChange 0 8 110; CallChange 1 9 110; LockFails 0; LockFails 1] ++
  runs 2 0 ++ runs 2 1 ++ runs 3 0 ++ runs 3 1 ++ CallGet 0 1 :: runs 4 0.
Example unlocked_change_loses : let st := exec (start 2 60) ex_unlocked in
  objects st = [7; 8; 9] /\ deleted st = [] /\ version_ (shared st) = 2 /\ pc <$> threads st = [Got 1 None; Idle].
Proof. vm_compute. done. Qed.

Lemma versions_race_witness : let st := exec (start 2 60) ex_overtaken in
  objects st = [7; 8] /\ (forall i v r b, threads st !! i = Some (mkThread (Got v r) b) -> result (objects st) (deleted st) b v r).
Proof.
  split; [reflexivity|].
  destruct (versions_race 2 60 _ (check_reach (start 2 60) ex_overtaken _ (reach_start _) ltac:(vm_compute; reflexivity))) as (_ & _ & P & _). exact P.
Defined.
End PtrRace.
