(* ===== verification/EventCtx.v ===== *)
(** * EventCtx: what an agent attaches to a descriptor it waits for

    Models src/src/event_ctx.h.  The union is an inductive type; pointers to
    sessions and to protocol objects are addresses in their stores. *)

From Stdlib Require Import ZArith Lia.
From stdpp Require Import base list numbers.
From S2P Require Import Prelude Protocol IOHelper Model ConnsMgr.
Import Model.

Module EventCtx.

Inductive Category := kListen | kReadReq | kSession | kMailboxNotify.
#[global] Instance Category_eq_dec : EqDecision Category.
Proof. solve_decision. Defined.

(** The members of the union the program sets. *)
Inductive Data :=
| NoData
| DListen (listen_addr : Protocol.ListenAddr)
| DReadReq (id_procedure fd_client_starttime_sec : Z) (protocol_read : option ptr)
| DSession (session : ptr) (no_talk : nat).

Record EventCtx := mkCtx {
  category : Category;
  fd : Z;
  timeleft_ms : Z;
  lasttime_ms : Z;
  data : Data;
}.
(** [EventCtx()]: the fields are not initialised; the pools start from this
    value. *)
Definition EventCtx_new : EventCtx := mkCtx kListen 0 0 0 NoData.

Section Build.
Context {W : Type} `{!Clock W}.

Definition BuildForListen (c : EventCtx) (fd : Z) (la : Protocol.ListenAddr) : EventCtx :=
  mkCtx kListen fd (timeleft_ms c) (lasttime_ms c) (DListen la).

Definition BuildForReadReq (fd id_procedure starttime : Z) (protocol_read : ptr) (timeleft : Z) : M W EventCtx :=
  now ← IOHelper.GetCurrentMsec false;
  mret (mkCtx kReadReq fd timeleft now (DReadReq id_procedure starttime (Some protocol_read))).

Definition BuildForSession (fd : Z) (session : ptr) (no_talk : nat) : M W EventCtx :=
  now ← IOHelper.GetCurrentMsec false;
  mret (mkCtx kSession fd 0 now (DSession session no_talk)).

Definition BuildForMailboxNotify (c : EventCtx) (fd : Z) : EventCtx :=
  mkCtx kMailboxNotify fd (timeleft_ms c) (lasttime_ms c) (data c).

End Build.
End EventCtx.
