(* ===== verification/Msg.v ===== *)
(** * Msg: messages between threads

    Models src/src/msg.h and src/src/details/msg.cpp: what agents and
    schedulers send each other.  Pointers to objects of other threads
    (coroutine contexts, business procedures, vectors of talks) are opaque. *)

From Stdlib Require Import ZArith Lia.
From stdpp Require Import base list numbers.
From S2P Require Import Prelude Protocol IOHelper Model ConnsMgr.
Import Model.

Module Msg.

(** A descriptor of the service cache with its remote. *)
Abbreviation CachedFd := (Z * RemotePtr)%type.

Record MsgReadReq := mkReadReq {
  rr_id_procedure : Z;
  rr_fd_client : Z;
  rr_listen_addr : Protocol.ListenAddr;
  rr_fd_client_starttime_sec : Z;
}.

Record MsgNewReq := mkNewReq {
  nr_id_procedure : Z;
  nr_fd_client : Z;
  nr_fd_client_starttime_sec : Z;
  nr_protocol_read : option ptr;
}.

Record MsgSession := mkMsgSession {
  ms_biz_ctx : ptr;
  ms_biz_procedure : ptr;
  ms_talks : ptr;
  ms_timeo_ms : Z;
  ms_error : Z;
}.

Definition kSizeSmallCache : nat := 15.

Record MsgDestruct := mkDestruct {
  md_id_procedure : Z;
  md_fd_client : Z;
  md_fd_client_starttime_sec : Z;
  md_protocol_read : option ptr;
  small_cache : list CachedFd;
  big_cache : option (list CachedFd);
}.

Definition kMaxSizeMsg : Z := 10000.

Inductive Msg :=
| Invalid
| Config
| ReadReq (m : MsgReadReq)
| NewReq (m : MsgNewReq)
| Session (m : MsgSession)
| Destruct (m : MsgDestruct).

Inductive Category := kInvalid | kConfig | kReadReq | kNewReq | kSession | kDestruct.
#[global] Instance MsgCategory_eq_dec : EqDecision Category.
Proof. solve_decision. Defined.
Definition category (m : Msg) : Category :=
  match m with
  | Invalid => kInvalid | Config => kConfig | ReadReq _ => kReadReq | NewReq _ => kNewReq
  | Session _ => kSession | Destruct _ => kDestruct
  end.

(** [Copy]: the fields of the class of the target; undefined when the source is
    of another class, whose fields are not there. *)
Definition Copy (self msg : Msg) : option Msg :=
  match category self with
  | kInvalid => Some self
  | c => if decide (c = category msg) then Some msg else None
  end.

Section Build.
Context {W : Type} `{!Clock W, !Rand}.

(** [seed] is the function's static variable. *)
Definition BuildForReadReq (fd_client : Z) (la : Protocol.ListenAddr) (starttime seed : Z)
  : M W (MsgReadReq * Z) :=
  let '(id, seed) := rand_r seed in
  t ← (if starttime =? 0 then IOHelper.GetCurrentSec false else mret starttime);
  mret (mkReadReq id fd_client la t, seed).

Definition BuildForNewReq (id_procedure fd_client starttime : Z) (protocol_read : option ptr) : MsgNewReq :=
  mkNewReq id_procedure fd_client starttime protocol_read.

Definition BuildForSession (biz_ctx biz_procedure talks : ptr) (timeo_ms error : Z) : MsgSession :=
  mkMsgSession biz_ctx biz_procedure talks timeo_ms error.

(** [service_cache] in the order of its iteration. *)
Definition BuildForDestruct (id_procedure fd_client starttime : Z) (protocol_read : option ptr)
    (service_cache : list CachedFd) : MsgDestruct :=
  if decide (length service_cache <= kSizeSmallCache)%nat
  then mkDestruct id_procedure fd_client starttime protocol_read service_cache None
  else mkDestruct id_procedure fd_client starttime protocol_read [] (Some service_cache).

End Build.

(** Whichever representation is chosen, the receiver finds every descriptor. *)
Definition cached_fds (m : MsgDestruct) : list CachedFd :=
  match big_cache m with None => small_cache m | Some l => l end.

Lemma BuildForDestruct_cached id fd t pr cache : cached_fds (BuildForDestruct id fd t pr cache) = cache.
Proof. unfold BuildForDestruct, cached_fds. by case_decide. Qed.
End Msg.
