(* ===== verification/Session.v ===== *)
(** * Session: the talks a business procedure waits for

    Models src/src/details/model.cpp ([Talk::Assign]), src/src/session.h and
    src/src/details/session.cpp on the state of an agent thread.  The state
    holds the events driver, the connection manager, the stores of event
    contexts and sessions with their pools, the vectors of talks the
    schedulers share with the agent, the protocol objects and the world. *)

From Stdlib Require Import ZArith Lia.
From stdpp Require Import base list gmap numbers option.
From S2P Require Import Prelude Os Protocol Rapid Redis IOHelper Model ConnsMgr EventsDriver PoolObjs Protocols Confs EventCtx Msg.
Import Os Buffer Model.

(** ** Talk::Assign, on a scheduler thread *)

Module TalkOps.
Section Assign.
Context {W : Type} `{CK : !Clock W, MA : !Malloc}.

Definition of_protos {A} (m : M Protocols.Protos A) : M (Protocols.Protos * W) A :=
  zoom fst (fun p s => (p, s.2)) m.
Definition of_world {A} (m : M W A) : M (Protocols.Protos * W) A := zoom snd (fun w s => (s.1, w)) m.

(** A writer for [buf], reset and encoded; [None] when the encoding failed and
    the writer went back to its pool. *)
Definition make_write (pc : Protocol.Category) (b : Protocol.Buf) : M Protocols.Protos (ptr * bool) :=
  p ← Protocols.GetWrite pc;
  p ← deref p;
  o ← Protocols.load_write p;
  o ← deref (Protocols.WReset o b);
  let '(ret, o) := Protocols.WEncode o in
  Protocols.store_write p o;;
  if ret then mret (p, true) else Protocols.FreeWrite p;; mret (p, false).

Definition make_read (pc : Protocol.Category) : M Protocols.Protos ptr :=
  p ← Protocols.GetRead pc;
  p ← deref p;
  o ← Protocols.load_read p;
  Protocols.store_read p (Protocols.RReset o None);;
  mret p.

Definition Assign (no : nat) (cat : TalkCategory) (sv : option Service) (pc : Protocol.Category)
    (b : option Protocol.Buf) (timeo_ms fd_arg : Z) (r : option RemotePtr) : M (Protocols.Protos * W) Talk :=
  now ← of_world (IOHelper.GetCurrentMsec false);
  let t := fun pw pr st err f =>
    {| no_talk := no; category := cat; service := sv; buf := b; protocol_write := pw; protocol_read := pr;
       starttime_ms := now; endtime_ms := now + timeo_ms; status := st; error := err; fail_remotes := [];
       retry := match sv with Some s => s_retry s | None => 0 end; fd := f; remote := r |} in
  match b with
  | None => mret (t None None kEnd ErrorNo.kOk fd_arg)
  | Some b =>
      match cat with
      | kWriteAndRead =>
          '(pw, ok) ← of_protos (make_write pc b);
          if negb ok then mret (t (Some pw) None kStart ErrorNo.kEncode (-1))
          else
            pr ← of_protos (make_read pc);
            mret (t (Some pw) (Some pr) kWrite ErrorNo.kOk fd_arg)
      | kWriteOnly =>
          '(pw, ok) ← of_protos (make_write pc b);
          mret (if (ok : bool) then t (Some pw) None kWrite ErrorNo.kOk fd_arg
                else t (Some pw) None kStart ErrorNo.kEncode (-1))
      | kReadOnly =>
          pr ← of_protos (make_read pc);
          mret (t None (Some pr) kRead ErrorNo.kOk fd_arg)
      end
  end.

End Assign.

(** Assignments to single fields. *)
Definition set_fd (t : Talk) (f : Z) : Talk :=
  {| no_talk := no_talk t; category := category t; service := service t; buf := buf t;
     protocol_write := protocol_write t; protocol_read := protocol_read t; starttime_ms := starttime_ms t;
     endtime_ms := endtime_ms t; status := status t; error := error t; fail_remotes := fail_remotes t;
     retry := retry t; fd := f; remote := remote t |}.
Definition set_status (t : Talk) (st : TalkStatus) : Talk :=
  {| no_talk := no_talk t; category := category t; service := service t; buf := buf t;
     protocol_write := protocol_write t; protocol_read := protocol_read t; starttime_ms := starttime_ms t;
     endtime_ms := endtime_ms t; status := st; error := error t; fail_remotes := fail_remotes t;
     retry := retry t; fd := fd t; remote := remote t |}.
Definition set_error (t : Talk) (e : Z) : Talk :=
  {| no_talk := no_talk t; category := category t; service := service t; buf := buf t;
     protocol_write := protocol_write t; protocol_read := protocol_read t; starttime_ms := starttime_ms t;
     endtime_ms := endtime_ms t; status := status t; error := e; fail_remotes := fail_remotes t;
     retry := retry t; fd := fd t; remote := remote t |}.
Definition set_remote (t : Talk) (r : option RemotePtr) : Talk :=
  {| no_talk := no_talk t; category := category t; service := service t; buf := buf t;
     protocol_write := protocol_write t; protocol_read := protocol_read t; starttime_ms := starttime_ms t;
     endtime_ms := endtime_ms t; status := status t; error := error t; fail_remotes := fail_remotes t;
     retry := retry t; fd := fd t; remote := r |}.
Definition set_retry (t : Talk) (n : Z) : Talk :=
  {| no_talk := no_talk t; category := category t; service := service t; buf := buf t;
     protocol_write := protocol_write t; protocol_read := protocol_read t; starttime_ms := starttime_ms t;
     endtime_ms := endtime_ms t; status := status t; error := error t; fail_remotes := fail_remotes t;
     retry := n; fd := fd t; remote := remote t |}.
Definition add_fail_remote (t : Talk) (r : Remote) : Talk :=
  {| no_talk := no_talk t; category := category t; service := service t; buf := buf t;
     protocol_write := protocol_write t; protocol_read := protocol_read t; starttime_ms := starttime_ms t;
     endtime_ms := endtime_ms t; status := status t; error := error t; fail_remotes := fail_remotes t ++ [r];
     retry := retry t; fd := fd t; remote := remote t |}.
End TalkOps.

Module Session.
Import TalkOps.

Record Session := mkSession {
  biz_ctx_ : ptr;
  biz_procedure_ : ptr;
  talks_ : ptr;
  num_talks_done_ : Z;
  has_failure_ : bool;
}.
(** [Session(confs, driver, ...)]: the other fields are set by [Reset]. *)
Definition Session_new : Session := mkSession 0 0 0 0 false.

Section Session.
Context {W Q : Type} `{NI : !NetIO W, SK : !Sock W, CK : !Clock W, EP : !Epoll W, TQ : !TimeoutQueue Q,
  RD : !Rand, MA : !Malloc} {FU : Protocol.Fuel}.

(** The state an agent thread works on. *)
Record Agent := mkAgent {
  events_driver_ : EventsDriver.EventsDriver Q;
  conns_mgr_ : ConnsMgr.ConnsMgr;
  event_ctxs : Store.Store EventCtx.EventCtx;
  pool_event_ctxs_ : PoolObjs.PoolObjs EventCtx.EventCtx;
  sessions : Store.Store Session;
  pool_sessions_ : PoolObjs.PoolObjs Session;
  talk_vectors : gmap Z (list Talk);
  protos : Protocols.Protos;
  num_clients_keepalive_ : Z;
  world : W;
}.

Definition set_driver (d : EventsDriver.EventsDriver Q) (w : W) (a : Agent) : Agent :=
  {| events_driver_ := d; conns_mgr_ := conns_mgr_ a; event_ctxs := event_ctxs a;
     pool_event_ctxs_ := pool_event_ctxs_ a; sessions := sessions a; pool_sessions_ := pool_sessions_ a;
     talk_vectors := talk_vectors a; protos := protos a; num_clients_keepalive_ := num_clients_keepalive_ a;
     world := w |}.
Definition set_conns (m : ConnsMgr.ConnsMgr) (w : W) (a : Agent) : Agent :=
  {| events_driver_ := events_driver_ a; conns_mgr_ := m; event_ctxs := event_ctxs a;
     pool_event_ctxs_ := pool_event_ctxs_ a; sessions := sessions a; pool_sessions_ := pool_sessions_ a;
     talk_vectors := talk_vectors a; protos := protos a; num_clients_keepalive_ := num_clients_keepalive_ a;
     world := w |}.
Definition set_ctxs (s : Store.Store EventCtx.EventCtx) (p : PoolObjs.PoolObjs EventCtx.EventCtx) (a : Agent) : Agent :=
  {| events_driver_ := events_driver_ a; conns_mgr_ := conns_mgr_ a; event_ctxs := s;
     pool_event_ctxs_ := p; sessions := sessions a; pool_sessions_ := pool_sessions_ a;
     talk_vectors := talk_vectors a; protos := protos a; num_clients_keepalive_ := num_clients_keepalive_ a;
     world := world a |}.
Definition set_sessions (s : Store.Store Session) (p : PoolObjs.PoolObjs Session) (a : Agent) : Agent :=
  {| events_driver_ := events_driver_ a; conns_mgr_ := conns_mgr_ a; event_ctxs := event_ctxs a;
     pool_event_ctxs_ := pool_event_ctxs_ a; sessions := s; pool_sessions_ := p;
     talk_vectors := talk_vectors a; protos := protos a; num_clients_keepalive_ := num_clients_keepalive_ a;
     world := world a |}.
Definition set_talks (v : gmap Z (list Talk)) (a : Agent) : Agent :=
  {| events_driver_ := events_driver_ a; conns_mgr_ := conns_mgr_ a; event_ctxs := event_ctxs a;
     pool_event_ctxs_ := pool_event_ctxs_ a; sessions := sessions a; pool_sessions_ := pool_sessions_ a;
     talk_vectors := v; protos := protos a; num_clients_keepalive_ := num_clients_keepalive_ a;
     world := world a |}.
Definition set_protos (p : Protocols.Protos) (a : Agent) : Agent :=
  {| events_driver_ := events_driver_ a; conns_mgr_ := conns_mgr_ a; event_ctxs := event_ctxs a;
     pool_event_ctxs_ := pool_event_ctxs_ a; sessions := sessions a; pool_sessions_ := pool_sessions_ a;
     talk_vectors := talk_vectors a; protos := p; num_clients_keepalive_ := num_clients_keepalive_ a;
     world := world a |}.
Definition set_clients (n : Z) (a : Agent) : Agent :=
  {| events_driver_ := events_driver_ a; conns_mgr_ := conns_mgr_ a; event_ctxs := event_ctxs a;
     pool_event_ctxs_ := pool_event_ctxs_ a; sessions := sessions a; pool_sessions_ := pool_sessions_ a;
     talk_vectors := talk_vectors a; protos := protos a; num_clients_keepalive_ := n; world := world a |}.
Definition set_world (w : W) (a : Agent) : Agent := set_driver (events_driver_ a) w a.

(** *** Calls of the components *)

Definition on_world {A} (m : M W A) : M Agent A := zoom world set_world m.
Definition on_driver {A} (f : EventsDriver.EventsDriver Q -> M W (A * EventsDriver.EventsDriver Q)) : M Agent A :=
  fun a => match f (events_driver_ a) (world a) with
           | Some ((r, d), w) => Some (r, set_driver d w a)
           | None => None
           end.
Definition on_conns {A} (f : ConnsMgr.ConnsMgr -> M W (A * ConnsMgr.ConnsMgr)) : M Agent A :=
  fun a => match f (conns_mgr_ a) (world a) with
           | Some ((r, m), w) => Some (r, set_conns m w a)
           | None => None
           end.
Definition on_protos {A} (m : M Protocols.Protos A) : M Agent A := zoom protos set_protos m.

Definition GetEventCtx : M Agent ptr := fun a =>
  match PoolObjs.Get (pool_event_ctxs_ a) (event_ctxs a) with
  | Some ((Some c, p), s) => Some (c, set_ctxs s p a)
  | _ => None
  end.
Definition FreeEventCtx (c : ptr) : M Agent () := fun a =>
  match PoolObjs.Free (pool_event_ctxs_ a) (Some c) (event_ctxs a) with
  | Some (p, s) => Some ((), set_ctxs s p a)
  | None => None
  end.
Definition load_ctx (c : ptr) : M Agent EventCtx.EventCtx := a ← gets id; deref (Store.load (event_ctxs a) c).
Definition store_ctx (c : ptr) (e : EventCtx.EventCtx) : M Agent () :=
  modify (fun a => set_ctxs (Store.store c e (event_ctxs a)) (pool_event_ctxs_ a) a).

Definition load_session (s : ptr) : M Agent Session := a ← gets id; deref (Store.load (sessions a) s).
Definition store_session (s : ptr) (x : Session) : M Agent () :=
  modify (fun a => set_sessions (Store.store s x (sessions a)) (pool_sessions_ a) a).

(** The [i]-th talk of a vector: undefined out of range. *)
Definition load_talk (v : ptr) (i : nat) : M Agent Talk :=
  a ← gets id; l ← deref (talk_vectors a !! v); deref (l !! i).
Definition store_talk (v : ptr) (i : nat) (t : Talk) : M Agent () :=
  a ← gets id;
  l ← deref (talk_vectors a !! v);
  modify (set_talks (<[v := <[i := t]> l]> (talk_vectors a))).
Definition num_talks (v : ptr) : M Agent nat := a ← gets id; l ← deref (talk_vectors a !! v); mret (length l).

Definition set_failure (s : ptr) : M Agent () :=
  x ← load_session s;
  store_session s (mkSession (biz_ctx_ x) (biz_procedure_ x) (talks_ x) (num_talks_done_ x) true).
Definition set_done (s : ptr) (n : Z) : M Agent () :=
  x ← load_session s;
  store_session s (mkSession (biz_ctx_ x) (biz_procedure_ x) (talks_ x) (u64 n) (has_failure_ x)).

(** [*remote]. *)
Definition load_remote (r : RemotePtr) : M Agent Remote :=
  a ← gets id; deref (ConnsMgr.deref_remote (conns_mgr_ a) r).

Context (conf : Confs.ConfNormal).

(** The time an event of this talk may take. *)
Definition talk_timeout (t : Talk) : M Agent Z :=
  match remote t with
  | Some rp =>
      match status t with
      | kConn => mret (Confs.cn_ctimeo_ms conf)
      | kRead => r ← load_remote rp; mret (rtimeo_ms r)
      | _ => r ← load_remote rp; mret (wtimeo_ms r)
      end
  | None =>
      mret (match status t with kRead => Confs.cn_rtimeo_ms conf | _ => Confs.cn_wtimeo_ms conf end)
  end.

(** The first part of [ResetTalk_]: a descriptor for the talk; false when the
    function returns early. *)
Definition ResetTalk_fd (s v : ptr) (i : nat) : M Agent bool :=
  t ← load_talk v i;
  if fd t =? 0 then
    sv ← deref (service t);
    '(f, b, rp) ← on_conns (fun m => '(f, b, rp, m) ← ConnsMgr.GetFd m sv (fail_remotes t); mret ((f, b, rp), m));
    let t := set_remote t (Some rp) in
    if 0 <? f then
      store_talk v i (set_status (set_fd t f)
        (if negb b then kConn else if decide (category t = kReadOnly) then kRead else kWrite));;
      mret true
    else
      store_talk v i (set_error (set_fd t (-1)) ErrorNo.kBroken);;
      set_failure s;;
      mret false
  else if fd t <? 0 then set_failure s;; mret false
  else mret true.

(** The second part: the request is encoded again for a retry. *)
Definition ResetTalk_encode (s v : ptr) (i : nat) (is_retry : bool) : M Agent bool :=
  t ← load_talk v i;
  match protocol_write t with
  | Some pw =>
      if is_retry then
        o ← on_protos (Protocols.load_write pw);
        b ← deref (buf t);
        o ← deref (Protocols.WReset o b);
        let '(ret, o) := Protocols.WEncode o in
        on_protos (Protocols.store_write pw o);;
        if (ret : bool) then mret true
        else store_talk v i (set_error t ErrorNo.kEncode);; set_failure s;; mret false
      else mret true
  | None => mret true
  end.

(** The third part: the event of the talk is registered.  The timeout is a
    [time_t], the parameter of the driver an [int]. *)
Definition ResetTalk_event (s v : ptr) (i : nat) : M Agent () :=
  t ← load_talk v i;
  c ← GetEventCtx;
  e ← on_world (EventCtx.BuildForSession (fd t) s (no_talk t));
  store_ctx c e;;
  now ← on_world (IOHelper.GetCurrentMsec false);
  let timeleft_ms := endtime_ms t - now in
  if timeleft_ms <=? 0 then store_talk v i (set_error t ErrorNo.kTimeout);; set_failure s
  else
    limit ← talk_timeout t;
    let e := EventCtx.mkCtx (EventCtx.category e) (EventCtx.fd e) (Z.min timeleft_ms limit)
               (EventCtx.lasttime_ms e) (EventCtx.data e) in
    store_ctx c e;;
    ret ← on_driver (fun d => EventsDriver.RegEvent d (fd t) EventsDriver.kAddEvent
            (match status t with kRead => EventsDriver.kIn | _ => EventsDriver.kOut end) c (i32 (EventCtx.timeleft_ms e)));
    if (ret : bool) then mret ()
    else
      on_world (IOHelper.Close (fd t));;
      store_talk v i (set_error (set_fd t (-1)) ErrorNo.kOther);;
      set_failure s.

Definition ResetTalk_ (s v : ptr) (i : nat) (is_retry : bool) : M Agent () :=
  go ← ResetTalk_fd s v i;
  if negb go then mret ()
  else
    go ← ResetTalk_encode s v i is_retry;
    if negb go then mret () else ResetTalk_event s v i.

(** The loop of [Reset] over the talks from [i] on. *)
Fixpoint Reset_loop (n : nat) (s v : ptr) (i : nat) : M Agent () :=
  match n with
  | O => mret ()
  | S n =>
      t ← load_talk v i;
      (if decide (status t = kEnd) then
         x ← load_session s; set_done s (num_talks_done_ x + 1)
       else
         ResetTalk_ s v i false;;
         t ← load_talk v i;
         when (negb (error t =? ErrorNo.kOk))
           (x ← load_session s; set_done s (num_talks_done_ x + 1)));;
      Reset_loop n s v (S i)
  end.

Definition Reset (s biz_ctx biz_procedure v : ptr) : M Agent bool :=
  x ← load_session s;
  store_session s (mkSession biz_ctx biz_procedure v 0 false);;
  n ← num_talks v;
  Reset_loop n s v 0;;
  x ← load_session s;
  mret (negb (num_talks_done_ x =? Z.of_nat n)).

(** [conns_mgr_->ReportStatus]. *)
Definition ReportStatus (r : Remote) (succ : bool) : M Agent () :=
  on_conns (fun m => m ← deref (ConnsMgr.ReportStatus m r succ); mret ((), m)).

(** The first part of [FinishTalk]: the remote of the talk is reported. *)
Definition FinishTalk_report (succ : bool) (v : ptr) (i : nat) : M Agent () :=
  t ← load_talk v i;
  match remote t with
  | Some rp =>
      r ← load_remote rp;
      ReportStatus r succ;;
      if succ then mret ()
      else
        r ← load_remote rp;
        store_talk v i (add_fail_remote t r)
  | None => mret ()
  end.

(** The second part: a talk that failed is tried again or gives the session a
    failure. *)
Definition FinishTalk_retry (s v : ptr) (i : nat) : M Agent () :=
  t ← load_talk v i;
  if negb (retry t =? 0) then
    when (0 <? fd t) (on_world (IOHelper.Close (fd t)));;
    store_talk v i (set_error (set_fd (set_retry t (retry t - 1)) 0) ErrorNo.kOk);;
    ResetTalk_ s v i true;;
    t ← load_talk v i;
    if error t =? ErrorNo.kOk then x ← load_session s; set_done s (num_talks_done_ x - 1)
    else set_failure s
  else set_failure s.

Definition FinishTalk (s : ptr) (succ : bool) (v : ptr) (i : nat) : M Agent bool :=
  x ← load_session s;
  set_done s (num_talks_done_ x + 1);;
  FinishTalk_report succ v i;;
  (if succ then mret () else FinishTalk_retry s v i);;
  x ← load_session s;
  n ← num_talks v;
  mret (num_talks_done_ x =? Z.of_nat n).

End Session.
Arguments Agent : clear implicits.
End Session.
