(* ===== verification/AgentSlave.v ===== *)
(** * AgentSlave: the event loop of an agent thread

    Models src/src/agents/agent_slave.h, details/agent_slave.cpp and
    [MailboxNotifier::ClearReadBuf].  The loop waits for events, handles the
    talks of sessions and the requests of clients, removes timeouts and takes
    messages from its mailbox.  The mailbox, the mailboxes of the schedulers
    and the configuration that other threads replace are operations of the
    world. *)

From Stdlib Require Import ZArith Lia.
From stdpp Require Import base list gmap numbers option.
From S2P Require Import Prelude Os Protocol Rapid Redis IOHelper Model ConnsMgr EventsDriver PoolObjs Protocols Confs EventCtx Msg Session.
Import Os Buffer Model.

(** The other threads. *)
Class Peers (W : Type) : Type := {
  scheduler_SendMsg : Msg.MsgSession -> W -> bool * W;
  SendToOneWorker : Msg.MsgNewReq -> W -> bool * W;
  mailbox_ReceiveMsg : W -> option Msg.Msg * W;
  mailbox_MsgConsumed : W -> W;
  current_remotes : W -> list Remote * W;
  sys_read1 : Z -> W -> Z * W;
}.

Module AgentSlave.
Import TalkOps Session.

Definition kMaxNumMailsProcessedOnce : nat := Z.to_nat 100000.

Section Agent.
Context {W Q : Type} `{NI : !NetIO W, SK : !Sock W, CK : !Clock W, EP : !Epoll W, PE : !Peers W,
  TQ : !TimeoutQueue Q, RD : !Rand, MA : !Malloc} {FU : Protocol.Fuel}.
Context (conf : Confs.ConfNormal).
Abbreviation A := (M (Session.Agent W Q)).

Definition RegEventDel (f : Z) : A bool := on_driver (fun d => EventsDriver.RegEventDel d f).
(** The timeout is a [time_t], the parameter of the driver an [int]. *)
Definition RegEvent (f : Z) (op : EventsDriver.Op) (ev : EventsDriver.Event) (c : ptr) (timeo : Z) : A bool :=
  on_driver (fun d => EventsDriver.RegEvent d f op ev c (i32 timeo)).

(** [SendBackMsg_]: tries until the scheduler's mailbox takes the message. *)
Fixpoint SendBack_loop (n : nat) (m : Msg.MsgSession) : A () :=
  match n with
  | O => ub
  | S n =>
      ret ← on_world (call (scheduler_SendMsg m));
      if (ret : bool) then mret () else SendBack_loop n m
  end.
Definition SendBackMsg_ (m : Msg.MsgSession) : A () := SendBack_loop Protocol.fuel m.

Definition CloseFd_ (f : Z) : A () := on_world (IOHelper.Close f).
Definition CloseFdClient_ (f : Z) : A () :=
  modify (fun a => set_clients (num_clients_keepalive_ a - 1) a);; CloseFd_ f.

(** [CheckEventCtxTimeout_]: false when the time of the event is up. *)
Definition CheckEventCtxTimeout_ (c : ptr) (timeleft_ms : Z) : A bool :=
  now ← on_world (IOHelper.GetCurrentMsec false);
  e ← load_ctx c;
  let consumed := now - EventCtx.lasttime_ms e in
  if EventCtx.timeleft_ms e <=? consumed then mret false
  else
    store_ctx c (EventCtx.mkCtx (EventCtx.category e) (EventCtx.fd e)
      (if timeleft_ms =? 0 then EventCtx.timeleft_ms e - consumed else timeleft_ms) now (EventCtx.data e));;
    mret true.

(** [events_driver_.RegEvent(..., event_ctx.timeleft_ms)] for an event that
    continues. *)
Definition ModEvent (f : Z) (ev : EventsDriver.Event) (c : ptr) : A bool :=
  e ← load_ctx c;
  RegEvent f EventsDriver.kModEvent ev c (EventCtx.timeleft_ms e).

(** The common [ERROR_HANDLE] of the three handlers of a talk: the event is
    removed, and a talk that failed is closed. *)
Definition end_event (v : ptr) (i : nat) (err : Z) : A bool :=
  t ← load_talk v i;
  let t := set_error t err in
  store_talk v i t;;
  RegEventDel (fd t);;
  when (negb (err =? ErrorNo.kOk)) (CloseFd_ (fd t);; store_talk v i (set_fd t (-1)));;
  mret false.

(** The handlers return whether the talk needs more events. *)
Definition HandleSessionEventConn_ (v : ptr) (i : nat) (c : ptr) : A bool :=
  t ← load_talk v i;
  let t := set_status t (if decide (category t = kReadOnly) then kRead else kWrite) in
  store_talk v i t;;
  now ← on_world (IOHelper.GetCurrentMsec false);
  rp ← deref (remote t);
  r ← load_remote rp;
  ret ← CheckEventCtxTimeout_ c
          (Z.min (endtime_ms t - now) (if decide (category t <> kReadOnly) then wtimeo_ms r else rtimeo_ms r));
  if negb ret then end_event v i ErrorNo.kTimeout
  else
    ret ← ModEvent (fd t) (if decide (category t <> kReadOnly) then EventsDriver.kOut else EventsDriver.kIn) c;
    if negb ret then end_event v i ErrorNo.kOther else mret true.

Definition HandleSessionEventRead_ (v : ptr) (i : nat) (c : ptr) : A bool :=
  t ← load_talk v i;
  pr ← deref (protocol_read t);
  o ← on_protos (Protocols.load_read pr);
  '(ret, o) ← on_world (Protocols.RRead o (fd t));
  on_protos (Protocols.store_read pr o);;
  if ret =? 0 then
    let '(ok, o) := Protocols.RDecode o in
    on_protos (Protocols.store_read pr o);;
    end_event v i (if (ok : bool) then ErrorNo.kOk else ErrorNo.kDecode)
  else if 0 <? ret then
    ret ← CheckEventCtxTimeout_ c 0;
    if negb ret then end_event v i ErrorNo.kTimeout
    else
      ret ← ModEvent (fd t) EventsDriver.kIn c;
      if negb ret then end_event v i ErrorNo.kOther else mret true
  else end_event v i ErrorNo.kBroken.

Definition HandleSessionEventWrite_ (v : ptr) (i : nat) (c : ptr) : A bool :=
  t ← load_talk v i;
  pw ← deref (protocol_write t);
  o ← on_protos (Protocols.load_write pw);
  '(ret, o) ← on_world (Protocols.WWrite o (fd t));
  on_protos (Protocols.store_write pw o);;
  if ret =? 0 then
    if decide (category t = kWriteAndRead) then
      now ← on_world (IOHelper.GetCurrentMsec false);
      rp ← deref (remote t);
      r ← load_remote rp;
      ret ← CheckEventCtxTimeout_ c (Z.min (endtime_ms t - now) (rtimeo_ms r));
      if negb ret then end_event v i ErrorNo.kTimeout
      else
        store_talk v i (set_status t kRead);;
        ret ← ModEvent (fd t) EventsDriver.kIn c;
        if negb ret then end_event v i ErrorNo.kOther else mret true
    else end_event v i ErrorNo.kOk
  else if 0 <? ret then
    ret ← CheckEventCtxTimeout_ c 0;
    if negb ret then end_event v i ErrorNo.kTimeout
    else
      ret ← ModEvent (fd t) EventsDriver.kOut c;
      if negb ret then end_event v i ErrorNo.kOther else mret true
  else end_event v i ErrorNo.kBroken.

(** The session and talk of a context. *)
Definition session_of (e : EventCtx.EventCtx) : A (ptr * nat) :=
  match EventCtx.data e with EventCtx.DSession s i => mret (s, i) | _ => ub end.

(** The event of the talk [t]: whether the talk needs more events. *)
Definition dispatch (ev : EventsDriver.Event) (v : ptr) (i : nat) (c : ptr) (t : Talk) : A bool :=
  match ev with
  | EventsDriver.kErr =>
      RegEventDel (fd t);;
      CloseFd_ (fd t);;
      store_talk v i (set_error (set_fd t (-1)) ErrorNo.kBroken);;
      mret false
  | _ =>
      match status t with
      | kConn => HandleSessionEventConn_ v i c
      | kRead => HandleSessionEventRead_ v i c
      | kWrite => HandleSessionEventWrite_ v i c
      | _ => mret false
      end
  end.

(** [CheckSession_]: whether the session has finished. *)
Definition CheckSession_ (ev : EventsDriver.Event) (c : ptr) : A bool :=
  e ← load_ctx c;
  '(s, i) ← session_of e;
  x ← load_session s;
  let v := talks_ x in
  t ← load_talk v i;
  more ← dispatch ev v i c t;
  if (more : bool) then mret false
  else
    t ← load_talk v i;
    FreeEventCtx c;;
    FinishTalk conf s (error t =? ErrorNo.kOk) v i.

(** [BuildForSession] of a finished session, [SendBackMsg_] and
    [pool_sessions_->Free]. *)
Definition FreeSession (s : ptr) : A () := fun a =>
  match PoolObjs.Free (pool_sessions_ a) (Some s) (sessions a) with
  | Some (p, st) => Some ((), set_sessions st p a)
  | None => None
  end.
Definition finish_session (s : ptr) (err : Session -> Z) : A () :=
  x ← load_session s;
  SendBackMsg_ (Msg.BuildForSession (biz_ctx_ x) (biz_procedure_ x) (talks_ x) 0 (err x));;
  FreeSession s.

(** [HandleReadReq_]: 0 when a request has arrived, positive when more is
    expected, negative on an error. *)
Definition HandleReadReq_ (c : ptr) : A Z :=
  e ← load_ctx c;
  let fail (ret : Z) : A Z := RegEventDel (EventCtx.fd e);; mret ret in
  pr ← match EventCtx.data e with EventCtx.DReadReq _ _ pr => deref pr | _ => ub end;
  o ← on_protos (Protocols.load_read pr);
  '(ret, o) ← on_world (Protocols.RRead o (EventCtx.fd e));
  on_protos (Protocols.store_read pr o);;
  if ret =? 0 then
    let '(ok, o) := Protocols.RDecode o in
    on_protos (Protocols.store_read pr o);;
    fail (if (ok : bool) then 0 else -1)
  else if 0 <? ret then
    ok ← CheckEventCtxTimeout_ c 0;
    if negb ok then fail (-1)
    else
      ok ← ModEvent (EventCtx.fd e) EventsDriver.kIn c;
      if negb ok then fail (-1) else mret 1
  else fail ret.

(** The [ERROR_HANDLE] of a client's request. *)
Definition drop_client (c : ptr) : A () :=
  e ← load_ctx c;
  CloseFdClient_ (EventCtx.fd e);;
  store_ctx c (EventCtx.mkCtx (EventCtx.category e) (-1) (EventCtx.timeleft_ms e) (EventCtx.lasttime_ms e) (EventCtx.data e));;
  pr ← match EventCtx.data e with EventCtx.DReadReq _ _ pr => deref pr | _ => ub end;
  on_protos (Protocols.FreeRead pr);;
  FreeEventCtx c.

Definition CheckReadReq (ev : EventsDriver.Event) (c : ptr) : A () :=
  e ← load_ctx c;
  if decide (ev <> EventsDriver.kErr) then
    ret ← HandleReadReq_ c;
    if ret =? 0 then
      e ← load_ctx c;
      match EventCtx.data e with
      | EventCtx.DReadReq id start pr =>
          ok ← on_world (call (SendToOneWorker (Msg.BuildForNewReq id (EventCtx.fd e) start pr)));
          if (ok : bool) then
            store_ctx c (EventCtx.mkCtx (EventCtx.category e) (EventCtx.fd e) (EventCtx.timeleft_ms e)
              (EventCtx.lasttime_ms e) (EventCtx.DReadReq id start None));;
            FreeEventCtx c
          else drop_client c
      | _ => ub
      end
    else if 0 <? ret then mret ()
    else drop_client c
  else RegEventDel (EventCtx.fd e);; drop_client c.

(** [while (read(fd, buf, 1) > 0)]. *)
Fixpoint ClearReadBuf (n : nat) (f : Z) : A () :=
  match n with
  | O => ub
  | S n => r ← on_world (call (sys_read1 f)); if 0 <? r then ClearReadBuf n f else mret ()
  end.

Definition CheckEvent (i : nat) : A () :=
  a ← gets id;
  '(ev, c) ← deref (EventsDriver.CheckReadyEvent (events_driver_ a) i);
  c ← deref c;
  e ← load_ctx c;
  match EventCtx.category e with
  | EventCtx.kSession =>
      ret ← CheckSession_ ev c;
      if (ret : bool) then
        e ← load_ctx c;
        '(s, _) ← session_of e;
        finish_session s (fun x => if negb (has_failure_ x) then ErrorNo.kOk else ErrorNo.kPartial)
      else mret ()
  | EventCtx.kReadReq => CheckReadReq ev c
  | EventCtx.kMailboxNotify => ClearReadBuf Protocol.fuel (EventCtx.fd e)
  | EventCtx.kListen => mret ()
  end.

Fixpoint CheckEvents_loop (n : nat) (i : nat) : A () :=
  match n with
  | O => mret ()
  | S n => CheckEvent i;; CheckEvents_loop n (S i)
  end.

Definition CheckEvents_ : A bool :=
  num_events_ready ← on_driver (fun d => EventsDriver.Wait d (if Confs.low_latency_ conf then 0 else 1));
  if 0 <? num_events_ready then CheckEvents_loop (Z.to_nat num_events_ready) 0;; mret true else mret false.

(** ** Timeouts *)

Definition CleanTimeout_session (c : ptr) (e : EventCtx.EventCtx) : A () :=
  '(s, i) ← session_of e;
  x ← load_session s;
  t ← load_talk (talks_ x) i;
  CloseFd_ (fd t);;
  store_talk (talks_ x) i (set_fd t (-1));;
  ret ← FinishTalk conf s false (talks_ x) i;
  if (ret : bool) then
    e ← load_ctx c;
    '(s, _) ← session_of e;
    finish_session s (fun _ => ErrorNo.kPartial)
  else mret ().

Definition CleanTimeout_client (c : ptr) (e : EventCtx.EventCtx) : A () :=
  CloseFdClient_ (EventCtx.fd e);;
  store_ctx c (EventCtx.mkCtx (EventCtx.category e) (-1) (EventCtx.timeleft_ms e) (EventCtx.lasttime_ms e) (EventCtx.data e));;
  match EventCtx.data e with
  | EventCtx.DReadReq _ _ (Some pr) => on_protos (Protocols.FreeRead pr)
  | EventCtx.DReadReq _ _ None => mret ()
  | _ => ub
  end.

Definition CleanTimeout (c : ptr) : A () :=
  e ← load_ctx c;
  match EventCtx.category e with
  | EventCtx.kSession => CleanTimeout_session c e
  | EventCtx.kReadReq => CleanTimeout_client c e
  | _ => mret ()
  end;;
  FreeEventCtx c.

Fixpoint CleanTimeouts_loop (l : list ptr) : A () :=
  match l with
  | [] => mret ()
  | c :: l => CleanTimeout c;; CleanTimeouts_loop l
  end.

Definition CleanTimeouts_ : A bool :=
  timeouts ← on_driver (fun d => EventsDriver.RemoveTimeouts d);
  CleanTimeouts_loop timeouts;;
  mret (negb (length timeouts =? 0)%nat).

(** ** The mailbox *)

Fixpoint FreeFds (l : list Msg.CachedFd) : A () :=
  match l with
  | [] => mret ()
  | (f, rp) :: l =>
      r ← load_remote rp;
      on_conns (fun m => m ← ConnsMgr.FreeFd m r f; mret ((), m));;
      FreeFds l
  end.

Definition HandleMsgDestruct_ (m : Msg.MsgDestruct) : A () :=
  FreeFds (Msg.cached_fds m);;
  pr ← deref (Msg.md_protocol_read m);
  if Msg.md_fd_client m <=? 0 then
    modify (fun a => set_clients (num_clients_keepalive_ a - 1) a);;
    on_protos (Protocols.FreeRead pr)
  else
    now ← on_world (IOHelper.GetCurrentSec false);
    let timeleft_ms := Z.min ((Msg.md_fd_client_starttime_sec m + Confs.client_keepalive_sec_ conf - now + 1) * 1000)
                         (Confs.cn_rtimeo_ms conf) in
    if timeleft_ms <=? 0 then
      CloseFdClient_ (Msg.md_fd_client m);; on_protos (Protocols.FreeRead pr)
    else
      c ← GetEventCtx;
      e ← on_world (EventCtx.BuildForReadReq (Msg.md_fd_client m) (Msg.md_id_procedure m)
                      (Msg.md_fd_client_starttime_sec m) pr timeleft_ms);
      store_ctx c e;;
      o ← on_protos (Protocols.load_read pr);
      on_protos (Protocols.store_read pr (Protocols.RReset o None));;
      ret ← RegEvent (Msg.md_fd_client m) EventsDriver.kAddEvent EventsDriver.kIn c (EventCtx.timeleft_ms e);
      if (ret : bool) then mret ()
      else
        CloseFdClient_ (Msg.md_fd_client m);;
        on_protos (Protocols.FreeRead pr);;
        FreeEventCtx c.

Definition HandleMsgSession (m : Msg.MsgSession) : A () :=
  s ← (fun a => match PoolObjs.Get (pool_sessions_ a) (sessions a) with
                | Some ((Some s, p), st) => Some (s, set_sessions st p a)
                | _ => None
                end);
  ret ← Reset conf s (Msg.ms_biz_ctx m) (Msg.ms_biz_procedure m) (Msg.ms_talks m);
  if (ret : bool) then mret ()
  else SendBackMsg_ (Msg.mkMsgSession (Msg.ms_biz_ctx m) (Msg.ms_biz_procedure m) (Msg.ms_talks m)
                       (Msg.ms_timeo_ms m) ErrorNo.kBroken).

Definition HandleMsgReadReq (m : Msg.MsgReadReq) : A () :=
  modify (fun a => set_clients (num_clients_keepalive_ a + 1) a);;
  pr ← on_protos (Protocols.GetRead (Protocol.la_category (Msg.rr_listen_addr m)));
  pr ← deref pr;
  o ← on_protos (Protocols.load_read pr);
  on_protos (Protocols.store_read pr (Protocols.RReset o (Some (Msg.rr_listen_addr m))));;
  c ← GetEventCtx;
  e ← on_world (EventCtx.BuildForReadReq (Msg.rr_fd_client m) (Msg.rr_id_procedure m)
                  (Msg.rr_fd_client_starttime_sec m) pr (Confs.cn_rtimeo_ms conf));
  store_ctx c e;;
  ret ← RegEvent (Msg.rr_fd_client m) EventsDriver.kAddEvent EventsDriver.kIn c (EventCtx.timeleft_ms e);
  if (ret : bool) then mret ()
  else
    CloseFdClient_ (Msg.rr_fd_client m);;
    on_protos (Protocols.FreeRead pr);;
    FreeEventCtx c.

Definition HandleMsg (m : Msg.Msg) : A () :=
  match m with
  | Msg.Config =>
      rs ← on_world (call current_remotes);
      on_conns (fun c => c ← deref (ConnsMgr.ConfigRemotes c rs); mret ((), c))
  | Msg.Session m => HandleMsgSession m
  | Msg.ReadReq m => HandleMsgReadReq m
  | Msg.Destruct m => HandleMsgDestruct_ m
  | _ => mret ()
  end.

(** The number of mails processed. *)
Fixpoint CheckMailbox_loop (n : nat) (num_mails : nat) : A nat :=
  match n with
  | O => mret num_mails
  | S n =>
      msg ← on_world (call mailbox_ReceiveMsg);
      match msg with
      | None => mret num_mails
      | Some m =>
          HandleMsg m;;
          on_world (modify mailbox_MsgConsumed);;
          CheckMailbox_loop n (S num_mails)
      end
  end.
Definition CheckMailbox_ : A bool :=
  n ← CheckMailbox_loop kMaxNumMailsProcessedOnce 0;
  mret (negb (n =? 0)%nat).

(** ** The loop *)

Fixpoint Process_loop (n : nat) : A () :=
  match n with
  | O => ub
  | S n =>
      r1 ← CheckEvents_;
      r2 ← CleanTimeouts_;
      r3 ← CheckMailbox_;
      if (r1 || r2 || r3 : bool) then Process_loop n else mret ()
  end.
Definition Process_ : A () := Process_loop Protocol.fuel.

(** [Stop], after the thread has been joined. *)
Fixpoint Stop_loop (l : list ptr) : A () :=
  match l with
  | [] => mret ()
  | c :: l =>
      e ← load_ctx c;
      match EventCtx.category e, EventCtx.data e with
      | EventCtx.kReadReq, EventCtx.DReadReq _ _ (Some pr) => on_protos (Protocols.FreeRead pr)
      | _, _ => mret ()
      end;;
      FreeEventCtx c;;
      Stop_loop l
  end.
Definition Stop : A () :=
  l ← on_driver (fun d => EventsDriver.ClearAll d);
  Stop_loop l.

End Agent.
End AgentSlave.
