(* ===== verification/AgentFrame.v ===== *)
(** * AgentFrame: what the thread of an agent leaves alone

    A relation on worlds that every call an agent makes respects is respected
    by the whole loop of the agent and by [Stop].  The theorem about threads
    uses it: the work of an agent neither starts nor joins a thread. *)

From Stdlib Require Import ZArith Lia.
From stdpp Require Import base list gmap numbers option.
From S2P Require Import Prelude Os Protocol Rapid Redis IOHelper Model ConnsMgr EventsDriver PoolObjs Protocols Fds Confs EventCtx Msg Session AgentSlave.
Import Os Buffer Model.

(** The calls of an agent beyond those of [Inert]. *)
Class AgentInert {W : Type} `{NI : !NetIO W, SK : !Sock W, CK : !Clock W, EP : !Epoll W, PE : !Peers W} (R : relation W) : Prop := {
  ag_inert :: Inert R;
  ag_close fd w : R w (sys_close fd w);
  ag_send m w : R w (scheduler_SendMsg m w).2;
  ag_worker m w : R w (SendToOneWorker m w).2;
  ag_receive w : R w (mailbox_ReceiveMsg w).2;
  ag_consumed w : R w (mailbox_MsgConsumed w);
  ag_remotes w : R w (current_remotes w).2;
  ag_read1 fd w : R w (sys_read1 fd w).2;
}.

Module AgentFrame.
Import Session AgentSlave Inert.
Section Frame.
Context {W Q : Type} `{NI : !NetIO W, SK : !Sock W, CK : !Clock W, EP : !Epoll W, PE : !Peers W,
  TQ : !TimeoutQueue Q, RD : !Rand, MA : !Malloc} {FU : Protocol.Fuel}.
Context (conf : Confs.ConfNormal) (R : relation W) `{AI : !AgentInert R}.

#[local] Instance inert_here : Inert R := ag_inert.
#[local] Instance world_pre : PreOrder R := in_pre.
(** Two agents whose worlds are related. *)
Definition worlds (a a' : Session.Agent W Q) : Prop := R (world a) (world a').
#[local] Instance worlds_pre : PreOrder worlds.
Proof. split; [intros a; unfold worlds; reflexivity|]. intros a b c. unfold worlds. apply transitivity. Qed.

Lemma on_world_keeps {A} (m : M W A) : keeps R m -> keeps worlds (on_world (Q := Q) m).
Proof. intros H. eapply keeps_zoom; [exact H|done]. Qed.
Lemma on_driver_keeps {A} (f : EventsDriver.EventsDriver Q -> M W (A * EventsDriver.EventsDriver Q)) :
  (forall d, keeps R (f d)) -> keeps worlds (on_driver f).
Proof. intros H a r a'. unfold on_driver. destruct (f _ _) as [[[x d] w]|] eqn:E; [|done]. intros [= <- <-]. exact (H _ _ _ _ E). Qed.
Lemma on_conns_keeps {A} (f : ConnsMgr.ConnsMgr -> M W (A * ConnsMgr.ConnsMgr)) :
  (forall m, keeps R (f m)) -> keeps worlds (on_conns (Q := Q) f).
Proof. intros H a r a'. unfold on_conns. destruct (f _ _) as [[[x m] w]|] eqn:E; [|done]. intros [= <- <-]. exact (H _ _ _ _ E). Qed.
Lemma on_protos_keeps {A} (m : M Protocols.Protos A) : keeps worlds (on_protos m).
Proof. intros a r a' (p & E & ->)%zoom_inv. unfold worlds. cbn. reflexivity. Qed.
Lemma same_keeps (f : Session.Agent W Q -> Session.Agent W Q) : (forall a, world (f a) = world a) -> keeps worlds (modify f).
Proof. intros H. apply keeps_modify. intros a. unfold worlds. rewrite H. reflexivity. Qed.
Hint Resolve on_protos_keeps : frame.
Hint Extern 1 (keeps worlds (modify _)) => apply same_keeps; intros; reflexivity : frame.
Ltac agent_frame := repeat first [frame_step | apply on_world_keeps | apply on_driver_keeps; intros | apply on_conns_keeps; intros].
Hint Extern 1 (R _ _) => first [apply ag_close | apply ag_send | apply ag_worker | apply ag_receive | apply ag_consumed | apply ag_remotes | apply ag_read1] : frame.
Ltac by_inert := first [apply inert_Msec | apply inert_Sec | apply inert_RRead | apply inert_WWrite | apply inert_Wait | apply inert_RegEventDel |
  apply inert_RegEvent | apply inert_RemoveTimeouts | apply inert_FreeFd | apply inert_GetFd | apply inert_Close | apply inert_raii];
  first [apply inert_here | intros; apply ag_close].
Hint Extern 3 (keeps R _) => by_inert : frame.

Lemma ctx_get_keeps : keeps worlds (GetEventCtx (W := W) (Q := Q)).
Proof. intros a c a'. unfold GetEventCtx. destruct (PoolObjs.Get _ _) as [[[[?|] ?] ?]|]; try done. intros [= <- <-]. unfold worlds. cbn. reflexivity. Qed.
Lemma ctx_free_keeps c : keeps worlds (FreeEventCtx (W := W) (Q := Q) c).
Proof. intros a r a'. unfold FreeEventCtx. destruct (PoolObjs.Free _ _ _) as [[? ?]|]; try done. intros [= <- <-]. unfold worlds. cbn. reflexivity. Qed.
Lemma session_free_keeps s : keeps worlds (FreeSession (W := W) (Q := Q) s).
Proof. intros a r a'. unfold FreeSession. destruct (PoolObjs.Free _ _ _) as [[? ?]|]; try done. intros [= <- <-]. unfold worlds. cbn. reflexivity. Qed.
Hint Resolve ctx_get_keeps ctx_free_keeps session_free_keeps : frame.

Lemma load_ctx_keeps c : keeps worlds (load_ctx (W := W) (Q := Q) c).
Proof. unfold load_ctx. frame. Qed.
Lemma store_ctx_keeps c e : keeps worlds (store_ctx (W := W) (Q := Q) c e).
Proof. unfold store_ctx. frame. Qed.
Lemma load_session_keeps s : keeps worlds (load_session (W := W) (Q := Q) s).
Proof. unfold load_session. frame. Qed.
Lemma store_session_keeps s x : keeps worlds (store_session (W := W) (Q := Q) s x).
Proof. unfold store_session. frame. Qed.
Hint Resolve load_ctx_keeps store_ctx_keeps load_session_keeps store_session_keeps : frame.
Lemma load_talk_keeps v i : keeps worlds (load_talk (W := W) (Q := Q) v i).
Proof. unfold load_talk. frame. Qed.
Lemma store_talk_keeps v i t : keeps worlds (store_talk (W := W) (Q := Q) v i t).
Proof. unfold store_talk. frame. Qed.
Lemma num_talks_keeps v : keeps worlds (num_talks (W := W) (Q := Q) v).
Proof. unfold num_talks. frame. Qed.
Lemma load_remote_keeps r : keeps worlds (load_remote (W := W) (Q := Q) r).
Proof. unfold load_remote. frame. Qed.
Lemma set_failure_keeps s : keeps worlds (set_failure (W := W) (Q := Q) s).
Proof. unfold set_failure. frame. Qed.
Lemma set_done_keeps s n : keeps worlds (set_done (W := W) (Q := Q) s n).
Proof. unfold set_done. frame. Qed.
Hint Resolve load_talk_keeps store_talk_keeps num_talks_keeps load_remote_keeps set_failure_keeps set_done_keeps : frame.

(** *** Sessions *)

Lemma talk_timeout_keeps t : keeps worlds (talk_timeout (W := W) (Q := Q) conf t).
Proof using AI. unfold talk_timeout. agent_frame. Qed.
Hint Resolve talk_timeout_keeps : frame.
Lemma ResetTalk_fd_keeps s v i : keeps worlds (ResetTalk_fd (W := W) (Q := Q) s v i).
Proof using AI. unfold ResetTalk_fd. agent_frame. Qed.
Lemma ResetTalk_encode_keeps s v i r : keeps worlds (ResetTalk_encode (W := W) (Q := Q) s v i r).
Proof using AI. unfold ResetTalk_encode. agent_frame. Qed.
Lemma ResetTalk_event_keeps s v i : keeps worlds (ResetTalk_event (W := W) (Q := Q) conf s v i).
Proof using AI. unfold ResetTalk_event, EventCtx.BuildForSession. agent_frame. Qed.
Hint Resolve ResetTalk_fd_keeps ResetTalk_encode_keeps ResetTalk_event_keeps : frame.
Lemma ResetTalk_keeps s v i r : keeps worlds (ResetTalk_ (W := W) (Q := Q) conf s v i r).
Proof using AI. unfold ResetTalk_. agent_frame. Qed.
Hint Resolve ResetTalk_keeps : frame.
Lemma Reset_loop_keeps n : forall s v i, keeps worlds (Reset_loop (W := W) (Q := Q) conf n s v i).
Proof using AI. induction n as [|n IH]; intros s v i; cbn [Reset_loop]; agent_frame. Qed.
Hint Resolve Reset_loop_keeps : frame.
Lemma Reset_keeps s x p v : keeps worlds (Reset (W := W) (Q := Q) conf s x p v).
Proof using AI. unfold Reset. agent_frame. Qed.
Lemma FinishTalk_keeps s succ v i : keeps worlds (FinishTalk (W := W) (Q := Q) conf s succ v i).
Proof using AI. unfold FinishTalk, FinishTalk_report, FinishTalk_retry, ReportStatus. agent_frame. Qed.
Hint Resolve Reset_keeps FinishTalk_keeps : frame.

(** *** The loop *)

Lemma SendBack_keeps m : keeps worlds (SendBackMsg_ (W := W) (Q := Q) m).
Proof using AI. unfold SendBackMsg_. induction Protocol.fuel as [|n IH]; cbn [SendBack_loop]; agent_frame. Qed.
Hint Resolve SendBack_keeps : frame.
Lemma finish_session_keeps s err : keeps worlds (finish_session (W := W) (Q := Q) s err).
Proof using AI. unfold finish_session. agent_frame. Qed.
Lemma timeout_keeps c n : keeps worlds (CheckEventCtxTimeout_ (W := W) (Q := Q) c n).
Proof using AI. unfold CheckEventCtxTimeout_. agent_frame. Qed.
Lemma RegEvent_keeps f op ev c n : keeps worlds (RegEvent (W := W) (Q := Q) f op ev c n).
Proof using AI. unfold RegEvent. agent_frame. Qed.
Lemma RegEventDel_keeps f : keeps worlds (RegEventDel (W := W) (Q := Q) f).
Proof using AI. unfold RegEventDel. agent_frame. Qed.
Lemma CloseFd_keeps f : keeps worlds (CloseFd_ (W := W) (Q := Q) f).
Proof using AI. unfold CloseFd_. agent_frame. Qed.
Hint Resolve finish_session_keeps timeout_keeps RegEvent_keeps RegEventDel_keeps CloseFd_keeps : frame.
Lemma ModEvent_keeps f ev c : keeps worlds (ModEvent (W := W) (Q := Q) f ev c).
Proof using AI. unfold ModEvent. agent_frame. Qed.
Lemma end_event_keeps v i err : keeps worlds (end_event (W := W) (Q := Q) v i err).
Proof using AI. unfold end_event. agent_frame. Qed.
Lemma CloseFdClient_keeps f : keeps worlds (CloseFdClient_ (W := W) (Q := Q) f).
Proof using AI. unfold CloseFdClient_. agent_frame. Qed.
Hint Resolve ModEvent_keeps end_event_keeps CloseFdClient_keeps : frame.
Lemma dispatch_keeps ev v i c t : keeps worlds (dispatch (W := W) (Q := Q) ev v i c t).
Proof using AI.
  unfold dispatch, HandleSessionEventConn_, HandleSessionEventRead_, HandleSessionEventWrite_. agent_frame.
Qed.
Hint Resolve dispatch_keeps : frame.
Lemma session_of_keeps e : keeps worlds (session_of (W := W) (Q := Q) e).
Proof using AI. unfold session_of. agent_frame. Qed.
Hint Resolve session_of_keeps : frame.
Lemma CheckSession_keeps ev c : keeps worlds (CheckSession_ (W := W) (Q := Q) conf ev c).
Proof using AI. unfold CheckSession_. agent_frame. Qed.
Lemma drop_client_keeps c : keeps worlds (drop_client (W := W) (Q := Q) c).
Proof using AI. unfold drop_client. agent_frame. Qed.
Lemma HandleReadReq_keeps c : keeps worlds (HandleReadReq_ (W := W) (Q := Q) c).
Proof using AI. unfold HandleReadReq_. agent_frame. Qed.
Hint Resolve CheckSession_keeps drop_client_keeps HandleReadReq_keeps : frame.
Lemma CheckReadReq_keeps ev c : keeps worlds (CheckReadReq (W := W) (Q := Q) ev c).
Proof using AI. unfold CheckReadReq. agent_frame. Qed.
Lemma ClearReadBuf_keeps n : forall f, keeps worlds (ClearReadBuf (W := W) (Q := Q) n f).
Proof using AI. induction n as [|n IH]; intros f; cbn [ClearReadBuf]; agent_frame. Qed.
Hint Resolve CheckReadReq_keeps ClearReadBuf_keeps : frame.
Lemma CheckEvents_loop_keeps n : forall i, keeps worlds (CheckEvents_loop (W := W) (Q := Q) conf n i).
Proof using AI. induction n as [|n IH]; intros i; cbn [CheckEvents_loop]; unfold CheckEvent; agent_frame. Qed.
Lemma CleanTimeouts_loop_keeps l : keeps worlds (CleanTimeouts_loop (W := W) (Q := Q) conf l).
Proof using AI.
  induction l as [|c l IH]; cbn [CleanTimeouts_loop]; unfold CleanTimeout, CleanTimeout_session, CleanTimeout_client; agent_frame.
Qed.
Lemma FreeFds_keeps l : keeps worlds (FreeFds (W := W) (Q := Q) l).
Proof using AI. induction l as [|[f r] l IH]; cbn [FreeFds]; agent_frame. Qed.
Hint Resolve CheckEvents_loop_keeps CleanTimeouts_loop_keeps FreeFds_keeps : frame.
Lemma HandleMsg_keeps m : keeps worlds (HandleMsg (W := W) (Q := Q) conf m).
Proof using AI.
  unfold HandleMsg, HandleMsgSession, HandleMsgReadReq, HandleMsgDestruct_, EventCtx.BuildForReadReq. agent_frame.
  intros a r a'. destruct (PoolObjs.Get _ _) as [[[[?|] ?] ?]|]; try done. intros [= <- <-]. unfold worlds. cbn. reflexivity.
Qed.
Hint Resolve HandleMsg_keeps : frame.
Lemma CheckMailbox_loop_keeps n : forall k, keeps worlds (CheckMailbox_loop (W := W) (Q := Q) conf n k).
Proof using AI. induction n as [|n IH]; intros k; cbn [CheckMailbox_loop]; agent_frame. Qed.
Hint Resolve CheckMailbox_loop_keeps : frame.

Lemma Process_keeps : keeps worlds (Process_ (W := W) (Q := Q) conf).
Proof using AI.
  unfold Process_. induction Protocol.fuel as [|n IH]; cbn [Process_loop]; unfold CheckEvents_, CleanTimeouts_, CheckMailbox_; agent_frame.
Qed.
Lemma ClearAll_keeps n : forall (d : EventsDriver.EventsDriver Q) fd acc, keeps R (EventsDriver.ClearAll_loop n d fd acc).
Proof using AI. induction n as [|n IH]; intros d fd acc; cbn [EventsDriver.ClearAll_loop]; agent_frame. Qed.
Lemma ClearAll_driver_keeps (d : EventsDriver.EventsDriver Q) : keeps R (EventsDriver.ClearAll d).
Proof using AI. unfold EventsDriver.ClearAll. agent_frame. apply ClearAll_keeps. Qed.
Hint Resolve ClearAll_driver_keeps : frame.
Lemma Stop_keeps : keeps worlds (Stop (W := W) (Q := Q)).
Proof using AI. unfold Stop. agent_frame. induction a as [|c l IH]; cbn [Stop_loop]; agent_frame. Qed.
End Frame.
End AgentFrame.
