(* ===== verification/SessionLaws.v ===== *)
(** * SessionLaws: every session is answered exactly once

    A session counts the talks that have ended; the other talks each wait in
    the events driver with a context that names the session.  The sum of both
    is the balance of the session.  This file shows that starting a talk,
    handling its events, its timeouts and its retries keep the balance of
    every session, so that the count reaches the number of talks exactly when
    nothing waits for the session any more. *)

From Stdlib Require Import ZArith Lia.
From stdpp Require Import base list gmap numbers option.
From S2P Require Import Prelude Os Protocol Rapid Redis IOHelper Model ConnsMgr EventsDriver PoolObjs Protocols Fds Confs EventCtx Msg Session AgentSlave.
Import Os Buffer Model.

Module SessionLaws.
Import TalkOps Session Inert Fds.
Section Laws.
Context {W Q : Type} `{NI : !NetIO W, SK : !Sock W, CK : !Clock W, EP : !Epoll W, PE : !Peers W, TQ : !TimeoutQueue Q,
  TQL : !TimeoutQueueLaws Q, RD : !Rand, MA : !Malloc, OS : !OpenSpec W} {FU : Protocol.Fuel}.
Context (conf : Confs.ConfNormal).
Abbreviation Agent := (Session.Agent W Q).

(** ** The balance *)

(** The context [c] names the session [s]. *)
Definition is_for (st : Store.Store EventCtx.EventCtx) (s : ptr) (c : Z) : bool :=
  match Store.load st c with
  | Some e => match EventCtx.data e with EventCtx.DSession s' _ => s' =? s | _ => false end
  | None => false
  end.
Definition count (st : Store.Store EventCtx.EventCtx) (cs : list Z) (s : ptr) : Z :=
  Z.of_nat (length (List.filter (is_for st s) cs)).
(** The talks of [s] that wait in the driver. *)
Definition waits (a : Agent) (s : ptr) : Z := count (event_ctxs a) (armed (events_driver_ a)) s.
Definition bal (a : Agent) (s : ptr) : option Z :=
  (fun x => num_talks_done_ x + waits a s) <$> Store.load (sessions a) s.

Lemma count_app st cs cs' s : count st (cs ++ cs') s = count st cs s + count st cs' s.
Proof. unfold count. rewrite List.filter_app, length_app. lia. Qed.
Lemma count_one st c s : count st [c] s = if is_for st s c then 1 else 0.
Proof. unfold count. cbn. by destruct (is_for st s c). Qed.
Lemma count_for st st' cs s : (forall c, c ∈ cs -> is_for st s c = is_for st' s c) -> count st cs s = count st' cs s.
Proof.
  intros H. unfold count. do 2 f_equal. induction cs as [|c cs IH]; [done|]. cbn. rewrite (H c) by apply list_elem_of_here.
  rewrite IH; [done|]. intros c' Hc. apply H. by apply list_elem_of_further.
Qed.
Lemma count_ext st st' cs s : (forall c, c ∈ cs -> Store.load st c = Store.load st' c) -> count st cs s = count st' cs s.
Proof. intros H. apply count_for. intros c Hc. unfold is_for. by rewrite H. Qed.
#[export] Instance count_perm st : Proper ((≡ₚ) ==> eq ==> eq) (count st).
Proof.
  intros l l' P s ? <-. unfold count. f_equal. induction P; cbn; try congruence.
  - by destruct (is_for st s x); cbn; rewrite IHP.
  - by destruct (is_for st s x), (is_for st s y).
Qed.
Lemma count_nonneg st cs s : 0 <= count st cs s.
Proof. unfold count. lia. Qed.

Lemma bal_ext (a a' : Agent) s : sessions a' = sessions a -> waits a' s = waits a s -> bal a' s = bal a s.
Proof. intros E1 E2. unfold bal. by rewrite E1, E2. Qed.

(** The balance of [s] moves by [k], that of every other session stays. *)
Definition moves (s : ptr) (k : Z) (a a' : Agent) : Prop :=
  forall s', bal a' s' = (fun n => if decide (s' = s) then n + k else n) <$> bal a s'.

Lemma moves_0 s a a' : (forall s', bal a' s' = bal a s') -> moves s 0 a a'.
Proof. intros H s'. rewrite H. destruct (bal a s'); [|done]. cbn. case_decide; f_equal; lia. Qed.
Lemma moves_same s a : moves s 0 a a.
Proof. by apply moves_0. Qed.
Lemma moves_trans s k k' a b c : moves s k a b -> moves s k' b c -> moves s (k + k') a c.
Proof. intros H H' s'. rewrite H', H. destruct (bal a s'); [|done]. cbn. case_decide; f_equal; lia. Qed.
Lemma moves_none s s' k a a' : moves s k a a' -> k = 0 -> bal a' s' = bal a s'.
Proof. intros H ->. rewrite H. destruct (bal a s'); [|done]. cbn. case_decide; f_equal; lia. Qed.

(** ** The state of an agent between two calls

    [own] are the contexts the running code holds: they are neither pooled nor
    waited for. *)
Record agent_ok (own : list Z) (a : Agent) : Prop := {
  ao_drv : EventsDriver.drv_ok (events_driver_ a);
  ao_fds : fds_ok (events_driver_ a) (conns_mgr_ a) (world a);
  ao_store : Store.ok (event_ctxs a);
  ao_pool : exists l, PoolObjs.valid (pool_event_ctxs_ a) l /\
    NoDup (l ++ own ++ armed (events_driver_ a)) /\
    forall c, c ∈ l ++ own ++ armed (events_driver_ a) -> is_Some (Store.load (event_ctxs a) c);
}.

Lemma own_perm (l own ar : list Z) c : l ++ (c :: own) ++ ar ≡ₚ c :: (l ++ own ++ ar).
Proof. cbn. by rewrite <- Permutation_middle. Qed.

Lemma agent_ok_perm own own' a : own ≡ₚ own' -> agent_ok own a -> agent_ok own' a.
Proof. intros P [A B C (l & V & N & S)]. split; [done..|]. exists l. rewrite <- P. split_and!; [done..|]. intros c. rewrite <- P. apply S. Qed.

(** A context that is lost. *)
Lemma ok_drop c own a : agent_ok (c :: own) a -> agent_ok own a.
Proof.
  intros [A B C (l & V & N & S)]. split; [done..|]. exists l. split_and!; [done|..].
  - rewrite own_perm in N. by apply list.NoDup_cons in N as [_ N].
  - intros x Hx. apply S. rewrite own_perm. by apply list_elem_of_further.
Qed.

(** A descriptor in the hands of a talk. *)
Definition held (a : Agent) (g : Z) : Prop :=
  opened (world a) g /\ ~ live_fd (events_driver_ a) g /\ g ∉ idle (conns_mgr_ a).
Definition talk_at (a : Agent) (v : ptr) (i : nat) : option Talk := l ← talk_vectors a !! v; l !! i.

(** What a descriptor is waited for: the part of its context that does not
    change while it waits. *)
Definition view (e : EventCtx.EventCtx) : EventCtx.Category * Z * EventCtx.Data := (EventCtx.category e, EventCtx.fd e, EventCtx.data e).
Definition sess (f : Z) (s : ptr) (i : nat) : EventCtx.Category * Z * EventCtx.Data := (EventCtx.kSession, f, EventCtx.DSession s i).
Definition watch (a : Agent) (f : Z) : option (EventCtx.Category * Z * EventCtx.Data) :=
  c ← ctx_at (events_driver_ a) f; view <$> Store.load (event_ctxs a) c.
Lemma view_data e f s i : view e = sess f s i -> EventCtx.data e = EventCtx.DSession s i.
Proof. by intros [= _ _ ->]. Qed.

Lemma watch_ext own a a' f : agent_ok own a -> events_driver_ a' = events_driver_ a ->
  (forall c, c ∈ armed (events_driver_ a) -> Store.load (event_ctxs a') c = Store.load (event_ctxs a) c) -> watch a' f = watch a f.
Proof.
  intros [A1 _ _ _] D H. unfold watch. rewrite D. destruct (ctx_at (events_driver_ a) f) as [c|] eqn:C; [|done]. cbn.
  rewrite H; [done|]. apply ctx_at_armed; eauto.
Qed.

(** Steps that touch neither talks, driver, connections nor balances. *)
Record quiet (a a' : Agent) : Prop := {
  qu_talks : talk_vectors a' = talk_vectors a;
  qu_watch f : watch a' f = watch a f;
  qu_bal s : bal a' s = bal a s;
  qu_drv : events_driver_ a' = events_driver_ a;
  qu_conns : conns_mgr_ a' = conns_mgr_ a;
  qu_stay : stay (world a) (world a');
}.

Lemma quiet_trans a b c : quiet a b -> quiet b c -> quiet a c.
Proof. intros [A1 A2 A3 A4 A5 A6] [B1 B2 B3 B4 B5 B6]. split; [congruence|..|congruence|congruence|by etransitivity]; intros; [by rewrite B2|by rewrite B3]. Qed.
Lemma quiet_held a a' g : quiet a a' -> held a g -> held a' g.
Proof. intros [_ _ _ D C S] (H1 & H2 & H3). split_and!; [by apply S|by rewrite D|by rewrite C]. Qed.
Lemma quiet_talk_at a a' v i : quiet a a' -> talk_at a' v i = talk_at a v i.
Proof. intros [T _ _ _ _ _]. unfold talk_at. by rewrite T. Qed.
Lemma quiet_moves s k a a' b : quiet a a' -> moves s k a' b -> moves s k a b.
Proof. intros [_ _ B _ _ _] M s'. by rewrite M, B. Qed.

(** *** Calls that leave the contexts alone *)

Lemma world_law {A} (m : M W A) own r a a' : keeps stay m -> agent_ok own a -> on_world m a = Some (r, a') ->
  agent_ok own a' /\ quiet a a' /\ exists w, a' = set_world w a.
Proof.
  intros K [A1 B C D] (w & E & ->)%zoom_inv. apply K in E. split_and!; [|by split|by eexists].
  split; [done| |done|done]. by eapply fds_ok_stay.
Qed.

(** Closing a descriptor nobody waits for and that is not idle. *)
Lemma close_law f own a a' : agent_ok own a -> held a f -> on_world (IOHelper.Close f) a = Some ((), a') ->
  agent_ok own a' /\ (exists w, a' = set_world w a) /\ forall g, held a g -> g <> f -> held a' g.
Proof.
  intros [A1 [B1 B2 B3 B4 B5] C D] (Ho & Nl & Ni) (w & [= <-] & ->)%zoom_inv. split_and!; [|by eexists|].
  2: { intros g (H1 & H2 & H3) N. split_and!; [by apply opened_close|done|done]. }
  split; [done| |done|done]. split; [..|done|done|done]; cbn.
  - intros g Hg. apply opened_close; [by intros ->|by apply B1].
  - intros g Hg. split; [|by apply B2]. apply opened_close; [by intros ->|by apply B2].
Qed.

Lemma GetEventCtx_law own a c a' : agent_ok own a -> GetEventCtx a = Some (c, a') ->
  agent_ok (c :: own) a' /\ quiet a a' /\ forall q e, Store.load (event_ctxs a) q = Some e -> Store.load (event_ctxs a') q = Some e.
Proof.
  intros [A1 B C (l & V & N & S)]. unfold GetEventCtx.
  destruct (PoolObjs.Get_spec _ l (event_ctxs a) V C) as (o & l' & p' & st' & -> & V' & C' & _ & K & Cs).
  intros [= <- <-]. split_and!; [| |exact K].
  - split; [done..|]. exists l'. split; [done|]. cbn [event_ctxs set_ctxs events_driver_]. destruct Cs as [[-> ->]|(-> & Nd & Nw)].
    + rewrite <- !app_assoc in N, S. done.
    + cbn [app] in N, S. assert (l' ++ (o :: own) ++ armed (events_driver_ a) =
        (l' ++ [o]) ++ own ++ armed (events_driver_ a)) as -> by by rewrite <- app_assoc.
      split.
      * apply list.NoDup_app. split_and!; [done| |done]. intros x Hx Hx'. apply Nw in Hx as [Hx _].
        destruct (S x Hx') as [e He]. destruct (proj2 C x ltac:(by eexists)). lia.
      * intros x. rewrite elem_of_app. intros [Hx|Hx]; [apply Nw in Hx as [_ Hx]; by eexists|].
        destruct (S x Hx) as [e He]. exists e. by apply K.
  - assert (forall x, x ∈ armed (events_driver_ a) -> Store.load st' x = Store.load (event_ctxs a) x) as Same.
    { intros x Hx. destruct (S x) as [e He]; [rewrite !elem_of_app; auto|]. rewrite He. by apply K. }
    split; [done|..|done|done|by intros g].
    + intros f. apply (watch_ext own); [|done|exact Same]. split; [done..|]. by exists l.
    + intros s. apply bal_ext; [done|]. apply count_ext. exact Same.
Qed.

Lemma FreeEventCtx_law own c a a' : agent_ok (c :: own) a -> FreeEventCtx c a = Some ((), a') ->
  (exists p, a' = set_ctxs (event_ctxs a) p a) /\ agent_ok own a'.
Proof.
  intros Ok. unfold FreeEventCtx. pose proof Ok as [A1 B C (l & V & N & S)].
  destruct (PoolObjs.Free_valid _ l c (event_ctxs a) V) as (p' & l' & -> & V' & _ & Cs). intros [= <-]. split; [by eexists|].
  split; [done..|]. cbn [event_ctxs set_ctxs events_driver_]. exists l'. split; [done|]. rewrite own_perm in N.
  assert (forall x, x ∈ c :: (l ++ own ++ armed (events_driver_ a)) -> is_Some (Store.load (event_ctxs a) x)) as S'
    by (intros x Hx; apply S; by rewrite own_perm).
  destruct Cs as [-> | ->].
  - assert ((l ++ [c]) ++ own ++ armed (events_driver_ a) ≡ₚ c :: (l ++ own ++ armed (events_driver_ a))) as P.
    { rewrite <- app_assoc. exact (own_perm l own _ c). }
    rewrite P. split; [done|]. intros x. rewrite P. apply S'.
  - split; [by apply list.NoDup_cons in N as [_ N]|]. intros x Hx. apply S'. by apply list_elem_of_further.
Qed.

Lemma own_not_armed own a c : agent_ok own a -> c ∈ own -> c ∉ armed (events_driver_ a).
Proof.
  intros [A1 B C (l & V & N & S)] Hc Ha. apply list.NoDup_app in N as (_ & _ & N).
  apply list.NoDup_app in N as (_ & N & _). by apply (N c).
Qed.

Lemma store_ctx_law own c e a a' : agent_ok own a -> c ∈ own -> store_ctx c e a = Some ((), a') ->
  agent_ok own a' /\ quiet a a' /\ Store.load (event_ctxs a') c = Some e /\ sessions a' = sessions a.
Proof.
  intros Ok Hc [= <-]. pose proof Ok as [A1 B C (l & V & N & S)]. split_and!; [| |apply Store.load_store|done].
  - assert (is_Some (Store.load (event_ctxs a) c)) as Sc by (apply S; rewrite !elem_of_app; auto).
    split; [done..| |]; cbn [event_ctxs set_ctxs]; [by apply Store.ok_store|]. exists l. split_and!; [done..|].
    intros x Hx. destruct (decide (x = c)) as [->|Ne].
    + rewrite Store.load_store. by eexists.
    + rewrite Store.load_store_ne by done. by apply S.
  - assert (forall x, x ∈ armed (events_driver_ a) -> Store.load (Store.store c e (event_ctxs a)) x = Store.load (event_ctxs a) x) as Same.
    { intros x Hx. apply Store.load_store_ne. intros <-. by apply (own_not_armed own a c Ok Hc). }
    split; [done|..|done|done|by intros g].
    + intros f. by apply (watch_ext own).
    + intros s. apply bal_ext; [done|]. apply count_ext. exact Same.
Qed.

(** *** Calls of the driver *)

Lemma driver_inv {A} (f : EventsDriver.EventsDriver Q -> M W (A * EventsDriver.EventsDriver Q)) r (a a' : Agent) :
  on_driver f a = Some (r, a') -> exists d w, f (events_driver_ a) (world a) = Some ((r, d), w) /\ a' = set_driver d w a.
Proof. unfold on_driver. destruct (f _ _) as [[[r0 d] w]|]; [|done]. intros [= <- <-]. eauto. Qed.

Lemma fds_driver (d d' : EventsDriver.EventsDriver Q) m w w' : fds_ok d m w -> stay w w' ->
  (forall f, live_fd d' f -> live_fd d f \/ opened w' f /\ f ∉ idle m) -> fds_ok d' m w'.
Proof.
  intros [A B C D E] St H. split; [..|done|done|done].
  - intros f [Hf|[Hf _]]%H; [by apply St, A|done].
  - intros f Hf. destruct (B f Hf) as [Ho Nl]. split; [by apply St|]. by intros [?|[_ ?]]%H.
Qed.

(** What is waited for changes at [f] only. *)
Definition rewatch (f : Z) (o : option (EventCtx.Category * Z * EventCtx.Data)) (a a' : Agent) : Prop :=
  forall g, watch a' g = if decide (g = f) then o else watch a g.

Lemma rewatch_driver f (c : option Z) d w (a : Agent) :
  (forall g, ctx_at d g = if decide (g = f) then c else ctx_at (events_driver_ a) g) ->
  rewatch f (c ← c; view <$> Store.load (event_ctxs a) c) a (set_driver d w a).
Proof. intros H g. unfold watch. cbn [events_driver_ set_driver event_ctxs]. rewrite H. by case_decide. Qed.

(** The contexts waited for change by [cs]. *)
Lemma moves_driver s k d w (a : Agent) :
  (forall s', count (event_ctxs a) (armed d) s' =
     count (event_ctxs a) (armed (events_driver_ a)) s' + if decide (s' = s) then k else 0) ->
  moves s k a (set_driver d w a).
Proof.
  intros H s'. unfold bal. cbn [sessions set_driver]. destruct (Store.load (sessions a) s') as [x|]; [|done]. cbn. f_equal.
  unfold waits. cbn [event_ctxs set_driver events_driver_]. rewrite H. case_decide; lia.
Qed.

Lemma is_for_spec st s c e i s' : Store.load st c = Some e -> EventCtx.data e = EventCtx.DSession s i ->
  is_for st s' c = bool_decide (s' = s).
Proof.
  intros L D. unfold is_for. rewrite L, D. destruct (Z.eqb_spec s s') as [->|N]; [by rewrite bool_decide_true|].
  by rewrite bool_decide_false by congruence.
Qed.

Section OneTalk.
Context (s : ptr) (i : nat) (c : ptr) (f : Z).

Lemma count_ctx st e s' : Store.load st c = Some e -> EventCtx.data e = EventCtx.DSession s i ->
  count st [c] s' = if decide (s' = s) then 1 else 0.
Proof. intros L D. rewrite count_one, (is_for_spec st s c e i s' L D). by case_decide; [rewrite bool_decide_true|rewrite bool_decide_false]. Qed.

Lemma add_any own e dir timeo b a a' : agent_ok (c :: own) a -> 0 <= f -> 0 <= timeo ->
  ~ live_fd (events_driver_ a) f -> f ∉ idle (conns_mgr_ a) -> opened (world a) f -> Store.load (event_ctxs a) c = Some e ->
  on_driver (fun d => EventsDriver.RegEvent d f EventsDriver.kAddEvent dir c timeo) a = Some (b, a') ->
  exists d w, a' = set_driver d w a /\ agent_ok (if b then own else c :: own) a' /\
    armed d ≡ₚ (if b then [c] else []) ++ armed (events_driver_ a) /\ rewatch f (if b then Some (view e) else None) a a' /\
    (forall g, held a g -> (b = true -> g <> f) -> held a' g).
Proof.
  intros Ok Hf Ht Nl Ni Ho L (d & w & E & ->)%driver_inv. exists d, w. split; [done|]. destruct Ok as [A1 B C (l & V & N & S)].
  destruct (armed_add _ f dir c timeo _ b d w A1 Hf Nl Ht E) as (Ok' & Ar & Lv & Cx & St).
  split_and!; [|done|apply rewatch_driver with (w := w) in Cx; destruct b; cbn in Cx; [by rewrite L in Cx|done]|intros g (H1 & H2 & H3) Ng; split_and!; [by apply St|rewrite Lv; naive_solver|done]].
  split; [done| |done|]; cbn [events_driver_ set_driver conns_mgr_ world event_ctxs].
  - eapply fds_driver; [done..|]. intros f' [?|[_ ->]]%Lv; [by left|right]. split; [by apply St|done].
  - exists l. split; [done|]. rewrite own_perm in N. destruct b.
    + assert (l ++ own ++ armed d ≡ₚ c :: (l ++ own ++ armed (events_driver_ a))) as P.
      { rewrite Ar. rewrite <- (own_perm l own). cbn. by rewrite (Permutation_middle own). }
      rewrite P. split; [done|]. intros x. rewrite P, <- own_perm. apply S.
    + rewrite own_perm, Ar. split; [done|]. intros x. rewrite own_perm, Ar, <- (own_perm l own). apply S.
Qed.

Lemma add_law own e dir timeo b a a' : agent_ok (c :: own) a -> 0 <= f -> 0 <= timeo ->
  ~ live_fd (events_driver_ a) f -> f ∉ idle (conns_mgr_ a) -> opened (world a) f ->
  Store.load (event_ctxs a) c = Some e -> view e = sess f s i ->
  on_driver (fun d => EventsDriver.RegEvent d f EventsDriver.kAddEvent dir c timeo) a = Some (b, a') ->
  exists d w, a' = set_driver d w a /\ agent_ok (if b then own else c :: own) a' /\
    moves s (if b then 1 else 0) a a' /\ rewatch f (if b then Some (sess f s i) else None) a a' /\
    (forall g, held a g -> (b = true -> g <> f) -> held a' g).
Proof.
  intros Ok Hf Ht Nl Ni Ho L Vw E. pose proof (view_data e f s i Vw) as D.
  eapply add_any in E as (d & w & -> & Ok' & Ar & Wa & Hg); [|done..]. exists d, w. rewrite Vw in Wa. split_and!; [done|done| |done|done].
  apply moves_driver. intros s'. rewrite Ar, count_app. destruct b; [rewrite (count_ctx _ e) by done|change (count (event_ctxs a) [] s') with 0]; case_decide; lia.
Qed.

(** The contexts in hand grow by what the driver gives up. *)
Lemma release own l d (a : Agent) : armed (events_driver_ a) ≡ₚ c :: armed d ->
  NoDup (l ++ own ++ armed (events_driver_ a)) /\
    (forall x, x ∈ l ++ own ++ armed (events_driver_ a) -> is_Some (Store.load (event_ctxs a) x)) ->
  NoDup (l ++ (c :: own) ++ armed d) /\
    (forall x, x ∈ l ++ (c :: own) ++ armed d -> is_Some (Store.load (event_ctxs a) x)).
Proof.
  intros Ar [N S]. assert (l ++ (c :: own) ++ armed d ≡ₚ l ++ own ++ armed (events_driver_ a)) as P.
  { rewrite Ar. cbn. by rewrite (Permutation_middle own). }
  rewrite P. split; [done|]. intros x. rewrite P. apply S.
Qed.

Lemma release_moves e d w (a : Agent) : armed (events_driver_ a) ≡ₚ c :: armed d ->
  Store.load (event_ctxs a) c = Some e -> EventCtx.data e = EventCtx.DSession s i -> moves s (-1) a (set_driver d w a).
Proof.
  intros Ar L D. apply moves_driver. intros s'. rewrite Ar. change (c :: armed d) with ([c] ++ armed d).
  rewrite count_app, (count_ctx _ e) by done. case_decide; lia.
Qed.

Lemma del_any own sl b a a' : agent_ok own a -> EventsDriver.slot (events_driver_ a) f = Some sl ->
  EventsDriver.sign_timeo sl <> 0%nat -> EventsDriver.context sl = Some c -> AgentSlave.RegEventDel f a = Some (b, a') ->
  exists d w, a' = set_driver d w a /\ agent_ok (c :: own) a' /\ armed (events_driver_ a) ≡ₚ c :: armed d /\ rewatch f None a a' /\
    (forall f', live_fd d f' <-> live_fd (events_driver_ a) f' /\ f' <> f) /\ stay (world a) w.
Proof.
  intros [A1 B C (l & V & NS)] Hs Hn Hc E. apply (driver_inv (fun d => _)) in E as (d & w & E & ->). exists d, w. split; [done|].
  destruct (armed_del _ f sl _ b d w A1 Hs E) as (Ok' & Ar & Lv & Cx & St). rewrite decide_False, Hc in Ar by done. cbn in Ar.
  split_and!; [|done|exact (rewatch_driver f None _ _ _ Cx)|done|done]. split; [done| |done|]; cbn [events_driver_ set_driver conns_mgr_ world event_ctxs].
  - eapply fds_driver; [done..|]. intros f' [? _]%Lv. by left.
  - exists l. split; [done|]. by apply release.
Qed.

Lemma del_law own sl e b a a' : agent_ok own a -> EventsDriver.slot (events_driver_ a) f = Some sl ->
  EventsDriver.sign_timeo sl <> 0%nat -> EventsDriver.context sl = Some c ->
  Store.load (event_ctxs a) c = Some e -> EventCtx.data e = EventCtx.DSession s i ->
  AgentSlave.RegEventDel f a = Some (b, a') ->
  exists d w, a' = set_driver d w a /\ agent_ok (c :: own) a' /\ moves s (-1) a a' /\ rewatch f None a a' /\
    (forall f', live_fd d f' <-> live_fd (events_driver_ a) f' /\ f' <> f) /\ stay (world a) w.
Proof.
  intros Ok Hs Hn Hc L D E. eapply del_any in E as (d & w & -> & Ok' & Ar & Wa & Lv & St); [|done..].
  exists d, w. split_and!; [done|done|by eapply release_moves|done..].
Qed.

Lemma del_unarmed own sl b a a' : agent_ok own a -> EventsDriver.slot (events_driver_ a) f = Some sl ->
  EventsDriver.sign_timeo sl = 0%nat -> AgentSlave.RegEventDel f a = Some (b, a') ->
  exists d w, a' = set_driver d w a /\ agent_ok own a' /\ moves s 0 a a' /\ rewatch f None a a' /\
    (forall f', live_fd d f' <-> live_fd (events_driver_ a) f' /\ f' <> f) /\ stay (world a) w.
Proof.
  intros [A1 B C (l & V & N & S)] Hs Hn E. apply (driver_inv (fun d => _)) in E as (d & w & E & ->). exists d, w. split; [done|].
  destruct (armed_del _ f sl _ b d w A1 Hs E) as (Ok' & Ar & Lv & Cx & St). rewrite decide_True in Ar by done. cbn in Ar.
  split_and!; [|apply moves_driver; intros s'; rewrite Ar; case_decide; lia|exact (rewatch_driver f None _ _ _ Cx)|done|done].
  split; [done| |done|]; cbn [events_driver_ set_driver conns_mgr_ world event_ctxs].
  - eapply fds_driver; [done..|]. intros f' [? _]%Lv. by left.
  - exists l. rewrite <- Ar. split_and!; [done..|]. intros x. rewrite <- Ar. apply S.
Qed.

Lemma mod_any own sl e dir timeo b a a' : agent_ok own a -> EventsDriver.slot (events_driver_ a) f = Some sl ->
  EventsDriver.sign_timeo sl <> 0%nat -> EventsDriver.context sl = Some c -> Store.load (event_ctxs a) c = Some e ->
  AgentSlave.RegEvent f EventsDriver.kModEvent dir c timeo a = Some (b, a') ->
  exists d w, a' = set_driver d w a /\ agent_ok (if b then own else c :: own) a' /\
    armed (events_driver_ a) ≡ₚ (if b then [] else [c]) ++ armed d /\ rewatch f (if b then Some (view e) else None) a a' /\
    (exists sl', EventsDriver.slot d f = Some sl' /\
      if b then EventsDriver.sign_timeo sl' <> 0%nat /\ EventsDriver.context sl' = Some c else EventsDriver.sign_timeo sl' = 0%nat) /\
    (forall f', live_fd d f' <-> live_fd (events_driver_ a) f' /\ (b = true \/ f' <> f)) /\ stay (world a) w.
Proof.
  intros [A1 B C (l & V & N & S)] Hs Hn Hc L E. apply (driver_inv (fun d => _)) in E as (d & w & E & ->). exists d, w. split; [done|].
  destruct (armed_mod _ f sl dir c (i32 timeo) _ b d w A1 Hs Hn E) as (Ok' & Ar & (sl' & Hs' & Hb) & Lv & St). rewrite Hc in Ar.
  pose proof (ctx_mod _ f sl dir c (i32 timeo) _ b d w A1 Hs Hn E) as Cx.
  assert (ctx_at (events_driver_ a) f = Some c) as Hc' by (apply ctx_at_Some; eauto).
  split_and!; [|by destruct b|apply rewatch_driver with (w := w) in Cx; rewrite Hc' in Cx; destruct b; cbn in Cx; [by rewrite L in Cx|done]
    |exists sl'; split; [done|destruct b; [|done]; split; [apply Hb|by rewrite <- Hc; apply Hb]]|done|done].
  split; [done| |done|]; cbn [events_driver_ set_driver conns_mgr_ world event_ctxs].
  - eapply fds_driver; [done..|]. intros f' [? _]%Lv. by left.
  - exists l. split; [done|]. destruct b; [|by apply release]. cbn in Ar. rewrite <- Ar. split; [done|]. intros x. rewrite <- Ar. apply S.
Qed.

Lemma mod_law own sl e dir timeo b a a' : agent_ok own a -> EventsDriver.slot (events_driver_ a) f = Some sl ->
  EventsDriver.sign_timeo sl <> 0%nat -> EventsDriver.context sl = Some c ->
  Store.load (event_ctxs a) c = Some e -> view e = sess f s i ->
  AgentSlave.RegEvent f EventsDriver.kModEvent dir c timeo a = Some (b, a') ->
  exists d w, a' = set_driver d w a /\ agent_ok (if b then own else c :: own) a' /\ moves s (if b then 0 else -1) a a' /\
    rewatch f (if b then Some (sess f s i) else None) a a' /\
    (exists sl', EventsDriver.slot d f = Some sl' /\
      if b then EventsDriver.sign_timeo sl' <> 0%nat /\ EventsDriver.context sl' = Some c else EventsDriver.sign_timeo sl' = 0%nat) /\
    (forall f', live_fd d f' <-> live_fd (events_driver_ a) f' /\ (b = true \/ f' <> f)) /\ stay (world a) w.
Proof.
  intros Ok Hs Hn Hc L Vw E. pose proof (view_data e f s i Vw) as D. eapply mod_any in E as (d & w & -> & Ok' & Ar & Wa & Rest); [|done..].
  rewrite Vw in Wa. exists d, w. split_and!; [done|done| |done|apply Rest..]. destruct b; [|by eapply release_moves].
  apply moves_driver. intros s'. rewrite Ar. cbn. case_decide; lia.
Qed.
End OneTalk.

(** ** Talks and sessions *)

Lemma load_talk_inv v i t (a a' : Agent) : load_talk v i a = Some (t, a') -> a' = a /\ talk_at a v i = Some t.
Proof.
  unfold load_talk, talk_at. intros E. step E as a0 a1 E0. injection E0 as <- <-. step E as l a2 E1.
  apply deref_inv in E1 as [L ->]. apply deref_inv in E as [L' ->]. split; [done|]. cbn in L. by rewrite L.
Qed.

Lemma load_talk_run v i t (a : Agent) : talk_at a v i = Some t -> load_talk v i a = Some (t, a).
Proof.
  unfold load_talk, talk_at. intros H. rewrite (bind_run _ _ _ _ _ (eq_refl : gets id a = Some (a, a))).
  destruct (talk_vectors a !! v) as [l|]; [|done]. cbn in H. unfold mbind, M_bind, deref. by rewrite H.
Qed.

(** What an operation on the talk [i] of [v] leaves alone: the other talks,
    the lengths of the vectors and whom a session answers; with [k] also the
    number of talks a session has seen end. *)
Record same_rest (k : bool) (v : ptr) (i : nat) (a a' : Agent) : Prop := {
  sr_talks v' i' : (v', i') <> (v, i) -> talk_at a' v' i' = talk_at a v' i';
  sr_len v' : length <$> talk_vectors a' !! v' = length <$> talk_vectors a !! v';
  sr_info s' : (fun x => (biz_ctx_ x, biz_procedure_ x, talks_ x)) <$> Store.load (sessions a') s' =
    (fun x => (biz_ctx_ x, biz_procedure_ x, talks_ x)) <$> Store.load (sessions a) s';
  sr_done s' : k = true -> num_talks_done_ <$> Store.load (sessions a') s' = num_talks_done_ <$> Store.load (sessions a) s';
}.
#[export] Instance same_rest_preorder k v i : PreOrder (same_rest k v i).
Proof.
  split; [by intros a|]. intros a b c [A1 A2 A3 A4] [B1 B2 B3 B4]. split; intros.
  - by rewrite B1, A1.
  - by rewrite B2, A2.
  - by rewrite B3, A3.
  - by rewrite B4, A4.
Qed.
Lemma rest_weaken k v i a a' : same_rest k v i a a' -> same_rest false v i a a'.
Proof. by intros [A1 A2 A3 _]. Qed.
Lemma rest_session k v i s x a a' : same_rest k v i a a' -> Store.load (sessions a) s = Some x ->
  exists x', Store.load (sessions a') s = Some x' /\ talks_ x' = talks_ x /\ (k = true -> num_talks_done_ x' = num_talks_done_ x).
Proof.
  intros [_ _ R3 R4] L. specialize (R3 s). specialize (R4 s). rewrite L in R3, R4. destruct (Store.load (sessions a') s) as [x'|]; [|done].
  cbn in R3, R4. injection R3 as _ _ R3. exists x'. split_and!; [done..|]. intros K. by injection (R4 K).
Qed.

Lemma store_talk_law own v i t0 t (a a' : Agent) : talk_at a v i = Some t0 -> store_talk v i t a = Some ((), a') ->
  (exists tv, a' = set_talks tv a) /\ talk_at a' v i = Some t /\ (forall k, same_rest k v i a a') /\ (agent_ok own a -> agent_ok own a').
Proof.
  unfold store_talk, talk_at. intros H E. step E as a0 a1 E0. injection E0 as <- <-. step E as l a2 E1.
  apply deref_inv in E1 as [L ->]. cbn in L. rewrite L in H. cbn in H. injection E as <-. split_and!; [by eexists|..].
  - cbn [talk_vectors set_talks id]. rewrite lookup_insert_eq. cbn. apply list_lookup_insert_eq. by eapply lookup_lt_Some.
  - intros k. split; [..|done|done].
    + intros v' i' N. unfold talk_at. cbn [talk_vectors set_talks id]. destruct (decide (v' = v)) as [->|Nv].
      * rewrite lookup_insert_eq, L. cbn. apply list_lookup_insert_ne. congruence.
      * by rewrite lookup_insert_ne.
    + intros v'. cbn [talk_vectors set_talks id]. destruct (decide (v' = v)) as [->|Nv].
      * rewrite lookup_insert_eq, L. cbn. by rewrite length_insert.
      * by rewrite lookup_insert_ne.
  - intros [A B C D]. by split.
Qed.

Lemma store_talk_rest k v i t : keeps (same_rest k v i) (store_talk v i t : M Agent ()).
Proof.
  intros a [] a' E. destruct (talk_at a v i) as [t0|] eqn:H; [by eapply (store_talk_law []) in H as (_ & _ & R & _)|].
  unfold store_talk, talk_at in *. step E as a0 a1 E0. injection E0 as <- <-. step E as l a2 E1.
  apply deref_inv in E1 as [L ->]. cbn in L. rewrite L in H. cbn in H. injection E as <-.
  rewrite list_insert_ge by (by apply lookup_ge_None). cbn [id]. rewrite insert_id by done. by destruct a.
Qed.

(** Writing the flags or the count of a session. *)
Lemma store_session_law own s x x' (a a' : Agent) : Store.load (sessions a) s = Some x ->
  (biz_ctx_ x', biz_procedure_ x', talks_ x') = (biz_ctx_ x, biz_procedure_ x, talks_ x) ->
  store_session s x' a = Some ((), a') ->
  a' = set_sessions (Store.store s x' (sessions a)) (pool_sessions_ a) a /\
  moves s (num_talks_done_ x' - num_talks_done_ x) a a' /\
  (forall k v i, (k = true -> num_talks_done_ x' = num_talks_done_ x) -> same_rest k v i a a') /\
  (agent_ok own a -> agent_ok own a').
Proof.
  intros L Hi [= <-]. split; [done|]. split_and!.
  - intros s'. unfold bal. cbn [sessions set_sessions]. destruct (decide (s' = s)) as [->|N].
    + rewrite Store.load_store, L. cbn. f_equal. change (waits (set_sessions _ _ a) s) with (waits a s). lia.
    + rewrite Store.load_store_ne by congruence. by destruct (Store.load (sessions a) s').
  - intros k v i Hn. split; [done..| |]; intros s'; cbn [sessions set_sessions]; (destruct (decide (s' = s)) as [->|N];
      [|by rewrite Store.load_store_ne by congruence]); rewrite Store.load_store, L; cbn; [by f_equal|]. intros Hk. by rewrite Hn.
  - intros [A B C D]. by split.
Qed.

Lemma load_session_inv s x (a a' : Agent) : load_session s a = Some (x, a') -> a' = a /\ Store.load (sessions a) s = Some x.
Proof. unfold load_session. intros E. step E as a0 a1 E0. injection E0 as <- <-. by apply deref_inv in E as [L ->]. Qed.

Lemma set_failure_law own s (a a' : Agent) : set_failure s a = Some ((), a') ->
  (exists st, a' = set_sessions st (pool_sessions_ a) a) /\ moves s 0 a a' /\ (forall k v i, same_rest k v i a a') /\
  (agent_ok own a -> agent_ok own a').
Proof.
  unfold set_failure. intros E. step E as x a1 E1. apply load_session_inv in E1 as [-> L].
  eapply (store_session_law own) in E as (-> & Mv & R & O); [|done|done]. cbn [num_talks_done_] in Mv. rewrite Z.sub_diag in Mv.
  split_and!; [by eexists|done|auto|done].
Qed.

Lemma set_done_law own s x n (a a' : Agent) : Store.load (sessions a) s = Some x -> in_uint 64 n ->
  set_done s n a = Some ((), a') ->
  (exists st, a' = set_sessions st (pool_sessions_ a) a /\ num_talks_done_ <$> Store.load st s = Some n) /\
  moves s (n - num_talks_done_ x) a a' /\ (forall v i, same_rest false v i a a') /\ (agent_ok own a -> agent_ok own a').
Proof.
  unfold set_done. intros L Hn E. step E as x' a1 E1. apply load_session_inv in E1 as [-> L']. rewrite L in L'. injection L' as <-.
  rewrite uwrap_small in E by done. eapply (store_session_law own) in E as (-> & Mv & R & O); [|done|done].
  split_and!; [|done|intros; by apply R|done]. eexists. split; [done|]. by rewrite Store.load_store.
Qed.

Lemma rest_world {A} k v i (m : M W A) : keeps (same_rest k v i) (on_world m : M Agent A).
Proof. intros a r a' (w & _ & ->)%zoom_inv. by split. Qed.
Lemma rest_driver {A} k v i f : keeps (same_rest k v i) (on_driver f : M Agent A).
Proof. intros a r a' (d & w & _ & ->)%driver_inv. by split. Qed.
Lemma conns_inv {A} (f : ConnsMgr.ConnsMgr -> M W (A * ConnsMgr.ConnsMgr)) r (a a' : Agent) :
  on_conns f a = Some (r, a') -> exists m w, f (conns_mgr_ a) (world a) = Some ((r, m), w) /\ a' = set_conns m w a.
Proof. unfold on_conns. destruct (f _ _) as [[[r0 d] w]|]; [|done]. intros [= <- <-]. eauto. Qed.
Lemma rest_conns {A} k v i f : keeps (same_rest k v i) (on_conns f : M Agent A).
Proof. intros a r a' (m & w & _ & ->)%conns_inv. by split. Qed.
Lemma rest_protos {A} k v i m : keeps (same_rest k v i) (on_protos m : M Agent A).
Proof. intros a r a' (p & _ & ->)%zoom_inv. by split. Qed.
Lemma rest_get k v i : keeps (same_rest k v i) (GetEventCtx : M Agent ptr).
Proof. intros a r a'. unfold GetEventCtx. destruct (PoolObjs.Get _ _) as [[[[o|] p] st]|]; [|done..]. intros [= <- <-]. by split. Qed.
Lemma rest_free k v i c : keeps (same_rest k v i) (FreeEventCtx c : M Agent ()).
Proof. intros a r a'. unfold FreeEventCtx. destruct (PoolObjs.Free _ _ _) as [[p st]|]; [|done..]. intros [= <- <-]. by split. Qed.
Lemma rest_store_ctx k v i c e : keeps (same_rest k v i) (store_ctx c e : M Agent ()).
Proof. intros a r a' [= <- <-]. by split. Qed.
Lemma rest_failure k v i s : keeps (same_rest k v i) (set_failure s : M Agent ()).
Proof. intros a [] a' E. by eapply (set_failure_law []) in E as (_ & _ & R & _). Qed.
Lemma rest_load_talk k v i v' i' : keeps (same_rest k v i) (load_talk v' i' : M Agent Talk).
Proof. intros a r a' [-> _]%load_talk_inv. reflexivity. Qed.
Lemma rest_load_ctx k v i c : keeps (same_rest k v i) (load_ctx c : M Agent _).
Proof. unfold load_ctx. frame. Qed.
Lemma rest_load_remote k v i r : keeps (same_rest k v i) (load_remote r : M Agent _).
Proof. unfold load_remote. frame. Qed.
Hint Resolve rest_world rest_driver rest_conns rest_protos rest_get rest_free rest_store_ctx rest_failure rest_load_talk
  rest_load_ctx rest_load_remote store_talk_rest : frame.

Lemma ResetTalk_rest k s v i b : keeps (same_rest k v i) (ResetTalk_ conf s v i b : M Agent ()).
Proof. unfold ResetTalk_, ResetTalk_fd, ResetTalk_encode, ResetTalk_event, talk_timeout. frame. Qed.

(** ** Starting a talk *)

(** The timeouts of the remotes of a talk and of the configuration. *)
Definition talk_ok (i : nat) (t : Talk) : Prop :=
  no_talk t = i /\ (forall sv, service t = Some sv -> Forall timeo_ok (remotes sv)) /\ (forall r, remote t = Some (InService r) -> timeo_ok r).
(** A talk waits in one of these states. *)
Definition going (t : Talk) : Prop := status t = kConn \/ status t = kRead \/ status t = kWrite.
Definition conf_timeo : Prop :=
  0 <= Confs.cn_ctimeo_ms conf < 2 ^ 31 /\ 0 <= Confs.cn_rtimeo_ms conf < 2 ^ 31 /\ 0 <= Confs.cn_wtimeo_ms conf < 2 ^ 31.

Lemma talk_rp_ok own i a t rp : agent_ok own a -> talk_ok i t -> remote t = Some rp -> rp_ok (conns_mgr_ a) rp.
Proof.
  intros [_ [_ _ _ _ F] _ _] (_ & _ & H) R r Hr. destruct rp as [r0|j]; cbn in Hr; [injection Hr as <-; by apply H|].
  by eapply list.Forall_lookup_1 in Hr.
Qed.

Lemma load_remote_inv rp r (a a' : Agent) : load_remote rp a = Some (r, a') ->
  a' = a /\ ConnsMgr.deref_remote (conns_mgr_ a) rp = Some r.
Proof. unfold load_remote. intros E. step E as a0 a1 E0. injection E0 as <- <-. by apply deref_inv in E as [L ->]. Qed.

Lemma talk_timeout_law own i t n (a a' : Agent) : conf_timeo -> agent_ok own a -> talk_ok i t ->
  talk_timeout conf t a = Some (n, a') -> a' = a /\ 0 <= n < 2 ^ 31.
Proof.
  intros (C1 & C2 & C3) Ok Ht. unfold talk_timeout. destruct (remote t) as [rp|] eqn:R.
  - pose proof (talk_rp_ok own i a t rp Ok Ht R) as Hr.
    assert (forall (g : Remote -> Z), (forall r, timeo_ok r -> 0 <= g r < 2 ^ 31) ->
      (r ← load_remote rp; mret (g r)) a = Some (n, a') -> a' = a /\ 0 <= n < 2 ^ 31) as Ld.
    { intros g Hg E. step E as r a1 E1. apply load_remote_inv in E1 as [-> L]. injection E as <- <-. split; [done|]. by apply Hg, Hr. }
    destruct (status t); try (apply Ld; by intros r [? ?]). by intros [= <- <-].
  - intros [= <- <-]. split; [done|]. by destruct (status t).
Qed.

(** Neither the contexts nor who waits for them changes. *)
Definition same_ctxs (a a' : Agent) : Prop := events_driver_ a' = events_driver_ a /\ event_ctxs a' = event_ctxs a.
Lemma same_ctxs_watch a a' g : same_ctxs a a' -> watch a' g = watch a g.
Proof. intros [D C]. unfold watch. by rewrite D, C. Qed.
#[local] Instance same_ctxs_trans : Transitive same_ctxs.
Proof. intros a b c [A1 A2] [B1 B2]. split; congruence. Qed.
(** The context [c] names the session [s]. *)
Definition names (s : ptr) (c : Z) (a : Agent) : Prop :=
  exists e i, Store.load (event_ctxs a) c = Some e /\ EventCtx.data e = EventCtx.DSession s i.
Lemma same_ctxs_names s c a a' : same_ctxs a a' -> names s c a -> names s c a'.
Proof. intros [_ C]. unfold names. by rewrite C. Qed.

(** The first part of [ResetTalk_]. *)
Lemma ResetTalk_fd_law own s v i t go a a' : agent_ok own a -> talk_at a v i = Some t -> talk_ok i t ->
  error t = ErrorNo.kOk -> 0 <= fd t -> (0 < fd t -> held a (fd t) /\ going t) -> ResetTalk_fd s v i a = Some (go, a') ->
  exists t', talk_at a' v i = Some t' /\ talk_ok i t' /\ agent_ok own a' /\ moves s 0 a a' /\ same_ctxs a a' /\
    (if go then error t' = ErrorNo.kOk /\ 0 < fd t' /\ held a' (fd t') /\ going t' else error t' <> ErrorNo.kOk) /\
    (forall g, held a g -> g <> fd t -> held a' g /\ (go = true -> g <> fd t')).
Proof.
  intros Ok Ht Hk Her Hfd Hh E. unfold ResetTalk_fd in E. step E as t0 a0 E0.
  apply load_talk_inv in E0 as [-> H0]. rewrite Ht in H0. injection H0 as <-. destruct (Z.eqb_spec (fd t) 0) as [Z0|Z0].
  2: { rewrite (proj2 (Z.ltb_ge _ _)) in E by lia. injection E as <- <-. exists t. split_and!; try done; [apply moves_same|lia|apply Hh; lia..]. }
  step E as sv a1 E1. apply deref_inv in E1 as [Sv ->]. step E as [[f b] rp] a1 E1.
  apply conns_inv in E1 as (m & w & E1 & ->). step E1 as [[[f0 b0] rp0] m0] w0 E2. injection E1 as -> -> -> -> ->.
  pose proof Ok as [A1 B C D].
  destruct (GetFd_owned _ _ _ _ _ _ _ _ _ _ B (proj1 (proj2 Hk) sv Sv) E2) as (B' & Rp & Hf & Ho & Hs).
  assert (agent_ok own (set_conns m w a)) as Ok1 by by split.
  assert (forall g, held a g -> held (set_conns m w a) g /\ (0 < f -> g <> f)) as Hg.
  { intros g (O & L & I). destruct (Ho g O I) as (O' & I' & N'). by split. }
  assert (talk_ok i (set_remote t (Some rp))) as Hk1.
  { split_and!; [apply Hk|apply Hk|]. cbn. intros r [= ->]. by apply Hs. }
  destruct (Z.ltb_spec 0 f) as [Lf|Lf].
  - step E as [] a2 E3. injection E as <- <-. eapply (store_talk_law own _ _ t) in E3 as ([tv ->] & Ht' & _ & Ok2); [|done].
    eexists. split; [exact Ht'|]. split_and!; [done|by apply Ok2|by apply moves_0|done|done|done|by apply Hf| |].
    { unfold going. cbn. destruct b; cbn; [repeat case_decide|]; auto. }
    intros g Hg0 _. destruct (Hg g Hg0). auto.
  - step E as [] a2 E3. eapply (store_talk_law own _ _ t) in E3 as ([tv ->] & Ht' & _ & Ok2); [|done].
    step E as [] a3 E4. injection E as <- <-. eapply (set_failure_law own) in E4 as ([st ->] & Mv & _ & Ok3).
    eexists. split; [exact Ht'|]. split_and!; [done|by apply Ok3, Ok2|exact Mv|done|done|].
    intros g Hg0 _. split; [|done]. by apply Hg.
Qed.

Lemma protos_inv {A} (m : M Protocols.Protos A) own r (a a' : Agent) : on_protos m a = Some (r, a') ->
  exists p, a' = set_protos p a /\ (agent_ok own a -> agent_ok own a').
Proof. intros (p & _ & ->)%zoom_inv. exists p. split; [done|]. intros [A1 B C D]. by split. Qed.

(** The second part: the request is encoded again. *)
Lemma ResetTalk_encode_law own s v i b t go a a' : agent_ok own a -> talk_at a v i = Some t -> talk_ok i t ->
  ResetTalk_encode s v i b a = Some (go, a') -> exists t', talk_at a' v i = Some t' /\ talk_ok i t' /\ agent_ok own a' /\
    moves s 0 a a' /\ same_ctxs a a' /\ (forall g, held a g -> held a' g) /\
    (if go then t' = t else error t' <> ErrorNo.kOk).
Proof.
  intros Ok Ht Hk E. unfold ResetTalk_encode in E. step E as t0 a0 E0.
  apply load_talk_inv in E0 as [-> H0]. rewrite Ht in H0. injection H0 as <-.
  assert (exists t', talk_at a v i = Some t' /\ talk_ok i t' /\ agent_ok own a /\ moves s 0 a a /\
    same_ctxs a a /\ (forall g, held a g -> held a g) /\ t' = t) as Same by (exists t; split_and!; try done; apply moves_same).
  destruct (protocol_write t) as [pw|]; [|by injection E as <- <-]. destruct b; [|by injection E as <- <-]. clear Same.
  step E as o a1 E1. apply (protos_inv _ own) in E1 as (p1 & -> & O1).
  step E as b a2 E2. apply deref_inv in E2 as [_ ->]. step E as o' a2 E2. apply deref_inv in E2 as [_ ->].
  destruct (Protocols.WEncode o') as [ret o2]. step E as [] a2 E2. apply (protos_inv _ own) in E2 as (p2 & -> & O2).
  destruct ret; [injection E as <- <-; exists t; split_and!; try done; [by apply O2, O1|by apply moves_0]|].
  step E as [] a3 E3. eapply (store_talk_law own _ _ t) in E3 as ([tv ->] & Ht' & _ & O3); [|done].
  step E as [] a4 E4. injection E as <- <-. eapply (set_failure_law own) in E4 as ([st ->] & Mv & _ & O4).
  eexists. split; [exact Ht'|]. split_and!; [done|by apply O4, O3, O2, O1|exact Mv|done|done|done].
Qed.

(** Contexts in hand stay, and a context that names [s] goes on naming it. *)
Definition ctxs_kept (own : list Z) (s : ptr) (a a' : Agent) : Prop :=
  (forall c, names s c a -> names s c a') /\ (forall c, c ∈ own -> Store.load (event_ctxs a') c = Store.load (event_ctxs a) c).
Lemma kept_trans own s a b c : ctxs_kept own s a b -> ctxs_kept own s b c -> ctxs_kept own s a c.
Proof. intros [A1 A2] [B1 B2]. split; [auto|]. intros q Hq. by rewrite B2, A2. Qed.
Lemma kept_same own s a b : same_ctxs a b -> ctxs_kept own s a b.
Proof. intros H. split; [intros c; by apply same_ctxs_names|]. intros c _. by rewrite (proj2 H). Qed.
Lemma own_fresh c own a : agent_ok (c :: own) a -> c ∉ own.
Proof.
  intros [_ _ _ (l & _ & N & _)]. rewrite own_perm in N. apply list.NoDup_cons in N as [N _]. intros Hc. apply N. rewrite !elem_of_app. auto.
Qed.
Lemma kept_store own s c e (a a' : Agent) : store_ctx c e a = Some ((), a') -> (exists i, EventCtx.data e = EventCtx.DSession s i) -> c ∉ own ->
  ctxs_kept own s a a'.
Proof.
  intros [= <-] [i D] Nc. split; cbn [event_ctxs set_ctxs].
  - intros q (e' & i' & L & D'). unfold names. cbn [event_ctxs set_ctxs]. destruct (decide (q = c)) as [->|N].
    + rewrite Store.load_store. eauto.
    + rewrite Store.load_store_ne by done. eauto.
  - intros q Hq. apply Store.load_store_ne. by intros ->.
Qed.
Lemma kept_get own s (a a' : Agent) : agent_ok own a ->
  (forall q e, Store.load (event_ctxs a) q = Some e -> Store.load (event_ctxs a') q = Some e) -> ctxs_kept own s a a'.
Proof.
  intros [_ _ _ (l & _ & _ & S)] K. split; [intros c (e & i & L & D); exists e, i; auto|]. intros c Hc.
  destruct (S c) as [e He]; [rewrite !elem_of_app; auto|]. rewrite He. by apply K.
Qed.

(** A context for the talk is taken and the time is read. *)
Lemma take_ctx_law own s t c e now a a1 a2 a3 a4 : agent_ok own a -> GetEventCtx a = Some (c, a1) ->
  on_world (EventCtx.BuildForSession (fd t) s (no_talk t)) a1 = Some (e, a2) -> store_ctx c e a2 = Some ((), a3) ->
  on_world (IOHelper.GetCurrentMsec false) a3 = Some (now, a4) ->
  agent_ok (c :: own) a4 /\ view e = sess (fd t) s (no_talk t) /\ quiet a a4 /\ ctxs_kept own s a a4.
Proof.
  intros Ok E1 E2 E3 E4. apply (GetEventCtx_law own) in E1 as (O1 & Q1 & K1); [|done]. apply (kept_get own s) in K1; [|done].
  assert (keeps stay (EventCtx.BuildForSession (fd t) s (no_talk t))) as K
    by (unfold EventCtx.BuildForSession; frame; apply inert_Msec, _).
  pose proof E2 as (w2' & Eb & _)%zoom_inv. step Eb as now' w' Eb1. injection Eb as <- _.
  apply (world_law _ (c :: own)) in E2 as (O2 & Q2 & w2 & ->); [|done..].
  eapply (kept_store own s) in E3 as N3; [|by exists (no_talk t)|by eapply own_fresh].
  apply (store_ctx_law (c :: own)) in E3 as (O3 & Q3 & _ & _); [|done|apply list_elem_of_here].
  apply (world_law _ (c :: own)) in E4 as (O4 & Q4 & w4 & ->); [|apply inert_Msec, _|done].
  split_and!; [done|done|eauto using quiet_trans|]. eapply kept_trans; [exact K1|exact N3].
Qed.

(** A talk that cannot wait fails. *)
Lemma fail_talk_law own s v i t t' a a1 a' : agent_ok own a -> talk_at a v i = Some t -> store_talk v i t' a = Some ((), a1) ->
  set_failure s a1 = Some ((), a') -> talk_at a' v i = Some t' /\ agent_ok own a' /\ moves s 0 a a' /\
  same_ctxs a a' /\ (forall g, held a g -> held a' g).
Proof.
  intros Ok Ht E1 E2. eapply (store_talk_law own _ _ t) in E1 as ([tv ->] & Ht' & _ & O1); [|done].
  eapply (set_failure_law own) in E2 as ([st ->] & Mv & _ & O2). split_and!; [done|by apply O2, O1|exact Mv|done|done].
Qed.

(** The descriptor of the talk may be waited for now, nothing else changes. *)
Definition rewatched (own : list Z) (s v : ptr) (i : nat) (a a' : Agent) : Prop :=
  ctxs_kept own s a a' /\
  ((forall g, watch a' g = watch a g) \/
   exists t, talk_at a' v i = Some t /\ 0 < fd t /\ going t /\ talk_ok i t /\ rewatch (fd t) (Some (sess (fd t) s i)) a a').

Lemma rewatched_same own s v i a a' : same_ctxs a a' -> rewatched own s v i a a'.
Proof. intros H. split; [by apply kept_same|left; intros g; by apply same_ctxs_watch]. Qed.
Lemma rewatched_pre own s v i a b c : same_ctxs a b -> rewatched own s v i b c -> rewatched own s v i a c.
Proof.
  intros H [N C]. split; [eauto using kept_trans, kept_same|]. pose proof (fun g => same_ctxs_watch a b g H) as Wa.
  destruct C as [H'|(t & Ht & F & G & K & H')]; [left; intros g; by rewrite H'|right]. exists t. split_and!; try done.
  intros g. rewrite (H' g). by case_decide.
Qed.
Lemma rewatched_post own s v i a b c : rewatched own s v i a b -> talk_at c v i = talk_at b v i -> same_ctxs b c -> rewatched own s v i a c.
Proof.
  intros [N C] T H. split; [eauto using kept_trans, kept_same|]. pose proof (fun g => same_ctxs_watch b c g H) as Wa.
  destruct C as [H'|(t & Ht & F & G & K & H')]; [left; intros g; by rewrite Wa|right]. exists t. rewrite T. split_and!; try done.
  intros g. by rewrite Wa, (H' g).
Qed.

(** The third part: a context is taken and the descriptor registered. *)
Lemma ResetTalk_event_law own s v i t a a' : conf_timeo -> agent_ok own a -> talk_at a v i = Some t -> talk_ok i t ->
  error t = ErrorNo.kOk -> 0 < fd t -> held a (fd t) -> going t -> ResetTalk_event conf s v i a = Some ((), a') ->
  exists t', talk_at a' v i = Some t' /\ talk_ok i t' /\ agent_ok own a' /\ rewatched own s v i a a' /\
    moves s (if error t' =? ErrorNo.kOk then 1 else 0) a a' /\ (forall g, held a g -> g <> fd t -> held a' g).
Proof.
  intros Cf Ok Ht Hk Her Hfd Hh Hgo E. unfold ResetTalk_event in E. step E as t0 a0 E0.
  apply load_talk_inv in E0 as [-> H0]. rewrite Ht in H0. injection H0 as <-.
  step E as c a1 E1. step E as e a2 E2. step E as [] a3 E3. step E as now a4 E4.
  destruct (take_ctx_law own s t c e now a a1 a2 a3 a4 Ok E1 E2 E3 E4) as (O4 & De & Qu & Na). clear E1 E2 E3 E4.
  rewrite <- (quiet_talk_at a a4 v i Qu) in Ht. pose proof (quiet_held a a4 _ Qu Hh) as Hh4.
  destruct (Z.leb_spec (endtime_ms t - now) 0) as [Lt|Lt].
  { step E as [] a5 E5. destruct (fail_talk_law _ s v i t _ _ _ _ O4 Ht E5 E) as (Ht' & O' & Mv & Wa & Hg).
    eexists. split; [exact Ht'|]. split_and!; [done|by eapply ok_drop| |by eapply quiet_moves|eauto using quiet_held].
    split; [eauto using kept_trans, kept_same|]. left. intros g. rewrite (same_ctxs_watch _ _ g Wa). apply Qu. }
  step E as lim a5 E5. eapply (talk_timeout_law (c :: own)) in E5 as [-> Hlim]; [|done..].
  step E as [] a5 E5. eapply (kept_store own s) in E5 as N5; [|by exists (no_talk t); eapply view_data|by eapply own_fresh].
  pose proof (kept_trans _ _ _ _ _ Na N5) as K5.
  apply (store_ctx_law (c :: own)) in E5 as (O5 & Q5 & L5 & _); [|done|apply list_elem_of_here].
  rewrite <- (quiet_talk_at a4 a5 v i Q5) in Ht. pose proof (quiet_held a4 a5 _ Q5 Hh4) as (H51 & H52 & H53).
  pose proof (quiet_trans _ _ _ Qu Q5) as Qt. clear Qu Q5 Hh4 O4.
  step E as b a6 E6. eapply (add_law s (no_talk t) c (fd t) own) in E6 as (d & w6 & -> & O6 & Mv & Wa & Hg);
    [|done|lia|cbn [EventCtx.timeleft_ms]; rewrite swrap_small by (unfold in_sint; lia); lia|done..].
  assert (forall g, held a g -> g <> fd t -> held (set_driver d w6 a5) g) as Hg'
    by (intros g Hg0 N; apply Hg; [by eapply quiet_held|done]).
  assert (rewatch (fd t) (if b then Some (sess (fd t) s i) else None) a (set_driver d w6 a5)) as Wt.
  { intros g. rewrite (Wa g), (proj1 Hk). case_decide; [done|apply Qt]. }
  destruct b; [injection E as <-; exists t; split_and!; try done; [split; [exact K5|right; by exists t]|rewrite Her; by eapply quiet_moves]|].
  step E as [] a7 E7. eapply (close_law (fd t) (c :: own)) in E7 as (O7 & [w7 ->] & H7); [|done|by apply Hg].
  step E as [] a8 E8. destruct (fail_talk_law _ s v i t _ _ _ _ O7 Ht E8 E) as (Ht' & O' & Mv' & Wa' & Hg8).
  eexists. split; [exact Ht'|]. split_and!; [done|by eapply ok_drop| | |auto].
  { split; [exact (kept_trans own s a (set_world w7 (set_driver d w6 a5)) a' K5 (kept_same own s _ _ Wa'))|]. left. intros g. rewrite (same_ctxs_watch _ _ g Wa'). change (watch (set_world w7 _) g) with (watch (set_driver d w6 a5) g). rewrite Wt. case_decide as D; [|done].
    subst g. unfold watch. destruct Hh as (_ & Hl & _). by rewrite (ctx_at_dead _ _ Hl). }
  eapply quiet_moves; [done|]. eapply (moves_trans s 0 0); [exact Mv|exact Mv'].
Qed.

(** A talk that may be started: it has failed exactly when its descriptor is
    negative, and a descriptor it brings along is its own. *)
Record ready (a : Agent) (i : nat) (t : Talk) : Prop := {
  rd_ok : talk_ok i t;
  rd_err : error t = ErrorNo.kOk <-> 0 <= fd t;
  rd_held : 0 < fd t -> held a (fd t) /\ going t;
}.

(** Starting a talk: it waits, or it carries an error. *)
Lemma ResetTalk_law own s v i t b a a' : conf_timeo -> agent_ok own a -> talk_at a v i = Some t -> ready a i t ->
  ResetTalk_ conf s v i b a = Some ((), a') -> exists t', talk_at a' v i = Some t' /\ talk_ok i t' /\ agent_ok own a' /\ rewatched own s v i a a' /\
    moves s (if error t' =? ErrorNo.kOk then 1 else 0) a a' /\ (forall g, held a g -> g <> fd t -> held a' g).
Proof.
  intros Cf Ok Ht [Hk He Hh] E. unfold ResetTalk_ in E. step E as go a1 E1. destruct (Z.le_gt_cases 0 (fd t)) as [Lf|Lf].
  2: { unfold ResetTalk_fd in E1. step E1 as t0 a0 E0. apply load_talk_inv in E0 as [-> H0]. rewrite Ht in H0. injection H0 as <-.
    rewrite (proj2 (Z.eqb_neq _ _)), (proj2 (Z.ltb_lt _ _)) in E1 by lia. step E1 as [] a2 E2. injection E1 as <- <-.
    injection E as <-. eapply (set_failure_law own) in E2 as ([st ->] & Mv & _ & O2). exists t.
    rewrite (proj2 (Z.eqb_neq _ _)) by (intros H0%He; lia). split_and!; auto. by apply rewatched_same. }
  destruct (ResetTalk_fd_law own s v i t go a a1 Ok Ht Hk (proj2 He Lf) Lf Hh E1) as (t1 & Ht1 & Hk1 & O1 & M1 & W1 & C1 & G1).
  destruct go; cbn [negb] in E.
  2: { injection E as <-. exists t1. rewrite (proj2 (Z.eqb_neq _ _)) by done. split_and!; try done; [by apply rewatched_same|]. intros g Hg N. by apply G1. }
  destruct C1 as (C11 & C12 & C13 & C14). step E as go a2 E2.
  destruct (ResetTalk_encode_law own s v i b t1 go a1 a2 O1 Ht1 Hk1 E2) as (t2 & Ht2 & Hk2 & O2 & M2 & W2 & G2 & C2).
  pose proof (moves_trans s 0 0 _ _ _ M1 M2) as M12.
  assert (same_ctxs a a2) as W12 by by etransitivity. destruct go; cbn [negb] in E.
  2: { injection E as <-. exists t2. rewrite (proj2 (Z.eqb_neq _ _)) by done. split_and!; try done; [by apply rewatched_same|]. intros g Hg N. by apply G2, G1. }
  subst t2. destruct (ResetTalk_event_law own s v i t1 a2 a' Cf O2 Ht2 Hk2 C11 C12 (G2 _ C13) C14 E) as (t3 & Ht3 & Hk3 & O3 & W3 & M3 & G3).
  exists t3. split_and!; [done..|by eapply rewatched_pre| |intros g Hg N; destruct (G1 g Hg N); apply G3; auto].
  change (if error t3 =? ErrorNo.kOk then 1 else 0) with (0 + 0 + if error t3 =? ErrorNo.kOk then 1 else 0). by eapply moves_trans.
Qed.

(** ** The end of a talk *)

Lemma ReportStatus_law own r succ a a' : agent_ok own a -> ReportStatus r succ a = Some ((), a') ->
  agent_ok own a' /\ (exists m w, a' = set_conns m w a) /\ forall g, held a g -> held a' g.
Proof.
  intros [A1 [B1 B2 B3 B4 B5] C D] E. apply (conns_inv (fun m => _)) in E as (m & w & E & ->). step E as m0 w0 E0. apply deref_inv in E0 as [R ->].
  injection E as -> <-. apply ReportStatus_idle in R as (I & T & N & P). split_and!; [|by do 2 eexists|].
  - split; [done| |done|done]. split; cbn [events_driver_ set_conns conns_mgr_ world].
    + done.
    + intros f. rewrite I. apply B2.
    + by rewrite I.
    + intros q. rewrite N. auto.
    + by rewrite T.
  - intros g (H1 & H2 & H3). split_and!; [done|done|]. cbn [conns_mgr_ set_conns]. by rewrite I.
Qed.

(** What a call does to a session by way of its talk [i]: the balance moves by
    [k], the talk stays a sound one. *)
Record talked (own : list Z) (s : ptr) (k : Z) (v : ptr) (i : nat) (a a' : Agent) : Prop := {
  tk_ok : agent_ok own a';
  tk_moves : moves s k a a';
  tk_rest : same_rest false v i a a';
  tk_talk : exists t, talk_at a' v i = Some t /\ talk_ok i t;
}.

Lemma talked_trans own own' s k k' v i a b c :
  talked own' s k v i a b -> talked own s k' v i b c -> talked own s (k + k') v i a c.
Proof. intros [A1 A2 A3 A4] [B1 B2 B3 B4]. split; [done|by eapply moves_trans|by etransitivity|done]. Qed.

Lemma FinishTalk_report_law own s succ v i t a a' : agent_ok own a -> talk_at a v i = Some t -> talk_ok i t ->
  FinishTalk_report succ v i a = Some ((), a') -> talked own s 0 v i a a' /\ sessions a' = sessions a /\ same_ctxs a a' /\
  (exists t', talk_at a' v i = Some t' /\ fd t' = fd t /\ talk_ok i t') /\ forall g, held a g -> held a' g.
Proof.
  intros Ok Ht Hk E. unfold FinishTalk_report in E. step E as t0 a0 E0.
  apply load_talk_inv in E0 as [-> H0]. rewrite Ht in H0. injection H0 as <-. destruct (remote t) as [rp|].
  2: { injection E as <-. split_and!; [split; [done|apply moves_same|reflexivity|eauto]|done|done|eauto|done]. }
  step E as r a1 E1. apply load_remote_inv in E1 as [-> _]. step E as [] a1 E1.
  apply (ReportStatus_law own) in E1 as (O1 & (m & w & ->) & G1); [|done]. destruct succ.
  { injection E as <-. split_and!; [split; [done|by apply moves_0|by split|eauto]|done|done|eauto|done]. }
  step E as r' a1 E1. apply load_remote_inv in E1 as [-> _].
  eapply (store_talk_law own _ _ t) in E as ([tv ->] & Ht' & R & O2); [|done]. destruct (R false) as [R1 R2 R3 _].
  split_and!; [|done|done|eexists; split; [exact Ht'|]; by split|done].
  split; [by apply O2|by apply moves_0|by split|]. eexists. split; [exact Ht'|done].
Qed.

Lemma num_talks_inv v n (a a' : Agent) : num_talks v a = Some (n, a') -> a' = a /\ length <$> talk_vectors a !! v = Some n.
Proof.
  unfold num_talks. intros E. step E as a0 a1 E0. injection E0 as <- <-. step E as l a2 E1.
  apply deref_inv in E1 as [L ->]. injection E as <- <-. cbn in L. by rewrite L.
Qed.

(** The session keeps its count or loses one. *)
Definition done_near (s : ptr) (x : Session) (a : Agent) : Prop :=
  exists x', Store.load (sessions a) s = Some x' /\ num_talks_done_ x - 1 <= num_talks_done_ x' <= num_talks_done_ x.

Lemma set_failure_talked own s v i t x a a' : agent_ok own a -> talk_at a v i = Some t -> talk_ok i t ->
  Store.load (sessions a) s = Some x -> set_failure s a = Some ((), a') ->
  talked own s 0 v i a a' /\ done_near s x a' /\ talk_at a' v i = talk_at a v i /\ same_ctxs a a' /\
  forall g, held a g -> held a' g.
Proof.
  intros Ok Ht Hk L E. eapply (set_failure_law own) in E as ([st ->] & Mv & R & O').
  destruct (rest_session _ _ _ _ _ _ _ (R true v i) L) as (x' & L' & _ & N').
  split_and!; [split; eauto| |done|done|done]. exists x'. rewrite N' by done. split; [done|lia].
Qed.

Lemma restart_law own s v i t x a a' : conf_timeo -> agent_ok own a -> talk_at a v i = Some t -> ready a i t ->
  Store.load (sessions a) s = Some x -> 1 <= num_talks_done_ x < 2 ^ 64 ->
  (ResetTalk_ conf s v i true;; t ← load_talk v i;
   if error t =? ErrorNo.kOk then x ← load_session s; set_done s (num_talks_done_ x - 1) else set_failure s) a = Some ((), a') ->
  talked own s 0 v i a a' /\ done_near s x a' /\ rewatched own s v i a a' /\ forall g, held a g -> g <> fd t -> held a' g.
Proof.
  intros Cf Ok Ht Hr L Hn E. step E as [] a1 E1. pose proof (ResetTalk_rest true _ _ _ _ _ _ _ E1) as R1.
  eapply (ResetTalk_law own) in E1 as (t1 & Ht1 & Hk1 & O1 & Wa & Mv1 & G1); [|done..].
  step E as t1' a2 E2. apply load_talk_inv in E2 as [-> H]. rewrite Ht1 in H. injection H as <-.
  destruct (rest_session _ _ _ _ _ _ _ R1 L) as (x1 & L1 & _ & N1). specialize (N1 eq_refl).
  destruct (Z.eqb_spec (error t1) ErrorNo.kOk) as [Er|Er].
  - step E as x1' a2 E2. apply load_session_inv in E2 as [-> H]. rewrite L1 in H. injection H as <-.
    eapply (set_done_law own) in E as ((st & -> & Ld) & Mv & R & O2); [|done|unfold in_uint; lia]. split_and!; [|..|by eapply rewatched_post|auto].
    + split; [auto| |etransitivity; [by eapply rest_weaken|done]|eauto].
      change 0 with (1 + -1). eapply moves_trans; [done|]. by replace (-1) with (num_talks_done_ x1 - 1 - num_talks_done_ x1) by lia.
    + destruct (Store.load st s) as [x'|] eqn:L'; [|done]. injection Ld as Ld. exists x'. split; [done|lia].
  - eapply (set_failure_talked own) in E as (T & (x' & L' & N') & Ta & Wb & G); [|done..].
    split_and!; [|exists x'; split; [done|lia]|by eapply rewatched_post|auto]. change 0 with (0 + 0). eapply (talked_trans own own); [|done].
    split; eauto using rest_weaken.
Qed.

Lemma FinishTalk_retry_law own s v i t x a a' : conf_timeo -> agent_ok own a -> talk_at a v i = Some t -> talk_ok i t ->
  (0 < fd t -> held a (fd t)) -> Store.load (sessions a) s = Some x -> 1 <= num_talks_done_ x < 2 ^ 64 ->
  FinishTalk_retry conf s v i a = Some ((), a') ->
  talked own s 0 v i a a' /\ done_near s x a' /\ rewatched own s v i a a' /\ forall g, held a g -> g <> 0 -> g <> fd t -> held a' g.
Proof.
  intros Cf Ok Ht Hk Hh L Hn E. unfold FinishTalk_retry in E. step E as t0 a0 E0.
  apply load_talk_inv in E0 as [-> H0]. rewrite Ht in H0. injection H0 as <-. destruct (retry t =? 0); cbn [negb] in E.
  { eapply (set_failure_talked own) in E as (T & N & _ & Wa & G); [|done..]. split_and!; [done|done|by apply rewatched_same|auto]. }
  step E as [] a1 E1. assert (agent_ok own a1 /\ (exists w, a1 = set_world w a) /\ forall g, held a g -> g <> fd t -> held a1 g)
    as (O1 & [w1 ->] & G1).
  { destruct (Z.ltb_spec 0 (fd t)); cbn [when] in E1; [apply (close_law _ own) in E1 as (O1 & E1 & G1); auto|].
    injection E1 as <-. split_and!; [done| |done]. exists (world a). by destruct a. }
  step E as [] a2 E2. eapply (store_talk_law own _ _ t) in E2 as ([tv ->] & Ht2 & R2 & O2); [|exact Ht].
  eapply (restart_law own) in E as (T & N & Wa & G); [|done|by apply O2|exact Ht2|by split|exact L|done].
  split_and!; [|done|done|intros g Hg N0 N1; apply G; [by apply G1|done]].
  change 0 with (0 + 0). eapply (talked_trans own own); [|done]. destruct (R2 false) as [Ra Rb Rc Rd].
  split; [by apply O2|by apply moves_0|by split|]. eexists. split; [exact Ht2|done].
Qed.

(** The end of a talk adds one to the balance of its session: the talk is
    counted, or it waits again. *)
Lemma FinishTalk_law own s succ v i t x l r a a' : conf_timeo -> agent_ok own a -> talk_at a v i = Some t -> talk_ok i t ->
  (succ = false -> 0 < fd t -> held a (fd t)) -> Store.load (sessions a) s = Some x -> 0 <= num_talks_done_ x < 2 ^ 64 - 1 ->
  talk_vectors a !! v = Some l -> FinishTalk conf s succ v i a = Some (r, a') ->
  talked own s 1 v i a a' /\ rewatched own s v i a a' /\
  (exists x', Store.load (sessions a') s = Some x' /\ num_talks_done_ x <= num_talks_done_ x' <= num_talks_done_ x + 1 /\
    r = (num_talks_done_ x' =? Z.of_nat (length l))) /\
  forall g, held a g -> g <> 0 -> (succ = false -> g <> fd t) -> held a' g.
Proof.
  intros Cf Ok Ht Hk Hh L Hn Hv E. unfold FinishTalk in E. step E as x0 a0 E0.
  apply load_session_inv in E0 as [-> H0]. rewrite L in H0. injection H0 as <-. step E as [] a1 E1.
  eapply (set_done_law own) in E1 as ((st & -> & Ld) & Mv1 & R1 & O1); [|done|unfold in_uint; lia].
  replace (num_talks_done_ x + 1 - num_talks_done_ x) with 1 in Mv1 by lia.
  destruct (Store.load st s) as [x1|] eqn:L1; [|done]. injection Ld as Ld.
  step E as [] a2 E2. eapply (FinishTalk_report_law own s) in E2 as (T2 & S2 & W2 & (t2 & Ht2 & F2 & Hk2) & G2); [|auto|exact Ht|done].
  step E as [] a3 E3. assert (talked own s 0 v i a2 a3 /\ done_near s x1 a3 /\ rewatched own s v i a2 a3 /\
    forall g, held a2 g -> g <> 0 -> (succ = false -> g <> fd t) -> held a3 g) as (T3 & (x3 & L3 & N3) & W3 & G3).
  { destruct succ.
    - injection E3 as <-. split_and!; [|exists x1; split; [rewrite S2; done|lia]|by apply rewatched_same|auto]. destruct T2. split; [done|by apply moves_same|reflexivity|done].
    - eapply (FinishTalk_retry_law own s v i t2 x1) in E3 as (T3 & N3 & W3 & G3); try done; [|by eapply tk_ok|rewrite F2; auto|by rewrite S2|lia].
      split_and!; [done..|]. rewrite F2 in G3. auto. }
  step E as x3' a4 E4. apply load_session_inv in E4 as [-> H3]. rewrite L3 in H3. injection H3 as <-.
  assert (talked own s 1 v i a a3) as T.
  { change 1 with (1 + (0 + 0)). eapply (talked_trans own own); [|exact (talked_trans own own s 0 0 v i _ _ _ T2 T3)]. split; eauto. }
  step E as n a4 E4. apply num_talks_inv in E4 as [-> H4]. injection E as <- <-.
  rewrite (sr_len _ _ _ _ _ (tk_rest _ _ _ _ _ _ _ T)), Hv in H4. injection H4 as ->.
  split_and!; [done|by eapply rewatched_pre| |auto]. exists x3. split_and!; [done|lia..|done].
Qed.

End Laws.
#[export] Hint Resolve rest_world rest_driver rest_conns rest_protos rest_get rest_free rest_store_ctx rest_load_talk
  rest_load_ctx rest_load_remote : frame.
#[export] Hint Extern 1 (keeps _ (store_talk _ _ _)) => apply store_talk_rest : frame.
#[export] Hint Extern 1 (keeps _ (set_failure _)) => apply rest_failure : frame.
End SessionLaws.
