(* ===== verification/SessionEvents.v ===== *)
(** * SessionEvents: handling the events of a talk

    The laws of SessionLaws.v, continued: the handlers of an agent thread
    either keep a talk waiting or take it out of the events driver, and the
    session hears of its end exactly once.  Answers.v states the invariant of
    an agent with them. *)

From Stdlib Require Import ZArith Lia.
From stdpp Require Import base list gmap numbers option.
From S2P Require Import Prelude Os Protocol Rapid Redis IOHelper Model ConnsMgr EventsDriver PoolObjs Protocols Fds Confs EventCtx Msg Session AgentSlave SessionLaws.
Import Os Buffer Model.

Module SessionEvents.
Import TalkOps Session Inert Fds AgentSlave SessionLaws.
Section Events.
Context {W Q : Type} `{NI : !NetIO W, SK : !Sock W, CK : !Clock W, EP : !Epoll W, PE : !Peers W, TQ : !TimeoutQueue Q,
  TQL : !TimeoutQueueLaws Q, RD : !Rand, MA : !Malloc, OS : !OpenSpec W} {FU : Protocol.Fuel}.
Context (conf : Confs.ConfNormal).
Abbreviation Agent := (Session.Agent W Q).

(** ** A context in the hands of a handler *)

Lemma load_ctx_inv c e (a a' : Agent) : load_ctx c a = Some (e, a') -> a' = a /\ Store.load (event_ctxs a) c = Some e.
Proof. unfold load_ctx. intros E. step E as a0 a1 E0. injection E0 as <- <-. by apply deref_inv in E as [L ->]. Qed.

(** A context is written with what it is waited for unchanged. *)
Lemma touch_law own c e e' (a a' : Agent) : agent_ok own a -> Store.load (event_ctxs a) c = Some e -> view e' = view e ->
  store_ctx c e' a = Some ((), a') -> (exists st, a' = set_ctxs st (pool_event_ctxs_ a) a) /\ agent_ok own a' /\
  (forall s, bal a' s = bal a s) /\ (forall g, watch a' g = watch a g) /\ Store.load (event_ctxs a') c = Some e'.
Proof.
  intros [A1 B C (l & V & N & S)] L D [= <-]. split; [by eexists|].
  assert (forall x, is_Some (Store.load (event_ctxs a) x) -> exists e1 e2, Store.load (event_ctxs a) x = Some e1 /\
    Store.load (Store.store c e' (event_ctxs a)) x = Some e2 /\ view e2 = view e1) as Same.
  { intros x [ex Hx]. destruct (decide (x = c)) as [->|Nx]; [exists e, e'|exists ex, ex; by rewrite Store.load_store_ne].
    by rewrite Store.load_store. }
  assert (forall x s', is_Some (Store.load (event_ctxs a) x) ->
    is_for (Store.store c e' (event_ctxs a)) s' x = is_for (event_ctxs a) s' x) as Sf.
  { intros x s' (e1 & e2 & L1 & L2 & D2)%Same. unfold is_for. injection D2 as _ _ D2. by rewrite L1, L2, D2. }
  split_and!; [| | |apply Store.load_store].
  - split; [done..| |]; cbn [event_ctxs set_ctxs]; [apply Store.ok_store; [done|by eexists]|].
    exists l. split_and!; [done..|]. intros x Hx. destruct (Same x (S x Hx)) as (_ & e2 & _ & L2 & _). by eexists.
  - intros s'. apply bal_ext; [done|]. apply count_for. intros x Hx. apply Sf, S. rewrite !elem_of_app. auto.
  - intros g. unfold watch. cbn [event_ctxs set_ctxs events_driver_]. destruct (ctx_at (events_driver_ a) g) as [x|] eqn:Cx; [|done]. cbn.
    destruct (Same x) as (e1 & e2 & L1 & L2 & D2); [|by rewrite L1, L2; cbn; rewrite D2].
    apply S. rewrite !elem_of_app. right. right. apply ctx_at_armed; eauto.
Qed.

Section Handling.
Context (own : list Z) (c : ptr) (f : Z) (s : ptr) (i : nat).

(** The handler of the event of [c], called in [a0], has come to [a]; with [b]
    the context still waits for [f]. *)
Record handling (b : bool) (a0 a : Agent) : Prop := {
  hg_ok : agent_ok (if b then own else c :: own) a;
  hg_slot : exists sl, EventsDriver.slot (events_driver_ a) f = Some sl /\
    if b then EventsDriver.sign_timeo sl <> 0%nat /\ EventsDriver.context sl = Some c else EventsDriver.sign_timeo sl = 0%nat;
  hg_ctx : exists e, Store.load (event_ctxs a) c = Some e /\ view e = sess f s i;
  hg_fd : opened (world a) f /\ f ∉ idle (conns_mgr_ a);
  hg_moves : moves s (if b then 0 else -1) a0 a;
  hg_watch g : watch a g = if decide (g = f) then (if b then Some (sess f s i) else None) else watch a0 g;
  hg_held g : held a0 g -> held a g;
}.

Lemma handling_start e a : agent_ok own a -> ctx_at (events_driver_ a) f = Some c ->
  Store.load (event_ctxs a) c = Some e -> view e = sess f s i -> handling true a a.
Proof.
  intros Ok C L D. assert (live_fd (events_driver_ a) f) as Lv.
  { apply ctx_at_Some in C as (sl & S & N & _). by exists sl. }
  split; [done|apply ctx_at_Some in C; naive_solver|eauto| |apply moves_same| |done].
  - split; [by apply (ao_fds _ _ Ok)|]. intros I. by apply (fo_idle _ _ _ (ao_fds _ _ Ok)) in I as [_ I].
  - intros g. case_decide as Dg; [subst g|done]. unfold watch. rewrite C. cbn. rewrite L. cbn. by rewrite D.
Qed.

(** Steps of a handler that leave the driver alone. *)
Lemma handling_calm b a0 a a' : handling b a0 a -> agent_ok (if b then own else c :: own) a' ->
  events_driver_ a' = events_driver_ a -> conns_mgr_ a' = conns_mgr_ a -> stay (world a) (world a') ->
  (forall s', bal a' s' = bal a s') -> (forall g, watch a' g = watch a g) ->
  (exists e, Store.load (event_ctxs a') c = Some e /\ view e = sess f s i) -> handling b a0 a'.
Proof.
  intros [H1 H2 H3 [H4 H5] H6 H7 H8] Ok D Cn St B Wa L. split; [done|by rewrite D|done|split; [auto|by rewrite Cn]|..].
  - intros s'. by rewrite B.
  - intros g. by rewrite Wa.
  - intros g (G1 & G2 & G3)%H8. split_and!; [auto|by rewrite D|by rewrite Cn].
Qed.

Lemma handling_world {A} (m : M W A) b r a0 a a' : keeps stay m -> handling b a0 a -> on_world m a = Some (r, a') ->
  handling b a0 a' /\ talk_vectors a' = talk_vectors a.
Proof.
  intros K H E. pose proof (hg_ok _ _ _ H) as Ok. eapply world_law in E as (O' & [Q1 Q2 Q3 Q4 Q5 Q6] & w & ->); [|done..].
  split; [|done]. eapply handling_calm; [done..|by apply H].
Qed.
Lemma handling_protos {A} (m : M Protocols.Protos A) b r a0 a a' : handling b a0 a -> on_protos m a = Some (r, a') ->
  handling b a0 a' /\ talk_vectors a' = talk_vectors a.
Proof.
  intros H E. pose proof (hg_ok _ _ _ H) as Ok. eapply protos_inv in E as (p & -> & O'). split; [|done].
  eapply handling_calm; [done|by apply O'|done|done|by intros g|done|done|by apply H].
Qed.
Lemma handling_talk v t t' b a0 a a' : handling b a0 a -> talk_at a v i = Some t -> store_talk v i t' a = Some ((), a') ->
  handling b a0 a' /\ talk_at a' v i = Some t'.
Proof.
  intros H T E. pose proof (hg_ok _ _ _ H) as Ok. eapply store_talk_law in E as ([tv ->] & T' & _ & O'); [|done]. split; [|done].
  eapply handling_calm; [done|by apply O'|done|done|by intros g|done|done|by apply H].
Qed.

(** A context that waits is written with the data it has. *)
Lemma handling_touch e e' a0 a a' : handling true a0 a -> Store.load (event_ctxs a) c = Some e ->
  view e' = view e -> store_ctx c e' a = Some ((), a') ->
  handling true a0 a' /\ talk_vectors a' = talk_vectors a.
Proof.
  intros H L D E. pose proof (hg_ctx _ _ _ H) as (e1 & L1 & D1). rewrite L in L1. injection L1 as <-.
  eapply touch_law in E as ([st ->] & O' & B' & W' & L'); [|apply H|done|done]. split; [|done].
  eapply handling_calm; [done|done|done|done|by intros g|done|done|]. exists e'. split; [done|congruence].
Qed.

Lemma handling_timeout timeleft b a0 a a' : handling true a0 a -> CheckEventCtxTimeout_ c timeleft a = Some (b, a') ->
  handling true a0 a' /\ talk_vectors a' = talk_vectors a.
Proof.
  intros H E. unfold CheckEventCtxTimeout_ in E. step E as now a1 E1.
  eapply handling_world in E1 as [H1 T1]; [|apply inert_Msec, _|done].
  step E as e a2 E2. apply load_ctx_inv in E2 as [-> L]. destruct (EventCtx.timeleft_ms e <=? now - EventCtx.lasttime_ms e).
  - injection E as <- <-. done.
  - step E as [] a3 E3. injection E as <- <-. rewrite <- T1. by eapply handling_touch in E3 as [H3 T3].
Qed.

Lemma handling_mod ev b a0 a a' : handling true a0 a -> ModEvent f ev c a = Some (b, a') ->
  handling b a0 a' /\ talk_vectors a' = talk_vectors a.
Proof.
  intros [H1 (sl & H2 & H2' & H2'') (e & H3 & H3') [H4 H5] H6 H7 H8] E. unfold ModEvent in E.
  step E as e0 a1 E1. apply load_ctx_inv in E1 as [-> L].
  eapply (mod_law s i c f own sl e) in E as (d & w & -> & Ok & Mv & Wa & S' & Lv & St); [|done..].
  split; [|done]. split; [done|done|eauto|auto|..].
  - change (if b then 0 else -1) with (0 + if b then 0 else -1). by eapply moves_trans.
  - intros g. rewrite (Wa g). case_decide as Dg; [done|]. rewrite H7. by rewrite decide_False.
  - intros g (G1 & G2 & G3)%H8. split_and!; [auto| |done]. intros [? _]%Lv. done.
Qed.

(** The context leaves the driver. *)
Record handled (a0 a : Agent) : Prop := {
  hd_ok : agent_ok (c :: own) a;
  hd_ctx : exists e, Store.load (event_ctxs a) c = Some e /\ view e = sess f s i;
  hd_moves : moves s (-1) a0 a;
  hd_watch : rewatch f None a0 a;
  hd_held g : held a0 g -> g <> f -> held a g;
}.

Lemma handling_del b r a0 a a' : handling b a0 a -> RegEventDel f a = Some (r, a') ->
  handled a0 a' /\ held a' f /\ talk_vectors a' = talk_vectors a.
Proof.
  intros [H1 (sl & H2 & H2') (e & H3 & H3') [H4 H5] H6 H7 H8] E.
  assert (exists d w, a' = set_driver d w a /\ agent_ok (c :: own) a' /\ moves s (if b then -1 else 0) a a' /\ rewatch f None a a' /\
    (forall f', live_fd d f' <-> live_fd (events_driver_ a) f' /\ f' <> f) /\ stay (world a) w) as (d & w & -> & Ok & Mv & Wa & Lv & St).
  { pose proof (view_data _ _ _ _ H3') as D. destruct b; [destruct H2'; by eapply (del_law s i c f own sl e) in E|by eapply (del_unarmed s f (c :: own) sl) in E]. }
  split_and!; [|split_and!; [by apply St|by intros [_ ?]%Lv|done]|done]. split; [done|eauto|..].
  - replace (-1) with ((if b then 0 else -1) + (if b then -1 else 0)) by (by destruct b). by eapply moves_trans.
  - intros g. rewrite (Wa g). case_decide as Dg; [done|]. rewrite H7. by rewrite decide_False.
  - intros g (G1 & G2 & G3)%H8 _. split_and!; [auto| |done]. intros [? _]%Lv. done.
Qed.

(** [ERROR_HANDLE]: the talk carries the error; its descriptor is closed
    unless the error is none. *)
Lemma end_event_law v t err b r a0 a a' : handling b a0 a -> talk_at a v i = Some t -> fd t = f ->
  end_event v i err a = Some (r, a') -> r = false /\ handled a0 a' /\
  exists t', talk_at a' v i = Some t' /\ error t' = err /\ (talk_ok i t -> talk_ok i t') /\
    if err =? ErrorNo.kOk then fd t' = f /\ held a' f else fd t' = -1.
Proof.
  intros H T F E. unfold end_event in E. step E as t0 a1 E1. apply load_talk_inv in E1 as [-> T0]. rewrite T in T0. injection T0 as <-.
  step E as [] a1 E1. eapply handling_talk in E1 as [H1 T1]; [|done..].
  step E as r1 a2 E2. cbn [fd set_error] in E2. rewrite F in E2. eapply handling_del in E2 as (D2 & G2 & V2); [|done].
  assert (talk_at a2 v i = Some (set_error t err)) as T2 by (unfold talk_at in *; by rewrite V2).
  step E as [] a3 E3. injection E as <- <-. split; [done|].
  destruct (Z.eqb_spec err ErrorNo.kOk) as [Z|Z]; cbn [negb when] in E3.
  { injection E3 as <-. split; [done|]. exists (set_error t err). by split_and!. }
  step E3 as [] a4 E4. unfold CloseFd_ in E4. cbn [fd set_error] in E4. rewrite F in E4. destruct D2 as [D1 D2 D3 D4 D5].
  apply (close_law f (c :: own)) in E4 as (O4 & [w4 ->] & G4); [|done..].
  eapply (store_talk_law (c :: own) _ _ (set_error t err)) in E3 as ([tv ->] & T3 & _ & O3); [|exact T2].
  split; [|eexists; split; [exact T3|by split_and!]]. split; [by apply O3|done|done|done|].
  intros g Hg N. by apply G4; [apply D5|].
Qed.

(** What a handler of a talk leaves: the talk goes on waiting, or the talk has
    ended, with its descriptor still open or closed. *)
Definition outcome (v : ptr) (more : bool) (a0 a : Agent) : Prop :=
  exists t, talk_at a v i = Some t /\ talk_ok i t /\
  if more then handling true a0 a /\ fd t = f /\ going t
  else handled a0 a /\ if error t =? ErrorNo.kOk then fd t = f /\ held a f else fd t = -1.

Lemma end_outcome v t err b r a0 a a' : handling b a0 a -> talk_at a v i = Some t -> talk_ok i t -> fd t = f ->
  end_event v i err a = Some (r, a') -> outcome v r a0 a'.
Proof.
  intros H T K F E. eapply end_event_law in E as (-> & D & t' & T' & Er & K' & C); [|done..].
  exists t'. rewrite Er. split_and!; auto.
Qed.

(** The two ways an event continues: the time left is checked, then the
    descriptor is registered again. *)
Lemma go_on_outcome v t ev r a0 a a' : handling true a0 a -> talk_at a v i = Some t -> talk_ok i t -> going t -> fd t = f ->
  (ret ← ModEvent (fd t) ev c; if negb ret then end_event v i ErrorNo.kOther else mret true) a = Some (r, a') -> outcome v r a0 a'.
Proof.
  intros H T K G F E. step E as b a1 E1. rewrite F in E1. eapply handling_mod in E1 as [H1 V1]; [|done].
  assert (talk_at a1 v i = Some t) as T1 by (unfold talk_at in *; by rewrite V1). destruct b; cbn [negb] in E.
  - injection E as <- <-. exists t. by split_and!.
  - by eapply end_outcome.
Qed.

Lemma talk_same v t (a a' : Agent) : talk_vectors a' = talk_vectors a -> talk_at a v i = Some t -> talk_at a' v i = Some t.
Proof. unfold talk_at. by intros ->. Qed.

Lemma HandleSessionEventConn_law v t r a0 a a' : handling true a0 a -> talk_at a v i = Some t -> talk_ok i t -> fd t = f ->
  HandleSessionEventConn_ v i c a = Some (r, a') -> outcome v r a0 a'.
Proof.
  intros H T K F E. unfold HandleSessionEventConn_ in E. step E as t0 a1 E1. apply load_talk_inv in E1 as [-> T0].
  rewrite T in T0. injection T0 as <-. set (t1 := set_status t _) in E.
  assert (talk_ok i t1 /\ going t1 /\ fd t1 = f) as (K1 & G1 & F1).
  { split_and!; [done| |done]. unfold going, t1. cbn. repeat case_decide; auto. }
  step E as [] a1 E1. eapply handling_talk in E1 as [H1 T1]; [|done..].
  step E as now a2 E2. eapply handling_world in E2 as [H2 V2]; [|apply inert_Msec, _|done]. eapply talk_same in T1; [|exact V2].
  step E as rp a3 E3. apply deref_inv in E3 as [_ ->]. step E as rm a3 E3. apply load_remote_inv in E3 as [-> _].
  step E as b a3 E3. eapply handling_timeout in E3 as [H3 V3]; [|done]. eapply talk_same in T1; [|exact V3].
  destruct b; cbn [negb] in E; [by eapply go_on_outcome|by eapply end_outcome].
Qed.

Lemma HandleSessionEventRead_law v t r a0 a a' : handling true a0 a -> talk_at a v i = Some t -> talk_ok i t -> going t -> fd t = f ->
  HandleSessionEventRead_ v i c a = Some (r, a') -> outcome v r a0 a'.
Proof.
  intros H T K G F E. unfold HandleSessionEventRead_ in E. step E as t0 a1 E1. apply load_talk_inv in E1 as [-> T0].
  rewrite T in T0. injection T0 as <-. step E as pr a1 E1. apply deref_inv in E1 as [_ ->].
  step E as o a1 E1. eapply handling_protos in E1 as [H1 V1]; [|done]. eapply talk_same in T; [|exact V1].
  step E as [n o1] a2 E2. eapply handling_world in E2 as [H2 V2]; [|apply inert_RRead, _|done]. eapply talk_same in T; [|exact V2].
  step E as [] a3 E3. eapply handling_protos in E3 as [H3 V3]; [|done]. eapply talk_same in T; [|exact V3].
  destruct (n =? 0); [|destruct (0 <? n)].
  - destruct (Protocols.RDecode o1) as [b o2]. step E as [] a4 E4. eapply handling_protos in E4 as [H4 V4]; [|done].
    eapply talk_same in T; [|exact V4]. by eapply end_outcome.
  - step E as b a4 E4. eapply handling_timeout in E4 as [H4 V4]; [|done]. eapply talk_same in T; [|exact V4].
    destruct b; cbn [negb] in E; [by eapply go_on_outcome|by eapply end_outcome].
  - by eapply end_outcome.
Qed.

Lemma HandleSessionEventWrite_law v t r a0 a a' : handling true a0 a -> talk_at a v i = Some t -> talk_ok i t -> going t -> fd t = f ->
  HandleSessionEventWrite_ v i c a = Some (r, a') -> outcome v r a0 a'.
Proof.
  intros H T K G F E. unfold HandleSessionEventWrite_ in E. step E as t0 a1 E1. apply load_talk_inv in E1 as [-> T0].
  rewrite T in T0. injection T0 as <-. step E as pr a1 E1. apply deref_inv in E1 as [_ ->].
  step E as o a1 E1. eapply handling_protos in E1 as [H1 V1]; [|done]. eapply talk_same in T; [|exact V1].
  step E as [n o1] a2 E2. eapply handling_world in E2 as [H2 V2]; [|apply inert_WWrite, _|done]. eapply talk_same in T; [|exact V2].
  step E as [] a3 E3. eapply handling_protos in E3 as [H3 V3]; [|done]. eapply talk_same in T; [|exact V3].
  destruct (n =? 0); [case_decide|destruct (0 <? n)].
  - step E as now a4 E4. eapply handling_world in E4 as [H4 V4]; [|apply inert_Msec, _|done]. eapply talk_same in T; [|exact V4].
    step E as rp a5 E5. apply deref_inv in E5 as [_ ->]. step E as rm a5 E5. apply load_remote_inv in E5 as [-> _].
    step E as b a5 E5. eapply handling_timeout in E5 as [H5 V5]; [|done]. eapply talk_same in T; [|exact V5].
    destruct b; cbn [negb] in E; [|by eapply end_outcome].
    step E as [] a6 E6. eapply handling_talk in E6 as [H6 T6]; [|done..].
    eapply (go_on_outcome v (set_status t kRead)); [done|done|done| |done|exact E]. unfold going. cbn. auto.
  - by eapply end_outcome.
  - step E as b a4 E4. eapply handling_timeout in E4 as [H4 V4]; [|done]. eapply talk_same in T; [|exact V4].
    destruct b; cbn [negb] in E; [by eapply go_on_outcome|by eapply end_outcome].
  - by eapply end_outcome.
Qed.

(** An error of the descriptor. *)
Lemma broken_outcome v t r a0 a a' : handling true a0 a -> talk_at a v i = Some t -> talk_ok i t -> fd t = f ->
  (RegEventDel (fd t);; CloseFd_ (fd t);; store_talk v i (set_error (set_fd t (-1)) ErrorNo.kBroken);; mret false) a = Some (r, a') ->
  outcome v r a0 a'.
Proof.
  intros H T K F E. step E as r1 a1 E1. rewrite F in E1. eapply handling_del in E1 as ([D1 D2 D3 D4 D5] & G1 & V1); [|done].
  eapply talk_same in T; [|exact V1]. step E as [] a2 E2. rewrite F in E2.
  apply (close_law f (c :: own)) in E2 as (O2 & [w2 ->] & G2); [|done..]. step E as [] a3 E3. injection E as <- <-.
  eapply (store_talk_law (c :: own) _ _ t) in E3 as ([tv ->] & T3 & _ & O3); [|exact T].
  eexists. split_and!; [exact T3|done| |done]. split; [by apply O3|done|done|done|].
  intros g Hg N. by apply G2; [apply D5|].
Qed.

End Handling.

(** ** The invariant of an agent *)

(** A descriptor that is waited for belongs to a client, or to the talk its
    context names. *)
Definition link_to (act : list ptr) (a : Agent) (g : Z) (w : EventCtx.Category * Z * EventCtx.Data) : Prop :=
  0 < g /\ match w.2 with
  | EventCtx.DSession s i => w = sess g s i /\ s ∈ act /\ exists x t, Store.load (sessions a) s = Some x /\
      talk_at a (talks_ x) i = Some t /\ fd t = g /\ talk_ok i t /\ going t
  | EventCtx.DReadReq _ _ _ => w.1 = (EventCtx.kReadReq, g)
  | _ => False
  end.
Definition link (act : list ptr) (a : Agent) (g : Z) : Prop := forall w, watch a g = Some w -> link_to act a g w.
Definition linked (act : list ptr) (a : Agent) : Prop := forall g, link act a g.

(** The talk [i] of [v] changes; the descriptor it had is free, or the talk
    still waits for it. *)
Lemma link_to_rest act v i t g w a a' : link_to act a g w -> same_rest false v i a a' -> talk_at a v i = Some t -> g <> fd t ->
  link_to act a' g w.
Proof.
  intros [P L] R T N. split; [done|]. destruct (w.2) as [| |? ? ?|s j]; try done.
  destruct L as (Ew & Ha & x & t2 & L2 & T2 & F2 & K2). destruct (rest_session _ _ _ _ _ _ _ R L2) as (x' & L' & Tx & _).
  split_and!; [done..|]. exists x', t2. split_and!; [done| |done|apply K2..].
  rewrite Tx, (sr_talks _ _ _ _ _ R); [done|]. intros [= <- <-]. congruence.
Qed.
Lemma linked_rest act v i t a a' : linked act a -> same_rest false v i a a' -> talk_at a v i = Some t ->
  (forall g, g <> fd t -> watch a' g = watch a g \/ link act a' g) -> link act a' (fd t) -> linked act a'.
Proof.
  intros L R T H Hf g. destruct (decide (g = fd t)) as [->|N]; [done|]. destruct (H g N) as [E|]; [|done].
  intros w Wa. rewrite E in Wa. by eapply link_to_rest; [apply L| | |].
Qed.

(** [same_rest] for every step of a handler. *)
Lemma rest_touch k v i c n : keeps (same_rest k v i) (CheckEventCtxTimeout_ c n : M Agent bool).
Proof. unfold CheckEventCtxTimeout_. frame. Qed.
Lemma rest_del k v i f : keeps (same_rest k v i) (RegEventDel f : M Agent bool).
Proof. apply rest_driver. Qed.
Lemma rest_mod k v i f ev c : keeps (same_rest k v i) (ModEvent f ev c : M Agent bool).
Proof. unfold ModEvent, RegEvent. frame. Qed.
Lemma rest_closefd k v i f : keeps (same_rest k v i) (CloseFd_ f : M Agent ()).
Proof. apply rest_world. Qed.
Hint Resolve rest_touch rest_del rest_mod rest_closefd : frame.
Lemma rest_end k v i err : keeps (same_rest k v i) (end_event v i err : M Agent bool).
Proof. unfold end_event. frame. Qed.
Hint Resolve rest_end : frame.
Lemma rest_conn k v i c : keeps (same_rest k v i) (HandleSessionEventConn_ v i c : M Agent bool).
Proof. unfold HandleSessionEventConn_. frame. Qed.
Lemma rest_read k v i c : keeps (same_rest k v i) (HandleSessionEventRead_ v i c : M Agent bool).
Proof. unfold HandleSessionEventRead_. frame. Qed.
Lemma rest_write k v i c : keeps (same_rest k v i) (HandleSessionEventWrite_ v i c : M Agent bool).
Proof. unfold HandleSessionEventWrite_. frame. Qed.
Hint Resolve rest_conn rest_read rest_write : frame.

(** A context that waits counts. *)
Lemma waits_pos own c f e s i (a : Agent) : agent_ok own a -> ctx_at (events_driver_ a) f = Some c ->
  Store.load (event_ctxs a) c = Some e -> EventCtx.data e = EventCtx.DSession s i -> 1 <= waits a s.
Proof.
  intros [A1 _ _ _] C L D. assert (c ∈ armed (events_driver_ a)) as Hc by (apply ctx_at_armed; eauto).
  apply elem_of_Permutation in Hc as [l P]. unfold waits. rewrite P. change (c :: l) with ([c] ++ l).
  rewrite count_app, (count_ctx s i c _ e) by done. rewrite decide_True by done. pose proof (count_nonneg (event_ctxs a) l s). lia.
Qed.

(** The part of [CheckSession_] before the session hears of the talk. *)
Lemma FreeEventCtx_calm own c a a' : agent_ok (c :: own) a -> FreeEventCtx c a = Some ((), a') ->
  agent_ok own a' /\ same_ctxs a a' /\ sessions a' = sessions a /\ talk_vectors a' = talk_vectors a /\
  (forall s, bal a' s = bal a s) /\ (forall g, held a g -> held a' g).
Proof. intros Ok E. apply (FreeEventCtx_law own) in E as [[p ->] O']; [|done]. by split_and!. Qed.

Lemma rest_dispatch k v i ev c t : keeps (same_rest k v i) (dispatch ev v i c t : M Agent bool).
Proof. unfold dispatch. frame. Qed.

Lemma dispatch_outcome own c f s i v t ev r a a' : handling own c f s i true a a -> talk_at a v i = Some t -> talk_ok i t -> going t ->
  fd t = f -> dispatch ev v i c t a = Some (r, a') -> outcome own c f s i v r a a'.
Proof.
  intros H T K G F E. unfold dispatch in E. assert (ev = EventsDriver.kErr \/ HandleSessionEventConn_ v i c a = Some (r, a') \/
    HandleSessionEventRead_ v i c a = Some (r, a') \/ HandleSessionEventWrite_ v i c a = Some (r, a')) as C.
  { destruct ev; auto; destruct G as [G|[G|G]]; rewrite G in E; auto. }
  destruct C as [->|[C|[C|C]]]; [by eapply broken_outcome|by eapply HandleSessionEventConn_law|
    by eapply HandleSessionEventRead_law|by eapply HandleSessionEventWrite_law].
Qed.

(** The end of a talk keeps the links. *)
Lemma linked_finish own act s v i t x' a b a' : linked act a -> s ∈ act -> same_rest false v i a a' -> talk_at a v i = Some t ->
  rewatch (fd t) None a b -> rewatched own s v i b a' -> Store.load (sessions a') s = Some x' -> talks_ x' = v -> linked act a'.
Proof.
  intros L Ha R T Wb [_ C] Lx Hx. destruct C as [C|(t' & T' & F' & G' & K' & C)].
  - eapply linked_rest; [done..| |].
    + intros g N. left. by rewrite C, (Wb g), decide_False.
    + intros w. by rewrite C, (Wb (fd t)), decide_True.
  - assert (link act a' (fd t')) as Lk.
    { intros w. rewrite (C (fd t')), decide_True by done. intros [= <-]. split; [done|]. cbn. split_and!; [done..|]. exists x', t'. by rewrite Hx. }
    eapply linked_rest; [done..| |].
    + intros g N. destruct (decide (g = fd t')) as [->|N']; [by right|left]. rewrite (C g), decide_False by done. by rewrite (Wb g), decide_False.
    + destruct (decide (fd t = fd t')) as [->|N']; [done|]. intros w. by rewrite (C (fd t)), decide_False, (Wb (fd t)), decide_True.
Qed.

(** What is known of a session that waits: every talk has ended, waits in the
    driver, or its context is in hand. *)
Record session_ok (own : list Z) (a : Agent) (s : ptr) (x : Session) (n : nat) : Prop := {
  so_load : Store.load (sessions a) s = Some x;
  so_len : length <$> talk_vectors a !! talks_ x = Some n;
  so_done : 0 <= num_talks_done_ x;
  so_bal : bal a s = Some (Z.of_nat n - count (event_ctxs a) own s);
  so_size : Z.of_nat n < 2 ^ 64;
}.

Lemma session_waits own a s x n : session_ok own a s x n ->
  num_talks_done_ x + waits a s + count (event_ctxs a) own s = Z.of_nat n.
Proof. intros [L _ _ B _]. unfold bal in B. rewrite L in B. injection B as B. lia. Qed.
Lemma session_waits_all a s x n : session_ok [] a s x n -> num_talks_done_ x + waits a s = Z.of_nat n.
Proof. intros So%session_waits. change (count (event_ctxs a) [] s) with 0 in So. lia. Qed.

(** A step of the talk [i] of the session [s] that reports [r]: the balance of
    every session stays, and [r] tells whether all talks of [s] have ended. *)
Record checked (act : list Z) (c s : ptr) (i : nat) (x : Session) (n : nat) (r : bool) (a a' : Agent) : Prop := {
  ck_session : exists x', session_ok [] a' s x' n /\ talks_ x' = talks_ x /\ r = (num_talks_done_ x' =? Z.of_nat n);
  ck_talked : talked [] s 0 (talks_ x) i a a';
  ck_linked : linked act a';
  ck_names : names s c a';
  ck_held g : held a g -> 0 < g -> held a' g;
}.

Lemma goes_on_law act c f s i x n t t1 a a1 : linked act a -> s ∈ act -> session_ok [] a s x n -> 1 <= waits a s ->
  talk_at a (talks_ x) i = Some t -> fd t = f -> 0 < f -> same_rest true (talks_ x) i a a1 ->
  handling [] c f s i true a a1 -> talk_at a1 (talks_ x) i = Some t1 -> talk_ok i t1 -> fd t1 = f -> going t1 ->
  checked act c s i x n false a a1.
Proof.
  intros Lk Ha So Wp T F Pf R [H1 H2 H3 H4 H5 H6 H7] T1 K1 F1 G1. pose proof (session_waits_all _ _ _ _ So) as Hw.
  destruct So as [Lx Len Pos B Sz]. destruct (rest_session _ _ _ _ _ _ _ R Lx) as (x1 & L1 & Tx1 & N1). specialize (N1 eq_refl).
  split; [|split; [done|done|by eapply rest_weaken|eauto]| |destruct H3 as (e & L & D); exists e, i; by rewrite (view_data _ _ _ _ D)|auto].
  - exists x1. split_and!; [|done|symmetry; apply Z.eqb_neq; lia]. split; [done| |lia|by erewrite moves_none|done].
    rewrite Tx1, (sr_len _ _ _ _ _ R). done.
  - eapply linked_rest; [done|by eapply rest_weaken|done|..]; rewrite F.
    + intros g N. left. by rewrite H6, decide_False.
    + intros w. rewrite H6, decide_True by done. intros [= <-]. split; [done|]. cbn. split_and!; [done..|]. exists x1, t1. by rewrite Tx1.
Qed.

(** The talk has ended, its context goes back to the pool and the session
    hears of it. *)
Lemma finish_law act c s i x n t t1 r a a1 a' : conf_timeo conf -> linked act a -> s ∈ act -> session_ok [] a s x n -> 1 <= waits a s ->
  talk_at a (talks_ x) i = Some t -> same_rest true (talks_ x) i a a1 -> handled [] c (fd t) s i a a1 -> ~ held a (fd t) ->
  talk_at a1 (talks_ x) i = Some t1 -> talk_ok i t1 -> (if error t1 =? ErrorNo.kOk then fd t1 = fd t /\ held a1 (fd t) else fd t1 = -1) ->
  (FreeEventCtx c;; FinishTalk conf s (error t1 =? ErrorNo.kOk) (talks_ x) i) a1 = Some (r, a') ->
  checked act c s i x n r a a'.
Proof.
  intros Cf Lk Ha So Wp T R1 [D1 (e & De & De') D3 D4 D5] Nh T1 K1 C1 E. pose proof (session_waits_all _ _ _ _ So) as Hw.
  destruct So as [Lx Len Pos B Sz]. destruct (rest_session _ _ _ _ _ _ _ R1 Lx) as (x1 & L1 & Tx1 & N1). specialize (N1 eq_refl).
  step E as [] a2 E2. pose proof (keeps_run _ _ _ _ _ E2 (rest_free true (talks_ x) i c)) as R2.
  apply (FreeEventCtx_calm []) in E2 as (O2 & Cx2 & S2 & V2 & B2 & G2); [|done].
  assert (exists l, talk_vectors a2 !! talks_ x = Some l /\ length l = n) as (l & Vl & Ll).
  { rewrite V2. pose proof (sr_len _ _ _ _ _ R1 (talks_ x)) as Q'. rewrite Len in Q'. destruct (talk_vectors a1 !! talks_ x) as [l|]; [|done].
    injection Q' as Q'. eauto. }
  eapply (FinishTalk_law conf [] s _ (talks_ x) i t1 x1 l) in E as (Tk & Wa & (x' & L' & N' & ->) & G'); [|done|done|by eapply talk_same| |
    |by rewrite S2|lia|done]; [|done|].
  2: { intros Hs. rewrite Hs in C1. lia. }
  pose proof Tk as [O' M' R' [t' T']].
  assert (same_rest false (talks_ x) i a a') as Ra by (etransitivity; [etransitivity; eapply rest_weaken; done|done]).
  destruct (rest_session _ _ _ _ _ _ _ Ra Lx) as (x'' & L'' & Tx' & _). rewrite L' in L''. injection L'' as <-.
  assert (moves s 0 a a') as Mv.
  { change 0 with (-1 + 1). eapply moves_trans; [exact D3|]. intros s'. by rewrite <- B2. }
  split; [|split; [done|done|done|eauto]|..].
  - exists x'. rewrite Ll. split_and!; [|done|done]. split; [done| |lia|by erewrite moves_none|done].
    rewrite Tx', (sr_len _ _ _ _ _ Ra). done.
  - eapply (linked_finish [] act s (talks_ x) i t x' a a2); [done..| |done|done|done]. intros g. by rewrite (same_ctxs_watch _ _ g Cx2), (D4 g).
  - apply (proj1 (proj1 Wa)), (same_ctxs_names s c _ _ Cx2). exists e, i. by rewrite (view_data _ _ _ _ De').
  - intros g Hg N0. apply G'; [apply G2, D5; [done|by intros ->]|lia|]. intros Hs. rewrite Hs in C1. lia.
Qed.

(** [CheckSession_] on the context of a talk that waits. *)
Lemma CheckSession_law act c f s i e x n ev r a a' : conf_timeo conf -> agent_ok [] a -> linked act a ->
  ctx_at (events_driver_ a) f = Some c -> Store.load (event_ctxs a) c = Some e -> EventCtx.data e = EventCtx.DSession s i ->
  session_ok [] a s x n -> CheckSession_ conf ev c a = Some (r, a') -> checked act c s i x n r a a'.
Proof.
  intros Cf Ok Lk C Lc D So E. pose proof So as [Lx Len Pos B Sz].
  pose proof (waits_pos [] c f e s i a Ok C Lc D) as Wp. unfold CheckSession_ in E.
  step E as e0 a1 E1. apply load_ctx_inv in E1 as [-> L0]. rewrite Lc in L0. injection L0 as <-.
  step E as [s0 i0] a1 E1. unfold session_of in E1. rewrite D in E1. injection E1 as <- <- <-.
  step E as x0 a1 E1. apply load_session_inv in E1 as [-> L0]. rewrite Lx in L0. injection L0 as <-.
  step E as t a1 E1. apply load_talk_inv in E1 as [-> T].
  assert (watch a f = Some (view e)) as Wf by (unfold watch; rewrite C; cbn; by rewrite Lc).
  destruct (Lk f _ Wf) as [Pf Wl]. cbn [view snd] in Wl. rewrite D in Wl. destruct Wl as (Vw & Ha & x0 & t0 & L0 & T0 & F & K & G). rewrite Lx in L0. injection L0 as <-. rewrite T in T0. injection T0 as <-.
  step E as more a1 E1. pose proof (handling_start [] c f s i e a Ok C Lc Vw) as H0.
  pose proof (keeps_run _ _ _ _ _ E1 (rest_dispatch true (talks_ x) i ev c t)) as R1.
  eapply dispatch_outcome in E1 as (t1 & T1 & K1 & C1); [|done..]. destruct more.
  - injection E as <- <-. destruct C1 as (H1 & F1 & G1). by eapply (goes_on_law act c f s i x n t t1).
  - step E as t1' a2 E2. apply load_talk_inv in E2 as [-> T2]. rewrite T1 in T2. injection T2 as <-. destruct C1 as (H1 & C1).
    subst f. eapply (finish_law act c s i x n t t1); try done. intros (_ & Nl & _). apply Nl.
    apply ctx_at_Some in C as (sl & S & N & _). by exists sl.
Qed.


(** ** Starting a session *)

(** The talks of [v] from [i] on may be started, and their descriptors differ. *)
Record startable (v : ptr) (i : nat) (a : Agent) : Prop := {
  st_ready j t : (i <= j)%nat -> talk_at a v j = Some t -> status t <> kEnd -> ready a j t;
  st_differ j k t u : (i <= j < k)%nat -> talk_at a v j = Some t -> talk_at a v k = Some u ->
    status t <> kEnd -> status u <> kEnd -> 0 < fd u -> fd t <> fd u;
}.

Lemma startable_next v i t a a' : startable v i a -> talk_at a v i = Some t -> status t <> kEnd -> same_rest true v i a a' ->
  (forall g, held a g -> g <> fd t -> held a' g) -> startable v (S i) a'.
Proof.
  intros [H1 H2] T St R G.
  assert (forall j u, (S i <= j)%nat -> talk_at a' v j = Some u -> talk_at a v j = Some u) as Tk.
  { intros j u Hj. rewrite (sr_talks _ _ _ _ _ R); [done|]. intros [= ->]. lia. }
  split.
  - intros j u Hj Hu Su. apply Tk in Hu; [|done]. destruct (H1 j u ltac:(lia) Hu Su) as [R1 R2 R3]. split; [done|done|].
    intros P. destruct (R3 P) as [Hh Gg]. split; [|done]. apply G; [done|]. intros Ef. by apply (H2 i j t u).
  - intros j k u u' Hj Hu Hu'. apply Tk in Hu, Hu'; [|lia..]. eapply H2; [|done..]. lia.
Qed.

Lemma startable_same v i i' a a' : startable v i a -> (i <= i')%nat -> talk_vectors a' = talk_vectors a ->
  (forall g, held a g -> held a' g) -> startable v i' a'.
Proof.
  intros [S1 S2] Hi V G. assert (forall j, talk_at a' v j = talk_at a v j) as Tk by (intros j; unfold talk_at; by rewrite V).
  split; [intros j u|intros j k u u']; rewrite !Tk; intros Hj.
  - intros Hu Su. destruct (S1 j u ltac:(lia) Hu Su) as [R1 R2 R3]. split; [done|done|]. intros P. destruct (R3 P). auto.
  - apply S2. lia.
Qed.

(** The descriptor of a talk that is about to start is not waited for. *)
Lemma ready_unwatched act a i t : linked act a -> ready a i t -> watch a (fd t) = None.
Proof.
  intros L R. destruct (watch a (fd t)) as [w|] eqn:Wa; [|done]. destruct (L _ _ Wa) as [P _].
  destruct (rd_held _ _ _ R P) as [(_ & Nl & _) _]. unfold watch in Wa. by rewrite (ctx_at_dead _ _ Nl) in Wa.
Qed.

(** What the start of talks keeps: the length of every vector and whom a
    session answers. *)
Definition same_info (a a' : Agent) : Prop :=
  (forall v, length <$> talk_vectors a' !! v = length <$> talk_vectors a !! v) /\
  (forall s, (fun x => (biz_ctx_ x, biz_procedure_ x, talks_ x)) <$> Store.load (sessions a') s =
    (fun x => (biz_ctx_ x, biz_procedure_ x, talks_ x)) <$> Store.load (sessions a) s).
#[export] Instance same_info_preorder : PreOrder same_info.
Proof. split; [by intros a|]. intros a b c [A1 A2] [B1 B2]. split; intros; by rewrite ?B1, ?B2. Qed.
Lemma rest_info k v i a a' : same_rest k v i a a' -> same_info a a'.
Proof. intros [_ R2 R3 _]. by split. Qed.

(** One talk more has ended. *)
Lemma count_law own act s x a a' : agent_ok own a -> linked act a -> Store.load (sessions a) s = Some x ->
  0 <= num_talks_done_ x < 2 ^ 64 - 1 ->
  (x ← load_session s; set_done s (num_talks_done_ x + 1)) a = Some ((), a') ->
  agent_ok own a' /\ linked act a' /\ moves s 1 a a' /\ same_info a a' /\ talk_vectors a' = talk_vectors a /\
  (forall g, held a g -> held a' g) /\
  exists x', Store.load (sessions a') s = Some x' /\ talks_ x' = talks_ x /\ num_talks_done_ x' = num_talks_done_ x + 1.
Proof.
  intros Ok Lk L Hn E. step E as x0 a1 E1. apply load_session_inv in E1 as [-> L0]. rewrite L in L0. injection L0 as <-.
  eapply (set_done_law own) in E as ((st & -> & Ld) & Mv & R & O'); [|done|unfold in_uint; lia].
  destruct (rest_session _ _ _ _ _ _ _ (R 0 0%nat) L) as (x' & L' & Tx & _).
  split_and!; [auto| |by replace 1 with (num_talks_done_ x + 1 - num_talks_done_ x) by lia|exact (rest_info _ _ _ _ _ (R 0 0%nat))|done|done|].
  - intros g w Wa. destruct (Lk g w Wa) as [P Lw]. split; [done|]. destruct (w.2) as [| | |s' j]; try done.
    destruct Lw as (Ew & Ha & y & t & Ly & Rest). split_and!; [done..|].
    destruct (rest_session _ _ _ _ _ _ _ (R 0 0%nat) Ly) as (y' & Ly' & Ty & _). exists y', t. rewrite Ty. split; [done|exact Rest].
  - exists x'. split_and!; [done..|]. cbn in L'. unfold Store.load in *. cbn in L'. rewrite L' in Ld. by injection Ld.
Qed.

(** One turn of the loop of [Reset]. *)
Definition turn (s v : ptr) (i : nat) (t : Talk) : M Agent () :=
  if decide (status t = kEnd) then x ← load_session s; set_done s (num_talks_done_ x + 1)
  else
    ResetTalk_ conf s v i false;;
    t ← load_talk v i;
    when (negb (error t =? ErrorNo.kOk)) (x ← load_session s; set_done s (num_talks_done_ x + 1)).

Lemma turn_law own act s i x t a a' : conf_timeo conf -> agent_ok own a -> linked act a -> s ∈ act ->
  Store.load (sessions a) s = Some x -> 0 <= num_talks_done_ x < 2 ^ 64 - 1 -> startable (talks_ x) i a ->
  talk_at a (talks_ x) i = Some t -> turn s (talks_ x) i t a = Some ((), a') ->
  agent_ok own a' /\ linked act a' /\ moves s 1 a a' /\ same_info a a' /\ startable (talks_ x) (S i) a' /\
  exists x', Store.load (sessions a') s = Some x' /\ talks_ x' = talks_ x /\ 0 <= num_talks_done_ x' <= num_talks_done_ x + 1.
Proof.
  intros Cf Ok Lk Ha L Hn St T E. unfold turn in E. case_decide as De.
  { eapply count_law in E as (O' & L' & Mv & I' & V' & G' & x' & Lx & Tx & N'); [|done..].
    split_and!; [done..| |exists x'; split_and!; [done|done|lia..]]. eapply startable_same; [done|lia|done..]. }
  step E as [] a1 E1. pose proof (ResetTalk_rest conf true _ _ _ _ _ _ _ E1) as R1.
  pose proof (st_ready _ _ _ St i t ltac:(lia) T De) as Rd.
  eapply (ResetTalk_law conf own) in E1 as (t1 & T1 & K1 & O1 & Wa & M1 & G1); [|done..].
  destruct (rest_session _ _ _ _ _ _ _ R1 L) as (x1 & L1 & Tx1 & N1). specialize (N1 eq_refl).
  pose proof (startable_next _ _ _ _ _ St T De R1 G1) as St1.
  assert (linked act a1) as Lk1.
  { eapply (linked_finish own act s (talks_ x) i t x1 a a); [done|done|by eapply rest_weaken|done| |done|done|done].
    intros g. case_decide as Dg; [subst g; by eapply ready_unwatched|done]. }
  step E as t1' a2 E2. apply load_talk_inv in E2 as [-> T2]. rewrite T1 in T2. injection T2 as <-.
  destruct (error t1 =? ErrorNo.kOk); cbn [negb when] in E.
  { injection E as <-. split_and!; [done..|by eapply rest_info|done|]. exists x1. split_and!; [done|done|lia..]. }
  eapply count_law in E as (O' & L' & Mv & I' & V' & G' & x' & Lx & Tx & N'); [|done|done|done|lia].
  split_and!; [done|done|by change 1 with (0 + 1); eapply moves_trans|etransitivity; [by eapply rest_info|done]|by eapply startable_same|
    exists x'; split_and!; [done|congruence|lia..]].
Qed.

Lemma Reset_loop_law own act s v n : conf_timeo conf -> s ∈ act -> forall i x a a', agent_ok own a -> linked act a ->
  Store.load (sessions a) s = Some x -> talks_ x = v -> 0 <= num_talks_done_ x -> num_talks_done_ x + Z.of_nat n < 2 ^ 64 ->
  startable v i a -> Reset_loop conf n s v i a = Some ((), a') ->
  agent_ok own a' /\ linked act a' /\ moves s (Z.of_nat n) a a' /\ same_info a a' /\
  exists x', Store.load (sessions a') s = Some x' /\ 0 <= num_talks_done_ x' <= num_talks_done_ x + Z.of_nat n.
Proof.
  intros Cf Ha. induction n as [|n IH]; intros i x a a' Ok Lk L Tx P Sz St E.
  { injection E as <-. split_and!; [done..|apply moves_same|reflexivity|]. exists x. split; [done|lia]. }
  cbn [Reset_loop] in E. step E as t a0 E0. apply load_talk_inv in E0 as [-> T]. step E as [] a1 E1.
  change (turn s v i t a = Some ((), a1)) in E1. subst v.
  eapply turn_law in E1 as (O1 & L1 & M1 & I1 & S1 & x1 & Lx1 & Tx1 & N1); [|done..|lia|done|done].
  eapply IH in E as (O' & L' & M' & I' & x' & Lx' & N'); [|done|done|done|congruence|lia|lia|done].
  split_and!; [done|done| |by etransitivity|exists x'; split; [done|lia]].
  replace (Z.of_nat (S n)) with (1 + Z.of_nat n) by lia. by eapply moves_trans.
Qed.

End Events.
End SessionEvents.
