(* ===== verification/Answers.v ===== *)
(** * Answers: every session is answered exactly once

    The sessions an agent has started and not answered yet are [act].  Under
    the invariant [agent_inv act], an event of a talk, the timeout of a talk
    and the start of a session each either leave the answers sent so far as
    they are, or send one answer for one session that leaves [act]. *)

From Stdlib Require Import ZArith Lia.
From stdpp Require Import base list gmap numbers option.
From S2P Require Import Prelude Os Protocol Rapid Redis IOHelper Model ConnsMgr EventsDriver PoolObjs Protocols Fds Confs EventCtx Msg Session AgentSlave SessionLaws SessionEvents.
Import Os Buffer Model.

(** What the mailboxes of the schedulers promise: a message is taken when
    [SendMsg] returns true, and nothing else sends. *)
Class AnswerSpec (W : Type) `{NI : !NetIO W, SK : !Sock W, CK : !Clock W, EP : !Epoll W, OS : !OpenSpec W, PE : !Peers W} : Type := {
  answered : W -> list Msg.MsgSession;
  answered_inert : Inert (fun w w' => answered w' = answered w);
  answered_close fd w : answered (sys_close fd w) = answered w;
  answered_send m w : answered (scheduler_SendMsg m w).2 = answered w ++ (if (scheduler_SendMsg m w).1 then [m] else []);
  opened_send m w g : opened w g -> opened (scheduler_SendMsg m w).2 g;
}.

Module Answers.
Import TalkOps Session Inert Fds AgentSlave SessionLaws SessionEvents.
Section Answers.
Context {W Q : Type} `{NI : !NetIO W, SK : !Sock W, CK : !Clock W, EP : !Epoll W, PE : !Peers W, TQ : !TimeoutQueue Q,
  TQL : !TimeoutQueueLaws Q, RD : !Rand, MA : !Malloc, OS : !OpenSpec W, AN : !AnswerSpec W} {FU : Protocol.Fuel}.
Context (conf : Confs.ConfNormal).
Abbreviation Agent := (Session.Agent W Q).

Definition silent (w w' : W) : Prop := answered w' = answered w.
#[export] Instance silent_inert : Inert silent := answered_inert.
#[export] Instance silent_preorder : PreOrder silent := in_pre.

(** What the handlers of talks leave alone: the answers and the pool of
    sessions. *)
Definition counts (st : Store.Store Session) (s : ptr) : Prop := forall x, Store.load st s = Some x -> 0 <= num_talks_done_ x.
Record tame (a a' : Agent) : Prop := {
  ta_silent : silent (world a) (world a');
  ta_pool : pool_sessions_ a' = pool_sessions_ a;
  ta_store : Store.ok (sessions a) -> Store.ok (sessions a');
  ta_counts s : counts (sessions a) s -> counts (sessions a') s;
}.
#[export] Instance tame_preorder : PreOrder tame.
Proof.
  split; [by intros a|]. intros a b c [A1 A2 A3 A4] [B1 B2 B3 B4]. split; [|congruence|auto..]. unfold silent in *. congruence.
Qed.

Lemma tame_world {A} (m : M W A) : keeps silent m -> keeps tame (on_world m : M Agent A).
Proof. intros K a r a' (w & E%K & ->)%zoom_inv. by split. Qed.
Lemma tame_driver {A} (f : EventsDriver.EventsDriver Q -> M W (A * EventsDriver.EventsDriver Q)) :
  (forall d, keeps silent (f d)) -> keeps tame (on_driver f : M Agent A).
Proof. intros K a r a' (d & w & E%K & ->)%driver_inv. by split. Qed.
Lemma tame_conns {A} (f : ConnsMgr.ConnsMgr -> M W (A * ConnsMgr.ConnsMgr)) :
  (forall d, keeps silent (f d)) -> keeps tame (on_conns f : M Agent A).
Proof. intros K a r a' (d & w & E%K & ->)%conns_inv. by split. Qed.
Lemma tame_protos {A} (m : M Protocols.Protos A) : keeps tame (on_protos m : M Agent A).
Proof. intros a r a' (p & _ & ->)%zoom_inv. by split. Qed.
Lemma tame_get : keeps tame (GetEventCtx : M Agent ptr).
Proof. intros a r a'. unfold GetEventCtx. destruct (PoolObjs.Get _ _) as [[[[o|] p] st]|]; [|done..]. intros [= <- <-]. by split. Qed.
Lemma tame_free c : keeps tame (FreeEventCtx c : M Agent ()).
Proof. intros a r a'. unfold FreeEventCtx. destruct (PoolObjs.Free _ _ _) as [[p st]|]; [|done..]. intros [= <- <-]. by split. Qed.
Lemma tame_store_ctx c e : keeps tame (store_ctx c e : M Agent ()).
Proof. intros a r a' [= <- <-]. by split. Qed.
Lemma tame_load_ctx c : keeps tame (load_ctx c : M Agent _).
Proof. unfold load_ctx. frame. Qed.
Lemma tame_load_remote r : keeps tame (load_remote r : M Agent _).
Proof. unfold load_remote. frame. Qed.
Lemma tame_load_talk v i : keeps tame (load_talk v i : M Agent _).
Proof. unfold load_talk. frame. Qed.
Lemma tame_load_session s : keeps tame (load_session s : M Agent _).
Proof. unfold load_session. frame. Qed.
Lemma tame_num_talks v : keeps tame (num_talks v : M Agent _).
Proof. unfold num_talks. frame. Qed.
Lemma tame_store_talk v i t : keeps tame (store_talk v i t : M Agent _).
Proof. unfold store_talk. frame; apply keeps_modify; by split. Qed.
Lemma tame_set_session s x x' (a a' : Agent) : Store.load (sessions a) s = Some x -> 0 <= num_talks_done_ x' \/ num_talks_done_ x' = num_talks_done_ x ->
  store_session s x' a = Some ((), a') -> tame a a'.
Proof.
  intros L N [= <-]. split; [done|done|intros O; apply Store.ok_store; [done|by eexists]|]. intros s' Cn y. cbn [sessions set_sessions].
  destruct (decide (s = s')) as [<-|Ne]; [|rewrite Store.load_store_ne by done; apply Cn].
  rewrite Store.load_store. intros [= <-]. specialize (Cn x L). lia.
Qed.
Lemma tame_set_done s n : keeps tame (set_done s n : M Agent ()).
Proof.
  intros a [] a' E. unfold set_done in E. step E as x a1 E1. apply load_session_inv in E1 as [-> L].
  eapply tame_set_session; [done| |done]. left. cbn. apply uwrap_bound. lia.
Qed.
Lemma tame_set_failure s : keeps tame (set_failure s : M Agent ()).
Proof.
  intros a [] a' E. unfold set_failure in E. step E as x a1 E1. apply load_session_inv in E1 as [-> L].
  eapply tame_set_session; [done| |done]. by right.
Qed.
Hint Resolve tame_world tame_driver tame_conns tame_protos tame_get tame_free tame_store_ctx tame_load_ctx tame_load_remote tame_load_talk
  tame_load_session tame_num_talks tame_store_talk tame_set_done tame_set_failure : frame.
Hint Extern 1 (keeps silent _) => first [apply (inert_Msec silent) | apply (inert_RRead silent) | apply (inert_WWrite silent) |
  apply (inert_RegEvent silent) | apply (inert_RegEventDel silent)] : frame.

(** *** The steps of a talk *)

Lemma silent_close f : keeps silent (IOHelper.Close f).
Proof. apply inert_Close; [apply _|apply answered_close]. Qed.
Lemma silent_GetFd m sv fails : keeps silent (m ← ConnsMgr.GetFd m sv fails; let '(f, b, rp, m) := m in mret ((f, b, rp), m)).
Proof. frame; apply inert_GetFd; [apply _|apply answered_close]. Qed.
Hint Resolve silent_close silent_GetFd : frame.

Ltac tames := repeat first [frame_step | apply tame_world | apply tame_driver | apply tame_conns].

Lemma tame_ResetTalk s v i b : keeps tame (ResetTalk_ conf s v i b : M Agent ()).
Proof. unfold ResetTalk_, ResetTalk_fd, ResetTalk_encode, ResetTalk_event, talk_timeout, EventCtx.BuildForSession. tames. Qed.
Hint Resolve tame_ResetTalk : frame.
Lemma tame_FinishTalk s b v i : keeps tame (FinishTalk conf s b v i : M Agent bool).
Proof. unfold FinishTalk, FinishTalk_report, FinishTalk_retry, ReportStatus. tames. Qed.
Lemma tame_Reset_loop n s v : forall i, keeps tame (Reset_loop conf n s v i : M Agent ()).
Proof. induction n as [|n IH]; intros i; cbn [Reset_loop]; tames; auto. Qed.
Lemma tame_end v i err : keeps tame (end_event v i err : M Agent bool).
Proof. unfold end_event, RegEventDel, CloseFd_. tames. Qed.
Lemma tame_timeout c n : keeps tame (CheckEventCtxTimeout_ c n : M Agent bool).
Proof. unfold CheckEventCtxTimeout_. tames. Qed.
Lemma tame_mod f ev c : keeps tame (ModEvent f ev c : M Agent bool).
Proof. unfold ModEvent, RegEvent. tames. Qed.
Hint Resolve tame_FinishTalk tame_Reset_loop tame_end tame_timeout tame_mod : frame.
Lemma tame_dispatch ev v i c t : keeps tame (dispatch ev v i c t : M Agent bool).
Proof.
  unfold dispatch, HandleSessionEventConn_, HandleSessionEventRead_, HandleSessionEventWrite_, RegEventDel, CloseFd_. tames.
Qed.
Hint Resolve tame_dispatch : frame.
Lemma tame_CheckSession ev c : keeps tame (CheckSession_ conf ev c : M Agent bool).
Proof. unfold CheckSession_, session_of. tames. Qed.

(** ** Sessions that have talks left *)

(** The talks done are counted for the session [s] only. *)
Definition only (s : ptr) (a a' : Agent) : Prop :=
  forall s', s' <> s -> num_talks_done_ <$> Store.load (sessions a') s' = num_talks_done_ <$> Store.load (sessions a) s'.
#[export] Instance only_preorder s : PreOrder (only s).
Proof. split; [by intros a|]. intros a b c A1 B1 s' N. by rewrite B1, A1. Qed.

Lemma only_rest {A} s v i (m : M Agent A) : keeps (same_rest true v i) m -> keeps (only s) m.
Proof. intros K a r a' E s' _. apply K in E. by apply (sr_done _ _ _ _ _ E). Qed.
Lemma only_done s n : keeps (only s) (set_done s n : M Agent ()).
Proof.
  intros a [] a' E s' N. unfold set_done in E. step E as x a1 E1. apply load_session_inv in E1 as [-> L]. injection E as <-.
  cbn [sessions set_sessions]. by rewrite Store.load_store_ne.
Qed.
Ltac onlys := repeat first [frame_step | apply only_done |
  apply (only_rest _ 0 0%nat); first [by auto with frame | unfold load_session, num_talks; by frame] |
  apply (only_rest _ _ _ _ (store_talk_rest _ _ _ _)) | apply (only_rest _ _ _ _ (ResetTalk_rest _ _ _ _ _ _))].
Lemma only_FinishTalk s b v i : keeps (only s) (FinishTalk conf s b v i : M Agent bool).
Proof. unfold FinishTalk, FinishTalk_report, FinishTalk_retry, ReportStatus. onlys. Qed.
Lemma only_Reset_loop n s v : forall i, keeps (only s) (Reset_loop conf n s v i : M Agent ()).
Proof. induction n as [|n IH]; intros i; cbn [Reset_loop]; onlys; auto. Qed.

Definition undone (act : list Z) (a : Agent) : Prop := forall s, s ∈ act -> exists x n,
  Store.load (sessions a) s = Some x /\ length <$> talk_vectors a !! talks_ x = Some n /\ num_talks_done_ x < Z.of_nat n.

(** ** The invariant *)

(** [own] are the contexts in the hands of the running code, [pend] the ones
    whose timeout has passed, each with its descriptor, and [act] the sessions
    that owe an answer. *)
Record agent_inv (own : list Z) (pend : list (Z * Z)) (act : list Z) (a : Agent) : Prop := {
  ai_ok : agent_ok (own ++ pend.*1) a;
  ai_linked : linked act a;
  ai_act s : s ∈ act -> exists x n, session_ok pend.*1 a s x n;
  ai_store : Store.ok (sessions a);
  ai_pool : exists l, PoolObjs.valid (pool_sessions_ a) l /\ NoDup (l ++ act) /\ forall s, s ∈ l -> is_Some (Store.load (sessions a) s);
  ai_pend c g : (c, g) ∈ pend -> held a g /\ exists e, Store.load (event_ctxs a) c = Some e /\ link_to act a g (view e);
  ai_fds : NoDup pend.*2;
}.

Lemma link_to_act act act' (a : Agent) g w : link_to act a g w -> (forall s i, w.2 = EventCtx.DSession s i -> s ∈ act -> s ∈ act') -> link_to act' a g w.
Proof. intros [P L] H. split; [done|]. destruct (w.2) as [| | |s i]; try done. destruct L as (Ew & Ha & L). split_and!; eauto. Qed.

#[export] Instance agent_inv_perm own pend : Proper ((≡ₚ) ==> eq ==> iff) (agent_inv own pend).
Proof.
  assert (forall l l' a, l ≡ₚ l' -> agent_inv own pend l a -> agent_inv own pend l' a) as H.
  { intros l l' a P [A1 A2 A3 A4 (k & A6 & A7 & A8) A9 A10]. split; [done| |intros s; rewrite <- P; apply A3|done|..|done].
    - intros g w Wa. eapply link_to_act; [by apply A2|]. intros s i _. by rewrite P.
    - exists k. rewrite <- P. done.
    - intros c g Hc. destruct (A9 c g Hc) as (Hh & e & L & Lk). split; [done|]. exists e. split; [done|].
      eapply link_to_act; [done|]. intros s i _. by rewrite P. }
  intros l l' P a ? <-. split; [by apply H|by apply H].
Qed.

Lemma info_same s x x' (a a' : Agent) : same_info a a' -> Store.load (sessions a) s = Some x -> Store.load (sessions a') s = Some x' ->
  biz_ctx_ x' = biz_ctx_ x /\ biz_procedure_ x' = biz_procedure_ x /\ talks_ x' = talks_ x.
Proof. intros [_ I] L L'. specialize (I s). rewrite L, L' in I. by injection I. Qed.
Lemma info_load s x (a a' : Agent) : same_info a a' -> Store.load (sessions a) s = Some x ->
  exists x', Store.load (sessions a') s = Some x' /\ talks_ x' = talks_ x.
Proof.
  intros [_ I] L. specialize (I s). rewrite L in I. destruct (Store.load (sessions a') s) as [x'|]; [|done].
  injection I as _ _ I. eauto.
Qed.

Lemma undone_sub act act' a : (forall s, s ∈ act' -> s ∈ act) -> undone act a -> undone act' a.
Proof. intros H U s Hs. by apply U, H. Qed.
Lemma undone_only s act act' a a' : undone act a -> only s a a' -> same_info a a' -> (forall s', s' ∈ act' -> s' ∈ act /\ s' <> s) -> undone act' a'.
Proof.
  intros U On I H s' Hs. destruct (H s' Hs) as [Ha N]. destruct (U s' Ha) as (x & n & L & Ln & Lt). destruct (info_load s' x _ _ I L) as (x' & L' & Tx).
  exists x', n. split_and!; [done|by rewrite Tx, (proj1 I)|]. specialize (On s' N). rewrite L, L' in On. injection On as ->. done.
Qed.
Lemma undone_cons s x n own act a : session_ok own a s x n -> num_talks_done_ x < Z.of_nat n -> undone act a -> undone (s :: act) a.
Proof. intros [L Ln _ _ _] Lt U s'. rewrite elem_of_cons. intros [->|Hs]; [by exists x, n|by apply U]. Qed.
Lemma undone_stay s x n own act a a' : undone act a -> only s a a' -> same_info a a' -> session_ok own a' s x n ->
  num_talks_done_ x < Z.of_nat n -> undone act a'.
Proof.
  intros U On I So Lt s' Hs. destruct (decide (s' = s)) as [->|Ns].
  - eapply (undone_cons s x n own [] a'); [done|done|by intros s2 []%not_elem_of_nil|apply list_elem_of_here].
  - apply (undone_only s act [s'] a a' U On I); [|apply list_elem_of_here]. by intros s2 ->%list_elem_of_singleton.
Qed.
Lemma undone_rest act v i a a' : undone act a -> same_rest true v i a a' -> undone act a'.
Proof.
  intros U R s Hs. destruct (U s Hs) as (x & n & L & Ln & Lt). destruct (rest_session _ _ _ _ _ _ _ R L) as (x' & L' & Tx & N').
  exists x', n. split_and!; [done|by rewrite Tx, (sr_len _ _ _ _ _ R)|by rewrite N'].
Qed.
(** A session that has talks left waits. *)
Lemma undone_waits s x n a : session_ok [] a s x n -> undone [s] a <-> 0 < waits a s.
Proof.
  intros So. pose proof (session_waits_all _ _ _ _ So) as Hw. pose proof So as [L Ln _ _ _]. split.
  - intros U. destruct (U s (list_elem_of_here _ _)) as (x' & n' & L' & Ln' & Lt). rewrite L in L'. injection L' as <-. rewrite Ln in Ln'. injection Ln' as <-. lia.
  - intros P. eapply undone_cons; [done|lia|by intros s' []%not_elem_of_nil].
Qed.
Lemma CheckSession_only ev c e s i r (a a' : Agent) : Store.load (event_ctxs a) c = Some e -> EventCtx.data e = EventCtx.DSession s i ->
  CheckSession_ conf ev c a = Some (r, a') -> only s a a'.
Proof.
  intros L D E. unfold CheckSession_ in E. step E as e0 a1 E1. apply load_ctx_inv in E1 as [-> L0]. rewrite L in L0. injection L0 as <-.
  step E as [s0 i0] a1 E1. unfold session_of in E1. rewrite D in E1. injection E1 as <- <- <-.
  step E as x a1 E1. apply load_session_inv in E1 as [-> _]. step E as t a1 E1. apply load_talk_inv in E1 as [-> _].
  step E as more a1 E1. transitivity a1; [by apply (only_rest s (talks_ x) i _ (rest_dispatch true (talks_ x) i ev c t)) in E1|].
  destruct more; [by injection E as <- <-|]. step E as t1 a2 E2. apply load_talk_inv in E2 as [-> _].
  step E as [] a2 E2. transitivity a2; [by apply (only_rest s 0 0%nat _ (rest_free true 0 0%nat c)) in E2|].
  by apply only_FinishTalk in E.
Qed.

(** What a step has to keep. *)
Lemma session_step own own' s x n a a' : session_ok own a s x n -> tame a a' -> same_info a a' ->
  bal a' s = (fun k => k + count (event_ctxs a) own s - count (event_ctxs a') own' s) <$> bal a s -> exists x', session_ok own' a' s x' n.
Proof.
  intros [S1 S2 S3 S4 S5] Ta I B. destruct (info_load s x _ _ I S1) as (x' & L' & Tx).
  exists x'. split; [done|by rewrite Tx, (proj1 I)| | |done].
  - apply (ta_counts _ _ Ta s); [|done]. intros y Ly. congruence.
  - rewrite B, S4. cbn. f_equal. lia.
Qed.
Lemma pool_step l act a a' : tame a a' -> same_info a a' -> PoolObjs.valid (pool_sessions_ a) l /\ NoDup (l ++ act) /\
    (forall s, s ∈ l -> is_Some (Store.load (sessions a) s)) ->
  exists l, PoolObjs.valid (pool_sessions_ a') l /\ NoDup (l ++ act) /\ forall s, s ∈ l -> is_Some (Store.load (sessions a') s).
Proof.
  intros Ta I (A6 & A7 & A8). exists l. rewrite (ta_pool _ _ Ta). split_and!; [done|done|]. intros s Hs. destruct (A8 s Hs) as [x L].
  destruct (info_load s x _ _ I L) as (x' & L' & _). by eexists.
Qed.

Lemma checked_inv act c s i x n r a a' : agent_inv [] [] act a -> tame a a' -> checked act c s i x n r a a' -> agent_inv [] [] act a'.
Proof.
  intros [A1 A2 A3 A4 [l A5] A6 A7] Ta [_ [O' M' R' _] L' _ _]. pose proof (rest_info _ _ _ _ _ R') as I.
  split; [done|done| |by apply Ta|by eapply pool_step|intros c' g []%not_elem_of_nil|done].
  intros s' Hs. destruct (A3 s' Hs) as (x0 & n0 & So). destruct (session_step [] [] s' x0 n0 a a' So Ta I) as [x' So']; [|by exists x', n0].
  rewrite (moves_none s s' 0 a a' M' eq_refl). change (count (event_ctxs a) [] s') with 0. change (count (event_ctxs a') [] s') with 0.
  destruct (bal a s'); [|done]. cbn. f_equal. lia.
Qed.

(** ** The answer *)

Lemma SendBack_law n m (a a' : Agent) : SendBack_loop n m a = Some ((), a') ->
  exists w, a' = set_world w a /\ stay (world a) w /\ answered w = answered (world a) ++ [m].
Proof.
  revert a. induction n as [|n IH]; intros a E; [done|]. cbn [SendBack_loop] in E. step E as b a1 E1.
  apply zoom_inv in E1 as (w & E1 & ->). injection E1 as E1. pose proof (answered_send m (world a)) as An.
  pose proof (fun g => opened_send m (world a) g) as Op. rewrite E1 in An, Op. cbn [fst snd] in An, Op. destruct b.
  - injection E as <-. exists w. done.
  - apply IH in E as (w' & -> & St & An'). exists w'. split_and!; [by destruct a| |].
    + intros g Hg. by apply St, Op.
    + rewrite An'. cbn. by rewrite An, app_nil_r.
Qed.

(** A session all of whose talks have ended is named by nothing that waits. *)
Lemma none_waits own pend act s x n a : agent_inv own pend act a -> session_ok pend.*1 a s x n -> num_talks_done_ x = Z.of_nat n ->
  (forall g w i, watch a g = Some w -> w.2 <> EventCtx.DSession s i) /\
  (forall c e i, c ∈ pend.*1 -> Store.load (event_ctxs a) c = Some e -> EventCtx.data e <> EventCtx.DSession s i) /\ waits a s = 0.
Proof.
  intros Inv So Hn. pose proof (session_waits _ _ _ _ _ So) as Hw. pose proof (count_nonneg (event_ctxs a) pend.*1 s) as C1.
  pose proof (count_nonneg (event_ctxs a) (armed (events_driver_ a)) s) as C2. change (0 <= waits a s) in C2. split_and!; [..|lia].
  - intros g w i Wa D. unfold watch in Wa. destruct (ctx_at (events_driver_ a) g) as [c|] eqn:C; [|done].
    cbn in Wa. destruct (Store.load (event_ctxs a) c) as [e|] eqn:L; [|done]. injection Wa as <-.
    pose proof (waits_pos _ c g e s i a (ai_ok _ _ _ _ Inv) C L D). lia.
  - intros c e i Hc L D. apply elem_of_Permutation in Hc as [l P]. rewrite P in C1, Hw. change (c :: l) with ([c] ++ l) in Hw.
    rewrite count_app, (count_ctx s i c _ e), decide_True in Hw by done. pose proof (count_nonneg (event_ctxs a) l s). lia.
Qed.

(** A session that has ended may be dropped. *)
Lemma agent_inv_drop own pend act s x n a : agent_inv own pend (s :: act) a -> session_ok pend.*1 a s x n ->
  num_talks_done_ x = Z.of_nat n -> agent_inv own pend act a.
Proof.
  intros Inv So Hn. destruct (none_waits _ _ _ _ _ _ _ Inv So Hn) as (Nw & Np & _).
  destruct Inv as [A1 A2 A3 A4 (l & A6 & A7 & A8) A9 A10]. split; [done| |..|done| | |done].
  - intros g w Wa. eapply link_to_act; [by apply A2|]. intros s' i Dw Hs. apply elem_of_cons in Hs as [->|Hs]; [by destruct (Nw g w i Wa)|done].
  - intros s' Hs. apply A3. by apply list_elem_of_further.
  - exists l. split_and!; [done| |done]. rewrite <- Permutation_middle in A7. by apply list.NoDup_cons in A7 as [_ A7].
  - intros c g Hc. destruct (A9 c g Hc) as (Hh & e & L & Lk). split; [done|]. exists e. split; [done|].
    eapply link_to_act; [done|]. intros s' i De Hs. apply elem_of_cons in Hs as [->|Hs]; [|done].
    exfalso. eapply (Np c e i); [by apply (list_elem_of_fmap_2 fst pend (c, g))|done|done].
Qed.
Lemma agent_inv_world own pend act w a : agent_inv own pend act a -> stay (world a) w -> agent_inv own pend act (set_world w a).
Proof.
  intros [[B1 B2 B3 B4] A2 A3 A4 A5 A6 A7] St. split; [split; [done| |done|done]; by eapply fds_ok_stay|done| |done|done| |done].
  - intros s Hs. destruct (A3 s Hs) as (x & n & [S1 S2 S3 S4 S5]). by exists x, n.
  - intros c g Hc. destruct (A6 c g Hc) as ((H1 & H2 & H3) & Rest). split; [|exact Rest]. split_and!; [by apply St|done|done].
Qed.

Lemma others_of own pend act act' s a : agent_inv own pend act a -> act ≡ₚ s :: act' -> forall s', s' ∈ act' -> s' ∈ act /\ s' <> s.
Proof.
  intros Inv P. destruct (ai_pool _ _ _ _ Inv) as (l & _ & N & _). rewrite P in N. apply list.NoDup_app in N as (_ & _ & N).
  apply list.NoDup_cons in N as [N _]. intros s' Hs. rewrite P, elem_of_cons. split; [auto|by intros ->].
Qed.

(** The answer is sent and the session goes back to the pool. *)
Lemma finish_session_law own pend act s x n err a a' : agent_inv own pend (s :: act) a -> session_ok pend.*1 a s x n ->
  num_talks_done_ x = Z.of_nat n -> finish_session s err a = Some ((), a') -> agent_inv own pend act a' /\ waits a' s = 0 /\
  same_info a a' /\ (forall l, undone l a -> undone l a') /\
  answered (world a') = answered (world a) ++ [Msg.BuildForSession (biz_ctx_ x) (biz_procedure_ x) (talks_ x) 0 (err x)].
Proof.
  intros Inv So Hn E. pose proof (so_load _ _ _ _ _ So) as L. destruct (none_waits _ _ _ _ _ _ _ Inv So Hn) as (_ & _ & Hw).
  unfold finish_session in E. step E as x0 a1 E1. apply load_session_inv in E1 as [-> L0]. rewrite L in L0. injection L0 as <-.
  step E as [] a1 E1. apply SendBack_law in E1 as (w & -> & St & An). unfold FreeSession in E.
  pose proof (ai_pool _ _ _ _ Inv) as (l & A6 & A7 & A8).
  apply (agent_inv_drop own pend act s x n) in Inv; [|done..]. apply (agent_inv_world own pend act w) in Inv; [|done].
  destruct (PoolObjs.Free_valid (pool_sessions_ a) l s (sessions a) A6) as (p' & l' & Ef & V' & _ & Cs).
  cbn [pool_sessions_ set_world set_driver sessions] in E. rewrite Ef in E. injection E as <-. split_and!; [|exact Hw|done|done|exact An].
  destruct Inv as [[C1 C2 C3 C4] B2 B3 B4 _ B6 B7]. split; [by split|done| |done| |done|done].
  - intros s' Hs. destruct (B3 s' Hs) as (y & k & [S1 S2 S3 S4 S5]). by exists y, k.
  - exists l'. split; [done|]. cbn [sessions set_sessions]. rewrite <- Permutation_middle in A7.
    destruct Cs as [-> | ->]; [|apply list.NoDup_cons in A7 as [_ A7]; done].
    split; [rewrite <- app_assoc; cbn; by rewrite <- Permutation_middle|]. intros s'. rewrite elem_of_app, list_elem_of_singleton.
    intros [Hs| ->]; [auto|by eexists].
Qed.

(** ** The start *)

(** A session of the pool: nobody uses it. *)
Lemma GetSession_law act p st s a : agent_inv [] [] act a ->
  PoolObjs.Get (pool_sessions_ a) (sessions a) = Some ((Some s, p), st) ->
  s ∉ act /\ Store.ok st /\ is_Some (Store.load st s) /\
  (forall s' x, Store.load (sessions a) s' = Some x -> Store.load st s' = Some x) /\
  exists l, PoolObjs.valid p l /\ NoDup (l ++ s :: act) /\ forall s', s' ∈ l -> is_Some (Store.load st s').
Proof.
  intros [_ _ A3 A4 (l & A6 & A7 & A8) _ _] E.
  destruct (PoolObjs.Get_spec _ l (sessions a) A6 A4) as (o & l' & p' & st' & E' & V' & C' & _ & K & Cs).
  rewrite E in E'. injection E' as <- <- <-.
  assert (NoDup (l' ++ s :: act) /\ forall s', s' ∈ l' ++ [s] -> is_Some (Store.load st s')) as [N Ld].
  { destruct Cs as [[-> ->]|(-> & Nd & Nw)]; [rewrite <- app_assoc in A7; by split|].
    split; [|intros s' [_ H]%Nw; by eexists]. change (s :: act) with ([s] ++ act). rewrite app_assoc. apply list.NoDup_app.
    split_and!; [done| |done]. intros s' Hs' Ha. apply Nw in Hs' as [Hs' _]. destruct (A3 s' Ha) as (x & n & So).
    destruct (proj2 A4 s') as [_ Lt]; [eexists; apply So|]. lia. }
  split_and!; [|done|apply Ld; rewrite elem_of_app; right; apply list_elem_of_here|exact K|].
  - apply list.NoDup_app in N as (_ & _ & N). by apply list.NoDup_cons in N as [N _].
  - exists l'. split_and!; [done..|]. intros s' Hs. apply Ld. rewrite elem_of_app. by left.
Qed.

(** The sessions in [act] keep their data. *)
Lemma linked_sessions act act' (a a' : Agent) : linked act a -> (forall s, s ∈ act -> s ∈ act') -> talk_vectors a' = talk_vectors a ->
  (forall g, watch a' g = watch a g) ->
  (forall s x, s ∈ act -> Store.load (sessions a) s = Some x -> Store.load (sessions a') s = Some x) -> linked act' a'.
Proof.
  intros Lk Ha V Wt H g w Wa. rewrite Wt in Wa. destruct (Lk g w Wa) as [P L]. split; [done|]. destruct (w.2) as [| | |s i]; try done.
  destruct L as (Ew & Hs & x & t & Lx & T & Rest). split_and!; [done|auto|]. exists x, t. unfold talk_at in *. rewrite V. split_and!; [auto|done|apply Rest..].
Qed.

(** [Reset] with the session [s] nobody waits for: afterwards all of its talks
    wait or have ended. *)
Lemma Reset_law own act s x0 bc bp v l r a a' : conf_timeo conf -> agent_ok own a -> linked act a -> s ∉ act -> waits a s = 0 ->
  Store.load (sessions a) s = Some x0 -> talk_vectors a !! v = Some l -> Z.of_nat (length l) < 2 ^ 64 -> startable v 0 a ->
  Reset conf s bc bp v a = Some (r, a') ->
  agent_ok own a' /\ linked (s :: act) a' /\ (forall s', s' <> s -> bal a' s' = bal a s') /\
  (exists a1, same_info a1 a' /\ tame a1 a' /\ only s a1 a' /\ store_session s (mkSession bc bp v 0 false) a = Some ((), a1)) /\
  exists x', session_ok [] a' s x' (length l) /\ r = negb (num_talks_done_ x' =? Z.of_nat (length l)).
Proof.
  intros Cf Ok Lk Ha Hw L0 Hv Sz St E. unfold Reset in E. step E as y a1 E1. apply load_session_inv in E1 as [-> _].
  step E as [] a1 E1. pose proof E1 as Es. injection E1 as <-. set (a1 := set_sessions _ _ a) in *.
  step E as n a2 E2. apply num_talks_inv in E2 as [-> Hn]. change (talk_vectors a1) with (talk_vectors a) in Hn. rewrite Hv in Hn. injection Hn as <-.
  step E as [] a2 E2. pose proof (keeps_run _ _ _ _ _ E2 (tame_Reset_loop _ _ _ _)) as Ta.
  pose proof (keeps_run _ _ _ _ _ E2 (only_Reset_loop _ _ _ _)) as On.
  assert (Store.load (sessions a1) s = Some (mkSession bc bp v 0 false)) as L1 by apply Store.load_store.
  assert (agent_ok own a1) as O1 by (destruct Ok as [B1 B2 B3 B4]; by split).
  assert (linked (s :: act) a1) as Lk1.
  { apply (linked_sessions act (s :: act) a); [done|by intros s' ?; apply list_elem_of_further|done|done|]. intros s' x Hs Lx.
    cbn [sessions set_sessions a1]. rewrite Store.load_store_ne; [done|by intros ->]. }
  eapply (Reset_loop_law conf own (s :: act)) in E2 as (O2 & L2 & M2 & I2 & x' & Lx' & N2); [|done|apply list_elem_of_here|done|done|exact L1|done..|].
  2: { eapply startable_same; [done|lia|done|done]. }
  step E as x'' a3 E3. apply load_session_inv in E3 as [-> H3]. rewrite Lx' in H3. injection H3 as <-. injection E as <- <-.
  cbn [num_talks_done_] in N2. split_and!; [done|done| |by exists a1|].
  - intros s' Ns. rewrite M2. unfold bal. cbn [sessions a1 set_sessions]. rewrite Store.load_store_ne by done.
    destruct (Store.load (sessions a) s'); [|done]. cbn. by rewrite decide_False.
  - exists x'. split; [|done]. destruct (info_same s _ _ _ _ I2 L1 Lx') as (_ & _ & Tx). cbn in Tx.
    split; [done|rewrite Tx, (proj1 I2); change (talk_vectors a1) with (talk_vectors a); by rewrite Hv|lia| |done]. rewrite M2. unfold bal. rewrite L1. cbn. rewrite decide_True by done.
    f_equal. change (waits a1 s) with (waits a s). change (count _ [] s) with 0. lia.
Qed.

(** Waiting for events changes nothing but the list of ready ones. *)
Lemma Wait_inv act timeo r a a' : agent_inv [] [] act a -> on_driver (fun d => EventsDriver.Wait d timeo) a = Some (r, a') ->
  agent_inv [] [] act a' /\ answered (world a') = answered (world a).
Proof.
  intros Inv (d & w & E & ->)%driver_inv. pose proof (keeps_run silent _ _ _ _ E (inert_Wait silent _ _)) as An.
  pose proof (keeps_run stay _ _ _ _ E (inert_Wait stay _ _)) as St. split; [|exact An]. apply (agent_inv_world [] [] act w) in Inv; [|done].
  unfold EventsDriver.Wait in E. step E as [ok d1] w1 E1.
  rewrite (EventsDriver.raii_ready _ _ (EventsDriver.do_init _ (ao_drv _ _ (ai_ok _ _ _ _ Inv)))) in E1. injection E1 as <- <- <-.
  cbn [negb] in E. step E as t w2 E2. step E as [k evs] w3 E3. step E as [] w4 E4. injection E as <- <- <-.
  destruct Inv as [[[D1 D2 D3 D4] [F1 F2 F3 F4 F5] B3 B4] A2 A3 A4 A5 A6 A7].
  split; [split; [by split|by split|done|done]|done| |done|done|by intros c g []%not_elem_of_nil|done].
  intros s Hs. destruct (A3 s Hs) as (x & n & [S1 S2 S3 S4 S5]). by exists x, n.
Qed.

(** [CheckReadyEvent] on a descriptor that waits. *)
Lemma CheckReadyEvent_ctx d k evs f c : EventsDriver.events_ready_ d !! k = Some (evs, f) -> ctx_at d f = Some c ->
  EventsDriver.CheckReadyEvent (Q := Q) d k = Some (EventsDriver.event_of evs, Some c).
Proof.
  intros H C. apply ctx_at_Some in C as (sl & S & N & Cs). unfold EventsDriver.CheckReadyEvent. rewrite H. cbn. rewrite S. cbn. by rewrite Cs.
Qed.

(** What an event of a talk does: the session still waits, or it is answered
    and leaves the active ones. *)
Definition event_outcome (act : list Z) (s : ptr) (x : Session) (a a' : Agent) : Prop :=
  agent_inv [] [] act a' /\ (undone act a -> undone act a') /\ 0 < waits a' s /\ answered (world a') = answered (world a) \/
  exists act' err, act ≡ₚ s :: act' /\ agent_inv [] [] act' a' /\ (undone act a -> undone act' a') /\ waits a' s = 0 /\
    (err = ErrorNo.kOk \/ err = ErrorNo.kPartial) /\ answered (world a') = answered (world a) ++ [Msg.BuildForSession (biz_ctx_ x) (biz_procedure_ x) (talks_ x) 0 err].

Lemma event_law act k evs f c e s i a a' : conf_timeo conf -> agent_inv [] [] act a ->
  EventsDriver.events_ready_ (events_driver_ a) !! k = Some (evs, f) -> ctx_at (events_driver_ a) f = Some c ->
  Store.load (event_ctxs a) c = Some e -> EventCtx.category e = EventCtx.kSession -> EventCtx.data e = EventCtx.DSession s i ->
  CheckEvent conf k a = Some ((), a') -> same_info a a' /\ exists x, Store.load (sessions a) s = Some x /\ event_outcome act s x a a'.
Proof.
  intros Cf Inv Rd C Lc Cat D E. pose proof Inv as [Ok Lk Ac _ _ _ _].
  assert (watch a f = Some (view e)) as Wf by (unfold watch; rewrite C; cbn; by rewrite Lc).
  destruct (Lk f _ Wf) as [_ Wl]. cbn [view snd] in Wl. rewrite D in Wl. destruct Wl as (_ & Ha & x & t & Lx & _). destruct (Ac s Ha) as (x0 & n & So). pose proof (so_load _ _ _ _ _ So) as Lx0.
  rewrite Lx in Lx0. injection Lx0 as <-. unfold CheckEvent in E.
  step E as a0 a1 E1. injection E1 as <- <-. step E as [ev c0] a1 E1. apply deref_inv in E1 as [Re ->].
  cbn [id] in Re. rewrite (CheckReadyEvent_ctx _ k evs f c Rd C) in Re. injection Re as <- <-.
  step E as c0 a1 E1. apply deref_inv in E1 as [[= <-] ->]. step E as e0 a1 E1. apply load_ctx_inv in E1 as [-> L0].
  rewrite Lc in L0. injection L0 as <-. rewrite Cat in E. step E as r a1 E1.
  pose proof (keeps_run _ _ _ _ _ E1 (tame_CheckSession _ _)) as Ta. pose proof (CheckSession_only _ _ _ _ _ _ _ _ Lc D E1) as On.
  eapply (CheckSession_law conf act) in E1 as Ck; [|done..]. pose proof (checked_inv _ _ _ _ _ _ _ _ _ Inv Ta Ck) as Inv1.
  destruct Ck as [(x1 & So1 & Tx1 & ->) Tk _ (e1 & i1 & L1 & D1) _]. pose proof (session_waits_all _ _ _ _ So1) as Hw.
  pose proof (rest_info _ _ _ _ _ (tk_rest _ _ _ _ _ _ _ Tk)) as In1.
  destruct (Z.eqb_spec (num_talks_done_ x1) (Z.of_nat n)) as [Hn|Hn].
  - step E as e1' a2 E2. apply load_ctx_inv in E2 as [-> L2]. rewrite L1 in L2. injection L2 as <-.
    step E as [s0 i0] a2 E2. unfold session_of in E2. rewrite D1 in E2. injection E2 as <- <- <-.
    apply elem_of_Permutation in Ha as [act' P]. rewrite P in Inv1.
    destruct (info_same s x x1 a a1 In1 Lx (so_load _ _ _ _ _ So1)) as (I1 & I2 & I3).
    eapply (finish_session_law [] []) in E as (Inv' & Hw' & In2 & U2 & An); [|done..]. split; [by etransitivity|]. exists x. split; [done|]. right.
    exists act'. eexists. split_and!; [done..| |done| |].
    { intros U. apply U2. eapply undone_only; [exact U|done..|]. by eapply others_of. }
    2: { rewrite An, (ta_silent _ _ Ta), I1, I2, I3. done. }
    destruct (negb (has_failure_ x1)); auto.
  - injection E as <-. split; [done|]. exists x. split; [done|].
    pose proof (count_nonneg (event_ctxs a1) (armed (events_driver_ a1)) s) as Cn. change (0 <= waits a1 s) in Cn.
    left. split_and!; [done| |lia|apply Ta]. intros U. eapply undone_stay; [exact U|done..|lia].
Qed.

(** C8: an event of a talk whose session waits keeps the invariant of the
    agent.  Either the session still waits for talks and nothing is sent, or
    nothing waits for it any more and exactly one answer is sent, to the
    business procedure that started it and with its talks. *)
Theorem event_answers act k evs f c e s i a a' : conf_timeo conf -> agent_inv [] [] act a ->
  EventsDriver.events_ready_ (events_driver_ a) !! k = Some (evs, f) -> ctx_at (events_driver_ a) f = Some c ->
  Store.load (event_ctxs a) c = Some e -> EventCtx.category e = EventCtx.kSession -> EventCtx.data e = EventCtx.DSession s i ->
  CheckEvent conf k a = Some ((), a') -> exists x, Store.load (sessions a) s = Some x /\
  (agent_inv [] [] act a' /\ 0 < waits a' s /\ answered (world a') = answered (world a) \/
   exists act' err, act ≡ₚ s :: act' /\ agent_inv [] [] act' a' /\ waits a' s = 0 /\ (err = ErrorNo.kOk \/ err = ErrorNo.kPartial) /\
     answered (world a') = answered (world a) ++ [Msg.BuildForSession (biz_ctx_ x) (biz_procedure_ x) (talks_ x) 0 err]).
Proof using All.
  intros Cf Inv Rd C Lc Cat D E. eapply event_law in E as (_ & x & L & Out); [|done..]. exists x. split; [done|].
  destruct Out as [(I & _ & W1 & An)|(act' & err & P & I & _ & Rest)]; [by left|right]. by exists act', err.
Qed.

(** No context names a session that is not active. *)
Lemma waits_0 own act s a : agent_ok own a -> linked act a -> s ∉ act -> waits a s = 0.
Proof.
  intros [A1 _ _ (l & _ & _ & S)] Lk Ns. unfold waits, count. destruct (List.filter (is_for (event_ctxs a) s) (armed (events_driver_ a))) as [|c cs] eqn:F; [done|].
  assert (In c (List.filter (is_for (event_ctxs a) s) (armed (events_driver_ a)))) as Hc by (rewrite F; by left).
  apply filter_In in Hc as [Hc Hf]. apply list_elem_of_In in Hc. apply ctx_at_armed in Hc as [g C]; [|done]. exfalso. apply Ns.
  unfold is_for in Hf. destruct (Store.load (event_ctxs a) c) as [e|] eqn:L; [|done]. destruct (EventCtx.data e) as [| | |s' i] eqn:D; try done.
  apply Z.eqb_eq in Hf as ->.
  destruct (Lk g (view e)) as [_ Lw]; [unfold watch; rewrite C; cbn; by rewrite L|]. cbn in Lw. rewrite D in Lw. apply Lw.
Qed.

Lemma started_inv act s x p st l' n y a a1 a2 : agent_inv [] [] act a -> s ∉ act -> Store.ok st ->
  (forall s' x, Store.load (sessions a) s' = Some x -> Store.load st s' = Some x) ->
  PoolObjs.valid p l' -> NoDup (l' ++ s :: act) -> (forall s', s' ∈ l' -> is_Some (Store.load st s')) -> Store.load st s = Some y ->
  store_session s x (set_sessions st p a) = Some ((), a1) -> same_info a1 a2 -> tame a1 a2 ->
  agent_ok [] a2 -> linked (s :: act) a2 -> (forall s', s' <> s -> bal a2 s' = bal (set_sessions st p a) s') ->
  (exists x', session_ok [] a2 s x' n) -> agent_inv [] [] (s :: act) a2.
Proof.
  intros [_ _ Ac _ _ _ _] Ns Os K V N Ld Ls Es I Ta Ok Lk B [x' So]. injection Es as <-.
  assert (forall s' z, s' <> s -> Store.load st s' = Some z -> exists z', Store.load (sessions a2) s' = Some z' /\ talks_ z' = talks_ z) as Inf.
  { intros s' z Nz L. eapply info_load; [exact I|]. cbn [sessions set_sessions]. by rewrite Store.load_store_ne. }
  split; [done|done|..|intros c g []%not_elem_of_nil|constructor].
  - intros s'. rewrite elem_of_cons. intros [->|Hs]; [eauto|]. assert (s' <> s) as Nz by by intros ->.
    destruct (Ac s' Hs) as (z & n' & [S1 S2 S3 S4 S5]). destruct (Inf s' z Nz (K _ _ S1)) as (z' & L' & Tz). exists z', n'.
    split; [done|by rewrite Tz, (proj1 I)| | |done].
    + apply (ta_counts _ _ Ta s'); [|done]. intros u. cbn [sessions set_sessions]. rewrite Store.load_store_ne by done. rewrite (K _ _ S1). by intros [= <-].
    + rewrite B by done. unfold bal in *. cbn [sessions set_sessions]. rewrite (K _ _ S1). by rewrite S1 in S4.
  - apply Ta. cbn [sessions set_sessions]. apply Store.ok_store; [done|by eexists].
  - exists l'. rewrite (ta_pool _ _ Ta). split_and!; [done|done|]. intros s' Hs. destruct (Ld s' Hs) as [z L].
    destruct (Inf s' z) as (z' & L' & _); [|done|by eexists]. intros ->. apply list.NoDup_app in N as (_ & N & _).
    apply (N s Hs). apply list_elem_of_here.
Qed.

(** Whom a session answers. *)
Definition ident (a : Agent) (s : ptr) : option (ptr * ptr * ptr) :=
  (fun x => (biz_ctx_ x, biz_procedure_ x, talks_ x)) <$> Store.load (sessions a) s.

(** What the start of a session does to the others. *)
Record opened_session (act : list Z) (s : ptr) (m : Msg.MsgSession) (a a' : Agent) : Prop := {
  os_new : s ∉ act;
  os_ident : ident a' s = Some (Msg.ms_biz_ctx m, Msg.ms_biz_procedure m, Msg.ms_talks m);
  os_others s' : s' ∈ act -> ident a' s' = ident a s';
  os_undone : undone act a -> undone act a';
}.

Lemma started_info act s m p st y (a a1 a2 : Agent) : (forall s, s ∈ act -> is_Some (Store.load (sessions a) s)) -> s ∉ act ->
  (forall s' x, Store.load (sessions a) s' = Some x -> Store.load st s' = Some x) -> Store.load st s = Some y ->
  store_session s (mkSession (Msg.ms_biz_ctx m) (Msg.ms_biz_procedure m) (Msg.ms_talks m) 0 false) (set_sessions st p a) = Some ((), a1) ->
  same_info a1 a2 -> only s a1 a2 -> opened_session act s m a a2.
Proof.
  intros Ld Ns K Ls [= <-] I On. split; [done|..].
  - unfold ident. rewrite (proj2 I s). cbn [sessions set_sessions]. by rewrite Store.load_store.
  - intros s' Hs. assert (s' <> s) as N by by intros ->. destruct (Ld s' Hs) as [x L]. unfold ident. rewrite (proj2 I s').
    cbn [sessions set_sessions]. by rewrite Store.load_store_ne, L, (K _ _ L).
  - intros U s' Hs. assert (s' <> s) as N by by intros ->. destruct (U s' Hs) as (x & n & L & Ln & Lt). specialize (On s' N).
    cbn [sessions set_sessions] in On. rewrite Store.load_store_ne, (K _ _ L) in On by done.
    pose proof (proj2 I s') as Is. cbn [sessions set_sessions] in Is. rewrite Store.load_store_ne, (K _ _ L) in Is by done.
    destruct (Store.load (sessions a2) s') as [x'|]; [|done]. injection Is as _ _ Tx. injection On as Dx.
    exists x', n. split_and!; [done|by rewrite Tx, (proj1 I)|by rewrite Dx].
Qed.

Lemma start_law act m l a a' : conf_timeo conf -> agent_inv [] [] act a -> talk_vectors a !! Msg.ms_talks m = Some l ->
  Z.of_nat (length l) < 2 ^ 64 -> startable (Msg.ms_talks m) 0 a -> HandleMsgSession conf m a = Some ((), a') ->
  exists s, opened_session act s m a a' /\
  (agent_inv [] [] (s :: act) a' /\ 0 < waits a' s /\ answered (world a') = answered (world a) \/
   agent_inv [] [] act a' /\ waits a' s = 0 /\ answered (world a') = answered (world a) ++
     [Msg.mkMsgSession (Msg.ms_biz_ctx m) (Msg.ms_biz_procedure m) (Msg.ms_talks m) (Msg.ms_timeo_ms m) ErrorNo.kBroken]).
Proof.
  intros Cf Inv Hv Sz St E. unfold HandleMsgSession in E. step E as s a1 E1.
  destruct (PoolObjs.Get (pool_sessions_ a) (sessions a)) as [[[[s0|] p] st]|] eqn:G; try done. injection E1 as -> <-.
  destruct (GetSession_law _ _ _ _ _ Inv G) as (Ns & Os & [x0 L0] & K & l' & V' & N' & Ld').
  pose proof Inv as [[B1 B2 B3 B4] Lk Ac _ _ _ _]. exists s.
  assert (agent_ok [] (set_sessions st p a)) as O1 by by split.
  assert (linked act (set_sessions st p a)) as Lk1 by (apply (linked_sessions act act a); eauto).
  step E as r a2 E2. eapply (Reset_law [] act) in E2 as (O2 & L2 & B2' & (a3 & I2 & Ta & On & E3) & x' & So & Hr);
    [|done|done|done|done|exact (waits_0 _ _ _ _ O1 Lk1 Ns)|exact L0|exact Hv|done|]; [|by eapply startable_same].
  assert (agent_inv [] [] (s :: act) a2) as Inv2 by (eapply started_inv; eauto).
  assert (opened_session act s m a a2) as Op.
  { eapply started_info; [|done..]. intros s' Hs. destruct (Ac s' Hs) as (y & k & [Ly _ _ _ _]). by eexists. }
  assert (answered (world a2) = answered (world a)) as An by (rewrite (ta_silent _ _ Ta); by injection E3 as <-).
  pose proof (session_waits_all _ _ _ _ So) as Hw. pose proof (count_nonneg (event_ctxs a2) (armed (events_driver_ a2)) s) as Cn.
  change (0 <= waits a2 s) in Cn. subst r. destruct (Z.eqb_spec (num_talks_done_ x') (Z.of_nat (length l))) as [Hn|Hn]; cbn [negb] in E.
  - apply SendBack_law in E as (w & -> & St' & An'). split; [by destruct Op|]. right. split_and!; [|change (waits a2 s = 0); lia|by rewrite <- An].
    apply agent_inv_world; [|done]. by eapply agent_inv_drop.
  - injection E as <-. split; [done|]. left. split_and!; [done|lia|done].
Qed.

(** ** A talk without a descriptor and without an error *)

Lemma load_session_run s x (a : Agent) : Store.load (sessions a) s = Some x -> load_session s a = Some (x, a).
Proof. intros L. unfold load_session, mbind, M_bind, gets, deref. cbn -[Store.load]. by rewrite L. Qed.
Lemma num_talks_run v l (a : Agent) : talk_vectors a !! v = Some l -> num_talks v a = Some (length l, a).
Proof. intros L. unfold num_talks, mbind, M_bind, gets, deref. cbn. by rewrite L. Qed.

(** One talk that is to be started, with a negative descriptor and no error. *)
Definition dead (v : ptr) (a : Agent) : Prop := exists t, talk_vectors a !! v = Some [t] /\ status t <> kEnd /\ fd t < 0 /\ error t = ErrorNo.kOk.

Lemma dead_unstartable v a : dead v a -> ~ startable v 0 a.
Proof.
  intros (t & Hv & St & Hf & He) [S1 _]. destruct (S1 0%nat t) as [_ Er _]; [lia|unfold talk_at; by rewrite Hv|done|].
  apply Er in He. lia.
Qed.

(** [Assign] makes such a talk only of a negative descriptor, as [WriteBack]
    passes one for a client that is gone.  Any other talk has ended, or carries
    an error exactly when its descriptor is negative. *)
Lemma Assign_kinds no cat sv pc b timeo f r (p p' : Protocols.Protos * W) t : Assign no cat sv pc b timeo f r p = Some (t, p') ->
  no_talk t = no /\ (status t = kEnd \/ going t /\ fd t = f /\ error t = ErrorNo.kOk \/ fd t = -1 /\ error t = ErrorNo.kEncode).
Proof.
  intros E. unfold Assign in E. step E as now p1 E1. destruct b as [b|]; [|injection E as <- _; auto]. unfold going. destruct cat.
  - step E as [pw ok] p2 E2. destruct ok; injection E as <- _; cbn; auto 10.
  - step E as pr p2 E2. injection E as <- _. cbn. auto 10.
  - step E as [pw ok] p2 E2. destruct ok; cbn [negb] in E; [step E as pr p3 E3|]; injection E as <- _; cbn; auto 10.
Qed.

(** [Reset] finds nothing to wait for and no error to count: it reports that
    the session goes on. *)
Lemma Reset_dead s v t x bc bp (a : Agent) : talk_vectors a !! v = Some [t] -> status t <> kEnd -> fd t < 0 -> error t = ErrorNo.kOk ->
  Store.load (sessions a) s = Some x -> Reset conf s bc bp v a =
    Some (true, set_sessions (Store.store s (mkSession bc bp v 0 true) (Store.store s (mkSession bc bp v 0 false) (sessions a))) (pool_sessions_ a) a).
Proof.
  intros Hv St Hf He L. set (x1 := mkSession bc bp v 0 false). set (a1 := set_sessions (Store.store s x1 (sessions a)) (pool_sessions_ a) a).
  assert (Store.load (sessions a1) s = Some x1) as L1 by apply Store.load_store.
  assert (talk_at a1 v 0 = Some t) as T by (unfold talk_at; cbn; by rewrite Hv).
  set (a2 := set_sessions (Store.store s (mkSession bc bp v 0 true) (sessions a1)) (pool_sessions_ a1) a1).
  assert (talk_at a2 v 0 = Some t) as T2 by done.
  assert (set_failure s a1 = Some ((), a2)) as F by (unfold set_failure; by rewrite (bind_run _ _ _ _ _ (load_session_run s x1 a1 L1))).
  assert (ResetTalk_ conf s v 0 false a1 = Some ((), a2)) as R.
  { unfold ResetTalk_. rewrite (bind_run _ _ _ false a2); [done|]. unfold ResetTalk_fd. rewrite (bind_run _ _ _ _ _ (load_talk_run v 0 t a1 T)).
    destruct (Z.eqb_spec (fd t) 0) as [|_]; [lia|]. destruct (Z.ltb_spec (fd t) 0) as [_|]; [|lia]. by rewrite (bind_run _ _ _ _ _ F). }
  unfold Reset. rewrite (bind_run _ _ _ _ _ (load_session_run s x a L)), (bind_run _ _ _ () a1) by done.
  rewrite (bind_run _ _ _ _ _ (num_talks_run v [t] a1 Hv)). cbn [length Reset_loop]. rewrite (bind_run _ _ _ () a2).
  { erewrite bind_run by (apply load_session_run; apply Store.load_store). done. }
  rewrite (bind_run _ _ _ _ _ (load_talk_run v 0 t a1 T)), decide_False by done. rewrite (bind_run _ _ _ () a2); [done|].
  rewrite (bind_run _ _ _ _ _ R), (bind_run _ _ _ _ _ (load_talk_run v 0 t a2 T2)), He. done.
Qed.

(** The session gets an object and that is all: no descriptor waits for it and
    nothing is sent.  The object never goes back to the pool. *)
Lemma dead_law act m a a' : agent_inv [] [] act a -> dead (Msg.ms_talks m) a -> HandleMsgSession conf m a = Some ((), a') ->
  exists s, opened_session act s m a a' /\ agent_inv [] [] act a' /\ waits a' s = 0 /\ answered (world a') = answered (world a).
Proof.
  intros Inv (t & Hv & St & Hf & He) E. unfold HandleMsgSession in E. step E as s a1 E1.
  destruct (PoolObjs.Get (pool_sessions_ a) (sessions a)) as [[[[s0|] p] st]|] eqn:G; try done. injection E1 as -> <-.
  destruct (GetSession_law _ _ _ _ _ Inv G) as (Ns & Os & [x0 L0] & K & l' & V' & N' & Ld'). pose proof Inv as [[B1 B2 B3 B4] Lk Ac _ _ _ _].
  rewrite (bind_run _ _ _ _ _ (Reset_dead s _ t x0 _ _ (set_sessions st p a) Hv St Hf He L0)) in E. injection E as <-.
  set (x1 := mkSession _ _ _ 0 true). set (x2 := mkSession _ _ _ 0 false).
  assert (forall s' x, s' <> s -> Store.load (sessions a) s' = Some x -> Store.load (Store.store s x1 (Store.store s x2 st)) s' = Some x) as Ke
    by (intros s' x Hn Hx; rewrite !Store.load_store_ne by done; auto).
  assert (forall s', s' ∈ act -> s' <> s) as Na by by intros s' Hs ->.
  exists s. split_and!; [split|split|..|done]; cbn [sessions pool_sessions_ set_sessions].
  - done.
  - unfold ident. cbn [sessions set_sessions]. by rewrite Store.load_store.
  - intros s' Hs. destruct (Ac s' Hs) as (x & n & [L _ _ _ _]). unfold ident. cbn [sessions set_sessions]. by rewrite (Ke s' x), L by auto.
  - intros U s' Hs. destruct (U s' Hs) as (x & n & L & Rest). exists x, n. cbn [sessions set_sessions]. split; [by apply Ke; auto|exact Rest].
  - by split.
  - apply (linked_sessions act act a); [done|auto|done|done|]. intros s' x Hs Lx. by apply Ke; auto.
  - intros s' Hs. destruct (Ac s' Hs) as (x & n & [S1 S2 S3 S4 S5]). exists x, n. split; [by apply Ke; auto|done|done| |done].
    unfold bal in *. cbn [sessions set_sessions]. rewrite (Ke s' x) by auto. by rewrite S1 in S4.
  - apply Store.ok_store; [apply Store.ok_store; [done|by eexists]|]. eexists. apply Store.load_store.
  - exists l'. rewrite <- Permutation_middle in N'. apply list.NoDup_cons in N' as [Nl N']. split_and!; [done|done|]. intros s' Hs.
    rewrite !Store.load_store_ne by (intros ->; apply Nl; rewrite elem_of_app; by left). by apply Ld'.
  - by intros c g []%not_elem_of_nil.
  - constructor.
  - exact (waits_0 _ _ _ _ (ai_ok _ _ _ _ Inv) Lk Ns).
Qed.

(** An agent that has just been set up. *)
Lemma fresh_inv (a : Agent) : EventsDriver.drv_ok (events_driver_ a) -> (forall f, ~ live_fd (events_driver_ a) f) ->
  ConnsMgr.pools (conns_mgr_ a) = ∅ -> ConnsMgr.tmp_remotes_ (conns_mgr_ a) = [] ->
  event_ctxs a = Store.nothing -> PoolObjs.valid (pool_event_ctxs_ a) [] ->
  sessions a = Store.nothing -> PoolObjs.valid (pool_sessions_ a) [] -> agent_inv [] [] [] a.
Proof.
  intros D Nl Cp Ct Ec Ep Se Sp. assert (idle (conns_mgr_ a) = []) as Id by (unfold idle; by rewrite Cp, map_to_list_empty).
  assert (armed (events_driver_ a) = []) as Ar.
  { destruct (armed (events_driver_ a)) as [|c l] eqn:E; [done|]. exfalso.
    assert (c ∈ armed (events_driver_ a)) as Hc by (rewrite E; apply list_elem_of_here).
    apply elem_of_armed in Hc as (f & sl & S & N & _); [|done]. apply (Nl f). by exists sl. }
  split; [split; [done|split| |]|..].
  - intros f Hf. by apply Nl in Hf.
  - intros f. rewrite Id. by intros []%not_elem_of_nil.
  - rewrite Id. constructor.
  - intros q. rewrite Cp, lookup_empty. by intros [? ?].
  - by rewrite Ct.
  - rewrite Ec. apply Store.ok_nothing.
  - exists []. rewrite Ar. split_and!; [done|constructor|by intros c []%not_elem_of_nil].
  - intros g w. unfold watch. by rewrite (ctx_at_dead _ _ (Nl g)).
  - by intros s []%not_elem_of_nil.
  - rewrite Se. apply Store.ok_nothing.
  - exists []. split_and!; [done|constructor|by intros s []%not_elem_of_nil].
  - by intros c g []%not_elem_of_nil.
  - constructor.
Qed.


(** ** Talks that have ended before they start *)

Lemma Reset_loop_ended s v l x : forall n i a, talk_vectors a !! v = Some l -> Forall (fun t => status t = kEnd) l -> (i + n = length l)%nat ->
  Store.load (sessions a) s = Some x -> 0 <= num_talks_done_ x -> num_talks_done_ x + Z.of_nat n < 2 ^ 64 ->
  Reset_loop conf n s v i a = Some ((), set_sessions (if decide (n = 0%nat) then sessions a else
    Store.store s (mkSession (biz_ctx_ x) (biz_procedure_ x) (talks_ x) (num_talks_done_ x + Z.of_nat n) (has_failure_ x)) (sessions a))
    (pool_sessions_ a) a).
Proof.
  intros n. revert x. induction n as [|n IH]; intros x i a Hv F Hi L P Sz; [by destruct a|]. cbn [Reset_loop].
  destruct (lookup_lt_is_Some_2 l i ltac:(lia)) as [t Ht].
  assert (talk_at a v i = Some t) as T by (unfold talk_at; by rewrite Hv).
  rewrite (bind_run _ _ _ _ _ (load_talk_run v i t a T)). rewrite decide_True by exact (list.Forall_lookup_1 _ _ _ _ F Ht).
  set (x1 := mkSession (biz_ctx_ x) (biz_procedure_ x) (talks_ x) (num_talks_done_ x + 1) (has_failure_ x)).
  set (a1 := set_sessions (Store.store s x1 (sessions a)) (pool_sessions_ a) a).
  assert ((x ← load_session s; set_done s (num_talks_done_ x + 1)) a = Some ((), a1)) as E.
  { rewrite (bind_run _ _ _ _ _ (load_session_run s x a L)). unfold set_done. rewrite (bind_run _ _ _ _ _ (load_session_run s x a L)).
    rewrite uwrap_small by (unfold in_uint; lia). done. }
  rewrite (bind_run _ _ _ _ _ E). assert (Store.load (sessions a1) s = Some x1) as L1 by apply Store.load_store.
  rewrite (IH x1 (S i) a1); [|done|done|lia|done|cbn; lia|cbn; lia]. do 2 f_equal. unfold set_sessions, a1. f_equal.
  rewrite (decide_False (P := S n = 0%nat)) by done. case_decide as Dn.
  - subst n. done.
  - cbn. unfold Store.store. cbn. rewrite insert_insert_eq. do 3 f_equal. lia.
Qed.

(** [Reset] on talks that have all ended starts nothing. *)
Lemma Reset_ended s v l x bc bp a : talk_vectors a !! v = Some l -> Forall (fun t => status t = kEnd) l -> Z.of_nat (length l) < 2 ^ 64 ->
  Store.load (sessions a) s = Some x -> exists st, Reset conf s bc bp v a = Some (false, set_sessions st (pool_sessions_ a) a).
Proof.
  intros Hv F Sz L. set (x1 := mkSession bc bp v 0 false). set (a1 := set_sessions (Store.store s x1 (sessions a)) (pool_sessions_ a) a).
  assert (Store.load (sessions a1) s = Some x1) as L1 by apply Store.load_store.
  pose proof (Reset_loop_ended s v l x1 (length l) 0 a1 Hv F eq_refl L1 (Z.le_refl 0) Sz) as E. unfold Reset.
  rewrite (bind_run _ _ _ _ _ (load_session_run s x a L)), (bind_run _ _ _ () a1) by done.
  rewrite (bind_run _ _ _ _ _ (num_talks_run v l a1 Hv)), (bind_run _ _ _ _ _ E).
  destruct l as [|t l]; cbn [length].
  - rewrite decide_True by done. erewrite bind_run by (apply load_session_run; exact L1). by eexists.
  - rewrite decide_False by done. erewrite bind_run by (apply load_session_run; apply Store.load_store). cbn [num_talks_done_ x1].
    rewrite Z.add_0_l, Z.eqb_refl. by eexists.
Qed.

(** The first mailbox that is tried takes the answer. *)
Lemma SendBack_run n m (a : Agent) : (scheduler_SendMsg m (world a)).1 = true ->
  SendBack_loop (S n) m a = Some ((), set_world (scheduler_SendMsg m (world a)).2 a).
Proof.
  intros Sd. cbn [SendBack_loop]. unfold on_world, zoom, call, mbind, M_bind. destruct (scheduler_SendMsg m (world a)) as [b w].
  cbn in *. by subst b.
Qed.

(** A session all of whose talks have ended is answered at once. *)
Lemma ended_broken act m l a : (Protocol.fuel <> 0)%nat -> agent_inv [] [] act a ->
  talk_vectors a !! Msg.ms_talks m = Some l -> Z.of_nat (length l) < 2 ^ 64 -> Forall (fun t => status t = kEnd) l ->
  let back := Msg.mkMsgSession (Msg.ms_biz_ctx m) (Msg.ms_biz_procedure m) (Msg.ms_talks m) (Msg.ms_timeo_ms m) ErrorNo.kBroken in
  (scheduler_SendMsg back (world a)).1 = true ->
  exists a', HandleMsgSession conf m a = Some ((), a') /\ answered (world a') = answered (world a) ++ [back] /\
    events_driver_ a' = events_driver_ a /\ conns_mgr_ a' = conns_mgr_ a /\ talk_vectors a' = talk_vectors a /\ event_ctxs a' = event_ctxs a.
Proof.
  intros Fu Inv Hv Sz Fe back Sd. destruct (ai_pool _ _ _ _ Inv) as (k & V & _). unfold HandleMsgSession.
  destruct (PoolObjs.Get_spec _ k (sessions a) V (ai_store _ _ _ _ Inv)) as (s & l' & p & st & G & _).
  destruct (GetSession_law _ _ _ _ _ Inv G) as (_ & _ & [x0 L0] & _).
  rewrite (bind_run _ _ _ s (set_sessions st p a)) by (by rewrite G).
  destruct (Reset_ended s (Msg.ms_talks m) l x0 (Msg.ms_biz_ctx m) (Msg.ms_biz_procedure m) (set_sessions st p a) Hv Fe Sz L0) as [st' E].
  rewrite (bind_run _ _ _ _ _ E). unfold SendBackMsg_. destruct Protocol.fuel as [|n]; [done|]. fold back.
  eexists. rewrite SendBack_run by exact Sd. split; [reflexivity|]. split; [|done]. cbn [world set_world set_driver set_sessions].
  by rewrite answered_send, Sd.
Qed.
Lemma ended_startable v l (a : Agent) : talk_vectors a !! v = Some l -> Forall (fun t => status t = kEnd) l -> startable v 0 a.
Proof.
  intros Hv F. assert (forall j t, talk_at a v j = Some t -> status t = kEnd) as H.
  { intros j t. unfold talk_at. rewrite Hv. intros Hj. exact (list.Forall_lookup_1 _ _ _ _ F Hj). }
  split; [intros j t _ T%H; by intros|intros j k t u _ T%H; by intros].
Qed.

(** C11: a session whose talks were assigned without a buffer, as [Read] of the
    blocking interface assigns all of its talks, is never started.  The agent
    touches no descriptor, no talk and no connection, and answers at once with
    the error [kBroken]. *)
Theorem no_buffer_broken act m l a : (Protocol.fuel <> 0)%nat -> agent_inv [] [] act a ->
  talk_vectors a !! Msg.ms_talks m = Some l -> Z.of_nat (length l) < 2 ^ 64 ->
  Forall (fun t => exists no cat sv pc timeo f r (s s' : Protocols.Protos * W), Assign no cat sv pc None timeo f r s = Some (t, s')) l ->
  let back := Msg.mkMsgSession (Msg.ms_biz_ctx m) (Msg.ms_biz_procedure m) (Msg.ms_talks m) (Msg.ms_timeo_ms m) ErrorNo.kBroken in
  (scheduler_SendMsg back (world a)).1 = true ->
  exists a', HandleMsgSession conf m a = Some ((), a') /\ answered (world a') = answered (world a) ++ [back] /\
    events_driver_ a' = events_driver_ a /\ conns_mgr_ a' = conns_mgr_ a /\ talk_vectors a' = talk_vectors a /\ event_ctxs a' = event_ctxs a.
Proof using All.
  intros Fu Inv Hv Sz F. apply (ended_broken act m l); [done..|].
  eapply list.Forall_impl; [exact F|]. intros t (no & cat & sv & pc & timeo & f & r & s & s' & E). unfold Assign in E. step E as now s1 E1. by injection E as <- _.
Qed.
End Answers.
End Answers.
