(* ===== verification/Timeouts.v ===== *)
(** * Timeouts: talks and clients that waited too long

    [CleanTimeouts_] takes the contexts whose timeout has passed from the
    driver and ends their talks, or closes their clients.  Under the invariant
    of Answers.v every session that has nothing left to wait for is answered
    exactly once. *)

From Stdlib Require Import ZArith Lia.
From stdpp Require Import base list gmap numbers option.
From S2P Require Import Prelude Os Protocol Rapid Redis IOHelper Model ConnsMgr EventsDriver PoolObjs Protocols Fds Confs EventCtx Msg Session AgentSlave SessionLaws SessionEvents Answers.
Import Os Buffer Model.

Module Timeouts.
Import TalkOps Session Inert Fds AgentSlave SessionLaws SessionEvents Answers.
Section Timeouts.
Context {W Q : Type} `{NI : !NetIO W, SK : !Sock W, CK : !Clock W, EP : !Epoll W, PE : !Peers W, TQ : !TimeoutQueue Q,
  TQL : !TimeoutQueueLaws Q, RD : !Rand, MA : !Malloc, OS : !OpenSpec W, AN : !AnswerSpec W} {FU : Protocol.Fuel}.
Context (conf : Confs.ConfNormal).
Abbreviation Agent := (Session.Agent W Q).

(** ** Taking contexts from the driver *)

(** A context whose timeout has passed becomes pending. *)
Lemma expire_law pend act f sl c b a a' : agent_inv [] pend act a -> EventsDriver.slot (events_driver_ a) f = Some sl ->
  EventsDriver.sign_timeo sl <> 0%nat -> EventsDriver.context sl = Some c -> RegEventDel f a = Some (b, a') ->
  agent_inv [] (pend ++ [(c, f)]) act a'.
Proof.
  intros [A1 A2 A3 A4 A5 A6 A7] Hs Hn Hc E. cbn [app] in A1. pose proof A1 as [B1 [B2a B2b _ _ _] _ (lp & _ & _ & Ld)].
  assert (live_fd (events_driver_ a) f) as Lf by by exists sl.
  assert (ctx_at (events_driver_ a) f = Some c) as Cf by (apply ctx_at_Some; eauto).
  destruct (Ld c) as [e He]; [rewrite !elem_of_app; right; right; apply ctx_at_armed; eauto|].
  assert (watch a f = Some (view e)) as Wf by (unfold watch; rewrite Cf; cbn; by rewrite He).
  eapply (del_any c f) in E as (d & w & -> & Ok & Ar & Wa & Lv & St); [|done..].
  assert (forall g, held a g -> held (set_driver d w a) g) as Hg.
  { intros g (H1 & H2 & H3). split_and!; [by apply St|by intros [? _]%Lv|done]. }
  split; [|..|done|done| |]; rewrite ?fmap_app; cbn [fmap list_fmap fst snd app].
  - eapply agent_ok_perm; [|exact Ok]. by rewrite <- Permutation_cons_append.
  - intros g v Wg. rewrite (Wa g) in Wg. case_decide; [done|]. by apply A2.
  - intros s Hs'. destruct (A3 s Hs') as (x & n & [S1 S2 S3 S4 S5]). exists x, n. split; [done..| |done].
    unfold bal in *. cbn [sessions set_driver] in *. rewrite S1 in S4 |- *. cbn in *. injection S4 as S4. f_equal.
    unfold waits in *. cbn [event_ctxs set_driver events_driver_]. rewrite Ar in S4. change (c :: armed d) with ([c] ++ armed d) in S4.
    rewrite count_app in S4 |- *. lia.
  - intros c' g. rewrite elem_of_app, list_elem_of_singleton. intros [Hc'|[= -> ->]].
    + destruct (A6 c' g Hc') as (Hh & Rest). split; [by apply Hg|exact Rest].
    + split; [|exists e; split; [done|by apply A2]]. split_and!; [by apply St, B2a|by intros [_ ?]%Lv|].
      intros Hi. by destruct (B2b f Hi).
  - apply list.NoDup_app. split_and!; [done| |apply NoDup_singleton]. intros g Hg' ->%list_elem_of_singleton.
    apply list_elem_of_fmap in Hg' as ([c' g'] & -> & Hin). destruct (A6 c' g' Hin) as ((_ & Nl & _) & _). done.
Qed.

(** A slot that waits without a context; the program never makes one. *)
Lemma expire_none pend act f sl b a a' : agent_inv [] pend act a -> EventsDriver.slot (events_driver_ a) f = Some sl ->
  EventsDriver.sign_timeo sl <> 0%nat -> EventsDriver.context sl = None -> RegEventDel f a = Some (b, a') -> agent_inv [] pend act a'.
Proof.
  intros [[B1 B2 B3 (l & V & N & S)] A2 A3 A4 A5 A6 A7] Hs Hn Hc E. apply (driver_inv (fun d => _)) in E as (d & w & E & ->).
  destruct (armed_del _ f sl _ b d w B1 Hs E) as (Ok' & Ar & Lv & Cx & St). rewrite decide_False, Hc in Ar by done. cbn in Ar.
  assert (forall g, held a g -> held (set_driver d w a) g) as Hg.
  { intros g (H1 & H2 & H3). split_and!; [by apply St|by intros [? _]%Lv|done]. }
  split; [split; [done| |done|]|..|done|done| |done].
  - eapply fds_driver; [done..|]. intros f' [? _]%Lv. by left.
  - exists l. cbn [events_driver_ set_driver event_ctxs]. rewrite <- Ar. split_and!; [done..|]. intros x. rewrite <- Ar. apply S.
  - intros g v Wg. rewrite (rewatch_driver f None d w a Cx g) in Wg. case_decide; [done|]. by apply A2.
  - intros s Hs'. destruct (A3 s Hs') as (x & n & [S1 S2 S3 S4 S5]). exists x, n. split; [done..| |done].
    change (event_ctxs (set_driver d w a)) with (event_ctxs a). rewrite <- S4. apply bal_ext; [done|]. unfold waits. cbn [event_ctxs set_driver events_driver_]. by rewrite Ar.
  - intros c' g Hc'. destruct (A6 c' g Hc') as (Hh & Rest). split; [by apply Hg|exact Rest].
Qed.

Lemma timeouts_loop_law act n : forall pend d w cs d' w' a, agent_inv [] pend act (set_driver d w a) ->
  EventsDriver.RemoveTimeouts_loop n d pend.*1 w = Some ((cs, d'), w') ->
  exists pend', cs = pend'.*1 /\ agent_inv [] pend' act (set_driver d' w' a).
Proof.
  induction n as [|n IH]; intros pend d w cs d' w' a Inv E; [done|]. cbn [EventsDriver.RemoveTimeouts_loop] in E.
  pose proof (ao_drv _ _ (ai_ok _ _ _ _ Inv)) as Dv. cbn [events_driver_ set_driver] in Dv.
  pose proof (q_top_law _ (EventsDriver.do_q _ Dv)) as Tp. destruct (q_top (EventsDriver.heap_timeo_ d)) as [e|].
  2: { injection E as <- <- <-. eauto. }
  step E as now w1 E1. pose proof (keeps_run stay _ _ _ _ E1 (inert_Msec stay _)) as St.
  apply (agent_inv_world [] pend act w1) in Inv; [|exact St]. change (set_world w1 (set_driver d w a)) with (set_driver d w1 a) in Inv.
  destruct (now <=? expire_time_ms e); [injection E as <- <- <-; eauto|].
  destruct Tp as [[h Hh] _]. destruct (pending_live d h e Dv Hh) as (sl & S & Sg & Nz).
  step E as sl' w2 E2. apply deref_inv in E2 as [S' ->]. rewrite S in S'. injection S' as <-.
  step E as [b d2] w2 E2. assert (RegEventDel (t_fd e) (set_driver d w1 a) = Some (b, set_driver d2 w2 (set_driver d w1 a))) as E3.
  { unfold RegEventDel, on_driver. cbn [events_driver_ set_driver world]. by rewrite E2. }
  destruct (EventsDriver.context sl) as [c|] eqn:Cs.
  - eapply expire_law in E3; [|done|exact S|congruence|exact Cs]. eapply (IH (pend ++ [(c, t_fd e)])); [exact E3|].
    rewrite fmap_app. exact E.
  - eapply expire_none in E3; [|done|exact S|congruence|exact Cs]. by eapply IH.
Qed.

Lemma RemoveTimeouts_law act cs a a' : agent_inv [] [] act a -> on_driver (fun d => EventsDriver.RemoveTimeouts d) a = Some (cs, a') ->
  exists pend, cs = pend.*1 /\ agent_inv [] pend act a' /\ sessions a' = sessions a /\ answered (world a') = answered (world a) /\
    talk_vectors a' = talk_vectors a.
Proof.
  intros Inv (d & w & E & ->)%driver_inv. pose proof (keeps_run silent _ _ _ _ E (inert_RemoveTimeouts silent _)) as An.
  unfold EventsDriver.RemoveTimeouts in E. step E as [ok d1] w1 E1.
  rewrite (EventsDriver.raii_ready _ _ (EventsDriver.do_init _ (ao_drv _ _ (ai_ok _ _ _ _ Inv)))) in E1. injection E1 as <- <- <-.
  cbn [negb] in E. eapply (timeouts_loop_law act _ [] _ _ _ _ _ a) in E as (pend & -> & Inv'); [|by destruct a].
  exists pend. by split_and!.
Qed.

(** ** Ending a talk *)

Lemma count_cons st c cs s : count st (c :: cs) s = count st [c] s + count st cs s.
Proof. apply (count_app st [c] cs). Qed.

(** The talk of a pending context has been counted or waits again. *)
Lemma clean_talk_inv pend act c g s i e x t a a' : agent_inv [] ((c, g) :: pend) act a ->
  Store.load (event_ctxs a) c = Some e -> EventCtx.data e = EventCtx.DSession s i -> s ∈ act -> Store.load (sessions a) s = Some x ->
  talk_at a (talks_ x) i = Some t -> fd t = g -> held a g -> tame a a' -> talked (c :: pend.*1) s 1 (talks_ x) i a a' ->
  rewatched (c :: pend.*1) s (talks_ x) i a a' -> (forall g', held a g' -> 0 < g' -> g' <> g -> held a' g') ->
  agent_inv [c] pend act a'.
Proof.
  intros [A1 A2 A3 A4 [lp A5] A6 A7] Le De Ha Lx T F (_ & Nl & _) Ta [O' Mv R' _] Wa G. cbn [app fmap list_fmap fst snd] in *.
  apply list.NoDup_cons in A7 as [Ng A7]. pose proof (rest_info _ _ _ _ _ R') as I.
  destruct (info_load s x _ _ I Lx) as (x' & L' & Tx). destruct Wa as [[Wn Wo] Ww].
  split; [exact O'| | |by apply Ta|by eapply pool_step| |done].
  - eapply (linked_finish (c :: pend.*1) act s (talks_ x) i t x' a a); [done..| |by split|done|done].
    intros h. case_decide as Dh; [|done]. subst h. unfold watch. by rewrite F, (ctx_at_dead _ _ Nl).
  - intros s' Hs. destruct (A3 s' Hs) as (y & n & So). destruct (session_step (c :: pend.*1) pend.*1 s' y n a a' So Ta I) as [y' So']; [|eauto].
    rewrite (Mv s'), count_cons, (count_ctx s i c _ e) by done. destruct (bal a s') as [k|]; [|done]. cbn. f_equal.
    rewrite (count_ext (event_ctxs a') (event_ctxs a) pend.*1 s'); [case_decide; lia|]. intros q Hq. apply Wo. by apply list_elem_of_further.
  - intros c' g' Hc. destruct (A6 c' g') as (Hh & e' & Le' & Lk'); [by apply list_elem_of_further|].
    assert (g' <> g) as Ne by (intros ->; apply Ng; by apply (list_elem_of_fmap_2 snd pend (c', g))).
    split; [apply G; [done|apply Lk'|done]|]. exists e'. split.
    + rewrite Wo; [done|]. apply list_elem_of_further. by apply (list_elem_of_fmap_2 fst pend (c', g')).
    + eapply link_to_rest; [done|exact R'|exact T|congruence].
Qed.

(** The talk of a pending context ends, or is tried again. *)
Lemma clean_talk_law pend act c g s i e x t r a a1 a2 a3 : conf_timeo conf -> agent_inv [] ((c, g) :: pend) act a ->
  Store.load (event_ctxs a) c = Some e -> view e = sess g s i -> s ∈ act -> Store.load (sessions a) s = Some x ->
  talk_at a (talks_ x) i = Some t -> fd t = g -> 0 < g -> talk_ok i t -> held a g ->
  CloseFd_ (fd t) a = Some ((), a1) -> store_talk (talks_ x) i (set_fd t (-1)) a1 = Some ((), a2) ->
  FinishTalk conf s false (talks_ x) i a2 = Some (r, a3) ->
  agent_inv [c] pend act a3 /\ same_info a a3 /\ names s c a3 /\ answered (world a3) = answered (world a) /\
  exists x' n, session_ok pend.*1 a3 s x' n /\ r = (num_talks_done_ x' =? Z.of_nat n).
Proof.
  intros Cf Inv Le Ve Ha Lx T F Pg K Hh E1 E2 E3. pose proof (view_data _ _ _ _ Ve) as De.
  assert (tame a a3) as Ta.
  { transitivity a1; [eapply keeps_run; [exact E1|apply tame_world, silent_close]|].
    transitivity a2; [eapply keeps_run; [exact E2|apply tame_store_talk]|eapply keeps_run; [exact E3|apply tame_FinishTalk]]. }
  rewrite F in E1. apply (close_law g (c :: pend.*1)) in E1 as (O1 & [w ->] & H1); [|apply Inv|done].
  eapply (store_talk_law (c :: pend.*1) _ _ t) in E2 as ([tv ->] & T2 & R2 & O2); [|exact T].
  destruct (ai_act _ _ _ _ Inv s Ha) as (x0 & n & So). pose proof (session_waits _ _ _ _ _ So) as Hw. pose proof So as [L0 Ln Ps _ Sz].
  cbn [fmap list_fmap fst] in *. rewrite Lx in L0. injection L0 as <-.
  rewrite count_cons, (count_ctx s i c _ e), decide_True in Hw by done. pose proof (count_nonneg (event_ctxs a) pend.*1 s) as Cp.
  pose proof (count_nonneg (event_ctxs a) (armed (events_driver_ a)) s) as Ca. change (0 <= waits a s) in Ca.
  assert (same_rest false (talks_ x) i a (set_talks tv (set_world w a))) as Ra by (destruct (R2 false); by split).
  destruct (talk_vectors (set_talks tv (set_world w a)) !! talks_ x) as [l|] eqn:Hl.
  2: { pose proof (sr_len _ _ _ _ _ Ra (talks_ x)) as Hx. by rewrite Hl, Ln in Hx. }
  assert (length l = n) as Hn by (pose proof (sr_len _ _ _ _ _ Ra (talks_ x)) as Hx; rewrite Hl, Ln in Hx; by injection Hx).
  eapply (FinishTalk_law conf (c :: pend.*1) s false (talks_ x) i _ x l) in E3 as ([O3 M3 R3 T3] & Wa & (x' & L' & N' & ->) & G3);
    [|done|by apply O2|exact T2|done|cbn; lia|exact Lx|lia|exact Hl].
  assert (talked (c :: pend.*1) s 1 (talks_ x) i a a3) as Tk by (split; [done|exact M3|by etransitivity|done]).
  assert (rewatched (c :: pend.*1) s (talks_ x) i a a3) as Wb by (eapply rewatched_pre; [|exact Wa]; done).
  assert (agent_inv [c] pend act a3) as Inv'.
  { eapply clean_talk_inv; try done. intros g' Hg' P' N0. apply G3; [by apply H1|lia|cbn; lia]. }
  split_and!; [done|by eapply rest_info, tk_rest|apply Wb; by exists e, i|apply Ta|].
  destruct (ai_act _ _ _ _ Inv' s Ha) as (x2 & n2 & So2). exists x2, n2. split; [done|]. pose proof So2 as [L2 Ln2 _ _ _].
  rewrite L' in L2. injection L2 as <-. destruct (info_same s x x' a a3 (rest_info _ _ _ _ _ (tk_rest _ _ _ _ _ _ _ Tk)) Lx L') as (_ & _ & Tx).
  rewrite Tx, (sr_len _ _ _ _ _ (tk_rest _ _ _ _ _ _ _ Tk)), Ln in Ln2. injection Ln2 as <-. by rewrite Hn.
Qed.

(** ** Closing a client *)

(** Steps that leave the sessions and the talks alone. *)
Lemma agent_inv_calm own own' pend act a a' : agent_inv own pend act a -> agent_ok (own' ++ pend.*1) a' ->
  sessions a' = sessions a -> pool_sessions_ a' = pool_sessions_ a -> talk_vectors a' = talk_vectors a ->
  (forall g, watch a' g = watch a g) -> (forall s, bal a' s = bal a s) ->
  (forall c, c ∈ pend.*1 -> Store.load (event_ctxs a') c = Store.load (event_ctxs a) c) ->
  (forall g, g ∈ pend.*2 -> held a g -> held a' g) -> agent_inv own' pend act a'.
Proof.
  intros [A1 A2 A3 A4 A5 A6 A7] Ok S P V Wt B L H.
  assert (forall g w, link_to act a g w -> link_to act a' g w) as Lk.
  { intros g w [Pg Lw]. split; [done|]. destruct (w.2) as [| | |s i]; try done. unfold talk_at in *. by rewrite S, V. }
  split; [done| | |by rewrite S|by rewrite P, S| |done].
  - intros g w Wa. rewrite Wt in Wa. by apply Lk, A2.
  - intros s Hs. destruct (A3 s Hs) as (x & n & [S1 S2 S3 S4 S5]). exists x, n. split; [by rewrite S|by rewrite V|done| |done].
    rewrite B, S4. by rewrite (count_ext (event_ctxs a') (event_ctxs a)).
  - intros c g Hc. destruct (A6 c g Hc) as (Hh & e & Le & Lw). split; [apply H; [by apply (list_elem_of_fmap_2 snd pend (c, g))|done]|].
    exists e. split; [|by apply Lk]. rewrite L; [done|]. by apply (list_elem_of_fmap_2 fst pend (c, g)).
Qed.

(** A pending context of a client is in hand. *)
Lemma agent_inv_take pend act c g e a : agent_inv [] ((c, g) :: pend) act a -> Store.load (event_ctxs a) c = Some e ->
  (forall s i, EventCtx.data e <> EventCtx.DSession s i) -> agent_inv [c] pend act a /\ held a g /\ g ∉ pend.*2.
Proof.
  intros [A1 A2 A3 A4 A5 A6 A7] Le Nd. cbn [app fmap list_fmap fst snd] in *. apply list.NoDup_cons in A7 as [Ng A7].
  destruct (A6 c g (list_elem_of_here _ _)) as (Hh & _). split; [|done]. split; [done..| |done|done| |done].
  - intros s Hs. destruct (A3 s Hs) as (x & n & [S1 S2 S3 S4 S5]). exists x, n. split; [done..| |done]. rewrite S4, count_cons, count_one.
    unfold is_for. rewrite Le. destruct (EventCtx.data e) as [| | |s' i] eqn:D; try (f_equal; lia). by destruct (Nd s' i).
  - intros c' g' Hc. apply A6. by apply list_elem_of_further.
Qed.

Lemma FreeEventCtx_inv c pend act a a' : agent_inv [c] pend act a -> FreeEventCtx c a = Some ((), a') -> agent_inv [] pend act a'.
Proof.
  intros Inv E. apply (FreeEventCtx_law pend.*1) in E as [[p ->] O']; [|apply Inv]. by eapply agent_inv_calm.
Qed.

Lemma clean_client_law pend act c g e a a' : agent_inv [] ((c, g) :: pend) act a -> Store.load (event_ctxs a) c = Some e ->
  view e = (EventCtx.kReadReq, g, EventCtx.data e) -> (forall s i, EventCtx.data e <> EventCtx.DSession s i) ->
  CleanTimeout_client c e a = Some ((), a') ->
  agent_inv [c] pend act a' /\ sessions a' = sessions a /\ talk_vectors a' = talk_vectors a /\ answered (world a') = answered (world a).
Proof.
  intros Inv Le Ve Nd E. unfold CleanTimeout_client in E. injection Ve as Cat F. destruct (agent_inv_take _ _ _ _ _ _ Inv Le Nd) as (Inv1 & Hh & Ng).
  step E as [] a1 E1. unfold CloseFdClient_ in E1. step E1 as [] a0 E0. injection E0 as <-. set (a0 := set_clients _ a) in *.
  assert (agent_ok (c :: pend.*1) a0) as O0 by (destruct Inv1 as [[B1 B2 B3 B4] _ _ _ _ _ _]; by split).
  rewrite F in E1. unfold CloseFd_ in E1. pose proof (keeps_run _ _ _ _ _ E1 (tame_world _ (silent_close g))) as Ta1.
  apply (close_law g (c :: pend.*1)) in E1 as (O1 & [w ->] & H1); [|done..].
  assert (agent_inv [c] pend act (set_world w a0)) as Inv2.
  { eapply agent_inv_calm; try done. intros g' Hg' Hh'. apply H1; [done|]. by intros ->. }
  step E as [] a2 E2. pose proof E2 as Q2. apply (store_ctx_law (c :: pend.*1)) in Q2 as (O2 & [Q1 Q2 Q3 Q4 Q5 Q6] & _ & S2); [|done|apply list_elem_of_here].
  injection E2 as <-. assert (c ∉ pend.*1) as Nc by by eapply own_fresh.
  match type of E with _ ?b = _ => assert (agent_inv [c] pend act b) as Inv3 end.
  { eapply agent_inv_calm; try done. intros c' Hc'. apply Store.load_store_ne. by intros ->. }
  destruct (EventCtx.data e) as [| |id st pr|]; try done. destruct pr as [pr|].
  - apply (protos_inv _ (c :: pend.*1)) in E as (p & -> & O3). split_and!; [|done|done|exact (ta_silent _ _ Ta1)].
    eapply agent_inv_calm; try done. by apply O3.
  - injection E as <-. split_and!; [done|done|done|exact (ta_silent _ _ Ta1)].
Qed.

(** ** The sweep *)

(** The answer to a session as it was in [a0]. *)
Definition answer_of (a0 : Agent) (s : ptr) (m : Msg.MsgSession) : Prop :=
  exists x, Store.load (sessions a0) s = Some x /\
    m = Msg.BuildForSession (biz_ctx_ x) (biz_procedure_ x) (talks_ x) 0 ErrorNo.kPartial.

Lemma answer_info a0 a s m : same_info a0 a -> answer_of a s m -> answer_of a0 s m.
Proof.
  intros [_ I] (x & L & ->). specialize (I s). rewrite L in I. destruct (Store.load (sessions a0) s) as [y|] eqn:Ly; [|done].
  injection I as I1 I2 I3. exists y. split; [done|]. congruence.
Qed.

(** From [a] to [a'] the sessions [gone] were answered. *)
Definition swept (pend : list (Z * Z)) (act : list Z) (a a' : Agent) : Prop :=
  exists gone act' ms, act ≡ₚ gone ++ act' /\ agent_inv [] pend act' a' /\ same_info a a' /\ (undone act a -> undone act' a') /\
    answered (world a') = answered (world a) ++ ms /\ Forall2 (answer_of a) gone ms.

Lemma clean_session_law pend act c g s i e a a' : conf_timeo conf -> agent_inv [] ((c, g) :: pend) act a ->
  Store.load (event_ctxs a) c = Some e -> EventCtx.data e = EventCtx.DSession s i -> link_to act a g (view e) -> held a g ->
  CleanTimeout_session conf c e a = Some ((), a') -> exists gone act' ms, act ≡ₚ gone ++ act' /\ agent_inv [c] pend act' a' /\
    same_info a a' /\ (undone act a -> undone act' a') /\ answered (world a') = answered (world a) ++ ms /\ Forall2 (answer_of a) gone ms.
Proof.
  intros Cf Inv Le De [Pg Lw] Hh E. cbn [view snd] in Lw. rewrite De in Lw. destruct Lw as (Vw & Ha & x & t & Lx & T & F & K & _).
  unfold CleanTimeout_session in E. step E as [s0 i0] a0 E0. unfold session_of in E0. rewrite De in E0. injection E0 as <- <- <-.
  step E as x0 a0 E0. apply load_session_inv in E0 as [-> L0]. rewrite Lx in L0. injection L0 as <-.
  step E as t0 a0 E0. apply load_talk_inv in E0 as [-> T0]. rewrite T in T0. injection T0 as <-.
  step E as [] a1 E1. step E as [] a2 E2. step E as r a3 E3.
  assert (only s a a3) as On.
  { transitivity a1; [by apply (only_rest s 0 0%nat _ (rest_closefd true 0 0%nat (fd t))) in E1|].
    transitivity a2; [by apply (only_rest s _ _ _ (store_talk_rest true (talks_ x) i _)) in E2|by apply only_FinishTalk in E3]. }
  destruct (clean_talk_law pend act c g s i e x t r a a1 a2 a3) as (Inv3 & I3 & (e3 & i3 & Le3 & De3) & An3 & x' & n & So & ->); [done..|].
  destruct (Z.eqb_spec (num_talks_done_ x') (Z.of_nat n)) as [Hn|Hn].
  - step E as e3' a4 E4. apply load_ctx_inv in E4 as [-> L4]. rewrite Le3 in L4. injection L4 as <-.
    step E as [s4 i4] a4 E4. unfold session_of in E4. rewrite De3 in E4. injection E4 as <- <- <-.
    apply elem_of_Permutation in Ha as [act' P]. rewrite P in Inv3.
    eapply (finish_session_law [c] pend) in E as (Inv' & _ & I4 & U4 & An); [|done..]. exists [s], act'. eexists. split_and!; [done|done|by etransitivity| |by rewrite An, An3|].
    { intros U. apply U4. eapply undone_only; [exact U|done..|]. by eapply others_of. }
    constructor; [|constructor]. destruct (info_same s x x' a a3 I3 Lx (so_load _ _ _ _ _ So)) as (-> & -> & ->). by exists x.
  - injection E as <-. exists [], act, []. split_and!; [done|done|done| |by rewrite app_nil_r|constructor].
    pose proof (session_waits _ _ _ _ _ So) as Hw. pose proof (count_nonneg (event_ctxs a3) pend.*1 s) as C1.
    pose proof (count_nonneg (event_ctxs a3) (armed (events_driver_ a3)) s) as C2. change (0 <= waits a3 s) in C2.
    intros U. eapply undone_stay; [exact U|done|done|done|lia].
Qed.

Lemma CleanTimeout_law pend act c g a a' : conf_timeo conf -> agent_inv [] ((c, g) :: pend) act a -> CleanTimeout conf c a = Some ((), a') ->
  swept pend act a a'.
Proof.
  intros Cf Inv E. destruct (ai_pend _ _ _ _ Inv c g (list_elem_of_here _ _)) as (Hh & e & Le & Lk). pose proof Lk as [Pg Lw]. unfold CleanTimeout in E.
  step E as e0 a0 E0. apply load_ctx_inv in E0 as [-> L0]. rewrite Le in L0. injection L0 as <-. cbn [view snd] in Lw.
  step E as [] a1 E1. assert (exists gone act' ms, act ≡ₚ gone ++ act' /\ agent_inv [c] pend act' a1 /\
    same_info a a1 /\ (undone act a -> undone act' a1) /\ answered (world a1) = answered (world a) ++ ms /\ Forall2 (answer_of a) gone ms)
    as (gone & act' & ms & P & Inv1 & I1 & U1 & An1 & Fm).
  { destruct (EventCtx.data e) as [| |id st pr|s i] eqn:De; try done.
    - cbn in Lw. injection Lw as Cat F. rewrite Cat in E1.
      eapply clean_client_law in E1 as (Inv1 & S1 & V1 & An1); [|done|done|unfold view; congruence|by rewrite De].
      exists [], act, []. split_and!; [done|done|split; intros; by rewrite ?V1, ?S1|unfold undone; by rewrite V1, S1|by rewrite app_nil_r|constructor].
    - destruct Lw as (Vw & _). injection Vw as Cat _ _. rewrite Cat in E1. by eapply clean_session_law. }
  pose proof (keeps_run _ _ _ _ _ E (tame_free c)) as Ta. pose proof (keeps_run _ _ _ _ _ E (rest_free true 0 0%nat c)) as R.
  apply FreeEventCtx_inv with (pend := pend) (act := act') in E; [|done]. exists gone, act', ms.
  split_and!; [done|done|etransitivity; [done|by eapply rest_info]| |by rewrite (ta_silent _ _ Ta)|done].
  intros U. apply (undone_rest _ 0 0%nat a1); auto.
Qed.

Lemma swept_trans pend pend' act a b c : swept pend act a b ->
  (forall act', agent_inv [] pend act' b -> swept pend' act' b c) -> swept pend' act a c.
Proof.
  intros (g & act1 & ms & P & Inv & I & U & An & Fm) H. destruct (H act1 Inv) as (g' & act2 & ms' & P' & Inv' & I' & U' & An' & Fm').
  exists (g ++ g'), act2, (ms ++ ms'). split_and!; [by rewrite P, P', app_assoc|done|by etransitivity|auto|by rewrite An', An, app_assoc|].
  apply Forall2_app; [done|]. eapply list.Forall2_impl; [exact Fm'|]. intros s m. by apply answer_info.
Qed.

Lemma CleanTimeouts_loop_law pend : conf_timeo conf -> forall act a a', agent_inv [] pend act a ->
  CleanTimeouts_loop conf pend.*1 a = Some ((), a') -> swept [] act a a'.
Proof.
  intros Cf. induction pend as [|[c g] pend IH]; intros act a a' Inv E.
  - injection E as <-. exists [], act, []. split_and!; [done|done|reflexivity|done|by rewrite app_nil_r|constructor].
  - cbn [fmap list_fmap fst CleanTimeouts_loop] in E. step E as [] a1 E1. eapply CleanTimeout_law in E1; [|done..].
    eapply swept_trans; [done|]. intros act' Inv'. by eapply IH.
Qed.

Lemma sweep_law act r a a' : conf_timeo conf -> agent_inv [] [] act a -> CleanTimeouts_ conf a = Some (r, a') -> swept [] act a a'.
Proof.
  intros Cf Inv E. unfold CleanTimeouts_ in E. step E as cs a1 E1.
  apply (RemoveTimeouts_law act) in E1 as (pend & -> & Inv1 & S1 & An1 & V1); [|done].
  step E as [] a2 E2. injection E as _ <-. apply (CleanTimeouts_loop_law pend Cf act) in E2 as (gone & act' & ms & P & Inv2 & I2 & U2 & An2 & Fm); [|done].
  assert (same_info a a1) as I1 by (split; intros; by rewrite ?S1, ?V1).
  exists gone, act', ms. split_and!; [done|done|by etransitivity|intros U; apply U2; unfold undone; by rewrite S1, V1|by rewrite An2, An1|].
  eapply list.Forall2_impl; [exact Fm|]. intros s m. by apply answer_info.
Qed.

(** Talks are left exactly for the sessions for which a descriptor is waited. *)
Lemma undone_all act a : agent_inv [] [] act a -> undone act a <-> forall s, s ∈ act -> 0 < waits a s.
Proof.
  intros Inv. split.
  - intros U s Hs. destruct (ai_act _ _ _ _ Inv s Hs) as (x & n & So). apply (undone_waits s x n a So).
    eapply undone_sub; [|exact U]. by intros s' ->%list_elem_of_singleton.
  - intros Wp s Hs. destruct (ai_act _ _ _ _ Inv s Hs) as (x & n & So). apply (undone_waits s x n a So); [auto|apply list_elem_of_here].
Qed.

(** C10: a sweep over the timeouts keeps the invariant of the agent.  To each
    session that leaves the sessions that owe an answer exactly one answer is
    sent, in this order and with the error [kPartial], and nothing waits for
    it any more; to no other session an answer is sent.  Every session that
    stays still waits for a descriptor, if all of them did before: a session
    whose last talk is swept is answered, in this very sweep. *)
Theorem timeouts_answers act r a a' : conf_timeo conf -> agent_inv [] [] act a -> CleanTimeouts_ conf a = Some (r, a') ->
  exists gone act' ms, act ≡ₚ gone ++ act' /\ agent_inv [] [] act' a' /\ Forall (fun s => waits a' s = 0) gone /\
    answered (world a') = answered (world a) ++ ms /\ Forall2 (answer_of a) gone ms /\
    ((forall s, s ∈ act -> 0 < waits a s) -> forall s, s ∈ act' -> 0 < waits a' s).
Proof using All.
  intros Cf Inv E. apply (sweep_law act) in E as (gone & act' & ms & P & Inv2 & _ & U & An & Fm); [|done..].
  exists gone, act', ms. split_and!; [done|done| |done|done|intros Wp; apply undone_all; [done|]; by apply U, undone_all].
  apply list.Forall_forall. intros s Hs. eapply waits_0; [apply Inv2|apply Inv2|].
  pose proof (ai_pool _ _ _ _ Inv) as (l & _ & N & _). rewrite P in N. apply list.NoDup_app in N as (_ & _ & N).
  apply list.NoDup_app in N as (_ & N & _). by apply N.
Qed.

End Timeouts.
End Timeouts.
