(* ===== verification/Clients.v ===== *)
(** * Clients: requests of clients and the messages of other threads

    An agent also serves clients: their descriptors wait in the driver with
    contexts of their own.  The handlers of their events and of the messages
    that bring new clients, return connections or change the configuration
    keep the invariant of Answers.v and leave the sessions and their answers
    alone. *)

From Stdlib Require Import ZArith Lia.
From stdpp Require Import base list gmap numbers option.
From S2P Require Import Prelude Os Protocol Rapid Redis IOHelper Model ConnsMgr EventsDriver PoolObjs Protocols Fds Confs EventCtx Msg Session AgentSlave SessionLaws SessionEvents Answers Timeouts.
Import Os Buffer Model.

(** The other calls of the threads around an agent close nothing and answer
    nothing. *)
Class PeerSpec (W : Type) `{NI : !NetIO W, SK : !Sock W, CK : !Clock W, EP : !Epoll W, OS : !OpenSpec W, PE : !Peers W, AN : !AnswerSpec W} : Type := {
  peer_worker m w : (forall g, opened w g -> opened (SendToOneWorker m w).2 g) /\ answered (SendToOneWorker m w).2 = answered w;
  peer_receive w : (forall g, opened w g -> opened (mailbox_ReceiveMsg w).2 g) /\ answered (mailbox_ReceiveMsg w).2 = answered w;
  peer_consumed w : (forall g, opened w g -> opened (mailbox_MsgConsumed w) g) /\ answered (mailbox_MsgConsumed w) = answered w;
  peer_remotes w : (forall g, opened w g -> opened (current_remotes w).2 g) /\ answered (current_remotes w).2 = answered w;
  peer_read1 fd w : (forall g, opened w g -> opened (sys_read1 fd w).2 g) /\ answered (sys_read1 fd w).2 = answered w;
}.

Module Clients.
Import TalkOps Session Inert Fds AgentSlave SessionLaws SessionEvents Answers Timeouts.
Section Clients.
Context {W Q : Type} `{NI : !NetIO W, SK : !Sock W, CK : !Clock W, EP : !Epoll W, PE : !Peers W, TQ : !TimeoutQueue Q,
  TQL : !TimeoutQueueLaws Q, RD : !Rand, MA : !Malloc, OS : !OpenSpec W, AN : !AnswerSpec W, PS : !PeerSpec W} {FU : Protocol.Fuel}.
Context (conf : Confs.ConfNormal).
Abbreviation Agent := (Session.Agent W Q).

(** ** What is left alone *)

Record undisturbed (a a' : Agent) : Prop := {
  un_silent : silent (world a) (world a');
  un_pool : pool_sessions_ a' = pool_sessions_ a;
  un_sessions : sessions a' = sessions a;
  un_talks : talk_vectors a' = talk_vectors a;
}.
#[export] Instance undisturbed_preorder : PreOrder undisturbed.
Proof. split; [by intros a|]. intros a b c [A1 A2 A3 A4] [B1 B2 B3 B4]. split; [|congruence..]. unfold silent in *. congruence. Qed.

Lemma un_world {A} (m : M W A) : keeps silent m -> keeps undisturbed (on_world m : M Agent A).
Proof. intros K a r a' (w & E%K & ->)%zoom_inv. by split. Qed.
Lemma un_driver {A} (f : EventsDriver.EventsDriver Q -> M W (A * EventsDriver.EventsDriver Q)) :
  (forall d, keeps silent (f d)) -> keeps undisturbed (on_driver f : M Agent A).
Proof. intros K a r a' (d & w & E%K & ->)%driver_inv. by split. Qed.
Lemma un_conns {A} (f : ConnsMgr.ConnsMgr -> M W (A * ConnsMgr.ConnsMgr)) :
  (forall d, keeps silent (f d)) -> keeps undisturbed (on_conns f : M Agent A).
Proof. intros K a r a' (d & w & E%K & ->)%conns_inv. by split. Qed.
Lemma un_protos {A} (m : M Protocols.Protos A) : keeps undisturbed (on_protos m : M Agent A).
Proof. intros a r a' (p & _ & ->)%zoom_inv. by split. Qed.
Lemma un_get : keeps undisturbed (GetEventCtx : M Agent ptr).
Proof. intros a r a'. unfold GetEventCtx. destruct (PoolObjs.Get _ _) as [[[[o|] p] st]|]; [|done..]. intros [= <- <-]. by split. Qed.
Lemma un_free c : keeps undisturbed (FreeEventCtx c : M Agent ()).
Proof. intros a r a'. unfold FreeEventCtx. destruct (PoolObjs.Free _ _ _) as [[p st]|]; [|done..]. intros [= <- <-]. by split. Qed.
Lemma un_store_ctx c e : keeps undisturbed (store_ctx c e : M Agent ()).
Proof. intros a r a' [= <- <-]. by split. Qed.
Lemma un_clients f : keeps undisturbed (modify (fun a : Agent => set_clients (f a) a)).
Proof. intros a r a' [= <- <-]. by split. Qed.
Lemma un_load_ctx c : keeps undisturbed (load_ctx c : M Agent _).
Proof. unfold load_ctx. frame. Qed.
Lemma un_load_remote r : keeps undisturbed (load_remote r : M Agent _).
Proof. unfold load_remote. frame. Qed.
Hint Resolve un_world un_driver un_conns un_protos un_get un_free un_store_ctx un_clients un_load_ctx un_load_remote silent_close : frame.
Hint Extern 1 (keeps silent _) => first [apply (inert_Msec silent) | apply (inert_Sec silent) | apply (inert_RRead silent) |
  apply (inert_RegEvent silent) | apply (inert_RegEventDel silent)] : frame.

Ltac leaves := repeat first [frame_step | apply un_world | apply un_driver | apply un_conns | apply un_clients].

Lemma silent_worker m : keeps silent (call (SendToOneWorker m)).
Proof. apply keeps_call. intros w. apply peer_worker. Qed.
Lemma silent_read1 f : keeps silent (call (sys_read1 f)).
Proof. apply keeps_call. intros w. apply peer_read1. Qed.
Hint Resolve silent_worker silent_read1 : frame.
Lemma un_timeout c n : keeps undisturbed (CheckEventCtxTimeout_ c n : M Agent bool).
Proof. unfold CheckEventCtxTimeout_. leaves. Qed.
Lemma un_mod f ev c : keeps undisturbed (ModEvent f ev c : M Agent bool).
Proof. unfold ModEvent, RegEvent. leaves. Qed.
Lemma un_CloseFdClient f : keeps undisturbed (CloseFdClient_ f : M Agent ()).
Proof. unfold CloseFdClient_, CloseFd_. leaves. Qed.
Hint Resolve un_timeout un_mod un_CloseFdClient : frame.
Lemma un_CheckReadReq ev c : keeps undisturbed (CheckReadReq ev c : M Agent ()).
Proof. unfold CheckReadReq, HandleReadReq_, drop_client, RegEventDel. leaves. Qed.
Lemma un_clear n f : keeps undisturbed (ClearReadBuf n f : M Agent ()).
Proof. induction n as [|n IH]; cbn [ClearReadBuf]; leaves. Qed.
Lemma un_ReadReq m : keeps undisturbed (HandleMsgReadReq conf m : M Agent ()).
Proof. unfold HandleMsgReadReq, RegEvent, EventCtx.BuildForReadReq. leaves. Qed.

(** ** Steps between the handlers *)

(** Whatever is waited for afterwards was waited for before or is a client. *)
Lemma inv_rewatch own own' act (a a' : Agent) : agent_inv own [] act a -> agent_ok own' a' -> undisturbed a a' ->
  (forall g w, watch a' g = Some w -> watch a g = Some w \/ link_to act a g w) -> (forall s, bal a' s = bal a s) -> agent_inv own' [] act a'.
Proof.
  intros [A1 A2 A3 A4 A5 A6 A7] Ok [_ U1 U2 U3] Wt B. split; [by rewrite app_nil_r| | |by rewrite U2|by rewrite U1, U2|intros x y []%not_elem_of_nil|done].
  - intros g w Wa. assert (link_to act a g w) as [Pg Lw] by (destruct (Wt g w Wa) as [H|H]; [by apply A2|done]). split; [done|].
    destruct (w.2) as [| | |s i]; try done. unfold talk_at in *. by rewrite U2, U3.
  - intros s Hs. destruct (A3 s Hs) as (x & n & [S1 S2 S3 S4 S5]). exists x, n. split; [by rewrite U2|by rewrite U3|done|by rewrite B|done].
Qed.
Lemma inv_calm own own' act (a a' : Agent) : agent_inv own [] act a -> agent_ok own' a' -> undisturbed a a' ->
  (forall g, watch a' g = watch a g) -> (forall s, bal a' s = bal a s) -> agent_inv own' [] act a'.
Proof. intros Inv Ok Un Wt B. eapply inv_rewatch; [done..| |done]. intros g w. rewrite Wt. by left. Qed.
Lemma inv_ok own act (a : Agent) : agent_inv own [] act a -> agent_ok own a.
Proof. intros [Ok _ _ _ _ _ _]. by rewrite app_nil_r in Ok. Qed.

Lemma inv_world {A} (m : M W A) own act r a a' : keeps stay m -> agent_inv own [] act a -> on_world m a = Some (r, a') ->
  agent_inv own [] act a' /\ quiet a a'.
Proof.
  intros K Inv E. pose proof Inv as [Ok _ _ _ _ _ _]. eapply world_law in E as (_ & Qu & w & ->); [|done..].
  split; [|done]. apply agent_inv_world; [done|apply Qu].
Qed.
Lemma inv_protos {A} (m : M Protocols.Protos A) own act r a a' : agent_inv own [] act a -> on_protos m a = Some (r, a') ->
  agent_inv own [] act a' /\ quiet a a'.
Proof.
  intros Inv E. pose proof (keeps_run _ _ _ _ _ E (un_protos m)) as Un. apply (protos_inv _ own) in E as (p & -> & O').
  split; [|by split; try (by intros g)]. eapply inv_calm; [done|by eapply O', inv_ok|done..].
Qed.
Lemma inv_clients n own act a : agent_inv own [] act a -> agent_inv own [] act (set_clients n a) /\ quiet a (set_clients n a).
Proof.
  intros Inv. split; [|by split; try (by intros g)]. eapply inv_calm; [done| |done..]. apply inv_ok in Inv as [B1 B2 B3 B4]. by split.
Qed.
Lemma inv_get c act a a' : agent_inv [] [] act a -> GetEventCtx a = Some (c, a') -> agent_inv [c] [] act a' /\ quiet a a'.
Proof.
  intros Inv E. pose proof (keeps_run _ _ _ _ _ E un_get) as Un. apply (GetEventCtx_law []) in E as (O' & Qu & _); [|by eapply inv_ok].
  split; [|done]. eapply inv_calm; [done..|apply Qu|apply Qu].
Qed.
Lemma inv_free c act a a' : agent_inv [c] [] act a -> FreeEventCtx c a = Some ((), a') -> agent_inv [] [] act a'.
Proof.
  intros Inv E. pose proof (keeps_run _ _ _ _ _ E (un_free c)) as Un. apply (FreeEventCtx_law []) in E as [[p ->] O']; [|by eapply inv_ok].
  by eapply inv_calm.
Qed.
Lemma inv_store c e act a a' : agent_inv [c] [] act a -> store_ctx c e a = Some ((), a') ->
  agent_inv [c] [] act a' /\ quiet a a' /\ Store.load (event_ctxs a') c = Some e.
Proof.
  intros Inv E. pose proof (keeps_run _ _ _ _ _ E (un_store_ctx c e)) as Un.
  apply (store_ctx_law [c]) in E as (O' & Qu & L & _); [|by eapply inv_ok|apply list_elem_of_here]. split_and!; [|done|done].
  eapply inv_calm; [done..|apply Qu|apply Qu].
Qed.

(** A client nobody waits for is closed. *)
Lemma inv_close_client f own act a a' : agent_inv own [] act a -> held a f -> CloseFdClient_ f a = Some ((), a') -> agent_inv own [] act a'.
Proof.
  intros Inv Hh E. unfold CloseFdClient_ in E. step E as [] a1 E1. injection E1 as <-.
  destruct (inv_clients (num_clients_keepalive_ a - 1) _ _ _ Inv) as [Inv1 Qu]. eapply quiet_held in Hh; [|exact Qu].
  unfold CloseFd_ in E. pose proof (keeps_run _ _ _ _ _ E (un_world _ (silent_close f))) as Un.
  apply (close_law f own) in E as (O' & [w ->] & _); [|by eapply inv_ok|exact Hh]. by eapply inv_calm.
Qed.

(** ** An event of a client *)

Section Serving.
Context (act : list Z) (c : ptr) (f id start : Z) (pr : option ptr) (Pf : 0 < f).
Let v : EventCtx.Category * Z * EventCtx.Data := (EventCtx.kReadReq, f, EventCtx.DReadReq id start pr).

(** The handler of the event of [c]; with [b] the context still waits. *)
Record serving (b : bool) (a : Agent) : Prop := {
  sv_inv : agent_inv (if b then [] else [c]) [] act a;
  sv_slot : exists sl, EventsDriver.slot (events_driver_ a) f = Some sl /\
    if b then EventsDriver.sign_timeo sl <> 0%nat /\ EventsDriver.context sl = Some c else EventsDriver.sign_timeo sl = 0%nat;
  sv_ctx : exists e, Store.load (event_ctxs a) c = Some e /\ view e = v;
  sv_fd : opened (world a) f /\ f ∉ idle (conns_mgr_ a);
}.

Lemma serving_start e a : agent_inv [] [] act a -> ctx_at (events_driver_ a) f = Some c -> Store.load (event_ctxs a) c = Some e ->
  view e = v -> serving true a.
Proof.
  intros Inv C L V. pose proof (ao_fds _ _ (ai_ok _ _ _ _ Inv)) as Fd. apply ctx_at_Some in C as (sl & S & N & Cs).
  assert (live_fd (events_driver_ a) f) as Lv by by exists sl. split; [done|eauto|eauto|].
  split; [by apply Fd|]. intros I. by apply (fo_idle _ _ _ Fd) in I as [_ I].
Qed.
Lemma serving_held a : serving false a -> held a f.
Proof.
  intros [_ (sl & S & N) _ [O I]]. split_and!; [done| |done]. intros (sl' & S' & N'). rewrite S in S'. injection S' as <-. done.
Qed.

Lemma serving_quiet b a a' : serving b a -> agent_inv (if b then [] else [c]) [] act a' -> quiet a a' ->
  (exists e, Store.load (event_ctxs a') c = Some e /\ view e = v) -> serving b a'.
Proof.
  intros [_ S2 _ [S4 S5]] Inv [_ _ _ D C St] L. split; [done|by rewrite D|done|]. rewrite C. split; [by apply St|done].
Qed.
Lemma serving_world {A} (m : M W A) b r a a' : keeps stay m -> serving b a -> on_world m a = Some (r, a') -> serving b a'.
Proof.
  intros K Sv E. pose proof E as (w & _ & Ea)%zoom_inv. eapply inv_world in E as [Inv Qu]; [|done|by apply Sv].
  eapply serving_quiet; [done..|]. subst a'. apply Sv.
Qed.
Lemma serving_protos {A} (m : M Protocols.Protos A) b r a a' : serving b a -> on_protos m a = Some (r, a') -> serving b a'.
Proof.
  intros Sv E. pose proof E as (w & _ & Ea)%zoom_inv. eapply inv_protos in E as [Inv Qu]; [|by apply Sv].
  eapply serving_quiet; [done..|]. subst a'. apply Sv.
Qed.
Lemma serving_touch e e' a a' : serving true a -> Store.load (event_ctxs a) c = Some e -> view e' = view e ->
  store_ctx c e' a = Some ((), a') -> serving true a'.
Proof.
  intros Sv L V E. pose proof (sv_inv _ _ Sv) as Inv. pose proof (sv_ctx _ _ Sv) as (e1 & L1 & V1). rewrite L in L1. injection L1 as <-.
  eapply (touch_law []) in E as ([st ->] & O' & B' & W' & L'); [|apply Inv|done..].
  assert (quiet a (set_ctxs st (pool_event_ctxs_ a) a)) as Qu by (split; [done|done|done|done|done|by intros g]).
  eapply serving_quiet; [done| |done|exists e'; split; [done|congruence]]. by eapply inv_calm.
Qed.
Lemma serving_timeout n b a a' : serving true a -> CheckEventCtxTimeout_ c n a = Some (b, a') -> serving true a'.
Proof.
  intros Sv E. unfold CheckEventCtxTimeout_ in E. step E as now a1 E1. eapply serving_world in E1; [|apply inert_Msec, _|done].
  step E as e a2 E2. apply load_ctx_inv in E2 as [-> L]. destruct (EventCtx.timeleft_ms e <=? now - EventCtx.lasttime_ms e).
  - by injection E as <- <-.
  - step E as [] a3 E3. injection E as <- <-. by eapply serving_touch in E3.
Qed.

Lemma client_count st e s : Store.load st c = Some e -> view e = v -> count st [c] s = 0.
Proof. intros L V. rewrite count_one. unfold is_for. rewrite L. injection V as _ _ D. by rewrite D. Qed.
Lemma client_bal l l' d w e (a : Agent) : Store.load (event_ctxs a) c = Some e -> view e = v -> (l = [] \/ l = [c]) -> (l' = [] \/ l' = [c]) ->
  l ++ armed (events_driver_ a) ≡ₚ l' ++ armed d -> forall s, bal (set_driver d w a) s = bal a s.
Proof.
  intros L V Hl Hl' P s. apply bal_ext; [done|]. unfold waits. cbn [event_ctxs set_driver events_driver_].
  assert (forall k, k = [] \/ k = [c] -> count (event_ctxs a) k s = 0) as Z0 by (intros k [->| ->]; [done|by eapply client_count]).
  assert (count (event_ctxs a) (l ++ armed (events_driver_ a)) s = count (event_ctxs a) (l' ++ armed d) s) as H by (by rewrite P).
  rewrite !count_app, (Z0 l Hl), (Z0 l' Hl') in H. cbn in H |- *. done.
Qed.

Lemma serving_mod ev b a a' : serving true a -> ModEvent f ev c a = Some (b, a') -> serving b a'.
Proof.
  intros [Inv (sl & S1 & S2 & S3) (e & L & V) [O I]] E. unfold ModEvent in E. step E as e0 a1 E1. apply load_ctx_inv in E1 as [-> L0].
  rewrite L in L0. injection L0 as <-.
  pose proof (keeps_run _ _ _ _ _ E (un_driver _ (fun d => inert_RegEvent silent d _ _ _ _ _))) as Un.
  eapply (mod_any c f []) in E as (d & w & -> & Ok & Ar & Wa & Sl & Lv & St); [|by eapply inv_ok|done..].
  split; [|exact Sl|by exists e|split; [by apply St|done]]. eapply inv_rewatch; [exact Inv|by destruct b|done| |].
  - intros g u. rewrite (Wa g). case_decide as Dg; [|by left]. destruct b; [|done]. rewrite V. intros Hu. apply (inj Some) in Hu as <-. right. by subst g.
  - eapply (client_bal [] (if b then [] else [c])); [done|done|by left|destruct b; auto|done].
Qed.

(** The client is in hand: nothing waits for it. *)
Record served (a : Agent) : Prop := {
  sd_inv : agent_inv [c] [] act a;
  sd_held : held a f;
  sd_ctx : exists e, Store.load (event_ctxs a) c = Some e /\ view e = v;
}.
Lemma serving_del b r a a' : serving b a -> RegEventDel f a = Some (r, a') -> served a'.
Proof.
  intros [Inv (sl & S1 & S2) (e & L & V) [O I]] E.
  pose proof (keeps_run _ _ _ _ _ E (un_driver _ (fun d => inert_RegEventDel silent d _))) as Un.
  assert (exists d w, a' = set_driver d w a /\ agent_ok [c] a' /\ rewatch f None a a' /\ (forall s, bal a' s = bal a s) /\
    (forall f', live_fd d f' <-> live_fd (events_driver_ a) f' /\ f' <> f) /\ stay (world a) w) as (d & w & -> & Ok & Wa & B & Lv & St).
  { destruct b.
    - destruct S2 as [S2 S3]. eapply (del_any c f []) in E as (d & w & -> & Ok & Ar & Wa & Lv & St); [|by eapply inv_ok|done..].
      exists d, w. split_and!; [done..| |done|done]. by eapply (client_bal [] [c]); [done|done|left|right|].
    - eapply (del_unarmed 0 f [c]) in E as (d & w & -> & Ok & Mv & Wa & Lv & St); [|by eapply inv_ok|done..].
      exists d, w. split_and!; [done..| |done|done]. intros s. by eapply moves_none. }
  split; [|split_and!; [by apply St|by intros [_ ?]%Lv|done]|by exists e].
  eapply inv_rewatch; [exact Inv|done..| |done]. intros g u. rewrite (Wa g). case_decide; [done|]. by left.
Qed.

Lemma HandleReadReq_law r a a' : serving true a -> HandleReadReq_ c a = Some (r, a') -> if 0 <? r then agent_inv [] [] act a' else served a'.
Proof.
  intros Sv E. unfold HandleReadReq_ in E. step E as e a1 E1. apply load_ctx_inv in E1 as [-> L].
  pose proof (sv_ctx _ _ Sv) as (e1 & L1 & V1). rewrite L in L1. injection L1 as <-. injection V1 as _ Ef Ed. rewrite Ef, Ed in E.
  assert (forall n b (a a' : Agent), serving b a -> n <= 0 -> (RegEventDel f;; mret n) a = Some (r, a') -> if 0 <? r then agent_inv [] [] act a' else served a') as Fail.
  { intros n b a1 a2 S1 Hn F. step F as b1 a3 F1. injection F as <- <-. rewrite (proj2 (Z.ltb_ge 0 n)) by done. by eapply serving_del. }
  step E as p a1 E1. apply deref_inv in E1 as [_ ->]. step E as o a1 E1. eapply serving_protos in E1; [|done].
  step E as [ret o'] a2 E2. eapply serving_world in E2; [|apply inert_RRead, _|done].
  step E as [] a3 E3. eapply serving_protos in E3; [|done]. destruct (Z.eqb_spec ret 0) as [->|Hz].
  - destruct (Protocols.RDecode o') as [ok o2]. step E as [] a4 E4. eapply serving_protos in E4; [|done].
    eapply Fail; [done| |exact E]. by destruct ok.
  - destruct (Z.ltb_spec 0 ret); [|eapply Fail; [done| |exact E]; lia].
    step E as ok a4 E4. eapply serving_timeout in E4; [|done]. destruct ok; cbn [negb] in E; [|by eapply Fail; [..|exact E]].
    step E as ok a5 E5. eapply serving_mod in E5; [|done]. destruct ok; cbn [negb] in E; [|by eapply Fail; [..|exact E]].
    injection E as <- <-. exact (sv_inv _ _ E5).
Qed.

Lemma drop_client_law a a' : served a -> drop_client c a = Some ((), a') -> agent_inv [] [] act a'.
Proof.
  intros [Inv Hh (e & L & V)] E. unfold drop_client in E. step E as e0 a1 E1. apply load_ctx_inv in E1 as [-> L0].
  rewrite L in L0. injection L0 as <-. injection V as _ Ef _. rewrite Ef in E. step E as [] a1 E1. apply inv_close_client with (own := [c]) (act := act) in E1; [|done..].
  step E as [] a2 E2. apply inv_store with (act := act) in E2 as (Inv2 & _); [|done]. step E as p a3 E3.
  assert (a3 = a2) as -> by (destruct (EventCtx.data e); try done; by apply deref_inv in E3 as [_ ->]).
  step E as [] a4 E4. eapply inv_protos in E4 as [Inv4 _]; [|done]. by eapply inv_free.
Qed.

Lemma CheckReadReq_law ev a a' : serving true a -> CheckReadReq ev c a = Some ((), a') -> agent_inv [] [] act a'.
Proof.
  intros Sv E. unfold CheckReadReq in E. step E as e a1 E1. apply load_ctx_inv in E1 as [-> L]. case_decide as D.
  - step E as r a1 E1. apply HandleReadReq_law in E1; [|done]. destruct (Z.eqb_spec r 0) as [->|Hr].
    + cbn [Z.ltb Z.compare] in E1. pose proof E1 as [Inv1 Hh (e1 & L1 & V1)]. step E as e1' a2 E2. apply load_ctx_inv in E2 as [-> L2].
      rewrite L1 in L2. injection L2 as <-. pose proof V1 as [= _ _ Ed]. rewrite Ed in E. step E as ok a2 E2.
      pose proof E2 as (w & _ & Ea)%zoom_inv. eapply inv_world in E2 as [Inv2 Q2]; [|apply keeps_call; intros w0; exact (proj1 (peer_worker _ w0))|done]. destruct ok.
      * step E as [] a3 E3. apply inv_store with (act := act) in E3 as (Inv3 & _); [|done]. exact (inv_free _ _ _ _ Inv3 E).
      * eapply drop_client_law; [|done]. split; [done|by eapply quiet_held|]. subst a2. by exists e1.
    + destruct (0 <? r); [by injection E as <-|by eapply drop_client_law].
  - step E as b a1 E1. pose proof (sv_ctx _ _ Sv) as (e1 & L1 & V1). rewrite L in L1. injection L1 as <-. injection V1 as _ Ef _. rewrite Ef in E1.
    eapply serving_del in E1; [|done]. by eapply drop_client_law.
Qed.
End Serving.

(** ** Messages *)

(** The client [f] is registered with the context [c] in hand. *)
Lemma register_law act c f id start pr e dir timeo b a a' : 0 < f -> held a f -> 0 <= timeo < 2 ^ 31 -> agent_inv [c] [] act a ->
  Store.load (event_ctxs a) c = Some e -> view e = (EventCtx.kReadReq, f, EventCtx.DReadReq id start pr) ->
  RegEvent f EventsDriver.kAddEvent dir c timeo a = Some (b, a') ->
  if b then agent_inv [] [] act a' else agent_inv [c] [] act a' /\ held a' f.
Proof.
  intros Pf Hh Ht Inv L V E. pose proof Hh as (Ho & Nl & Ni).
  pose proof (keeps_run _ _ _ _ _ E (un_driver _ (fun d => inert_RegEvent silent d _ _ _ _ _))) as Un.
  unfold RegEvent in E. rewrite swrap_small in E by (unfold in_sint; lia).
  eapply (add_any c f []) in E as (d & w & -> & Ok & Ar & Wa & Hg); [|by eapply inv_ok|lia|lia|done..].
  assert (agent_inv (if b then [] else [c]) [] act (set_driver d w a)) as Inv'.
  { eapply inv_rewatch; [exact Inv|by destruct b|done| |].
    - intros g u. rewrite (Wa g). case_decide as Dg; [|by left]. destruct b; [|done]. rewrite V. intros Hu.
      apply (inj Some) in Hu as <-. right. by subst g.
    - eapply (client_bal c f id start pr (if b then [c] else []) []); [done|done|destruct b; auto|by left|by rewrite Ar]. }
  destruct b; [done|]. split; [done|]. by apply Hg.
Qed.

(** It could not be registered. *)
Lemma refuse_law act c f pr a a' : agent_inv [c] [] act a -> held a f ->
  (CloseFdClient_ f;; on_protos (Protocols.FreeRead pr);; FreeEventCtx c) a = Some ((), a') -> agent_inv [] [] act a'.
Proof.
  intros Inv Hh E. step E as [] a1 E1. apply inv_close_client with (own := [c]) (act := act) in E1; [|done..].
  step E as [] a2 E2. eapply inv_protos in E2 as [Inv2 _]; [|done]. exact (inv_free _ _ _ _ Inv2 E).
Qed.

Lemma BuildForReadReq_inv f id start pr timeo own act e a a' : agent_inv own [] act a ->
  on_world (EventCtx.BuildForReadReq f id start pr timeo) a = Some (e, a') ->
  agent_inv own [] act a' /\ quiet a a' /\ view e = (EventCtx.kReadReq, f, EventCtx.DReadReq id start (Some pr)) /\ EventCtx.timeleft_ms e = timeo.
Proof.
  intros Inv E. pose proof E as (w & E1 & _)%zoom_inv. unfold EventCtx.BuildForReadReq in E1. step E1 as now w1 E2. injection E1 as <- _.
  eapply inv_world in E as [Inv' Qu]; [done| |done]. unfold EventCtx.BuildForReadReq. frame. apply (inert_Msec stay).
Qed.

Lemma ReadReq_law act m a a' : conf_timeo conf -> agent_inv [] [] act a -> 0 < Msg.rr_fd_client m -> held a (Msg.rr_fd_client m) ->
  HandleMsgReadReq conf m a = Some ((), a') -> agent_inv [] [] act a'.
Proof.
  intros Cf Inv Pf Hh E. unfold HandleMsgReadReq in E. step E as [] a1 E1. injection E1 as <-.
  destruct (inv_clients (num_clients_keepalive_ a + 1) _ _ _ Inv) as [Inv1 Q1]. eapply quiet_held in Hh; [|exact Q1].
  set (a1 := set_clients _ a) in *. clearbody a1. clear Q1 Inv a. step E as p a2 E2. eapply inv_protos in E2 as [Inv2 Q2]; [|done].
  eapply quiet_held in Hh; [|exact Q2]. step E as p' a3 E3. apply deref_inv in E3 as [_ ->].
  step E as o a3 E3. eapply inv_protos in E3 as [Inv3 Q3]; [|done]. eapply quiet_held in Hh; [|exact Q3].
  step E as [] a4 E4. eapply inv_protos in E4 as [Inv4 Q4]; [|done]. eapply quiet_held in Hh; [|exact Q4].
  step E as c a5 E5. eapply inv_get in E5 as [Inv5 Q5]; [|done]. eapply quiet_held in Hh; [|exact Q5].
  step E as e a6 E6. eapply BuildForReadReq_inv in E6 as (Inv6 & Q6 & V & Te); [|done]. eapply quiet_held in Hh; [|exact Q6].
  step E as [] a7 E7. eapply inv_store in E7 as (Inv7 & Q7 & L7); [|done]. eapply quiet_held in Hh; [|exact Q7].
  step E as b a8 E8. eapply register_law in E8; [|done|done|rewrite Te; apply Cf|done..].
  destruct b; [by injection E as <-|]. destruct E8. by eapply refuse_law.
Qed.

(** Connections that come back are idle or closed. *)
Lemma inv_conns own act m w a : agent_inv own [] act a -> fds_ok (events_driver_ a) m w -> agent_inv own [] act (set_conns m w a).
Proof.
  intros [A1 A2 A3 A4 A5 A6 A7] Fo. split; [|done| |done|done|intros x y []%not_elem_of_nil|done].
  - destruct A1 as [B1 B2 B3 B4]. by split.
  - intros s Hs. destruct (A3 s Hs) as (x & n & [S1 S2 S3 S4 S5]). by exists x, n.
Qed.
Lemma FreeFds_law act l : forall a a', agent_inv [] [] act a -> NoDup l.*1 -> Forall (held a) l.*1 -> FreeFds l a = Some ((), a') ->
  agent_inv [] [] act a' /\ forall g, g ∉ l.*1 -> held a g -> held a' g.
Proof.
  induction l as [|[f rp] l IH]; intros a a' Inv N F E; cbn [FreeFds] in E; [by injection E as <-|].
  cbn [fmap list_fmap fst] in *. apply list.NoDup_cons in N as [Nf N]. apply list.Forall_cons in F as [Hf F].
  step E as r a1 E1. apply load_remote_inv in E1 as [-> _]. step E as [] a1 E1. apply conns_inv in E1 as (m & w & E1 & ->).
  step E1 as m1 w1 E2. injection E1 as <- <-. destruct Hf as (Ho & Nl & Ni).
  eapply (FreeFd_owned (events_driver_ a)) in E2 as [Fo K]; [|apply (ao_fds _ _ (inv_ok _ _ _ Inv))|done..].
  assert (forall g, g <> f -> held a g -> held (set_conns m1 w1 a) g) as Hk.
  { intros g Ng (G1 & G2 & G3). destruct (K g Ng G1 G3). by split_and!. }
  apply IH in E as [Inv' K']; [| |done|].
  - split; [done|]. intros g Ng Hg. apply K'; [intros Hi; apply Ng; by apply list_elem_of_further|]. apply Hk; [|done].
    intros ->. apply Ng, list_elem_of_here.
  - by apply inv_conns.
  - eapply list.Forall_forall. intros g Hg. apply Hk; [by intros ->|]. exact (proj1 (list.Forall_forall _ _) F g Hg).
Qed.

(** The descriptors of a procedure that has ended. *)
Record returns_ok (a : Agent) (m : Msg.MsgDestruct) : Prop := {
  ro_cached : Forall (held a) (Msg.cached_fds m).*1;
  ro_nodup : NoDup (Msg.cached_fds m).*1;
  ro_client : 0 < Msg.md_fd_client m -> held a (Msg.md_fd_client m) /\ Msg.md_fd_client m ∉ (Msg.cached_fds m).*1;
}.
Lemma Destruct_law act m a a' : conf_timeo conf -> agent_inv [] [] act a -> returns_ok a m ->
  HandleMsgDestruct_ conf m a = Some ((), a') -> agent_inv [] [] act a'.
Proof.
  intros Cf Inv [R1 R2 R3] E. unfold HandleMsgDestruct_ in E. step E as [] a1 E1. apply (FreeFds_law act) in E1 as [Inv1 K]; [|done..].
  step E as p a2 E2. apply deref_inv in E2 as [_ ->]. destruct (Z.leb_spec (Msg.md_fd_client m) 0) as [Hf|Hf].
  { step E as [] a2 E2. injection E2 as <-. destruct (inv_clients (num_clients_keepalive_ a1 - 1) _ _ _ Inv1) as [Inv2 _]. by eapply inv_protos in E as [? _]. }
  destruct (R3 Hf) as [Hh Nc]. apply K in Hh; [|done]. clear K R1 R2 R3 Inv a. set (f := Msg.md_fd_client m) in *.
  step E as now a2 E2. eapply inv_world in E2 as [Inv2 Q2]; [|apply (inert_Sec stay)|done]. eapply quiet_held in Hh; [|exact Q2].
  match type of E with (if ?t <=? 0 then _ else _) _ = _ => destruct (Z.leb_spec t 0) as [Ht|Ht] end.
  { step E as [] a3 E3. apply inv_close_client with (own := []) (act := act) in E3; [|done..]. by eapply inv_protos in E as [? _]. }
  step E as c a3 E3. eapply inv_get in E3 as [Inv3 Q3]; [|done]. eapply quiet_held in Hh; [|exact Q3].
  step E as e a4 E4. eapply BuildForReadReq_inv in E4 as (Inv4 & Q4 & V & Te); [|done]. eapply quiet_held in Hh; [|exact Q4].
  step E as [] a5 E5. eapply inv_store in E5 as (Inv5 & Q5 & L5); [|done]. eapply quiet_held in Hh; [|exact Q5].
  step E as o a6 E6. pose proof E6 as (w6 & _ & ->)%zoom_inv. eapply inv_protos in E6 as [Inv6 Q6]; [|done]. eapply quiet_held in Hh; [|exact Q6].
  step E as [] a7 E7. pose proof E7 as (w7 & _ & ->)%zoom_inv. eapply inv_protos in E7 as [Inv7 Q7]; [|done]. eapply quiet_held in Hh; [|exact Q7].
  step E as b a8 E8. eapply register_law in E8; [|done|done|rewrite Te; pose proof Cf as (_ & ? & _); lia|done..].
  destruct b; [by injection E as <-|]. destruct E8. by eapply refuse_law.
Qed.
Lemma Config_law act rs a a' : agent_inv [] [] act a ->
  on_conns (fun c => c ← deref (ConnsMgr.ConfigRemotes c rs); mret ((), c)) a = Some ((), a') -> agent_inv [] [] act a'.
Proof.
  intros Inv (m & w & E & ->)%conns_inv. step E as m1 w1 E1. apply deref_inv in E1 as [E1 ->]. injection E as <- <-.
  pose proof (ao_fds _ _ (inv_ok _ _ _ Inv)) as Fo. apply inv_conns; [done|].
  eapply fds_ok_fewer; [done|]. eapply ConfigRemotes_fewer; [apply Fo|done].
Qed.

Lemma silent_FreeFd m r f : keeps silent (m ← ConnsMgr.FreeFd m r f; mret ((), m)).
Proof. frame. apply inert_FreeFd; [apply _|apply answered_close]. Qed.
Hint Resolve silent_FreeFd : frame.
Lemma un_FreeFds l : keeps undisturbed (FreeFds l : M Agent ()).
Proof. induction l as [|[f rp] l IH]; cbn [FreeFds]; leaves. Qed.
Hint Resolve un_FreeFds : frame.
Lemma un_Destruct m : keeps undisturbed (HandleMsgDestruct_ conf m : M Agent ()).
Proof. unfold HandleMsgDestruct_, RegEvent, EventCtx.BuildForReadReq. leaves. Qed.
Lemma un_Config rs : keeps undisturbed (on_conns (fun c => c ← deref (ConnsMgr.ConfigRemotes c rs); mret ((), c)) : M Agent ()).
Proof. leaves. Qed.
End Clients.
End Clients.
