(* ===== verification/Runs.v ===== *)
(** * Runs: an agent between the other threads

    An agent runs its loop while the schedulers hand it vectors of talks and
    other threads open descriptors.  [step] is one operation of the agent's
    loop, or one action of the others, which leaves alone what waits; [run] is
    any sequence of steps, with its trace.  Every session that was started in a
    run is answered exactly once or still waits for a descriptor; the one
    exception, a session whose only talk has a negative descriptor and no error,
    is accounted for separately.  A call of [Process_] is a run whose trace has
    the shape of the loop. *)

From Stdlib Require Import ZArith Lia.
From stdpp Require Import base list gmap numbers option.
From S2P Require Import Prelude Os Protocol Rapid Redis IOHelper Model ConnsMgr EventsDriver PoolObjs Protocols Fds Confs EventCtx Msg Session AgentSlave SessionLaws SessionEvents Answers Timeouts Clients.
Import Os Buffer Model.

Module Runs.
Import TalkOps Session Inert Fds AgentSlave SessionLaws SessionEvents Answers Timeouts Clients.
Section Runs.
Context {W Q : Type} `{NI : !NetIO W, SK : !Sock W, CK : !Clock W, EP : !Epoll W, PE : !Peers W, TQ : !TimeoutQueue Q,
  TQL : !TimeoutQueueLaws Q, RD : !Rand, MA : !Malloc, OS : !OpenSpec W, AN : !AnswerSpec W, PS : !PeerSpec W} {FU : Protocol.Fuel}.
Context (conf : Confs.ConfNormal).
Abbreviation Agent := (Session.Agent W Q).

(** What the sender of a message promises: talks that can be started, and
    descriptors that are open and in nobody else's hands. *)
Definition msg_ok (a : Agent) (m : Msg.Msg) : Prop :=
  match m with
  | Msg.Session m => exists l, talk_vectors a !! Msg.ms_talks m = Some l /\ Z.of_nat (length l) < 2 ^ 64 /\ startable (Msg.ms_talks m) 0 a
  | Msg.ReadReq m => 0 < Msg.rr_fd_client m /\ held a (Msg.rr_fd_client m)
  | Msg.Destruct m => returns_ok a m
  | _ => True
  end.
(** Or the one message that is lost: see [dead]. *)
Definition sent_ok (a : Agent) (m : Msg.Msg) (alive : bool) : Prop :=
  if alive then msg_ok a m else match m with Msg.Session m => dead (Msg.ms_talks m) a | _ => False end.
Definition started (m : Msg.Msg) : list Msg.MsgSession := match m with Msg.Session m => [m] | _ => [] end.

(** The [k]-th ready event is that of a descriptor that waits, or of the pipe
    that wakes the agent. *)
Definition ready_ok (k : nat) (a : Agent) : Prop := exists evs f, EventsDriver.events_ready_ (events_driver_ a) !! k = Some (evs, f) /\
  (is_Some (ctx_at (events_driver_ a) f) \/
   exists sl c e, EventsDriver.slot (events_driver_ a) f = Some sl /\ EventsDriver.context sl = Some c /\
     Store.load (event_ctxs a) c = Some e /\ EventCtx.category e = EventCtx.kMailboxNotify).

(** What the other threads may change: they keep the vectors of talks of the
    sessions that wait and the open descriptors.  The seeds of the connection
    managers are static variables, so that other agents draw from them too. *)
Definition reseed (sn sw : Z) (m : ConnsMgr.ConnsMgr) : ConnsMgr.ConnsMgr :=
  ConnsMgr.set_tmp m (ConnsMgr.tmp_remotes_ m) (ConnsMgr.tmp_weights_ m) sn sw.
Definition elsewhere (w : W) (p : Protocols.Protos) (tv : gmap Z (list Talk)) (sn sw : Z) (a : Agent) : Agent :=
  set_talks tv (set_protos p (set_conns (reseed sn sw (conns_mgr_ a)) w a)).
Definition harmless (w : W) (tv : gmap Z (list Talk)) (a : Agent) : Prop :=
  stay (world a) w /\ silent (world a) w /\
  forall s x, Store.load (sessions a) s = Some x -> 0 < waits a s -> tv !! talks_ x = talk_vectors a !! talks_ x.

(** One operation, with its label.  [OHandle m false] handles a message whose
    session is [dead]. *)
Inductive op : Type :=
| OWait (r : Z) | OEvent (k : nat) | OSweep (r : bool) | OReceive (m : option Msg.Msg) | OHandle (m : Msg.Msg) (alive : bool) | OConsume | OOthers.

Inductive step : Agent -> op -> Agent -> Prop :=
| step_wait timeo r a a' : on_driver (fun d => EventsDriver.Wait d timeo) a = Some (r, a') -> step a (OWait r) a'
| step_event k a a' : ready_ok k a -> CheckEvent conf k a = Some ((), a') -> step a (OEvent k) a'
| step_sweep r a a' : CleanTimeouts_ conf a = Some (r, a') -> step a (OSweep r) a'
| step_receive m a a' : on_world (call mailbox_ReceiveMsg) a = Some (m, a') -> step a (OReceive m) a'
| step_handle m alive a a' : sent_ok a m alive -> HandleMsg conf m a = Some ((), a') -> step a (OHandle m alive) a'
| step_consume a a' : on_world (modify mailbox_MsgConsumed) a = Some ((), a') -> step a OConsume a'
| step_others w p tv sn sw a : harmless w tv a -> step a OOthers (elsewhere w p tv sn sw a).

Inductive run : Agent -> list op -> Agent -> Prop :=
| run_nil a : run a [] a
| run_cons a o b tr c : step a o b -> run b tr c -> run a (o :: tr) c.

(** The sessions that are started in a trace, and the dead ones among them. *)
Definition news (o : op) : list Msg.MsgSession := match o with OHandle m _ => started m | _ => [] end.
Definition deads (o : op) : list Msg.MsgSession := match o with OHandle m false => started m | _ => [] end.
Definition new (tr : list op) : list Msg.MsgSession := tr ≫= news.
Definition lost (tr : list op) : list Msg.MsgSession := tr ≫= deads.

(** ** The accounts *)

(** To whom an answer goes, or is owed. *)
Definition addressee (m : Msg.MsgSession) : ptr * ptr * ptr := (Msg.ms_biz_ctx m, Msg.ms_biz_procedure m, Msg.ms_talks m).
Definition owed (act : list Z) (a : Agent) : list (ptr * ptr * ptr) := omap (ident a) act.
Definition accounts (act : list Z) (a : Agent) : list (ptr * ptr * ptr) := (addressee <$> answered (world a)) ++ owed act a.

(** Steps that lead from the active sessions [act] to [act'], that start the
    sessions [ns] and lose the sessions [ls]. *)
Record settled (act : list Z) (a : Agent) (ns ls : list Msg.MsgSession) (act' : list Z) (a' : Agent) : Prop := {
  se_inv : agent_inv [] [] act' a';
  se_undone : undone act' a';
  se_accounts : accounts act' a' ++ (addressee <$> ls) ≡ₚ accounts act a ++ (addressee <$> ns);
  se_answered : exists ms, answered (world a') = answered (world a) ++ ms;
}.

Lemma owed_same act (a a' : Agent) : (forall s, s ∈ act -> ident a' s = ident a s) -> owed act a' = owed act a.
Proof.
  unfold owed. induction act as [|s act IH]; intros H; [done|]. cbn. rewrite (H s) by apply list_elem_of_here.
  rewrite IH; [done|]. intros s' Hs. by apply H, list_elem_of_further.
Qed.
Lemma owed_perm act act' (a : Agent) : act ≡ₚ act' -> owed act a ≡ₚ owed act' a.
Proof. intros P. unfold owed. by rewrite P. Qed.
Lemma owed_info act (a a' : Agent) : same_info a a' -> owed act a' = owed act a.
Proof. intros [_ I]. apply owed_same. intros s _. apply I. Qed.

Lemma undisturbed_settled act a a' : agent_inv [] [] act a' -> undone act a -> undisturbed a a' -> settled act a [] [] act a'.
Proof.
  intros Inv U [U1 U2 U3 U4]. split; [done|unfold undone; by rewrite U3, U4| |exists []; by rewrite U1, app_nil_r]. unfold accounts. cbn. rewrite !app_nil_r, U1.
  rewrite (owed_same act a a'); [done|]. intros s _. unfold ident. by rewrite U3.
Qed.

(** ** Every step settles *)

Lemma world_settled {A} (m : M W A) act r a a' : keeps stay m -> keeps silent m -> agent_inv [] [] act a -> undone act a ->
  on_world m a = Some (r, a') -> settled act a [] [] act a'.
Proof.
  intros K1 K2 Inv U E. pose proof (keeps_run _ _ _ _ _ E (un_world m K2)) as Un. eapply inv_world in E as [Inv' _]; [|done..].
  by apply undisturbed_settled.
Qed.

(** The event of a client or of the pipe. *)
Lemma ClearReadBuf_inv n f act : forall a a', agent_inv [] [] act a -> ClearReadBuf n f a = Some ((), a') -> agent_inv [] [] act a'.
Proof.
  induction n as [|n IH]; intros a a' Inv E; [done|]. cbn [ClearReadBuf] in E. step E as r a1 E1.
  eapply inv_world in E1 as [Inv1 _]; [|apply keeps_call; intros w; exact (proj1 (peer_read1 f w))|done].
  destruct (0 <? r); [by eapply IH|by injection E as <-].
Qed.
(** [CheckEvent] up to the choice of the handler. *)
Lemma CheckEvent_inv k evs f sl c e (a a' : Agent) : EventsDriver.events_ready_ (events_driver_ a) !! k = Some (evs, f) ->
  EventsDriver.slot (events_driver_ a) f = Some sl -> EventsDriver.context sl = Some c -> Store.load (event_ctxs a) c = Some e ->
  CheckEvent conf k a = Some ((), a') ->
  (EventCtx.category e = EventCtx.kReadReq -> CheckReadReq (EventsDriver.event_of evs) c a = Some ((), a')) /\
  (EventCtx.category e = EventCtx.kMailboxNotify -> ClearReadBuf Protocol.fuel (EventCtx.fd e) a = Some ((), a')).
Proof.
  intros Rd S Cs L E. unfold CheckEvent in E. step E as a0 a1 E1. injection E1 as <- <-. step E as [ev c0] a1 E1.
  apply deref_inv in E1 as [Re ->]. unfold EventsDriver.CheckReadyEvent in Re. cbn [id] in Re. rewrite Rd in Re. cbn in Re. rewrite S in Re.
  cbn in Re. rewrite Cs in Re. injection Re as <- <-. step E as c1 a1 E1. apply deref_inv in E1 as [[= <-] ->].
  step E as e0 a1 E1. apply load_ctx_inv in E1 as [-> L0]. rewrite L in L0. injection L0 as <-.
  split; intros Cat; by rewrite Cat in E.
Qed.

Lemma event_settled act k a a' : conf_timeo conf -> agent_inv [] [] act a -> undone act a -> ready_ok k a -> CheckEvent conf k a = Some ((), a') ->
  exists act', settled act a [] [] act' a'.
Proof.
  intros Cf Inv U (evs & f & Rd & [[c C]|(sl & c & e & S & Cs & L & Cat)]) E.
  2: { exists act. apply (CheckEvent_inv k evs f sl c e) in E as [_ E]; [|done..]. specialize (E Cat).
       pose proof (keeps_run _ _ _ _ _ E (un_clear _ _)) as Un. apply undisturbed_settled; [by eapply ClearReadBuf_inv|done..]. }
  pose proof C as (sl & S & N & Cs)%ctx_at_Some. pose proof (inv_ok _ _ _ Inv) as [B1 _ _ (lp & _ & _ & Ld)].
  destruct (Ld c) as [e L]; [rewrite !elem_of_app; right; right; apply ctx_at_armed; eauto|].
  assert (watch a f = Some (view e)) as Wf by (unfold watch; rewrite C; cbn; by rewrite L).
  destruct (ai_linked _ _ _ _ Inv f _ Wf) as [Pf Lw]. cbn [view snd] in Lw. destruct (EventCtx.data e) as [| |id st pr|s i] eqn:D; try done.
  - exists act. cbn in Lw. injection Lw as Cat Ef. apply (CheckEvent_inv k evs f sl c e) in E as [E _]; [|done..]. specialize (E Cat).
    pose proof (keeps_run _ _ _ _ _ E (un_CheckReadReq _ _)) as Un. apply undisturbed_settled; [|done..].
    eapply (CheckReadReq_law act c f id st pr Pf); [|done]. eapply serving_start; [done..|]. unfold view. congruence.
  - destruct Lw as (Vw & Ha & _). injection Vw as Cat _ _. eapply event_law in E as (I & x & Lx & Out); [|done..].
    destruct Out as [(Inv' & U' & _ & An)|(act' & err & P & Inv' & U' & _ & _ & An)].
    + exists act. split; [done|auto| |exists []; by rewrite An, app_nil_r]. unfold accounts. by rewrite An, (owed_info _ a a' I), !app_nil_r.
    + exists act'. split; [done|auto| |eauto]. unfold accounts. rewrite An, (owed_info _ a a' I), fmap_app, !app_nil_r, (owed_perm act (s :: act')) by done.
      unfold owed. cbn. unfold ident at 2. rewrite Lx. cbn. by rewrite <- app_assoc.
Qed.

Lemma answered_owed gone ms (a : Agent) : Forall2 (answer_of a) gone ms -> addressee <$> ms = owed gone a.
Proof.
  induction 1 as [|s m gone ms (x & L & ->) _ IH]; [done|]. unfold owed, ident in *. cbn. rewrite L. cbn. by rewrite IH.
Qed.
Lemma sweep_settled act r a a' : conf_timeo conf -> agent_inv [] [] act a -> undone act a -> CleanTimeouts_ conf a = Some (r, a') ->
  exists act', settled act a [] [] act' a'.
Proof.
  intros Cf Inv U E. eapply sweep_law in E as (gone & act' & ms & P & Inv' & I & U' & An & Fm); [|done..].
  exists act'. split; [done|auto| |eauto]. unfold accounts. rewrite An, (owed_info _ a a' I), fmap_app, !app_nil_r, (owed_perm act (gone ++ act')) by done.
  rewrite (answered_owed gone ms a Fm), <- app_assoc. unfold owed. by rewrite omap_app.
Qed.

Lemma start_settled act m a a' : conf_timeo conf -> agent_inv [] [] act a -> undone act a -> msg_ok a (Msg.Session m) ->
  HandleMsgSession conf m a = Some ((), a') -> exists act', settled act a [m] [] act' a'.
Proof.
  intros Cf Inv U (l & Hv & Sz & St) E. destruct (start_law conf act m l a a' Cf Inv Hv Sz St E) as (s & [Ns Id Ot Ud] & C).
  assert (owed act a' = owed act a) as Ow by by apply owed_same. destruct C as [(Inv' & Wp & An)|(Inv' & _ & An)].
  - exists (s :: act). split; [done| | |exists []; by rewrite An, app_nil_r].
    + destruct (ai_act _ _ _ _ Inv' s (list_elem_of_here _ _)) as (x & n & So). intros s'. rewrite elem_of_cons. intros [->|Hs]; [|by apply Ud].
      apply (undone_waits s x n a' So); [done|apply list_elem_of_here].
    + rewrite app_nil_r. unfold accounts, owed. cbn. rewrite Id, An. fold (owed act a'). rewrite Ow. unfold owed. cbn. rewrite <- app_assoc.
      by rewrite <- Permutation_cons_append.
  - exists act. split; [done|auto| |eauto]. rewrite app_nil_r. unfold accounts. rewrite An, fmap_app, Ow. cbn. rewrite <- !app_assoc. by rewrite (Permutation_app_comm [_]).
Qed.

(** A dead session is lost. *)
Lemma dead_settled act m a a' : agent_inv [] [] act a -> undone act a -> dead (Msg.ms_talks m) a ->
  HandleMsgSession conf m a = Some ((), a') -> exists act', settled act a [m] [m] act' a'.
Proof.
  intros Inv U De E. destruct (dead_law conf act m a a' Inv De E) as (s & [Ns Id Ot Ud] & Inv' & _ & An).
  exists act. split; [done|auto| |exists []; by rewrite An, app_nil_r]. unfold accounts. by rewrite An, (owed_same act a a') by auto.
Qed.

Lemma handle_settled act m a a' : conf_timeo conf -> agent_inv [] [] act a -> undone act a -> msg_ok a m -> HandleMsg conf m a = Some ((), a') ->
  exists act', settled act a (started m) [] act' a'.
Proof.
  intros Cf Inv U Ok E. destruct m as [| |m|m|m|m]; cbn [HandleMsg started msg_ok] in *.
  - injection E as <-. exists act. by apply undisturbed_settled.
  - exists act. step E as rs a1 E1. pose proof (keeps_run _ _ _ _ _ E1 (un_world _ (keeps_call _ _ (fun w => proj2 (peer_remotes w))))) as Un1.
    eapply inv_world in E1 as [Inv1 _]; [|apply keeps_call; intros w; exact (proj1 (peer_remotes w))|done].
    pose proof (keeps_run _ _ _ _ _ E (un_Config _)) as Un2. apply undisturbed_settled; [by eapply Config_law|done|by etransitivity].
  - exists act. pose proof (keeps_run _ _ _ _ _ E (un_ReadReq conf _)) as Un. destruct Ok.
    apply undisturbed_settled; [by eapply ReadReq_law|done..].
  - injection E as <-. exists act. by apply undisturbed_settled.
  - by eapply start_settled.
  - exists act. pose proof (keeps_run _ _ _ _ _ E (un_Destruct conf _)) as Un. apply undisturbed_settled; [by eapply Destruct_law|done..].
Qed.

Lemma others_settled act w p tv sn sw a : agent_inv [] [] act a -> undone act a -> harmless w tv a ->
  settled act a [] [] act (elsewhere w p tv sn sw a).
Proof.
  intros Inv U (St & Si & Tv). set (a' := elsewhere w p tv sn sw a).
  assert (forall s x, s ∈ act -> Store.load (sessions a) s = Some x -> tv !! talks_ x = talk_vectors a !! talks_ x) as Ta.
  { intros s x Hs L. apply (Tv s x L). destruct (ai_act _ _ _ _ Inv s Hs) as (x' & n & So). apply (undone_waits s x' n a So).
    eapply undone_sub; [|exact U]. by intros s' ->%list_elem_of_singleton. }
  pose proof (agent_inv_world [] [] act w a Inv St) as [[B1 [F1 F2 F3 F4 F5] B3 B4] A2 A3 A4 A5 _ A7].
  split; [split; [split; [done|by split|done|done]| | |done|done|intros x y []%not_elem_of_nil|done]|..|exists []; cbn; by rewrite Si, app_nil_r].
  - intros g v Wg. destruct (A2 g v Wg) as [Pg Lw]. split; [done|]. destruct (v.2) as [| | |s i]; try done.
    destruct Lw as (Vw & Ha & x & t & L & T & Rest). split_and!; [done..|]. exists x, t. split_and!; [done| |apply Rest..].
    unfold talk_at in *. cbn [talk_vectors a' elsewhere set_talks]. by rewrite (Ta s x Ha L).
  - intros s Hs. destruct (A3 s Hs) as (x & n & [S1 S2 S3 S4 S5]). exists x, n. split; [done| |done|done|done].
    cbn [talk_vectors a' elsewhere set_talks]. by rewrite (Ta s x Hs S1).
  - intros s Hs. destruct (U s Hs) as (x & n & L & Ln & Lt). exists x, n. split_and!; [done| |done].
    cbn [talk_vectors a' elsewhere set_talks]. by rewrite (Ta s x Hs L).
  - unfold accounts. cbn [world a' elsewhere set_talks set_protos set_conns fmap list_fmap]. by rewrite Si, !app_nil_r.
Qed.

Lemma step_settled act a o a' : conf_timeo conf -> agent_inv [] [] act a -> undone act a -> step a o a' ->
  exists act', settled act a (news o) (deads o) act' a'.
Proof.
  intros Cf Inv U H. revert Inv U. destruct H as [timeo r b b' E|k b b' Rd E|r b b' E|m b b' E|m alive b b' Ok E|b b' E|w p tv sn sw b H]; intros Inv U; cbn [news deads].
  - exists act. pose proof (keeps_run _ _ _ _ _ E (un_driver _ (fun d => inert_Wait silent d timeo))) as Un.
    apply undisturbed_settled; [exact (proj1 (Wait_inv act timeo r b b' Inv E))|done..].
  - by eapply event_settled.
  - by eapply sweep_settled.
  - exists act. eapply world_settled; [..|exact E]; [apply keeps_call; intros w; exact (proj1 (peer_receive w))|apply keeps_call; intros w; exact (proj2 (peer_receive w))|done|done].
  - destruct alive; [by eapply handle_settled|]. destruct m as [| | | |m|]; try done. by eapply dead_settled.
  - exists act. eapply world_settled; [..|exact E]; [apply keeps_modify; intros w; exact (proj1 (peer_consumed w))|apply keeps_modify; intros w; exact (proj2 (peer_consumed w))|done|done].
  - exists act. by apply others_settled.
Qed.

Lemma settled_trans act a ns ls act1 b ns' ls' act2 c : settled act a ns ls act1 b -> settled act1 b ns' ls' act2 c ->
  settled act a (ns ++ ns') (ls ++ ls') act2 c.
Proof.
  intros [_ _ A3 [ms A4]] [B1 B2 B3 [ms' B4]]. split; [done|done| |exists (ms ++ ms'); by rewrite B4, A4, app_assoc].
  rewrite !fmap_app. transitivity ((accounts act2 c ++ (addressee <$> ls')) ++ (addressee <$> ls)); [solve_Permutation|]. rewrite B3.
  transitivity ((accounts act1 b ++ (addressee <$> ls)) ++ (addressee <$> ns')); [solve_Permutation|]. rewrite A3. solve_Permutation.
Qed.
Lemma run_settled a tr a' : conf_timeo conf -> run a tr a' -> forall act, agent_inv [] [] act a -> undone act a ->
  exists act', settled act a (new tr) (lost tr) act' a'.
Proof.
  intros Cf. induction 1 as [b|b o c tr d Hs _ IH]; intros act Inv U.
  - exists act. by apply undisturbed_settled.
  - destruct (step_settled act b o c Cf Inv U Hs) as [act1 S1]. destruct (IH act1) as [act2 S2]; [apply S1..|].
    exists act2. exact (settled_trans _ _ _ _ _ _ _ _ _ _ S1 S2).
Qed.

(** C1: in any run of an agent, whatever the other threads do in between,
    every session that is started is answered exactly once, to the business
    procedure that started it and with its talks, or it still waits, or it is
    one of the [lost] ones, whose only talk was handed over with a negative
    descriptor and without an error: the answers sent, the answers owed and the
    lost sessions are, one for one, the answers sent and owed at the start of the
    run and the sessions started since, and every session to which an answer is
    owed waits for at least one descriptor.  The configured timeouts are below
    2^31 ms; descriptors that a message brings along are open, distinct and in
    nobody else's hands; the other threads leave alone the talks of the sessions
    that wait and the open descriptors. *)
Theorem run_conserves act a tr a' : conf_timeo conf -> agent_inv [] [] act a -> (forall s, s ∈ act -> 0 < waits a s) -> run a tr a' ->
  exists act', agent_inv [] [] act' a' /\ (forall s, s ∈ act' -> 0 < waits a' s) /\
    accounts act' a' ++ (addressee <$> lost tr) ≡ₚ accounts act a ++ (addressee <$> new tr).
Proof using All.
  intros Cf Inv Wp R. destruct (run_settled a tr a' Cf R act Inv) as [act' [I U Ac _]]; [by apply undone_all|].
  exists act'. split_and!; [done| |done]. by apply undone_all.
Qed.

(** ** The loop of the agent is a run *)

(** What the others promise along the loop, at the state in which the loop
    relies on it. *)
Fixpoint events_ok (n i : nat) (a : Agent) : Prop :=
  match n with
  | O => True
  | S n => ready_ok i a /\ forall a', CheckEvent conf i a = Some ((), a') -> events_ok n (S i) a'
  end.
Fixpoint mails_ok (n : nat) (a : Agent) : Prop :=
  match n with
  | O => True
  | S n => forall m a1, on_world (call mailbox_ReceiveMsg) a = Some (Some m, a1) -> (exists alive, sent_ok a1 m alive) /\
      forall a2 a3, HandleMsg conf m a1 = Some ((), a2) -> on_world (modify mailbox_MsgConsumed) a2 = Some ((), a3) -> mails_ok n a3
  end.
Definition turn_ok (a : Agent) : Prop :=
  (forall r a1, on_driver (fun d => EventsDriver.Wait d (if Confs.low_latency_ conf then 0 else 1)) a = Some (r, a1) ->
    events_ok (Z.to_nat r) 0 a1) /\
  (forall r1 a1 r2 a2, CheckEvents_ conf a = Some (r1, a1) -> CleanTimeouts_ conf a1 = Some (r2, a2) -> mails_ok kMaxNumMailsProcessedOnce a2).
Fixpoint process_ok (n : nat) (a : Agent) : Prop :=
  match n with
  | O => True
  | S n => turn_ok a /\ forall r1 a1 r2 a2 r3 a3, CheckEvents_ conf a = Some (r1, a1) -> CleanTimeouts_ conf a1 = Some (r2, a2) ->
      CheckMailbox_ conf a2 = Some (r3, a3) -> r1 || r2 || r3 = true -> process_ok n a3
  end.

(** The shape of a turn: a wait, the events in their order, a sweep, and mails,
    each received, handled and consumed, up to the limit or until there is none. *)
Inductive mails : nat -> list op -> Prop :=
| mails_full : mails 0 []
| mails_none n : mails (S n) [OReceive None]
| mails_one n m alive tr : mails n tr -> mails (S n) (OReceive (Some m) :: OHandle m alive :: OConsume :: tr).
Definition turn (tr : list op) : Prop := exists r b ms, mails kMaxNumMailsProcessedOnce ms /\
  tr = OWait r :: (OEvent <$> seq 0 (Z.to_nat r)) ++ OSweep b :: ms.
(** A turn in which nothing happened. *)
Definition idle_turn (tr : list op) : Prop := exists r, r <= 0 /\ tr = [OWait r; OSweep false; OReceive None].

Lemma run_app a tr b tr' c : run a tr b -> run b tr' c -> run a (tr ++ tr') c.
Proof. induction 1 as [|? ? ? ? ? H _ IH]; intros R; [done|]. cbn. econstructor; eauto. Qed.

Lemma events_run n : forall i a a', events_ok n i a -> CheckEvents_loop conf n i a = Some ((), a') -> run a (OEvent <$> seq i n) a'.
Proof.
  induction n as [|n IH]; intros i a a' Ok E; cbn [CheckEvents_loop events_ok] in *; [injection E as <-; constructor|].
  step E as [] a1 E1. destruct Ok as [Rd Ok]. cbn. eapply run_cons; [by eapply step_event|]. by eapply IH, E; apply Ok.
Qed.
Lemma CheckEvents_run b a a' : turn_ok a -> CheckEvents_ conf a = Some (b, a') ->
  exists r, b = (0 <? r) /\ run a (OWait r :: (OEvent <$> seq 0 (Z.to_nat r))) a'.
Proof.
  intros [Ok _] E. unfold CheckEvents_ in E. step E as k a1 E1. exists k. specialize (Ok _ _ E1). destruct (Z.ltb_spec 0 k) as [Hk|Hk].
  - step E as [] a2 E2. injection E as <- <-. split; [done|]. eapply run_cons; [by eapply step_wait|]. by eapply events_run.
  - injection E as <- <-. split; [done|]. rewrite Z2Nat.nonpos by done. eapply run_cons; [by eapply step_wait|constructor].
Qed.
Lemma mails_run n : forall k r a a', mails_ok n a -> CheckMailbox_loop conf n k a = Some (r, a') ->
  exists ms, mails n ms /\ run a ms a' /\ (k <= r)%nat /\ (r = k -> n <> 0%nat -> ms = [OReceive None]).
Proof.
  induction n as [|n IH]; intros k r a a' Ok E; cbn [CheckMailbox_loop mails_ok] in *.
  { injection E as <- <-. exists []. split_and!; [constructor..|lia|done]. }
  step E as m a1 E1. destruct m as [m|].
  2: { injection E as <- <-. exists [OReceive None]. split_and!; [constructor| |lia|done]. eapply run_cons; [by apply step_receive|constructor]. }
  destruct (Ok m a1 E1) as [[alive Mo] Ok']. step E as [] a2 E2. step E as [] a3 E3.
  destruct (IH (S k) r a3 a') as (ms & Ms & R & Le & _); [by eapply Ok'|done|].
  exists (OReceive (Some m) :: OHandle m alive :: OConsume :: ms). split_and!; [by constructor| |lia|lia].
  eapply run_cons; [by apply step_receive|]. eapply run_cons; [by apply step_handle|]. eapply run_cons; [by apply step_consume|done].
Qed.
Lemma turn_run r1 r2 r3 a a1 a2 a3 : turn_ok a -> CheckEvents_ conf a = Some (r1, a1) -> CleanTimeouts_ conf a1 = Some (r2, a2) ->
  CheckMailbox_ conf a2 = Some (r3, a3) -> exists tr, turn tr /\ run a tr a3 /\ (r1 || r2 || r3 = false -> idle_turn tr).
Proof.
  intros Tk E1 E2 E3. destruct (CheckEvents_run r1 a a1 Tk E1) as (r & -> & R1). pose proof (proj2 Tk _ _ _ _ E1 E2) as Mo.
  unfold CheckMailbox_ in E3. step E3 as k a4 E4. injection E3 as <- <-. destruct (mails_run _ _ _ _ _ Mo E4) as (ms & Ms & R3 & _ & Nm).
  exists (OWait r :: (OEvent <$> seq 0 (Z.to_nat r)) ++ OSweep r2 :: ms). split_and!; [by exists r, r2, ms| |].
  - apply (run_app a (OWait r :: (OEvent <$> seq 0 (Z.to_nat r))) a1); [done|]. eapply run_cons; [by apply step_sweep|done].
  - intros [[Hr ->]%orb_false_elim Hm]%orb_false_elim. apply Z.ltb_ge in Hr. exists r. split; [done|]. rewrite Z2Nat.nonpos by done.
    rewrite Nm; [done|by destruct k|done].
Qed.
Lemma process_run n : forall a a', process_ok n a -> Process_loop conf n a = Some ((), a') ->
  exists turns last, Forall turn turns /\ idle_turn last /\ run a (concat turns ++ last) a'.
Proof.
  induction n as [|n IH]; intros a a' Ok E; cbn [Process_loop process_ok] in *; [done|]. destruct Ok as [Tk Ok].
  step E as r1 a1 E1. step E as r2 a2 E2. step E as r3 a3 E3. destruct (turn_run _ _ _ _ _ _ _ Tk E1 E2 E3) as (tr & T & R & Id).
  destruct (r1 || r2 || r3) eqn:Go.
  - destruct (IH a3 a') as (turns & last & Ts & Il & R'); [by eapply Ok|done|]. exists (tr :: turns), last.
    split_and!; [by constructor|done|]. cbn. rewrite <- app_assoc. by eapply run_app.
  - injection E as <-. exists [], tr. split_and!; [constructor|auto|exact R].
Qed.

(** C4: a call of [Process_] is a run with the shape of the loop: turns, each a
    wait, the events that are ready in their order, a sweep of the timeouts, and
    mails, each received, handled and consumed before the next; the last turn,
    and only then the call returns, finds no event, no timeout and no mail.  The
    sessions started are answered exactly once, still wait, or are [lost], as in
    any run.  [process_ok] asks of the others, at each state in which the loop
    relies on it, that an event that is ready is that of a descriptor that waits
    or of the pipe that wakes the agent, and that a mail is one the program
    sends. *)
Theorem process_conserves act a a' : conf_timeo conf -> agent_inv [] [] act a -> (forall s, s ∈ act -> 0 < waits a s) ->
  process_ok Protocol.fuel a -> Process_ conf a = Some ((), a') -> exists turns last act',
    Forall turn turns /\ idle_turn last /\ run a (concat turns ++ last) a' /\ agent_inv [] [] act' a' /\
    (forall s, s ∈ act' -> 0 < waits a' s) /\
    accounts act' a' ++ (addressee <$> lost (concat turns)) ≡ₚ accounts act a ++ (addressee <$> new (concat turns)).
Proof using All.
  intros Cf Inv Wp Ok E. apply process_run in E as (turns & last & Ts & Il & R); [|done].
  destruct (run_settled a _ a' Cf R act Inv) as [act' [I U Ac _]]; [by apply undone_all|]. exists turns, last, act'.
  split_and!; [done|done|done|done|by apply undone_all|]. destruct Il as (r & _ & ->). unfold lost, new in Ac.
  rewrite !bind_app in Ac. cbn in Ac. by rewrite !app_nil_r in Ac.
Qed.
End Runs.
Arguments op : clear implicits.
End Runs.
