(* ===== verification/Startup.v ===== *)
(** * Startup: an agent is set up

    Models the constructor and [Init] of src/src/agents/details/agent_slave.cpp
    on top of the components: the connection manager with a pool per configured
    remote, the pools of contexts and sessions, the mailbox.  The state that
    [Init] builds satisfies the invariant of Answers.v from the first wait on,
    so that the theorem about runs holds for the whole life of an agent. *)

From Stdlib Require Import ZArith Lia.
From stdpp Require Import base list gmap numbers option.
From S2P Require Import Prelude Hashmap Os Protocol Rapid Redis IOHelper Model ConnsMgr EventsDriver PoolObjs Protocols Fds Confs EventCtx Msg Session AgentSlave SessionLaws SessionEvents Answers Timeouts Clients Runs.
Import Os Buffer Model.

(** [mailbox_.Init(size, max_size_msg, threshold, notifier)]. *)
Class MailboxSetup (W : Type) : Type := {
  mailbox_Init : Z -> Z -> Z -> W -> bool * W;
}.
(** Sizes the compiler chooses. *)
Class Layout : Type := { sizeof_EventCtx : nat; sizeof_Session : nat; sizeof_BizProcedure : nat; layout_pos : (0 < sizeof_EventCtx)%nat /\ (0 < sizeof_Session)%nat }.

Module Startup.
Import Session Inert Fds AgentSlave SessionLaws SessionEvents Answers Timeouts Clients Runs.
Definition kThreholdSenderNotify : Z := 3.

Section Slave.
Context {W Q : Type} `{NI : !NetIO W, SK : !Sock W, CK : !Clock W, EP : !Epoll W, PE : !Peers W, TQ : !TimeoutQueue Q,
  MS : !MailboxSetup W, LA : !Layout} {FU : Protocol.Fuel}.
Context (conf : Confs.ConfNormal).

(** [AgentSlave()] and [Init]; the queue of timeouts is a member of the driver.
    The vectors of talks and the protocol objects are shared with the other
    threads.  No agent is left when the mailbox cannot be made.  [slots] and
    [block] are the sizes of the map of connections and of a block of a pool. *)
Definition built (block : nat) (q : Q) (m : ConnsMgr.ConnsMgr) (tv : gmap Z (list Talk)) (p : Protocols.Protos) (w : W) : Session.Agent W Q :=
  {| events_driver_ := EventsDriver.EventsDriver_new false q;
     conns_mgr_ := m;
     event_ctxs := Store.nothing;
     pool_event_ctxs_ := PoolObjs.PoolObjs_new EventCtx.EventCtx_new sizeof_EventCtx 0 block true true PoolObjs.kDefaultMaxNumBlocks;
     sessions := Store.nothing;
     pool_sessions_ := PoolObjs.PoolObjs_new Session_new sizeof_Session 0 block true true PoolObjs.kDefaultMaxNumBlocks;
     talk_vectors := tv; protos := p; num_clients_keepalive_ := 0; world := w |}.
Definition setup (slots block : nat) (q : Q) (remotes : list Remote) (tv : gmap Z (list Talk)) (p : Protocols.Protos) : M W (option (Session.Agent W Q)) :=
  m ← deref (ConnsMgr.ConnsMgr_new (Confs.long_conn_keepalive_sec_ conf) slots);
  m ← deref (ConnsMgr.ConfigRemotes m remotes);
  ret ← call (mailbox_Init (Confs.size_scheduler_mailbox_ conf) Msg.kMaxSizeMsg kThreholdSenderNotify);
  if negb ret then mret None else w ← gets id; mret (Some (built block q m tv p w)).
Definition Init (q : Q) (remotes : list Remote) (tv : gmap Z (list Talk)) (p : Protocols.Protos) : M W (option (Session.Agent W Q)) :=
  setup (kNumRemotes * 100)%nat PoolObjs.kDefaultMemPerBlock q remotes tv p.

Context `{TQL : !TimeoutQueueLaws Q, RD : !Rand, MA : !Malloc, OS : !OpenSpec W, AN : !AnswerSpec W, PS : !PeerSpec W}.

Lemma new_pool_valid {Obj} (o : Obj) size block : (0 < size)%nat -> (0 < block)%nat ->
  PoolObjs.valid (PoolObjs.PoolObjs_new o size 0 block true true PoolObjs.kDefaultMaxNumBlocks) [].
Proof.
  intros Hs Hb. split; [right; split; [|done]|done|done]. repeat (split; [done|]). cbn [PoolObjs.num_objs_per_block_ PoolObjs.PoolObjs_new].
  apply Nat.div_str_pos. lia.
Qed.

Lemma ConnsMgr_new_fresh k n m : ConnsMgr.ConnsMgr_new k n = Some m -> ConnsMgr.pools m = ∅ /\ ConnsMgr.tmp_remotes_ m = [].
Proof. unfold ConnsMgr.ConnsMgr_new. destruct (Hashmap.Init n); [|done]. by intros [= <-]. Qed.

(** Sizes at which the map of connections works. *)
Definition slots_ok (n : Z) : bool :=
  forallb (fun p => negb (n mod p =? 0)) Hashmap.kPrimes && forallb (fun p => Z.gcd p n =? 1) Hashmap.kPrimes.
Lemma real_slots : slots_ok (Z.of_nat (kNumRemotes * 100)) = true.
Proof. rewrite Nat2Z.inj_mul. vm_compute. reflexivity. Qed.
Lemma conns_ready k slots remotes : slots_ok (Z.of_nat slots) = true -> (length remotes <= slots)%nat ->
  exists m0 m, ConnsMgr.ConnsMgr_new k slots = Some m0 /\ ConnsMgr.ConfigRemotes m0 remotes = Some m /\
    forall r, ConnsMgr.mark_of m r = if ConnsMgr.set_mem remotes r then Some Pool.kFullMarkHealth else None.
Proof.
  intros [F G]%andb_prop Hl. destruct (ConnsMgr.ConnsMgr_new k slots) as [m0|] eqn:E0.
  2: { unfold ConnsMgr.ConnsMgr_new, Hashmap.Init in E0. by rewrite F in E0. }
  destruct (ConnsMgr.ConnsMgr_new_wf k slots m0 E0) as [Wf Mk]. unfold ConnsMgr.ConnsMgr_new, Hashmap.Init in E0. rewrite F in E0. injection E0 as E0.
  destruct (ConnsMgr.ConfigRemotes_spec m0 remotes Wf) as (m & E & _ & Mk').
  - subst m0. unfold Hashmap.coprime_steps, Hashmap.size_array_. cbn [ConnsMgr.conns_ Hashmap.items_]. rewrite length_replicate.
    apply list.Forall_forall. intros p Hp. rewrite forallb_forall in G. apply Z.eqb_eq, G. by apply list_elem_of_In.
  - subst m0. unfold Hashmap.free. cbn [ConnsMgr.conns_ Hashmap.items_]. by rewrite Hashmap.empties_replicate.
  - exists m0, m. split_and!; [done|done|]. intros r. rewrite Mk', Mk. done.
Qed.

(** The first wait initialises the driver. *)
Definition initialised (d : EventsDriver.EventsDriver Q) (fd : Z) : EventsDriver.EventsDriver Q :=
  {| EventsDriver.event_in_ := EventsDriver.event_in_ d; EventsDriver.event_out_ := EventsDriver.event_out_ d; EventsDriver.fd_epoll_ := fd;
     EventsDriver.events_ready_ := EventsDriver.events_ready_ d; EventsDriver.heap_timeo_ := EventsDriver.heap_timeo_ d;
     EventsDriver.fd_to_event_ctx_ := EventsDriver.fd_to_event_ctx_ d; EventsDriver.init_ := true |}.
Lemma Wait_first timeo r (a a' : Session.Agent W Q) : EventsDriver.init_ (events_driver_ a) = false ->
  on_driver (fun d => EventsDriver.Wait d timeo) a = Some (r, a') -> r = -1 \/
  exists fd w, epoll_create (world a) = (fd, w) /\
    on_driver (fun d => EventsDriver.Wait d timeo) (set_driver (initialised (events_driver_ a) fd) w a) = Some (r, a').
Proof.
  intros Ni (d & w & E & ->)%driver_inv. unfold EventsDriver.Wait in E. step E as [ok d1] w1 E1. unfold EventsDriver.raii in E1. rewrite Ni in E1.
  unfold EventsDriver.Init_ in E1. step E1 as fd w2 E2. injection E1 as <- <- <-. injection E2 as E2. destruct (fd <=? 0) eqn:Hf; cbn [negb] in E.
  - injection E as <- _ _. by left.
  - right. exists fd, w2. split; [done|]. unfold on_driver, EventsDriver.Wait. cbn [events_driver_ set_driver world].
    rewrite (bind_run _ _ _ (true, initialised (events_driver_ a) fd) w2) by done. cbn [negb]. unfold initialised. by rewrite E.
Qed.

Lemma setup_ready slots block q remotes tv p w w' timeo r a a' : (0 < block)%nat -> q_ok q -> q_live q = ∅ ->
  setup slots block q remotes tv p w = Some (Some a, w') ->
  on_driver (fun d => EventsDriver.Wait d timeo) a = Some (r, a') -> 0 <= r -> agent_inv [] [] [] a'.
Proof.
  intros Hb Qo Ql E Ew Hr. unfold setup in E. step E as m0 w1 E1. apply deref_inv in E1 as [M0 ->]. apply ConnsMgr_new_fresh in M0 as [Mp Mt].
  step E as m w1 E1. apply deref_inv in E1 as [M1 ->]. step E as ok w1 E1. destruct ok; [|done]. cbn [negb] in E. step E as w2 w3 E2.
  injection E2 as -> ->. injection E as <- ->. apply Wait_first in Ew as [->|(fd & w2 & _ & Ew)]; [lia| |done]. cbn [events_driver_ built] in Ew.
  eapply (Wait_inv [] timeo r) in Ew as [Inv _]; [done|]. set (d := initialised _ fd) in *.
  assert (EventsDriver.drv_ok d) as Dk.
  { split; [done|done|by intros i s|]. cbn. intros h e. by rewrite Ql. }
  assert (forall f, ~ live_fd d f) as Nl by (intros f (sl & S & _); apply EventsDriver.slot_Some in S as [_ S]; done).
  match goal with |- agent_inv _ _ _ ?b => set (a1 := b); set (a0 := set_conns m0 w2 b) end. destruct layout_pos.
  assert (agent_inv [] [] [] a0) as Inv0 by (by apply fresh_inv; try done; apply new_pool_valid).
  change (agent_inv [] [] [] (set_conns m w2 a0)). pose proof (ao_fds _ _ (inv_ok _ _ _ Inv0)) as Fo. apply inv_conns; [done|].
  eapply fds_ok_fewer; [exact Fo|]. eapply ConfigRemotes_fewer; [apply Fo|exact M1].
Qed.

Lemma setup_run slots block q remotes tv p w : slots_ok (Z.of_nat slots) = true -> (length remotes <= slots)%nat ->
  let '(ok, w') := mailbox_Init (Confs.size_scheduler_mailbox_ conf) Msg.kMaxSizeMsg kThreholdSenderNotify w in
  exists m, setup slots block q remotes tv p w = Some (if ok then Some (built block q m tv p w') else None, w') /\
    forall r, ConnsMgr.mark_of m r = if ConnsMgr.set_mem remotes r then Some Pool.kFullMarkHealth else None.
Proof.
  intros So Hl. destruct (conns_ready (Confs.long_conn_keepalive_sec_ conf) slots remotes So Hl) as (m0 & m & E0 & E & Mk).
  destruct (mailbox_Init _ _ _ w) as [ok w'] eqn:Em. exists m. split; [|done]. unfold setup. mderef E0. mderef E. mcall Em. by destruct ok.
Qed.

Lemma block_pos : (0 < PoolObjs.kDefaultMemPerBlock)%nat.
Proof. apply Nat.neq_0_lt_0, Nat.pow_nonzero. discriminate. Qed.
Lemma remotes_fit : (kNumRemotes <= kNumRemotes * 100)%nat.
Proof. apply Nat.le_mul_r. discriminate. Qed.

(** C5: with no more remotes than the limit, [Init] always returns.  It returns
    an agent exactly when the mailbox could be made; the agent then has a
    healthy pool for each remote and for nothing else, and as soon as the first
    wait has succeeded its state satisfies the invariant of agents, without any
    session. *)
Theorem slave_ready q remotes tv p w : (length remotes <= kNumRemotes)%nat -> q_ok q -> q_live q = ∅ ->
  let '(ok, w') := mailbox_Init (Confs.size_scheduler_mailbox_ conf) Msg.kMaxSizeMsg kThreholdSenderNotify w in
  exists m, Init q remotes tv p w = Some (if ok then Some (built PoolObjs.kDefaultMemPerBlock q m tv p w') else None, w') /\
    (forall r, ConnsMgr.mark_of m r = if ConnsMgr.set_mem remotes r then Some Pool.kFullMarkHealth else None) /\
    forall a timeo r a', Init q remotes tv p w = Some (Some a, w') ->
      on_driver (fun d => EventsDriver.Wait d timeo) a = Some (r, a') -> 0 <= r -> agent_inv [] [] [] a'.
Proof using All.
  intros Hl Qo Ql. pose proof (setup_run _ PoolObjs.kDefaultMemPerBlock q remotes tv p w real_slots (Nat.le_trans _ _ _ Hl remotes_fit)) as S.
  destruct (mailbox_Init _ _ _ w) as [ok w']. destruct S as (m & E & Mk). exists m. split; [exact E|]. split; [exact Mk|]. clear E.
  intros a timeo r a'. exact (setup_ready _ _ q remotes tv p w w' timeo r a a' block_pos Qo Ql).
Qed.

(** The configured timeouts fit the [int] of the driver; [Init] only refuses
    negative ones. *)
Definition timeouts_fit : Prop := Z.max (Confs.cn_ctimeo_ms conf) (Z.max (Confs.cn_rtimeo_ms conf) (Confs.cn_wtimeo_ms conf)) < 2 ^ 31.

Lemma setup_life `{IA : !Confs.InetAddr} slots block j addr q remotes tv p w w' timeo r a a1 tr a2 : (0 < block)%nat ->
  Confs.ConfNormal_Init j addr = Some conf -> timeouts_fit -> q_ok q -> q_live q = ∅ -> setup slots block q remotes tv p w = Some (Some a, w') ->
  on_driver (fun d => EventsDriver.Wait d timeo) a = Some (r, a1) -> 0 <= r -> run conf a1 tr a2 ->
  exists act, agent_inv [] [] act a2 /\ (forall s, s ∈ act -> 0 < waits a2 s) /\
    (addressee <$> answered (world a2)) ++ owed act a2 ++ (addressee <$> lost tr) ≡ₚ (addressee <$> answered (world a1)) ++ (addressee <$> new tr).
Proof.
  intros Hb Cn Tf Qo Ql E Ew Hr R. apply Confs.ConfNormal_Init_ok in Cn as (_ & _ & C1 & C2 & C3 & _).
  pose proof (setup_ready _ _ q remotes tv p w w' timeo r a a1 Hb Qo Ql E Ew Hr) as Inv.
  destruct (run_settled conf a1 tr a2) with (act := [] : list Z) as [act [I U Ac]]; [|done|done|by intros s []%not_elem_of_nil|].
  { unfold timeouts_fit in Tf. unfold conf_timeo. lia. }
  exists act. split_and!; [done|by apply undone_all|]. unfold accounts in Ac. rewrite <- app_assoc in Ac. rewrite Ac. unfold owed. cbn. by rewrite app_nil_r.
Qed.

(** C3: from an accepted configuration on, an agent that was set up answers
    exactly the sessions that were started: in any run after the first
    successful wait, the answers sent, the answers still owed to sessions that
    wait and the sessions that were handed over dead (a single talk with a
    negative descriptor and no error) are, one for one, the answers sent before
    and the sessions started in the run.  The configured timeouts fit 31 bits,
    and the others behave as in [run]. *)
Theorem life_conserves `{IA : !Confs.InetAddr} j addr q remotes tv p w w' timeo r a a1 tr a2 : Confs.ConfNormal_Init j addr = Some conf ->
  timeouts_fit -> q_ok q -> q_live q = ∅ -> Init q remotes tv p w = Some (Some a, w') ->
  on_driver (fun d => EventsDriver.Wait d timeo) a = Some (r, a1) -> 0 <= r -> run conf a1 tr a2 ->
  exists act, agent_inv [] [] act a2 /\ (forall s, s ∈ act -> 0 < waits a2 s) /\
    (addressee <$> answered (world a2)) ++ owed act a2 ++ (addressee <$> lost tr) ≡ₚ (addressee <$> answered (world a1)) ++ (addressee <$> new tr).
Proof using All. exact (setup_life _ _ j addr q remotes tv p w w' timeo r a a1 tr a2 block_pos). Qed.
End Slave.
End Startup.
