(* ===== verification/IOBasic.v ===== *)
(** * IOBasic: what a business procedure calls

    Models src/src/biz_procedure.h, details/biz_procedure.cpp,
    src/src/io_basic/details/io_basic.cpp on the state of a scheduler thread.  A procedure
    prepares a vector of talks, sends it to an agent and gives up the
    processor with [swapcontext]; when it runs again the talks have been
    finished by the agent.  [swapcontext] is an argument: what the other
    coroutines and threads do until this one is resumed. *)

From Stdlib Require Import ZArith Lia String.
From stdpp Require Import base list gmap strings numbers option.
From S2P Require Import Prelude Os Protocol Rapid Redis IOHelper Model ConnsMgr PoolObjs Protocols Confs EventCtx Msg Session.
Import Os Buffer Model.

(** [Agents::SendMsg] for the mailbox of an agent. *)
Class AgentMail (W : Type) : Type := { agents_SendMsg : Z -> Msg.Msg -> W -> bool * W }.

Module BizProcedure.

Record BizProcedure := mkBiz {
  id_procedure_ : Z;
  fd_client_ : Z;
  fd_client_starttime_sec_ : Z;
  protocol_read_ : option ptr;
  service_cache_ : list (Z * Msg.CachedFd);
  tmp_pool_talks_ : list ptr;
  pool_talks_ : PoolObjs.PoolObjs (list Talk);
  msg_session_ : option Msg.MsgSession;
  write_back_called_ : bool;
}.

Section Biz.
Context {W : Type} `{CK : !Clock W, AM : !AgentMail W, MA : !Malloc} {FU : Protocol.Fuel}.

(** The state of a scheduler thread: its procedures, the vectors of talks, the
    protocol objects and the world. *)
Record Thread := mkThread {
  procs : Store.Store BizProcedure;
  vectors : Store.Store (list Talk);
  t_protos : Protocols.Protos;
  t_world : W;
}.

Definition load (b : ptr) : M Thread BizProcedure := s ← gets id; deref (Store.load (procs s) b).
Definition store (b : ptr) (x : BizProcedure) : M Thread () :=
  modify (fun s => {| procs := Store.store b x (procs s); vectors := vectors s; t_protos := t_protos s; t_world := t_world s |}).
Definition load_vec (v : ptr) : M Thread (list Talk) := s ← gets id; deref (Store.load (vectors s) v).
Definition store_vec (v : ptr) (l : list Talk) : M Thread () :=
  modify (fun s => {| procs := procs s; vectors := Store.store v l (vectors s); t_protos := t_protos s; t_world := t_world s |}).
Definition on_world {A} (m : M W A) : M Thread A :=
  zoom t_world (fun w s => {| procs := procs s; vectors := vectors s; t_protos := t_protos s; t_world := w |}) m.
Definition on_vectors {A} (m : M (Store.Store (list Talk)) A) : M Thread A :=
  zoom vectors (fun v s => {| procs := procs s; vectors := v; t_protos := t_protos s; t_world := t_world s |}) m.
Definition on_protos {A} (m : M Protocols.Protos A) : M Thread A :=
  zoom t_protos (fun p s => {| procs := procs s; vectors := vectors s; t_protos := p; t_world := t_world s |}) m.
Definition on_both {A} (m : M (Protocols.Protos * W) A) : M Thread A :=
  zoom (fun s => (t_protos s, t_world s))
    (fun p s => {| procs := procs s; vectors := vectors s; t_protos := p.1; t_world := p.2 |}) m.

(** [Init_]: [PoolTalks(1, 1024, false, true, 1)]; a vector takes 24 bytes. *)
Definition new_pool_talks : PoolObjs.PoolObjs (list Talk) := PoolObjs.PoolObjs_new [] 24 1 1024 false true 1.
Definition Biz_new : BizProcedure :=
  {| id_procedure_ := 0; fd_client_ := 0; fd_client_starttime_sec_ := 0; protocol_read_ := None;
     service_cache_ := []; tmp_pool_talks_ := []; pool_talks_ := new_pool_talks; msg_session_ := None;
     write_back_called_ := false |}.

(** [Procedure]: the request is attached to the procedure. *)
Definition Procedure (b : ptr) (m : Msg.MsgNewReq) : M Thread () :=
  x ← load b;
  store b {| id_procedure_ := Msg.nr_id_procedure m; fd_client_ := Msg.nr_fd_client m;
             fd_client_starttime_sec_ := Msg.nr_fd_client_starttime_sec m;
             protocol_read_ := Msg.nr_protocol_read m; service_cache_ := service_cache_ x;
             tmp_pool_talks_ := tmp_pool_talks_ x; pool_talks_ := pool_talks_ x; msg_session_ := msg_session_ x;
             write_back_called_ := write_back_called_ x |}.

Definition set_cache (x : BizProcedure) (c : list (Z * Msg.CachedFd)) : BizProcedure :=
  {| id_procedure_ := id_procedure_ x; fd_client_ := fd_client_ x;
     fd_client_starttime_sec_ := fd_client_starttime_sec_ x; protocol_read_ := protocol_read_ x;
     service_cache_ := c; tmp_pool_talks_ := tmp_pool_talks_ x; pool_talks_ := pool_talks_ x;
     msg_session_ := msg_session_ x; write_back_called_ := write_back_called_ x |}.
Definition set_pool (x : BizProcedure) (tmp : list ptr) (p : PoolObjs.PoolObjs (list Talk)) : BizProcedure :=
  {| id_procedure_ := id_procedure_ x; fd_client_ := fd_client_ x;
     fd_client_starttime_sec_ := fd_client_starttime_sec_ x; protocol_read_ := protocol_read_ x;
     service_cache_ := service_cache_ x; tmp_pool_talks_ := tmp; pool_talks_ := p;
     msg_session_ := msg_session_ x; write_back_called_ := write_back_called_ x |}.
Definition set_client (x : BizProcedure) (fd : Z) (wb : bool) : BizProcedure :=
  {| id_procedure_ := id_procedure_ x; fd_client_ := fd;
     fd_client_starttime_sec_ := fd_client_starttime_sec_ x; protocol_read_ := protocol_read_ x;
     service_cache_ := service_cache_ x; tmp_pool_talks_ := tmp_pool_talks_ x; pool_talks_ := pool_talks_ x;
     msg_session_ := msg_session_ x; write_back_called_ := wb |}.
Definition set_msg_session (x : BizProcedure) (m : Msg.MsgSession) : BizProcedure :=
  {| id_procedure_ := id_procedure_ x; fd_client_ := fd_client_ x;
     fd_client_starttime_sec_ := fd_client_starttime_sec_ x; protocol_read_ := protocol_read_ x;
     service_cache_ := service_cache_ x; tmp_pool_talks_ := tmp_pool_talks_ x; pool_talks_ := pool_talks_ x;
     msg_session_ := Some m; write_back_called_ := write_back_called_ x |}.
Definition SetMsgSession (b : ptr) (m : Msg.MsgSession) : M Thread () :=
  x ← load b; store b (set_msg_session x m).

Definition GetTalk (b : ptr) : M Thread ptr :=
  x ← load b;
  '(v, p) ← on_vectors (PoolObjs.Get (pool_talks_ x));
  v ← deref v;
  store b (set_pool x (tmp_pool_talks_ x ++ [v]) p);;
  mret v.

Fixpoint free_protocols (l : list Talk) : M Thread () :=
  match l with
  | [] => mret ()
  | t :: l =>
      match protocol_write t with Some p => on_protos (Protocols.FreeWrite p) | None => mret () end;;
      match protocol_read t with Some p => on_protos (Protocols.FreeRead p) | None => mret () end;;
      free_protocols l
  end.

Fixpoint FreeTalks_loop (b : ptr) (l : list ptr) : M Thread () :=
  match l with
  | [] => mret ()
  | v :: l =>
      talks ← load_vec v;
      free_protocols talks;;
      x ← load b;
      p ← on_vectors (PoolObjs.Free (pool_talks_ x) (Some v));
      store b (set_pool x (tmp_pool_talks_ x) p);;
      FreeTalks_loop b l
  end.
Definition FreeTalks (b : ptr) : M Thread () :=
  x ← load b;
  FreeTalks_loop b (tmp_pool_talks_ x);;
  x ← load b;
  store b (set_pool x [] (pool_talks_ x)).

(** ** The service cache: one idle connection per service *)

Fixpoint cache_find (no : Z) (c : list (Z * Msg.CachedFd)) : option Msg.CachedFd :=
  match c with
  | [] => None
  | (n, e) :: c => if n =? no then Some e else cache_find no c
  end.
Definition cache_erase (no : Z) (c : list (Z * Msg.CachedFd)) : list (Z * Msg.CachedFd) :=
  filter (fun e => e.1 <> no) c.
(** [insert] keeps an entry that is there. *)
Definition cache_insert (no : Z) (e : Msg.CachedFd) (c : list (Z * Msg.CachedFd)) : list (Z * Msg.CachedFd) :=
  match cache_find no c with Some _ => c | None => (no, e) :: c end.

(** The descriptor, 0 when there is none, and the remote. *)
Definition GetFdFromServiceCache (b : ptr) (s : Service) : M Thread (Z * option RemotePtr) :=
  x ← load b;
  match cache_find (no s) (service_cache_ x) with
  | None => mret (0, None)
  | Some (f, rp) =>
      store b (set_cache x (cache_erase (no s) (service_cache_ x)));;
      mret (f, Some rp)
  end.
Definition InsertFdIntoServiceCache (b : ptr) (s : Service) (f : Z) (rp : RemotePtr) : M Thread () :=
  x ← load b; store b (set_cache x (cache_insert (no s) (f, rp) (service_cache_ x))).
Definition InvalidFdInServiceCache (b : ptr) (s : Service) : M Thread () :=
  x ← load b; store b (set_cache x (cache_erase (no s) (service_cache_ x))).

(** [Agents::SendMsgWithRetry]. *)
Fixpoint SendMsgWithRetry (n : nat) (id : Z) (m : Msg.Msg) : M Thread () :=
  match n with
  | O => ub
  | S n =>
      ret ← on_world (call (agents_SendMsg id m));
      if (ret : bool) then mret () else SendMsgWithRetry n id m
  end.

(** [Reset_]: the agent gets the connections and the client back; an assertion
    requires the request. *)
Definition Reset_ (b : ptr) : M Thread () :=
  x ← load b;
  pr ← deref (protocol_read_ x);
  SendMsgWithRetry Protocol.fuel (id_procedure_ x)
    (Msg.Destruct (Msg.BuildForDestruct (id_procedure_ x) (fd_client_ x) (fd_client_starttime_sec_ x)
                     (Some pr) (snd <$> service_cache_ x)));;
  FreeTalks b;;
  x ← load b;
  store b (set_cache x []).

(** [Process_]: the request handler or the routine, then the clean-up.
    [FreeBizProcedure] returns the procedure to the pool of its scheduler. *)
Definition Process_ (is_req_scheduler : bool) (req_handler : ptr -> M Thread ()) (routine_handler : M Thread ())
    (FreeBizProcedure : ptr -> M Thread ()) (b : ptr) : M Thread () :=
  (if is_req_scheduler then
     x ← load b;
     pr ← deref (protocol_read_ x);
     req_handler pr;;
     Reset_ b
   else routine_handler);;
  FreeBizProcedure b.

End Biz.
Arguments Thread : clear implicits.
End BizProcedure.

Module IOBasic.
Import BizProcedure.
Section IOBasic.
Context {W : Type} `{CK : !Clock W, AM : !AgentMail W, MA : !Malloc} {FU : Protocol.Fuel}.
Context (swapcontext : ptr -> M (Thread W) ()).

(** [talks->resize(n)] on a vector that may have been used before. *)
Definition Talk_new : Talk :=
  {| no_talk := 0; category := kWriteOnly; service := None; buf := None; protocol_write := None;
     protocol_read := None; starttime_ms := 0; endtime_ms := 0; status := kStart; error := 0;
     fail_remotes := []; retry := 0; fd := 0; remote := None |}.
Definition resize (l : list Talk) (n : nat) : list Talk := take n l ++ replicate (n - length l) Talk_new.

Definition resize_vec (v : ptr) (n : nat) : M (Thread W) () := l ← load_vec v; store_vec v (resize l n).
Definition set_talk (v : ptr) (i : nat) (t : Talk) : M (Thread W) () :=
  l ← load_vec v;
  if decide (i < length l)%nat then store_vec v (<[i := t]> l) else ub.
Definition get_talk (v : ptr) (i : nat) : M (Thread W) Talk := l ← load_vec v; deref (l !! i).

(** [BuildForSession], [SendMsg] and [swapcontext]: true when the procedure was
    suspended and resumed. *)
Definition send_and_wait (b v : ptr) (timeo_ms : Z) : M (Thread W) bool :=
  x ← load b;
  ret ← on_world (call (agents_SendMsg (id_procedure_ x)
                          (Msg.Session (Msg.BuildForSession b b v timeo_ms ErrorNo.kOk))));
  if (ret : bool) then swapcontext b;; mret true else mret false.

(** [GetMsgSession()->error]. *)
Definition session_error (b : ptr) : M (Thread W) Z :=
  x ← load b; m ← deref (msg_session_ x); mret (Msg.ms_error m).

(** After a talk: its connection is kept for the service, or forgotten. *)
Definition keep_fd (b : ptr) (s : Service) (t : Talk) : M (Thread W) () :=
  if 0 <? fd t then rp ← deref (remote t); InsertFdIntoServiceCache b s (fd t) rp
  else InvalidFdInServiceCache b s.

(** ** Sets of services *)

Fixpoint AssignSet (b v : ptr) (cat : TalkCategory) (i : nat) (set : list Service)
    (bufs : nat -> option (option Protocol.Buf)) (timeo_ms : Z) : M (Thread W) () :=
  match set with
  | [] => mret ()
  | s :: set =>
      '(f, rp) ← GetFdFromServiceCache b s;
      buf ← deref (bufs i);
      t ← on_both (TalkOps.Assign i cat (Some s) (protocol_category s) buf timeo_ms f rp);
      set_talk v i t;;
      AssignSet b v cat (S i) set bufs timeo_ms
  end.

(** [bufs[i]]. *)
Definition buf_at (bufs : list (option Protocol.Buf)) (i : nat) : option (option Protocol.Buf) := bufs !! i.

(** [errors[i] = talk.error] on a vector whose memory was only reserved:
    undefined beyond its size. *)
Fixpoint CollectErrors (b v : ptr) (i : nat) (set : list Service) (errors : list Z) : M (Thread W) (list Z) :=
  match set with
  | [] => mret errors
  | _ :: set =>
      t ← get_talk v i;
      s ← deref (service t);
      keep_fd b s t;;
      if decide (i < length errors)%nat
      then CollectErrors b v (S i) set (<[i := error t]> errors)
      else ub
  end.

Fixpoint CollectResponses (b v : ptr) (i : nat) (set : list Service) : M (Thread W) (list (Z * option ptr)) :=
  match set with
  | [] => mret []
  | _ :: set =>
      t ← get_talk v i;
      s ← deref (service t);
      keep_fd b s t;;
      rs ← CollectResponses b v (S i) set;
      mret ((error t, protocol_read t) :: rs)
  end.

Definition WriteSet (b : ptr) (set : list Service) (bufs : list (option Protocol.Buf)) (timeo_ms : Z) (errors : list Z)
  : M (Thread W) (Z * list Z) :=
  v ← GetTalk b;
  resize_vec v (length set);;
  AssignSet b v kWriteOnly 0 set (buf_at bufs) timeo_ms;;
  ok ← send_and_wait b v timeo_ms;
  if negb ok then mret (ErrorNo.kQueueBusy, errors)
  else
    errors ← CollectErrors b v 0 set errors;
    ret ← session_error b;
    mret (ret, errors).

(** [None]: the responses are left as they were. *)
Definition ReadSet (b : ptr) (set : list Service) (timeo_ms : Z) : M (Thread W) (Z * option (list (Z * option ptr))) :=
  v ← GetTalk b;
  resize_vec v (length set);;
  AssignSet b v kReadOnly 0 set (fun _ => Some None) timeo_ms;;
  ok ← send_and_wait b v timeo_ms;
  if negb ok then mret (ErrorNo.kQueueBusy, None)
  else
    rs ← CollectResponses b v 0 set;
    ret ← session_error b;
    mret (ret, Some rs).

Definition Talks (b : ptr) (set : list Service) (bufs : list (option Protocol.Buf)) (timeo_ms : Z)
  : M (Thread W) (Z * option (list (Z * option ptr))) :=
  v ← GetTalk b;
  resize_vec v (length set);;
  AssignSet b v kWriteAndRead 0 set (buf_at bufs) timeo_ms;;
  ok ← send_and_wait b v timeo_ms;
  if negb ok then mret (ErrorNo.kQueueBusy, None)
  else
    rs ← CollectResponses b v 0 set;
    ret ← session_error b;
    mret (ret, Some rs).

(** ** One service *)

Definition AssignOne (b v : ptr) (cat : TalkCategory) (s : Service) (buf : option Protocol.Buf) (timeo_ms : Z)
    (f : Z) (rp : option RemotePtr) : M (Thread W) Talk :=
  resize_vec v 1;;
  t ← on_both (TalkOps.Assign 0 cat (Some s) (protocol_category s) buf timeo_ms f rp);
  set_talk v 0 t;;
  mret t.

Definition Write (b : ptr) (s : Service) (buf : Protocol.Buf) (timeo_ms : Z) : M (Thread W) Z :=
  '(f, rp) ← GetFdFromServiceCache b s;
  v ← GetTalk b;
  t ← AssignOne b v kWriteOnly s (Some buf) timeo_ms f rp;
  if negb (error t =? ErrorNo.kOk) then mret (error t)
  else
    ok ← send_and_wait b v timeo_ms;
    if negb ok then mret ErrorNo.kQueueBusy
    else
      t ← get_talk v 0;
      keep_fd b s t;;
      session_error b.

(** [None]: the response is left as it was, which is so on every error. *)
Definition Read (b : ptr) (s : Service) (timeo_ms : Z) : M (Thread W) (Z * option ptr) :=
  '(f, rp) ← GetFdFromServiceCache b s;
  v ← GetTalk b;
  t ← AssignOne b v kReadOnly s None timeo_ms f rp;
  ok ← send_and_wait b v timeo_ms;
  if negb ok then mret (ErrorNo.kQueueBusy, None)
  else
    t ← get_talk v 0;
    keep_fd b s t;;
    ret ← session_error b;
    mret (ret, if ret =? ErrorNo.kOk then protocol_read t else None).

Definition SimpleTalk (b : ptr) (s : Service) (buf : Protocol.Buf) (timeo_ms : Z) : M (Thread W) (Z * option ptr) :=
  '(f, rp) ← GetFdFromServiceCache b s;
  v ← GetTalk b;
  t ← AssignOne b v kWriteAndRead s (Some buf) timeo_ms f rp;
  if negb (error t =? ErrorNo.kOk) then mret (error t, None)
  else
    ok ← send_and_wait b v timeo_ms;
    if negb ok then mret (ErrorNo.kQueueBusy, None)
    else
      t ← get_talk v 0;
      keep_fd b s t;;
      ret ← session_error b;
      mret (ret, if ret =? ErrorNo.kOk then protocol_read t else None).

Definition WriteBack (b : ptr) (buf : Protocol.Buf) (timeo_ms : Z) : M (Thread W) Z :=
  x ← load b;
  store b (set_client x (fd_client_ x) true);;
  v ← GetTalk b;
  resize_vec v 1;;
  x ← load b;
  pr ← deref (protocol_read_ x);
  o ← on_protos (Protocols.load_read pr);
  t ← on_both (TalkOps.Assign 0 kWriteOnly None (Protocols.RCategory o) (Some buf) timeo_ms (fd_client_ x) None);
  set_talk v 0 t;;
  if negb (error t =? ErrorNo.kOk) then mret (error t)
  else
    ok ← send_and_wait b v timeo_ms;
    if negb ok then mret ErrorNo.kQueueBusy
    else
      t ← get_talk v 0;
      x ← load b;
      when (fd t <=? 0) (store b (set_client x (-1) (write_back_called_ x)));;
      session_error b.

(** ** Connections are kept *)

Definition put (b : ptr) (x : BizProcedure) (s : Thread W) : Thread W :=
  mkThread (Store.store b x (procs s)) (vectors s) (t_protos s) (t_world s).
Lemma load_run b x (s : Thread W) : Store.load (procs s) b = Some x -> BizProcedure.load b s = Some (x, s).
Proof. intros L. unfold BizProcedure.load. unfold mbind, M_bind. cbn. by rewrite L. Qed.
Lemma load_put b x (s : Thread W) : Store.load (procs (put b x s)) b = Some x.
Proof. apply Store.load_store. Qed.
Lemma put_put b x y (s : Thread W) : put b y (put b x s) = put b y s.
Proof. unfold put, Store.store. cbn. by rewrite insert_insert_eq. Qed.
Lemma put_same b x (s : Thread W) : Store.load (procs s) b = Some x -> put b x s = s.
Proof.
  destruct s as [[o n] v p w]. unfold put, Store.store, Store.load. cbn. intros L. by rewrite insert_id.
Qed.

Definition Cache : Type := list (Z * Msg.CachedFd).
(** The entry of a talk that still has its connection. *)
Definition kept (s : Service) (t : Talk) : Cache :=
  if 0 <? fd t then match remote t with Some rp => [(no s, (fd t, rp))] | None => [] end else [].
Lemma cache_find_app k c c' : cache_find k c = None -> cache_find k (c ++ c') = cache_find k c'.
Proof. induction c as [|[n e] c IH]; [done|]. cbn. destruct (n =? k); [done|exact IH]. Qed.
Lemma cache_find_kept k s t : k <> no s -> cache_find k (kept s t) = None.
Proof. intros N. unfold kept. destruct (0 <? fd t); [|done]. destruct (remote t); [|done]. cbn. by rewrite (proj2 (Z.eqb_neq _ _)) by done. Qed.
Lemma cache_erase_absent k c : cache_find k c = None -> cache_erase k c = c.
Proof.
  unfold cache_erase. induction c as [|[n e] c IH]; [done|]. cbn [cache_find]. destruct (Z.eqb_spec n k) as [|N]; [done|]. intros H.
  rewrite filter_cons_True by done. by rewrite IH.
Qed.

Lemma keep_fd_run b sv t x (s : Thread W) : Store.load (procs s) b = Some x -> (0 < fd t -> is_Some (remote t)) -> cache_find (no sv) (service_cache_ x) = None ->
  keep_fd b sv t s = Some ((), put b (set_cache x (kept sv t ++ service_cache_ x)) s).
Proof.
  intros L Hr Hc. unfold keep_fd, kept. destruct (Z.ltb_spec 0 (fd t)) as [Hf|Hf].
  - destruct (Hr Hf) as [rp ->]. assert (Some rp = Some rp) as R by done. mderef R. unfold InsertFdIntoServiceCache.
    rewrite (bind_run _ _ _ _ _ (load_run b x s L)). unfold cache_insert. by rewrite Hc.
  - unfold InvalidFdInServiceCache. rewrite (bind_run _ _ _ _ _ (load_run b x s L)). by rewrite cache_erase_absent.
Qed.

(** The vector of talks of a set after the agent has answered: one talk for each
    service, with a remote wherever there is a connection. *)
Definition answered_talks (set : list Service) (l : list Talk) : Prop :=
  Forall2 (fun sv t => service t = Some sv /\ (0 < fd t -> is_Some (remote t))) set l.

Lemma collect_run b v set : forall i (l : list Talk) x (s : Thread W), Store.load (procs s) b = Some x -> Store.load (vectors s) v = Some l ->
  answered_talks set (drop i l) -> NoDup (no <$> set) -> (forall sv, sv ∈ set -> cache_find (no sv) (service_cache_ x) = None) ->
  exists c, CollectResponses b v i set s = Some ((fun t => (error t, protocol_read t)) <$> drop i l, put b (set_cache x c) s) /\
    c ≡ₚ concat (zip_with kept set (drop i l)) ++ service_cache_ x.
Proof.
  induction set as [|sv set IH]; intros i l x s L Lv F N Hc; cbn [CollectResponses].
  - apply Forall2_nil_inv_l in F as ->. exists (service_cache_ x). split; [|done]. cbn. f_equal. f_equal. destruct x. by rewrite put_same.
  - apply Forall2_cons_inv_l in F as (t & l' & [Es Hr] & F & E). assert (l !! i = Some t) as Ht by (rewrite <- (Nat.add_0_r i), <- lookup_drop, E; done).
    assert (drop (S i) l = l') as El by (rewrite <- (Nat.add_1_r i), <- drop_drop, E; done). rewrite E. subst l'.
    assert (get_talk v i s = Some (t, s)) as Eg by (unfold get_talk, load_vec, mbind, M_bind; cbn; rewrite Lv; cbn; by rewrite Ht). mrun Eg. mderef Es.
    assert (cache_find (no sv) (service_cache_ x) = None) as Hn by (apply Hc, list_elem_of_here).
    rewrite (bind_run _ _ _ _ _ (keep_fd_run b sv t x s L Hr Hn)). set (x1 := set_cache x (kept sv t ++ service_cache_ x)). cbn [fmap list_fmap] in N.
    apply list.NoDup_cons in N as [Nn N]. destruct (IH (S i) l x1 (put b x1 s)) as (c & Ec & Pc); [apply load_put|exact Lv|exact F|exact N|..].
    + intros sv' Hs. cbn [service_cache_ x1 set_cache]. rewrite cache_find_app; [by apply Hc, list_elem_of_further|]. apply cache_find_kept.
      intros Eq. apply Nn. rewrite <- Eq. by apply list_elem_of_fmap_2.
    + mrun Ec. exists c. split; [by rewrite put_put|]. rewrite Pc. cbn [zip_with concat service_cache_ x1 set_cache].
      rewrite !(assoc_L (++)). f_equiv. apply Permutation_app_comm.
Qed.

(** C30: When the agent has answered the talks of a set of distinct services and
    the procedure runs again, the loop with which [Read] and [Talks] end reports
    the error and the response of every talk in the order of the set, never
    faults, and keeps the connection of every talk that still has one: the cache
    of the procedure then holds exactly these connections and the ones it held
    before, each once. *)
Theorem responses_keep_connections b v (set : list Service) (l : list Talk) x (s : Thread W)
    (Hb : Store.load (procs s) b = Some x) (Hv : Store.load (vectors s) v = Some l)
    (Ha : answered_talks set l) (Hn : NoDup (no <$> set))
    (Hc : forall sv, sv ∈ set -> cache_find (no sv) (service_cache_ x) = None) :
  exists c, CollectResponses b v 0 set s = Some ((fun t => (error t, protocol_read t)) <$> l, put b (set_cache x c) s) /\
    c ≡ₚ concat (zip_with kept set l) ++ service_cache_ x.
Proof using All. by destruct (collect_run b v set 0 l x s Hb Hv Ha Hn Hc) as (c & ? & ?); exists c. Qed.

End IOBasic.

(** ** Concrete inputs *)

#[local] Instance still_clock : Clock () := {| load_time w := (1000, w); store_time _ w := w; gettimeofday w := (1000, w) |}.
#[local] Instance full_mail : AgentMail () := {| agents_SendMsg _ _ w := (false, w) |}.
#[local] Instance still_malloc : Malloc := {| junk _ := Ascii.zero; has_room _ := true |}.
#[local] Instance still_fuel : Protocol.Fuel := {| Protocol.fuel := 5 |}.

Definition ex_remote (a : Z) : Remote := mkRemote (Protocol.mkAddr 2 a 80) 1 2 10 20 30.
Definition ex_service (n : Z) : Service := mkService n "svc" Protocol.kRapid kWeight [ex_remote n] 1 1.
Definition ex_talk (n f : Z) : Talk :=
  {| no_talk := 0; category := kWriteAndRead; service := Some (ex_service n); buf := None; protocol_write := None;
     protocol_read := Some (f + 100); starttime_ms := 0; endtime_ms := 0; status := kEnd;
     error := if 0 <? f then ErrorNo.kOk else ErrorNo.kBroken; fail_remotes := []; retry := 0; fd := f;
     remote := Some (InService (ex_remote n)) |}.
Definition ex_biz (c : Cache) : BizProcedure := set_cache Biz_new c.
Definition ex_thread (c : Cache) (l : list Talk) : Thread () :=
  mkThread (Store.mkStore {[1 := ex_biz c]} 2) (Store.mkStore {[1 := l]} 2) Protocols.Protos_new tt.

(** Three services; the connection of the second one broke. *)
Lemma responses_keep_connections_witness :
  exists c, CollectResponses 1 1 0 [ex_service 1; ex_service 2; ex_service 3]
      (ex_thread [(9, (40, InService (ex_remote 9)))] [ex_talk 1 11; ex_talk 2 (-1); ex_talk 3 13]) =
    Some ([(ErrorNo.kOk, Some 111); (ErrorNo.kBroken, Some 99); (ErrorNo.kOk, Some 113)],
          put 1 (set_cache (ex_biz [(9, (40, InService (ex_remote 9)))]) c)
            (ex_thread [(9, (40, InService (ex_remote 9)))] [ex_talk 1 11; ex_talk 2 (-1); ex_talk 3 13])) /\
    c ≡ₚ [(1, (11, InService (ex_remote 1))); (3, (13, InService (ex_remote 3))); (9, (40, InService (ex_remote 9)))].
Proof.
  apply (responses_keep_connections (fun _ => mret ()) 1 1 [ex_service 1; ex_service 2; ex_service 3]
    [ex_talk 1 11; ex_talk 2 (-1); ex_talk 3 13] (ex_biz [(9, (40, InService (ex_remote 9)))])).
  - reflexivity.
  - reflexivity.
  - repeat constructor; by eexists.
  - cbn. repeat constructor; set_solver.
  - intros sv Hs. repeat (apply elem_of_cons in Hs as [->|Hs]; [reflexivity|]). by apply not_elem_of_nil in Hs.
Defined.

(** A connection taken from the cache is lost when the mailbox is full: the call
    returns [kQueueBusy] and the descriptor, still open, is in no cache. *)
Example busy_loses_connection :
  match Read (fun _ => mret ()) 1 (ex_service 1) 50 (ex_thread [(1, (11, InService (ex_remote 1)))] []) with
  | Some (r, s) => r = (ErrorNo.kQueueBusy, None) /\ service_cache_ <$> Store.load (procs s) 1 = Some []
  | None => False
  end.
Proof. vm_compute. by split. Qed.

(** A set that names a service twice: the second connection is not kept. *)
Example repeated_service_loses_connection :
  match CollectResponses 1 1 0 [ex_service 1; ex_service 1] (ex_thread [] [ex_talk 1 11; ex_talk 1 12]) with
  | Some (_, s) => service_cache_ <$> Store.load (procs s) 1 = Some [(1, (11, InService (ex_remote 1)))]
  | None => False
  end.
Proof. vm_compute. reflexivity. Qed.

End IOBasic.
