(* ===== verification/Api.v ===== *)
(** * Api: the calls of a handler, from the public interface down

    Models the calls of src/src/details/magneto.cpp, src/src/magneto_base.h and
    the class [IOBasic] of src/src/io_basic/io_basic.h.  A handler calls
    [Magneto]; [MagnetoBase] looks the name up and takes the procedure that
    runs in the calling thread; [IOBasic] takes the [IOBasicTPD] of the thread,
    which is made on the first call, and which makes its message on its first
    use; the work is done by IOBasic.v.  The message is filled and sent before
    the procedure gives up the processor, so what matters of it is that it
    exists and belongs to one thread; memory for it is assumed to be there. *)

From Stdlib Require Import ZArith Lia String.
From stdpp Require Import base list gmap strings numbers option.
From S2P Require Import Prelude Os Protocol Rapid Redis IOHelper Model ConnsMgr PoolObjs ThreadPrivacy Protocols Confs EventCtx Msg Session IOBasic.
Import Os Buffer Model.

Module Api.
Import BizProcedure.
Abbreviation TP := ThreadPrivacy.ThreadPrivacy.

Record IOBasicTPD := mkTPD { tpd_init_ : bool; tmp_msg_session_ : option ptr }.
Definition IOBasicTPD_new : IOBasicTPD := mkTPD false None.

Section Api.
Context {W PW : Type} `{CK : !Clock W, AM : !AgentMail W, MA : !Malloc} {FU : Protocol.Fuel} `{LO : !LockOs PW, PO : !PrivacyOs PW}.
Context (swapcontext : ptr -> M (Thread W) ()).

(** The calling thread, the slots of [BizProcedure] and of [IOBasic], the
    object [IOBasic] copies, and the messages. *)
Record Api := mkApi {
  thread : Thread W;
  current_ : TP PW (option ptr);
  thread_privacy_ : TP PW IOBasicTPD;
  tmp_io_basic_ : option IOBasicTPD;
  messages : Store.Store Msg.MsgSession;
}.
Definition set_thread (x : Thread W) (s : Api) : Api := mkApi x (current_ s) (thread_privacy_ s) (tmp_io_basic_ s) (messages s).
Definition set_current (x : TP PW (option ptr)) (s : Api) : Api := mkApi (thread s) x (thread_privacy_ s) (tmp_io_basic_ s) (messages s).
Definition set_privacy (x : TP PW IOBasicTPD) (s : Api) : Api := mkApi (thread s) (current_ s) x (tmp_io_basic_ s) (messages s).
Definition set_messages (x : Store.Store Msg.MsgSession) (s : Api) : Api := mkApi (thread s) (current_ s) (thread_privacy_ s) (tmp_io_basic_ s) x.
Definition on_thread {A} (m : M (Thread W) A) : M Api A := zoom thread set_thread m.
Definition on_current {A} (m : M (TP PW (option ptr)) A) : M Api A := zoom current_ set_current m.
Definition on_privacy {A} (m : M (TP PW IOBasicTPD) A) : M Api A := zoom thread_privacy_ set_privacy m.

(** ** The procedure of a thread *)

Definition SetCurrentBizProcedure (t : Z) (b : ptr) : M Api bool :=
  '(slot, _) ← on_current (ThreadPrivacy.Get_default None t 0);
  match slot with
  | None => mret false
  | Some p => on_current (ThreadPrivacy.assign p (Some b));; mret true
  end.
(** A slot that was never set holds no procedure. *)
Definition GetCurrentBizProcedure (t : Z) : M Api (option ptr) :=
  '(slot, _) ← on_current (ThreadPrivacy.Get t 0 None);
  match slot with
  | None => mret None
  | Some p => s ← gets id; deref (Store.load (ThreadPrivacy.objs (current_ s)) p)
  end.

(** ** IOBasic *)

Definition IOBasic_Init : M Api bool :=
  modify (fun s => mkApi (thread s) (current_ s) (thread_privacy_ s) (Some IOBasicTPD_new) (messages s));; mret true.
(** [thread_privacy_.Get<IOBasicTPD>(0, *tmp_io_basic_)], which is used without
    a check. *)
Definition io_basic (t : Z) : M Api ptr :=
  s ← gets id;
  tpl ← deref (tmp_io_basic_ s);
  '(p, _) ← on_privacy (ThreadPrivacy.Get t 0 tpl);
  deref p.
(** [IOBasicTPD::Init_] under [XFC_RAII_INIT]; the calls then fill the message. *)
Definition tpd_raii (io : ptr) : M Api bool :=
  s ← gets id;
  x ← deref (Store.load (ThreadPrivacy.objs (thread_privacy_ s)) io);
  if tpd_init_ x then mret true
  else
    m ← zoom messages set_messages (Store.new (Msg.mkMsgSession 0 0 0 0 0));
    on_privacy (ThreadPrivacy.assign io (mkTPD true (Some m)));;
    mret true.
Definition tpd_call {A} (io : ptr) (other : A) (m : M (Thread W) A) : M Api A :=
  ok ← tpd_raii io;
  if negb ok then mret other
  else
    s ← gets id;
    x ← deref (Store.load (ThreadPrivacy.objs (thread_privacy_ s)) io);
    deref (tmp_msg_session_ x);;
    on_thread m.

Definition IOBasic_WriteSet (t : Z) (b : ptr) (set : list Service) (bufs : list (option Protocol.Buf)) (timeo_ms : Z) (errors : list Z)
  : M Api (Z * list Z) :=
  io ← io_basic t; tpd_call io (ErrorNo.kOther, errors) (IOBasic.WriteSet swapcontext b set bufs timeo_ms errors).
Definition IOBasic_ReadSet (t : Z) (b : ptr) (set : list Service) (timeo_ms : Z) : M Api (Z * option (list (Z * option ptr))) :=
  io ← io_basic t; tpd_call io (ErrorNo.kOther, None) (IOBasic.ReadSet swapcontext b set timeo_ms).
Definition IOBasic_Talks (t : Z) (b : ptr) (set : list Service) (bufs : list (option Protocol.Buf)) (timeo_ms : Z)
  : M Api (Z * option (list (Z * option ptr))) :=
  io ← io_basic t; tpd_call io (ErrorNo.kOther, None) (IOBasic.Talks swapcontext b set bufs timeo_ms).
Definition IOBasic_Write (t : Z) (b : ptr) (s : Service) (buf : Protocol.Buf) (timeo_ms : Z) : M Api Z :=
  io ← io_basic t; tpd_call io ErrorNo.kOther (IOBasic.Write swapcontext b s buf timeo_ms).
Definition IOBasic_Read (t : Z) (b : ptr) (s : Service) (timeo_ms : Z) : M Api (Z * option ptr) :=
  io ← io_basic t; tpd_call io (ErrorNo.kOther, None) (IOBasic.Read swapcontext b s timeo_ms).
Definition IOBasic_SimpleTalk (t : Z) (b : ptr) (s : Service) (buf : Protocol.Buf) (timeo_ms : Z) : M Api (Z * option ptr) :=
  io ← io_basic t; tpd_call io (ErrorNo.kOther, None) (IOBasic.SimpleTalk swapcontext b s buf timeo_ms).
Definition IOBasic_WriteBack (t : Z) (b : ptr) (buf : Protocol.Buf) (timeo_ms : Z) : M Api Z :=
  io ← io_basic t; tpd_call io ErrorNo.kOther (IOBasic.WriteBack swapcontext b buf timeo_ms).
(** [IOBasicTPD::FreeTalks] does not need the message. *)
Definition IOBasic_FreeTalks (t : Z) (b : ptr) : M Api () := io_basic t;; on_thread (FreeTalks b).

(** [~IOBasicTPD] and [~IOBasic]; the objects of the slots are deleted by
    [ThreadPrivacy]. *)
Definition IOBasicTPD_delete (x : IOBasicTPD) : M (Store.Store Msg.MsgSession) () :=
  match tmp_msg_session_ x with Some m => Store.free m | None => mret () end.
Definition IOBasic_delete : M Api () :=
  s ← gets id;
  match tmp_io_basic_ s with
  | Some x =>
      zoom messages set_messages (IOBasicTPD_delete x);;
      modify (fun s => mkApi (thread s) (current_ s) (thread_privacy_ s) None (messages s))
  | None => mret ()
  end.

(** ** MagnetoBase: the same calls by name *)

(** The latest services of [confs_], which is null before [Init]. *)
Record MagnetoBase := mkBase { confs_ : option Confs.ConfServices }.

Definition current (t : Z) : M Api ptr := b ← GetCurrentBizProcedure t; deref b.

Definition Base_GetServiceNames (m : MagnetoBase) (set_name : string) : M Api (option (list string)) :=
  confs ← deref (confs_ m); mret (Confs.GetServiceNames confs set_name).
Definition Base_WriteSet (m : MagnetoBase) (t : Z) (set_name : string) (bufs : list (option Protocol.Buf)) (timeo_ms : Z) (errors : list Z)
  : M Api (Z * list Z) :=
  confs ← deref (confs_ m);
  match Confs.GetServicesSet confs set_name with
  | None => mret (ErrorNo.kNotFound, errors)
  | Some set => b ← current t; IOBasic_WriteSet t b set bufs timeo_ms errors
  end.
Definition Base_ReadSet (m : MagnetoBase) (t : Z) (set_name : string) (timeo_ms : Z) : M Api (Z * option (list (Z * option ptr))) :=
  confs ← deref (confs_ m);
  match Confs.GetServicesSet confs set_name with
  | None => mret (ErrorNo.kNotFound, None)
  | Some set => b ← current t; IOBasic_ReadSet t b set timeo_ms
  end.
Definition Base_Talks (m : MagnetoBase) (t : Z) (set_name : string) (bufs : list (option Protocol.Buf)) (timeo_ms : Z)
  : M Api (Z * option (list (Z * option ptr))) :=
  confs ← deref (confs_ m);
  match Confs.GetServicesSet confs set_name with
  | None => mret (ErrorNo.kNotFound, None)
  | Some set => b ← current t; IOBasic_Talks t b set bufs timeo_ms
  end.
Definition Base_Write (m : MagnetoBase) (t : Z) (service_name : string) (buf : Protocol.Buf) (timeo_ms : Z) : M Api Z :=
  confs ← deref (confs_ m);
  match Confs.GetService confs service_name with
  | None => mret ErrorNo.kNotFound
  | Some s => b ← current t; IOBasic_Write t b s buf timeo_ms
  end.
Definition Base_Read (m : MagnetoBase) (t : Z) (service_name : string) (timeo_ms : Z) : M Api (Z * option ptr) :=
  confs ← deref (confs_ m);
  match Confs.GetService confs service_name with
  | None => mret (ErrorNo.kNotFound, None)
  | Some s => b ← current t; IOBasic_Read t b s timeo_ms
  end.
Definition Base_SimpleTalk (m : MagnetoBase) (t : Z) (service_name : string) (buf : Protocol.Buf) (timeo_ms : Z) : M Api (Z * option ptr) :=
  confs ← deref (confs_ m);
  match Confs.GetService confs service_name with
  | None => mret (ErrorNo.kNotFound, None)
  | Some s => b ← current t; IOBasic_SimpleTalk t b s buf timeo_ms
  end.
Definition Base_WriteBack (m : MagnetoBase) (t : Z) (buf : Protocol.Buf) (timeo_ms : Z) : M Api Z :=
  b ← current t; IOBasic_WriteBack t b buf timeo_ms.
Definition Base_FreeTalks (m : MagnetoBase) (t : Z) : M Api () := b ← current t; IOBasic_FreeTalks t b.

(** ** Magneto: the interface of the library, which forwards *)

Abbreviation Magneto := (option MagnetoBase).

Definition Magneto_GetServiceNames (o : Magneto) (set_name : string) : M Api (option (list string)) :=
  m ← deref o; Base_GetServiceNames m set_name.
Definition Magneto_WriteSet (o : Magneto) (t : Z) (set_name : string) (bufs : list (option Protocol.Buf)) (timeo_ms : Z) (errors : list Z)
  : M Api (Z * list Z) := m ← deref o; Base_WriteSet m t set_name bufs timeo_ms errors.
Definition Magneto_ReadSet (o : Magneto) (t : Z) (set_name : string) (timeo_ms : Z) : M Api (Z * option (list (Z * option ptr))) :=
  m ← deref o; Base_ReadSet m t set_name timeo_ms.
Definition Magneto_Talks (o : Magneto) (t : Z) (set_name : string) (bufs : list (option Protocol.Buf)) (timeo_ms : Z)
  : M Api (Z * option (list (Z * option ptr))) := m ← deref o; Base_Talks m t set_name bufs timeo_ms.
Definition Magneto_Write (o : Magneto) (t : Z) (service_name : string) (buf : Protocol.Buf) (timeo_ms : Z) : M Api Z :=
  m ← deref o; Base_Write m t service_name buf timeo_ms.
Definition Magneto_Read (o : Magneto) (t : Z) (service_name : string) (timeo_ms : Z) : M Api (Z * option ptr) :=
  m ← deref o; Base_Read m t service_name timeo_ms.
Definition Magneto_SimpleTalk (o : Magneto) (t : Z) (service_name : string) (buf : Protocol.Buf) (timeo_ms : Z) : M Api (Z * option ptr) :=
  m ← deref o; Base_SimpleTalk m t service_name buf timeo_ms.
Definition Magneto_WriteBack (o : Magneto) (t : Z) (buf : Protocol.Buf) (timeo_ms : Z) : M Api Z :=
  m ← deref o; Base_WriteBack m t buf timeo_ms.
Definition Magneto_FreeTalks (o : Magneto) (t : Z) : M Api () := m ← deref o; Base_FreeTalks m t.

(** ** What a call does *)

(** A call of a handler, the type of its result, and the call itself. *)
Inductive Call :=
  | CWriteSet (name : string) (bufs : list (option Protocol.Buf)) (timeo : Z) (errors : list Z)
  | CReadSet (name : string) (timeo : Z)
  | CTalks (name : string) (bufs : list (option Protocol.Buf)) (timeo : Z)
  | CWrite (name : string) (buf : Protocol.Buf) (timeo : Z)
  | CRead (name : string) (timeo : Z)
  | CSimpleTalk (name : string) (buf : Protocol.Buf) (timeo : Z)
  | CWriteBack (buf : Protocol.Buf) (timeo : Z)
  | CFreeTalks.
Definition result (c : Call) : Type :=
  match c with
  | CWriteSet _ _ _ _ => Z * list Z
  | CReadSet _ _ | CTalks _ _ _ => Z * option (list (Z * option ptr))
  | CWrite _ _ _ | CWriteBack _ _ => Z
  | CRead _ _ | CSimpleTalk _ _ _ => Z * option ptr
  | CFreeTalks => ()
  end.
Definition call_of (o : Magneto) (t : Z) (c : Call) : M Api (result c) :=
  match c with
  | CWriteSet name bufs timeo errors => Magneto_WriteSet o t name bufs timeo errors
  | CReadSet name timeo => Magneto_ReadSet o t name timeo
  | CTalks name bufs timeo => Magneto_Talks o t name bufs timeo
  | CWrite name buf timeo => Magneto_Write o t name buf timeo
  | CRead name timeo => Magneto_Read o t name timeo
  | CSimpleTalk name buf timeo => Magneto_SimpleTalk o t name buf timeo
  | CWriteBack buf timeo => Magneto_WriteBack o t buf timeo
  | CFreeTalks => Magneto_FreeTalks o t
  end.

(** What it stands for: the answer for an unknown name, or an operation of
    IOBasic.v on a procedure. *)
Definition meaning (confs : Confs.ConfServices) (c : Call) : result c + (ptr -> M (Thread W) (result c)) :=
  match c with
  | CWriteSet name bufs timeo errors =>
      match Confs.GetServicesSet confs name with
      | None => inl (ErrorNo.kNotFound, errors)
      | Some set => inr (fun b => IOBasic.WriteSet swapcontext b set bufs timeo errors)
      end
  | CReadSet name timeo =>
      match Confs.GetServicesSet confs name with
      | None => inl (ErrorNo.kNotFound, None)
      | Some set => inr (fun b => IOBasic.ReadSet swapcontext b set timeo)
      end
  | CTalks name bufs timeo =>
      match Confs.GetServicesSet confs name with
      | None => inl (ErrorNo.kNotFound, None)
      | Some set => inr (fun b => IOBasic.Talks swapcontext b set bufs timeo)
      end
  | CWrite name buf timeo =>
      match Confs.GetService confs name with
      | None => inl ErrorNo.kNotFound
      | Some s => inr (fun b => IOBasic.Write swapcontext b s buf timeo)
      end
  | CRead name timeo =>
      match Confs.GetService confs name with
      | None => inl (ErrorNo.kNotFound, None)
      | Some s => inr (fun b => IOBasic.Read swapcontext b s timeo)
      end
  | CSimpleTalk name buf timeo =>
      match Confs.GetService confs name with
      | None => inl (ErrorNo.kNotFound, None)
      | Some s => inr (fun b => IOBasic.SimpleTalk swapcontext b s buf timeo)
      end
  | CWriteBack buf timeo => inr (fun b => IOBasic.WriteBack swapcontext b buf timeo)
  | CFreeTalks => inr FreeTalks
  end.

(** What the slots of a thread hold. *)
Definition procedure (s : Api) (t : Z) : option ptr := mjoin (ThreadPrivacy.object (current_ s) t 0).
Definition tpd (s : Api) (t : Z) : option IOBasicTPD := ThreadPrivacy.object (thread_privacy_ s) t 0.
Definition message (s : Api) (t : Z) : option ptr := x ← tpd s t; tmp_msg_session_ x.

(** The object that is copied has no message, and every message belongs to the
    object of one thread. *)
Record valid (s : Api) : Prop := {
  v_current : ThreadPrivacy.valid (current_ s);
  v_privacy : ThreadPrivacy.valid (thread_privacy_ s);
  v_tpl : tmp_io_basic_ s = Some IOBasicTPD_new;
  v_messages : Store.ok (messages s);
  v_init t x : tpd s t = Some x ->
    if tpd_init_ x then exists m, tmp_msg_session_ x = Some m /\ is_Some (Store.load (messages s) m) else tmp_msg_session_ x = None;
  v_private t t' m : message s t = Some m -> message s t' = Some m -> t = t';
}.

(** What a call in thread [t] may change before the operation of IOBasic.v runs:
    nothing but the slot of [t] in [IOBasic]. *)
Definition prepared (t : Z) (s s' : Api) : Prop :=
  valid s' /\ thread s' = thread s /\ (forall t', procedure s' t' = procedure s t') /\ (forall t', t' <> t -> tpd s' t' = tpd s t').
Lemma prepared_trans t s1 s2 s3 : prepared t s1 s2 -> prepared t s2 s3 -> prepared t s1 s3.
Proof. intros (_ & T1 & P1 & D1) (V & T2 & P2 & D2). split_and!; [done|congruence|intros; by rewrite P2|intros; by rewrite D2, D1 by done]. Qed.

(** The thread has no object yet and the system refuses something it needs to
    make one. *)
Definition starved (t : Z) (s : Api) : Prop := tpd s t = None /\ ThreadPrivacy.refused (thread_privacy_ s) t.

(** The invariant after the slot of a thread in [IOBasic] was given an object:
    one that was there, a new one, or one with a message of its own. *)
Lemma valid_privacy t x c ms s : valid s -> ThreadPrivacy.valid c -> Store.ok ms ->
  (forall t', ThreadPrivacy.object c t' 0 = if decide (t' = t) then Some x else tpd s t') ->
  (forall m, is_Some (Store.load (messages s) m) -> is_Some (Store.load ms m)) ->
  (if tpd_init_ x then exists m, tmp_msg_session_ x = Some m /\ is_Some (Store.load ms m) else tmp_msg_session_ x = None) ->
  (forall t' m, t' <> t -> message s t' = Some m -> tmp_msg_session_ x <> Some m) ->
  valid (set_privacy c (set_messages ms s)).
Proof.
  intros V Vc Ok Ht Hm Hx Hp. destruct V. assert (forall t', message (set_privacy c (set_messages ms s)) t' =
    if decide (t' = t) then tmp_msg_session_ x else message s t') as Hg.
  { intros t'. unfold message, tpd. cbn. rewrite Ht. by case_decide. }
  split; try done.
  - intros t' y. unfold tpd. cbn. rewrite Ht. case_decide; [intros [= <-]; exact Hx|]. intros Hy%v_init0.
    destruct (tpd_init_ y); [|done]. destruct Hy as (m & ? & ?). eauto.
  - intros t1 t2 m. rewrite !Hg. repeat case_decide; subst; try done; [..|apply v_private0].
    + intros H1 H2. exfalso. by eapply Hp.
    + intros H1 H2. exfalso. by eapply (Hp t1).
Qed.

Lemma current_run t b s : valid s -> procedure s t = Some b -> exists s', current t s = Some (b, s') /\ prepared t s s' /\ thread_privacy_ s' = thread_privacy_ s.
Proof.
  intros V Hb. destruct (ThreadPrivacy.Get_object t 0 None (current_ s) (v_current _ V)) as (r & o & c & E & Vc & O).
  unfold procedure in Hb. destruct (ThreadPrivacy.object (current_ s) t 0) as [y|] eqn:Oy; [|done]. cbn in Hb. subst y.
  destruct r as [p|]; [destruct O as [Sp O]|by destruct O]. cbn in O. assert (forall t', ThreadPrivacy.object c t' 0 = ThreadPrivacy.object (current_ s) t' 0) as O'.
  { intros t'. rewrite O. case_decide as D; [destruct D as [-> _]; by rewrite Oy|done]. }
  assert (on_current (ThreadPrivacy.Get t 0 None) s = Some ((Some p, o), set_current c s)) as R by (unfold on_current; by rewrite (zoom_run _ _ _ _ _ _ E)).
  destruct (ThreadPrivacy.slot_object _ _ _ _ Vc Sp) as (z & Lz & Oz). rewrite O', Oy in Oz. injection Oz as <-. exists (set_current c s). split.
  - unfold current, GetCurrentBizProcedure. unfold mbind at 1, M_bind at 1. mrun R. unfold mbind, M_bind. cbn. by rewrite Lz.
  - destruct V. split_and!; [split_and!|]; try done. intros t'. unfold procedure. cbn. by rewrite O'.
Qed.

(** The object of the calling thread is there or is made; when the system
    refuses what it needs the call goes on with a null pointer. *)
Lemma io_basic_run t s : valid s -> exists s', prepared t s s' /\
  (io_basic t s = None /\ starved t s \/
   ~ starved t s /\ exists p, io_basic t s = Some (p, s') /\ ThreadPrivacy.slot (thread_privacy_ s') t 0 = Some p).
Proof.
  intros V. destruct (ThreadPrivacy.Get_object t 0 IOBasicTPD_new (thread_privacy_ s) (v_privacy _ V)) as (r & o & c & E & Vc & O).
  assert (io_basic t s = deref r (set_privacy c s)) as R.
  { unfold io_basic. unfold mbind at 1, M_bind at 1. cbn. mderef (v_tpl _ V).
    assert (on_privacy (ThreadPrivacy.Get t 0 IOBasicTPD_new) s = Some ((r, o), set_privacy c s)) as Rg
      by (unfold on_privacy; by rewrite (zoom_run _ _ _ _ _ _ E)). by mrun Rg. }
  pose proof (ThreadPrivacy.Get_null _ _ _ _ _ _ (v_privacy _ V) E) as Nu. cbn in Nu.
  rewrite R. destruct r as [p|]; [|exists s; split; [by split_and!|left; split; [done|split; [apply O|by apply Nu]]]]. destruct O as [Sp O].
  exists (set_privacy c s). split; [|right; split; [intros [T Rf]|by exists p]].
  2: { enough (Some p = None) by done. apply Nu. split; [|exact Rf]. destruct (ThreadPrivacy.slot (thread_privacy_ s) t 0) as [q|] eqn:Sq; [|done].
       destruct (ThreadPrivacy.slot_object _ _ _ _ (v_privacy _ V) Sq) as (x & _ & Ox). unfold tpd in T. congruence. }
  assert (forall t', ThreadPrivacy.object c t' 0 = if decide (t' = t) then Some (default IOBasicTPD_new (tpd s t)) else tpd s t') as Ht.
  { intros t'. rewrite O. destruct (decide (t' = t)) as [->|D]; [by rewrite decide_True by done|by rewrite decide_False by (by intros [])]. }
  split_and!; [|done..|intros t' D; unfold tpd; cbn; by rewrite Ht, decide_False].
  pose proof V as [_ _ _ Om Iv Pv]. assert (s = set_messages (messages s) s) as Es by (by destruct s). rewrite Es at 1.
  apply (valid_privacy t (default IOBasicTPD_new (tpd s t))); try done.
  - destruct (tpd s t) as [x|] eqn:Tx; cbn; [by apply (Iv t)|done].
  - intros t' m D Hm Hx. destruct (tpd s t) as [x|] eqn:Tx; [|done]. cbn in Hx. apply D, (Pv t' t m Hm). unfold message. by rewrite Tx.
Qed.

(** The message of the thread is there or is made. *)
Lemma tpd_raii_run t p s : valid s -> ThreadPrivacy.slot (thread_privacy_ s) t 0 = Some p ->
  exists s' x m, tpd_raii p s = Some (true, s') /\ prepared t s s' /\ message s' t = Some m /\
    Store.load (ThreadPrivacy.objs (thread_privacy_ s')) p = Some x /\ tmp_msg_session_ x = Some m.
Proof.
  intros V Sl. destruct (ThreadPrivacy.slot_object _ _ _ _ (v_privacy _ V) Sl) as (x & L & Tx).
  unfold tpd_raii. unfold mbind at 1, M_bind at 1. cbn [gets id]. mderef L. pose proof (v_init _ V _ _ Tx) as Hx. destruct (tpd_init_ x) eqn:Hi.
  { destruct Hx as (m & Hm & _). exists s, x, m. split_and!; try done. unfold message, tpd. by rewrite Tx. }
  destruct (Store.new (Msg.mkMsgSession 0 0 0 0 0) (messages s)) as [[m ms]|] eqn:En; [|done].
  assert (zoom messages set_messages (Store.new (Msg.mkMsgSession 0 0 0 0 0)) s = Some (m, set_messages ms s)) as Rn by (by rewrite (zoom_run _ _ _ _ _ _ En)).
  mrun Rn. apply (Store.ok_new _ _ _ _ (v_messages _ V)) in En as (Ok & _ & Fm & Em & _).
  destruct (ThreadPrivacy.assign_object t 0 p (mkTPD true (Some m)) (thread_privacy_ s) (v_privacy _ V) Sl) as (c & Ec & Vc & Sc & Oc).
  assert (on_privacy (ThreadPrivacy.assign p (mkTPD true (Some m))) (set_messages ms s) = Some ((), set_privacy c (set_messages ms s))) as Rp
    by (by apply (zoom_run _ _ _ (set_messages ms s))). mrun Rp.
  set (s' := set_privacy c (set_messages ms s)). assert (forall t', tpd s' t' = if decide (t' = t) then Some (mkTPD true (Some m)) else tpd s t') as Ht.
  { intros t'. unfold tpd. cbn. rewrite Oc. destruct (decide (t' = t)) as [->|D]; [by rewrite decide_True by done|by rewrite decide_False by (by intros [])]. }
  destruct (ThreadPrivacy.slot_object _ _ _ _ Vc Sc) as (y & Ly & Oy). rewrite Oc, decide_True in Oy by done. injection Oy as <-.
  exists s', (mkTPD true (Some m)), m. split_and!; [done|split_and!|unfold message; rewrite Ht; by rewrite decide_True|done..]; [|done..|].
  - apply (valid_privacy t (mkTPD true (Some m))); try done; unfold Store.load.
    + intros q. rewrite Em. destruct (decide (m = q)) as [<-|]; [rewrite lookup_insert_eq|rewrite lookup_insert_ne by done]; eauto.
    + exists m. by rewrite Em, lookup_insert_eq.
    + intros t' m' _ Hm' [= <-]. unfold message in Hm'. destruct (tpd s t') as [z|] eqn:Tz; [|done]. cbn in Hm'. pose proof (v_init _ V _ _ Tz) as Hz.
      destruct (tpd_init_ z); [|congruence]. destruct Hz as (q & Hq & w & Lw). unfold Store.load in Lw. congruence.
  - intros t' D. rewrite Ht. by rewrite decide_False.
Qed.

Lemma io_call_run {A} t s (other : A) op : valid s -> exists s', prepared t s s' /\
  ((io ← io_basic t; tpd_call io other op) s = None /\ starved t s \/
   ~ starved t s /\ (io ← io_basic t; tpd_call io other op) s = on_thread op s' /\ is_Some (message s' t)).
Proof.
  intros V. destruct (io_basic_run t s V) as (s1 & P1 & [[E1 N]|(Ns & p & E1 & Sl)]).
  { exists s1. split; [done|]. left. split; [|done]. unfold mbind, M_bind. by rewrite E1. }
  destruct (tpd_raii_run t p s1 (proj1 P1) Sl) as (s2 & x & m & E2 & P2 & Hm & L2 & Hx). exists s2. split; [by eapply prepared_trans|].
  right. split; [done|]. split; [|eauto]. mrun E1. unfold tpd_call. mrun E2. cbn [negb]. unfold mbind at 1, M_bind at 1. cbn [gets id]. mderef L2. mderef Hx. done.
Qed.

Lemma SetCurrent_run t b s : valid s -> exists ok s', SetCurrentBizProcedure t b s = Some (ok, s') /\ valid s' /\
  thread s' = thread s /\ (forall t', tpd s' t' = tpd s t') /\
  forall t', procedure s' t' = if decide (ok = true /\ t' = t) then Some b else procedure s t'.
Proof.
  intros V. destruct (ThreadPrivacy.Get_object t 0 None (current_ s) (v_current _ V)) as (r & o & c & E & Vc & O).
  assert (on_current (ThreadPrivacy.Get t 0 None) s = Some ((r, o), set_current c s)) as R by (unfold on_current; by rewrite (zoom_run _ _ _ _ _ _ E)).
  unfold SetCurrentBizProcedure, ThreadPrivacy.Get_default. mrun R. destruct r as [p|]; destruct O as [Sp O].
  - destruct (ThreadPrivacy.assign_object t 0 p (Some b) c Vc Sp) as (c' & Ec & Vc' & _ & Oc).
    assert (on_current (ThreadPrivacy.assign p (Some b)) (set_current c s) = Some ((), set_current c' s)) as Rc
      by (unfold on_current; by rewrite (zoom_run current_ set_current _ (set_current c s) () c' Ec)).
    mrun Rc. exists true, (set_current c' s). split; [done|]. destruct V. split_and!; [by split|done..|]. intros t'. unfold procedure. cbn.
    rewrite Oc. destruct (decide (t' = t)) as [->|D]; [by rewrite !decide_True by done|]. by rewrite !decide_False, O, decide_False by (by intros []).
  - exists false, (set_current c s). split; [done|]. destruct V. split_and!; [by split|done..|]. intros t'. unfold procedure. cbn. rewrite O.
    by rewrite decide_False by naive_solver.
Qed.

(** ** The calls of any number of threads *)

Definition Api_new (x : Thread W) (w w' : PW) : Api :=
  mkApi x (ThreadPrivacy.ThreadPrivacy_new w) (ThreadPrivacy.ThreadPrivacy_new w') None Store.nothing.

(** The states the slots get into after [IOBasic::Init]: a scheduler thread sets
    its procedure, a procedure makes a call, another thread goes on. *)
Inductive reached (o : Magneto) : Api -> Prop :=
  | reach_start x w w' ok s : IOBasic_Init (Api_new x w w') = Some (ok, s) -> reached o s
  | reach_set t b ok s s' : reached o s -> SetCurrentBizProcedure t b s = Some (ok, s') -> reached o s'
  | reach_call t c r s s' b : reached o s -> procedure s t = Some b -> call_of o t c s = Some (r, s') -> reached o s'
  | reach_switch x s : reached o s -> reached o (set_thread x s).

Lemma start_valid x w w' ok s : IOBasic_Init (Api_new x w w') = Some (ok, s) -> valid s.
Proof.
  intros [= <- <-]. split; try done; try apply ThreadPrivacy.privacy_new_valid; [apply Store.ok_nothing|..]; unfold message, tpd, ThreadPrivacy.object, ThreadPrivacy.slot;
    cbn; intros *; by rewrite lookup_empty.
Qed.

(** What a call by name does: looked up, and done with the procedure and the
    objects of the calling thread. *)
Definition refines (confs : Confs.ConfServices) (t : Z) (c : Call) (b : ptr) (s : Api) (res : option (result c * Api)) : Prop :=
  match meaning confs c with
  | inl r => res = Some (r, s)
  | inr op => exists s1, prepared t s s1 /\
      (res = None /\ starved t s \/ ~ starved t s /\ res = on_thread (op b) s1 /\ (c = CFreeTalks \/ is_Some (message s1 t)))
  end.

(** The answer of a call whose thread has no message. *)
Definition other (c : Call) : result c :=
  match c with
  | CWriteSet _ _ _ errors => (ErrorNo.kOther, errors)
  | CReadSet _ _ | CTalks _ _ _ => (ErrorNo.kOther, None)
  | CWrite _ _ _ | CWriteBack _ _ => ErrorNo.kOther
  | CRead _ _ | CSimpleTalk _ _ _ => (ErrorNo.kOther, None)
  | CFreeTalks => ()
  end.
Definition is_free (c : Call) : bool := match c with CFreeTalks => true | _ => false end.

Lemma call_eq confs t c s : call_of (Some (mkBase (Some confs))) t c s =
  match meaning confs c with
  | inl r => Some (r, s)
  | inr op => (b ← current t; io ← io_basic t; if is_free c then on_thread (op b) else tpd_call io (other c) (op b)) s
  end.
Proof.
  destruct c; unfold call_of, meaning, is_free, other, result.
  all: unfold Magneto_WriteSet, Magneto_ReadSet, Magneto_Talks, Magneto_Write, Magneto_Read, Magneto_SimpleTalk, Magneto_WriteBack, Magneto_FreeTalks.
  all: rewrite (bind_run _ _ _ _ _ (deref_run _ _ _ eq_refl)).
  all: unfold Base_WriteSet, Base_ReadSet, Base_Talks, Base_Write, Base_Read, Base_SimpleTalk, Base_WriteBack, Base_FreeTalks, confs_.
  all: unfold IOBasic_WriteSet, IOBasic_ReadSet, IOBasic_Talks, IOBasic_Write, IOBasic_Read, IOBasic_SimpleTalk, IOBasic_WriteBack, IOBasic_FreeTalks.
  7, 8: exact eq_refl.
  all: rewrite (bind_run _ _ _ _ _ (deref_run _ _ _ eq_refl)); destruct (_ confs name); exact eq_refl.
Qed.

Lemma api_call_run confs t c b s : valid s -> procedure s t = Some b -> refines confs t c b s (call_of (Some (mkBase (Some confs))) t c s).
Proof.
  intros V Hb. unfold refines. rewrite call_eq. destruct (meaning confs c) as [r|op]; [done|].
  destruct (current_run t b s V Hb) as (s1 & E1 & P1 & T1). mrun E1.
  assert (starved t s1 <-> starved t s) as St by (unfold starved, tpd; by rewrite T1). destruct (is_free c) eqn:F.
  - assert (c = CFreeTalks) as Hc by (by destruct c). destruct (io_basic_run t s1 (proj1 P1)) as (s2 & P2 & H2). exists s2.
    split; [by eapply prepared_trans|]. destruct H2 as [[E2 N]|(N & p & E2 & _)].
    + left. split; [unfold mbind, M_bind; by rewrite E2|by apply St].
    + right. mrun E2. split_and!; [by rewrite <- St|done|by left].
  - destruct (io_call_run t s1 (other c) (op b) (proj1 P1)) as (s2 & P2 & H2). exists s2. split; [by eapply prepared_trans|].
    destruct H2 as [[E2 N]|(N & E2 & M2)]; [left; split; [exact E2|by apply St]|right; split_and!; [by rewrite <- St|exact E2|by right]].
Qed.

Lemma reached_valid confs s : reached (Some (mkBase (Some confs))) s -> valid s.
Proof.
  induction 1 as [x w w' ok s E|t b ok s s' _ V E|t c r s s' b _ V Hb E|x s _ V].
  - by eapply start_valid.
  - destruct (SetCurrent_run t b s V) as (ok' & s1 & E1 & V1 & _). congruence.
  - pose proof (api_call_run confs t c b s V Hb) as R. unfold refines in R. rewrite E in R. destruct (meaning confs c) as [r'|op]; [by injection R as <- <-|].
    destruct R as (s1 & (V1 & _) & [[? _]|(_ & R & _)]); [done|]. symmetry in R. apply zoom_inv in R as (x & _ & ->). by destruct V1.
  - by destruct V.
Qed.

(** C15: a call of a handler through the public interface, in whatever state the
    calls of all threads have led to: an unknown name gives [kNotFound] and
    changes nothing; otherwise the operation of [IOBasicTPD] runs on the
    procedure the scheduler has set for the calling thread, with a message no
    other thread has.  Neither the procedures nor the objects of other threads
    change.  The call faults beforehand exactly when the thread has no object of
    [IOBasic] yet and the system refuses what it needs to make one: the key, the
    vector of the thread, the value of the key, the lock or the object; an
    unknown name and the threads that have their object are not concerned. *)
Theorem api_refines confs t c b s : reached (Some (mkBase (Some confs))) s -> procedure s t = Some b ->
  refines confs t c b s (call_of (Some (mkBase (Some confs))) t c s) /\
  (forall t1 t2 m, message s t1 = Some m -> message s t2 = Some m -> t1 = t2).
Proof using All. intros R%reached_valid Hb. split; [by apply api_call_run|apply R]. Qed.
End Api.
Arguments Api : clear implicits.

(** ** Two scheduler threads *)

#[local] Existing Instances IOBasic.still_clock IOBasic.full_mail IOBasic.still_malloc IOBasic.still_fuel ThreadPrivacy.free_locks ThreadPrivacy.much_memory.

Definition ex_confs : Confs.ConfServices :=
  Confs.mkConfServices [] {["kv"%string := IOBasic.ex_service 1]} {["all"%string := [IOBasic.ex_service 1; IOBasic.ex_service 2]]} ∅.
Definition ex_magneto : option MagnetoBase := Some (mkBase (Some ex_confs)).
Definition ex_start : Api () () :=
  mkApi (IOBasic.ex_thread [] []) (ThreadPrivacy.ThreadPrivacy_new ()) (ThreadPrivacy.ThreadPrivacy_new ()) (Some IOBasicTPD_new) Store.nothing.
(** Procedure 1 runs in the threads 10 and 11 in turn, and 11 has made a call. *)
Definition after {A} (m : M (Api () ()) A) (s : Api () ()) : Api () () := match m s with Some (_, s') => s' | None => s end.
Definition ex_state1 : Api () () := after (SetCurrentBizProcedure 10 1) ex_start.
Definition ex_state2 : Api () () := after (SetCurrentBizProcedure 11 1) ex_state1.
Definition ex_state : Api () () := after (Magneto_Read (fun _ => mret ()) ex_magneto 11 "kv" 50) ex_state2.

Lemma ex_reached : reached (fun _ => mret ()) ex_magneto ex_state.
Proof.
  apply (reach_call _ _ 11 (CRead "kv" 50) (ErrorNo.kQueueBusy, None) ex_state2 ex_state 1); [|vm_compute; reflexivity..].
  apply (reach_set _ _ 11 1 true ex_state1); [|vm_compute; reflexivity]. apply (reach_set _ _ 10 1 true ex_start); [|vm_compute; reflexivity].
  by apply (reach_start _ _ (IOBasic.ex_thread [] []) () () true).
Qed.

Lemma api_refines_witness :
  refines (fun _ => mret ()) ex_confs 10 (CReadSet "all" 50) 1 ex_state
    (call_of (fun _ => mret ()) ex_magneto 10 (CReadSet "all" 50) ex_state) /\
  fst <$> call_of (fun _ => mret ()) ex_magneto 10 (CReadSet "all" 50) ex_state = Some (ErrorNo.kQueueBusy, None) /\
  message ex_state 11 = Some 1.
Proof.
  split; [|split; [vm_compute; reflexivity|vm_compute; reflexivity]].
  apply (api_refines (fun _ => mret ()) ex_confs 10 (CReadSet "all" 50) 1 ex_state).
  - exact ex_reached.
  - vm_compute. reflexivity.
Defined.

(** Without memory for the object of a thread the result of
    [ThreadPrivacy::Get] is null, and it is used. *)
Definition poor : PrivacyOs () := {| privacy_Init_ w := (true, w); nothrow_new w := (false, w); pthread_setspecific w := (0, w) |}.
Example first_call_faults : IOBasic_FreeTalks (PO := poor) 10 1 ex_start = None.
Proof. reflexivity. Qed.
End Api.
