(* ===== verification/Pipe.v ===== *)
(** * Pipe: the mailboxes between threads

    Models deps/public-cpp/include/public-cpp/mpsc_fixed_pipe/mpsc_fixed_pipe.hpp
    for the header type [bool] the mailboxes use: a ring of bytes in which a
    message is a header byte, three bytes of padding, a 32-bit size whose top
    bit says that the message is complete, and the content.  Unused bytes are
    255.  Positions are pointers; those of the senders carry a 16-bit version
    in their top bits.  The operations run one at a time here; the waiting
    forms of [ReceiveMsg] are in Waits.v. *)

From Stdlib Require Import ZArith Lia Ascii String.
From stdpp Require Import base list strings numbers option.
From S2P Require Import Prelude.

Module Pipe.

Definition kMaskNotWriting : Z := Z.shiftl 1 31.
Definition kMsgOffset : Z := 8.
Definition kNumBitsVersion : Z := 16.
Definition kNumVersions : Z := Z.shiftl 1 kNumBitsVersion.
Definition kMaskPtr : Z := Z.shiftl 1 (64 - kNumBitsVersion) - 1.
Definition kMaskVersion : Z := u64 (Z.lnot kMaskPtr).
Definition kTimesBusyQuery : nat := 2.
Definition kBlankSize : Z := 2 ^ 32 - 1.

Record MPSCFixedPipe := mkPipe {
  size_pipe_ : Z;
  max_size_content_ : Z;
  threshold_sender_notify_ : Z;
  pipe_ : Z;
  mem : bytes;
  receiver_pace_ : Z;
  sender_pace_from_ : Z;
  sender_pace_to_ : Z;
}.

Definition with_mem (p : MPSCFixedPipe) (m : bytes) : MPSCFixedPipe :=
  mkPipe (size_pipe_ p) (max_size_content_ p) (threshold_sender_notify_ p) (pipe_ p) m (receiver_pace_ p)
    (sender_pace_from_ p) (sender_pace_to_ p).
Definition with_receiver (p : MPSCFixedPipe) (r : Z) : MPSCFixedPipe :=
  mkPipe (size_pipe_ p) (max_size_content_ p) (threshold_sender_notify_ p) (pipe_ p) (mem p) r
    (sender_pace_from_ p) (sender_pace_to_ p).
Definition with_from (p : MPSCFixedPipe) (f : Z) : MPSCFixedPipe :=
  mkPipe (size_pipe_ p) (max_size_content_ p) (threshold_sender_notify_ p) (pipe_ p) (mem p) (receiver_pace_ p)
    f (sender_pace_to_ p).
Definition with_to (p : MPSCFixedPipe) (t : Z) : MPSCFixedPipe :=
  mkPipe (size_pipe_ p) (max_size_content_ p) (threshold_sender_notify_ p) (pipe_ p) (mem p) (receiver_pace_ p)
    (sender_pace_from_ p) t.

Definition end_of_pipe_ (p : MPSCFixedPipe) : Z := size_pipe_ p + pipe_ p.

(** *** Positions of the senders *)

Definition DecodeSenderPacePtr_ (pace : Z) : Z := Z.land pace kMaskPtr.
Definition DecodeSenderPaceVersion_ (pace : Z) : Z := Z.shiftr (Z.land pace kMaskVersion) (64 - kNumBitsVersion).
Definition EncodeSenderPace_ (ptr version : Z) : Z := Z.lor ptr (u64 (Z.shiftl version (64 - kNumBitsVersion))).
Definition DecodeSenderPaceFromPtr_ (p : MPSCFixedPipe) : Z := DecodeSenderPacePtr_ (sender_pace_from_ p).
Definition DecodeSenderPaceToPtr_ (p : MPSCFixedPipe) : Z := DecodeSenderPacePtr_ (sender_pace_to_ p).

Definition next_pace (old_pace new_pace : Z) (new_version : bool) : Z :=
  let version := DecodeSenderPaceVersion_ old_pace in
  if new_version then EncodeSenderPace_ new_pace ((version + 1) mod kNumVersions)
  else EncodeSenderPace_ new_pace version.
Definition CASSenderPaceFrom_ (p : MPSCFixedPipe) (old_pace new_pace : Z) (new_version : bool) : bool * MPSCFixedPipe :=
  if sender_pace_from_ p =? old_pace then (true, with_from p (next_pace old_pace new_pace new_version)) else (false, p).
Definition CASSenderPaceTo_ (p : MPSCFixedPipe) (old_pace new_pace : Z) (new_version : bool) : bool * MPSCFixedPipe :=
  if sender_pace_to_ p =? old_pace then (true, with_to p (next_pace old_pace new_pace new_version)) else (false, p).

(** *** Messages in memory *)

Definition off (p : MPSCFixedPipe) (ptr : Z) : nat := Z.to_nat (ptr - pipe_ p).
(** Memory accesses: undefined outside the ring. *)
Definition read (p : MPSCFixedPipe) (ptr : Z) (n : nat) : option bytes :=
  if (pipe_ p <=? ptr) && (ptr + Z.of_nat n <=? end_of_pipe_ p)
  then Some (take n (drop (off p ptr) (mem p))) else None.
Definition write (p : MPSCFixedPipe) (ptr : Z) (bs : bytes) : option MPSCFixedPipe :=
  if (pipe_ p <=? ptr) && (ptr + Z.of_nat (length bs) <=? end_of_pipe_ p)
  then Some (with_mem p (splice (off p ptr) bs (mem p))) else None.

(** The field [size] of the message at [msg]. *)
Definition msg_size (p : MPSCFixedPipe) (msg : Z) : option Z := le_val <$> read p (msg + 4) 4.
Definition set_msg_size (p : MPSCFixedPipe) (msg size : Z) : option MPSCFixedPipe := write p (msg + 4) (le_bytes 4 size).

Definition SetReady_ (p : MPSCFixedPipe) (msg : Z) : option MPSCFixedPipe :=
  s ← msg_size p msg; set_msg_size p msg (Z.lor s kMaskNotWriting).
Definition IsBlank_ (size : Z) : bool := kBlankSize =? size.
Definition IsNotWriting_ (size : Z) : bool := negb (Z.land size kMaskNotWriting =? 0).
Definition IsReady_ (size : Z) : bool := negb (IsBlank_ size) && IsNotWriting_ size.
Definition blank (n : nat) : bytes := replicate n (z2b 255).
Definition SetBlank_ (p : MPSCFixedPipe) (from to : Z) : option MPSCFixedPipe :=
  write p from (blank (Z.to_nat (to - from))).
(** The whole length of a message, [uint32_t(-1)] for a blank one. *)
Definition GetMsgSize_ (p : MPSCFixedPipe) (msg : Z) : option Z :=
  s ← msg_size p msg;
  Some (if negb (kBlankSize =? s) then u32 (kMsgOffset + Z.land s (Z.lnot kMaskNotWriting)) else kBlankSize).

(** *** Init *)

Definition Init (size_pipe max_size_content threshold : Z) (has_notifier : bool) (base : Z) : option MPSCFixedPipe :=
  if (size_pipe <=? max_size_content + kMsgOffset) || (negb (threshold =? 0) && negb has_notifier) then None
  else Some (mkPipe size_pipe max_size_content threshold base (blank (Z.to_nat size_pipe)) base
               (EncodeSenderPace_ base 0) (EncodeSenderPace_ base 0)).

(** *** Senders *)

Definition SizeSpace (p : MPSCFixedPipe) : Z :=
  let r := receiver_pace_ p in
  let t := DecodeSenderPaceToPtr_ p in
  if t <? r then r - t else r + size_pipe_ p - t.
Definition SizeMsgReady (p : MPSCFixedPipe) : Z :=
  let r := receiver_pace_ p in
  let f := DecodeSenderPaceFromPtr_ p in
  if r <=? f then f - r else f + size_pipe_ p - r.

(** The place of the message and where the ring was left when it starts again
    at the beginning. *)
Definition ReserveSpaceForSend_ (p : MPSCFixedPipe) (size_content : Z) : option (Z * option Z) * MPSCFixedPipe :=
  if max_size_content_ p <? size_content then (None, p)
  else
    let to := sender_pace_to_ p in
    let to_ptr := DecodeSenderPacePtr_ to in
    let r := receiver_pace_ p in
    let size_need := kMsgOffset + size_content in
    if r <=? to_ptr then
      if to_ptr + size_need <=? end_of_pipe_ p then
        let '(ok, p) := CASSenderPaceTo_ p to (to_ptr + size_need) false in
        (if ok then Some (to_ptr, None) else None, p)
      else if pipe_ p + size_need <? r then
        let '(ok, p) := CASSenderPaceTo_ p to (pipe_ p + size_need) true in
        (if ok then Some (pipe_ p, Some to_ptr) else None, p)
      else (None, p)
    else if to_ptr + size_need <? r then
      let '(ok, p) := CASSenderPaceTo_ p to (to_ptr + size_need) false in
      (if ok then Some (to_ptr, None) else None, p)
    else (None, p).

(** The loop that also publishes the messages of senders that came later and
    were ready first.  Every turn moves the position, so the length of the
    ring bounds the turns. *)
Fixpoint publish (n : nat) (p : MPSCFixedPipe) (new_from version : Z) : option MPSCFixedPipe :=
  match n with
  | O => None
  | S n =>
      if new_from =? DecodeSenderPaceToPtr_ p then Some p
      else
        s ← msg_size p new_from;
        if negb (IsReady_ s) then Some p
        else
          let old := EncodeSenderPace_ new_from version in
          size_pace ← GetMsgSize_ p new_from;
          if size_pace =? kBlankSize then Some p
          else
            let '(ok, p) := CASSenderPaceFrom_ p old (new_from + size_pace) false in
            if (ok : bool) then publish n p (new_from + size_pace) version else Some p
  end.

(** [None] also stands for the wait for earlier senders, which does not end
    when there are none. *)
Definition JustSendMsg_ (p : MPSCFixedPipe) (msg : Z) (pos_before_rewind : option Z) : option MPSCFixedPipe :=
  p ← SetReady_ p msg;
  let old := sender_pace_from_ p in
  let version := DecodeSenderPaceVersion_ old in
  start ← (if DecodeSenderPacePtr_ old =? msg then Some (Some (p, old, version))
           else if msg =? pipe_ p then
             pos ← pos_before_rewind;
             if DecodeSenderPaceFromPtr_ p =? pos then
               let version := (version + 1) mod kNumVersions in
               let old := EncodeSenderPace_ (pipe_ p) version in
               Some (Some (with_from p old, old, version))
             else None
           else Some None);
  match start with
  | None => Some p
  | Some (p, old, version) =>
      let old_ptr := DecodeSenderPacePtr_ old in
      size_pace ← GetMsgSize_ p old_ptr;
      if size_pace =? kBlankSize then Some p
      else
        let '(ok, p) := CASSenderPaceFrom_ p old (old_ptr + size_pace) false in
        if (ok : bool) then publish (S (Z.to_nat (size_pipe_ p))) p (old_ptr + size_pace) version else Some p
  end.

Definition SendMsg_ (p : MPSCFixedPipe) (msg_header : bool) (content : bytes) : option (bool * MPSCFixedPipe) :=
  match ReserveSpaceForSend_ p (Z.of_nat (length content)) with
  | (None, p) => Some (false, p)
  | (Some (msg, pos), p) =>
      p ← write p msg [z2b (if msg_header then 1 else 0)];
      p ← set_msg_size p msg (Z.of_nat (length content));
      p ← (if decide (length content = 0%nat) then Some p else write p (msg + kMsgOffset) content);
      p ← JustSendMsg_ p msg pos;
      Some (true, p)
  end.

(** [SendMsg]: whether it was sent, and whether the receiver is notified. *)
Fixpoint SendMsg_loop (n : nat) (p : MPSCFixedPipe) (msg_header : bool) (content : bytes) : option (bool * MPSCFixedPipe) :=
  match n with
  | O => Some (false, p)
  | S n =>
      '(ret, p) ← SendMsg_ p msg_header content;
      if (ret : bool) then Some (true, p) else SendMsg_loop n p msg_header content
  end.
Definition SendMsg (p : MPSCFixedPipe) (msg_header : bool) (content : bytes) : option (bool * bool * MPSCFixedPipe) :=
  let notify := negb (threshold_sender_notify_ p =? 0)
                && (size_pipe_ p - SizeSpace p <=? threshold_sender_notify_ p) in
  '(ret, p) ← SendMsg_loop kTimesBusyQuery p msg_header content;
  Some (ret, ret && notify, p).

(** *** The receiver *)

Definition HasTodo (p : MPSCFixedPipe) : option (bool * MPSCFixedPipe) :=
  let from := DecodeSenderPaceFromPtr_ p in
  let r := receiver_pace_ p in
  if r <? from then Some (true, p)
  else if from =? r then Some (false, p)
  else
    rewind ← (if end_of_pipe_ p <? r + kMsgOffset then Some true else IsBlank_ <$> msg_size p r);
    if (rewind : bool) then Some (negb (from =? pipe_ p), with_receiver p (pipe_ p)) else Some (true, p).

Definition ReceiveMsg_ (p : MPSCFixedPipe) : option (option Z * MPSCFixedPipe) :=
  '(b, p) ← HasTodo p;
  Some (if (b : bool) then Some (receiver_pace_ p) else None, p).

(** [ReceiveMsg(0)]: two attempts. *)
Fixpoint ReceiveMsg_loop (n : nat) (p : MPSCFixedPipe) : option (option Z * MPSCFixedPipe) :=
  match n with
  | O => Some (None, p)
  | S n =>
      '(m, p) ← ReceiveMsg_ p;
      match m with Some m => Some (Some m, p) | None => ReceiveMsg_loop n p end
  end.
Definition ReceiveMsg (p : MPSCFixedPipe) : option (option Z * MPSCFixedPipe) := ReceiveMsg_loop kTimesBusyQuery p.

Definition MsgConsumed (p : MPSCFixedPipe) : option MPSCFixedPipe :=
  let orig := receiver_pace_ p in
  s ← GetMsgSize_ p orig;
  let p := with_receiver p (orig + s) in
  SetBlank_ p orig (orig + s).

(** The content of a received message, whose size field keeps the mark. *)
Definition content (p : MPSCFixedPipe) (msg : Z) : option bytes :=
  s ← msg_size p msg; read p (msg + kMsgOffset) (Z.to_nat (Z.land s (Z.lnot kMaskNotWriting))).

(** *** A ring of 40 bytes *)
Definition ex_ops : option (list (option bytes) * bool) :=
  p ← Init 40 10 0 false 4096;
  '(r1, p) ← SendMsg_ p true (z2b <$> [1; 2; 3]);
  '(r2, p) ← SendMsg_ p true (z2b <$> [4; 5; 6; 7; 8; 9]);
  '(r3, p) ← SendMsg_ p true (z2b <$> [10]);
  '(m1, p) ← ReceiveMsg p;
  c1 ← (m1 ≫= content p : option bytes);
  p ← MsgConsumed p;
  '(m2, p) ← ReceiveMsg p;
  c2 ← (m2 ≫= content p : option bytes);
  p ← MsgConsumed p;
  '(r4, p) ← SendMsg_ p true (z2b <$> [11; 12]);
  '(m3, p) ← ReceiveMsg p;
  p ← MsgConsumed p;
  '(m3, p) ← ReceiveMsg p;
  c3 ← (m3 ≫= content p : option bytes);
  p ← MsgConsumed p;
  '(m4, p) ← ReceiveMsg p;
  Some ([Some c1; Some c2; Some c3], match m4 with None => true | _ => false end).
Example ex_ops_ok : ex_ops = Some ([Some (z2b <$> [1; 2; 3]); Some (z2b <$> [4; 5; 6; 7; 8; 9]); Some (z2b <$> [11; 12])], true).
Proof. vm_compute. reflexivity. Qed.

(** ** Encodings *)

Lemma lor_high a v n : 0 <= a < 2 ^ n -> 0 <= n -> 0 <= v ->
  Z.land (Z.lor a (Z.shiftl v n)) (2 ^ n - 1) = a /\ Z.shiftr (Z.lor a (Z.shiftl v n)) n = v.
Proof.
  intros Ha Hn Hv. split.
  - replace (2 ^ n - 1) with (Z.ones n) by (rewrite Z.ones_equiv; lia).
    rewrite Z.land_lor_distr_l, !Z.land_ones by lia. rewrite Z.shiftl_mul_pow2 by lia.
    rewrite Z.mod_mul by (apply Z.pow_nonzero; lia). rewrite Z.lor_0_r. by apply Z.mod_small.
  - rewrite Z.shiftr_lor, Z.shiftr_shiftl_l, Z.sub_diag, Z.shiftl_0_r by lia.
    rewrite Z.shiftr_div_pow2, Z.div_small by lia. apply Z.lor_0_l.
Qed.

Definition good_ptr (a : Z) : Prop := 0 <= a < 2 ^ 48.
Definition good_version (v : Z) : Prop := 0 <= v < 2 ^ 16.

Lemma shiftl_version v : good_version v -> u64 (Z.shiftl v (64 - kNumBitsVersion)) = Z.shiftl v 48.
Proof.
  intros H. unfold good_version in *. change (64 - kNumBitsVersion) with 48. apply uwrap_small. unfold in_uint.
  rewrite Z.shiftl_mul_pow2 by lia. lia.
Qed.

Lemma decode_ptr a v : good_ptr a -> good_version v -> DecodeSenderPacePtr_ (EncodeSenderPace_ a v) = a.
Proof.
  intros Ha Hv. unfold DecodeSenderPacePtr_, EncodeSenderPace_. rewrite shiftl_version by done.
  apply (lor_high a v 48); unfold good_ptr, good_version in *; lia.
Qed.

Lemma decode_version a v : good_ptr a -> good_version v -> DecodeSenderPaceVersion_ (EncodeSenderPace_ a v) = v.
Proof.
  intros Ha Hv. unfold DecodeSenderPaceVersion_, EncodeSenderPace_. rewrite shiftl_version by done.
  change (64 - kNumBitsVersion) with 48. rewrite Z.shiftr_land.
  destruct (lor_high a v 48) as [_ ->]; [unfold good_ptr, good_version in *; lia..|].
  change (Z.shiftr kMaskVersion 48) with (Z.ones 16). rewrite Z.land_ones by lia. by apply Z.mod_small.
Qed.

(** *** The size field *)

Lemma land_mask n : 0 <= n < 2 ^ 31 -> Z.land n kMaskNotWriting = 0.
Proof.
  intros H. unfold kMaskNotWriting. apply Z.bits_inj. intros k. rewrite Z.land_spec, Z.bits_0.
  destruct (Z.ltb_spec k 0); [by rewrite Z.testbit_neg_r|].
  destruct (decide (k = 31)) as [->|Hk].
  - by rewrite (testbit_high n 31 31).
  - rewrite Z.shiftl_spec by lia. destruct (Z.ltb_spec k 31).
    + rewrite (Z.testbit_neg_r 1) by lia. apply andb_false_r.
    + rewrite (Z.bits_above_log2 1) by (cbn; lia). apply andb_false_r.
Qed.

Lemma ready_size n : 0 <= n < 2 ^ 31 - 1 ->
  Z.lor n kMaskNotWriting = n + 2 ^ 31 /\ Z.land (n + 2 ^ 31) (Z.lnot kMaskNotWriting) = n /\
  IsBlank_ (n + 2 ^ 31) = false /\ IsReady_ (n + 2 ^ 31) = true.
Proof.
  intros H. pose proof (land_mask n ltac:(lia)) as L.
  assert (Z.lor n kMaskNotWriting = n + 2 ^ 31) as E.
  { pose proof (Z.add_lor_land n kMaskNotWriting) as A. rewrite L in A.
    change kMaskNotWriting with (2 ^ 31) in *. lia. }
  assert (IsBlank_ (n + 2 ^ 31) = false) as B by (unfold IsBlank_, kBlankSize; apply Z.eqb_neq; lia).
  split_and!; [done| |done|].
  - rewrite <- E, Z.land_lor_distr_l. change (Z.land kMaskNotWriting (Z.lnot kMaskNotWriting)) with 0.
    rewrite Z.lor_0_r. rewrite <- Z.ldiff_land. 
    rewrite <- (Z.lor_ldiff_and n kMaskNotWriting) at 2. by rewrite L, Z.lor_0_r.
  - unfold IsReady_. rewrite B. cbn [negb andb]. unfold IsNotWriting_. rewrite <- E, Z.land_lor_distr_l, L. done.
Qed.

(** *** Memory *)

Definition sized (p : MPSCFixedPipe) : Prop := Z.of_nat (length (mem p)) = size_pipe_ p /\ 0 <= pipe_ p.

Lemma read_at p (X Y Z : bytes) ptr n : sized p -> mem p = X ++ Y ++ Z -> ptr = pipe_ p + Z.of_nat (length X) ->
  n = length Y -> read p ptr n = Some Y.
Proof.
  intros [S P] E -> ->. unfold read, end_of_pipe_. rewrite E, !length_app in S.
  rewrite (proj2 (Z.leb_le _ _)), (proj2 (Z.leb_le _ _)) by lia. cbn [andb].
  unfold off. replace (Z.to_nat _) with (length X) by lia. by rewrite E, drop_app_length, take_app_length.
Qed.

Lemma write_at p (X Y Z bs : bytes) ptr : sized p -> mem p = X ++ Y ++ Z -> ptr = pipe_ p + Z.of_nat (length X) ->
  length bs = length Y -> write p ptr bs = Some (with_mem p (X ++ bs ++ Z)).
Proof.
  intros [S P] E -> L. unfold write, end_of_pipe_. rewrite E, !length_app in S.
  rewrite (proj2 (Z.leb_le _ _)), (proj2 (Z.leb_le _ _)) by lia. cbn [andb].
  unfold off. replace (Z.to_nat _) with (length X) by lia. unfold splice. rewrite E, take_app_length, L.
  rewrite drop_app_ge by lia. replace (length X + length Y - length X)%nat with (length Y) by lia.
  by rewrite drop_app_length.
Qed.

Lemma sized_mem p m : sized p -> length m = length (mem p) -> sized (with_mem p m).
Proof. intros [S P] L. split; cbn; [|done]. by rewrite L. Qed.

Lemma blank_length n : length (blank n) = n.
Proof. apply length_replicate. Qed.
Lemma blank_app n k : blank (n + k) = blank n ++ blank k.
Proof. apply replicate_add. Qed.

(** A message as it stays in the ring. *)
Definition frame_head (h : bool) (size : Z) : bytes := z2b (if h then 1 else 0) :: blank 3 ++ le_bytes 4 size.
Definition enc (m : bool * bytes) : bytes := frame_head m.1 (Z.of_nat (length m.2) + 2 ^ 31) ++ m.2.
Definition encs (q : list (bool * bytes)) : bytes := concat (map enc q).

Lemma frame_head_length h n : length (frame_head h n) = 8%nat.
Proof. done. Qed.
Lemma enc_length m : length (enc m) = (8 + length m.2)%nat.
Proof. unfold enc. by rewrite length_app, frame_head_length. Qed.
Lemma encs_app q1 q2 : encs (q1 ++ q2) = encs q1 ++ encs q2.
Proof. unfold encs. by rewrite map_app, concat_app. Qed.
Lemma encs_one m : encs [m] = enc m.
Proof. unfold encs. cbn [map concat]. apply app_nil_r. Qed.
Lemma encs_cons m q : encs (m :: q) = enc m ++ encs q.
Proof. done. Qed.

(** The size field of a header. *)
Lemma msg_size_at p (X : bytes) (h : bool) n (Z : bytes) ptr : sized p -> mem p = X ++ frame_head h n ++ Z ->
  ptr = pipe_ p + Z.of_nat (length X) -> 0 <= n < 2 ^ 32 -> msg_size p ptr = Some n.
Proof.
  intros S E -> Hn. unfold msg_size.
  assert (mem p = (X ++ z2b (if h then 1 else 0) :: blank 3) ++ le_bytes 4 n ++ Z) as E2.
  { rewrite E. unfold frame_head. rewrite <- !app_assoc. done. }
  rewrite (read_at p _ _ _ _ 4 S E2); [cbn [fmap option_fmap option_map]|rewrite length_app; cbn; lia|by rewrite le_bytes_length].
  rewrite le_val_bytes. f_equal. apply Z.mod_small. change (256 ^ Z.of_nat 4) with (2 ^ 32). lia.
Qed.
Lemma set_msg_size_at p (X : bytes) (h : bool) n k (Z : bytes) ptr : sized p -> mem p = X ++ frame_head h n ++ Z ->
  ptr = pipe_ p + Z.of_nat (length X) ->
  set_msg_size p ptr k = Some (with_mem p (X ++ frame_head h k ++ Z)).
Proof.
  intros S E ->. unfold set_msg_size.
  assert (mem p = (X ++ z2b (if h then 1 else 0) :: blank 3) ++ le_bytes 4 n ++ Z) as E2.
  { rewrite E. unfold frame_head. rewrite <- !app_assoc. done. }
  rewrite (write_at p _ _ _ _ _ S E2); [|rewrite length_app; cbn; lia|by rewrite !le_bytes_length].
  unfold frame_head. rewrite <- !app_assoc. done.
Qed.

(** What [SendMsg_] and [SetReady_] write into a blank place. *)
Lemma put_message p (X : bytes) (h : bool) c (Z : bytes) ptr : sized p -> mem p = X ++ blank (8 + length c) ++ Z ->
  ptr = pipe_ p + Z.of_nat (length X) -> Z.of_nat (length c) < 2 ^ 31 - 1 ->
  exists p1 p2 p3,
    write p ptr [z2b (if h then 1 else 0)] = Some p1 /\
    set_msg_size p1 ptr (Z.of_nat (length c)) = Some p2 /\
    (if decide (length c = 0%nat) then Some p2 else write p2 (ptr + kMsgOffset) c) = Some p3 /\
    SetReady_ p3 ptr = Some (with_mem p (X ++ enc (h, c) ++ Z)).
Proof.
  intros S E -> L. change (8 + length c)%nat with (1 + (7 + length c))%nat in E. rewrite blank_app, <- app_assoc in E.
  eexists. set (p1 := with_mem p (X ++ frame_head h kBlankSize ++ blank (length c) ++ Z)).
  assert (write p (pipe_ p + Z.of_nat (length X)) [z2b (if h then 1 else 0)] = Some p1) as W1.
  { rewrite (write_at p X (blank 1) _ _ _ S E) by done. unfold p1. by destruct h. }
  assert (sized p1) as S1.
  { apply sized_mem; [done|]. rewrite E, !length_app, frame_head_length, !blank_length. cbn. lia. }
  eexists _, _. split; [exact W1|].
  rewrite (set_msg_size_at p1 X h kBlankSize (Z.of_nat (length c)) (blank (length c) ++ Z) _ S1) by done.
  split; [done|]. set (p2 := with_mem p1 _).
  assert (sized p2) as S2.
  { apply sized_mem; [done|]. unfold p1. cbn [mem with_mem]. rewrite !length_app, !frame_head_length. done. }
  assert ((if decide (length c = 0%nat) then Some p2 else write p2 (pipe_ p + Z.of_nat (length X) + kMsgOffset) c) =
    Some (with_mem p (X ++ frame_head h (Z.of_nat (length c)) ++ c ++ Z))) as W3.
  { case_decide as D.
    - apply nil_length_inv in D as ->. done.
    - rewrite (write_at p2 (X ++ frame_head h (Z.of_nat (length c))) (blank (length c)) Z c _ S2).
      + by rewrite <- app_assoc.
      + unfold p2. cbn [mem with_mem]. by rewrite <- app_assoc.
      + unfold p2, p1. cbn [pipe_ with_mem]. rewrite length_app, frame_head_length. unfold kMsgOffset. lia.
      + by rewrite blank_length. }
  split; [exact W3|]. set (p3 := with_mem p _).
  assert (sized p3) as S3.
  { apply sized_mem; [done|]. rewrite E, !length_app, !blank_length. rewrite frame_head_length. cbn. lia. }
  unfold SetReady_. rewrite (msg_size_at p3 X h (Z.of_nat (length c)) (c ++ Z) _ S3) by (done || lia).
  cbn [mbind option_bind]. rewrite (set_msg_size_at p3 X h (Z.of_nat (length c)) _ (c ++ Z) _ S3) by done.
  destruct (ready_size (Z.of_nat (length c))) as (-> & _); [lia|]. unfold enc. cbn [fst snd]. by rewrite <- app_assoc.
Qed.

Lemma GetMsgSize_at p (X : bytes) m (Z : bytes) ptr : sized p -> mem p = X ++ enc m ++ Z ->
  ptr = pipe_ p + Z.of_nat (length X) -> Z.of_nat (length m.2) < 2 ^ 31 - 1 ->
  msg_size p ptr = Some (Z.of_nat (length m.2) + 2 ^ 31) /\
  GetMsgSize_ p ptr = Some (8 + Z.of_nat (length m.2)).
Proof.
  intros S E -> L. unfold enc in E. rewrite <- app_assoc in E.
  assert (msg_size p (pipe_ p + Z.of_nat (length X)) = Some (Z.of_nat (length m.2) + 2 ^ 31)) as Sz
    by (apply (msg_size_at p X m.1 _ _ _ S E); [done|lia]).
  split; [done|]. unfold GetMsgSize_. rewrite Sz. cbn [mbind option_bind].
  destruct (ready_size (Z.of_nat (length m.2))) as (_ & -> & B & _); [lia|]. unfold IsBlank_ in B. rewrite B.
  cbn [negb]. f_equal. unfold kMsgOffset. apply uwrap_small. unfold in_uint. lia.
Qed.

Lemma content_at p (X : bytes) m (Z : bytes) ptr : sized p -> mem p = X ++ enc m ++ Z ->
  ptr = pipe_ p + Z.of_nat (length X) -> Z.of_nat (length m.2) < 2 ^ 31 - 1 -> content p ptr = Some m.2.
Proof.
  intros S E P L. unfold content. destruct (GetMsgSize_at p X m Z ptr S E P L) as [-> _]. cbn [mbind option_bind].
  destruct (ready_size (Z.of_nat (length m.2))) as (_ & -> & _); [lia|]. rewrite Nat2Z.id.
  apply (read_at p (X ++ frame_head m.1 (Z.of_nat (length m.2) + 2 ^ 31)) m.2 Z); [done| | |done].
  - rewrite E. unfold enc. by rewrite <- !app_assoc.
  - rewrite P, length_app, frame_head_length. unfold kMsgOffset. lia.
Qed.

(** ** The ring holds a queue *)

Record conf_ok (p : MPSCFixedPipe) : Prop := {
  pc_sized : sized p;
  pc_base : 0 < pipe_ p;
  pc_addr : pipe_ p + size_pipe_ p < 2 ^ 48;
  pc_max : 0 <= max_size_content_ p;
  pc_size : max_size_content_ p + kMsgOffset < size_pipe_ p < 2 ^ 31;
}.

(** The positions: the receiver at [ro], the senders at [so]. *)
Definition at_pos (p : MPSCFixedPipe) (ro so : nat) (v : Z) : Prop :=
  good_version v /\ receiver_pace_ p = pipe_ p + Z.of_nat ro /\ Z.of_nat so <= size_pipe_ p /\
  sender_pace_from_ p = EncodeSenderPace_ (pipe_ p + Z.of_nat so) v /\
  sender_pace_to_ p = EncodeSenderPace_ (pipe_ p + Z.of_nat so) v.

(** The messages follow the receiver, either in one piece or up to a blank rest
    at the end and from the beginning. *)
Definition layout (p : MPSCFixedPipe) (q : list (bool * bytes)) (ro so : nat) : Prop :=
  (exists g, so = (ro + length (encs q))%nat /\ mem p = blank ro ++ encs q ++ blank g) \/
  (exists q1 q2 g, q = q1 ++ q2 /\ q2 <> [] /\ so = length (encs q2) /\ (so < ro)%nat /\
     mem p = encs q2 ++ blank (ro - so) ++ encs q1 ++ blank g).

Definition rep (p : MPSCFixedPipe) (q : list (bool * bytes)) : Prop :=
  conf_ok p /\ Forall (fun m => Z.of_nat (length m.2) <= max_size_content_ p) q /\
  exists ro so v, at_pos p ro so v /\ layout p q ro so.

(** One message is stored at the senders' position and published. *)
Lemma send_here p p0 ro so v h c X Z : conf_ok p0 -> at_pos p0 ro so v ->
  p = with_to p0 (EncodeSenderPace_ (pipe_ p0 + Z.of_nat so + (kMsgOffset + Z.of_nat (length c))) v) ->
  mem p0 = X ++ blank (8 + length c) ++ Z -> length X = so -> Z.of_nat (length c) <= max_size_content_ p0 ->
  (p1 ← write p (pipe_ p0 + Z.of_nat so) [z2b (if (h : bool) then 1 else 0)];
   p2 ← set_msg_size p1 (pipe_ p0 + Z.of_nat so) (Z.of_nat (length c));
   p3 ← (if decide (length c = 0%nat) then Some p2 else write p2 (pipe_ p0 + Z.of_nat so + kMsgOffset) c);
   p4 ← JustSendMsg_ p3 (pipe_ p0 + Z.of_nat so) None;
   Some (true, p4)) =
  Some (true, mkPipe (size_pipe_ p0) (max_size_content_ p0) (threshold_sender_notify_ p0) (pipe_ p0)
    (X ++ enc (h, c) ++ Z) (receiver_pace_ p0)
    (EncodeSenderPace_ (pipe_ p0 + Z.of_nat (so + length (enc (h, c)))) v)
    (EncodeSenderPace_ (pipe_ p0 + Z.of_nat (so + length (enc (h, c)))) v)).
Proof.
  intros C (Hv & HR & Hso & HF & HT) -> E LX Lc. destruct C as [S B Ad Mx Sz]. unfold kMsgOffset in *.
  set (p := with_to p0 _). assert (sized p) as Sp by exact S.
  destruct (put_message p X h c Z (pipe_ p0 + Z.of_nat so) Sp E) as (p1 & p2 & p3 & W1 & W2 & W3 & W4);
    [cbn; lia|lia|]. rewrite W1. cbn [mbind option_bind]. rewrite W2. cbn [mbind option_bind].
  unfold kMsgOffset in W3. rewrite W3. cbn [mbind option_bind].
  unfold JustSendMsg_. rewrite W4. cbn [mbind option_bind]. set (p4 := with_mem p _).
  assert (sized p4) as S4.
  { apply sized_mem; [done|]. change (mem p) with (mem p0). rewrite E, !length_app, enc_length, blank_length. done. }
  change (sender_pace_from_ p4) with (sender_pace_from_ p0). rewrite HF.
  assert (length X + (8 + length c) <= length (mem p0))%nat as LM.
  { rewrite E, !length_app, blank_length. lia. }
  destruct S as [S P0]. assert (good_ptr (pipe_ p0 + Z.of_nat so)) as G1 by (unfold good_ptr; lia).
  assert (good_ptr (pipe_ p0 + Z.of_nat so + (8 + Z.of_nat (length c)))) as G2 by (unfold good_ptr; lia).
  rewrite decode_ptr, decode_version, Z.eqb_refl by done. cbn [mbind option_bind]. rewrite decode_ptr by done.
  destruct (GetMsgSize_at p4 X (h, c) Z (pipe_ p0 + Z.of_nat so) S4) as [_ ->]; [done|cbn; lia|cbn [snd]; lia|].
  cbn [mbind option_bind snd]. rewrite (proj2 (Z.eqb_neq _ kBlankSize)) by (unfold kBlankSize; lia).
  unfold CASSenderPaceFrom_. change (sender_pace_from_ p4) with (sender_pace_from_ p0). rewrite HF, Z.eqb_refl.
  unfold next_pace. rewrite decode_version by done. cbn [publish].
  change (DecodeSenderPaceToPtr_ (with_from p4 _)) with
    (DecodeSenderPacePtr_ (EncodeSenderPace_ (pipe_ p0 + Z.of_nat so + (8 + Z.of_nat (length c))) v)).
  rewrite decode_ptr by done. rewrite Z.eqb_refl. cbn [mbind option_bind]. do 2 f_equal.
  rewrite enc_length. cbn [snd].
  replace (pipe_ p0 + Z.of_nat (so + (8 + length c))) with (pipe_ p0 + Z.of_nat so + (8 + Z.of_nat (length c))) by lia.
  done.
Qed.

Definition next_version (v : Z) : Z := (v + 1) mod kNumVersions.
Lemma next_version_good v : good_version (next_version v).
Proof. unfold good_version, next_version. apply (Z.mod_pos_bound (v + 1) kNumVersions). done. Qed.

(** The same at the beginning of the ring, after the senders left its end. *)
Lemma send_rewind p p0 ro so v (h : bool) c Z : conf_ok p0 -> at_pos p0 ro so v -> (0 < so)%nat ->
  p = with_to p0 (EncodeSenderPace_ (pipe_ p0 + (kMsgOffset + Z.of_nat (length c))) (next_version v)) ->
  mem p0 = blank (8 + length c) ++ Z -> Z.of_nat (length c) <= max_size_content_ p0 ->
  (p1 ← write p (pipe_ p0) [z2b (if h then 1 else 0)];
   p2 ← set_msg_size p1 (pipe_ p0) (Z.of_nat (length c));
   p3 ← (if decide (length c = 0%nat) then Some p2 else write p2 (pipe_ p0 + kMsgOffset) c);
   p4 ← JustSendMsg_ p3 (pipe_ p0) (Some (pipe_ p0 + Z.of_nat so));
   Some (true, p4)) =
  Some (true, mkPipe (size_pipe_ p0) (max_size_content_ p0) (threshold_sender_notify_ p0) (pipe_ p0)
    (enc (h, c) ++ Z) (receiver_pace_ p0)
    (EncodeSenderPace_ (pipe_ p0 + Z.of_nat (length (enc (h, c)))) (next_version v))
    (EncodeSenderPace_ (pipe_ p0 + Z.of_nat (length (enc (h, c)))) (next_version v))).
Proof.
  intros C (Hv & HR & Hso & HF & HT) Hpos -> E Lc. destruct C as [S B Ad Mx Sz]. unfold kMsgOffset in *.
  set (p := with_to p0 _). assert (sized p) as Sp by exact S. pose proof (next_version_good v) as Hv'.
  destruct (put_message p [] h c Z (pipe_ p0) Sp E) as (p1 & p2 & p3 & W1 & W2 & W3 & W4);
    [cbn; lia|lia|]. rewrite W1. cbn [mbind option_bind]. rewrite W2. cbn [mbind option_bind].
  unfold kMsgOffset in W3. rewrite W3. cbn [mbind option_bind].
  unfold JustSendMsg_. rewrite W4. cbn [mbind option_bind app]. set (p4 := with_mem p _).
  assert (sized p4) as S4.
  { apply sized_mem; [done|]. change (mem p) with (mem p0). rewrite E, !length_app, enc_length, blank_length. done. }
  change (sender_pace_from_ p4) with (sender_pace_from_ p0). rewrite HF.
  assert (8 + length c <= length (mem p0))%nat as LM by (rewrite E, !length_app, blank_length; lia).
  destruct S as [S P0]. assert (good_ptr (pipe_ p0)) as G0 by (unfold good_ptr; lia).
  assert (good_ptr (pipe_ p0 + Z.of_nat so)) as G1 by (unfold good_ptr; lia).
  assert (good_ptr (pipe_ p0 + (8 + Z.of_nat (length c)))) as G2 by (unfold good_ptr; lia).
  rewrite decode_ptr, decode_version by done. rewrite (proj2 (Z.eqb_neq _ (pipe_ p0))) by lia.
  change (pipe_ p4) with (pipe_ p0). rewrite Z.eqb_refl. cbn [mbind option_bind].
  unfold DecodeSenderPaceFromPtr_. change (sender_pace_from_ p4) with (sender_pace_from_ p0).
  rewrite HF, decode_ptr, Z.eqb_refl by done. cbn [mbind option_bind]. fold (next_version v).
  rewrite decode_ptr by done. set (p5 := with_from p4 _).
  destruct (GetMsgSize_at p5 [] (h, c) Z (pipe_ p0) S4) as [_ ->]; [done|cbn; lia|cbn [snd]; lia|].
  cbn [mbind option_bind snd]. rewrite (proj2 (Z.eqb_neq _ kBlankSize)) by (unfold kBlankSize; lia).
  unfold CASSenderPaceFrom_. change (sender_pace_from_ p5) with (EncodeSenderPace_ (pipe_ p0) (next_version v)).
  rewrite Z.eqb_refl. unfold next_pace. rewrite decode_version by done. cbn [publish].
  change (DecodeSenderPaceToPtr_ (with_from p5 _)) with
    (DecodeSenderPacePtr_ (EncodeSenderPace_ (pipe_ p0 + (8 + Z.of_nat (length c))) (next_version v))).
  rewrite decode_ptr by done. rewrite Z.eqb_refl. cbn [mbind option_bind]. do 2 f_equal.
  rewrite enc_length. cbn [snd].
  replace (pipe_ p0 + Z.of_nat (8 + length c)) with (pipe_ p0 + (8 + Z.of_nat (length c))) by lia. done.
Qed.

(** Where the senders may write. *)
Lemma CAS_to p ro so v n nv : conf_ok p -> at_pos p ro so v ->
  CASSenderPaceTo_ p (sender_pace_to_ p) n nv =
    (true, with_to p (EncodeSenderPace_ n (if nv then next_version v else v))).
Proof.
  intros C (Hv & HR & Hso & HF & HT). unfold CASSenderPaceTo_. rewrite Z.eqb_refl. do 2 f_equal.
  unfold next_pace. rewrite HT, decode_version; [by destruct nv| |done].
  destruct C. unfold good_ptr, kMsgOffset in *. lia.
Qed.

Lemma to_ptr p ro so v : conf_ok p -> at_pos p ro so v ->
  DecodeSenderPacePtr_ (sender_pace_to_ p) = pipe_ p + Z.of_nat so /\
  DecodeSenderPacePtr_ (sender_pace_from_ p) = pipe_ p + Z.of_nat so.
Proof.
  intros C (Hv & HR & Hso & HF & HT). rewrite HF, HT, decode_ptr; [done| |done].
  destruct C. unfold good_ptr, kMsgOffset in *. lia.
Qed.

Lemma rep_intro p ro so v q m r f : conf_ok p -> length m = length (mem p) ->
  Forall (fun x : bool * bytes => Z.of_nat (length x.2) <= max_size_content_ p) q ->
  let p' := mkPipe (size_pipe_ p) (max_size_content_ p) (threshold_sender_notify_ p) (pipe_ p) m r f f in
  at_pos p' ro so v -> layout p' q ro so -> rep p' q.
Proof.
  intros [[S P] ? ? ? ?] L F p' A Y. split; [|split; [done|by exists ro, so, v]].
  split; try done. split; cbn; [by rewrite L|done].
Qed.

(** Sending when the messages lie in one piece: behind them, or, when there is
    no room, at the start of the ring. *)
Lemma send_straight p q h c ro so v g : conf_ok p -> at_pos p ro so v -> Z.of_nat (length c) <= max_size_content_ p ->
  Forall (fun x : bool * bytes => Z.of_nat (length x.2) <= max_size_content_ p) (q ++ [(h, c)]) ->
  so = (ro + length (encs q))%nat -> mem p = blank ro ++ encs q ++ blank g ->
  exists b p', SendMsg_ p h c = Some (b, p') /\ (if (b : bool) then rep p' (q ++ [(h, c)]) else p' = p).
Proof.
  intros C A L F' Es Em. unfold SendMsg_, ReserveSpaceForSend_. rewrite (proj2 (Z.ltb_ge _ _)) by done.
  destruct (to_ptr p ro so v C A) as [-> _]. pose proof A as (Hv & HR & Hso & HF & HT). rewrite HR.
  pose proof (pc_sized p C) as [SZ _]. pose proof (pc_addr p C). pose proof (pc_size p C) as PS. unfold end_of_pipe_ in *.
  set (n := (8 + length c)%nat). assert (kMsgOffset + Z.of_nat (length c) = Z.of_nat n) as En by (unfold kMsgOffset; lia).
  assert (length (enc (h, c)) = n) as Ee by apply enc_length.
  assert (length (mem p) = so + g)%nat as Lm by (rewrite Em, !length_app, !blank_length; lia).
  rewrite (proj2 (Z.leb_le _ _)) by lia. destruct (Z.leb_spec (pipe_ p + Z.of_nat so + (kMsgOffset + Z.of_nat (length c))) (size_pipe_ p + pipe_ p)) as [Fit|Fit].
  + rewrite (CAS_to p ro so v _ false C A).
    assert (mem p = (blank ro ++ encs q) ++ blank n ++ blank (g - n)) as Em'.
    { rewrite Em, <- app_assoc, <- blank_app. do 3 f_equal. lia. }
    rewrite (send_here _ p ro so v h c _ _ C A eq_refl Em'); [|rewrite length_app, blank_length; lia|done].
    eexists true, _. split; [done|].
    apply (rep_intro p ro (so + length (enc (h, c))) v); [done| |done| |].
    * rewrite Lm, !length_app, !blank_length, Ee. lia.
    * split_and!; cbn [pipe_ size_pipe_ receiver_pace_ sender_pace_from_ sender_pace_to_]; try done. lia.
    * left. exists (g - n)%nat. rewrite encs_app, encs_one. cbn [mem]. rewrite length_app, <- !app_assoc. split; [lia|done].
  + destruct (Z.ltb_spec (pipe_ p + (kMsgOffset + Z.of_nat (length c))) (pipe_ p + Z.of_nat ro)) as [Rw|Rw]; [|by exists false, p].
    rewrite (CAS_to p ro so v _ true C A). cbn beta iota. change (pipe_ (with_to p _)) with (pipe_ p).
    assert (mem p = blank n ++ blank (ro - n) ++ encs q ++ blank g) as Em'.
    { rewrite Em, (app_assoc (blank n)), <- blank_app. do 2 f_equal. lia. }
    rewrite (send_rewind _ p ro so v h c _ C A ltac:(lia) eq_refl Em' L).
    eexists true, _. split; [done|].
    apply (rep_intro p ro (length (enc (h, c))) (next_version v)); [done| |done| |].
    * rewrite Lm, !length_app, !blank_length, Ee. lia.
    * split_and!; cbn [pipe_ size_pipe_ receiver_pace_ sender_pace_from_ sender_pace_to_]; try done; [apply next_version_good|]. lia.
    * right. exists q, [(h, c)], g. rewrite encs_one. cbn [mem].
      split_and!; [done|done|done|lia|]. rewrite Ee. done.
Qed.

(** Sending when they wrap around: between the last one and the first. *)
Lemma send_wrapped p q h c ro so v q1 q2 g : conf_ok p -> at_pos p ro so v -> Z.of_nat (length c) <= max_size_content_ p ->
  Forall (fun x : bool * bytes => Z.of_nat (length x.2) <= max_size_content_ p) (q ++ [(h, c)]) ->
  q = q1 ++ q2 -> q2 <> [] -> so = length (encs q2) -> (so < ro)%nat -> mem p = encs q2 ++ blank (ro - so) ++ encs q1 ++ blank g ->
  exists b p', SendMsg_ p h c = Some (b, p') /\ (if (b : bool) then rep p' (q ++ [(h, c)]) else p' = p).
Proof.
  intros C A L F' Eq N2 Es Lt Em. unfold SendMsg_, ReserveSpaceForSend_. rewrite (proj2 (Z.ltb_ge _ _)) by done.
  destruct (to_ptr p ro so v C A) as [-> _]. pose proof A as (Hv & HR & Hso & HF & HT). rewrite HR.
  pose proof (pc_sized p C) as [SZ _]. pose proof (pc_addr p C). pose proof (pc_size p C) as PS. unfold end_of_pipe_ in *.
  set (n := (8 + length c)%nat). assert (kMsgOffset + Z.of_nat (length c) = Z.of_nat n) as En by (unfold kMsgOffset; lia).
  assert (length (enc (h, c)) = n) as Ee by apply enc_length.
  assert (length (mem p) = ro + length (encs q1) + g)%nat as Lm by (rewrite Em, !length_app, !blank_length; lia).
  rewrite (proj2 (Z.leb_gt _ _)) by lia. destruct (Z.ltb_spec (pipe_ p + Z.of_nat so + (kMsgOffset + Z.of_nat (length c))) (pipe_ p + Z.of_nat ro)) as [Fit|Fit];
    [|by exists false, p].
  rewrite (CAS_to p ro so v _ false C A).
  assert (mem p = encs q2 ++ blank n ++ (blank (ro - so - n) ++ encs q1 ++ blank g)) as Em'.
  { rewrite Em. f_equal. rewrite (app_assoc (blank n)), <- blank_app. do 2 f_equal. lia. }
  rewrite (send_here _ p ro so v h c _ _ C A eq_refl Em'); [|done|done].
  eexists true, _. split; [done|].
  apply (rep_intro p ro (so + length (enc (h, c))) v); [done| |done| |].
  * rewrite Em', !length_app, !blank_length, Ee. lia.
  * split_and!; cbn [pipe_ size_pipe_ receiver_pace_ sender_pace_from_ sender_pace_to_]; try done. lia.
  * right. exists q1, (q2 ++ [(h, c)]), g. rewrite encs_app, encs_one. cbn [mem].
    split_and!; [by rewrite Eq, app_assoc|by destruct q2|rewrite length_app; lia|lia|].
    rewrite <- !app_assoc, Ee. do 3 f_equal. f_equal. lia.
Qed.

(** Sending below the limits of the ring appends to the queue; otherwise nothing
    changes. *)
Lemma SendMsg__spec p q h c : rep p q ->
  exists b p', SendMsg_ p h c = Some (b, p') /\
    (if (b : bool) then rep p' (q ++ [(h, c)]) else p' = p).
Proof.
  intros (C & F & ro & so & v & A & Y). destruct (Z.ltb_spec (max_size_content_ p) (Z.of_nat (length c))) as [L|L].
  { exists false, p. unfold SendMsg_, ReserveSpaceForSend_. by rewrite (proj2 (Z.ltb_lt _ _)). }
  assert (Forall (fun x : bool * bytes => Z.of_nat (length x.2) <= max_size_content_ p) (q ++ [(h, c)])) as F'
    by (apply Forall_app; split; [done|]; constructor; [done|constructor]).
  destruct Y as [(g & Es & Em)|(q1 & q2 & g & Eq & N2 & Es & Lt & Em)]; [by eapply send_straight|by eapply send_wrapped].
Qed.

(** ** Receiving *)

Definition not_empty (q : list (bool * bytes)) : bool := match q with [] => false | _ => true end.

(** The first message is at the receiver's position. *)
Definition head_at (p : MPSCFixedPipe) (x : bool * bytes) : Prop :=
  exists X Z, mem p = X ++ enc x ++ Z /\ receiver_pace_ p = pipe_ p + Z.of_nat (length X).

Lemma encs_pos q : q <> [] -> (8 <= length (encs q))%nat.
Proof. destruct q as [|m q]; [done|]. intros _. rewrite encs_cons, length_app, enc_length. lia. Qed.

Lemma rep_small p q x : rep p (x :: q) -> Z.of_nat (length x.2) < 2 ^ 31 - 1.
Proof.
  intros (C & F & _). apply list.Forall_cons in F as [F _]. pose proof (pc_size p C). unfold kMsgOffset in *. lia.
Qed.

(** The end of the ring holds nothing more: the receiver starts again. *)
Lemma blank_rest p (X : bytes) g : sized p -> mem p = X ++ blank g ->
  (if end_of_pipe_ p <? pipe_ p + Z.of_nat (length X) + kMsgOffset then Some true
   else IsBlank_ <$> msg_size p (pipe_ p + Z.of_nat (length X))) = Some true.
Proof.
  intros S E. destruct (Z.ltb_spec (end_of_pipe_ p) (pipe_ p + Z.of_nat (length X) + kMsgOffset)) as [L|L]; [done|].
  pose proof S as [SZ _]. rewrite E, length_app, blank_length in SZ. unfold end_of_pipe_, kMsgOffset in L.
  assert (mem p = (X ++ blank 4) ++ blank 4 ++ blank (g - 8)) as E2.
  { rewrite E, <- app_assoc, <- !blank_app. do 2 f_equal. lia. }
  unfold msg_size. rewrite (read_at p _ _ _ _ 4 S E2); [done|rewrite length_app, blank_length; lia|done].
Qed.

Lemma HasTodo_spec p q : rep p q -> exists p', HasTodo p = Some (not_empty q, p') /\ rep p' q /\
  match q with [] => p' = p | x :: _ => head_at p' x end.
Proof.
  intros R. pose proof R as (C & F & ro & so & v & A & Y). unfold HasTodo, DecodeSenderPaceFromPtr_.
  destruct (to_ptr p ro so v C A) as [_ ->]. pose proof A as (Hv & HR & Hso & HF & HT). rewrite HR.
  destruct Y as [(g & Es & Em)|(q1 & q2 & g & Eq & N2 & Es & Lt & Em)].
  - destruct q as [|x q].
    + cbn in Es. rewrite (proj2 (Z.ltb_ge _ _)), (proj2 (Z.eqb_eq _ _)) by lia. by exists p.
    + pose proof (encs_pos (x :: q)). rewrite (proj2 (Z.ltb_lt _ _)) by (specialize (H ltac:(done)); lia).
      exists p. split_and!; [done|done|]. exists (blank ro), (encs q ++ blank g).
      rewrite encs_cons, <- app_assoc in Em. by rewrite blank_length.
  - rewrite (proj2 (Z.ltb_ge _ _)), (proj2 (Z.eqb_neq _ _)) by lia. pose proof (encs_pos q2 N2).
    destruct q1 as [|x q1].
    + cbn in Eq. subst q. assert (mem p = (encs q2 ++ blank (ro - so)) ++ blank g) as Em2 by (by rewrite Em, <- app_assoc).
      pose proof (blank_rest p (encs q2 ++ blank (ro - so)) g (pc_sized p C) Em2) as BR.
      rewrite length_app, blank_length in BR. replace (length (encs q2) + (ro - so))%nat with ro in BR by lia.
      rewrite BR. cbn [mbind option_bind]. rewrite (proj2 (Z.eqb_neq _ _)) by lia. cbn [negb].
      exists (with_receiver p (pipe_ p)). assert (rep (with_receiver p (pipe_ p)) q2) as R2.
      { split; [by destruct C|]. split; [done|]. exists 0%nat, so, v. split.
        - split_and!; try done. cbn. lia.
        - left. exists (ro - so + g)%nat. split; [done|]. cbn. by rewrite Em2, <- app_assoc, <- blank_app. }
      destruct q2 as [|x q2]; [done|]. split_and!; [done|done|]. exists [], (encs q2 ++ blank (ro - so) ++ blank g).
      split; [|cbn; lia]. rewrite encs_cons in Em2. cbn [mem with_receiver]. rewrite Em2. cbn. by rewrite <- !app_assoc.
    + subst q. cbn [app not_empty].
      assert (mem p = (encs q2 ++ blank (ro - so)) ++ enc x ++ encs q1 ++ blank g) as Em2
        by (rewrite Em, encs_cons, <- !app_assoc; done).
      assert (ro = length (encs q2 ++ blank (ro - so))) as Lr by (rewrite length_app, blank_length; lia).
      destruct (GetMsgSize_at p _ x _ (pipe_ p + Z.of_nat ro) (pc_sized p C) Em2) as [Sz _];
        [by rewrite <- Lr|exact (rep_small p (q1 ++ q2) x R)|].
      pose proof (pc_sized p C) as [SZ _]. rewrite Em2, !length_app, enc_length, blank_length in SZ.
      rewrite (proj2 (Z.ltb_ge _ _)) by (unfold end_of_pipe_, kMsgOffset; rewrite <- SZ; lia).
      rewrite Sz. cbn [fmap option_fmap option_map mbind option_bind].
      destruct (ready_size (Z.of_nat (length x.2))) as (_ & _ & -> & _); [pose proof (rep_small p (q1 ++ q2) x R); lia|].
      exists p. split_and!; [done|done|]. exists (encs q2 ++ blank (ro - so)), (encs q1 ++ blank g). by rewrite <- Lr.
Qed.

(** What the receiver finds: the oldest message, or nothing when there is none. *)
Lemma ReceiveMsg_spec p q : rep p q -> exists p', rep p' q /\
  match q with
  | [] => ReceiveMsg p = Some (None, p')
  | x :: _ => ReceiveMsg p = Some (Some (receiver_pace_ p'), p') /\ head_at p' x /\ content p' (receiver_pace_ p') = Some x.2
  end.
Proof.
  intros R. destruct (HasTodo_spec p q R) as (p' & E & R' & H). unfold ReceiveMsg. cbn [ReceiveMsg_loop kTimesBusyQuery].
  unfold ReceiveMsg_. rewrite E. cbn [mbind option_bind]. exists p'. split; [done|]. destruct q as [|x q]; cbn [not_empty].
  - subst p'. rewrite E. done.
  - split_and!; [done|done|]. destruct H as (X & Z & Em & Er).
    apply (content_at p' X x Z); [apply R'|done|done|by apply (rep_small p' q)].
Qed.

Lemma MsgConsumed_spec p x q : rep p (x :: q) -> head_at p x -> exists p', MsgConsumed p = Some p' /\ rep p' q.
Proof.
  intros R (X & T & Em & Er). pose proof R as (C & F & ro & so & v & A & Y). pose proof (rep_small p q x R) as Lx.
  destruct (GetMsgSize_at p X x T (receiver_pace_ p) (pc_sized p C) Em Er Lx) as [_ G].
  unfold MsgConsumed. rewrite G. cbn [mbind option_bind]. unfold SetBlank_.
  replace (Z.to_nat _) with (length (enc x)) by (rewrite enc_length; lia).
  rewrite (write_at (with_receiver p (receiver_pace_ p + (8 + Z.of_nat (length x.2)))) X (enc x) T _ _ (pc_sized p C) Em Er)
    by apply blank_length.
  eexists. split; [done|]. destruct C as [[S P] ? ? ? ?]. pose proof A as (Hv & HR & Hso & HF & HT).
  assert (length X = ro) as LX by lia. apply list.Forall_cons in F as [_ F].
  set (p' := with_mem _ _). assert (conf_ok p') as C'.
  { split; try done. split; [|done]. unfold p'. cbn [mem with_mem size_pipe_ with_receiver]. rewrite !length_app, blank_length, <- S, Em, !length_app. done. }
  split; [done|]. split; [done|]. exists (ro + length (enc x))%nat, so, v. split.
  { split_and!; try done. unfold p'. cbn [receiver_pace_ with_mem with_receiver pipe_]. rewrite HR, enc_length. lia. }
  destruct Y as [(g & Es & Em2)|(q1 & q2 & g & Eq & N2 & Es & Lt & Em2)].
  - left. exists g. rewrite encs_cons, length_app in Es. split; [lia|]. unfold p'. cbn [mem with_mem].
    rewrite encs_cons, <- app_assoc in Em2. rewrite Em2 in Em.
    apply app_inj_1 in Em as [EX Em]; [|by rewrite blank_length]. apply (inj (app (enc x))) in Em.
    by rewrite <- EX, <- Em, blank_app, <- app_assoc.
  - destruct q1 as [|x' q1].
    { cbn in Eq. exfalso. rewrite <- Eq in *. assert (mem p = (encs (x :: q) ++ blank (ro - so)) ++ blank g) as Em3.
      { by rewrite Em2, <- app_assoc. }
      rewrite Em in Em3. apply app_inj_1 in Em3 as [_ E3]; [|rewrite length_app, blank_length; lia].
      pose proof (enc_length x) as EL. assert (Z.of_nat (8 + length x.2) <= Z.of_nat g) as Lg.
      { apply (f_equal length) in E3. rewrite length_app, blank_length, EL in E3. lia. }
      apply (f_equal (take 8)) in E3. rewrite take_app_le in E3 by lia.
      unfold enc in E3. rewrite take_app_le in E3 by (rewrite frame_head_length; lia).
      apply (f_equal (fun l => l !! 0%nat)) in E3. unfold frame_head in E3. cbn [take lookup list_lookup] in E3.
      replace g with (1 + (g - 1))%nat in E3 by lia. rewrite blank_app in E3. cbn in E3. destruct x.1; done. }
    injection Eq as -> Eq. right. exists q1, q2, g. split_and!; [done|done|done|lia|]. unfold p'. cbn [mem with_mem].
    assert (mem p = (encs q2 ++ blank (ro - so)) ++ enc x' ++ encs q1 ++ blank g) as Em3
      by (rewrite Em2, encs_cons, <- !app_assoc; done).
    rewrite Em in Em3. apply app_inj_1 in Em3 as [EX Em3]; [|rewrite length_app, blank_length; lia].
    apply (inj (app (enc x'))) in Em3. rewrite EX, Em3, <- !app_assoc.
    replace (ro + length (enc x') - so)%nat with ((ro - so) + length (enc x'))%nat by lia.
    by rewrite blank_app, <- !app_assoc.
Qed.

(** ** Histories *)

Inductive Op := Send (h : bool) (c : bytes) | Recv.
Inductive Result := Sent (b : bool) | Got (c : option bytes).

(** [Recv] is [ReceiveMsg(0)], the use of the content and [MsgConsumed]. *)
Definition step (p : MPSCFixedPipe) (o : Op) : option (Result * MPSCFixedPipe) :=
  match o with
  | Send h c => '(b, _, p) ← SendMsg p h c; Some (Sent b, p)
  | Recv =>
      '(m, p) ← ReceiveMsg p;
      match m with
      | None => Some (Got None, p)
      | Some m => c ← content p m; p ← MsgConsumed p; Some (Got (Some c), p)
      end
  end.
Fixpoint run (p : MPSCFixedPipe) (ops : list Op) : option (list Result * MPSCFixedPipe) :=
  match ops with
  | [] => Some ([], p)
  | o :: ops => '(r, p) ← step p o; '(rs, p) ← run p ops; Some (r :: rs, p)
  end.

(** The specification: a queue that may refuse a message. *)
Inductive explains : list (bool * bytes) -> list Op -> list Result -> list (bool * bytes) -> Prop :=
| ex_done q : explains q [] [] q
| ex_accept q h c ops rs q' : explains (q ++ [(h, c)]) ops rs q' -> explains q (Send h c :: ops) (Sent true :: rs) q'
| ex_refuse q h c ops rs q' : explains q ops rs q' -> explains q (Send h c :: ops) (Sent false :: rs) q'
| ex_recv x q ops rs q' : explains q ops rs q' -> explains (x :: q) (Recv :: ops) (Got (Some x.2) :: rs) q'
| ex_none ops rs q' : explains [] ops rs q' -> explains [] (Recv :: ops) (Got None :: rs) q'.

Lemma SendMsg_spec p q h c : rep p q -> exists b n p', SendMsg p h c = Some (b, n, p') /\
  (if (b : bool) then rep p' (q ++ [(h, c)]) else p' = p).
Proof.
  intros R. unfold SendMsg. cbn [SendMsg_loop kTimesBusyQuery].
  destruct (SendMsg__spec p q h c R) as (b & p1 & E & H1). rewrite E. cbn [mbind option_bind]. destruct b.
  - eexists true, _, p1. by split.
  - subst p1. rewrite E. cbn [mbind option_bind]. eexists false, _, p. by split.
Qed.

Lemma run_explained ops : forall p q, rep p q ->
  exists rs p' q', run p ops = Some (rs, p') /\ rep p' q' /\ explains q ops rs q'.
Proof.
  induction ops as [|o ops IH]; intros p q R; [exists [], p, q; split_and!; [done|done|constructor]|].
  destruct o as [h c|]; cbn [run step].
  - destruct (SendMsg_spec p q h c R) as (b & n & p1 & E & H). rewrite E. cbn [mbind option_bind]. destruct b.
    + destruct (IH p1 _ H) as (rs & p' & q' & Er & R' & X). rewrite Er. cbn [mbind option_bind].
      eexists _, p', q'. split_and!; [done|done|by constructor].
    + subst p1. destruct (IH p q R) as (rs & p' & q' & Er & R' & X). rewrite Er. cbn [mbind option_bind].
      eexists _, p', q'. split_and!; [done|done|by constructor].
  - destruct (ReceiveMsg_spec p q R) as (p1 & R1 & H). destruct q as [|x q].
    + rewrite H. cbn [mbind option_bind]. destruct (IH p1 [] R1) as (rs & p' & q' & Er & R' & X). rewrite Er.
      cbn [mbind option_bind]. eexists _, p', q'. split_and!; [done|done|by constructor].
    + destruct H as (E & HA & HC). rewrite E. cbn [mbind option_bind]. rewrite HC. cbn [mbind option_bind].
      destruct (MsgConsumed_spec p1 x q R1 HA) as (p2 & E2 & R2). rewrite E2. cbn [mbind option_bind].
      destruct (IH p2 q R2) as (rs & p' & q' & Er & R' & X). rewrite Er. cbn [mbind option_bind].
      eexists _, p', q'. split_and!; [done|done|by constructor].
Qed.

Lemma Init_rep size max thr n base p : 0 <= max -> size < 2 ^ 31 -> 0 < base -> base + size < 2 ^ 48 ->
  Init size max thr n base = Some p -> rep p [].
Proof.
  intros Hm Hs Hb Ha. unfold Init. destruct (Z.leb_spec size (max + kMsgOffset)) as [L|L]; [done|]. cbn [orb].
  destruct (negb (thr =? 0) && negb n); [done|]. intros [= <-]. unfold kMsgOffset in L. split; [|split; [constructor|]].
  - split; cbn [pipe_ size_pipe_ max_size_content_]; try done.
    + split; cbn [mem size_pipe_ pipe_]; [rewrite blank_length; lia|lia].
  - exists 0%nat, 0%nat, 0. split.
    + unfold at_pos, good_version. split_and!; cbn; rewrite ?Z.add_0_r; try done; lia.
    + left. exists (Z.to_nat size). done.
Qed.

(** C28: whatever messages are sent and received, the ring never leaves its
    memory and behaves as a first-in first-out queue: a send that succeeds
    appends its message, one that fails changes nothing, a receive returns the
    oldest message whole, and returns nothing only when every accepted message
    has been received. *)
Theorem pipe_fifo size max thr n base p ops : 0 <= max -> size < 2 ^ 31 -> 0 < base -> base + size < 2 ^ 48 ->
  Init size max thr n base = Some p ->
  exists rs p' q', run p ops = Some (rs, p') /\ explains [] ops rs q'.
Proof.
  intros Hm Hs Hb Ha E. destruct (run_explained ops p [] (Init_rep _ _ _ _ _ _ Hm Hs Hb Ha E)) as (rs & p' & q' & R & _ & X).
  eauto.
Qed.

Definition ex_pipe : MPSCFixedPipe :=
  mkPipe 40 10 0 4096 (blank 40) 4096 (EncodeSenderPace_ 4096 0) (EncodeSenderPace_ 4096 0).
Lemma pipe_fifo_witness : exists rs p' q',
  run ex_pipe [Send true (str "ab"); Recv; Recv] = Some (rs, p') /\ explains [] [Send true (str "ab"); Recv; Recv] rs q'.
Proof. apply (pipe_fifo 40 10 0 false 4096 ex_pipe); try lia; vm_compute; reflexivity. Defined.

(** An empty ring that is at least twice as long as the longest message and
    its header takes every message that is not longer than that. *)
Theorem empty_accepts p h c : rep p [] -> Z.of_nat (length c) <= max_size_content_ p ->
  2 * (max_size_content_ p + kMsgOffset) <= size_pipe_ p ->
  exists p', SendMsg_ p h c = Some (true, p') /\ rep p' [(h, c)].
Proof.
  intros R L Hs. destruct (SendMsg__spec p [] h c R) as (b & p' & E & H). destruct b; [by exists p'|]. exfalso. subst p'.
  destruct R as (C & F & ro & so & v & A & [(g & Es & Em)|(q1 & q2 & g & Eq & N2 & _)]);
    [|symmetry in Eq; apply app_nil in Eq as [_ ->]; done].
  cbn in Es. rewrite Nat.add_0_r in Es. unfold SendMsg_, ReserveSpaceForSend_ in E.
  destruct (to_ptr p ro so v C A) as [Et _]. rewrite Et in E. pose proof A as (Hv & HR & Hso & HF & HT). rewrite HR in E.
  rewrite (proj2 (Z.ltb_ge _ _)), (proj2 (Z.leb_le (pipe_ p + Z.of_nat ro) _)) in E by lia.
  destruct (Z.leb_spec (pipe_ p + Z.of_nat so + (kMsgOffset + Z.of_nat (length c))) (end_of_pipe_ p)) as [K|K].
  - rewrite (CAS_to p ro so v _ false C A) in E. cbn beta iota in E.
    destruct (write _ _ _); [|done]. cbn [mbind option_bind] in E. destruct (set_msg_size _ _ _); [|done].
    cbn [mbind option_bind] in E. destruct (if decide _ then _ else _); [|done]. cbn [mbind option_bind] in E.
    destruct (JustSendMsg_ _ _ _); done.
  - unfold end_of_pipe_ in K. rewrite (proj2 (Z.ltb_lt _ _)) in E by lia.
    rewrite (CAS_to p ro so v _ true C A) in E. cbn beta iota in E.
    destruct (write _ _ _); [|done]. cbn [mbind option_bind] in E. destruct (set_msg_size _ _ _); [|done].
    cbn [mbind option_bind] in E. destruct (if decide _ then _ else _); [|done]. cbn [mbind option_bind] in E.
    destruct (JustSendMsg_ _ _ _); done.
Qed.

Lemma empty_accepts_witness : exists p', SendMsg_ ex_pipe true (str "ab") = Some (true, p') /\ rep p' [(true, str "ab")].
Proof.
  apply (empty_accepts ex_pipe true (str "ab")); [|vm_compute; discriminate|vm_compute; discriminate].
  apply (Init_rep 40 10 0 false 4096); try lia. vm_compute. reflexivity.
Defined.

(** A shorter ring can be empty and refuse a message for ever: the positions of
    an empty ring do not move. *)
Definition short_ring : option (list Result * list Result) :=
  p ← Init 20 10 0 false 4096;
  '(r1, p) ← run p [Send true (str "ab"); Recv];
  '(r2, p) ← run p [Send true (str "abcd"); Recv; Send true (str "abcd")];
  Some (r1, r2).
Example short_ring_stuck :
  short_ring = Some ([Sent true; Got (Some (str "ab"))], [Sent false; Got None; Sent false]).
Proof. vm_compute. reflexivity. Qed.
End Pipe.
