(* ===== verification/Waits.v ===== *)
(** * Waits: receiving from a mailbox with a time limit

    Models [ReceiveMsgWithNotify_], [ReceiveMsgWithoutNotify_], [SleepUs],
    [GetTimeToSleepUs_] and the end of a mailbox, of
    deps/public-cpp/include/public-cpp/mpsc_fixed_pipe/mpsc_fixed_pipe.hpp.  The
    other threads send between any two looks of the receiver; the clocks and the
    notifier, whose body is not in the repository, belong to the world [W].
    Times are not bounded (a 64-bit count of microseconds lasts for 290000
    years), the product of the caller's limit is. *)

From Stdlib Require Import ZArith Lia Ascii String.
From stdpp Require Import base list strings numbers option.
From S2P Require Import Prelude Pipe.
Import Pipe.

(** The clocks, the notifier, and what the other threads hand to [SendMsg]
    since the last look of the receiver. *)
Class WaitOs (W : Type) : Type := {
  clock_gettime : W -> (Z * Z) * W;
  clock_nanosleep : Z * Z -> W -> Z * W;
  gettimeofday : W -> (Z * Z) * W;
  notifier_Wait : Z -> W -> Z * W;
  arrivals : W -> list (bool * bytes) * W;
}.

(** [ns] is the monotonic clock in nanoseconds, and the time of day is at a
    fixed distance from it.  An absolute sleep ends after its deadline, or at
    once with [EINVAL] when the nanoseconds are not below a second; asking for
    the time of day takes some time. *)
Class WaitOsSpec (W : Type) `{WaitOs W} : Type := {
  ns : W -> Z;
  offset : Z;
  ws_mono w s n w' : clock_gettime w = ((s, n), w') -> 0 <= n < 10 ^ 9 /\ s * 10 ^ 9 + n = ns w' /\ ns w <= ns w';
  ws_sleep s n w r w' : clock_nanosleep (s, n) w = (r, w') -> 0 <= n < 10 ^ 9 ->
    r = 0 /\ s * 10 ^ 9 + n <= ns w' /\ ns w <= ns w';
  ws_einval s n w : 10 ^ 9 <= n -> clock_nanosleep (s, n) w = (22, w);
  ws_day w s u w' : gettimeofday w = ((s, u), w') -> s * 1000000 + u = (ns w' + offset) / 1000 /\ ns w < ns w';
  ws_wait t w r w' : notifier_Wait t w = (r, w') -> ns w <= ns w';
  ws_arrivals w l w' : arrivals w = (l, w') -> ns w <= ns w';
}.

Module Waits.

Definition kTimesSleepUs : list Z := [1; 10; 100; 1000].

Definition GetTimeToSleepUs_ (slot : nat) : option Z :=
  let kSizeTimesSleepUs := length kTimesSleepUs in
  if (slot <? kSizeTimesSleepUs)%nat then kTimesSleepUs !! slot else kTimesSleepUs !! (kSizeTimesSleepUs - 1)%nat.

(** A signed 64-bit value; a result out of range has no meaning. *)
Definition time_t {S} (z : Z) : M S Z := if (- 2 ^ 63 <=? z) && (z <? 2 ^ 63) then mret z else ub.

Section Waits.
Context {W : Type} `{WO : !WaitOs W}.

Definition GetCurrentTimeUs : M W Z := '(tv_sec, tv_usec) ← call gettimeofday; mret (tv_sec * 1000000 + tv_usec).

(** The result of the sleep is not looked at. *)
Definition SleepUs (usecs : Z) : M W () :=
  '(tv_sec, tv_nsec) ← call clock_gettime;
  call (clock_nanosleep (tv_sec, tv_nsec + Z.shiftl usecs 10));;
  mret ().

(** The receiver: its ring, the world, and every message that the ring has
    accepted. *)
Record Waiter := mkWaiter { ring : MPSCFixedPipe; accepted : list (bool * bytes); world : W }.
Definition on_world {A} (m : M W A) : M Waiter A := zoom world (fun w s => mkWaiter (ring s) (accepted s) w) m.
Definition on_ring {A} (m : M MPSCFixedPipe A) : M Waiter A := zoom ring (fun p s => mkWaiter p (accepted s) (world s)) m.

Fixpoint send_all (l : list (bool * bytes)) : M Waiter () :=
  match l with
  | [] => mret ()
  | (h, c) :: l =>
      b ← on_ring (fun p => '(b, _, p) ← SendMsg p h c; Some (b, p));
      modify (fun s => if (b : bool) then mkWaiter (ring s) (accepted s ++ [(h, c)]) (world s) else s);;
      send_all l
  end.

(** A look of the receiver, after what the others have done. *)
Definition look : M Waiter (option Z) :=
  l ← on_world (call arrivals);
  send_all l;;
  on_ring ReceiveMsg_.

(** The first loop of both forms. *)
Fixpoint busy (n : nat) : M Waiter (option Z) :=
  match n with
  | O => mret None
  | S n => msg ← look; match msg with Some _ => mret msg | None => busy n end
  end.

Definition ReceiveMsgWithNotify_ (timeo_ms : Z) : M Waiter (option Z) :=
  msg ← busy kTimesBusyQuery;
  match msg with
  | Some _ => mret msg
  | None =>
      if 0 =? timeo_ms then mret None
      else on_world (call (notifier_Wait timeo_ms));; look
  end.

Fixpoint wait_loop (fuel : nat) (start_time timeo_ms : Z) (round : nat) : M Waiter (option Z) :=
  match fuel with
  | O => ub
  | S fuel =>
      time_to_sleep_us ← deref (GetTimeToSleepUs_ round);
      on_world (SleepUs time_to_sleep_us);;
      msg ← look;
      match msg with
      | Some _ => mret msg
      | None =>
          current_time ← on_world GetCurrentTimeUs;
          limit ← time_t (timeo_ms * 1000);
          if start_time + limit <? current_time then mret None else wait_loop fuel start_time timeo_ms (S round)
      end
  end.

Definition ReceiveMsgWithoutNotify_ (fuel : nat) (timeo_ms : Z) : M Waiter (option Z) :=
  msg ← busy kTimesBusyQuery;
  match msg with
  | Some _ => mret msg
  | None =>
      if 0 =? timeo_ms then mret None
      else
        start_time ← on_world GetCurrentTimeUs;
        wait_loop fuel start_time timeo_ms 0
  end.

Definition ReceiveMsgTimed (fuel : nat) (timeo_ms : Z) : M Waiter (option Z) :=
  s ← gets id;
  if negb (0 =? threshold_sender_notify_ (ring s)) then ReceiveMsgWithNotify_ timeo_ms
  else ReceiveMsgWithoutNotify_ fuel timeo_ms.

End Waits.
#[global] Arguments Waiter W : clear implicits.

Section Laws.
Context {W : Type} `{WO : !WaitOs W, WS : !WaitOsSpec W}.

Lemma waiter_world_run {A} (m : M W A) (s : Waiter W) a w : m (world s) = Some (a, w) ->
  on_world m s = Some (a, mkWaiter (ring s) (accepted s) w).
Proof. intros E. unfold on_world, zoom. by rewrite E. Qed.

Lemma waiter_ring_run {A} (m : M MPSCFixedPipe A) (s : Waiter W) a p : m (ring s) = Some (a, p) ->
  on_ring m s = Some (a, mkWaiter p (accepted s) (world s)).
Proof. intros E. unfold on_ring, zoom. by rewrite E. Qed.

(** What a look finds in a ring that holds [q]. *)
Definition found (q : list (bool * bytes)) (r : option Z) (p : MPSCFixedPipe) : Prop :=
  match q with
  | [] => r = None
  | x :: _ => r = Some (receiver_pace_ p) /\ head_at p x /\ content p (receiver_pace_ p) = Some x.2
  end.

(** From a ring that held [q]: the ring has accepted more, and holds it behind
    [q]; the result is the oldest message, or none if there is none. *)
Definition outcome (s : Waiter W) (q : list (bool * bytes)) (r : option Z) (s' : Waiter W) : Prop :=
  ns (world s) <= ns (world s') /\
  exists l, accepted s' = accepted s ++ l /\ rep (ring s') (q ++ l) /\ found (q ++ l) r (ring s').

Lemma ReceiveMsg__found p q : rep p q -> exists r p', ReceiveMsg_ p = Some (r, p') /\ rep p' q /\ found q r p'.
Proof.
  intros R. destruct (HasTodo_spec p q R) as (p' & E & R' & H). unfold ReceiveMsg_. rewrite E. cbn [mbind option_bind].
  eexists _, p'. split_and!; [done|done|]. destruct q as [|x q]; cbn; [done|]. split_and!; [done|done|].
  destruct H as (X & Z & Em & Er). apply (content_at p' X x Z); [apply R'|done|done|by apply (rep_small p' q)].
Qed.

Lemma send_all_spec l : forall (s : Waiter W) q, rep (ring s) q ->
  exists s' l', send_all l s = Some ((), s') /\ world s' = world s /\ accepted s' = accepted s ++ l' /\ rep (ring s') (q ++ l').
Proof.
  induction l as [|[h c] l IH]; intros s q R; cbn [send_all].
  { exists s, []. by rewrite !app_nil_r. }
  destruct (SendMsg_spec (ring s) q h c R) as (b & n & p & E & H).
  assert (on_ring (fun p => '(b, _, p) ← SendMsg p h c; Some (b, p)) s = Some (b, mkWaiter p (accepted s) (world s))) as E1
    by (apply waiter_ring_run; by rewrite E).
  mrun E1. destruct b; cbn [modify]; unfold modify; cbn [mbind M_bind].
  - destruct (IH (mkWaiter p (accepted s ++ [(h, c)]) (world s)) _ H) as (s' & l' & Es & Hw & Ha & R').
    unfold mbind, M_bind. cbn. rewrite Es. exists s', ((h, c) :: l'). cbn in *. by rewrite Ha, <- !app_assoc in *.
  - subst p. destruct (IH (mkWaiter (ring s) (accepted s) (world s)) q R) as (s' & l' & Es & Hw & Ha & R').
    unfold mbind, M_bind. cbn. rewrite Es. by exists s', l'.
Qed.

Lemma look_spec (s : Waiter W) q : rep (ring s) q -> exists r s', look s = Some (r, s') /\ outcome s q r s'.
Proof.
  intros R. unfold look. destruct (arrivals (world s)) as [l w] eqn:E.
  mrun (waiter_world_run _ s _ _ (call_run _ _ _ _ E)).
  destruct (send_all_spec l (mkWaiter (ring s) (accepted s) w) q R) as (s1 & l' & E1 & Hw & Ha & R1). mrun E1.
  destruct (ReceiveMsg__found (ring s1) _ R1) as (r & p & E2 & R2 & F).
  eexists r, _. split; [exact (waiter_ring_run _ s1 r p E2)|]. split.
  - cbn. rewrite Hw. by apply (ws_arrivals _ _ _ E).
  - by exists l'.
Qed.

Lemma outcome_refl (s : Waiter W) : rep (ring s) [] -> outcome s [] None s.
Proof. intros R. split; [done|]. exists []. by rewrite app_nil_r. Qed.

(** Finding nothing means that the ring is empty, and a later outcome counts
    from there. *)
Lemma outcome_empty (s s' : Waiter W) q : outcome s q None s' -> q = [] /\ accepted s' = accepted s /\ rep (ring s') [].
Proof.
  intros (_ & l & Ha & R & F). destruct (q ++ l) as [|x q'] eqn:E; [|by destruct F].
  apply app_nil in E as [-> ->]. by rewrite app_nil_r in Ha.
Qed.

Lemma outcome_trans (s s1 s2 : Waiter W) q r : outcome s q None s1 -> outcome s1 [] r s2 -> outcome s q r s2.
Proof.
  intros O1 (L2 & l & Ha & R & F). destruct (outcome_empty _ _ _ O1) as (-> & Ha1 & _). destruct O1 as [L1 _].
  split; [lia|]. exists l. by rewrite Ha, Ha1.
Qed.

(** Time that passes changes nothing else. *)
Lemma outcome_later (s : Waiter W) w q r s' : ns (world s) <= ns w ->
  outcome (mkWaiter (ring s) (accepted s) w) q r s' -> outcome s q r s'.
Proof. intros L (L' & l & H). split; [cbn in L'; lia|]. by exists l. Qed.

Lemma busy_spec n : forall (s : Waiter W) q, rep (ring s) q ->
  exists r s', busy (S n) s = Some (r, s') /\ outcome s q r s'.
Proof.
  induction n as [|n IH]; intros s q R; cbn [busy]; destruct (look_spec s q R) as (r & s1 & E & O); mrun E.
  - exists r, s1. by destruct r.
  - destruct r as [m|]; [by exists (Some m), s1|].
    destruct (outcome_empty _ _ _ O) as (-> & _ & R1). destruct (IH s1 [] R1) as (r & s2 & E2 & O2).
    exists r, s2. split; [exact E2|]. by apply (outcome_trans _ s1).
Qed.

Lemma GetTimeToSleepUs__range slot : exists us, GetTimeToSleepUs_ slot = Some us /\ 1 <= us <= 1000.
Proof.
  unfold GetTimeToSleepUs_. do 4 (destruct slot as [|slot]; [eexists; split; [reflexivity|lia]|]).
  exists 1000. split; [done|lia].
Qed.

(** [SleepUs] sleeps for 1024 nanoseconds for every microsecond it is asked
    for, unless the current second ends before: then it does not sleep. *)
Lemma SleepUs_spec us (w : W) : 0 <= us -> exists w', SleepUs us w = Some ((), w') /\ ns w <= ns w' /\
  (ns w' < ns w + 1024 * us -> 10 ^ 9 <= (ns w' mod 10 ^ 9) + 1024 * us).
Proof.
  intros U. unfold SleepUs. destruct (clock_gettime w) as [[s n] w1] eqn:E. mcall E.
  destruct (ws_mono _ _ _ _ E) as (Hn & Es & L). rewrite Z.shiftl_mul_pow2 by lia.
  destruct (decide (n + us * 2 ^ 10 < 10 ^ 9)) as [Hs|Hs].
  - destruct (clock_nanosleep (s, n + us * 2 ^ 10) w1) as [r w2] eqn:E2. mcall E2.
    destruct (ws_sleep _ _ _ _ _ E2) as (_ & L2 & L3); [lia|]. exists w2. split_and!; [done|lia|lia].
  - rewrite (bind_run _ _ _ _ _ (call_run _ _ _ _ (ws_einval s (n + us * 2 ^ 10) w1 ltac:(lia)))).
    exists w1. split_and!; [done|lia|]. intros _.
    rewrite <- Es, (Z.add_comm (s * 10 ^ 9)), Z_mod_plus_full, (Z.mod_small n); lia.
Qed.

Lemma GetCurrentTimeUs_spec (w : W) : exists t w', GetCurrentTimeUs w = Some (t, w') /\ t = (ns w' + offset) / 1000 /\ ns w < ns w'.
Proof.
  unfold GetCurrentTimeUs. destruct (gettimeofday w) as [[s u] w'] eqn:E. mcall E.
  destruct (ws_day _ _ _ _ E) as [D L]. by exists (s * 1000000 + u), w'.
Qed.

(** The loop ends: every round takes time, and the loop is left when the limit
    is past. *)
Lemma wait_loop_spec start timeo fuel : forall (s : Waiter W) round, rep (ring s) [] -> - 2 ^ 53 <= timeo <= 2 ^ 53 ->
  1000 * (start + timeo * 1000 + 1) - (ns (world s) + offset) < Z.of_nat fuel -> (0 < fuel)%nat ->
  exists r s', wait_loop fuel start timeo round s = Some (r, s') /\ outcome s [] r s' /\
    (r = None -> start + timeo * 1000 < (ns (world s') + offset) / 1000).
Proof.
  induction fuel as [|fuel IH]; intros s round R T B P; [lia|]. cbn [wait_loop].
  destruct (GetTimeToSleepUs__range round) as (us & Eu & Ru). mderef Eu.
  destruct (SleepUs_spec us (world s)) as (w1 & E1 & L1 & _); [lia|]. mrun (waiter_world_run _ s _ _ E1).
  destruct (look_spec (mkWaiter (ring s) (accepted s) w1) [] R) as (r & s2 & E2 & O2). mrun E2.
  apply outcome_later in O2; [|done].
  destruct r as [m|]; [by exists (Some m), s2|].
  destruct (outcome_empty _ _ _ O2) as (_ & Ha & R2). destruct (GetCurrentTimeUs_spec (world s2)) as (t & w3 & E3 & Et & L3).
  mrun (waiter_world_run _ s2 _ _ E3). unfold time_t.
  rewrite (proj2 (Z.leb_le _ _)), (proj2 (Z.ltb_lt _ _)) by lia. cbn [andb]. mpure.
  assert (outcome s [] None (mkWaiter (ring s2) (accepted s2) w3)) as O3.
  { apply (outcome_trans _ s2); [done|]. split; [cbn; lia|]. exists []. by rewrite app_nil_r. }
  destruct (Z.ltb_spec (start + timeo * 1000) t) as [Lt|Ge].
  - eexists None, _. split_and!; [done|done|]. intros _. cbn. lia.
  - pose proof (Z.mod_pos_bound (ns w3 + offset) 1000 ltac:(lia)). pose proof (Z.div_mod (ns w3 + offset) 1000 ltac:(lia)).
    pose proof (proj1 O2).
    destruct (IH (mkWaiter (ring s2) (accepted s2) w3) (S round) R2 T) as (r & s' & E4 & O4 & N4); cbn [world]; [lia|lia|].
    exists r, s'. split_and!; [done|by apply (outcome_trans _ _ _ _ _ O3)|done].
Qed.

(** The rounds that are enough for a limit. *)
Definition rounds (timeo_ms : Z) : nat := Z.to_nat (timeo_ms * 1000000 + 1001).

(** Receiving with a limit returns: the oldest message as soon as there is one,
    and nothing only if the ring is empty; without a notifier, and with a limit
    that is not zero, only when more than [timeo_ms] milliseconds have passed.
    No message is lost on the way. *)
Theorem receive_in_time fuel timeo_ms (s : Waiter W) q : rep (ring s) q -> 0 <= timeo_ms <= 2 ^ 53 ->
  (rounds timeo_ms <= fuel)%nat ->
  exists r s', ReceiveMsgTimed fuel timeo_ms s = Some (r, s') /\ outcome s q r s' /\
    (r = None -> timeo_ms <> 0 -> threshold_sender_notify_ (ring s) = 0 ->
     ns (world s) + timeo_ms * 1000000 < ns (world s')).
Proof.
  intros R T F. unfold ReceiveMsgTimed, gets. unfold mbind at 1, M_bind at 1. cbn [id].
  destruct (busy_spec 1 s q R) as (r & s1 & E & O).
  destruct (Z.eqb_spec 0 (threshold_sender_notify_ (ring s))) as [Ht|Ht]; cbn [negb].
  - unfold ReceiveMsgWithoutNotify_. mrun E. destruct r as [m|]; [by exists (Some m), s1|].
    destruct (Z.eqb_spec 0 timeo_ms) as [<-|Nz]; [by exists None, s1|].
    destruct (outcome_empty _ _ _ O) as (-> & Ha & R1).
    destruct (GetCurrentTimeUs_spec (world s1)) as (t & w & E2 & Et & L2). mrun (waiter_world_run _ s1 _ _ E2).
    pose proof (Z.mod_pos_bound (ns w + offset) 1000 ltac:(lia)). pose proof (Z.div_mod (ns w + offset) 1000 ltac:(lia)).
    destruct (wait_loop_spec t timeo_ms fuel (mkWaiter (ring s1) (accepted s1) w) 0 R1) as (r & s' & E3 & O3 & N3);
      [lia|unfold rounds in F; cbn [world]; lia|unfold rounds in F; lia|].
    exists r, s'. split_and!; [done| |].
    + apply (outcome_trans _ s1); [done|]. apply (outcome_later _ w); [lia|done].
    + intros Er _ _. specialize (N3 Er). pose proof (proj1 O). 
      pose proof (Z.mod_pos_bound (ns (world s') + offset) 1000 ltac:(lia)).
      pose proof (Z.div_mod (ns (world s') + offset) 1000 ltac:(lia)). lia.
  - unfold ReceiveMsgWithNotify_. mrun E. destruct r as [m|]; [by exists (Some m), s1|].
    destruct (Z.eqb_spec 0 timeo_ms) as [<-|Nz]; [by exists None, s1|].
    destruct (outcome_empty _ _ _ O) as (-> & Ha & R1). destruct (notifier_Wait timeo_ms (world s1)) as [k w] eqn:E2.
    mrun (waiter_world_run _ s1 _ _ (call_run _ _ _ _ E2)).
    destruct (look_spec (mkWaiter (ring s1) (accepted s1) w) [] R1) as (r & s' & E3 & O3).
    exists r, s'. split_and!; [done| |congruence].
    apply (outcome_trans _ s1); [done|]. apply (outcome_later _ w); [by apply (ws_wait _ _ _ _ E2)|done].
Qed.

End Laws.

(** ** A clock that runs *)

(** The time in nanoseconds and what arrives before each look.  Sleeping takes
    the time it is asked for, asking for the time one nanosecond. *)
Record Sand := mkSand { clk : Z; inbox : list (list (bool * bytes)) }.
#[global] Instance sand_os : WaitOs Sand := {
  clock_gettime w := ((clk w / 10 ^ 9, clk w mod 10 ^ 9), w);
  clock_nanosleep t w :=
    if t.2 <? 10 ^ 9 then (0, mkSand (Z.max (clk w) (t.1 * 10 ^ 9 + t.2)) (inbox w)) else (22, w);
  gettimeofday w :=
    let t := (clk w + 1) / 1000 in ((t / 1000000, t mod 1000000), mkSand (clk w + 1) (inbox w));
  notifier_Wait t w := (0, mkSand (clk w + Z.abs t * 1000000) (inbox w));
  arrivals w := match inbox w with [] => ([], w) | l :: r => (l, mkSand (clk w) r) end;
}.
#[global] Program Instance sand_spec : WaitOsSpec Sand := { ns := clk; offset := 0 }.
Next Obligation.
  intros w s n w' [= <- <- <-]. pose proof (Z.div_mod (clk w) (10 ^ 9)). pose proof (Z.mod_pos_bound (clk w) (10 ^ 9)). lia.
Qed.
Next Obligation. intros s n w r w' E Hn. cbn in E. rewrite (proj2 (Z.ltb_lt _ _)) in E by lia. injection E as <- <-. cbn. lia. Qed.
Next Obligation. intros s n w Hn. cbn. by rewrite (proj2 (Z.ltb_ge _ _)). Qed.
Next Obligation.
  intros w s u w' [= <- <- <-]. cbn. rewrite Z.add_0_r. split; [|lia].
  pose proof (Z.div_mod ((clk w + 1) / 1000) 1000000). lia.
Qed.
Next Obligation. intros t w r w' [= <- <-]. cbn. lia. Qed.
Next Obligation. intros w l w' E. cbn in E. destruct (inbox w); injection E as <- <-; cbn; lia. Qed.

Definition quiet (ms : Z) (inbox : list (list (bool * bytes))) : option (option (option bytes) * Z) :=
  p ← Init 40 10 0 false 4096;
  match ReceiveMsgTimed 200 ms (mkWaiter p [] (mkSand 0 inbox)) with
  | Some (r, s) => Some (content (ring s) <$> r, clk (world s))
  | None => None
  end.

(** A message that comes before the fourth look is received after two sleeps; on
    a ring that stays empty the limit, of one millisecond, has to pass: the
    declaration calls the parameter [timeo_us]. *)
Example late_message : quiet 1 [[]; []; []; [(true, str "ab")]] = Some (Some (Some (str "ab")), 11266).
Proof. vm_compute. reflexivity. Qed.
Example waits_milliseconds : exists t, quiet 1 [] = Some (None, t) /\ 1000000 < t.
Proof. eexists. split; [vm_compute; reflexivity|lia]. Qed.

(** In the last millisecond of a second the sleep of a later round is refused
    by the system and takes no time at all. *)
Theorem sleep_skipped inbox : SleepUs 1000 (mkSand 999500000 inbox) = Some ((), mkSand 999500000 inbox).
Proof. reflexivity. Qed.

(** ** The end of a mailbox

    [pipe_] as the destructor finds it: the constructor does not set it. *)

Definition MPSCFixedPipe_new : option Z := None.

(** What [Init] does to [pipe_]; [allocated] is the result of [new]. *)
Definition Init_pipe_ (size_pipe max_size_content threshold : Z) (has_notifier : bool) (allocated : Z) (pipe : option Z) :
    bool * option Z :=
  if (size_pipe <=? max_size_content + kMsgOffset) || (negb (threshold =? 0) && negb has_notifier) then (false, pipe)
  else if allocated =? 0 then (false, Some 0) else (true, Some allocated).

(** [XFC_DELETE_ARRAY]: what is given back; an indeterminate pointer has no
    meaning. *)
Definition MPSCFixedPipe_delete (pipe : option Z) : option (option Z) :=
  p ← pipe; Some (if p =? 0 then None else Some p).

Lemma Init_pipe_Init size max thr n base p : base <> 0 -> Init size max thr n base = Some p ->
  Init_pipe_ size max thr n base MPSCFixedPipe_new = (true, Some (pipe_ p)).
Proof.
  intros Nb. unfold Init, Init_pipe_. destruct (_ || _); [done|]. intros [= <-]. by rewrite (proj2 (Z.eqb_neq _ _)).
Qed.

(** The destructor gives back the memory of a mailbox that was initialised; one
    that [Init] has refused cannot be destroyed. *)
Theorem delete_outcome size max thr n base pipe b : base <> 0 ->
  Init_pipe_ size max thr n base MPSCFixedPipe_new = (b, pipe) ->
  MPSCFixedPipe_delete pipe = if b then Some (Some base) else None.
Proof.
  intros Nb. unfold Init_pipe_. destruct (_ || _); [by intros [= <- <-]|].
  rewrite (proj2 (Z.eqb_neq _ _)) by done. intros [= <- <-]. cbn. by rewrite (proj2 (Z.eqb_neq _ _)).
Qed.

End Waits.
