(* ===== verification/Race.v ===== *)
(** * Race: the mailbox with many senders at once

    The same code as Pipe.v (mpsc_fixed_pipe.hpp), now one access to shared
    memory at a time: a sender is the point it has reached in [SendMsg_]
    together with its local variables, and so is the receiver in
    [HasTodoMPSCFixedPipeMsg_] and [MsgConsumed].  A schedule says who moves.
    Accesses are sequentially consistent; a write into a message is one access,
    and so are the reads of [HasTodoMPSCFixedPipeMsg_] after that of [from_],
    which only the receiver writes or which commute with what senders write.
    The end of the file shows schedules on which messages are lost or read
    before they are complete; RaceLaws.v shows that all others are safe. *)

From Stdlib Require Import ZArith Lia Ascii String.
From stdpp Require Import base list strings numbers option.
From S2P Require Import Prelude Pipe.
Import Pipe.

Module Race.

(** ** Senders *)

(** What [SendMsg_] still has to write: the header, the size, the content, the
    mark of [SetReady_]. *)
Inductive Phase := Header | Size | Content | Mark.

Inductive Sender :=
| Idle
| ReadTo (h : bool) (c : bytes)
| ReadReceiver (h : bool) (c : bytes) (to : Z)
| CasTo (h : bool) (c : bytes) (to new : Z) (rewind : bool)
| Put (ph : Phase) (h : bool) (c : bytes) (msg : Z) (pos : option Z)
| ReadFrom (msg : Z) (pos : option Z)
| AwaitFrom (pos version : Z)
| StoreFrom (version : Z)
| ReadSize (old old_ptr version : Z)
| CasFrom (old new version : Z)
| LoopTo (new version : Z)
| LoopReady (new version : Z).

(** The decision of [ReserveSpaceForSend_] on the positions it has read: the
    new position of the senders and whether the ring starts again. *)
Definition reserve (p : MPSCFixedPipe) (size_content to r : Z) : option (Z * bool) :=
  let to_ptr := DecodeSenderPacePtr_ to in
  let size_need := kMsgOffset + size_content in
  if r <=? to_ptr then
    if to_ptr + size_need <=? end_of_pipe_ p then Some (to_ptr + size_need, false)
    else if pipe_ p + size_need <? r then Some (pipe_ p + size_need, true)
    else None
  else if to_ptr + size_need <? r then Some (to_ptr + size_need, false)
  else None.

(** [SendMsg_] is called. *)
Definition enter (p : MPSCFixedPipe) (h : bool) (c : bytes) : Sender :=
  if max_size_content_ p <? Z.of_nat (length c) then Idle else ReadTo h c.

Definition put (p : MPSCFixedPipe) (ph : Phase) (h : bool) (c : bytes) (msg : Z) : option MPSCFixedPipe :=
  match ph with
  | Header => write p msg [z2b (if h then 1 else 0)]
  | Size => set_msg_size p msg (Z.of_nat (length c))
  | Content => if decide (length c = 0%nat) then Some p else write p (msg + kMsgOffset) c
  | Mark => SetReady_ p msg
  end.
Definition after (ph : Phase) (h : bool) (c : bytes) (msg : Z) (pos : option Z) : Sender :=
  match ph with
  | Header => Put Size h c msg pos
  | Size => Put Content h c msg pos
  | Content => Put Mark h c msg pos
  | Mark => ReadFrom msg pos
  end.

(** One access of a sender.  [None] is an access out of bounds. *)
Definition run_sender (p : MPSCFixedPipe) (x : Sender) : option (Sender * MPSCFixedPipe) :=
  match x with
  | Idle => Some (Idle, p)
  | ReadTo h c => Some (ReadReceiver h c (sender_pace_to_ p), p)
  | ReadReceiver h c to =>
      Some (match reserve p (Z.of_nat (length c)) to (receiver_pace_ p) with
            | Some (new, rewind) => CasTo h c to new rewind
            | None => Idle
            end, p)
  | CasTo h c to new rewind =>
      let '(ok, p) := CASSenderPaceTo_ p to new rewind in
      let to_ptr := DecodeSenderPacePtr_ to in
      Some (if ok then Put Header h c (if rewind then pipe_ p else to_ptr) (if rewind then Some to_ptr else None) else Idle, p)
  | Put ph h c msg pos => p ← put p ph h c msg; Some (after ph h c msg pos, p)
  | ReadFrom msg pos =>
      let old := sender_pace_from_ p in
      let version := DecodeSenderPaceVersion_ old in
      if DecodeSenderPacePtr_ old =? msg then Some (ReadSize old (DecodeSenderPacePtr_ old) version, p)
      else if msg =? pipe_ p then pos ← pos; Some (AwaitFrom pos version, p)
      else Some (Idle, p)
  | AwaitFrom pos version =>
      Some (if DecodeSenderPaceFromPtr_ p =? pos then StoreFrom ((version + 1) mod kNumVersions) else x, p)
  | StoreFrom version =>
      let old := EncodeSenderPace_ (pipe_ p) version in
      Some (ReadSize old (pipe_ p) version, with_from p old)
  | ReadSize old old_ptr version =>
      size_pace ← GetMsgSize_ p old_ptr;
      Some (if size_pace =? kBlankSize then Idle else CasFrom old (old_ptr + size_pace) version, p)
  | CasFrom old new version =>
      let '(ok, p) := CASSenderPaceFrom_ p old new false in
      Some (if ok then LoopTo new version else Idle, p)
  | LoopTo new version =>
      Some (if new =? DecodeSenderPaceToPtr_ p then Idle else LoopReady new version, p)
  | LoopReady new version =>
      s ← msg_size p new;
      Some (if IsReady_ s then ReadSize (EncodeSenderPace_ new version) new version else Idle, p)
  end.

(** ** The receiver *)

Inductive Receiver := RIdle | RFrom (from : Z) | RHave | RBlank (orig to : Z).

(** [HasTodoMPSCFixedPipeMsg_] on the position of the senders it has read. *)
Definition has_todo (p : MPSCFixedPipe) (from : Z) : option (bool * MPSCFixedPipe) :=
  let r := receiver_pace_ p in
  if r <? from then Some (true, p)
  else if from =? r then Some (false, p)
  else
    rewind ← (if end_of_pipe_ p <? r + kMsgOffset then Some true else IsBlank_ <$> msg_size p r);
    if (rewind : bool) then Some (negb (from =? pipe_ p), with_receiver p (pipe_ p)) else Some (true, p).

(** The message the receiver takes. *)
Definition message (p : MPSCFixedPipe) (msg : Z) : option (bool * bytes) :=
  h ← read p msg 1;
  c ← content p msg;
  Some (match h with [b] => negb (b2z b =? 0) | _ => false end, c).

Definition run_receiver (p : MPSCFixedPipe) (x : Receiver) : option (Receiver * MPSCFixedPipe * list (bool * bytes)) :=
  match x with
  | RIdle => Some (RFrom (DecodeSenderPaceFromPtr_ p), p, [])
  | RFrom from => '(b, p) ← has_todo p from; Some (if (b : bool) then RHave else RIdle, p, [])
  | RHave =>
      let orig := receiver_pace_ p in
      m ← message p orig;
      s ← GetMsgSize_ p orig;
      Some (RBlank orig (orig + s), with_receiver p (orig + s), [m])
  | RBlank orig to => p ← SetBlank_ p orig to; Some (RIdle, p, [])
  end.

(** ** Schedules *)

(** Besides the code's state: the messages whose space was reserved, in this
    order, the messages received, how often the senders started the ring again,
    and this count at the time a sender entered [SendMsg_]. *)
Record Thread := mkThread { pc : Sender; began : Z }.
Record State := mkState {
  ring : MPSCFixedPipe;
  senders : list Thread;
  receiver : Receiver;
  sent : list (bool * bytes);
  got : list (bool * bytes);
  laps : Z;
}.

Definition start (n : nat) (p : MPSCFixedPipe) : State :=
  mkState p (replicate n (mkThread Idle 0)) RIdle [] [] 0.

Inductive Label := Enter (i : nat) (h : bool) (c : bytes) | Run (i : nat) | Receive.

(** The message a step reserves space for, and whether it starts the ring again. *)
Definition reserved (x y : Sender) : list (bool * bytes) :=
  match x, y with CasTo h c _ _ _, Put _ _ _ _ _ => [(h, c)] | _, _ => [] end.
Definition rewound (x y : Sender) : Z :=
  match x, y with CasTo _ _ _ _ true, Put _ _ _ _ _ => 1 | _, _ => 0 end.

Definition step (st : State) (l : Label) : option State :=
  match l with
  | Enter i h c =>
      match senders st !! i with
      | Some (mkThread Idle _) =>
          Some (mkState (ring st) (<[i := mkThread (enter (ring st) h c) (laps st)]> (senders st)) (receiver st) (sent st) (got st) (laps st))
      | _ => Some st
      end
  | Run i =>
      match senders st !! i with
      | Some (mkThread x b) =>
          '(y, p) ← run_sender (ring st) x;
          Some (mkState p (<[i := mkThread y b]> (senders st)) (receiver st) (sent st ++ reserved x y) (got st) (laps st + rewound x y))
      | None => Some st
      end
  | Receive =>
      '(y, p, ms) ← run_receiver (ring st) (receiver st);
      Some (mkState p (senders st) y (sent st) (got st ++ ms) (laps st))
  end.

Fixpoint exec (st : State) (ls : list Label) : option State :=
  match ls with
  | [] => Some st
  | l :: ls => st ← step st l; exec st ls
  end.

(** Nobody is inside [SendMsg_]. *)
Definition quiet (st : State) : Prop := Forall (fun t => pc t = Idle) (senders st).

(** ** A sender that is not interrupted does what Pipe.v says *)

Fixpoint alone (n : nat) (p : MPSCFixedPipe) (x : Sender) : option (Sender * MPSCFixedPipe) :=
  match n with
  | O => Some (x, p)
  | S n => '(y, p) ← run_sender p x; alone n p y
  end.

Definition finishes (p : MPSCFixedPipe) (x : Sender) (p' : MPSCFixedPipe) : Prop := exists n, alone n p x = Some (Idle, p').

Lemma finishes_now p : finishes p Idle p.
Proof. by exists 0%nat. Qed.
Lemma finishes_step p x y p1 p' : run_sender p x = Some (y, p1) -> finishes p1 y p' -> finishes p x p'.
Proof. intros E [n H]. exists (S n). cbn [alone]. by rewrite E. Qed.

Lemma publish_alone n : forall p new version p', publish n p new version = Some p' -> finishes p (LoopTo new version) p'.
Proof.
  induction n as [|n IH]; intros p new version p' H; [done|]. cbn [publish] in H. eapply finishes_step; [reflexivity|].
  destruct (new =? DecodeSenderPaceToPtr_ p); [injection H as <-; apply finishes_now|].
  destruct (msg_size p new) as [s|] eqn:Es; [|done]. cbn [mbind option_bind] in H.
  eapply finishes_step; [cbn [run_sender]; rewrite Es; reflexivity|]. destruct (IsReady_ s); cbn [negb] in H; [|injection H as <-; apply finishes_now].
  destruct (GetMsgSize_ p new) as [z|] eqn:Ez; [|done]. cbn [mbind option_bind] in H.
  eapply finishes_step; [cbn [run_sender]; rewrite Ez; reflexivity|]. destruct (z =? kBlankSize); [injection H as <-; apply finishes_now|].
  destruct (CASSenderPaceFrom_ p _ _ false) as [ok p1] eqn:Ec. eapply finishes_step; [cbn [run_sender]; rewrite Ec; reflexivity|].
  destruct ok; [by apply IH|injection H as <-; apply finishes_now].
Qed.

Lemma advance_alone p old old_ptr version p' :
  (size_pace ← GetMsgSize_ p old_ptr;
   if size_pace =? kBlankSize then Some p
   else
     let '(ok, p) := CASSenderPaceFrom_ p old (old_ptr + size_pace) false in
     if (ok : bool) then publish (S (Z.to_nat (size_pipe_ p))) p (old_ptr + size_pace) version else Some p) = Some p' ->
  finishes p (ReadSize old old_ptr version) p'.
Proof.
  intros H. destruct (GetMsgSize_ p old_ptr) as [z|] eqn:Ez; [|done]. cbn [mbind option_bind] in H.
  eapply finishes_step; [cbn [run_sender]; rewrite Ez; reflexivity|]. destruct (z =? kBlankSize); [injection H as <-; apply finishes_now|].
  destruct (CASSenderPaceFrom_ p _ _ false) as [ok p1] eqn:Ec. eapply finishes_step; [cbn [run_sender]; rewrite Ec; reflexivity|].
  destruct ok; [by apply (publish_alone (S (Z.to_nat (size_pipe_ p1))))|injection H as <-; apply finishes_now].
Qed.

Lemma write_base p ptr bs p' : write p ptr bs = Some p' -> pipe_ p' = pipe_ p.
Proof. unfold write. destruct (_ && _); [|done]. by intros [= <-]. Qed.

Lemma JustSendMsg_alone p h c msg pos p' : good_ptr (pipe_ p) -> JustSendMsg_ p msg pos = Some p' -> finishes p (Put Mark h c msg pos) p'.
Proof.
  intros Gp H. unfold JustSendMsg_ in H. destruct (SetReady_ p msg) as [p1|] eqn:Er; [|done]. cbn [mbind option_bind] in H.
  assert (pipe_ p1 = pipe_ p) as Ep.
  { unfold SetReady_ in Er. destruct (msg_size p msg); [|done]. by apply write_base in Er. }
  eapply finishes_step; [cbn [run_sender after put]; rewrite Er; reflexivity|].
  destruct (DecodeSenderPacePtr_ (sender_pace_from_ p1) =? msg) eqn:E1.
  { eapply finishes_step; [cbn [run_sender after]; rewrite E1; reflexivity|]. by apply advance_alone. }
  destruct (msg =? pipe_ p1) eqn:E2; [|injection H as <-; eapply finishes_step; [cbn [run_sender after]; rewrite E1, E2; reflexivity|apply finishes_now]].
  destruct pos as [pos|]; [|done]. cbn [mbind option_bind] in H. eapply finishes_step; [cbn [run_sender after]; rewrite E1, E2; reflexivity|].
  destruct (DecodeSenderPaceFromPtr_ p1 =? pos) eqn:E3; [|done]. eapply finishes_step; [cbn [run_sender]; rewrite E3; reflexivity|].
  eapply finishes_step; [reflexivity|]. apply advance_alone. cbn [mbind option_bind] in H. rewrite decode_ptr in H; [done|by rewrite Ep|].
  apply (Z.mod_pos_bound _ kNumVersions). done.
Qed.

Lemma SendMsg_alone p h c b p' : good_ptr (pipe_ p) -> SendMsg_ p h c = Some (b, p') -> finishes p (enter p h c) p'.
Proof.
  intros Gp H. unfold SendMsg_ in H. destruct (ReserveSpaceForSend_ p (Z.of_nat (length c))) as [o p0] eqn:E. unfold ReserveSpaceForSend_ in E. unfold enter.
  destruct (max_size_content_ p <? Z.of_nat (length c)); [injection E as <- <-; injection H as _ <-; apply finishes_now|].
  eapply finishes_step; [reflexivity|]. eapply finishes_step; [reflexivity|]. unfold reserve.
  assert (forall new rw, CASSenderPaceTo_ p (sender_pace_to_ p) new rw = (true, with_to p (next_pace (sender_pace_to_ p) new rw))) as Ec
    by (intros; unfold CASSenderPaceTo_; by rewrite Z.eqb_refl).
  assert (forall new rw m pos, o = Some (m, pos) -> p0 = with_to p (next_pace (sender_pace_to_ p) new rw) ->
    m = (if rw then pipe_ p else DecodeSenderPacePtr_ (sender_pace_to_ p)) -> pos = (if rw then Some (DecodeSenderPacePtr_ (sender_pace_to_ p)) else None) ->
    finishes p (CasTo h c (sender_pace_to_ p) new rw) p') as Go.
  { intros new rw m pos -> -> -> ->. cbn beta iota in H. eapply finishes_step; [cbn [run_sender]; rewrite Ec; reflexivity|].
    destruct (write _ _ _) as [p1|] eqn:E1; [|done]. cbn [mbind option_bind] in H. eapply finishes_step; [cbn [run_sender put]; cbn [pipe_ with_to]; rewrite E1; reflexivity|].
    destruct (set_msg_size _ _ _) as [p2|] eqn:E2; [|done]. cbn [mbind option_bind] in H. eapply finishes_step; [cbn [run_sender after put]; rewrite E2; reflexivity|].
    destruct (if decide _ then _ else _) as [p3|] eqn:E3; [|done]. cbn [mbind option_bind] in H. eapply finishes_step; [cbn [run_sender after put]; rewrite E3; reflexivity|].
    destruct (JustSendMsg_ _ _ _) as [p4|] eqn:E4; [|done]. cbn [mbind option_bind] in H. injection H as _ <-. apply JustSendMsg_alone; [|done].
    assert (pipe_ p3 = pipe_ p2) as -> by (destruct (decide (length c = 0%nat)); [by injection E3 as <-|by apply write_base in E3]).
    by rewrite (write_base _ _ _ _ E2), (write_base _ _ _ _ E1). }
  destruct (receiver_pace_ p <=? _); [destruct (_ <=? end_of_pipe_ p); [|destruct (pipe_ p + _ <? _)]|destruct (_ <? receiver_pace_ p)];
    rewrite ?Ec in E; injection E as <- <-; try (injection H as _ <-; apply finishes_now); by eapply Go.
Qed.

(** ** Schedules that respect what the code takes for granted *)

Definition aligned (g : Z) (c : bytes) : Prop := (g | kMsgOffset + Z.of_nat (length c)).

(** A step is calm when the lengths of messages are multiples of [g], no sender
    reads [receiver_pace_] between the two writes of [MsgConsumed] or looks for a
    message in the last bytes of the ring, where no header fits, and no message
    is blanked whose sender has completed it and not looked at
    [sender_pace_from_] yet. *)
Definition calm (g : Z) (st : State) (l : Label) : Prop :=
  match l with
  | Enter _ _ c => aligned g c
  | Run i =>
      (forall h c to b orig new, senders st !! i = Some (mkThread (ReadReceiver h c to) b) -> receiver st <> RBlank orig new) /\
      (forall new version b, senders st !! i = Some (mkThread (LoopReady new version) b) -> new + kMsgOffset <= end_of_pipe_ (ring st))
  | Receive => forall orig new i t pos, receiver st = RBlank orig new -> senders st !! i = Some t -> pc t <> ReadFrom orig pos
  end.

(** No sender sleeps inside [SendMsg_] until the versions come round. *)
Definition fresh (st : State) : Prop :=
  forall i t, senders st !! i = Some t -> pc t <> Idle -> laps st - began t < kNumVersions - 1.

Inductive reach (g : Z) (st0 : State) : State -> Prop :=
| reach_start : reach g st0 st0
| reach_step st l st' : reach g st0 st -> calm g st l -> step st l = Some st' -> fresh st' -> reach g st0 st'.

(** Both can be checked along a schedule. *)
Definition calmb (g : Z) (st : State) (l : Label) : bool :=
  match l with
  | Enter _ _ c => (kMsgOffset + Z.of_nat (length c)) mod g =? 0
  | Run i =>
      match senders st !! i, receiver st with
      | Some (mkThread (ReadReceiver _ _ _) _), RBlank _ _ => false
      | Some (mkThread (LoopReady new _) _), _ => new + kMsgOffset <=? end_of_pipe_ (ring st)
      | _, _ => true
      end
  | Receive =>
      match receiver st with
      | RBlank orig _ => forallb (fun t => match pc t with ReadFrom m _ => negb (m =? orig) | _ => true end) (senders st)
      | _ => true
      end
  end.
Definition freshb (st : State) : bool :=
  forallb (fun t => match pc t with Idle => true | _ => laps st - began t <? kNumVersions - 1 end) (senders st).
Fixpoint calm_exec (g : Z) (st : State) (ls : list Label) : option State :=
  match ls with
  | [] => Some st
  | l :: ls =>
      if calmb g st l then st ← step st l; if freshb st then calm_exec g st ls else None
      else None
  end.

Lemma forallb_lookup {A} (f : A -> bool) (l : list A) i x : forallb f l = true -> l !! i = Some x -> f x = true.
Proof. intros H E. rewrite forallb_forall in H. apply H. apply list_elem_of_In. by eapply list_elem_of_lookup_2. Qed.

Lemma calmb_sound g st l : 0 < g -> calmb g st l = true -> calm g st l.
Proof.
  intros Hg H. destruct l as [i h c|i|]; cbn in *.
  - apply Z.eqb_eq in H. apply Z.mod_divide in H; [done|lia].
  - split.
    + intros h c to b orig new E Er. by rewrite E, Er in H.
    + intros new version b E. rewrite E in H. by apply Z.leb_le.
  - intros orig new i t pos Er E Ep. rewrite Er in H. apply (forallb_lookup _ _ i t) in H; [|done]. cbn beta in H. rewrite Ep in H.
    by rewrite Z.eqb_refl in H.
Qed.
Lemma freshb_sound st : freshb st = true -> fresh st.
Proof.
  intros H i t E N. apply (forallb_lookup _ _ i t) in H; [|done]. cbn in H. apply Z.ltb_lt. by destruct (pc t).
Qed.
Lemma calm_exec_reach g st0 ls : 0 < g -> forall st st', reach g st0 st -> calm_exec g st ls = Some st' -> reach g st0 st'.
Proof.
  intros Hg. induction ls as [|l ls IH]; intros st st' R E; [by injection E as <-|]. cbn [calm_exec] in E.
  destruct (calmb g st l) eqn:Ca; [|done]. destruct (step st l) as [st1|] eqn:Es; [|done]. cbn [mbind option_bind] in E.
  destruct (freshb st1) eqn:Fr; [|done]. apply (IH st1); [|done].
  apply (reach_step g st0 st l); [done|by apply calmb_sound|done|by apply freshb_sound].
Qed.

(** ** Schedules that go wrong *)

Definition ex_start (size maxc : Z) (n : nat) : option State :=
  p ← Init size maxc 0 false 4096; Some (start n p).
Definition runs (k i : nat) : list Label := replicate k (Run i).
(** A whole uncontended [SendMsg_], and a whole receive. *)
Definition send_all (i : nat) (c : bytes) : list Label := Enter i true c :: runs 14 i.
Definition receive_all : list Label := replicate 4 Receive.

(** Three sends that take turns at every access, and three receives. *)
Definition ex_fair : list Label :=
  [Enter 0 true (str "one"); Enter 1 true (str "two"); Enter 2 false (str "three")] ++
  concat (replicate 20 [Run 0; Run 1; Run 2]) ++
  [Enter 1 true (str "two"); Enter 2 false (str "three")] ++ concat (replicate 20 [Run 1; Run 2]) ++
  [Enter 2 false (str "three")] ++ runs 20 2 ++ concat (replicate 3 receive_all).
Example ex_fair_ok : (fun st => (got st, sent st)) <$> (st ← ex_start 100 20 3; exec st ex_fair) =
  Some ([(true, str "one"); (true, str "two"); (false, str "three")],
        [(true, str "one"); (true, str "two"); (false, str "three")]).
Proof. vm_compute. reflexivity. Qed.

(** [MsgConsumed] moves the position of the receiver before it blanks the
    message.  A sender that sees the new position in between may write where the
    receiver then blanks: its message is destroyed although it was sent, and the
    receiver later takes the blank bytes for a message of 2^31 - 1 bytes. *)
Definition ex_blanked : list Label :=
  send_all 0 (str "aaaaaaaa") ++ send_all 0 (str "bbbbbbbb") ++ send_all 0 (str "cccccccc") ++
  receive_all ++ replicate 3 Receive ++ send_all 0 (str "dddddddd") ++ send_all 0 (str "eeeeeee") ++ [Receive] ++
  receive_all ++ receive_all.
Example blanking_destroys_message :
  (fun st => (got st, drop 4 (sent st))) <$> (st ← ex_start 48 10 1; exec st ex_blanked) =
    Some ([(true, str "aaaaaaaa"); (true, str "bbbbbbbb"); (true, str "cccccccc"); (true, str "dddddddd")], [(true, str "eeeeeee")]) /\
  (fun st => (receiver st, msg_size (ring st) (receiver_pace_ (ring st)))) <$>
    (st ← ex_start 48 10 1; exec st (ex_blanked ++ [Receive; Receive])) = Some (RHave, Some kBlankSize).
Proof. split; vm_compute; reflexivity. Qed.

(** A sender compares the published position with the place of its message
    without the version.  When its message was published by another sender and
    the ring has gone round once, it takes the message of a third sender for its
    own and publishes it although its content is not written yet. *)
Definition ex_overtaken : list Label :=
  [Enter 1 true (str "bbbbbbbb")] ++ runs 3 1 ++ [Enter 0 true (str "aaaaaaaa")] ++ runs 7 0 ++ runs 20 1 ++
  receive_all ++ receive_all ++ send_all 1 (str "cccccccc") ++ send_all 1 (str "dddddddd") ++ receive_all ++ receive_all ++
  [Enter 2 true (str "xxxxxxxx")] ++ runs 5 2 ++ runs 4 0 ++ receive_all.
Example overtaken_publishes_unwritten :
  (fun st => (drop 4 (got st), drop 4 (sent st))) <$> (st ← ex_start 48 10 3; exec st ex_overtaken) =
    Some ([(true, blank 8)], [(true, str "xxxxxxxx")]).
Proof. vm_compute. reflexivity. Qed.

(** After it has published a message that ends at the end of the ring, a sender
    looks for the next one behind the ring when another sender has already
    started again. *)
Definition ex_end : list Label :=
  send_all 0 (str "aaaaaaaa") ++ receive_all ++
  [Enter 1 true (str "bbbbbbbb")] ++ runs 3 1 ++ [Enter 0 true (str "ddddddd")] ++ runs 3 0 ++ runs 8 1.
Example publish_reads_beyond_end :
  (fun st => pc <$> senders st) <$> (st ← ex_start 32 10 2; exec st ex_end) =
    Some [Put Header true (str "ddddddd") 4096 (Some 4128); LoopReady 4128 0] /\
  (st ← ex_start 32 10 2; exec st (ex_end ++ [Run 1])) = None.
Proof. split; vm_compute; reflexivity. Qed.

End Race.
