(* ===== verification/RaceLaws.v ===== *)
(** * RaceLaws: the mailbox is a queue for many senders at once

    The invariant behind the schedules of Race.v.  The ring is described by the
    messages between the position of the receiver and that of the senders
    ([slots]), each with the sender that writes it and what is still to be
    written.  Positions are counted in laps, so that they never repeat; the
    words of the ring are their images.  A prefix of the slots is published; the
    first slot behind it, once complete, is looked after by some sender. *)

From Stdlib Require Import ZArith Lia Ascii String.
From stdpp Require Import base list strings numbers option.
From S2P Require Import Prelude Pipe Race.
Import Pipe Race.

Module RaceLaws.

(** ** Memory, byte by byte *)

Definition holds (m : bytes) (o : nat) (bs : bytes) : Prop :=
  forall i b, bs !! i = Some b -> m !! (o + i)%nat = Some b.

Lemma holds_app m o bs1 bs2 : holds m o (bs1 ++ bs2) <-> holds m o bs1 /\ holds m (o + length bs1) bs2.
Proof.
  split.
  - intros H. split; intros i b L.
    + apply H. by apply lookup_app_l_Some.
    + rewrite <- Nat.add_assoc. apply H. rewrite lookup_app_r by lia. rewrite <- L. f_equal. lia.
  - intros [H1 H2] i b L. apply lookup_app_Some in L as [L|[Hl L]]; [by apply H1|].
    replace (o + i)%nat with (o + length bs1 + (i - length bs1))%nat by lia. by apply H2.
Qed.

Lemma holds_take m o bs : holds m o bs -> take (length bs) (drop o m) = bs.
Proof.
  intros H. apply list_eq. intros i. destruct (decide (i < length bs)%nat) as [L|L].
  - rewrite lookup_take_lt by done. rewrite lookup_drop. destruct (lookup_lt_is_Some_2 bs i L) as [b Hb]. rewrite Hb. by apply H.
  - rewrite lookup_take_ge by lia. symmetry. apply lookup_ge_None. lia.
Qed.

Lemma lookup_splice o bs m i : (o + length bs <= length m)%nat ->
  splice o bs m !! i = if decide (o <= i < o + length bs)%nat then bs !! (i - o)%nat else m !! i.
Proof.
  intros L. unfold splice. case_decide as D.
  - rewrite lookup_app_r by (rewrite length_take; lia). rewrite length_take, Nat.min_l by lia.
    rewrite lookup_app_l by lia. done.
  - destruct (decide (i < o)%nat).
    + rewrite lookup_app_l by (rewrite length_take; lia). by apply lookup_take_lt.
    + rewrite lookup_app_r by (rewrite length_take; lia). rewrite length_take, Nat.min_l by lia.
      rewrite lookup_app_r by lia. rewrite lookup_drop. f_equal. lia.
Qed.

Lemma holds_splice m o bs : (o + length bs <= length m)%nat -> holds (splice o bs m) o bs.
Proof.
  intros L i b H. pose proof (lookup_lt_Some _ _ _ H). rewrite lookup_splice by done.
  rewrite decide_True by lia. rewrite <- H. f_equal. lia.
Qed.
Lemma holds_splice_other m o bs o' bs' : (o + length bs <= length m)%nat ->
  (o' + length bs' <= o)%nat \/ (o + length bs <= o')%nat -> holds m o' bs' -> holds (splice o bs m) o' bs'.
Proof.
  intros L D H i b E. pose proof (lookup_lt_Some _ _ _ E). rewrite lookup_splice by done.
  rewrite decide_False by lia. by apply H.
Qed.

Section Ring.
Context (base size maxc g : Z).

(** Positions: a lap and an offset. *)
Definition Pos : Type := Z * Z.
Definition ple (a b : Pos) : Prop := a.1 < b.1 \/ (a.1 = b.1 /\ a.2 <= b.2).
Definition word (a : Pos) : Z := EncodeSenderPace_ (base + a.2) (a.1 mod kNumVersions).

Lemma ple_refl a : ple a a.
Proof. unfold ple. lia. Qed.
Lemma ple_anti a b : ple a b -> ple b a -> a = b.
Proof. unfold ple. destruct a, b. cbn. intros. f_equal; lia. Qed.
Lemma ple_trans a b c : ple a b -> ple b c -> ple a c.
Proof. unfold ple. lia. Qed.

(** ** Slots *)

Record Slot := mkSlot {
  lap : Z;
  off : Z;
  owner : nat;
  phase : option Phase;
  prev : Z;
  msg : bool * bytes;
}.

Definition need (m : bool * bytes) : Z := 8 + Z.of_nat (length m.2).
Definition first (s : Slot) : Pos := (lap s, off s).
Definition last (s : Slot) : Pos := (lap s, off s + need (msg s)).

Definition image (s : Slot) : bytes :=
  let '(h, c) := msg s in
  match phase s with
  | Some Header => blank (8 + length c)
  | Some Size => frame_head h kBlankSize ++ blank (length c)
  | Some Content => frame_head h (Z.of_nat (length c)) ++ blank (length c)
  | Some Mark => frame_head h (Z.of_nat (length c)) ++ c
  | None => enc (h, c)
  end.

Lemma image_length s : length (image s) = (8 + length (msg s).2)%nat.
Proof.
  unfold image. destruct (msg s) as [h c]. cbn [snd].
  destruct (phase s) as [[]|]; rewrite ?enc_length, ?length_app, ?frame_head_length, ?blank_length; done.
Qed.

(** A slot follows the one before it or starts the next lap. *)
Definition follows (a : Pos) (s : Slot) : Prop :=
  first s = a \/ (lap s = a.1 + 1 /\ off s = 0 /\ prev s = a.2).
Fixpoint chain (a : Pos) (q : list Slot) (b : Pos) : Prop :=
  match q with
  | [] => a = b
  | s :: q => follows a s /\ chain (last s) q b
  end.

Lemma chain_app a q1 q2 b : chain a (q1 ++ q2) b <-> exists m, chain a q1 m /\ chain m q2 b.
Proof.
  revert a. induction q1 as [|s q1 IH]; intros a; cbn [app chain].
  - split; [by exists a|by intros (m & -> & ?)].
  - rewrite IH. split.
    + intros (F & m & C1 & C2). by exists m.
    + intros (m & (F & C1) & C2). split; [done|]. by exists m.
Qed.

Lemma follows_ple a s : follows a s -> 0 <= off s -> ple a (first s).
Proof. unfold follows, ple, first. intros [<-|(E & _)]; cbn in *; lia. Qed.

Definition slot_ok (s : Slot) : Prop :=
  0 <= lap s /\ 0 <= off s /\ off s + need (msg s) <= size /\ (g | off s) /\ (g | need (msg s)) /\ Z.of_nat (length (msg s).2) <= maxc.

Lemma need_pos m : 8 <= need m.
Proof. unfold need. lia. Qed.

Lemma last_ple s : ple (first s) (last s).
Proof. unfold ple, first, last. pose proof (need_pos (msg s)). cbn. lia. Qed.

Lemma chain_ple a q b : Forall slot_ok q -> chain a q b -> ple a b.
Proof.
  revert a. induction q as [|s q IH]; intros a F C; cbn in C.
  - subst. apply ple_refl.
  - apply list.Forall_cons in F as [Hs F]. destruct C as [Ff C]. apply (ple_trans _ (first s)).
    + apply follows_ple; [done|]. apply Hs.
    + apply (ple_trans _ (last s)); [apply last_ple|by apply IH].
Qed.

Lemma chain_in a q b s : Forall slot_ok q -> chain a q b -> s ∈ q -> ple a (first s) /\ ple (last s) b.
Proof.
  revert a. induction q as [|t q IH]; intros a F C Hs; [by apply not_elem_of_nil in Hs|].
  apply list.Forall_cons in F as [Ht F]. destruct C as [Ff C]. pose proof (follows_ple a t Ff (proj1 (proj2 Ht))) as P.
  apply elem_of_cons in Hs as [->|Hs].
  - split; [done|]. by apply (chain_ple (last t) q).
  - destruct (IH _ F C Hs) as [P1 P2]. split; [|done]. apply (ple_trans _ (first t)); [done|].
    apply (ple_trans _ (last t)); [apply last_ple|done].
Qed.

(** Within less than a lap, slots do not overlap. *)
Definition window (a b : Pos) : Prop := a.1 = b.1 \/ (b.1 = a.1 + 1 /\ b.2 < a.2).
Definition apart (s t : Slot) : Prop :=
  off s + need (msg s) <= off t \/ off t + need (msg t) <= off s.

Lemma apart_sym s t : apart s t -> apart t s.
Proof. unfold apart. lia. Qed.

Lemma order_apart r t a b : window r t -> ple r (first a) -> ple (last a) (first b) -> ple (last b) t -> apart a b.
Proof. unfold window, ple, apart, first, last. cbn. pose proof (need_pos (msg a)). pose proof (need_pos (msg b)). lia. Qed.

Lemma chain_order a q1 s q2 b t : Forall slot_ok (q1 ++ s :: q2) -> chain a (q1 ++ s :: q2) b -> t ∈ q1 ++ q2 ->
  (t ∈ q1 /\ ple (last t) (first s)) \/ (t ∈ q2 /\ ple (last s) (first t)).
Proof.
  intros F C Ht. apply chain_app in C as (m & C1 & C2). cbn in C2. destruct C2 as [Ff C2].
  apply Forall_app in F as [F1 F2]. apply list.Forall_cons in F2 as [Hs F2].
  apply elem_of_app in Ht as [Ht|Ht]; [left|right]; (split; [done|]).
  - apply (ple_trans _ m); [|apply follows_ple; [done|apply Hs]]. by apply (chain_in a q1 m t F1 C1).
  - by apply (chain_in (last s) q2 b t F2 C2).
Qed.

Lemma chain_apart r q1 s q2 t b : window r b -> Forall slot_ok (q1 ++ s :: q2) -> chain r (q1 ++ s :: q2) b ->
  t ∈ q1 ++ q2 -> apart s t.
Proof.
  intros W F C Ht. assert (s ∈ q1 ++ s :: q2) as Is by (apply elem_of_app; right; apply list_elem_of_here).
  assert (t ∈ q1 ++ s :: q2) as It by (rewrite elem_of_app, elem_of_cons; apply elem_of_app in Ht; tauto).
  destruct (chain_in r _ b s F C Is) as [S1 S2]. destruct (chain_in r _ b t F C It) as [T1 T2].
  destruct (chain_order r q1 s q2 b t F C Ht) as [[_ O]|[_ O]].
  - apply apart_sym. by apply (order_apart r b).
  - by apply (order_apart r b).
Qed.

(** ** The memory of the ring *)

Record mem_ok (m : bytes) (q : list Slot) : Prop := {
  mo_len : Z.of_nat (length m) = size;
  mo_slot : forall s, s ∈ q -> holds m (Z.to_nat (off s)) (image s);
  mo_blank : forall i, 0 <= i < size -> (forall s, s ∈ q -> ~ off s <= i < off s + need (msg s)) ->
    m !! Z.to_nat i = Some (z2b 255);
}.

Lemma holds_split m o bs : holds m o bs -> (o + length bs <= length m)%nat -> m = take o m ++ bs ++ drop (o + length bs) m.
Proof.
  intros H L. apply holds_take in H. rewrite <- H at 1. rewrite <- drop_drop.
  by rewrite take_drop, take_drop.
Qed.

(** The description of the ring that never changes. *)
Record shape (p : MPSCFixedPipe) : Prop := {
  sh_base : pipe_ p = base;
  sh_size : size_pipe_ p = size;
  sh_max : max_size_content_ p = maxc;
}.

Lemma write_image p o (bs bs' : bytes) : shape p -> Z.of_nat (length (mem p)) = size -> 0 <= base -> 0 <= o -> o + Z.of_nat (length bs) <= size ->
  length bs' = length bs -> write p (base + o) bs' = Some (with_mem p (splice (Z.to_nat o) bs' (mem p))).
Proof.
  intros [Eb Es _] L B O F Lb. unfold write, end_of_pipe_, Pipe.off. rewrite Eb, Es.
  rewrite (proj2 (Z.leb_le _ _)), (proj2 (Z.leb_le _ _)) by lia. cbn [andb]. do 4 f_equal. lia.
Qed.

Lemma read_image p o (bs : bytes) n : shape p -> Z.of_nat (length (mem p)) = size -> 0 <= base -> 0 <= o -> o + Z.of_nat (length bs) <= size ->
  holds (mem p) (Z.to_nat o) bs -> n = length bs -> read p (base + o) n = Some bs.
Proof.
  intros [Eb Es _] L B O F H ->. unfold read, end_of_pipe_, Pipe.off. rewrite Eb, Es.
  rewrite (proj2 (Z.leb_le _ _)), (proj2 (Z.leb_le _ _)) by lia. cbn [andb]. f_equal.
  replace (Z.to_nat (base + o - base)) with (Z.to_nat o) by lia. by apply holds_take.
Qed.

Lemma msg_size_image p o (bs : bytes) : shape p -> Z.of_nat (length (mem p)) = size -> 0 <= base -> 0 <= o -> o + 8 <= size ->
  length bs = 4%nat -> holds (mem p) (Z.to_nat o + 4) bs -> msg_size p (base + o) = Some (le_val bs).
Proof.
  intros Sh L B O F Lb H. unfold msg_size. rewrite <- Z.add_assoc, (read_image p (o + 4) bs 4); try done; try lia.
  replace (Z.to_nat (o + 4)) with (Z.to_nat o + 4)%nat by lia. done.
Qed.

(** Replacing the image of one slot. *)
Lemma mem_replace m qa s s' qb : mem_ok m (qa ++ s :: qb) -> (forall t, t ∈ qa ++ qb -> apart s t) ->
  Forall slot_ok (qa ++ s :: qb) -> off s' = off s -> msg s' = msg s ->
  mem_ok (splice (Z.to_nat (off s)) (image s') m) (qa ++ s' :: qb).
Proof.
  intros [L Hs Hb] A F Eo Em. assert (slot_ok s) as (_ & O & F' & _) by (apply Forall_app in F as [_ F]; by apply list.Forall_cons in F as [? _]).
  pose proof (image_length s') as Li. rewrite Em in Li. unfold need in F'.
  assert (Z.to_nat (off s) + length (image s') <= length m)%nat as Lm by lia. split.
  - rewrite splice_length; done.
  - intros t Ht. rewrite elem_of_app, elem_of_cons in Ht.
    assert (t = s' \/ t ∈ qa ++ qb) as [->|Ht'] by (rewrite elem_of_app; tauto).
    + rewrite Eo. by apply holds_splice.
    + apply holds_splice_other; [done| |apply Hs; rewrite elem_of_app, elem_of_cons; apply elem_of_app in Ht'; tauto].
      pose proof (A t Ht') as Ap. rewrite image_length. unfold apart, need in Ap.
      assert (slot_ok t) as (_ & Ot & _). { eapply list.Forall_forall; [exact F|]. rewrite elem_of_app, elem_of_cons. apply elem_of_app in Ht'. tauto. }
      lia.
  - intros i Hi N. rewrite lookup_splice by done. rewrite decide_False.
    + apply Hb; [done|]. intros t Ht. rewrite elem_of_app, elem_of_cons in Ht. destruct Ht as [Ht|[->|Ht]].
      * apply N. rewrite elem_of_app. tauto.
      * rewrite <- Eo, <- Em. apply N. rewrite elem_of_app, elem_of_cons. tauto.
      * apply N. rewrite elem_of_app, elem_of_cons. tauto.
    + specialize (N s'). rewrite elem_of_app, elem_of_cons in N. specialize (N ltac:(tauto)). rewrite Eo, Em in N. unfold need in N. lia.
Qed.

(** A new slot takes blank memory. *)
Lemma mem_append m q s : mem_ok m q -> slot_ok s -> phase s = Some Header -> (forall t, t ∈ q -> apart s t) ->
  mem_ok m (q ++ [s]).
Proof.
  intros [L Hs Hb] (_ & O & F & _) Ph A. split; [done| |].
  - intros t Ht. apply elem_of_app in Ht as [Ht|Ht%list_elem_of_singleton]; [by apply Hs|]. subst t.
    intros i b Hi. unfold image in Hi. unfold need in F. destruct (msg s) as [h c] eqn:Em. rewrite Ph in Hi. cbn [snd] in *.
    apply lookup_replicate in Hi as [-> Li]. replace (Z.to_nat (off s) + i)%nat with (Z.to_nat (off s + Z.of_nat i)) by lia.
    apply Hb; [lia|]. intros t Ht. specialize (A t Ht). unfold apart, need in A. rewrite Em in A. cbn [snd] in A. unfold need. lia.
  - intros i Hi N. apply Hb; [done|]. intros t Ht. apply N. apply elem_of_app. by left.
Qed.

(** The first slot is blanked and leaves. *)
Lemma mem_consume m s q : mem_ok m (s :: q) -> (forall t, t ∈ q -> apart s t) -> Forall slot_ok (s :: q) ->
  mem_ok (splice (Z.to_nat (off s)) (blank (8 + length (msg s).2)) m) q.
Proof.
  intros [L Hs Hb] A F. apply list.Forall_cons in F as [(_ & O & F' & _) F]. unfold need in F'.
  assert (Z.to_nat (off s) + length (blank (8 + length (msg s).2)) <= length m)%nat as Lm by (rewrite blank_length; lia). split.
  - rewrite splice_length; done.
  - intros t Ht. apply holds_splice_other; [done| |apply Hs; by apply list_elem_of_further].
    pose proof (A t Ht) as Ap. unfold apart, need in Ap. rewrite image_length, blank_length.
    assert (slot_ok t) as (_ & Ot & _) by (eapply list.Forall_forall; eauto). lia.
  - intros i Hi N. rewrite lookup_splice by done. case_decide as D.
    + rewrite blank_length in D. apply lookup_replicate_2. lia.
    + rewrite blank_length in D. apply Hb; [done|]. intros t Ht. apply elem_of_cons in Ht as [->|Ht]; [unfold need; lia|by apply N].
Qed.

(** ** What is read and written in a slot *)

Context (Hbase : 0 < base) (Hmax : 0 <= maxc) (Haddr : base + size < 2 ^ 48) (Hsize : maxc + 8 < size < 2 ^ 31) (Hg : 0 < g).
Set Default Proof Using "All".

Definition next (ph : Phase) : option Phase :=
  match ph with Header => Some Size | Size => Some Content | Content => Some Mark | Mark => None end.
Definition with_phase (s : Slot) (ph : option Phase) : Slot := mkSlot (lap s) (off s) (owner s) ph (prev s) (msg s).

Definition size_field (s : Slot) : Z :=
  match phase s with
  | Some Header | Some Size => kBlankSize
  | Some Content | Some Mark => Z.of_nat (length (msg s).2)
  | None => Z.of_nat (length (msg s).2) + 2 ^ 31
  end.

Lemma slot_msg_size p s : shape p -> Z.of_nat (length (mem p)) = size -> slot_ok s -> holds (mem p) (Z.to_nat (off s)) (image s) ->
  msg_size p (base + off s) = Some (size_field s).
Proof.
  intros Sh L (_ & O & F & _ & _ & M) H. unfold need in F.
  assert (exists X T, image s = X ++ le_bytes 4 (size_field s) ++ T /\ length X = 4%nat) as (X & T & E & LX).
  { unfold image, size_field. destruct (msg s) as [h c]. cbn [snd]. destruct (phase s) as [[]|].
    - exists (blank 4), (blank (length c)). by replace (le_bytes 4 kBlankSize) with (blank 4) by (vm_compute; reflexivity).
    - exists (z2b (if h then 1 else 0) :: blank 3), (blank (length c)). done.
    - exists (z2b (if h then 1 else 0) :: blank 3), (blank (length c)). done.
    - exists (z2b (if h then 1 else 0) :: blank 3), c. done.
    - exists (z2b (if h then 1 else 0) :: blank 3), c. done. }
  rewrite E in H. apply holds_app in H as [_ H]. rewrite LX in H. apply holds_app in H as [H _].
  rewrite (msg_size_image p (off s) (le_bytes 4 (size_field s))); try done; try lia.
  rewrite le_val_bytes. f_equal. apply Z.mod_small. change (256 ^ Z.of_nat 4) with (2 ^ 32). unfold size_field, kBlankSize.
  destruct (phase s) as [[]|]; lia.
Qed.

Lemma size_field_ready s : Z.of_nat (length (msg s).2) < 2 ^ 31 - 1 -> IsReady_ (size_field s) = match phase s with None => true | _ => false end.
Proof.
  intros L. unfold size_field. destruct (phase s) as [[]|]; try done.
  1,2: unfold IsReady_, IsNotWriting_; rewrite land_mask by lia; apply andb_false_r.
  by destruct (ready_size (Z.of_nat (length (msg s).2))) as (_ & _ & _ & ?); [lia|].
Qed.

Lemma slot_GetMsgSize p s : shape p -> Z.of_nat (length (mem p)) = size -> slot_ok s -> holds (mem p) (Z.to_nat (off s)) (image s) ->
  phase s = None -> GetMsgSize_ p (base + off s) = Some (need (msg s)) /\ need (msg s) <> kBlankSize.
Proof.
  intros Sh L Ok H E. pose proof Ok as (_ & O & F & _ & _ & M). unfold GetMsgSize_. rewrite (slot_msg_size p s Sh L Ok H).
  unfold size_field. rewrite E. cbn [mbind option_bind]. unfold need, kBlankSize.
  destruct (ready_size (Z.of_nat (length (msg s).2))) as (_ & -> & B & _); [lia|]. unfold IsBlank_, kBlankSize in B. rewrite B.
  cbn [negb]. split; [|lia]. f_equal. unfold kMsgOffset. apply uwrap_small. unfold in_uint. lia.
Qed.

Lemma slot_message p s : shape p -> Z.of_nat (length (mem p)) = size -> slot_ok s -> holds (mem p) (Z.to_nat (off s)) (image s) ->
  phase s = None -> message p (base + off s) = Some (msg s).
Proof.
  intros Sh L Ok H E. pose proof Ok as (_ & O & F & _ & _ & M). unfold need in F. unfold message.
  pose proof (image_length s) as Li. pose proof (holds_split _ _ _ H ltac:(lia)) as Sp.
  pose proof (sh_base p Sh) as Eb. pose proof (sh_size p Sh) as Es.
  assert (sized p) as Sz by (split; [by rewrite Es|lia]). unfold image in Sp, H. rewrite E in Sp, H. destruct (msg s) as [h c]. cbn [fst snd] in *.
  assert (base + off s = pipe_ p + Z.of_nat (length (take (Z.to_nat (off s)) (mem p)))) as Ptr by (rewrite Eb, length_take; lia).
  rewrite (content_at p _ (h, c) _ _ Sz Sp Ptr) by (cbn; lia).
  assert (holds (mem p) (Z.to_nat (off s)) [z2b (if h then 1 else 0)]) as Hh.
  { change (enc (h, c)) with ([z2b (if h then 1 else 0)] ++ (blank 3 ++ le_bytes 4 (Z.of_nat (length c) + 2 ^ 31)) ++ c) in H.
    by apply holds_app in H as [H _]. }
  rewrite (read_image p (off s) [z2b (if h then 1 else 0)] 1); try done; try lia; [|cbn; lia]. cbn [mbind option_bind snd].
  do 2 f_equal. rewrite b2z_z2b. by destruct h.
Qed.

Lemma put_image p ph s h c : shape p -> Z.of_nat (length (mem p)) = size -> slot_ok s -> holds (mem p) (Z.to_nat (off s)) (image s) ->
  phase s = Some ph -> msg s = (h, c) ->
  put p ph h c (base + off s) = Some (with_mem p (splice (Z.to_nat (off s)) (image (with_phase s (next ph))) (mem p))).
Proof.
  intros Sh L Ok H E Em. pose proof Ok as (_ & O & F & _ & _ & M). unfold need in F. rewrite Em in F, M. cbn [snd] in *.
  pose proof (image_length s) as Li. rewrite Em in Li. cbn [snd] in Li. pose proof (holds_split _ _ _ H ltac:(lia)) as Sp.
  pose proof (sh_base p Sh) as Eb. pose proof (sh_size p Sh) as Es. assert (sized p) as Sz by (split; [by rewrite Es|lia]).
  pose proof (image_length (with_phase s (next ph))) as Li'. cbn [msg with_phase] in Li'. rewrite Em in Li'. cbn [snd] in Li'.
  unfold splice. rewrite Li', <- Li. set (X := take (Z.to_nat (off s)) (mem p)) in *. set (T := drop _ (mem p)) in *.
  assert (base + off s = pipe_ p + Z.of_nat (length X)) as Ptr by (unfold X; rewrite Eb, length_take; lia).
  clear Li Li'. unfold image in *. cbn [msg with_phase phase] in *. rewrite Em, E in *. destruct ph; cbn [put next].
  - change (blank (8 + length c)) with (blank 1 ++ blank (7 + length c)) in Sp. rewrite <- app_assoc in Sp.
    rewrite (write_at p X (blank 1) _ _ _ Sz Sp) by done. done.
  - rewrite <- app_assoc in Sp. rewrite (set_msg_size_at p X h kBlankSize _ _ _ Sz Sp Ptr). by rewrite <- app_assoc.
  - case_decide as D.
    + apply nil_length_inv in D as ->. assert (p = with_mem p (mem p)) as W by (by destruct p). rewrite W at 1. do 2 f_equal. exact Sp.
    + rewrite <- app_assoc, (app_assoc X) in Sp. rewrite (write_at p _ (blank (length c)) T c _ Sz Sp); [by rewrite <- !app_assoc| |by rewrite blank_length].
      rewrite length_app, frame_head_length. unfold kMsgOffset. lia.
  - rewrite <- app_assoc in Sp. unfold SetReady_. rewrite (msg_size_at p X h (Z.of_nat (length c)) (c ++ T) _ Sz Sp Ptr) by lia. cbn [mbind option_bind].
    rewrite (set_msg_size_at p X h (Z.of_nat (length c)) _ (c ++ T) _ Sz Sp Ptr).
    destruct (ready_size (Z.of_nat (length c))) as (-> & _); [lia|]. unfold enc. cbn [fst snd]. by rewrite <- app_assoc.
Qed.

(** Eight bytes outside every slot read as blank. *)
Lemma blank_msg_size p q o : shape p -> mem_ok (mem p) q -> 0 <= o -> o + 8 <= size ->
  (forall s, s ∈ q -> o + 8 <= off s \/ off s + need (msg s) <= o) -> msg_size p (base + o) = Some kBlankSize.
Proof.
  intros Sh [L _ Hb] O F N. rewrite (msg_size_image p o (blank 4)); try done; try lia.
  intros i b Hi. apply lookup_replicate in Hi as [-> Li].
  replace (Z.to_nat o + 4 + i)%nat with (Z.to_nat (o + 4 + Z.of_nat i)) by lia. apply Hb; [lia|]. intros s Hs. specialize (N s Hs). lia.
Qed.

(** ** Positions and the words of the ring *)

Definition boundary (a : Pos) : Prop := 0 <= a.1 /\ 0 <= a.2 <= size /\ (g | a.2).

(** With a tail that no multiple of [g] reaches, there is always room for a header. *)
Lemma boundary_tail a : 8 <= size mod g -> boundary a -> a.2 + 8 <= size.
Proof.
  intros Htail (_ & [O L] & [k E]). rewrite E in *. pose proof (Z.div_mod size g ltac:(lia)) as D.
  assert (k <= size / g) by (apply Z.div_le_lower_bound; lia). nia.
Qed.

Lemma word_ptr a : boundary a -> DecodeSenderPacePtr_ (word a) = base + a.2.
Proof.
  intros (_ & B & _). apply decode_ptr; [unfold good_ptr; lia|]. apply (Z.mod_pos_bound a.1 kNumVersions). done.
Qed.
Lemma word_version a : boundary a -> DecodeSenderPaceVersion_ (word a) = a.1 mod kNumVersions.
Proof.
  intros (_ & B & _). apply decode_version; [unfold good_ptr; lia|]. apply (Z.mod_pos_bound a.1 kNumVersions). done.
Qed.

(** A word stands for one position as long as fewer laps than versions pass. *)
Lemma word_inj a b : boundary a -> boundary b -> ple a b -> b.1 - a.1 < kNumVersions -> word a = word b -> a = b.
Proof.
  intros Ba Bb P D E. pose proof (f_equal DecodeSenderPacePtr_ E) as E1. pose proof (f_equal DecodeSenderPaceVersion_ E) as E2.
  rewrite !word_ptr in E1 by done. rewrite !word_version in E2 by done.
  assert ((b.1 - a.1) mod kNumVersions = 0) as Z0 by (rewrite Zminus_mod, E2, Z.sub_diag; done).
  unfold ple in P. rewrite Z.mod_small in Z0 by lia. destruct a, b; cbn in *. f_equal; lia.
Qed.

(** ** The view of the ring *)

Record View := mkView {
  qp : list Slot;     (* published *)
  qu : list Slot;     (* reserved and not published *)
  R : Pos;            (* the receiver *)
  A : Pos;            (* the end of the published slots *)
  F : Pos;            (* sender_pace_from_ *)
  T : Pos;            (* sender_pace_to_ *)
}.
Definition slots (v : View) : list Slot := qp v ++ qu v.

Record geo (v : View) : Prop := {
  ge_slots : Forall slot_ok (slots v);
  ge_pub : chain (R v) (qp v) (A v);
  ge_res : chain (A v) (qu v) (T v);
  ge_from : F v = A v \/ exists s q', qu v = s :: q' /\ first s = F v;
  ge_window : window (R v) (T v);
  ge_done : Forall (fun s => phase s = None) (qp v);
  ge_R : boundary (R v);
  ge_F : boundary (F v);
  ge_T : boundary (T v);
  ge_T0 : (T v).2 = 0 -> (T v).1 = 0;
}.

Section Geometry.
Context (v : View) (G : geo v).

Lemma geo_chain : chain (R v) (slots v) (T v).
Proof. apply chain_app. exists (A v). split; apply G. Qed.
Lemma geo_pub_ok : Forall slot_ok (qp v).
Proof. pose proof (ge_slots v G) as F. by apply Forall_app in F as [? _]. Qed.
Lemma geo_res_ok : Forall slot_ok (qu v).
Proof. pose proof (ge_slots v G) as F. by apply Forall_app in F as [_ ?]. Qed.
Lemma geo_slot s : s ∈ slots v -> slot_ok s /\ ple (R v) (first s) /\ ple (last s) (T v).
Proof.
  intros Hs. split; [by eapply list.Forall_forall; [apply G|]|]. apply (chain_in _ (slots v)); [apply G|apply geo_chain|done].
Qed.
Lemma geo_in_qu s : s ∈ qu v -> s ∈ slots v.
Proof. intros. apply elem_of_app. by right. Qed.
Lemma geo_in_qp s : s ∈ qp v -> s ∈ slots v.
Proof. intros. apply elem_of_app. by left. Qed.

Lemma geo_RA : ple (R v) (A v).
Proof. apply (chain_ple _ (qp v)); [apply geo_pub_ok|apply G]. Qed.
Lemma geo_AF : ple (A v) (F v).
Proof.
  destruct (ge_from v G) as [->|(s & q' & E & <-)]; [apply ple_refl|]. pose proof (ge_res v G) as C. pose proof geo_res_ok as O.
  rewrite E in C, O. apply list.Forall_cons in O as [O _]. apply follows_ple; [apply C|apply O].
Qed.
Lemma geo_RF : ple (R v) (F v).
Proof. apply (ple_trans _ (A v)); [apply geo_RA|apply geo_AF]. Qed.

Lemma geo_unpublished s : s ∈ qu v -> ple (F v) (first s).
Proof.
  intros Hs. destruct (ge_from v G) as [->|(h & q' & E & <-)].
  - by apply (chain_in _ (qu v) (T v) s geo_res_ok (ge_res v G)).
  - rewrite E in Hs. apply elem_of_cons in Hs as [->|Hs]; [apply ple_refl|].
    pose proof (ge_res v G) as C. pose proof geo_res_ok as O. rewrite E in C, O. apply list.Forall_cons in O as [O1 O].
    apply (ple_trans _ (last h)); [apply last_ple|]. by apply (chain_in _ q' (T v) s O (proj2 C)).
Qed.
Lemma geo_published s : s ∈ qp v -> ple (last s) (F v).
Proof.
  intros Hs. apply (ple_trans _ (A v)); [|apply geo_AF]. by apply (chain_in _ (qp v) (A v) s geo_pub_ok (ge_pub v G)).
Qed.
Lemma geo_FT : ple (F v) (T v).
Proof.
  destruct (ge_from v G) as [->|(s & q' & E & <-)].
  - apply (chain_ple _ (qu v)); [apply geo_res_ok|apply G].
  - apply (ple_trans _ (last s)); [apply last_ple|]. apply geo_slot, geo_in_qu. rewrite E. apply list_elem_of_here.
Qed.

(** The first slot that is not published. *)
Lemma geo_head s q' : qu v = s :: q' -> first s = F v \/ (F v = A v /\ lap s = (F v).1 + 1 /\ off s = 0 /\ prev s = (F v).2).
Proof.
  intros E. pose proof (ge_res v G) as C. rewrite E in C. destruct C as [[Ff|Ff] _].
  - left. destruct (ge_from v G) as [->|(h & q2 & E2 & <-)]; [done|]. rewrite E in E2. by injection E2 as -> ->.
  - destruct (ge_from v G) as [EF|(h & q2 & E2 & <-)].
    + right. by rewrite EF.
    + left. rewrite E in E2. by injection E2 as -> ->.
Qed.
Lemma geo_at_F s : s ∈ qu v -> first s = F v -> exists q', qu v = s :: q'.
Proof.
  intros Hs E. destruct (qu v) as [|h q'] eqn:Eq; [by apply not_elem_of_nil in Hs|]. apply elem_of_cons in Hs as [->|Hs]; [by exists q'|].
  exfalso. assert (ple (F v) (first h)) as P by (apply geo_unpublished; rewrite Eq; apply list_elem_of_here).
  pose proof (ge_res v G) as C. pose proof geo_res_ok as O. rewrite Eq in C, O. apply list.Forall_cons in O as [_ O].
  destruct (chain_in _ q' (T v) s O (proj2 C) Hs) as [P2 _]. rewrite E in P2. revert P P2. unfold ple, first, last. pose proof (need_pos (msg h)). cbn. lia.
Qed.
Lemma geo_apart s t : s ∈ slots v -> t ∈ slots v -> s = t \/ apart s t.
Proof.
  intros Hs Ht. apply list_elem_of_split in Hs as (q1 & q2 & E). rewrite E in Ht. rewrite elem_of_app, elem_of_cons in Ht.
  destruct Ht as [Ht|[->|Ht]]; [right|by left|right];
    (apply (chain_apart (R v) q1 s q2 t (T v)); [apply G|rewrite <- E; apply G|rewrite <- E; apply geo_chain|apply elem_of_app; tauto]).
Qed.
Lemma geo_same s t : s ∈ slots v -> t ∈ slots v -> off s = off t -> s = t.
Proof.
  intros Hs Ht E. destruct (geo_apart s t Hs Ht) as [?|Ap]; [done|]. exfalso. unfold apart in Ap.
  pose proof (need_pos (msg s)). pose proof (need_pos (msg t)). lia.
Qed.
Lemma geo_none : qu v = [] -> F v = T v.
Proof.
  intros E. pose proof (ge_res v G) as C. rewrite E in C. cbn in C. destruct (ge_from v G) as [->|(s & q' & E2 & _)]; [done|]. congruence.
Qed.

(** The laps of the positions between receiver and senders. *)
Lemma geo_laps : (R v).1 <= (F v).1 <= (T v).1 /\ (T v).1 <= (R v).1 + 1.
Proof. pose proof (ge_window v G). pose proof (geo_RF). pose proof (geo_FT). unfold ple, window in *. lia. Qed.

(** The published position meets a slot only as the first unpublished one. *)
Lemma geo_ptr s : s ∈ slots v -> off s = (F v).2 -> first s = F v /\ s ∈ qu v.
Proof.
  intros Hs E. destruct (geo_slot s Hs) as (_ & P1 & P2). pose proof geo_RF as P3. pose proof geo_FT as P4.
  pose proof (ge_window v G) as W. pose proof (need_pos (msg s)) as N. apply elem_of_app in Hs as [Hs|Hs].
  - exfalso. pose proof (geo_published s Hs) as P5. unfold ple, window, first, last in *. cbn [fst snd] in *. lia.
  - split; [|done]. pose proof (geo_unpublished s Hs) as P5. unfold ple, window, first, last in *. cbn [fst snd] in *.
    destruct (F v) as [fl fo]. cbn [fst snd] in *. f_equal; lia.
Qed.

Lemma chain_end a q b : Forall slot_ok q -> chain a q b -> q <> [] -> 8 <= b.2.
Proof.
  revert a. induction q as [|s q IH]; intros a O C N; [done|]. apply list.Forall_cons in O as [O1 O]. destruct C as [_ C].
  destruct q as [|t q]; [cbn in C; subst b; unfold last; cbn; pose proof (need_pos (msg s)); destruct O1 as (_ & ? & _); lia|].
  by apply (IH (last s)).
Qed.

(** A slot that starts a lap is next when the position before the rewind is
    reached. *)
Lemma geo_rewind s : s ∈ qu v -> off s = 0 -> lap s = (F v).1 + 1 -> prev s = (F v).2 -> exists q', qu v = s :: q'.
Proof.
  intros Hs E0 El Ep. pose proof geo_res_ok as O. pose proof (ge_res v G) as C. pose proof Hs as Hs'.
  apply list_elem_of_split in Hs' as (q1 & q2 & Eq). destruct q1 as [|h q1]; [by exists q2|]. exfalso.
  assert (ple (F v) (first h)) as P1 by (apply geo_unpublished; rewrite Eq; apply list_elem_of_here).
  rewrite Eq in C, O. apply chain_app in C as (m & C1 & C2). apply Forall_app in O as [O1 O2].
  pose proof (chain_end _ _ _ O1 C1 ltac:(done)) as Hm. destruct (chain_in _ _ _ h O1 C1 ltac:(apply list_elem_of_here)) as [_ P2].
  destruct C2 as [[Ef|Ef] _]; unfold first in Ef; [rewrite <- Ef in Hm; cbn in Hm; lia|].
  pose proof (need_pos (msg h)). unfold ple, first, last in *. cbn [fst snd] in *. lia.
Qed.

(** Behind the last slot of a lap the ring is blank. *)
Lemma geo_tail h q' : qu v = h :: q' -> first h <> F v -> forall s, s ∈ slots v -> (F v).2 + 8 <= off s \/ off s + need (msg s) <= (F v).2.
Proof.
  intros E N s Hs. destruct (geo_head h q' E) as [?|(EA & El & E0 & _)]; [done|].
  destruct (geo_slot s Hs) as (_ & P1 & P2). pose proof geo_laps as L. pose proof (ge_window v G) as W. pose proof geo_RF as RF.
  assert (h ∈ slots v) as Hh by (apply geo_in_qu; rewrite E; apply list_elem_of_here). destruct (geo_slot h Hh) as (_ & _ & P3).
  apply elem_of_app in Hs as [Hs|Hs].
  - pose proof (geo_published s Hs). pose proof (need_pos (msg s)). unfold ple, window, first, last in *. cbn [fst snd] in *. lia.
  - assert (ple (first h) (first s)) as P4.
    { rewrite E in Hs. apply elem_of_cons in Hs as [->|Hs]; [apply ple_refl|]. pose proof geo_res_ok as O. pose proof (ge_res v G) as C.
      rewrite E in O, C. apply list.Forall_cons in O as [_ O]. destruct (chain_in _ q' (T v) s O (proj2 C) Hs) as [P _].
      apply (ple_trans _ (last h)); [apply last_ple|done]. }
    pose proof (need_pos (msg s)). unfold ple, window, first, last in *. cbn [fst snd] in *. lia.
Qed.
End Geometry.

(** ** What each thread knows *)

Abbreviation version a := (a.1 mod kNumVersions).
Definition fits (c : bytes) : Prop := Z.of_nat (length c) <= maxc /\ (g | 8 + Z.of_nat (length c)).

(** A position read from [sender_pace_from_] since the lap [b]. *)
Definition seen (v : View) (b : Z) (a : Pos) : Prop := boundary a /\ b - 1 <= a.1 /\ ple a (F v).
(** A word of a position at which the header of a message fits. *)
Definition head_word (old : Z) (a : Pos) : Prop := old = word a /\ a.2 + 8 <= size.
(** The first slot that is not published is complete and starts at [F]; a slot at
    the beginning of the ring is published by its own sender only. *)
Definition head_ready (v : View) (i : nat) (s : Slot) : Prop :=
  (exists q', qu v = s :: q') /\ phase s = None /\ first s = F v /\ (off s = 0 -> owner s = i).
Definition rewinds (s : Slot) (pos : option Z) : Prop := off s = 0 -> pos = Some (base + prev s) \/ lap s = 0.

Definition sender_ok (v : View) (i : nat) (b : Z) (x : Sender) : Prop :=
  match x with
  | Idle => True
  | ReadTo h c => fits c
  | ReadReceiver h c to => fits c /\ exists a, to = word a /\ boundary a /\ b <= a.1 /\ ple a (T v)
  | CasTo h c to new rewind =>
      fits c /\ exists a, to = word a /\ boundary a /\ b <= a.1 /\ ple a (T v) /\
      new = base + (if rewind then 0 else a.2) + need (h, c) /\
      (a = T v -> if rewind then (T v).1 = (R v).1 /\ need (h, c) < (R v).2
                  else (T v).2 + need (h, c) <= size /\ ((T v).1 = (R v).1 + 1 -> (T v).2 + need (h, c) < (R v).2))
  | Put ph h c m pos =>
      exists s, s ∈ qu v /\ owner s = i /\ phase s = Some ph /\ msg s = (h, c) /\ m = base + off s /\ rewinds s pos
  | ReadFrom m pos =>
      exists s, s ∈ slots v /\ owner s = i /\ phase s = None /\ m = base + off s /\ rewinds s pos /\ (off s = 0 -> s ∈ qu v)
  | AwaitFrom pos ver =>
      exists s, s ∈ qu v /\ owner s = i /\ phase s = None /\ off s = 0 /\ lap s = (F v).1 + 1 /\ pos = base + prev s /\ ver = version (F v)
  | StoreFrom ver =>
      exists s q', qu v = s :: q' /\ owner s = i /\ phase s = None /\ off s = 0 /\ lap s = (F v).1 + 1 /\ ver = lap s mod kNumVersions
  | ReadSize old ptr ver => exists a, head_word old a /\ ptr = base + a.2 /\ ver = version a /\ seen v b a /\ (a = F v -> exists s, head_ready v i s)
  | CasFrom old new ver =>
      exists a, old = word a /\ ver = version a /\ seen v b a /\ (a = F v -> exists s, head_ready v i s /\ new = base + (last s).2)
  | LoopTo new ver => exists a, new = base + a.2 /\ ver = version a /\ seen v b a /\ 0 < a.2
  | LoopReady new ver => exists a, new = base + a.2 /\ ver = version a /\ seen v b a /\ 0 < a.2 /\ a <> T v
  end.

(** The sender that looks after a slot: it writes it, it waits to start the next
    lap with it, or it is about to publish it. *)
Definition serves (v : View) (s : Slot) (i : nat) (x : Sender) : Prop :=
  match phase s with
  | Some ph => owner s = i /\ exists pos, x = Put ph (msg s).1 (msg s).2 (base + off s) pos
  | None =>
      (owner s = i /\ exists pos, x = ReadFrom (base + off s) pos) \/
      (owner s = i /\ off s = 0 /\ ((exists pos ver, x = AwaitFrom pos ver) \/ exists ver, x = StoreFrom ver)) \/
      (first s = F v /\ (off s = 0 -> owner s = i) /\
        ((exists ptr ver, x = ReadSize (word (F v)) ptr ver) \/ (exists new ver, x = CasFrom (word (F v)) new ver))) \/
      (first s = F v /\ off s <> 0 /\ (x = LoopTo (base + (F v).2) (version (F v)) \/ x = LoopReady (base + (F v).2) (version (F v))))
  end.
Definition due (v : View) (s : Slot) : Prop := phase s <> None \/ off s = 0 \/ first s = F v.

(** A position the published one has passed since the receiver was at [R]. *)
Definition reached (v : View) (a : Pos) : Prop :=
  (exists qa qb, qp v = qa ++ qb /\ chain (R v) qa a) \/ (exists s, s ∈ slots v /\ first s = a).

Definition receiver_ok (st : State) (v : View) : Prop :=
  let r := receiver_pace_ (ring st) in
  match receiver st with
  | RIdle => r = base + (R v).2 /\ got st ++ (msg <$> slots v) = sent st
  | RFrom from =>
      r = base + (R v).2 /\ got st ++ (msg <$> slots v) = sent st /\
      exists a, from = base + a.2 /\ ple (R v) a /\ ple a (F v) /\ 0 <= a.2 /\ reached v a
  | RHave =>
      r = base + (R v).2 /\ got st ++ (msg <$> slots v) = sent st /\ exists s q', qp v = s :: q' /\ first s = R v
  | RBlank orig to =>
      exists s q', qp v = s :: q' /\ first s = R v /\ orig = base + off s /\ to = base + (last s).2 /\ r = to /\
        got st ++ (msg <$> q' ++ qu v) = sent st
  end.

Record ok (st : State) (v : View) : Prop := {
  ok_geo : geo v;
  ok_shape : shape (ring st);
  ok_mem : mem_ok (mem (ring st)) (slots v);
  ok_to : sender_pace_to_ (ring st) = word (T v);
  ok_from : sender_pace_from_ (ring st) = word (F v);
  ok_laps : (T v).1 = laps st;
  ok_began : forall i t, senders st !! i = Some t -> began t <= laps st;
  ok_receiver : receiver_ok st v;
  ok_senders : forall i t, senders st !! i = Some t -> sender_ok v i (began t) (pc t);
  ok_served : forall s, s ∈ qu v -> due v s -> exists i t, senders st !! i = Some t /\ serves v s i (pc t);
}.

(** ** Steps of a sender that leave the ring alone *)

Definition moved (st : State) (i : nat) (b : Z) (x y : Sender) (p : MPSCFixedPipe) : State :=
  mkState p (<[i := mkThread y b]> (senders st)) (receiver st) (sent st ++ reserved x y) (got st) (laps st + rewound x y).
Definition safe_step (st : State) (i : nat) (b : Z) (x : Sender) : Prop :=
  exists y p v, run_sender (ring st) x = Some (y, p) /\ ok (moved st i b x y p) v.

Lemma served_other st v v' i y b s : senders st !! i = Some (mkThread y b) ->
  (exists j t, senders st !! j = Some t /\ serves v s j (pc t)) ->
  (forall j x, j <> i -> serves v s j x -> serves v' s j x) ->
  forall y', (serves v s i y -> exists j t, <[i := mkThread y' b]> (senders st) !! j = Some t /\ serves v' s j (pc t)) ->
  exists j t, <[i := mkThread y' b]> (senders st) !! j = Some t /\ serves v' s j (pc t).
Proof.
  intros Hi (j & t & Hj & Sv) Mono y' Own. destruct (decide (j = i)) as [->|N].
  - rewrite Hi in Hj. injection Hj as <-. by apply Own.
  - exists j, t. rewrite list_lookup_insert_ne by done. split; [done|]. by apply Mono.
Qed.

Lemma stay st v i b x y : ok st v -> senders st !! i = Some (mkThread x b) -> run_sender (ring st) x = Some (y, ring st) ->
  reserved x y = [] -> rewound x y = 0 -> sender_ok v i b y ->
  (forall s, s ∈ qu v -> due v s -> serves v s i x -> serves v s i y) -> safe_step st i b x.
Proof.
  intros O Hi E Er Ew Hy Sv. exists y, (ring st), v. split; [done|]. destruct O. unfold moved. rewrite Er, Ew, app_nil_r, Z.add_0_r.
  assert (i < length (senders st))%nat as Li by (by eapply lookup_lt_Some). split; cbn [ring senders receiver sent got laps]; try done.
  - intros j t Hj. apply list_lookup_insert_Some in Hj as [(<- & <- & _)|[N Hj]]; [by apply (ok_began0 i _ Hi)|by apply (ok_began0 j)].
  - intros j t Hj. apply list_lookup_insert_Some in Hj as [(<- & <- & _)|[N Hj]]; [done|by apply ok_senders0].
  - intros s Hs D. eapply (served_other st v v i x b s Hi); [by apply ok_served0|done|]. intros Own. exists i, (mkThread y b).
    rewrite list_lookup_insert_eq by done. split; [done|]. by apply Sv.
Qed.

(** A sender that is not writing, waiting or publishing serves no slot. *)
Definition aloof (x : Sender) : Prop :=
  match x with Idle | ReadTo _ _ | ReadReceiver _ _ _ | CasTo _ _ _ _ _ => True | _ => False end.
Lemma aloof_serves v s i x : aloof x -> ~ serves v s i x.
Proof. unfold serves. intros Ha. destruct (phase s) as [ph|]; destruct x; naive_solver. Qed.

Lemma step_Idle st v i b : ok st v -> senders st !! i = Some (mkThread Idle b) -> safe_step st i b Idle.
Proof. intros O Hi. by apply (stay st v i b Idle Idle). Qed.

Lemma step_ReadTo st v i b h c : ok st v -> senders st !! i = Some (mkThread (ReadTo h c) b) -> safe_step st i b (ReadTo h c).
Proof.
  intros O Hi. pose proof (ok_senders st v O i _ Hi) as Hx. pose proof (ok_began st v O i _ Hi) as Hb. cbn in Hx, Hb.
  apply (stay st v i b _ (ReadReceiver h c (sender_pace_to_ (ring st)))); try done.
  - split; [done|]. exists (T v). split_and!; [apply O|apply O|rewrite (ok_laps st v O); done|apply ple_refl].
  - intros s _ _ Sv. by apply aloof_serves in Sv.
Qed.

Lemma receiver_at st v : ok st v -> (forall orig to, receiver st <> RBlank orig to) -> receiver_pace_ (ring st) = base + (R v).2.
Proof. intros O N. pose proof (ok_receiver st v O) as H. unfold receiver_ok in H. destruct (receiver st); naive_solver. Qed.

Lemma step_ReadReceiver st v i b h c to : ok st v -> senders st !! i = Some (mkThread (ReadReceiver h c to) b) ->
  (forall orig to, receiver st <> RBlank orig to) -> safe_step st i b (ReadReceiver h c to).
Proof.
  intros O Hi N. pose proof (ok_senders st v O i _ Hi) as (Hc & a & -> & Ba & Hb & Pa). cbn [began] in Hb.
  pose proof (ok_geo st v O) as G. pose proof (ge_R v G) as (_ & BR & _). pose proof (ge_window v G) as W.
  pose proof (ple_trans _ _ _ (geo_RF v G) (geo_FT v G)) as RT. pose proof (receiver_at st v O N) as Er.
  apply (stay st v i b _ (match reserve (ring st) (Z.of_nat (length c)) (word a) (receiver_pace_ (ring st)) with
            | Some (new, rewind) => CasTo h c (word a) new rewind
            | None => Idle
            end)); try done.
  - unfold reserve, end_of_pipe_. rewrite Er, word_ptr by done. rewrite (sh_base _ (ok_shape st v O)), (sh_size _ (ok_shape st v O)).
    assert (kMsgOffset + Z.of_nat (length c) = need (h, c)) as -> by done. unfold ple, window in *.
    destruct (Z.leb_spec (base + (R v).2) (base + a.2)); [destruct (Z.leb_spec (base + a.2 + need (h, c)) (size + base));
      [|destruct (Z.ltb_spec (base + need (h, c)) (base + (R v).2))]|destruct (Z.ltb_spec (base + a.2 + need (h, c)) (base + (R v).2))];
      try exact I; (split; [done|]; exists a; split_and!; [done|done|done|done|lia|]; intros ->; lia).
  - intros s _ _ Sv. by apply aloof_serves in Sv.
Qed.

Lemma step_LoopTo st v i b new ver : ok st v -> senders st !! i = Some (mkThread (LoopTo new ver) b) -> safe_step st i b (LoopTo new ver).
Proof.
  intros O Hi. pose proof (ok_senders st v O i _ Hi) as (a & -> & -> & Sa & Pa). cbn [began] in Sa. pose proof (ok_geo st v O) as G.
  apply (stay st v i b _ (if base + a.2 =? DecodeSenderPaceToPtr_ (ring st) then Idle else LoopReady (base + a.2) (version a))); try done.
  - unfold DecodeSenderPaceToPtr_. rewrite (ok_to st v O), word_ptr by apply G. destruct (Z.eqb_spec (base + a.2) (base + (T v).2)) as [E|E]; [done|].
    exists a. do 4 (split; [done|]). intros ->. lia.
  - intros s Hs D Sv. unfold DecodeSenderPaceToPtr_. rewrite (ok_to st v O), word_ptr by apply G.
    unfold serves in *. destruct (phase s) as [ph|]; [naive_solver|].
    destruct Sv as [Sv|[Sv|[Sv|(Ef & No & Sv)]]]; [naive_solver..|]. destruct Sv as [[= Ea Ev]|?]; [|done].
    assert (a.2 = (F v).2) as E2 by lia. rewrite E2 in *. right; right; right. rewrite <- Ev. split_and!; [done|done|right].
    rewrite (proj2 (Z.eqb_neq _ _)); [done|]. intros ET.
    (* the senders are not a whole lap ahead *)
    destruct (geo_slot v G s (geo_in_qu v G s Hs)) as (_ & P1 & P2). pose proof (ge_window v G) as W. pose proof (geo_RF v G) as RF.
    pose proof (need_pos (msg s)). rewrite <- Ef in *. unfold ple, window, first, last in *. cbn [fst snd] in *. lia.
Qed.

Lemma head_slot v i s : geo v -> head_ready v i s -> s ∈ qu v /\ s ∈ slots v.
Proof. intros G ((q' & E) & _). assert (s ∈ qu v) as H by (rewrite E; apply list_elem_of_here). split; [done|by apply geo_in_qu]. Qed.

Lemma step_ReadFrom st v i b m pos : ok st v -> senders st !! i = Some (mkThread (ReadFrom m pos) b) -> safe_step st i b (ReadFrom m pos).
Proof.
  intros O Hi. pose proof (ok_senders st v O i _ Hi) as (s & Hs & Ow & Ph & -> & Rw & Hz). pose proof (ok_began st v O i _ Hi) as Hb. cbn [began] in Hb.
  pose proof (ok_geo st v O) as G. pose proof (geo_laps v G) as L. rewrite <- (ok_laps st v O) in Hb. pose proof (ge_F v G) as BF.
  assert (forall t, t ∈ qu v -> serves v t i (ReadFrom (base + off s) pos) -> t = s) as Only.
  { intros t Ht Sv. unfold serves in Sv. apply (geo_same v G); [by apply geo_in_qu|done|]. destruct (phase t); [naive_solver|].
    destruct Sv as [(_ & ? & [= Eb _])|[Sv|[Sv|Sv]]]; [lia|naive_solver..]. }
  assert (run_sender (ring st) (ReadFrom (base + off s) pos) =
    (if (F v).2 =? off s then Some (ReadSize (word (F v)) (base + (F v).2) (version (F v)), ring st)
     else if off s =? 0 then x ← pos; Some (AwaitFrom x (version (F v)), ring st) else Some (Idle, ring st))) as E.
  { cbn [run_sender]. rewrite (ok_from st v O), word_ptr, word_version, (sh_base _ (ok_shape st v O)) by done.
    destruct (Z.eqb_spec (F v).2 (off s)), (Z.eqb_spec (base + (F v).2) (base + off s)); try lia; [done|].
    destruct (Z.eqb_spec (base + off s) base), (Z.eqb_spec (off s) 0); try lia; done. }
  destruct (Z.eqb_spec (F v).2 (off s)) as [Ef|Ef].
  - destruct (geo_ptr v G s Hs (eq_sym Ef)) as [Es Hq]. destruct (geo_at_F v G s Hq Es) as [q' Eq].
    apply (stay st v i b _ _ O Hi E); try done.
    + exists (F v). split_and!; [split; [done|]|done|done| |]; [destruct (geo_slot v G s Hs) as ((_ & _ & Os & _) & _); pose proof (need_pos (msg s)); unfold need in *; lia|split_and!; [done|lia|apply ple_refl]|]. intros _. exists s. split_and!; try done. by exists q'.
    + intros t Ht _ Sv. rewrite (Only t Ht Sv). unfold serves. rewrite Ph. right; right; left. split_and!; try done. left. by eexists _, _.
  - destruct (Z.eqb_spec (off s) 0) as [E0|E0].
    + pose proof (Hz E0) as Hq. pose proof (geo_unpublished v G s Hq) as P. destruct (geo_slot v G s Hs) as (_ & _ & P2).
      destruct (Rw E0) as [->|El]; [|exfalso; destruct BF as (? & ? & _); unfold ple, first in P; cbn [fst snd] in P; lia].
      apply (stay st v i b _ _ O Hi E); try done.
      * exists s. split_and!; try done. destruct BF as (_ & BF & _). pose proof (need_pos (msg s)). unfold ple, first, last in P, P2. cbn [fst snd] in *. lia.
      * intros t Ht _ Sv. rewrite (Only t Ht Sv). unfold serves. rewrite Ph. right; left. split_and!; try done. left. by eexists _, _.
    + apply (stay st v i b _ _ O Hi E); try done. intros t Ht D Sv. rewrite (Only t Ht Sv) in *. exfalso.
      destruct D as [D|[D|D]]; [done|done|]. rewrite <- D in Ef. unfold first in Ef. by cbn in Ef.
Qed.

Lemma step_AwaitFrom st v i b pos ver : ok st v -> senders st !! i = Some (mkThread (AwaitFrom pos ver) b) -> safe_step st i b (AwaitFrom pos ver).
Proof.
  intros O Hi. pose proof (ok_senders st v O i _ Hi) as (s & Hs & Ow & Ph & E0 & El & -> & ->). pose proof (ok_geo st v O) as G.
  apply (stay st v i b _ (if base + (F v).2 =? base + prev s then StoreFrom ((version (F v) + 1) mod kNumVersions)
    else AwaitFrom (base + prev s) (version (F v)))); try done.
  - cbn [run_sender]. unfold DecodeSenderPaceFromPtr_. by rewrite (ok_from st v O), word_ptr by apply G.
  - destruct (Z.eqb_spec (base + (F v).2) (base + prev s)); [|by exists s].
    destruct (geo_rewind v G s Hs E0 El ltac:(lia)) as [q' Eq]. exists s, q'. split_and!; try done. by rewrite El, Zplus_mod_idemp_l.
  - intros t Ht _ Sv. unfold serves in *. destruct (phase t); [naive_solver|].
    destruct Sv as [Sv|[(Ot & Zt & _)|[Sv|Sv]]]; [naive_solver| |naive_solver|naive_solver].
    right; left. split_and!; try done. destruct (base + (F v).2 =? base + prev s); [right; by eexists|left; by eexists _, _].
Qed.

(** A word read since the sender entered is that of the published position only
    when it is that position. *)
Lemma seen_inj st v i b x a : ok st v -> fresh st -> senders st !! i = Some (mkThread x b) -> x <> Idle -> seen v b a ->
  word a = word (F v) -> a = F v.
Proof.
  intros O Fr Hi N (Ba & Hb & P) E. pose proof (Fr i _ Hi N) as D. cbn [began] in D. pose proof (ok_geo st v O) as G. pose proof (geo_laps v G) as L.
  rewrite <- (ok_laps st v O) in D. apply word_inj; try done; [apply G|lia].
Qed.

Lemma msg_size_total p a : shape p -> Z.of_nat (length (mem p)) = size -> boundary a -> a.2 + 8 <= size -> exists z, msg_size p (base + a.2) = Some z.
Proof.
  intros Sh L B Tl. destruct B as (_ & B & _).
  exists (le_val (take 4 (drop (Z.to_nat a.2 + 4) (mem p)))). apply msg_size_image; try done; try lia.
  - rewrite length_take, length_drop. lia.
  - intros i c Hi. assert (i < 4)%nat by (apply lookup_lt_Some in Hi; rewrite length_take in Hi; lia).
    rewrite lookup_take_lt, lookup_drop in Hi by done. done.
Qed.

Lemma step_ReadSize st v i b old ptr ver : ok st v -> fresh st -> senders st !! i = Some (mkThread (ReadSize old ptr ver) b) ->
  safe_step st i b (ReadSize old ptr ver).
Proof.
  intros O Fr Hi. pose proof (ok_senders st v O i _ Hi) as (a & [-> Tl] & -> & -> & Sa & Hd). cbn [began] in Sa. pose proof (ok_geo st v O) as G.
  pose proof (ok_shape st v O) as Sh. pose proof (ok_mem st v O) as Me. pose proof Me as [Lm Hm _]. pose proof Sa as (Ba & _).
  destruct (msg_size_total (ring st) a Sh Lm Ba Tl) as [z Ez].
  assert (exists n, GetMsgSize_ (ring st) (base + a.2) = Some n) as [n En] by (unfold GetMsgSize_; rewrite Ez; by eexists).
  assert (a = F v -> exists s, head_ready v i s /\ n = need (msg s) /\ n <> kBlankSize) as Hn.
  { intros Ea. destruct (Hd Ea) as [s Hs]. exists s. split; [done|]. destruct (head_slot v i s G Hs) as [_ Hq]. destruct Hs as (_ & Ph & Ef & _).
    destruct (slot_GetMsgSize (ring st) s Sh Lm (proj1 (geo_slot v G s Hq)) (Hm s Hq) Ph) as [E1 E2].
    assert (a.2 = off s) as E3 by (rewrite Ea, <- Ef; done). rewrite E3, E1 in En. injection En as <-. done. }
  apply (stay st v i b _ (if n =? kBlankSize then Idle else CasFrom (word a) (base + a.2 + n) (version a))); try done.
  - cbn [run_sender]. by rewrite En.
  - destruct (Z.eqb_spec n kBlankSize) as [|Nb]; [done|]. exists a. split_and!; try done. intros Ea.
    destruct (Hn Ea) as (s & Hs & -> & _). exists s. split; [done|]. destruct Hs as (_ & _ & Ef & _). unfold last. rewrite Ea, <- Ef. cbn. lia.
  - intros t Ht _ Sv. unfold serves in *. destruct (phase t); [naive_solver|].
    destruct Sv as [Sv|[Sv|[(Et & Ot & Sv)|Sv]]]; [naive_solver|naive_solver| |naive_solver]. destruct Sv as [(w & w' & [= Ew _ _])|Sv]; [|naive_solver].
    assert (a = F v) as Ea by (by apply (seen_inj st v i b (ReadSize (word a) (base + a.2) (version a)))). destruct (Hn Ea) as (s & _ & _ & Nb).
    rewrite (proj2 (Z.eqb_neq _ _)) by done. right; right; left. split_and!; try done. right. rewrite Ea. by eexists _, _.
Qed.

(** A complete message at the published position is the first unpublished slot. *)
Lemma ready_at_F st v z : ok st v -> (F v).2 + 8 <= size -> F v <> T v -> msg_size (ring st) (base + (F v).2) = Some z ->
  (IsReady_ z = true -> exists s q', qu v = s :: q' /\ first s = F v /\ phase s = None) /\
  (forall s, s ∈ qu v -> first s = F v -> phase s = None -> IsReady_ z = true).
Proof.
  intros O Tl N Ez. pose proof (ok_geo st v O) as G. pose proof (ok_shape st v O) as Sh. pose proof (ok_mem st v O) as Me. pose proof Me as [Lm Hm _].
  assert (forall s, s ∈ qu v -> first s = F v -> z = size_field s /\ Z.of_nat (length (msg s).2) < 2 ^ 31 - 1) as At.
  { intros s Hs Ef. apply geo_in_qu in Hs; [|done]. destruct (geo_slot v G s Hs) as (Os & _).
    pose proof (slot_msg_size (ring st) s Sh Lm Os (Hm s Hs)) as E. assert (off s = (F v).2) as E2 by (by rewrite <- Ef).
    rewrite E2, Ez in E. injection E as ->. split; [done|]. destruct Os as (_ & _ & _ & _ & _ & ?). lia. }
  split.
  - intros Rd. destruct (qu v) as [|h q'] eqn:Eq; [by apply (geo_none v G) in Eq|]. exists h, q'. split; [done|].
    assert (h ∈ h :: q') as Hh by apply list_elem_of_here. destruct (geo_head v G h q' Eq) as [Ef|(_ & El & E0 & _)].
    + split; [done|]. destruct (At h Hh Ef) as [-> L]. rewrite size_field_ready in Rd by done. by destruct (phase h).
    + exfalso. assert (first h <> F v) as Nf by (intros Ef; rewrite <- Ef in El; cbn in El; lia).
      pose proof (ge_F v G) as BF. destruct BF as (_ & ? & _).
      rewrite (blank_msg_size (ring st) (slots v)) in Ez; [by injection Ez as <-|done|done|lia|lia|by apply (geo_tail v G h q')].
  - intros s Hs Ef Ph. destruct (At s Hs Ef) as [-> L]. rewrite size_field_ready by done. by rewrite Ph.
Qed.

Lemma step_LoopReady st v i b new ver : ok st v -> fresh st -> senders st !! i = Some (mkThread (LoopReady new ver) b) ->
  new + 8 <= base + size ->
  safe_step st i b (LoopReady new ver).
Proof.
  intros O Fr Hi Tl. pose proof (ok_senders st v O i _ Hi) as (a & -> & -> & Sa & Pa & Nt). cbn [began] in Sa. pose proof (ok_geo st v O) as G.
  pose proof Sa as (Ba & _). destruct (msg_size_total (ring st) a (ok_shape st v O) (mo_len _ _ (ok_mem st v O)) Ba ltac:(lia)) as [z Ez].
  apply (stay st v i b _ (if IsReady_ z then ReadSize (word a) (base + a.2) (version a) else Idle)); try done.
  - cbn [run_sender]. by rewrite Ez.
  - destruct (IsReady_ z) eqn:Rd; [|done]. exists a. split_and!; try done; [split; [done|lia]|]. intros ->.
    destruct (ready_at_F st v z O ltac:(lia) Nt Ez) as [H _]. destruct (H Rd) as (s & q' & Eq & Ef & Ph). exists s.
    split_and!; try done; [by exists q'|]. intros E0. exfalso. rewrite <- Ef in Pa. cbn in Pa. lia.
  - intros t Ht _ Sv. unfold serves in *. destruct (phase t) eqn:Ph; [naive_solver|].
    destruct Sv as [Sv|[Sv|[Sv|(Ef & N0 & Sv)]]]; [naive_solver..|]. destruct Sv as [?|[= Ea Ev]]; [done|].
    assert (a = F v) as E by (apply (seen_inj st v i b (LoopReady (base + a.2) (version a))); try done; unfold word; by rewrite Ea, Ev). subst a.
    destruct (ready_at_F st v z O ltac:(lia) Nt Ez) as [_ H]. rewrite (H t Ht Ef Ph). right; right; left. split_and!; try done. left. by eexists _, _.
Qed.

Lemma step_CasTo_fail st v i b h c to new rw : ok st v -> senders st !! i = Some (mkThread (CasTo h c to new rw) b) ->
  sender_pace_to_ (ring st) <> to -> safe_step st i b (CasTo h c to new rw).
Proof.
  intros O Hi N. apply (stay st v i b _ Idle O Hi); try done.
  - cbn [run_sender]. unfold CASSenderPaceTo_. by rewrite (proj2 (Z.eqb_neq _ _)).
  - by destruct rw.
  - intros s _ _ Sv. by apply aloof_serves in Sv.
Qed.

Lemma step_CasFrom_fail st v i b old new ver : ok st v -> senders st !! i = Some (mkThread (CasFrom old new ver) b) ->
  sender_pace_from_ (ring st) <> old -> safe_step st i b (CasFrom old new ver).
Proof.
  intros O Hi N. apply (stay st v i b _ Idle O Hi); try done.
  - cbn [run_sender]. unfold CASSenderPaceFrom_. by rewrite (proj2 (Z.eqb_neq _ _)).
  - intros s _ _ Sv. exfalso. rewrite (ok_from st v O) in N. unfold serves in Sv. destruct (phase s); naive_solver.
Qed.

(** ** Steps of a sender that change the ring *)

Lemma ok_moved st v v' i b x y p : ok st v -> senders st !! i = Some (mkThread x b) -> geo v' -> shape p -> mem_ok (mem p) (slots v') ->
  sender_pace_to_ p = word (T v') -> sender_pace_from_ p = word (F v') -> (T v').1 = laps st + rewound x y ->
  receiver_ok (moved st i b x y p) v' -> sender_ok v' i b y ->
  (forall j t, j <> i -> senders st !! j = Some t -> sender_ok v j (began t) (pc t) -> sender_ok v' j (began t) (pc t)) ->
  (forall s, s ∈ qu v' -> due v' s -> serves v' s i y \/ exists j t, j <> i /\ senders st !! j = Some t /\ serves v' s j (pc t)) ->
  ok (moved st i b x y p) v'.
Proof.
  intros O Hi G Sh Me Et Ef El Rc Hy Oth Srv. assert (i < length (senders st))%nat as Li by (by eapply lookup_lt_Some).
  assert (0 <= rewound x y) as Rw by (destruct x as [| | |? ? ? ? []| | | | | | | |], y; cbn; lia).
  split; try done; unfold moved; cbn [senders laps].
  - intros j t Hj. apply list_lookup_insert_Some in Hj as [(<- & <- & _)|[N Hj]];
      [pose proof (ok_began st v O i _ Hi); cbn in *; lia|pose proof (ok_began st v O j _ Hj); lia].
  - intros j t Hj. apply list_lookup_insert_Some in Hj as [(<- & <- & _)|[N Hj]]; [done|]. apply Oth; [done|done|by apply O].
  - intros s Hs D. destruct (Srv s Hs D) as [Sv|(j & t & N & Hj & Sv)].
    + exists i, (mkThread y b). by rewrite list_lookup_insert_eq.
    + exists j, t. by rewrite list_lookup_insert_ne.
Qed.

(** What was served by a thread that does not move. *)
Lemma served_by st v i x b s : ok st v -> senders st !! i = Some (mkThread x b) -> s ∈ qu v -> due v s ->
  serves v s i x \/ exists j t, j <> i /\ senders st !! j = Some t /\ serves v s j (pc t).
Proof.
  intros O Hi Hs D. destruct (ok_served st v O s Hs D) as (j & t & Hj & Sv). destruct (decide (j = i)) as [->|N].
  - rewrite Hi in Hj. injection Hj as <-. by left.
  - right. by exists j, t.
Qed.

Lemma seen_mono v v' b a : ple (F v) (F v') -> seen v b a -> seen v' b a.
Proof. intros P (Ba & Hb & Pa). split_and!; [apply Ba|..|done|by apply (ple_trans _ (F v))]; apply Ba. Qed.

Lemma receiver_mono st st' v v' q extra : receiver_ok st v -> receiver st' = receiver st ->
  receiver_pace_ (ring st') = receiver_pace_ (ring st) -> got st' = got st -> sent st' = sent st ++ extra ->
  R v' = R v -> qp v' = qp v ++ q -> msg <$> slots v' = (msg <$> slots v) ++ extra -> ple (F v) (F v') ->
  (forall s, s ∈ slots v -> exists s', s' ∈ slots v' /\ first s' = first s) -> receiver_ok st' v'.
Proof.
  intros H Er Ep Eg Es ER Eq Em PF In. unfold receiver_ok in *. rewrite Er, Ep, Eg, Es, ER, Em. destruct (receiver st) as [|from| |orig to].
  - destruct H as [-> <-]. by rewrite app_assoc.
  - destruct H as (-> & <- & a & -> & P1 & P2 & P3 & Re). rewrite app_assoc. split_and!; try done. exists a. split_and!; try done.
    + by apply (ple_trans _ (F v)).
    + destruct Re as [(qa & qb & E & C)|(s & Hs & <-)]; [left|right; by apply In].
      exists qa, (qb ++ q). by rewrite Eq, ER, E, app_assoc.
  - destruct H as (-> & <- & s & q' & E & Ef). rewrite app_assoc. split_and!; try done. exists s, (q' ++ q). by rewrite Eq, E.
  - destruct H as (s & q' & E & Ef & -> & -> & Hr & <-). exists s, (q' ++ q). rewrite Eq, E. split_and!; try done.
    unfold slots in Em. rewrite Eq, E in Em. cbn in Em. injection Em as Em. fold (fmap msg (M := list)) in Em. rewrite Em. by rewrite app_assoc.
Qed.

(** *** Reserving *)

Definition new_slot (v : View) (i : nat) (m : bool * bytes) (rewind : bool) : Slot :=
  if rewind then mkSlot ((T v).1 + 1) 0 i (Some Header) (T v).2 m else mkSlot (T v).1 (T v).2 i (Some Header) 0 m.
Definition reserve_view (v : View) (i : nat) (m : bool * bytes) (rewind : bool) : View :=
  mkView (qp v) (qu v ++ [new_slot v i m rewind]) (R v) (A v) (F v) (last (new_slot v i m rewind)).

Definition room (v : View) (m : bool * bytes) (rewind : bool) : Prop :=
  if rewind then (T v).1 = (R v).1 /\ need m < (R v).2
  else (T v).2 + need m <= size /\ ((T v).1 = (R v).1 + 1 -> (T v).2 + need m < (R v).2).

Lemma new_slot_ok v i h c rw : geo v -> fits c -> room v (h, c) rw -> slot_ok (new_slot v i (h, c) rw).
Proof.
  intros G [Hc Dc] Hr. pose proof (ge_T v G) as (T1 & T2 & T3). pose proof (ge_R v G) as (_ & R2 & _).
  destruct rw; unfold room in Hr; unfold slot_ok, new_slot; cbn [lap off msg]; split_and!; try done; try lia; try apply Z.divide_0_r; unfold need; cbn; done.
Qed.

Lemma reserve_geo v i h c rw : geo v -> fits c -> room v (h, c) rw ->
  geo (reserve_view v i (h, c) rw) /\ (forall t, t ∈ slots v -> apart (new_slot v i (h, c) rw) t).
Proof.
  intros G Hc Hr. pose proof (new_slot_ok v i h c rw G Hc Hr) as Os. set (s := new_slot v i (h, c) rw) in *. pose proof (need_pos (h, c)) as Np.
  pose proof (ge_window v G) as W. pose proof (ge_T v G) as BT. pose proof (ge_R v G) as BR.
  assert (follows (T v) s) as Fo by (unfold follows, s, new_slot; destruct rw; [right; done|left; by destruct (T v)]).
  assert (window (R v) (last s)) as W'.
  { unfold room in Hr. unfold window, last, s, new_slot in *. destruct rw; cbn [lap off msg fst snd] in *; lia. }
  assert (boundary (last s)) as Bl.
  { destruct Os as (Ol & Oo & Os & Od & On & _). unfold boundary, last. cbn [fst snd]. pose proof (need_pos (msg s)).
    split_and!; try lia. by apply Z.divide_add_r. }
  split.
  - destruct G. split; unfold slots; cbn [qp qu R A F T reserve_view]; try done.
    + rewrite app_assoc. apply Forall_app. split; [done|]. by apply Forall_singleton.
    + apply chain_app. exists (T v). split; [done|]. by split.
    + destruct ge_from0 as [?|(h0 & q' & E & Ef)]; [by left|right]. exists h0, (q' ++ [s]). by rewrite E.
    + fold s. unfold last. cbn [fst snd]. destruct Os as (_ & ? & _). pose proof (need_pos (msg s)). intros. lia.
  - intros t Ht. apply apart_sym. destruct (geo_slot v G t Ht) as (_ & P1 & P2). apply (order_apart (R v) (last s)); try done; [|apply ple_refl].
    apply (ple_trans _ (T v)); [done|]. apply follows_ple; [done|apply Os].
Qed.

(** The other senders do not notice. *)
Lemma reserve_others v i m rw j b x : geo v -> ple (T v) (last (new_slot v i m rw)) -> T v <> last (new_slot v i m rw) ->
  sender_ok v j b x -> sender_ok (reserve_view v i m rw) j b x.
Proof.
  intros G Pt Nt Hx. set (s := new_slot v i m rw) in *. destruct x; cbn [sender_ok qu T F R slots reserve_view] in *; try done.
  - destruct Hx as (H1 & a & H2 & H3 & H4 & H5). split; [done|]. exists a. split_and!; try done. by apply (ple_trans _ (T v)).
  - destruct Hx as (H1 & a & H2 & H3 & H4 & H5 & H6 & H7). split; [done|]. exists a. split_and!; try done; [by apply (ple_trans _ (T v))|].
    intros ->. exfalso. by apply Nt, ple_anti.
  - destruct Hx as (t' & H1 & H2). exists t'. split; [|done]. apply elem_of_app. by left.
  - destruct Hx as (t' & H1 & H2 & H3 & H4 & H5 & H6). exists t'. unfold slots in *. cbn [qp qu reserve_view] in *. rewrite !elem_of_app in *. naive_solver.
  - destruct Hx as (t' & H1 & H2). exists t'. split; [|done]. apply elem_of_app. by left.
  - destruct Hx as (t' & q' & H1 & H2). exists t', (q' ++ [s]). by rewrite H1.
  - destruct Hx as (a & H1 & H1' & H2 & H3 & H4). exists a. split_and!; try done. intros Ea. destruct (H4 Ea) as (t' & (q' & Eq) & H5).
    exists t'. split; [|done]. exists (q' ++ [s]). cbn. by rewrite Eq.
  - destruct Hx as (a & H1 & H2 & H3 & H4). exists a. split_and!; try done. intros Ea. destruct (H4 Ea) as (t' & ((q' & Eq) & H5) & H6).
    exists t'. split; [|done]. split; [|done]. exists (q' ++ [s]). cbn. by rewrite Eq.
  - destruct Hx as (a & H1 & H2 & (H3 & H4 & H5) & H6 & H7). exists a. split_and!; try done. intros ->.
    apply Nt, ple_anti; [done|]. by apply (ple_trans _ (F v)), geo_FT.
Qed.

Lemma step_CasTo st v i b h c to new rw : ok st v -> fresh st -> senders st !! i = Some (mkThread (CasTo h c to new rw) b) ->
  safe_step st i b (CasTo h c to new rw).
Proof.
  intros O Fr Hi. destruct (Z.eq_dec (sender_pace_to_ (ring st)) to) as [E|N]; [|by apply (step_CasTo_fail st v)].
  pose proof (ok_senders st v O i _ Hi) as (Hc & a & -> & Ba & Hb & Pa & -> & Hr). cbn [began] in Hb. pose proof (ok_geo st v O) as G.
  pose proof (Fr i _ Hi ltac:(done)) as Hf. cbn [began] in Hf. pose proof (ok_laps st v O) as El.
  assert (a = T v) as -> by (symmetry in E; rewrite (ok_to st v O) in E; apply word_inj; try done; [apply G|lia]).
  specialize (Hr eq_refl). destruct (reserve_geo v i h c rw G Hc Hr) as [G' Ap]. set (s := new_slot v i (h, c) rw) in *.
  pose proof (new_slot_ok v i h c rw G Hc Hr) as Os. fold s in Os. pose proof (ok_shape st v O) as Sh. pose proof Sh as [Eb Es Em].
  assert (word (last s) = next_pace (word (T v)) (base + (if rw then 0 else (T v).2) + need (h, c)) rw) as Ew.
  { unfold next_pace. rewrite word_version by apply G. unfold word, last, s, new_slot. destruct rw; cbn [lap off msg fst snd].
    - rewrite Zplus_mod_idemp_l. f_equal. lia.
    - f_equal. lia. }
  assert (ple (T v) (last s) /\ T v <> last s) as [Pt Nt].
  { unfold ple, last, s, new_slot. pose proof (need_pos (h, c)). destruct rw; cbn [lap off msg fst snd];
      (split; [lia|destruct (T v); cbn; intros [=]; lia]). }
  eexists _, _, (reserve_view v i (h, c) rw). split.
  { cbn [run_sender]. unfold CASSenderPaceTo_. rewrite E, Z.eqb_refl. rewrite word_ptr by apply G. reflexivity. }
  cbn [pipe_ with_to]. rewrite Eb. eapply (ok_moved st v); try done.
  - unfold slots. cbn [qp qu reserve_view]. rewrite app_assoc. apply mem_append; [apply O|done| |done]. unfold s, new_slot. by destruct rw.
  - apply (ok_from st v O).
  - cbn [T reserve_view]. rewrite <- El. unfold s, new_slot. destruct rw; cbn; lia.
  - apply (receiver_mono st _ v _ [] [(h, c)] (ok_receiver st v O)); try done; [by rewrite app_nil_r| |apply ple_refl|].
    + unfold slots. cbn [qp qu reserve_view]. rewrite app_assoc, (fmap_app _ (qp v ++ qu v)). unfold new_slot. by destruct rw.
    + intros t Ht. exists t. split; [|done]. unfold slots in *. cbn [qp qu reserve_view]. rewrite !elem_of_app in *. tauto.
  - cbn [sender_ok qu reserve_view]. exists s. split_and!; try (unfold s, new_slot; by destruct rw).
    + apply elem_of_app. right. apply list_elem_of_here.
    + unfold s, new_slot. destruct rw; cbn; lia.
    + unfold rewinds, s, new_slot. destruct rw; cbn [off lap prev]; [by left|]. intros E0. right. by apply (ge_T0 v G).
  - intros j t _ _ Hx. by apply reserve_others.
  - cbn [qu reserve_view]. intros t Ht D. apply elem_of_app in Ht as [Ht|Ht%list_elem_of_singleton].
    + destruct (served_by st v i _ b t O Hi Ht D) as [Sv|Sv]; [by apply aloof_serves in Sv|by right].
    + left. subst t. unfold serves, s, new_slot. destruct rw; cbn [phase owner off msg fst snd]; (split; [done|eexists; f_equal; lia]).
Qed.

(** *** Writing *)

Definition put_view (v : View) (q1 : list Slot) (s : Slot) (q2 : list Slot) : View := mkView (qp v) (q1 ++ s :: q2) (R v) (A v) (F v) (T v).

Lemma chain_replace a q1 s s' q2 b : first s' = first s -> last s' = last s -> prev s' = prev s ->
  chain a (q1 ++ s :: q2) b -> chain a (q1 ++ s' :: q2) b.
Proof.
  intros Ef El Ep C. apply chain_app in C as (m & C1 & C2). apply chain_app. exists m. split; [done|]. destruct C2 as [Fo C2]. split; [|by rewrite El].
  unfold follows in *. unfold first in *. rewrite Ep. injection Ef as -> ->. done.
Qed.

Lemma put_geo v q1 s q2 ph : geo v -> qu v = q1 ++ s :: q2 -> geo (put_view v q1 (with_phase s ph) q2).
Proof.
  intros [] E. split; unfold slots; cbn [qp qu R A F T put_view]; try done.
  - unfold slots in ge_slots0. rewrite E in ge_slots0. rewrite !Forall_app, !list.Forall_cons in *. done.
  - rewrite E in ge_res0. by apply (chain_replace _ q1 s).
  - rewrite E in ge_from0. destruct ge_from0 as [?|(t & q' & Eq & Ef)]; [by left|right]. destruct q1 as [|t' q1].
    + injection Eq as <- <-. by exists (with_phase s ph), q2.
    + injection Eq as <- <-. by exists t', (q1 ++ with_phase s ph :: q2).
Qed.

(** Other slots stay where they are. *)
Lemma put_in q1 (s s' : Slot) q2 t : t ∈ q1 ++ s :: q2 -> t <> s -> t ∈ q1 ++ s' :: q2.
Proof. rewrite !elem_of_app, !elem_of_cons. tauto. Qed.
Lemma put_head q1 (s s' : Slot) q2 t q' : q1 ++ s :: q2 = t :: q' -> t <> s -> exists q'', q1 ++ s' :: q2 = t :: q''.
Proof. destruct q1 as [|t' q1]; intros [= <- <-] N; [done|]. by eexists. Qed.

Lemma put_others v q1 s q2 ph ph' j b x : qu v = q1 ++ s :: q2 -> phase s = Some ph -> owner s <> j ->
  sender_ok v j b x -> sender_ok (put_view v q1 (with_phase s ph') q2) j b x.
Proof.
  intros E Ph N Hx. assert (forall t, owner t = j -> t <> s) as No by (intros t <- ->; done).
  assert (forall t, phase t = None -> t <> s) as Np by (intros t H ->; congruence).
  destruct x; cbn [sender_ok qu T F R put_view] in *; try done.
  - destruct Hx as (t & H1 & H2 & H3). exists t. rewrite E in H1. split; [|done]. apply (put_in q1 s); [done|by apply No].
  - destruct Hx as (t & H1 & H2 & H3 & H4 & H5 & H6). exists t. unfold slots in *. cbn [qp qu put_view]. rewrite E in *. split_and!; try done.
    + rewrite elem_of_app in *. destruct H1 as [?|H1]; [by left|right]. apply (put_in q1 s); [done|by apply No].
    + intros E0. apply (put_in q1 s); [by apply H6|by apply No].
  - destruct Hx as (t & H1 & H2 & H3). exists t. rewrite E in H1. split; [|done]. apply (put_in q1 s); [done|by apply No].
  - destruct Hx as (t & q' & H1 & H2 & H3). rewrite E in H1. destruct (put_head q1 s (with_phase s ph') q2 t q' H1 (No t H2)) as [q'' Eq]. by exists t, q''.
  - destruct Hx as (a & H1 & H1' & H2 & H3 & H4). exists a. split_and!; try done. intros Ea. destruct (H4 Ea) as (t & (q' & Eq) & H5 & H6).
    rewrite E in Eq. exists t. split; [|done]. apply (put_head q1 s _ q2 t q' Eq (Np t H5)).
  - destruct Hx as (a & H1 & H2 & H3 & H4). exists a. split_and!; try done. intros Ea. destruct (H4 Ea) as (t & ((q' & Eq) & H5 & H6) & H7).
    rewrite E in Eq. exists t. split; [|done]. split; [|done]. apply (put_head q1 s _ q2 t q' Eq (Np t H5)).
Qed.

Lemma after_ok v q1 s q2 ph h c pos : phase s = Some ph -> msg s = (h, c) -> rewinds s pos ->
  sender_ok (put_view v q1 (with_phase s (next ph)) q2) (owner s) 0 (after ph h c (base + off s) pos).
Proof.
  intros Ph Em Rw. assert (forall s', s' ∈ q1 ++ s' :: q2) as In by (intros; apply elem_of_app; right; apply list_elem_of_here).
  destruct ph; cbn [after sender_ok next].
  1-3: (eexists; split; [apply In|]; split_and!; done).
  eexists. split; [apply elem_of_app; right; apply In|]. split_and!; done.
Qed.

Lemma after_serves v s ph h c pos : msg s = (h, c) -> serves v (with_phase s (next ph)) (owner s) (after ph h c (base + off s) pos).
Proof. intros Em. unfold serves. destruct ph; cbn [next phase with_phase after owner msg off]; rewrite ?Em; [..|left]; (split; [done|by eexists]). Qed.

Lemma step_Put st v i b ph h c m pos : ok st v -> senders st !! i = Some (mkThread (Put ph h c m pos) b) -> safe_step st i b (Put ph h c m pos).
Proof.
  intros O Hi. pose proof (ok_senders st v O i _ Hi) as (s & Hs & <- & Ph & Em & -> & Rw). pose proof (ok_geo st v O) as G.
  pose proof Hs as Hq. apply list_elem_of_split in Hq as (q1 & q2 & Eq). pose proof (geo_in_qu v G s Hs) as Hs'. destruct (geo_slot v G s Hs') as (Os & _).
  pose proof (ok_shape st v O) as Sh. pose proof (ok_mem st v O) as Me. set (s' := with_phase s (next ph)).
  assert (slots v = (qp v ++ q1) ++ s :: q2) as Esl by (unfold slots; by rewrite Eq, app_assoc).
  assert (forall t, t ∈ (qp v ++ q1) ++ q2 -> apart s t) as Ap.
  { intros t. apply (chain_apart (R v) _ s _ t (T v)); [apply G|rewrite <- Esl; apply G|rewrite <- Esl; apply (geo_chain v G)]. }
  assert (forall t, t ∈ q1 \/ t ∈ q2 -> t <> s) as Ne.
  { intros t Ht ->. assert (apart s s) as Z by (apply Ap; rewrite !elem_of_app; tauto). unfold apart in Z. pose proof (need_pos (msg s)). lia. }
  eexists _, _, (put_view v q1 s' q2). split.
  { cbn [run_sender]. rewrite (put_image (ring st) ph s h c Sh (mo_len _ _ Me) Os (mo_slot _ _ Me s Hs') Ph Em). reflexivity. }
  assert (reserved (Put ph h c (base + off s) pos) (after ph h c (base + off s) pos) = []) as Er by done.
  eapply (ok_moved st v); try done.
  - by apply put_geo.
  - destruct Sh. by split.
  - unfold slots. cbn [qp qu put_view]. rewrite app_assoc. apply mem_replace; [by rewrite <- Esl|done|rewrite <- Esl; apply G|done|done].
  - apply (ok_to st v O).
  - apply (ok_from st v O).
  - cbn [rewound T put_view]. rewrite (ok_laps st v O). lia.
  - apply (receiver_mono st _ v _ [] [] (ok_receiver st v O)); try done; [by rewrite app_nil_r| |apply ple_refl|].
    + unfold slots. cbn [qp qu put_view]. rewrite Eq, app_nil_r, !fmap_app, !fmap_cons. done.
    + intros t Ht. destruct (decide (off t = off s)) as [Et|Nt].
      * rewrite (geo_same v G t s Ht Hs' Et). exists s'. split; [|done]. unfold slots. cbn [qp qu put_view]. rewrite !elem_of_app, elem_of_cons. tauto.
      * exists t. split; [|done]. rewrite Esl in Ht. unfold slots. cbn [qp qu put_view]. rewrite app_assoc. apply (put_in _ s); [done|]. by intros ->.
  - pose proof (after_ok v q1 s q2 ph h c pos Ph Em Rw) as Ha. by destruct ph.
  - intros j t N _ Hx. by apply (put_others v q1 s q2 ph).
  - cbn [qu put_view]. intros t Ht D. rewrite elem_of_app, elem_of_cons in Ht. assert (t = s' \/ (t ∈ q1 \/ t ∈ q2)) as [->|Ht'] by tauto.
    + left. by apply after_serves.
    + assert (t ∈ qu v) as Hq by (rewrite Eq, elem_of_app, elem_of_cons; tauto).
      destruct (served_by st v _ _ b t O Hi Hq D) as [Sv|Sv]; [exfalso|by right]. apply (Ne t Ht').
      apply (geo_same v G); [by apply geo_in_qu|done|]. unfold serves in Sv. destruct (phase t) as [ph2|]; [|naive_solver].
      destruct Sv as (_ & pos2 & [=]). lia.
Qed.

(** *** Publishing *)

Definition store_view (v : View) (a : Pos) : View := mkView (qp v) (qu v) (R v) (A v) a (T v).

Lemma store_geo v s q' : geo v -> qu v = s :: q' -> geo (store_view v (first s)).
Proof.
  intros G E. assert (s ∈ slots v) as Hs by (apply geo_in_qu; [done|]; rewrite E; apply list_elem_of_here).
  destruct (geo_slot v G s Hs) as ((Ol & Oo & Os & Od & On & _) & _). pose proof (need_pos (msg s)).
  destruct G. split; cbn [slots qp qu R A F T store_view]; try done.
  - right. by exists s, q'.
  - unfold boundary, first. cbn [fst snd]. split_and!; try lia. done.
Qed.

(** A sender that waits or publishes is the only one: the others have read an
    older position. *)
Lemma seen_older v v' b a : seen v b a -> ple (F v) (F v') -> F v <> F v' -> a <> F v'.
Proof. intros (_ & _ & P) PF N ->. by apply N, ple_anti. Qed.

Lemma store_others v i s q' j b x : geo v -> qu v = s :: q' -> owner s = i -> off s = 0 -> lap s = (F v).1 + 1 -> j <> i ->
  sender_ok v j b x -> sender_ok (store_view v (first s)) j b x.
Proof.
  intros G E Ow E0 El N Hx. assert (s ∈ slots v) as Hs by (apply geo_in_qu; [done|]; rewrite E; apply list_elem_of_here).
  assert (ple (F v) (first s)) as PF by (unfold ple, first; cbn; lia).
  assert (F v <> first s) as NF by (intros Ef; rewrite Ef in El; cbn in El; lia).
  assert (forall t, t ∈ qu v -> owner t = j -> off t = 0 -> False) as No.
  { intros t Ht Ot Et. apply N. rewrite <- Ot, <- Ow. f_equal. apply (geo_same v G); [by apply geo_in_qu|done|lia]. }
  destruct x; cbn [sender_ok qu T F R store_view] in *; try done.
  - destruct Hx as (t & H1 & H2 & H3 & H4 & _). by destruct (No t H1 H2 H4).
  - destruct Hx as (t & q2 & H1 & H2 & H3 & H4 & _). destruct (No t); try done. rewrite H1. apply list_elem_of_here.
  - destruct Hx as (a & H1 & H1' & H2 & H3 & H4). exists a. split_and!; try done; [by apply (seen_mono v)|]. intros Ea. by apply (seen_older v (store_view v (first s)) b a H3) in Ea.
  - destruct Hx as (a & H1 & H2 & H3 & H4). exists a. split_and!; try done; [by apply (seen_mono v)|]. intros Ea. by apply (seen_older v (store_view v (first s)) b a H3) in Ea.
  - destruct Hx as (a & H1 & H2 & H3 & H4). exists a. split_and!; try done. by apply (seen_mono v).
  - destruct Hx as (a & H1 & H2 & H3 & H4 & H5). exists a. split_and!; try done. by apply (seen_mono v).
Qed.

Lemma step_StoreFrom st v i b ver : ok st v -> senders st !! i = Some (mkThread (StoreFrom ver) b) -> safe_step st i b (StoreFrom ver).
Proof.
  intros O Hi. pose proof (ok_senders st v O i _ Hi) as (s & q' & Eq & Ow & Ph & E0 & El & ->). pose proof (ok_geo st v O) as G.
  pose proof (ok_began st v O i _ Hi) as Hb. cbn [began] in Hb. rewrite <- (ok_laps st v O) in Hb. pose proof (geo_laps v G) as L.
  assert (s ∈ qu v) as Hs by (rewrite Eq; apply list_elem_of_here). pose proof (geo_in_qu v G s Hs) as Hs'.
  pose proof (store_geo v s q' G Eq) as G'. pose proof (ok_shape st v O) as Sh.
  assert (EncodeSenderPace_ (pipe_ (ring st)) (lap s mod kNumVersions) = word (first s)) as Ew.
  { unfold word, first. cbn [fst snd]. by rewrite E0, Z.add_0_r, (sh_base _ Sh). }
  eexists _, _, (store_view v (first s)). split; [reflexivity|]. rewrite Ew. eapply (ok_moved st v); try done.
  - destruct Sh. by split.
  - apply O.
  - apply O.
  - cbn [rewound T store_view]. rewrite (ok_laps st v O). lia.
  - apply (receiver_mono st _ v _ [] [] (ok_receiver st v O)); try done; [by rewrite app_nil_r|by rewrite app_nil_r|unfold ple; cbn; lia|by eauto].
  - exists (first s). split_and!; try done.
    + split; [done|]. destruct (geo_slot v G s Hs') as ((_ & _ & Os & _) & _). pose proof (need_pos (msg s)). unfold first, need in *. cbn [snd]. lia.
    + rewrite (sh_base _ Sh). unfold first. cbn [snd]. lia.
    + split_and!; [apply G'|cbn; lia|apply ple_refl].
    + intros _. exists s. split; [by exists q'|done].
  - intros j t N _ Hx. by apply (store_others v i s q').
  - cbn [qu store_view]. intros t Ht D. destruct (decide (off t = 0)) as [Et|Nt].
    + rewrite (geo_same v G t s (geo_in_qu v G t Ht) Hs' ltac:(lia)). left. unfold serves. rewrite Ph. right; right; left. split_and!; try done. left. by eexists _, _.
    + assert (phase t <> None) as Np.
      { destruct D as [D|[D|D]]; [done|done|]. exfalso. cbn in D. assert (off t = off s) by (unfold first in D; congruence). lia. }
      destruct (served_by st v i _ b t O Hi Ht (or_introl Np)) as [Sv|(j & u & N & Hj & Sv)]; unfold serves in *; destruct (phase t); try done; [naive_solver|].
      right. by exists j, u.
Qed.

Definition publish_view (v : View) (s : Slot) (q' : list Slot) : View := mkView (qp v ++ [s]) q' (R v) (last s) (last s) (T v).

Lemma publish_slots v s q' : qu v = s :: q' -> slots (publish_view v s q') = slots v.
Proof. intros E. unfold slots. cbn [qp qu publish_view]. by rewrite E, <- app_assoc. Qed.

Lemma publish_geo v s q' : geo v -> qu v = s :: q' -> phase s = None -> geo (publish_view v s q').
Proof.
  intros G E Ph. assert (s ∈ slots v) as Hs by (apply geo_in_qu; [done|]; rewrite E; apply list_elem_of_here).
  destruct (geo_slot v G s Hs) as ((Ol & Oo & Os & Od & On & _) & _). pose proof (need_pos (msg s)).
  destruct G. split; try (rewrite publish_slots by done); cbn [qp qu R A F T publish_view]; try done.
  - apply chain_app. exists (A v). split; [done|]. rewrite E in ge_res0. split; [apply ge_res0|done].
  - rewrite E in ge_res0. apply ge_res0.
  - by left.
  - apply Forall_app. split; [done|]. by apply Forall_singleton.
  - unfold boundary, last. cbn [fst snd]. split_and!; try lia. by apply Z.divide_add_r.
Qed.

Lemma publish_others v i s q' j b x : geo v -> head_ready v i s -> qu v = s :: q' -> j <> i ->
  sender_ok v j b x -> sender_ok (publish_view v s q') j b x.
Proof.
  intros G (_ & Ph & Ef & Ho) E N Hx. pose proof (need_pos (msg s)) as Np.
  assert (ple (F v) (last s)) as PF by (rewrite <- Ef; apply last_ple).
  assert (F v <> last s) as NF by (rewrite <- Ef; unfold first, last; intros [=]; lia).
  assert (forall t, t ∈ qu v -> t <> s -> t ∈ q') as In by (intros t; rewrite E, elem_of_cons; tauto).
  assert (lap s = (F v).1) as El by (rewrite <- Ef; done).
  destruct x; cbn [sender_ok qu T F R publish_view] in *; try done; rewrite ?(publish_slots v s q' E).
  - destruct Hx as (t & H1 & H2 & H3 & H4). exists t. split; [|done]. apply In; [done|]. intros ->. congruence.
  - destruct Hx as (t & H1 & H2 & H3 & H4 & H5 & H6). exists t. split_and!; try done. intros E0. apply In; [by apply H6|].
    intros ->. apply N. rewrite <- H2. by apply Ho.
  - destruct Hx as (t & H1 & H2 & H3 & H4 & H5 & H6 & H7). exists t. assert (t <> s) by (intros ->; lia). cbn [last fst]. rewrite El.
    split_and!; try done. by apply In.
  - destruct Hx as (t & q2 & H1 & H2 & H3 & H4 & H5 & _). rewrite E in H1. injection H1 as <- <-. lia.
  - destruct Hx as (a & H1 & H1' & H2 & H3 & H4). exists a. split_and!; try done; [by apply (seen_mono v)|]. intros Ea. by apply (seen_older v (publish_view v s q') b a H3) in Ea.
  - destruct Hx as (a & H1 & H2 & H3 & H4). exists a. split_and!; try done; [by apply (seen_mono v)|]. intros Ea. by apply (seen_older v (publish_view v s q') b a H3) in Ea.
  - destruct Hx as (a & H1 & H2 & H3 & H4). exists a. split_and!; try done. by apply (seen_mono v).
  - destruct Hx as (a & H1 & H2 & H3 & H4 & H5). exists a. split_and!; try done. by apply (seen_mono v).
Qed.

Lemma publish_served st v i s q' b old new ver t : ok st v -> senders st !! i = Some (mkThread (CasFrom old new ver) b) ->
  head_ready v i s -> qu v = s :: q' -> t ∈ q' -> due (publish_view v s q') t ->
  serves (publish_view v s q') t i (LoopTo (base + (last s).2) (version (last s))) \/
  exists j u, j <> i /\ senders st !! j = Some u /\ serves (publish_view v s q') t j (pc u).
Proof.
  intros O Hi Hr E Ht D. pose proof (ok_geo st v O) as G. destruct Hr as (_ & Ph & Ef & Ho). assert (t ∈ qu v) as Hq by (rewrite E; by apply list_elem_of_further).
  assert (first t <> F v) as Nt.
  { intros Et. destruct (geo_at_F v G t Hq Et) as [q2 Eq]. rewrite E in Eq. injection Eq as -> ->.
    assert (apart t t) as Z; [|unfold apart in Z; pose proof (need_pos (msg t)); lia].
    assert (slots v = qp v ++ t :: q2) as Esl by (unfold slots; by rewrite E).
    apply (chain_apart (R v) (qp v) t q2 t (T v)); [apply G|rewrite <- Esl; apply G|rewrite <- Esl; by apply geo_chain|apply elem_of_app; by right]. }
  destruct (phase t) as [ph|] eqn:Pt.
  - destruct (served_by st v i _ b t O Hi Hq ltac:(left; congruence)) as [Sv|(j & u & N & Hj & Sv)]; unfold serves in *; rewrite Pt in *; [naive_solver|].
    right. by exists j, u.
  - destruct (decide (off t = 0)) as [E0|N0].
    + destruct (served_by st v i _ b t O Hi Hq ltac:(right; by left)) as [Sv|(j & u & N & Hj & Sv)]; unfold serves in Sv; rewrite Pt in Sv; [naive_solver|].
      right. exists j, u. split_and!; try done. unfold serves. rewrite Pt. destruct Sv as [Sv|[Sv|[(Sv & _)|(Sv & _)]]]; [by left|by right; left|done|done].
    + left. unfold serves. rewrite Pt. destruct D as [D|[D|D]]; [done|done|]. right; right; right. split_and!; try done. by left.
Qed.

Lemma step_CasFrom st v i b old new ver : ok st v -> fresh st -> senders st !! i = Some (mkThread (CasFrom old new ver) b) ->
  safe_step st i b (CasFrom old new ver).
Proof.
  intros O Fr Hi. destruct (Z.eq_dec (sender_pace_from_ (ring st)) old) as [E|N]; [|by apply (step_CasFrom_fail st v)].
  pose proof (ok_senders st v O i _ Hi) as (a & -> & -> & Sa & Hd). cbn [began] in Sa. pose proof (ok_geo st v O) as G.
  assert (a = F v) as -> by (apply (seen_inj st v i b _ a O Fr Hi); [done|done|by rewrite <- E, (ok_from st v O)]).
  destruct (Hd eq_refl) as (s & Hr & ->). pose proof Hr as ((q' & Eq) & Ph & Ef & Ho). destruct Sa as (Ba & Hb & _).
  pose proof (publish_geo v s q' G Eq Ph) as G'. pose proof (ok_shape st v O) as Sh. pose proof (need_pos (msg s)) as Np.
  assert (version (last s) = version (F v)) as Ev by (by rewrite <- Ef).
  assert (next_pace (word (F v)) (base + (last s).2) false = word (last s)) as Ew.
  { unfold next_pace. rewrite word_version by done. unfold word. by rewrite Ev. }
  assert (s ∈ slots v) as Hs by (apply geo_in_qu; [done|]; rewrite Eq; apply list_elem_of_here). destruct (geo_slot v G s Hs) as ((_ & Oo & _) & _).
  eexists _, _, (publish_view v s q'). split.
  { cbn [run_sender]. unfold CASSenderPaceFrom_. rewrite E, Z.eqb_refl, Ew. reflexivity. }
  replace (LoopTo (base + (last s).2) (version (F v))) with (LoopTo (base + (last s).2) (version (last s))) by (by rewrite Ev).
  eapply (ok_moved st v); try done.
  - destruct Sh. by split.
  - rewrite publish_slots by done. apply O.
  - apply O.
  - cbn [rewound T publish_view]. rewrite (ok_laps st v O). lia.
  - apply (receiver_mono st _ v _ [s] [] (ok_receiver st v O)); try done; [rewrite publish_slots by done; by rewrite app_nil_r| |].
    + cbn [F publish_view]. rewrite <- Ef. apply last_ple.
    + intros t Ht. exists t. by rewrite publish_slots.
  - exists (last s). split_and!; try done; [|cbn; lia]. split_and!; [apply G'|rewrite <- Ef in Hb; exact Hb|apply ple_refl].
  - intros j t N _ Hx. by apply (publish_others v i s q').
  - intros t Ht D. by apply (publish_served st v i s q' b (word (F v)) (base + (last s).2) (version (F v))).
Qed.

(** ** Steps of the receiver *)

Definition received (st : State) (y : Receiver) (p : MPSCFixedPipe) (ms : list (bool * bytes)) : State :=
  mkState p (senders st) y (sent st) (got st ++ ms) (laps st).
Definition safe_receive (st : State) : Prop :=
  exists y p ms v, run_receiver (ring st) (receiver st) = Some (y, p, ms) /\ ok (received st y p ms) v.

Lemma receive_Idle st v : ok st v -> receiver st = RIdle -> safe_receive st.
Proof.
  intros O E. pose proof (ok_geo st v O) as G. pose proof (ok_receiver st v O) as Rc. unfold receiver_ok in Rc. rewrite E in Rc. destruct Rc as [Rp Rs].
  exists (RFrom (base + (F v).2)), (ring st), [], v. split.
  { rewrite E. cbn [run_receiver]. unfold DecodeSenderPaceFromPtr_. by rewrite (ok_from st v O), word_ptr by apply G. }
  destruct O. split; try done. unfold receiver_ok. cbn [receiver received ring got sent]. rewrite app_nil_r. split_and!; try done.
  exists (F v). split_and!; try done; [by apply geo_RF|apply ple_refl|apply (ge_F v G)|].
  destruct (ge_from v G) as [EF|(s & q' & Eq & Ef)].
  - left. exists (qp v), []. rewrite app_nil_r, EF. split; [done|apply G].
  - right. exists s. split; [|done]. apply geo_in_qu; [done|]. rewrite Eq. apply list_elem_of_here.
Qed.

Lemma receive_Have st v : ok st v -> receiver st = RHave -> safe_receive st.
Proof.
  intros O E. pose proof (ok_geo st v O) as G. pose proof (ok_receiver st v O) as Rc. unfold receiver_ok in Rc. rewrite E in Rc.
  destruct Rc as (Rp & Rs & s & q' & Eq & Ef). assert (s ∈ qp v) as Hq by (rewrite Eq; apply list_elem_of_here).
  pose proof (geo_in_qp v G s Hq) as Hs. destruct (geo_slot v G s Hs) as (Os & _). pose proof (ok_shape st v O) as Sh. pose proof (ok_mem st v O) as [Lm Hm _].
  assert (phase s = None) as Ph by (pose proof (ge_done v G) as D; rewrite list.Forall_forall in D; by apply D).
  assert (receiver_pace_ (ring st) = base + off s) as Er by (rewrite Rp, <- Ef; done).
  destruct (slot_GetMsgSize (ring st) s Sh Lm Os (Hm s Hs) Ph) as [Eg _].
  exists (RBlank (base + off s) (base + off s + need (msg s))), (with_receiver (ring st) (base + off s + need (msg s))), [msg s], v. split.
  { rewrite E. cbn [run_receiver]. rewrite Er, (slot_message (ring st) s Sh Lm Os (Hm s Hs) Ph), Eg. done. }
  destruct O. split; try done.
  - destruct Sh. by split.
  - unfold receiver_ok. cbn [receiver received ring got sent receiver_pace_ with_receiver]. exists s, q'. unfold last. cbn [snd]. split_and!; try done; try lia.
    unfold slots in Rs. rewrite Eq in Rs. cbn [app] in Rs. rewrite fmap_cons in Rs. by rewrite <- app_assoc.
Qed.

(** What the senders know does not depend on the receiver, except for the room
    a reservation counts on. *)
Lemma receiver_moves v v' j b x : qu v' = qu v -> F v' = F v -> T v' = T v ->
  (forall t, t ∈ slots v -> (forall pos, x <> ReadFrom (base + off t) pos) \/ t ∈ slots v') ->
  (forall m rw, room v m rw -> room v' m rw) -> sender_ok v j b x -> sender_ok v' j b x.
Proof.
  intros Eq EF ET In Rm Hx.
  destruct x; unfold sender_ok, seen, head_ready in *; rewrite ?Eq, ?EF, ?ET in *; try done.
  - destruct Hx as (H1 & a & H2 & H3 & H4 & H5 & H6 & H7). split; [done|]. exists a. split_and!; try done. intros Ea.
    specialize (Rm (h, c) rewind). unfold room in Rm. rewrite ET in Rm. by apply Rm, H7.
  - destruct Hx as (t & H1 & H2 & H3 & H4 & H5). exists t. split; [|done]. destruct (In t H1) as [N|?]; [|done].
    by destruct (N pos); rewrite H4.
Qed.

Lemma served_same v v' s i x : F v' = F v -> serves v s i x -> serves v' s i x.
Proof. unfold serves. by intros ->. Qed.

Lemma ok_received st v v' y p ms : ok st v -> geo v' -> shape p -> mem_ok (mem p) (slots v') -> sender_pace_to_ p = sender_pace_to_ (ring st) ->
  sender_pace_from_ p = sender_pace_from_ (ring st) -> qu v' = qu v -> F v' = F v -> T v' = T v ->
  (forall m rw, room v m rw -> room v' m rw) ->
  (forall j t s, senders st !! j = Some t -> s ∈ slots v -> (forall pos, pc t <> ReadFrom (base + off s) pos) \/ s ∈ slots v') ->
  receiver_ok (received st y p ms) v' -> ok (received st y p ms) v'.
Proof.
  intros O G Sh Me Et Ef Eq EF ET Rm In Rc. split; try done; cbn [ring senders laps received].
  - rewrite Et, ET. apply O.
  - rewrite Ef, EF. apply O.
  - rewrite ET. apply O.
  - apply O.
  - intros j t Hj. apply (receiver_moves v v'); try done; [|by apply (ok_senders st v O)]. intros s Hs. by apply (In j).
  - intros s Hs D. rewrite Eq in Hs. unfold due in D. rewrite EF in D. destruct (ok_served st v O s Hs D) as (i & t & Hi & Sv).
    exists i, t. split; [done|]. by apply (served_same v).
Qed.

(** *** The message is blanked *)

Definition consume_view (v : View) (s : Slot) (q' : list Slot) : View := mkView q' (qu v) (last s) (A v) (F v) (T v).

Lemma consume_geo v s q' : geo v -> qp v = s :: q' -> first s = R v -> geo (consume_view v s q').
Proof.
  intros G E Ef. assert (s ∈ slots v) as Hs by (apply geo_in_qp; [done|]; rewrite E; apply list_elem_of_here).
  destruct (geo_slot v G s Hs) as ((Ol & Oo & Os & Od & On & _) & _). pose proof (need_pos (msg s)).
  destruct G. unfold slots in *. rewrite E in *. cbn [app] in ge_slots0. split; unfold slots; cbn [qp qu R A F T consume_view]; try done.
  - by apply list.Forall_cons in ge_slots0 as [_ ?].
  - apply ge_pub0.
  - rewrite <- Ef in ge_window0. unfold window, first, last in *. cbn [fst snd] in *. lia.
  - by apply list.Forall_cons in ge_done0 as [_ ?].
  - unfold boundary, last. cbn [fst snd]. split_and!; try lia. by apply Z.divide_add_r.
Qed.

Lemma receive_Blank st v orig to : ok st v -> receiver st = RBlank orig to ->
  (forall i t pos, senders st !! i = Some t -> pc t <> ReadFrom orig pos) -> safe_receive st.
Proof.
  intros O E Calm. pose proof (ok_geo st v O) as G. pose proof (ok_receiver st v O) as Rc. unfold receiver_ok in Rc. rewrite E in Rc.
  destruct Rc as (s & q' & Eq & Ef & -> & -> & Rp & Rs). assert (s ∈ qp v) as Hq by (rewrite Eq; apply list_elem_of_here).
  pose proof (geo_in_qp v G s Hq) as Hs. destruct (geo_slot v G s Hs) as ((Ol & Oo & Os & _) & _). pose proof (ok_shape st v O) as Sh. pose proof (ok_mem st v O) as Me.
  pose proof (consume_geo v s q' G Eq Ef) as G'. assert (slots v = s :: (q' ++ qu v)) as Esl by (unfold slots; by rewrite Eq).
  assert (forall t, t ∈ q' ++ qu v -> apart s t) as Ap.
  { intros t Ht. apply (chain_apart (R v) [] s (q' ++ qu v) t (T v)); [apply G|rewrite <- Esl; apply G|cbn [app]; rewrite <- Esl; by apply geo_chain|done]. }
  eexists RIdle, _, [], (consume_view v s q'). split.
  { rewrite E. cbn [run_receiver]. unfold SetBlank_. replace (Z.to_nat _) with (8 + length (msg s).2)%nat by (unfold last, need; cbn; lia).
    rewrite (write_image (ring st) (off s) (image s) (blank (8 + length (msg s).2)) Sh (mo_len _ _ Me)); [reflexivity|lia|lia| |].
    - rewrite image_length. unfold need in Os. lia.
    - by rewrite image_length, blank_length. }
  eapply (ok_received st v); try done.
  - destruct Sh. by split.
  - unfold slots. cbn [qp qu consume_view mem with_mem]. apply mem_consume; [by rewrite <- Esl|done|rewrite <- Esl; apply G].
  - intros m rw. unfold room. cbn [T R consume_view]. rewrite <- Ef. unfold first, last. cbn [fst snd]. pose proof (need_pos (msg s)). destruct rw; lia.
  - intros j t u Hj Hu. rewrite Esl in Hu. apply elem_of_cons in Hu as [->|Hu]; [left; intros pos; by apply (Calm j)|by right].
  - unfold receiver_ok, slots. cbn [receiver received ring got sent receiver_pace_ with_mem qp qu R consume_view]. rewrite app_nil_r. done.
Qed.

(** *** Looking for a message *)

Lemma slots_head v h q : geo v -> slots v = h :: q -> first h = R v \/ (lap h = (R v).1 + 1 /\ off h = 0).
Proof. intros G E. pose proof (geo_chain v G) as C. rewrite E in C. destruct C as [[Ef|(E1 & E2 & _)] _]; [by left|by right]. Qed.

Lemma qp_head v h q : geo v -> slots v = h :: q -> ~ ple (F v) (first h) -> exists q', qp v = h :: q'.
Proof.
  intros G E N. unfold slots in E. destruct (qp v) as [|h' q'] eqn:Eq; [|injection E as <- <-; by exists q'].
  exfalso. apply N, geo_unpublished; [done|]. cbn in E. rewrite E. apply list_elem_of_here.
Qed.

(** The published position is ahead of the receiver in the same lap. *)
Lemma todo_ahead v a : geo v -> reached v a -> ple (R v) a -> ple a (F v) -> (R v).2 < a.2 -> exists s q', qp v = s :: q' /\ first s = R v.
Proof.
  intros G Re P1 P2 Lt. pose proof (ge_window v G) as W. pose proof (geo_FT v G) as FT. pose proof (geo_RF v G) as RF.
  assert (a.1 = (R v).1) as Ea by (unfold ple, window in *; lia). destruct Re as [(qa & qb & E & C)|(s & Hs & Es)].
  - destruct qa as [|s qa]; [cbn in C; subst a; lia|]. exists s, (qa ++ qb). split; [done|]. cbn in C. destruct C as [[Ef|(E1 & E2 & _)] C]; [done|exfalso].
    pose proof (geo_pub_ok v G) as O. rewrite E in O. apply Forall_app in O as [O _]. apply list.Forall_cons in O as [_ O].
    pose proof (chain_ple _ _ _ O C) as P. unfold ple, last in P. cbn [fst snd] in P. lia.
  - destruct (slots v) as [|h q] eqn:E; [by apply not_elem_of_nil in Hs|]. pose proof (need_pos (msg h)) as Np.
    assert (ple (first h) (first s)) as Ph.
    { apply elem_of_cons in Hs as [->|Hs]; [apply ple_refl|]. pose proof (geo_chain v G) as C. pose proof (ge_slots v G) as O. rewrite E in C, O.
      apply list.Forall_cons in O as [_ O]. destruct (chain_in _ q (T v) s O (proj2 C) Hs) as [P _]. apply (ple_trans _ (last h)); [apply last_ple|done]. }
    destruct (slots_head v h q G E) as [Ef|[E1 _]]; [|exfalso; rewrite Es in Ph; unfold ple, first in Ph; cbn [fst snd] in Ph; lia].
    destruct (qp_head v h q G E) as [q' Eq]; [|by exists h, q']. rewrite Ef. unfold ple in *. lia.
Qed.

(** The published position is in the next lap. *)
Lemma todo_behind v a : geo v -> ple (R v) a -> ple a (F v) -> a.2 < (R v).2 ->
  (F v).1 = (R v).1 + 1 /\ (T v).1 = (R v).1 + 1 /\ a.1 = (R v).1 + 1 /\
  ((exists s q', qp v = s :: q' /\ first s = R v) \/ exists h q, slots v = h :: q /\ lap h = (R v).1 + 1 /\ off h = 0).
Proof.
  intros G P1 P2 Lt. pose proof (geo_laps v G) as L. assert (a.1 = (R v).1 + 1 /\ (F v).1 = (R v).1 + 1) as [Ea EF] by (unfold ple in *; lia).
  split_and!; try lia. destruct (slots v) as [|h q] eqn:E.
  - exfalso. pose proof (geo_chain v G) as C. rewrite E in C. cbn in C. rewrite C in *. lia.
  - destruct (slots_head v h q G E) as [Ef|H]; [left|right; by exists h, q]. destruct (qp_head v h q G E) as [q' Eq]; [|by exists h, q'].
    rewrite Ef. unfold ple. lia.
Qed.

Definition rewind_view (v : View) : View :=
  let r := ((R v).1 + 1, 0) in mkView (qp v) (qu v) r (match qp v with [] => r | _ => A v end) (F v) (T v).

Lemma rewind_geo v h q : geo v -> slots v = h :: q -> lap h = (R v).1 + 1 -> off h = 0 -> (F v).1 = (R v).1 + 1 -> geo (rewind_view v).
Proof.
  intros G E El E0 EF. pose proof (geo_laps v G) as L. destruct G. split; unfold rewind_view; cbn [qp qu R A F T]; try done.
  - unfold slots in E. destruct (qp v) as [|s q'] eqn:Eq; [done|]. injection E as -> _. cbn in *. destruct ge_pub0 as [_ C]. split; [|done].
    left. unfold first. by rewrite El, E0.
  - unfold slots in E. destruct (qp v) as [|s q'] eqn:Eq; [|done]. cbn in E. rewrite E in *. destruct ge_res0 as [_ C]. split; [|done].
    left. unfold first. by rewrite El, E0.
  - unfold slots in E. destruct (qp v) as [|s q'] eqn:Eq; [|done]. right. cbn in E. exists h, q. split; [done|].
    destruct ge_from0 as [EA|(t & q2 & E2 & Et)]; [|rewrite E in E2; by injection E2 as <- <-]. exfalso. cbn in ge_pub0. rewrite EA, <- ge_pub0 in EF. lia.
  - left. cbn. lia.
  - destruct ge_R0 as (? & ? & _). split_and!; cbn; [lia..|apply Z.divide_0_r].
Qed.

Lemma receive_Rewind st v a : ok st v -> receiver_pace_ (ring st) = base + (R v).2 -> got st ++ (msg <$> slots v) = sent st ->
  (exists h q, slots v = h :: q /\ lap h = (R v).1 + 1 /\ off h = 0) -> (F v).1 = (R v).1 + 1 -> ple a (F v) -> a.1 = (R v).1 + 1 -> 0 <= a.2 ->
  ((R v).2 + 8 <= size -> msg_size (ring st) (base + (R v).2) = Some kBlankSize) /\
  ok (received st (if negb (base + a.2 =? base) then RHave else RIdle) (with_receiver (ring st) base) []) (rewind_view v).
Proof.
  intros O Rp Rs (h & q & E & El & E0) EF Pa Ea Ha. pose proof (ok_geo st v O) as G. pose proof (geo_laps v G) as L. pose proof (ok_shape st v O) as Sh.
  pose proof (ge_R v G) as (_ & BR & _). pose proof (ge_window v G) as W.
  pose proof (rewind_geo v h q G E El E0 EF) as G'. split.
  - intros Tl. apply (blank_msg_size (ring st) (slots v) (R v).2 Sh (ok_mem st v O)); [lia|lia|]. intros s Hs. right. destruct (geo_slot v G s Hs) as (_ & _ & P2).
    assert ((R v).1 + 1 <= lap s) as Ls.
    { rewrite E in Hs. apply elem_of_cons in Hs as [->|Hs]; [lia|]. pose proof (geo_chain v G) as C. pose proof (ge_slots v G) as Os. rewrite E in C, Os.
      apply list.Forall_cons in Os as [_ Os]. destruct (chain_in _ q (T v) s Os (proj2 C) Hs) as [P _]. unfold ple, first, last in P. cbn [fst snd] in P. lia. }
    unfold ple, window, last in *. cbn [fst snd] in *. lia.
  - apply (ok_received st v); try done.
    + destruct Sh. by split.
    + apply O.
    + intros m rw. unfold room. cbn [T R rewind_view fst snd]. destruct rw; lia.
    + intros j t s _ Hs. by right.
    + unfold receiver_ok. cbn [receiver received ring got sent receiver_pace_ with_receiver R rewind_view snd]. rewrite app_nil_r.
      destruct (Z.eqb_spec (base + a.2) base) as [Z|Z]; cbn [negb]; [by rewrite Z.add_0_r|]. rewrite Z.add_0_r. split_and!; try done.
      destruct (qp_head v h q G E) as [q' Eq]; [unfold ple, first in *; cbn [fst snd] in *; lia|]. exists h, q'. split; [done|]. unfold first. by rewrite El, E0.
Qed.

Lemma receive_From st v from : ok st v -> receiver st = RFrom from -> safe_receive st.
Proof.
  intros O E. pose proof (ok_geo st v O) as G. pose proof (ok_receiver st v O) as Rc. unfold receiver_ok in Rc. rewrite E in Rc.
  destruct Rc as (Rp & Rs & a & -> & P1 & P2 & P3 & Re). pose proof (ok_shape st v O) as Sh. pose proof (ok_mem st v O) as Me.
  assert (forall y, (y = RIdle \/ (y = RHave /\ exists s q', qp v = s :: q' /\ first s = R v)) -> ok (received st y (ring st) []) v) as Stay.
  { intros y Hy. apply (ok_received st v); try done; try apply O; [intros; by right|]. unfold receiver_ok. cbn [receiver received ring got sent]. rewrite app_nil_r.
    destruct Hy as [->|[-> H]]; done. }
  unfold safe_receive. rewrite E. cbn [run_receiver]. unfold has_todo. rewrite Rp.
  destruct (Z.ltb_spec (base + (R v).2) (base + a.2)) as [Lt|Lt]; [|destruct (Z.eqb_spec (base + a.2) (base + (R v).2)) as [Eq|Nq]].
  - eexists _, _, _, v. split; [reflexivity|]. apply Stay. right. split; [done|]. apply (todo_ahead v a); try done. lia.
  - eexists _, _, _, v. split; [reflexivity|]. apply Stay. by left.
  - destruct (todo_behind v a G P1 P2 ltac:(lia)) as (EF & ET & Ea & H). unfold end_of_pipe_. rewrite (sh_base _ Sh), (sh_size _ Sh).
    destruct H as [(s & q' & Eq & Ef)|H].
    + assert (s ∈ slots v) as Hs by (apply geo_in_qp; [done|]; rewrite Eq; apply list_elem_of_here). destruct (geo_slot v G s Hs) as (Os & _).
      rewrite (proj2 (Z.ltb_ge _ _)) by (rewrite <- Ef; destruct Os as (_ & _ & Os & _); pose proof (need_pos (msg s)); unfold kMsgOffset, first, need in *; cbn [snd]; lia).
      pose proof (slot_msg_size (ring st) s Sh (mo_len _ _ Me) Os (mo_slot _ _ Me s Hs)) as Sz. rewrite <- Ef. cbn [first snd]. rewrite Sz.
      pose proof (ge_done v G) as D. rewrite Eq in D. apply list.Forall_cons in D as [D _]. unfold size_field. rewrite D.
      destruct (ready_size (Z.of_nat (length (msg s).2))) as (_ & _ & B & _); [destruct Os as (_ & _ & _ & _ & _ & ?); lia|].
      cbn [fmap option_fmap option_map mbind option_bind]. rewrite B. eexists _, _, _, v. split; [reflexivity|]. apply Stay. right. split; [done|]. by exists s, q'.
    + destruct (receive_Rewind st v a O Rp Rs H EF P2 Ea P3) as [Sz Ok].
      assert ((if base + size <? base + (R v).2 + kMsgOffset then Some true else IsBlank_ <$> msg_size (ring st) (base + (R v).2)) = Some true) as Eb.
      { destruct (Z.ltb_spec (base + size) (base + (R v).2 + kMsgOffset)); [done|]. by rewrite Sz by (unfold kMsgOffset in *; lia). }
      rewrite Z.add_comm in Eb at 1. rewrite Eb. cbn [mbind option_bind]. eexists _, _, _, (rewind_view v). split; [reflexivity|]. done.
Qed.

(** ** All steps *)

Lemma step_Run st v i : ok st v -> fresh st -> calm g st (Run i) -> exists st' v', step st (Run i) = Some st' /\ ok st' v'.
Proof.
  intros O Fr [Ca Tl]. cbn [step calm] in *. destruct (senders st !! i) as [[x b]|] eqn:Hi; [|by exists st, v].
  assert (safe_step st i b x) as (y & p & v' & E & O').
  { destruct x as [|h c|h c to|h c to new rw|ph h c m pos|m pos|pos ver|ver|old ptr ver|old new ver|new ver|new ver].
    - by apply (step_Idle st v).
    - by apply (step_ReadTo st v).
    - apply (step_ReadReceiver st v); try done. intros orig new. by apply (Ca h c to b).
    - by apply (step_CasTo st v).
    - by apply (step_Put st v).
    - by apply (step_ReadFrom st v).
    - by apply (step_AwaitFrom st v).
    - by apply (step_StoreFrom st v).
    - by apply (step_ReadSize st v).
    - by apply (step_CasFrom st v).
    - by apply (step_LoopTo st v).
    - apply (step_LoopReady st v); try done. pose proof (Tl new ver b eq_refl) as L. unfold end_of_pipe_ in L.
      rewrite (sh_base _ (ok_shape st v O)), (sh_size _ (ok_shape st v O)) in L. unfold kMsgOffset in L. lia. }
  rewrite E. cbn [mbind option_bind]. by exists (moved st i b x y p), v'.
Qed.

Lemma step_Receive st v : ok st v -> calm g st Receive -> exists st' v', step st Receive = Some st' /\ ok st' v'.
Proof.
  intros O Ca. assert (safe_receive st) as (y & p & ms & v' & E & O').
  { destruct (receiver st) as [|from| |orig to] eqn:Er; [by apply (receive_Idle st v)|by apply (receive_From st v from)|by apply (receive_Have st v)|].
    apply (receive_Blank st v orig to O Er). intros i t pos Hi. by apply (Ca orig to i t pos). }
  cbn [step]. rewrite E. cbn [mbind option_bind]. by exists (received st y p ms), v'.
Qed.

Lemma step_Enter st v i h c : ok st v -> aligned g c -> exists st' v', step st (Enter i h c) = Some st' /\ ok st' v'.
Proof.
  intros O Al. cbn [step]. destruct (senders st !! i) as [[[] b]|] eqn:Hi; try (by exists st, v). eexists _, v. split; [reflexivity|].
  assert (i < length (senders st))%nat as Li by (by eapply lookup_lt_Some). assert (sender_ok v i (laps st) (enter (ring st) h c)) as He.
  { unfold enter. rewrite (sh_max _ (ok_shape st v O)). destruct (Z.ltb_spec maxc (Z.of_nat (length c))); [done|]. by split. }
  destruct O. split; try done; cbn [senders laps].
  - intros j t Hj. apply list_lookup_insert_Some in Hj as [(<- & <- & _)|[N Hj]]; [cbn; lia|by apply (ok_began0 j)].
  - intros j t Hj. apply list_lookup_insert_Some in Hj as [(<- & <- & _)|[N Hj]]; [done|by apply ok_senders0].
  - intros s Hs D. destruct (ok_served0 s Hs D) as (j & t & Hj & Sv). destruct (decide (j = i)) as [->|N].
    + rewrite Hi in Hj. injection Hj as <-. by apply aloof_serves in Sv.
    + exists j, t. by rewrite list_lookup_insert_ne.
Qed.

Lemma step_safe st v l : ok st v -> fresh st -> calm g st l -> exists st' v', step st l = Some st' /\ ok st' v'.
Proof.
  intros O Fr Ca. destruct l as [i h c|i|]; [by apply (step_Enter st v)|by apply (step_Run st v)|by apply (step_Receive st v)].
Qed.

Lemma start_ok thr n p : Init size maxc thr false base = Some p \/ Init size maxc thr true base = Some p -> exists v, ok (start n p) v.
Proof.
  intros Hp. assert (p = mkPipe size maxc thr base (blank (Z.to_nat size)) base (EncodeSenderPace_ base 0) (EncodeSenderPace_ base 0)) as ->.
  { unfold Init in Hp. destruct Hp as [Hp|Hp]; (destruct (_ || _); [done|by injection Hp as <-]). }
  assert (boundary (0, 0)) as B0 by (split_and!; cbn; [lia..|apply Z.divide_0_r]).
  assert (word (0, 0) = EncodeSenderPace_ base 0) as Ew by (unfold word; cbn [fst snd]; by rewrite Z.add_0_r).
  exists (mkView [] [] (0, 0) (0, 0) (0, 0) (0, 0)). split; try done.
  - split; try done; [by left|by left].
  - split; cbn [mem ring start].
    + rewrite blank_length. lia.
    + intros s Hs. by apply not_elem_of_nil in Hs.
    + intros i Hi _. apply lookup_replicate_2. lia.
  - intros i t Ht. apply lookup_replicate in Ht as [-> _]. cbn. lia.
  - unfold receiver_ok. cbn. split_and!; try done. lia.
  - intros i t Ht. by apply lookup_replicate in Ht as [-> _].
  - intros s Hs. by apply not_elem_of_nil in Hs.
Qed.

(** ** What the view says of the state *)

Lemma reach_ok st0 v0 st : ok st0 v0 -> fresh st0 -> reach g st0 st -> (exists v, ok st v) /\ fresh st.
Proof.
  intros O0 F0 H. induction H as [|st l st' _ ((v & O) & Fr) Ca E Fr']; [by split; [exists v0|]|]. split; [|done].
  destruct (step_safe st v l O Fr Ca) as (st2 & v' & E2 & O'). rewrite E in E2. injection E2 as <-. by exists v'.
Qed.

Lemma ok_received_prefix st v : ok st v -> exists rest, sent st = got st ++ rest.
Proof.
  intros O. pose proof (ok_receiver st v O) as H. unfold receiver_ok in H. destruct (receiver st).
  - destruct H as [_ <-]. by eexists.
  - destruct H as (_ & <- & _). by eexists.
  - destruct H as (_ & <- & _). by eexists.
  - destruct H as (s & q' & _ & _ & _ & _ & _ & <-). by eexists.
Qed.

Lemma ok_quiet st v : ok st v -> quiet st -> qu v = [] /\ F v = T v.
Proof.
  intros O Q. pose proof (ok_geo st v O) as G. assert (qu v = []) as E; [|split; [done|by apply geo_none]].
  assert (forall s, s ∈ qu v -> ~ due v s) as Nd.
  { intros s Hs D. destruct (ok_served st v O s Hs D) as (i & t & Hi & Sv). unfold quiet in Q.
    assert (pc t = Idle) as E by (eapply Forall_lookup_1 in Q; eauto). rewrite E in Sv. by apply aloof_serves in Sv. }
  destruct (qu v) as [|s q'] eqn:E; [done|exfalso]. apply (Nd s); [apply list_elem_of_here|]. unfold due.
  destruct (geo_head v G s q' E) as [Ef|(_ & _ & E0 & _)]; [by right; right|by right; left].
Qed.

Lemma ok_drained st v p' : ok st v -> quiet st -> receiver st = RIdle -> HasTodo (ring st) = Some (false, p') -> got st = sent st.
Proof.
  intros O Q Ri H. destruct (ok_quiet st v O Q) as [Eq EF]. pose proof (ok_geo st v O) as G. pose proof (ok_shape st v O) as Sh.
  pose proof (ok_receiver st v O) as Rc. unfold receiver_ok in Rc. rewrite Ri in Rc. destruct Rc as [Rp <-].
  assert (slots v = []) as ->; [|by rewrite app_nil_r].
  pose proof (geo_chain v G) as C. pose proof (ge_window v G) as W. pose proof (geo_RF v G) as RF.
  change (HasTodo (ring st)) with (has_todo (ring st) (DecodeSenderPaceFromPtr_ (ring st))) in H. unfold DecodeSenderPaceFromPtr_, has_todo in H.
  rewrite (ok_from st v O), word_ptr, Rp, EF in H by apply G. rewrite EF in RF. destruct (Z.ltb_spec (base + (R v).2) (base + (T v).2)) as [|Lt]; [done|].
  destruct (Z.eqb_spec (base + (T v).2) (base + (R v).2)) as [E|N].
  - destruct (slots v) as [|s q] eqn:Es; [done|exfalso]. pose proof (need_pos (msg s)).
    assert (s ∈ slots v) as Hs by (rewrite Es; apply list_elem_of_here). destruct (geo_slot v G s Hs) as (_ & P1 & P2).
    unfold ple, window, first, last in *. cbn [fst snd] in *. lia.
  - exfalso. assert ((T v).1 = (R v).1 + 1) as ET by (unfold ple, window in *; lia). pose proof (ge_T v G) as (_ & BT & _). pose proof (ge_R v G) as (BR & _).
    pose proof (ge_T0 v G). rewrite (sh_base _ Sh) in H. destruct (if end_of_pipe_ (ring st) <? _ then _ else _) as [[]|]; [|done..].
    cbn [mbind option_bind] in H. injection H as H _. destruct (Z.eqb_spec (base + (T v).2) base); [|done]. lia.
Qed.

End Ring.

Lemma reach_view size maxc thr hn base p n g st
    (Hi : Init size maxc thr hn base = Some p) (Hb : 0 < base) (Ha : base + size < 2 ^ 48) (Hm : 0 <= maxc) (Hs : size < 2 ^ 31)
    (Hg : 0 < g) (Hr : reach g (start n p) st) : exists v, ok base size maxc g st v /\ fresh st /\ maxc + 8 < size < 2 ^ 31.
Proof.
  assert (maxc + 8 < size < 2 ^ 31) as Hsz.
  { split; [|done]. unfold Init, kMsgOffset in Hi. destruct (Z.leb_spec size (maxc + 8)); [done|lia]. }
  destruct (start_ok base size maxc g Hb Hm Ha Hsz Hg thr n p ltac:(by destruct hn; [right|left])) as [v0 O0].
  assert (fresh (start n p)) as F0 by (intros i t Hl; by apply lookup_replicate in Hl as [-> _]).
  destruct (reach_ok base size maxc g Hb Hm Ha Hsz Hg _ v0 st O0 F0 Hr) as [[v O] Fr]. by exists v.
Qed.

(** On a ring that is at least eight bytes longer than a multiple of [g], when the
    lengths of messages are multiples of [g], no sender ever looks for a message
    in the last eight bytes. *)
Lemma loop_in_ring size maxc thr hn base p n g st i new version b
    (Hi : Init size maxc thr hn base = Some p) (Hb : 0 < base) (Ha : base + size < 2 ^ 48) (Hm : 0 <= maxc) (Hs : size < 2 ^ 31)
    (Hg : 0 < g) (Ht : 8 <= size mod g) (Hr : reach g (start n p) st) :
  senders st !! i = Some (mkThread (LoopReady new version) b) -> new + kMsgOffset <= end_of_pipe_ (ring st).
Proof.
  destruct (reach_view size maxc thr hn base p n g st Hi Hb Ha Hm Hs Hg Hr) as (v & O & _ & Hsz). intros E.
  destruct (ok_senders _ _ _ _ _ _ O i _ E) as (a & -> & _ & (Ba & _) & _).
  pose proof (boundary_tail base size maxc g Hb Hm Ha Hsz Hg a Ht Ba).
  unfold end_of_pipe_, kMsgOffset. rewrite (sh_base _ _ _ _ (ok_shape _ _ _ _ _ _ O)), (sh_size _ _ _ _ (ok_shape _ _ _ _ _ _ O)). lia.
Qed.

(** C6: Under many senders at once the mailbox is a queue.  Take any schedule of
    any number of senders and the receiver, one access to shared memory at a
    time, in which no sender reads the receiver's position between the two writes
    of [MsgConsumed], no sender looks for a message in the last eight bytes of the
    ring, no message is blanked before its sender has looked at the published
    position, and no sender sleeps until the versions come round.  Then no access
    is out of bounds, whatever moves next; the messages received are, in this
    order and unchanged, the first of those that reserved space; and when no
    sender is inside [SendMsg_] all messages are published, so that a receiver
    that finds nothing has received everything that was sent. *)
Theorem race_fifo size maxc thr hn base p n g st
    (Hi : Init size maxc thr hn base = Some p) (Hb : 0 < base) (Ha : base + size < 2 ^ 48) (Hm : 0 <= maxc) (Hs : size < 2 ^ 31)
    (Hg : 0 < g) (Hr : reach g (start n p) st) :
  (forall l, calm g st l -> is_Some (step st l)) /\
  (exists rest, sent st = got st ++ rest) /\
  (quiet st -> sender_pace_from_ (ring st) = sender_pace_to_ (ring st)) /\
  (quiet st -> receiver st = RIdle -> forall p', HasTodo (ring st) = Some (false, p') -> got st = sent st).
Proof.
  destruct (reach_view size maxc thr hn base p n g st Hi Hb Ha Hm Hs Hg Hr) as (v & O & Fr & Hsz). split_and!.
  - intros l Ca. destruct (step_safe base size maxc g Hb Hm Ha Hsz Hg st v l O Fr Ca) as (st' & _ & -> & _). by eexists.
  - apply (ok_received_prefix base size maxc g Hb Hm Ha Hsz Hg st v O).
  - intros Q. destruct (ok_quiet base size maxc g Hb Hm Ha Hsz Hg st v O Q) as [_ E]. by rewrite (ok_from _ _ _ _ _ _ O), (ok_to _ _ _ _ _ _ O), E.
  - intros Q Ri p' H. apply (ok_drained base size maxc g Hb Hm Ha Hsz Hg st v p' O Q Ri H).
Qed.

(** Two senders that take turns with each other and with the receiver, on a ring
    that three messages fill: the fourth starts the ring again while the third is
    not published yet. *)
Definition ex_turns : list Label :=
  [Enter 0 true (str "aaaaaaaa")] ++ runs 3 0 ++ [Enter 1 false (str "bbbbbbbb")] ++ concat (replicate 14 [Run 1; Run 0]) ++ replicate 8 Receive ++
  [Enter 0 true (str "cccccccc")] ++ runs 3 0 ++ [Enter 1 true (str "dddddddd")] ++ concat (replicate 14 [Run 1; Run 1; Run 0; Receive]) ++ replicate 8 Receive.
Definition ex_ring : MPSCFixedPipe :=
  mkPipe 56 8 0 4096 (blank 56) 4096 (EncodeSenderPace_ 4096 0) (EncodeSenderPace_ 4096 0).

Lemma race_fifo_witness : exists st, calm_exec 16 (start 2 ex_ring) ex_turns = Some st /\
  (forall l, calm 16 st l -> is_Some (step st l)) /\ (quiet st -> sender_pace_from_ (ring st) = sender_pace_to_ (ring st)) /\
  length (got st) = 4%nat /\ laps st = 1 /\ got st = sent st.
Proof.
  destruct (calm_exec 16 (start 2 ex_ring) ex_turns) as [st|] eqn:E; [|vm_compute in E; discriminate]. exists st. split; [done|].
  pose proof (calm_exec_reach 16 (start 2 ex_ring) ex_turns ltac:(lia) _ st (reach_start _ _) E) as R.
  pose proof (race_fifo 56 8 0 false 4096 ex_ring 2 16 st ltac:(vm_compute; reflexivity) ltac:(lia) ltac:(lia) ltac:(lia) ltac:(lia) ltac:(lia) R) as (P & _ & Q & D).
  split; [exact P|]. split; [exact Q|]. clear P R. vm_compute in E. injection E as <-. split_and!; vm_compute; reflexivity.
Defined.

End RaceLaws.
