(* ===== verification/Scheduler.v ===== *)
(** * Scheduler: threads that run business procedures

    Models the queue of tasks of src/src/schedulers/scheduler.h and
    details/scheduler.cpp.  [swapcontext] into a procedure is an argument: it
    runs the procedure until it waits or ends and returns 0, or fails with
    another value.  A task is a value here: [pool_msgs_] recycles the memory of
    tasks between [Receive_loop] and [ConsumeTask_] and has no other effect. *)

From Stdlib Require Import ZArith Lia.
From stdpp Require Import base list gmap numbers option.
From S2P Require Import Prelude Os Protocol Rapid Redis IOHelper Model ConnsMgr EventsDriver PoolObjs Protocols Confs EventCtx Msg Session IOBasic.
Import Os Buffer Model.

(** The mailbox of the scheduler, and [thread_privacy_.Get]: whether the thread
    has a slot for its current procedure (ThreadPrivacy.v says when). *)
Class SchedulerMail (W : Type) : Type := {
  sched_ReceiveMsg : W -> option Msg.Msg * W;
  sched_MsgConsumed : W -> W;
  sched_slot : W -> bool * W;
}.

Module Scheduler.
Import BizProcedure.

Definition kMaxTaskProcessedOneTime : nat := 100.

Section Scheduler.
Context {W : Type} `{SM : !SchedulerMail W} {FU : Protocol.Fuel}.

Record Scheduler := mkScheduler {
  thread : Thread W;
  task_queue_ : list Msg.Msg;
  pool_biz_procedure_ : PoolObjs.PoolObjs BizProcedure;
  current_biz_procedure : option ptr;
}.

Definition with_thread (t : Thread W) (s : Scheduler) : Scheduler :=
  mkScheduler t (task_queue_ s) (pool_biz_procedure_ s) (current_biz_procedure s).
Definition with_queue (q : list Msg.Msg) (s : Scheduler) : Scheduler :=
  mkScheduler (thread s) q (pool_biz_procedure_ s) (current_biz_procedure s).
Definition on_thread {A} (m : M (Thread W) A) : M Scheduler A := zoom thread with_thread m.
(** False when the thread has no slot. *)
Definition SetCurrentBizProcedure (b : ptr) : M Scheduler bool :=
  ok ← on_thread (on_world (call sched_slot));
  if negb ok then mret false
  else modify (fun s => mkScheduler (thread s) (task_queue_ s) (pool_biz_procedure_ s) (Some b));; mret true.

Definition with_procs (p : Store.Store BizProcedure) (t : Thread W) : Thread W :=
  mkThread p (vectors t) (t_protos t) (t_world t).
Definition GetBizProcedure : M Scheduler ptr := fun s =>
  match PoolObjs.Get (pool_biz_procedure_ s) (procs (thread s)) with
  | Some ((Some b, p), st) =>
      Some (b, mkScheduler (with_procs st (thread s)) (task_queue_ s) p (current_biz_procedure s))
  | _ => None
  end.
Definition FreeBizProcedure (b : ptr) : M Scheduler () := fun s =>
  match PoolObjs.Free (pool_biz_procedure_ s) (Some b) (procs (thread s)) with
  | Some (p, st) => Some ((), mkScheduler (with_procs st (thread s)) (task_queue_ s) p (current_biz_procedure s))
  | None => None
  end.

(** [SelectTask_] and [ConsumeTask_]. *)
Definition SelectTask_ : M Scheduler (option Msg.Msg) := s ← gets id; mret (head (task_queue_ s)).
Definition ConsumeTask_ : M Scheduler () := modify (fun s => with_queue (tail (task_queue_ s)) s).

(** An object of the pool of the message's category: of its class, since
    objects of the base class are replaced. *)
Definition blank_msg (c : Msg.Category) : Msg.Msg :=
  match c with
  | Msg.kInvalid => Msg.Invalid
  | Msg.kConfig => Msg.Config
  | Msg.kReadReq => Msg.ReadReq (Msg.mkReadReq 0 0 (Protocol.mkListenAddr [] Protocol.kInvalid (Protocol.mkAddr 0 0 0)) 0)
  | Msg.kNewReq => Msg.NewReq (Msg.mkNewReq 0 0 0 None)
  | Msg.kSession => Msg.Session (Msg.mkMsgSession 0 0 0 0 0)
  | Msg.kDestruct => Msg.Destruct (Msg.mkDestruct 0 0 0 None [] None)
  end.

(** The first loop of [Process_]: the mailbox is emptied into the queue; the
    result says whether there was a message. *)
Fixpoint Receive_loop (n : nat) (round : bool) : M Scheduler bool :=
  match n with
  | O => ub
  | S n =>
      msg ← on_thread (on_world (call sched_ReceiveMsg));
      match msg with
      | None => mret round
      | Some cur_msg =>
          new_msg ← deref (Msg.Copy (blank_msg (Msg.category cur_msg)) cur_msg);
          modify (fun s => with_queue (task_queue_ s ++ [new_msg]) s);;
          on_thread (on_world (modify sched_MsgConsumed));;
          Receive_loop n true
      end
  end.

Context (swapcontext : ptr -> M Scheduler Z).

(** The end of both branches: [ERROR_HANDLE] is reached when the procedure
    cannot be made current, without a switch, or when the switch fails. *)
Definition switch (b ctx : ptr) : M Scheduler bool :=
  ret ← SetCurrentBizProcedure b;
  if negb ret then mret false
  else ret ← swapcontext ctx; mret (ret =? 0).

(** False at [ERROR_HANDLE]. *)
Definition handle (m : Msg.Msg) : M Scheduler bool :=
  match m with
  | Msg.Session m =>
      on_thread (SetMsgSession (Msg.ms_biz_procedure m) m);;
      switch (Msg.ms_biz_procedure m) (Msg.ms_biz_ctx m)
  | Msg.NewReq m =>
      b ← GetBizProcedure;
      on_thread (Procedure b m);;
      switch b b
  | _ => mret true
  end.

(** A task is taken off the queue whether it was handled or not. *)
Fixpoint Tasks_loop (n : nat) : M Scheduler () :=
  match n with
  | O => mret ()
  | S n =>
      msg ← SelectTask_;
      match msg with
      | None => mret ()
      | Some m =>
          ret ← handle m;
          if (ret : bool) then ConsumeTask_;; Tasks_loop n
          else ConsumeTask_;; Tasks_loop n
      end
  end.

Definition Process_ : M Scheduler () :=
  round ← Receive_loop Protocol.fuel false;
  s ← gets id;
  if negb round && (length (task_queue_ s) =? 0)%nat then mret ()
  else Tasks_loop kMaxTaskProcessedOneTime.

(** ** Tasks are handled in the order of their arrival *)

(** A list of tasks, each taken off the queue after it was handled. *)
Fixpoint handle_all (l : list Msg.Msg) : M Scheduler () :=
  match l with
  | [] => mret ()
  | m :: l => handle m;; ConsumeTask_;; handle_all l
  end.

(** Procedures do not touch the queue. *)
Definition keeps_queue : Prop := forall b s r s', swapcontext b s = Some (r, s') -> task_queue_ s' = task_queue_ s.

Lemma on_thread_queue {A} (m : M (Thread W) A) s a s' : on_thread m s = Some (a, s') -> task_queue_ s' = task_queue_ s.
Proof. intros (t & _ & ->)%zoom_inv. done. Qed.

(** A switch that returns false has changed the queue as little. *)
Lemma SetCurrent_inv b s ok s' : SetCurrentBizProcedure b s = Some (ok, s') ->
  exists w, (sched_slot (t_world (thread s))) = (ok, w) /\
    s' = mkScheduler (mkThread (procs (thread s)) (vectors (thread s)) (t_protos (thread s)) w) (task_queue_ s) (pool_biz_procedure_ s) (if ok then Some b else current_biz_procedure s).
Proof.
  intros E. unfold SetCurrentBizProcedure in E. step E as ok1 s1 E1. apply zoom_inv in E1 as (t & Et & ->). apply zoom_inv in Et as (w & Ew & ->).
  unfold call in Ew. injection Ew as Ew. exists w. destruct ok1; cbn [negb] in E; injection E as <- <-; by split.
Qed.
Lemma switch_queue b c s r s' : keeps_queue -> switch b c s = Some (r, s') -> task_queue_ s' = task_queue_ s.
Proof.
  intros K E. unfold switch in E. step E as ok s1 E1. apply SetCurrent_inv in E1 as (w & _ & ->).
  destruct ok; cbn [negb] in E; [|by injection E as _ <-]. step E as z s2 E2. injection E as _ <-. by apply K in E2.
Qed.
Lemma handle_queue m s r s' : keeps_queue -> handle m s = Some (r, s') -> task_queue_ s' = task_queue_ s.
Proof.
  intros K. destruct m; cbn [handle]; try by intros [= _ <-].
  - intros H. apply bind_Some in H as (b & s1 & E1 & H). apply bind_Some in H as ([] & s2 & E2 & H).
    apply (switch_queue _ _ _ _ _ K) in H. rewrite H. apply on_thread_queue in E2. rewrite E2. unfold GetBizProcedure in E1.
    destruct (PoolObjs.Get _ _) as [[[[?|] ?] ?]|]; try done. by injection E1 as <- <-.
  - intros H. apply bind_Some in H as ([] & s2 & E2 & H).
    apply (switch_queue _ _ _ _ _ K) in H. rewrite H. by apply on_thread_queue in E2.
Qed.

Lemma bind_None {S A B} (m : M S A) (f : A -> M S B) s : m s = None -> (m ≫= f) s = None.
Proof. unfold mbind, M_bind. by intros ->. Qed.

Lemma handle_all_queue l : forall s s', keeps_queue -> handle_all l s = Some ((), s') ->
  task_queue_ s' = drop (length l) (task_queue_ s).
Proof.
  induction l as [|m l IH]; intros s s' K H; [by injection H as <-|]. cbn [handle_all] in H.
  apply bind_Some in H as (r & s1 & E1 & H). apply bind_Some in H as ([] & s2 & E2 & H). injection E2 as <-.
  apply (IH _ _ K) in H. rewrite H. cbn [with_queue task_queue_ length]. rewrite (handle_queue m s r s1 K E1).
  destruct (task_queue_ s); [|done]. cbn [tail]. by rewrite !drop_nil.
Qed.

(** C31: a round of a scheduler handles the oldest tasks of its queue, at most a
    hundred, in the order in which they arrived, each exactly once, and leaves
    the others in the queue in their order.  A task whose procedure could not be
    switched to is taken off the queue like the others. *)
Theorem tasks_fifo s : keeps_queue ->
  let n := kMaxTaskProcessedOneTime in
  Tasks_loop n s = handle_all (take n (task_queue_ s)) s /\
  forall s', Tasks_loop n s = Some ((), s') -> task_queue_ s' = drop n (task_queue_ s).
Proof using All.
  intros K n. assert (forall s, Tasks_loop n s = handle_all (take n (task_queue_ s)) s) as E.
  { clearbody n. clear s. induction n as [|n IH]; intros s; [by rewrite take_0|]. cbn [Tasks_loop].
    assert (SelectTask_ s = Some (head (task_queue_ s), s)) as Es by done. mrun Es.
    destruct (task_queue_ s) as [|m q] eqn:Qs; [done|]. cbn [head take handle_all].
    destruct (handle m s) as [[r s1]|] eqn:Eh; [|by rewrite !(bind_None _ _ _ Eh)]. mrun Eh. mrun Eh.
    assert (ConsumeTask_ s1 = Some ((), with_queue (tail (task_queue_ s1)) s1)) as Ec by done. destruct r; mrun Ec; mrun Ec;
    rewrite IH; cbn [with_queue task_queue_]; by rewrite (handle_queue m s _ s1 K Eh), Qs. }
  split; [apply E|]. intros s' H. rewrite E in H. rewrite (handle_all_queue _ _ _ K H), length_take.
  destruct (decide (n <= length (task_queue_ s))%nat); [by rewrite Nat.min_l|].
  rewrite Nat.min_r by lia. by rewrite !drop_ge by lia.
Qed.

End Scheduler.
Arguments Scheduler : clear implicits.

(** Three tasks of which one is a message the scheduler does not know. *)
#[local] Instance ten_turns : Protocol.Fuel := {| Protocol.fuel := 10 |}.
#[local] Instance no_mail : SchedulerMail () := {| sched_ReceiveMsg w := (None, w); sched_MsgConsumed w := w; sched_slot w := (true, w) |}.
Definition ex_scheduler : Scheduler () :=
  {| thread := mkThread Store.nothing Store.nothing Protocols.Protos_new ();
     task_queue_ := [Msg.Config; Msg.NewReq (Msg.mkNewReq 1 5 0 (Some 9)); Msg.Config];
     pool_biz_procedure_ := PoolObjs.PoolObjs_new Biz_new 200 0 400 true true 4;
     current_biz_procedure := None |}.
Definition no_swap (b : ptr) : M (Scheduler ()) Z := mret 0.
Lemma tasks_fifo_witness :
  Tasks_loop no_swap kMaxTaskProcessedOneTime ex_scheduler =
    handle_all no_swap (task_queue_ ex_scheduler) ex_scheduler /\
  (option_map (fun r => task_queue_ r.2) (handle_all no_swap (task_queue_ ex_scheduler) ex_scheduler) = Some []).
Proof.
  split; [|vm_compute; reflexivity].
  exact (proj1 (tasks_fifo no_swap ex_scheduler ltac:(intros b s z s' H; by injection (H : Some (0, s) = Some (z, s')) as _ <-))).
Defined.
End Scheduler.
