(* ===== verification/Wakeups.v ===== *)
(** * Wakeups: agents and a scheduler together

    A procedure that waits has sent a session to an agent; the agent answers it
    (Runs.v), the scheduler takes the answer into its queue and resumes the
    procedure (Scheduler.v), which runs until it waits again or ends.  [step] is
    one action of one of the threads, in any order.  What is carried between
    them: the sessions sent and not yet handled ([inbox]), the answers the
    scheduler has taken so far ([taken]), its queue of tasks.  The mailboxes in
    between deliver every message once and in order (RaceLaws.v, Mail.v). *)

From Stdlib Require Import ZArith Lia.
From stdpp Require Import base list gmap numbers option.
From S2P Require Import Prelude Os Protocol Rapid Redis IOHelper Model ConnsMgr EventsDriver PoolObjs Protocols Fds Confs EventCtx Msg Session AgentSlave SessionLaws SessionEvents Answers Timeouts Clients Runs IOBasic Scheduler.
Import Os Buffer Model.

(** The sessions the procedures of a scheduler have sent so far; looking for the
    slot of the thread sends none. *)
Class Outbox (W : Type) `{SM : !SchedulerMail W} : Type := {
  outbox : W -> list Msg.MsgSession;
  outbox_slot w : outbox (sched_slot w).2 = outbox w;
}.

Module Wakeups.
Import Session SessionLaws Answers Timeouts Runs.

Section Wakeups.
Context {W Q : Type} `{NI : !NetIO W, SK : !Sock W, CK : !Clock W, EP : !Epoll W, PE : !Peers W, TQ : !TimeoutQueue Q,
  TQL : !TimeoutQueueLaws Q, RD : !Rand, MA : !Malloc, OS : !OpenSpec W, AN : !AnswerSpec W, PS : !PeerSpec W} {FU : Protocol.Fuel}.
Context {W2 : Type} `{SM : !SchedulerMail W2, OB : !Outbox W2}.
Context (conf : Confs.ConfNormal) (swapcontext : ptr -> M (Scheduler.Scheduler W2) Z).
Abbreviation Agent := (Session.Agent W Q).

Definition sent_of (s : Scheduler.Scheduler W2) : list Msg.MsgSession := outbox (BizProcedure.t_world (Scheduler.thread s)).

Abbreviation procs_of s := (BizProcedure.procs (Scheduler.thread s)).
(** Objects stay objects, and the pool of procedures is not touched. *)
Record calm (s s' : Scheduler.Scheduler W2) : Prop := {
  ca_queue : Scheduler.task_queue_ s' = Scheduler.task_queue_ s;
  ca_pool : Scheduler.pool_biz_procedure_ s' = Scheduler.pool_biz_procedure_ s;
  ca_store : Store.ok (procs_of s) -> Store.ok (procs_of s');
  ca_procs b : is_Some (Store.load (procs_of s) b) -> is_Some (Store.load (procs_of s') b);
}.
(** What a procedure did with the processor: it has sent one session, which
    names it, and waits; or it has sent nothing more and has ended, giving its
    object back to the pool. *)
Definition ran (b : ptr) (out : list Msg.MsgSession) (s s' : Scheduler.Scheduler W2) : Prop :=
  (exists v timeo e, out = [Msg.BuildForSession b b v timeo e]) /\ calm s s' \/
  out = [] /\ exists s1, calm s s1 /\ Scheduler.FreeBizProcedure b s1 = Some ((), s').
(** What is asked of procedures, and of the switch: when it fails nothing has
    happened. *)
Definition cooperative : Prop := forall b s r s', swapcontext b s = Some (r, s') ->
  if r =? 0 then exists out, sent_of s' = sent_of s ++ out /\ ran b out s s' else s' = s.

Record Side := mkSide { agent : Agent; inbox : list Msg.MsgSession; taken : nat }.
(** [waiting] lists the procedures that wait, with their talks; [stuck] those
    among them that nothing will resume: their session was dead, or the switch
    back to them failed. *)
Record Sys := mkSys { sides : list Side; sched : Scheduler.Scheduler W2; waiting : list (ptr * ptr * ptr); stuck : list (ptr * ptr * ptr) }.

(** The task at the head of the queue is handled: its procedure runs and no
    longer waits, unless it sends a session, which goes to some agent. *)
Definition resumed (b : ptr) (i : nat) (x : Side) (s1 : Scheduler.Scheduler W2) (out : list Msg.MsgSession) (y : Sys) : Sys :=
  mkSys (<[i := mkSide (agent x) (inbox x ++ out) (taken x)]> (sides y)) (Scheduler.with_queue (tail (Scheduler.task_queue_ s1)) s1)
    (filter (fun e => e.1.2 <> b) (waiting y) ++ (addressee <$> out)) (stuck y).
(** It could not be handled. *)
Definition failed (e : list (ptr * ptr * ptr)) (s1 : Scheduler.Scheduler W2) (y : Sys) : Sys :=
  mkSys (sides y) (Scheduler.with_queue (tail (Scheduler.task_queue_ s1)) s1) (waiting y) (stuck y ++ e).

Inductive step : Sys -> Sys -> Prop :=
| step_agent i x o a' rest y : sides y !! i = Some x -> Runs.step conf (agent x) o a' -> inbox x = news o ++ rest ->
    step y (mkSys (<[i := mkSide a' rest (taken x)]> (sides y)) (sched y) (waiting y) (stuck y ++ (addressee <$> deads o)))
| step_deliver i x m y : sides y !! i = Some x -> answered (world (agent x)) !! taken x = Some m ->
    step y (mkSys (<[i := mkSide (agent x) (inbox x) (S (taken x))]> (sides y))
              (Scheduler.with_queue (Scheduler.task_queue_ (sched y) ++ [Msg.Session m]) (sched y)) (waiting y) (stuck y))
| step_resume m q i x (r : bool) s1 out y : Scheduler.task_queue_ (sched y) = Msg.Session m :: q -> sides y !! i = Some x ->
    Scheduler.handle swapcontext (Msg.Session m) (sched y) = Some (r, s1) -> sent_of s1 = sent_of (sched y) ++ out ->
    step y (if r then resumed (Msg.ms_biz_procedure m) i x s1 out y else failed [addressee m] s1 y)
| step_request r y s' : s' = Scheduler.with_queue (Scheduler.task_queue_ (sched y) ++ [Msg.NewReq r]) (sched y) ->
    step y (mkSys (sides y) s' (waiting y) (stuck y))
| step_start n q i x b s0 (r : bool) s1 out y : Scheduler.task_queue_ (sched y) = Msg.NewReq n :: q -> sides y !! i = Some x ->
    Scheduler.GetBizProcedure (sched y) = Some (b, s0) ->
    Scheduler.handle swapcontext (Msg.NewReq n) (sched y) = Some (r, s1) -> sent_of s1 = sent_of (sched y) ++ out ->
    step y (if r then resumed b i x s1 out y else failed [] s1 y).

(** What the calls of IOBasic.v do before they give up the processor: nothing
    was sent and the call goes on, or one session was, which names its
    procedure.  This is why [cooperative] can be asked of procedures; that a
    procedure ends with [FreeBizProcedure] is the last line of
    [BizProcedure.Process_]. *)
Class OutboxSpec `{AM : !AgentMail W2} : Prop := {
  outbox_send id m w : outbox (agents_SendMsg id m w).2 = outbox w ++ (if (agents_SendMsg id m w).1 then started m else []);
}.
Lemma send_and_wait_sends `{OS2 : OutboxSpec} (yield : ptr -> M (BizProcedure.Thread W2) ()) b v timeo s r s' :
  IOBasic.send_and_wait yield b v timeo s = Some (r, s') ->
  (r = false /\ outbox (BizProcedure.t_world s') = outbox (BizProcedure.t_world s)) \/
  (r = true /\ exists s1, yield b s1 = Some ((), s') /\
     outbox (BizProcedure.t_world s1) = outbox (BizProcedure.t_world s) ++ [Msg.BuildForSession b b v timeo ErrorNo.kOk]).
Proof.
  intros E. unfold IOBasic.send_and_wait in E. step E as x s0 E0. step E0 as y s1 E1. injection E1 as <- <-. apply deref_inv in E0 as [_ ->].
  step E as ok s1 E1. apply zoom_inv in E1 as (w & Ew & ->). unfold call in Ew.
  pose proof (outbox_send (BizProcedure.id_procedure_ x) (Msg.Session (Msg.BuildForSession b b v timeo ErrorNo.kOk)) (BizProcedure.t_world s)) as H.
  destruct (agents_SendMsg _ _ _) as [ok' w'] eqn:Em. injection Ew as -> ->. cbn in H. destruct ok.
  - step E as [] s2 E2. injection E as <- <-. right. split; [done|]. eexists. by split.
  - injection E as <- <-. left. split; [done|]. cbn. by rewrite H, app_nil_r.
Qed.

(** The sessions of one agent that are on their way, and those in the queue. *)
Definition travelling (act : list Z) (x : Side) : list (ptr * ptr * ptr) :=
  (addressee <$> inbox x) ++ owed act (agent x) ++ (addressee <$> drop (taken x) (answered (world (agent x)))).
Definition queued (q : list Msg.Msg) : list (ptr * ptr * ptr) := addressee <$> (q ≫= started).

(** The procedures [held] are objects and are not in the pool. *)
Definition pool_ok (s : Scheduler.Scheduler W2) (held : list ptr) : Prop := Store.ok (procs_of s) /\
  exists l, PoolObjs.valid (Scheduler.pool_biz_procedure_ s) l /\ NoDup (l ++ held) /\ forall b, b ∈ l ++ held -> is_Some (Store.load (procs_of s) b).
Definition names (l : list (ptr * ptr * ptr)) : list ptr := (fun e => e.1.2) <$> l.

Record inv (y : Sys) (acts : list (list Z)) : Prop := {
  i_sides : Forall2 (fun act x => agent_inv [] [] act (agent x) /\ undone act (agent x) /\ (taken x <= length (answered (world (agent x))))%nat) acts (sides y);
  i_pool : pool_ok (sched y) (names (waiting y));
  i_self : Forall (fun e => e.1.1 = e.1.2) (waiting y);
  i_account : waiting y ≡ₚ concat (zip_with travelling acts (sides y)) ++ queued (Scheduler.task_queue_ (sched y)) ++ stuck y;
}.

(** *** The pool of procedures *)

#[local] Instance pool_ok_perm s : Proper ((≡ₚ) ==> iff) (pool_ok s).
Proof.
  assert (forall h h', h ≡ₚ h' -> pool_ok s h -> pool_ok s h') as H; [|intros h h' P; split; by apply H].
  intros h h' P (So & l & V & N & L). split; [done|]. exists l. split_and!; [done|by rewrite <- P|]. intros b. rewrite <- P. apply L.
Qed.
#[local] Instance calm_preorder : PreOrder calm.
Proof. split; [by split|]. intros a b c [A1 A2 A3 A4] [B1 B2 B3 B4]. split; [congruence..|auto|auto]. Qed.
Lemma pool_ok_calm s s' h : calm s s' -> pool_ok s h -> pool_ok s' h.
Proof.
  intros [_ Cp Cs Cl] (So & l & V & N & L). split; [auto|]. exists l. rewrite Cp. split_and!; auto.
Qed.
Lemma pool_ok_queue q s h : pool_ok s h -> pool_ok (Scheduler.with_queue q s) h.
Proof. done. Qed.
Lemma pool_ok_drop b s h : pool_ok s (b :: h) -> pool_ok s h.
Proof.
  intros (So & l & V & N & L). split; [done|]. exists l. rewrite <- Permutation_middle in N. apply list.NoDup_cons in N as [_ N].
  split_and!; [done|done|]. intros c Hc. apply L. rewrite elem_of_app, elem_of_cons in *. naive_solver.
Qed.
Lemma pool_ok_get b s s' h : pool_ok s h -> Scheduler.GetBizProcedure s = Some (b, s') -> pool_ok s' (b :: h).
Proof.
  intros (So & l & V & N & L) E. unfold Scheduler.GetBizProcedure in E.
  destruct (PoolObjs.Get_spec _ l (procs_of s) V So) as (o & l' & p' & st' & G & V' & So' & _ & K & Cs). rewrite G in E. injection E as <- <-.
  split; [done|]. exists l'. cbn [Scheduler.pool_biz_procedure_ Scheduler.thread Scheduler.with_procs BizProcedure.procs]. split; [done|].
  destruct Cs as [[-> ->]|(-> & Nd & Nw)]; [rewrite <- app_assoc in N, L; by split|]. cbn in N, L. split.
  - change (o :: h) with ([o] ++ h). rewrite app_assoc. apply list.NoDup_app. split_and!; [done| |done]. intros c Hc Hh.
    destruct (Nw c Hc) as [Hn _]. destruct (proj2 So c (L c Hh)). lia.
  - intros c. change (o :: h) with ([o] ++ h). rewrite app_assoc, elem_of_app. intros [Hc|Hc]; [eexists; by apply Nw|].
    destruct (L c Hc) as [x Hx]. eexists. by apply K.
Qed.
Lemma pool_ok_free b s s' h : pool_ok s (b :: h) -> Scheduler.FreeBizProcedure b s = Some ((), s') ->
  pool_ok s' h /\ Scheduler.task_queue_ s' = Scheduler.task_queue_ s.
Proof.
  intros Po E. pose proof Po as (So & l & V & N & L). unfold Scheduler.FreeBizProcedure in E.
  destruct (PoolObjs.Free_valid _ l b (procs_of s) V) as (p' & l' & Ef & V' & _ & [->| ->]); rewrite Ef in E; injection E as <-; (split; [|done]).
  - split; [done|]. exists (l ++ [b]). split; [done|]. by rewrite <- app_assoc.
  - apply pool_ok_drop in Po as (_ & k & Vk & Nk & Lk). split; [done|]. exists l. split; [done|].
    rewrite <- Permutation_middle in N. apply list.NoDup_cons in N as [_ N]. split; [done|]. intros c Hc. apply L.
    rewrite elem_of_app, elem_of_cons in *. naive_solver.
Qed.
(** A procedure that ran is held while it waits. *)
Lemma pool_ok_ran b out s s' h : pool_ok s (b :: h) -> ran b out s s' ->
  pool_ok s' (names (addressee <$> out) ++ h) /\ Scheduler.task_queue_ s' = Scheduler.task_queue_ s.
Proof.
  intros Po [((v & timeo & e & ->) & C)|(-> & s1 & C & E)].
  - split; [by eapply pool_ok_calm|apply C].
  - eapply pool_ok_calm in Po; [|exact C]. destruct (pool_ok_free _ _ _ _ Po E) as [Po' Eq]. split; [done|]. rewrite Eq. apply C.
Qed.

(** Changing one side. *)
Lemma concat_insert acts (xs : list Side) i act x act' x' : acts !! i = Some act -> xs !! i = Some x ->
  exists rest, concat (zip_with travelling acts xs) ≡ₚ travelling act x ++ rest /\
    concat (zip_with travelling (<[i := act']> acts) (<[i := x']> xs)) ≡ₚ travelling act' x' ++ rest.
Proof.
  revert xs i. induction acts as [|b acts IH]; intros [|z xs] [|i] Ha Hx; try done; cbn in *.
  - injection Ha as ->. injection Hx as ->. by eexists.
  - destruct (IH xs i Ha Hx) as (rest & P1 & P2). exists (travelling b z ++ rest). rewrite P1, P2. split; solve_Permutation.
Qed.

(** An agent's step moves its sessions along. *)
Lemma agent_travels act x o a' rest : conf_timeo conf -> agent_inv [] [] act (agent x) -> undone act (agent x) ->
  (taken x <= length (answered (world (agent x))))%nat -> Runs.step conf (agent x) o a' -> inbox x = news o ++ rest ->
  exists act', agent_inv [] [] act' a' /\ undone act' a' /\ (taken x <= length (answered (world a')))%nat /\
    travelling act' (mkSide a' rest (taken x)) ++ (addressee <$> deads o) ≡ₚ travelling act x.
Proof.
  intros Cf Inv U Lt H Ib. destruct (step_settled conf act (agent x) o a' Cf Inv U H) as [act' [I' U' Ac [ms An]]].
  exists act'. split_and!; [done|done|rewrite An, length_app; lia|]. unfold travelling. cbn [inbox agent taken].
  unfold accounts in Ac. rewrite An, fmap_app, <- !app_assoc in Ac. apply Permutation_app_inv_l in Ac.
  rewrite An, drop_app_le, fmap_app, Ib, fmap_app by done.
  assert (owed act' a' ++ (addressee <$> ms) ++ (addressee <$> deads o) ≡ₚ owed act (agent x) ++ (addressee <$> news o)) as P by (rewrite <- Ac; solve_Permutation).
  transitivity ((addressee <$> rest) ++ (addressee <$> drop (taken x) (answered (world (agent x)))) ++ owed act' a' ++ (addressee <$> ms) ++ (addressee <$> deads o)); [solve_Permutation|].
  rewrite P. solve_Permutation.
Qed.

(** ** Handling a task *)

Lemma switch_law b s r s1 out : cooperative -> Scheduler.switch swapcontext b b s = Some (r, s1) -> sent_of s1 = sent_of s ++ out ->
  if r then ran b out s s1 else calm s s1.
Proof.
  intros Co E Eo. unfold Scheduler.switch in E. step E as ok s2 E2. apply Scheduler.SetCurrent_inv in E2 as (w & Es & ->).
  pose proof (outbox_slot (BizProcedure.t_world (Scheduler.thread s))) as Os. rewrite Es in Os. cbn in Os.
  match type of E with _ ?z = _ => assert (calm s z) as C by by split end.
  destruct ok; cbn [negb] in E; [|by injection E as <- <-]. step E as z s3 E3. injection E as <- <-. specialize (Co _ _ _ _ E3).
  destruct (z =? 0); [|by subst s3]. destruct Co as (out' & Eo' & R). unfold sent_of in *. cbn in Eo'. rewrite Os, Eo in Eo'.
  apply app_inv_head in Eo' as ->. destruct R as [[H R]|(-> & s4 & R & F)]; [left; split; [done|by etransitivity]|right].
  split; [done|]. exists s4. split; [by etransitivity|done].
Qed.

(** Storing into an object that is there. *)
Lemma store_calm b x x0 s (t := BizProcedure.mkThread (Store.store b x (procs_of s)) (BizProcedure.vectors (Scheduler.thread s)) (BizProcedure.t_protos (Scheduler.thread s)) (BizProcedure.t_world (Scheduler.thread s))) :
  Store.load (procs_of s) b = Some x0 -> calm s (Scheduler.with_thread t s) /\ sent_of (Scheduler.with_thread t s) = sent_of s.
Proof.
  intros L. split; [|done]. split; [done|done| |]; cbn.
  - intros So. apply Store.ok_store; [done|by eexists].
  - intros c Hc. destruct (decide (b = c)) as [<-|Ne]; [eexists; apply Store.load_store|by rewrite Store.load_store_ne].
Qed.
Lemma load_proc_inv b x (t t' : BizProcedure.Thread W2) : BizProcedure.load b t = Some (x, t') -> t' = t /\ Store.load (BizProcedure.procs t) b = Some x.
Proof. intros E. unfold BizProcedure.load in E. step E as y t1 E1. injection E1 as <- <-. by apply deref_inv in E as [? ->]. Qed.

(** The task of a session resumes the procedure the session names, that of a
    request the one the pool gives. *)
Lemma resume_law m s r s1 out : cooperative -> Msg.ms_biz_ctx m = Msg.ms_biz_procedure m ->
  Scheduler.handle swapcontext (Msg.Session m) s = Some (r, s1) -> sent_of s1 = sent_of s ++ out ->
  exists s0, calm s s0 /\ if r then ran (Msg.ms_biz_procedure m) out s0 s1 else calm s0 s1.
Proof.
  intros Co Ec E Eo. cbn [Scheduler.handle] in E. rewrite Ec in E. step E as [] s2 E2. apply zoom_inv in E2 as (t & Et & ->).
  unfold BizProcedure.SetMsgSession in Et. step Et as x t1 E1. apply load_proc_inv in E1 as [-> L]. injection Et as <-.
  match type of E with _ ?z = _ => assert (calm s z /\ sent_of z = sent_of s) as [C Sn] by exact (store_calm _ _ _ s L) end. eexists. split; [exact C|]. eapply switch_law; [done|exact E|]. by rewrite Sn.
Qed.
Lemma new_session_law n b s0 s r s1 out : cooperative -> Scheduler.GetBizProcedure s = Some (b, s0) ->
  Scheduler.handle swapcontext (Msg.NewReq n) s = Some (r, s1) -> sent_of s1 = sent_of s ++ out ->
  exists s2, calm s0 s2 /\ if r then ran b out s2 s1 else calm s2 s1.
Proof.
  intros Co Eb E Eo. cbn [Scheduler.handle] in E. rewrite (bind_run _ _ _ _ _ Eb) in E. step E as [] s2 E2. apply zoom_inv in E2 as (t & Et & ->).
  unfold BizProcedure.Procedure in Et. step Et as x t1 E1. apply load_proc_inv in E1 as [-> L]. injection Et as <-.
  assert (sent_of s0 = sent_of s) as S0.
  { unfold Scheduler.GetBizProcedure in Eb. destruct (PoolObjs.Get _ _) as [[[[?|] ?] ?]|]; try done. by injection Eb as <- <-. }
  match type of E with _ ?z = _ => assert (calm s0 z /\ sent_of z = sent_of s0) as [C Sn] by exact (store_calm _ _ _ s0 L) end. eexists. split; [exact C|]. eapply switch_law; [done|exact E|]. by rewrite Sn, S0.
Qed.
Lemma get_queue b s s0 : Scheduler.GetBizProcedure s = Some (b, s0) -> Scheduler.task_queue_ (W := W2) s0 = Scheduler.task_queue_ s.
Proof. unfold Scheduler.GetBizProcedure. destruct (PoolObjs.Get _ _) as [[[[?|] ?] ?]|]; try done. by intros [= _ <-]. Qed.

(** Running procedure [b], which is the only one its message was for. *)
Lemma resumed_inv y acts b i x act s0 s1 out w0 : inv y acts -> sides y !! i = Some x -> acts !! i = Some act ->
  filter (fun e => e.1.2 <> b) (waiting y) ≡ₚ w0 -> pool_ok s0 (b :: names w0) -> ran b out s0 s1 ->
  w0 ≡ₚ concat (zip_with travelling acts (sides y)) ++ queued (tail (Scheduler.task_queue_ s0)) ++ stuck y -> inv (resumed b i x s1 out y) acts.
Proof.
  intros [Fa _ Fs _] Hx Ha P0 Po R P1. destruct (pool_ok_ran _ _ _ _ _ Po R) as [Po' Eq].
  split; cbn [resumed sides sched waiting stuck Scheduler.with_queue Scheduler.task_queue_].
  - rewrite <- (list_insert_id acts i act) by done. apply Forall2_insert; [done|]. cbn. by apply (list.Forall2_lookup_lr _ _ _ _ _ _ Fa Ha Hx).
  - apply pool_ok_queue. eapply pool_ok_perm; [|exact Po']. unfold names. rewrite fmap_app, P0. apply Permutation_app_comm.
  - apply Forall_app. split; [rewrite list.Forall_forall in *; intros e [_ He]%list_elem_of_filter; auto|]. destruct R as [[(v & timeo & e & ->) _]|[-> _]]; by repeat constructor.
  - rewrite P0, P1, Eq. destruct (concat_insert acts (sides y) i act x act (mkSide (agent x) (inbox x ++ out) (taken x)) Ha Hx) as (rest & Q1 & Q2).
    rewrite (list_insert_id acts i act) in Q2 by done. rewrite Q1, Q2. unfold travelling. cbn [inbox agent taken]. rewrite fmap_app. solve_Permutation.
Qed.
(** Nothing ran. *)
Lemma failed_inv y acts e s1 : inv y acts -> pool_ok s1 (names (waiting y)) ->
  waiting y ≡ₚ concat (zip_with travelling acts (sides y)) ++ queued (tail (Scheduler.task_queue_ s1)) ++ stuck y ++ e -> inv (failed e s1 y) acts.
Proof. intros [Fa _ Fs _] Po P. by split. Qed.

Lemma filter_all (b : ptr) (l : list (ptr * ptr * ptr)) : b ∉ names l -> filter (fun e => e.1.2 <> b) l = l.
Proof.
  induction l as [|e l IH]; intros N; [done|]. cbn in N. rewrite not_elem_of_cons in N. destruct N as [N1 N2].
  rewrite filter_cons_True by congruence. by rewrite IH.
Qed.
Lemma queued_app q q' : queued (q ++ q') = queued q ++ queued q'.
Proof. unfold queued. by rewrite bind_app, fmap_app. Qed.
Lemma pool_ok_head s b h : pool_ok s (b :: h) -> b ∉ h.
Proof. intros (_ & l & _ & N & _). apply list.NoDup_app in N as (_ & _ & N). by apply list.NoDup_cons in N as [N _]. Qed.

(** A procedure that is resumed was waiting for this very message. *)
Lemma resume_account y acts m q : inv y acts -> Scheduler.task_queue_ (sched y) = Msg.Session m :: q ->
  exists w0, waiting y ≡ₚ addressee m :: w0 /\ w0 ≡ₚ concat (zip_with travelling acts (sides y)) ++ queued q ++ stuck y /\
    Msg.ms_biz_ctx m = Msg.ms_biz_procedure m /\ filter (fun e => e.1.2 <> Msg.ms_biz_procedure m) (waiting y) ≡ₚ w0.
Proof.
  intros [_ Po Fs Ac] Hq. set (w0 := concat (zip_with travelling acts (sides y)) ++ queued q ++ stuck y). exists w0.
  assert (waiting y ≡ₚ addressee m :: w0) as P.
  { rewrite Ac, Hq. subst w0. change (queued (Msg.Session m :: q)) with ([addressee m] ++ queued q). solve_Permutation. }
  split_and!; [done|done|rewrite P in Fs; by apply list.Forall_cons in Fs as [? _]|].
  unfold names in Po. rewrite P in Po. apply pool_ok_head in Po. rewrite P, filter_cons_False by (cbn; auto). by rewrite filter_all.
Qed.

Lemma agent_step_inv y acts i x o a' rest : conf_timeo conf -> inv y acts -> sides y !! i = Some x -> Runs.step conf (agent x) o a' ->
  inbox x = news o ++ rest ->
  exists acts', inv (mkSys (<[i := mkSide a' rest (taken x)]> (sides y)) (sched y) (waiting y) (stuck y ++ (addressee <$> deads o))) acts'.
Proof.
  intros Cf [Fa Po Fs Ac] Hx Hs Ib. destruct (list.Forall2_lookup_r _ _ _ _ _ Fa Hx) as (act & Ha & A1 & A2 & A3).
  destruct (agent_travels act x o a' rest Cf A1 A2 A3 Hs Ib) as (act' & B1 & B2 & B3 & P). exists (<[i := act']> acts).
  destruct (concat_insert acts (sides y) i act x act' (mkSide a' rest (taken x)) Ha Hx) as (r & Q1 & Q2).
  split; cbn [sides sched waiting stuck]; [by apply Forall2_insert|done|done|]. rewrite Ac, Q1, Q2, <- P. solve_Permutation.
Qed.
Lemma deliver_inv y acts i x m : inv y acts -> sides y !! i = Some x -> answered (world (agent x)) !! taken x = Some m ->
  exists acts', inv (mkSys (<[i := mkSide (agent x) (inbox x) (S (taken x))]> (sides y))
    (Scheduler.with_queue (Scheduler.task_queue_ (sched y) ++ [Msg.Session m]) (sched y)) (waiting y) (stuck y)) acts'.
Proof.
  intros [Fa Po Fs Ac] Hx Hm. destruct (list.Forall2_lookup_r _ _ _ _ _ Fa Hx) as (act & Ha & A1 & A2 & A3). exists (<[i := act]> acts).
  destruct (concat_insert acts (sides y) i act x act (mkSide (agent x) (inbox x) (S (taken x))) Ha Hx) as (r & Q1 & Q2).
  apply lookup_lt_Some in Hm as Hl. split; cbn [sides sched waiting stuck Scheduler.with_queue Scheduler.task_queue_]; [by apply Forall2_insert|done|done|].
  rewrite Ac, Q1, Q2, queued_app. unfold travelling. cbn [inbox agent taken]. rewrite (drop_S _ _ _ Hm), fmap_cons. change (queued [Msg.Session m]) with [addressee m]. solve_Permutation.
Qed.
Lemma resume_inv y acts m q i x (r : bool) s1 out : cooperative -> inv y acts -> Scheduler.task_queue_ (sched y) = Msg.Session m :: q ->
  sides y !! i = Some x -> Scheduler.handle swapcontext (Msg.Session m) (sched y) = Some (r, s1) -> sent_of s1 = sent_of (sched y) ++ out ->
  inv (if r then resumed (Msg.ms_biz_procedure m) i x s1 out y else failed [addressee m] s1 y) acts.
Proof.
  intros Co I Hq Hx E Eo. pose proof I as [Fa Po _ _]. destruct (list.Forall2_lookup_r _ _ _ _ _ Fa Hx) as (act & Ha & _).
  destruct (resume_account y acts m q I Hq) as (w0 & P & P1 & Ec & P0). destruct (resume_law _ _ _ _ _ Co Ec E Eo) as (s0 & C & R).
  apply (pool_ok_calm _ _ _ C) in Po. destruct r.
  - eapply resumed_inv; [done..| |exact R|by rewrite (ca_queue _ _ C), Hq]. unfold names in *. by rewrite P in Po.
  - apply failed_inv; [done|by eapply pool_ok_calm|]. rewrite (ca_queue _ _ R), (ca_queue _ _ C), Hq, P, P1. cbn [tail]. solve_Permutation.
Qed.
Lemma new_inv y acts n q i x b s0 (r : bool) s1 out : cooperative -> inv y acts -> Scheduler.task_queue_ (sched y) = Msg.NewReq n :: q ->
  sides y !! i = Some x -> Scheduler.GetBizProcedure (sched y) = Some (b, s0) ->
  Scheduler.handle swapcontext (Msg.NewReq n) (sched y) = Some (r, s1) -> sent_of s1 = sent_of (sched y) ++ out ->
  inv (if r then resumed b i x s1 out y else failed [] s1 y) acts.
Proof.
  intros Co I Hq Hx Eb E Eo. pose proof I as [Fa Po _ Ac]. destruct (list.Forall2_lookup_r _ _ _ _ _ Fa Hx) as (act & Ha & _).
  destruct (new_session_law _ _ _ _ _ _ _ Co Eb E Eo) as (s2 & C & R). pose proof (get_queue _ _ _ Eb) as Gq.
  eapply pool_ok_get in Po; [|exact Eb]. apply (pool_ok_calm _ _ _ C) in Po. rewrite Hq in Ac, Gq. destruct r.
  - eapply (resumed_inv y acts b i x act s2 s1 out (waiting y)); [done..| |exact Po|exact R|by rewrite (ca_queue _ _ C), Gq].
    by rewrite filter_all by by eapply pool_ok_head.
  - apply failed_inv; [done|eapply pool_ok_calm; [exact R|by eapply pool_ok_drop]|]. rewrite (ca_queue _ _ R), (ca_queue _ _ C), Gq, app_nil_r. exact Ac.
Qed.
Lemma step_inv y y' acts : conf_timeo conf -> cooperative -> step y y' -> inv y acts -> exists acts', inv y' acts'.
Proof.
  intros Cf Co H I. destruct H as [i x o a' rest y Hx Hs Ib|i x m y Hx Hm|m q i x r s1 out y Hq Hx E Eo|n y s' ->|n q i x b s0 r s1 out y Hq Hx Eb E Eo].
  - by eapply agent_step_inv.
  - by eapply deliver_inv.
  - exists acts. by eapply resume_inv.
  - exists acts. destruct I as [Fa Po Fs Ac]. split; cbn [sides sched waiting stuck Scheduler.with_queue Scheduler.task_queue_]; [done..|].
    rewrite Ac, queued_app. by rewrite app_nil_r.
  - exists acts. by eapply new_inv.
Qed.

(** ** Every run *)

(** Agents that are ready, a pool of procedures, and nothing on its way. *)
Definition idle_sys (y : Sys) : Prop :=
  Forall (fun x => agent_inv [] [] [] (agent x) /\ answered (world (agent x)) = [] /\ inbox x = [] /\ taken x = 0%nat) (sides y) /\
  queued (Scheduler.task_queue_ (sched y)) = [] /\ pool_ok (sched y) [] /\ waiting y = [] /\ stuck y = [].

Lemma idle_inv y : idle_sys y -> inv y (replicate (length (sides y)) []).
Proof.
  intros (Fx & Hq & Po & Hw & Hs). assert (Forall2 (fun (act : list Z) x => act = [] /\ agent_inv [] [] [] (agent x) /\ answered (world (agent x)) = [] /\ inbox x = [] /\ taken x = 0%nat)
    (replicate (length (sides y)) []) (sides y)) as F.
  { clear Hq Hw. induction Fx as [|x l H _ IH]; cbn; constructor; [by split|exact IH]. }
  split; rewrite ?Hw, ?Hq, ?Hs; [|done|constructor|].
  - eapply list.Forall2_impl; [exact F|]. cbn. intros act x (-> & ? & -> & _ & ->). split_and!; [done|by intros s []%not_elem_of_nil|done].
  - rewrite app_nil_r. revert F. generalize (replicate (length (sides y)) ([] : list Z)) (sides y). intros acts xs F.
    induction F as [|act x l k (-> & _ & H1 & H2 & H3) _ IH]; [done|]. cbn. rewrite <- IH, app_nil_r. unfold travelling. by rewrite H1, H2, H3.
Qed.

(** C2: agents and a scheduler working together, their threads interleaved in
    any way: the procedures that wait are, one for one, those whose session is
    on its way to an agent, is being served by one, comes back as an answer that
    was sent or that is in the queue of the scheduler, or is stuck.  A procedure
    waits for one session at a time, and while it waits it is not in the pool,
    so that no request gets it; hence it is resumed exactly once for each
    session and never while it is not waiting; when nothing is on its way, only
    the stuck ones wait.  Stuck are those whose session was dead (see [start_answers])
    and those to which the scheduler could not switch, because its thread had no
    slot for the current procedure or [swapcontext] failed.  Assumed: a
    procedure gives up the processor right after it has sent a session and gives
    its object back when it ends ([cooperative]); a mailbox delivers each
    message once and in order; agents' steps are those of [run]. *)
Theorem no_lost_wakeup y0 y : conf_timeo conf -> cooperative -> idle_sys y0 -> rtc step y0 y ->
  exists acts, length acts = length (sides y) /\
    (forall i act x, acts !! i = Some act -> sides y !! i = Some x -> agent_inv [] [] act (agent x) /\ forall s, s ∈ act -> 0 < waits (agent x) s) /\
    waiting y ≡ₚ concat (zip_with travelling acts (sides y)) ++ queued (Scheduler.task_queue_ (sched y)) ++ stuck y /\
    NoDup (names (waiting y)) /\ pool_ok (sched y) (names (waiting y)).
Proof using All.
  intros Cf Co Id R. assert (exists acts, inv y acts) as [acts [Fa Po _ Ac]].
  { apply idle_inv in Id. revert Id. generalize (replicate (length (sides y0)) ([] : list Z)). induction R as [|y1 y2 y3 H _ IH]; intros acts I; [eauto|].
    destruct (step_inv _ _ _ Cf Co H I) as [acts' I']. by eapply IH. }
  exists acts. split; [by eapply Forall2_length|]. split_and!; [|done| |done].
  - intros i act x Ha Hx. destruct (list.Forall2_lookup_lr _ _ _ _ _ _ Fa Ha Hx) as (A1 & A2 & _). split; [done|]. by apply undone_all.
  - destruct Po as (_ & l & _ & N & _). by apply list.NoDup_app in N as (_ & _ & N).
Qed.
End Wakeups.
End Wakeups.
