(* ===== verification/Mail.v ===== *)
(** * Mail: messages as bytes in a mailbox

    Between threads a message is the bytes of its object: [AgentSlave::SendMsg]
    and [Scheduler::SendMsg] hand [sizeof] bytes to the ring of Pipe.v, and
    [ReceiveMsg_] reads the fields of the class through a pointer into the ring.
    This file has the objects of src/src/msg.h as the compiler lays them out (64
    bits, little endian, the System V rules for alignment), with bytes of padding
    and unused fields that may be anything, the operations of agent_slave.h,
    scheduler.h and schedulers.h that send and receive them, and the mailbox of
    a scheduler on top of them. *)

From Stdlib Require Import ZArith Lia Ascii String.
From stdpp Require Import base list gmap strings numbers option.
From S2P Require Import Prelude Protocol IOHelper Model ConnsMgr PoolObjs Protocols Confs EventCtx Msg Session IOBasic Pipe Race Scheduler.

(** ** Objects *)

Module Layout.

(** The objects of msg.h; a pointer is an address, 0 is [NULL]. *)
Inductive Object :=
| MsgConfig
| MsgReadReq (id_procedure fd_client listen_addr fd_client_starttime_sec : Z)
| MsgNewReq (id_procedure fd_client fd_client_starttime_sec protocol_read : Z)
| MsgSession (biz_ctx biz_procedure talks timeo_ms error : Z)
| MsgDestruct (id_procedure fd_client fd_client_starttime_sec protocol_read : Z)
    (small_cache : list (Z * Z)) (big_cache : Z).

Definition category (o : Object) : Z :=
  match o with
  | MsgConfig => 1 | MsgReadReq _ _ _ _ => 2 | MsgNewReq _ _ _ _ => 3 | MsgSession _ _ _ _ _ => 4
  | MsgDestruct _ _ _ _ _ _ => 5
  end.

(** [sizeof] of the classes, which their constructors put into [size]. *)
Definition sizeof (category : Z) : Z :=
  if category =? 1 then 8 else if category =? 2 then 32 else if category =? 3 then 32
  else if category =? 4 then 48 else 288.

(** What is in bytes that nobody writes. *)
Section Bytes.
Variable junk : nat -> ascii.
Definition padding (n : nat) : bytes := junk <$> seq 0 n.

(** An element of [small_cache.small_cache]: a pair of an [int] and a pointer. *)
Definition pair_bytes (e : Z * Z) : bytes := le_bytes 4 e.1 ++ padding 4 ++ le_bytes 8 e.2.
Definition small_bytes (l : list (Z * Z)) : bytes :=
  (l ≫= pair_bytes) ++ padding (16 * (Msg.kSizeSmallCache - length l)).

Definition fields (o : Object) : bytes :=
  match o with
  | MsgConfig => []
  | MsgReadReq id fd la t => le_bytes 4 id ++ le_bytes 4 fd ++ le_bytes 8 la ++ le_bytes 8 t
  | MsgNewReq id fd t pr => le_bytes 4 id ++ le_bytes 4 fd ++ le_bytes 8 t ++ le_bytes 8 pr
  | MsgSession ctx proc talks timeo error =>
      le_bytes 8 ctx ++ le_bytes 8 proc ++ le_bytes 8 talks ++ le_bytes 8 timeo ++ le_bytes 4 error ++ padding 4
  | MsgDestruct id fd t pr small big =>
      le_bytes 4 id ++ le_bytes 4 fd ++ le_bytes 8 t ++ le_bytes 8 pr ++ small_bytes small ++
      (if big =? 0 then le_bytes 8 (Z.of_nat (length small)) else padding 8) ++ le_bytes 8 big
  end.

(** The bytes at the address of a message. *)
Definition object (o : Object) : bytes :=
  le_bytes 4 (category o) ++ le_bytes 4 (sizeof (category o)) ++ fields o.
End Bytes.

(** ** Reading the fields *)

Definition next (n : nat) : M bytes bytes := fun bs =>
  if decide (n <= length bs)%nat then Some (take n bs, drop n bs) else None.
Definition int32 : M bytes Z := b ← next 4; mret (i32 (le_val b)).
Definition int64 : M bytes Z := b ← next 8; mret (i64 (le_val b)).
Definition word64 : M bytes Z := b ← next 8; mret (le_val b).
Definition read_pair : M bytes (Z * Z) := fd ← int32; next 4;; r ← word64; mret (fd, r).
Fixpoint read_pairs (n : nat) : M bytes (list (Z * Z)) :=
  match n with
  | O => mret []
  | S n => e ← read_pair; l ← read_pairs n; mret (e :: l)
  end.

(** What a receiver finds at a pointer to a message: the category says which
    class it is cast to; [HandleMsgDestruct_] uses the small cache only when
    there is no big one. *)
Definition read_object : M bytes Object :=
  c ← int32;
  next 4;;
  if c =? 1 then mret MsgConfig
  else if c =? 2 then id ← int32; fd ← int32; la ← word64; t ← int64; mret (MsgReadReq id fd la t)
  else if c =? 3 then id ← int32; fd ← int32; t ← int64; pr ← word64; mret (MsgNewReq id fd t pr)
  else if c =? 4 then
    ctx ← word64; proc ← word64; talks ← word64; timeo ← int64; error ← int32; next 4;;
    mret (MsgSession ctx proc talks timeo error)
  else if c =? 5 then
    id ← int32; fd ← int32; t ← int64; pr ← word64; small ← read_pairs Msg.kSizeSmallCache; num ← word64; big ← word64;
    mret (MsgDestruct id fd t pr (if big =? 0 then take (Z.to_nat num) small else []) big)
  else ub.

(** The fields have the range of their types, and a small cache its size. *)
Definition pair_ok (e : Z * Z) : Prop := in_sint 32 e.1 /\ in_uint 64 e.2.
Definition object_ok (o : Object) : Prop :=
  match o with
  | MsgConfig => True
  | MsgReadReq id fd la t => in_sint 32 id /\ in_sint 32 fd /\ in_uint 64 la /\ in_sint 64 t
  | MsgNewReq id fd t pr => in_sint 32 id /\ in_sint 32 fd /\ in_sint 64 t /\ in_uint 64 pr
  | MsgSession ctx proc talks timeo error =>
      in_uint 64 ctx /\ in_uint 64 proc /\ in_uint 64 talks /\ in_sint 64 timeo /\ in_sint 32 error
  | MsgDestruct id fd t pr small big =>
      in_sint 32 id /\ in_sint 32 fd /\ in_sint 64 t /\ in_uint 64 pr /\ in_uint 64 big /\ Forall pair_ok small /\
      (if big =? 0 then (length small <= Msg.kSizeSmallCache)%nat else length small = 0%nat)
  end.

Lemma next_app n b rest : length b = n -> next n (b ++ rest) = Some (b, rest).
Proof.
  intros E. unfold next. rewrite decide_True by (rewrite length_app; lia). by rewrite take_app_length', drop_app_length'.
Qed.

Lemma le_val_sint n w z : w = 8 * Z.of_nat n -> (0 < n)%nat -> in_sint w z -> swrap w (le_val (le_bytes n z)) = z.
Proof.
  intros -> Hn Hz. rewrite le_val_bytes. change 256 with (2 ^ 8). rewrite <- Z.pow_mul_r by lia.
  rewrite <- (swrap_small (8 * Z.of_nat n) z ltac:(lia) Hz) at 2. unfold swrap. by rewrite Zplus_mod_idemp_l.
Qed.

Lemma int32_run z rest : in_sint 32 z -> int32 (le_bytes 4 z ++ rest) = Some (z, rest).
Proof.
  intros H. unfold int32. mrun (next_app 4 (le_bytes 4 z) rest (le_bytes_length 4 z)).
  by rewrite (le_val_sint 4 32) by (done || lia).
Qed.
Lemma int64_run z rest : in_sint 64 z -> int64 (le_bytes 8 z ++ rest) = Some (z, rest).
Proof.
  intros H. unfold int64. mrun (next_app 8 (le_bytes 8 z) rest (le_bytes_length 8 z)).
  by rewrite (le_val_sint 8 64) by (done || lia).
Qed.
Lemma word64_run z rest : in_uint 64 z -> word64 (le_bytes 8 z ++ rest) = Some (z, rest).
Proof.
  intros H. unfold word64. mrun (next_app 8 (le_bytes 8 z) rest (le_bytes_length 8 z)).
  rewrite le_val_bytes. rewrite Z.mod_small; [done|]. unfold in_uint in H. change (256 ^ Z.of_nat 8) with (2 ^ 64). lia.
Qed.

Section Reading.
Variable junk : nat -> ascii.

Lemma padding_length n : length (padding junk n) = n.
Proof. unfold padding. by rewrite length_fmap, length_seq. Qed.
Lemma skip_padding n rest : next n (padding junk n ++ rest) = Some (padding junk n, rest).
Proof. apply next_app, padding_length. Qed.

Lemma skip_word64 rest : word64 (padding junk 8 ++ rest) = Some (le_val (padding junk 8), rest).
Proof. unfold word64. by erewrite bind_run by apply skip_padding. Qed.

Lemma read_pair_run e rest : pair_ok e -> read_pair (pair_bytes junk e ++ rest) = Some (e, rest).
Proof.
  intros [H1 H2]. unfold read_pair, pair_bytes. rewrite <- !app_assoc. mrun (int32_run e.1 (padding junk 4 ++ le_bytes 8 e.2 ++ rest) H1).
  mrun (skip_padding 4 (le_bytes 8 e.2 ++ rest)). mrun (word64_run e.2 rest H2). by destruct e.
Qed.

(** Whatever is in the bytes, an element can be read. *)
Lemma read_pair_total bs : (16 <= length bs)%nat -> exists e, read_pair bs = Some (e, drop 16 bs).
Proof.
  intros L. rewrite <- (take_drop 16 bs). set (b := take 16 bs). assert (length b = 16%nat) as Lb by (unfold b; rewrite length_take; lia).
  rewrite drop_app_length' by done. generalize (drop 16 bs) as rest. intros rest.
  rewrite <- (take_drop 4 b), <- (take_drop 4 (drop 4 b)), <- !app_assoc. unfold read_pair, int32, word64.
  unfold mbind, M_bind. rewrite next_app by (rewrite length_take; lia). cbn.
  rewrite next_app by (rewrite length_take, length_drop; lia). rewrite next_app by (rewrite !length_drop; lia). by eexists.
Qed.
Lemma read_pairs_total n : forall bs, (16 * n <= length bs)%nat -> exists l, read_pairs n bs = Some (l, drop (16 * n) bs).
Proof.
  induction n as [|n IH]; intros bs L; cbn [read_pairs]; [by exists []; rewrite drop_0|].
  destruct (read_pair_total bs ltac:(lia)) as [e E]. mrun E. destruct (IH (drop 16 bs)) as [l El]; [rewrite length_drop; lia|].
  mrun El. exists (e :: l). rewrite drop_drop. by replace (16 * S n)%nat with (16 + 16 * n)%nat by lia.
Qed.

Lemma read_pairs_app n : forall l rest l' r, Forall pair_ok l -> read_pairs n rest = Some (l', r) ->
  read_pairs (length l + n) ((l ≫= pair_bytes junk) ++ rest) = Some (l ++ l', r).
Proof.
  intros l. induction l as [|e l IH]; intros rest l' r F E; [done|]. apply list.Forall_cons in F as [He F].
  cbn [length Nat.add read_pairs]. rewrite bind_cons, <- app_assoc.
  mrun (read_pair_run e ((l ≫= pair_bytes junk) ++ rest) He). mrun (IH rest l' r F E). done.
Qed.

Lemma small_run l rest : Forall pair_ok l -> (length l <= Msg.kSizeSmallCache)%nat ->
  exists l', read_pairs Msg.kSizeSmallCache (small_bytes junk l ++ rest) = Some (l ++ l', rest).
Proof.
  intros F L. unfold small_bytes. rewrite <- app_assoc. set (k := (Msg.kSizeSmallCache - length l)%nat).
  destruct (read_pairs_total k (padding junk (16 * k) ++ rest)) as [l' E]; [rewrite length_app, padding_length; lia|].
  rewrite drop_app_length' in E by (symmetry; apply padding_length). exists l'.
  rewrite <- (read_pairs_app k l _ l' rest F E). f_equal. unfold k. lia.
Qed.

(** What is sent is what is read. *)
Lemma object_read o rest : object_ok o -> read_object (object junk o ++ rest) = Some (o, rest).
Proof.
  intros H. unfold read_object, object. rewrite <- !app_assoc.
  rewrite (bind_run _ _ _ _ _ (int32_run (category o) _ ltac:(destruct o; unfold in_sint; cbn; lia))).
  rewrite (bind_run _ _ _ _ _ (next_app 4 (le_bytes 4 _) _ (le_bytes_length 4 _))).
  destruct o as [|id fd la t|id fd t pr|ctx proc talks timeo error|id fd t pr small big]; cbn [category fields Z.eqb Pos.eqb]; cbn in H.
  - done.
  - destruct H as (H1 & H2 & H3 & H4). rewrite <- !app_assoc. do 2 (erewrite bind_run by (by apply int32_run)).
    erewrite bind_run by (by apply word64_run). by erewrite bind_run by (by apply int64_run).
  - destruct H as (H1 & H2 & H3 & H4). rewrite <- !app_assoc. do 2 (erewrite bind_run by (by apply int32_run)).
    erewrite bind_run by (by apply int64_run). by erewrite bind_run by (by apply word64_run).
  - destruct H as (H1 & H2 & H3 & H4 & H5). rewrite <- !app_assoc. do 3 (erewrite bind_run by (by apply word64_run)).
    erewrite bind_run by (by apply int64_run). erewrite bind_run by (by apply int32_run). by erewrite bind_run by apply skip_padding.
  - destruct H as (H1 & H2 & H3 & H4 & H5 & F & L). rewrite <- !app_assoc. do 2 (erewrite bind_run by (by apply int32_run)).
    erewrite bind_run by (by apply int64_run). erewrite bind_run by (by apply word64_run).
    destruct (small_run small ((if big =? 0 then le_bytes 8 (Z.of_nat (length small)) else padding junk 8) ++ le_bytes 8 big ++ rest) F) as [l' El].
    { destruct (big =? 0); unfold Msg.kSizeSmallCache in *; lia. }
    erewrite bind_run by exact El. destruct (Z.eqb_spec big 0) as [->|Nz].
    + erewrite bind_run by (apply word64_run; unfold in_uint, Msg.kSizeSmallCache in *; lia). erewrite bind_run by (by apply word64_run).
      cbn [Z.eqb]. by rewrite Nat2Z.id, take_app_length.
    + erewrite bind_run by apply skip_word64. erewrite bind_run by (by apply word64_run). rewrite (proj2 (Z.eqb_neq _ _)) by done. by destruct small.
Qed.

Lemma object_length o : object_ok o -> Z.of_nat (length (object junk o)) = sizeof (category o).
Proof.
  intros H. assert (forall l, length (l ≫= pair_bytes junk) = (16 * length l)%nat) as Lp.
  { induction l as [|e l IH]; [done|]. rewrite bind_cons, length_app, IH. unfold pair_bytes.
    rewrite !length_app, !le_bytes_length, padding_length. cbn. lia. }
  unfold object. rewrite !length_app, !le_bytes_length.
  destruct o; cbn [fields category]; rewrite ?length_app, ?le_bytes_length, ?padding_length; try reflexivity.
  destruct H as (_ & _ & _ & _ & _ & _ & L). unfold small_bytes. rewrite !length_app, Lp, padding_length.
  assert (length (if big_cache =? 0 then le_bytes 8 (Z.of_nat (length small_cache)) else padding junk 8) = 8%nat) as ->
    by (destruct (big_cache =? 0); [apply le_bytes_length|apply padding_length]).
  unfold sizeof, Msg.kSizeSmallCache in *. cbn [Z.eqb Pos.eqb]. destruct (big_cache =? 0); lia.
Qed.

(** Every object takes a multiple of eight bytes and fits into a mailbox. *)
Lemma sizeof_small o : (8 | sizeof (category o)) /\ 8 <= sizeof (category o) <= Msg.kMaxSizeMsg.
Proof. destruct o; (split; [apply Z.mod_divide; [lia|reflexivity]|vm_compute; split; discriminate]). Qed.
End Reading.
End Layout.

(** ** Mailboxes *)

Module Mail.
Import Pipe Layout.

(** *** What senders leave alone *)

Definition stays (p p' : MPSCFixedPipe) : Prop := pipe_ p' = pipe_ p /\ receiver_pace_ p' = receiver_pace_ p.
#[local] Instance stays_refl : Reflexive stays.
Proof. by split. Qed.
#[local] Instance stays_trans : Transitive stays.
Proof. intros p1 p2 p3 [E1 D1] [E2 D2]. split; congruence. Qed.

Lemma write_stays p ptr bs p' : write p ptr bs = Some p' -> stays p p'.
Proof. unfold write. intros E. take_apart. by split. Qed.
Lemma CASTo_stays p o n v b p' : CASSenderPaceTo_ p o n v = (b, p') -> stays p p'.
Proof. unfold CASSenderPaceTo_. destruct (_ =? _); intros [= <- <-]; by split. Qed.
Lemma CASFrom_stays p o n v b p' : CASSenderPaceFrom_ p o n v = (b, p') -> stays p p'.
Proof. unfold CASSenderPaceFrom_. destruct (_ =? _); intros [= <- <-]; by split. Qed.
Lemma Reserve_stays p n o p' : ReserveSpaceForSend_ p n = (o, p') -> stays p p'.
Proof.
  unfold ReserveSpaceForSend_, CASSenderPaceTo_. rewrite Z.eqb_refl. intros E.
  repeat match type of E with context [if ?b then _ else _] => destruct b end; injection E as <- <-; by split.
Qed.
Lemma publish_stays n : forall p f v p', publish n p f v = Some p' -> stays p p'.
Proof.
  induction n as [|n IH]; intros p f v p' E; cbn [publish] in E; [done|]. take_apart; try reflexivity.
  destruct (CASSenderPaceFrom_ _ _ _ _) as [ok p1] eqn:C. apply CASFrom_stays in C. take_apart; [|done]. etrans; [done|by eapply IH].
Qed.
Lemma Just_stays p m pos p' : JustSendMsg_ p m pos = Some p' -> stays p p'.
Proof.
  unfold JustSendMsg_, SetReady_, set_msg_size. intros E. apply option.bind_Some in E as (p1 & E1 & E).
  apply option.bind_Some in E1 as (z & _ & E1). apply write_stays in E1. apply option.bind_Some in E as (start & E2 & E).
  etrans; [exact E1|]. clear E1 p. assert (forall q o v, start = Some (q, o, v) -> stays p1 q) as S1.
  { intros q o v ->. take_apart; by split. }
  clear E2. destruct start as [[[q o] v]|]; [|by injection E as <-]. etrans; [by eapply S1|]. take_apart; [reflexivity|].
  destruct (CASSenderPaceFrom_ _ _ _ _) as [ok p2] eqn:C. apply CASFrom_stays in C. etrans; [exact C|].
  take_apart; [by eapply publish_stays|reflexivity].
Qed.
Lemma SendMsg__stays p h c b p' : SendMsg_ p h c = Some (b, p') -> stays p p'.
Proof.
  unfold SendMsg_, set_msg_size. destruct (ReserveSpaceForSend_ _ _) as [[[m pos]|] p1] eqn:E; apply Reserve_stays in E;
    [|by intros [= <- <-]]. intros H. apply option.bind_Some in H as (p2 & E2 & H). apply option.bind_Some in H as (p3 & E3 & H).
  apply option.bind_Some in H as (p4 & E4 & H). apply option.bind_Some in H as (p5 & E5 & [= <- <-]).
  apply write_stays in E2, E3. apply Just_stays in E5.
  assert (stays p3 p4) as S4 by (take_apart; [reflexivity|by eapply write_stays]). by repeat (etrans; [eassumption|]).
Qed.
Lemma SendMsg_stays p h c b n p' : Pipe.SendMsg p h c = Some (b, n, p') -> stays p p'.
Proof.
  unfold Pipe.SendMsg. intros E. apply option.bind_Some in E as ([r q] & E & [= _ _ <-]). revert E.
  generalize kTimesBusyQuery as k. intros k. revert p. induction k as [|k IH]; intros p E; cbn [SendMsg_loop] in E; [by injection E as <- <-|].
  apply option.bind_Some in E as ([r1 p1] & E1 & E). apply SendMsg__stays in E1. etrans; [exact E1|].
  destruct r1; [by injection E as <- <-|by apply IH].
Qed.

(** A look of the receiver leaves its position or moves it to the beginning. *)
Lemma ReceiveMsg_moves p m p' : ReceiveMsg p = Some (m, p') ->
  pipe_ p' = pipe_ p /\ (receiver_pace_ p' = receiver_pace_ p \/ receiver_pace_ p' = pipe_ p).
Proof.
  assert (forall p b p', HasTodo p = Some (b, p') -> pipe_ p' = pipe_ p /\ (receiver_pace_ p' = receiver_pace_ p \/ receiver_pace_ p' = pipe_ p)) as H.
  { intros q b q'. unfold HasTodo. intros E. take_apart; cbn; auto. }
  unfold ReceiveMsg. generalize kTimesBusyQuery as k. intros k. revert p. induction k as [|k IH]; intros p E; cbn [ReceiveMsg_loop] in E.
  { injection E as <- <-. auto. }
  unfold ReceiveMsg_ in E. apply option.bind_Some in E as ([m1 p1] & E1 & E). apply option.bind_Some in E1 as ([b p2] & E1 & [= <- <-]).
  apply H in E1 as [B1 R1]. destruct b; [injection E as <- <-; by auto|]. apply IH in E as [B2 R2].
  split; [congruence|]. destruct R2 as [->| ->]; [|right; congruence]. destruct R1 as [->| ->]; [by left|right; congruence].
Qed.

(** *** Sending and receiving *)

Section Mail.
Variable junk : nat -> ascii.

(** [AgentSlave::SendMsg] and [Scheduler::SendMsg]: whether the message was
    taken, and whether the receiver is notified. *)
Definition SendMsg (p : MPSCFixedPipe) (msg : Object) : option (bool * bool * MPSCFixedPipe) :=
  Pipe.SendMsg p true (take (Z.to_nat (sizeof (category msg))) (object junk msg)).

(** [AgentSlave::ReceiveMsg_]: the address of the message and what is there. *)
Definition ReceiveMsg_ (p : MPSCFixedPipe) : option (option (Z * Object) * MPSCFixedPipe) :=
  '(msg_mailbox, p) ← Pipe.ReceiveMsg p;
  match msg_mailbox with
  | Some m => c ← content p m; '(o, _) ← read_object c; Some (Some (m + kMsgOffset, o), p)
  | None => Some (None, p)
  end.

(** [Schedulers::SendToOneWorker]: the procedure chooses its scheduler; without
    schedulers the remainder is undefined. *)
Definition SendToOneWorker (schedulers_req : list MPSCFixedPipe) (msg : Object) : option (bool * list MPSCFixedPipe) :=
  match msg with
  | MsgNewReq id _ _ _ =>
      if decide (length schedulers_req = 0%nat) then None
      else
        let i := Z.to_nat (u64 id mod Z.of_nat (length schedulers_req)) in
        p ← schedulers_req !! i;
        '(b, _, p) ← SendMsg p msg;
        Some (b, <[i := p]> schedulers_req)
  | _ => None
  end.

(** The ring holds the messages [q], and its positions can be read through
    pointers to the classes. *)
Definition holds (p : MPSCFixedPipe) (q : list Object) : Prop :=
  rep p ((fun o => (true, object junk o)) <$> q) /\ Forall object_ok q /\ (8 | pipe_ p) /\ (8 | receiver_pace_ p).

Lemma take_object o : object_ok o -> take (Z.to_nat (sizeof (category o))) (object junk o) = object junk o.
Proof. intros H. apply take_ge. rewrite <- (object_length junk o H). lia. Qed.

Lemma SendMsg_holds p q o : holds p q -> object_ok o -> exists b n p', SendMsg p o = Some (b, n, p') /\
  (if (b : bool) then holds p' (q ++ [o]) else p' = p).
Proof.
  intros (R & F & B & A) Ho. unfold SendMsg. rewrite (take_object o Ho).
  destruct (SendMsg_spec p _ true (object junk o) R) as (b & n & p' & E & H). exists b, n, p'. split; [done|]. destruct b; [|done].
  apply SendMsg_stays in E as [Ep Er]. split_and!; [by rewrite fmap_app| |by rewrite Ep|by rewrite Er].
  apply Forall_app. by repeat constructor.
Qed.

Lemma ReceiveMsg_holds p q : holds p q -> exists p', holds p' q /\
  match q with
  | [] => ReceiveMsg_ p = Some (None, p')
  | o :: _ => ReceiveMsg_ p = Some (Some (receiver_pace_ p' + kMsgOffset, o), p') /\ head_at p' (true, object junk o)
  end.
Proof.
  intros (R & F & B & A). unfold ReceiveMsg_. destruct (ReceiveMsg_spec p _ R) as (p' & R' & H). exists p'.
  assert (forall m, Pipe.ReceiveMsg p = Some (m, p') -> (8 | pipe_ p') /\ (8 | receiver_pace_ p')) as Al.
  { intros m E. apply ReceiveMsg_moves in E as [Ep [Er|Er]]; by rewrite Ep, Er. }
  destruct q as [|o q]; cbn [fmap list_fmap] in *.
  - destruct (Al _ H). rewrite H. done.
  - destruct H as (E & HA & C). destruct (Al _ E). split; [done|]. split; [|done]. rewrite E. cbn [mbind option_bind].
    rewrite C. cbn [mbind option_bind snd]. inversion_clear F as [|? ? Fo F']. rewrite <- (app_nil_r (object junk o)).
    by rewrite (object_read junk o [] Fo).
Qed.

Lemma MsgConsumed_holds p o q : holds p (o :: q) -> head_at p (true, object junk o) -> exists p', MsgConsumed p = Some p' /\ holds p' q.
Proof.
  intros (R & F & B & A) Hh. inversion_clear F as [|? ? Fo F']. destruct (MsgConsumed_spec p _ _ R Hh) as (p' & E & R').
  exists p'. split; [done|]. destruct Hh as (X & Z & Em & Er).
  destruct (GetMsgSize_at p X _ Z (receiver_pace_ p) (pc_sized p (proj1 R)) Em Er (rep_small p _ _ R)) as [_ Sz].
  unfold MsgConsumed in E. rewrite Sz in E. cbn [mbind option_bind] in E. apply write_stays in E as [Ep Er'].
  cbn [pipe_ receiver_pace_ with_receiver] in Ep, Er'.
  split_and!; [done|done|by rewrite Ep|]. rewrite Er'. cbn [snd]. rewrite (object_length junk o Fo).
  apply Z.divide_add_r; [done|]. apply Z.divide_add_r; [by exists 1|]. apply sizeof_small.
Qed.

(** The lengths of messages are those of RaceLaws.v, with [g] = 8. *)
Lemma object_aligned o : object_ok o -> Race.aligned 8 (object junk o).
Proof.
  intros H. unfold Race.aligned. rewrite (object_length junk o H). apply Z.divide_add_r; [by exists 1|apply sizeof_small].
Qed.

(** *** Histories *)

Inductive Op := Post (o : Object) | Take.
Inductive Result := Posted (b : bool) | Took (m : option (Z * Object)).

Definition step (p : MPSCFixedPipe) (o : Op) : option (Result * MPSCFixedPipe) :=
  match o with
  | Post o => '(b, _, p) ← SendMsg p o; Some (Posted b, p)
  | Take =>
      '(m, p) ← ReceiveMsg_ p;
      match m with
      | None => Some (Took None, p)
      | Some m => p ← MsgConsumed p; Some (Took (Some m), p)
      end
  end.
Fixpoint run (p : MPSCFixedPipe) (ops : list Op) : option (list Result * MPSCFixedPipe) :=
  match ops with
  | [] => Some ([], p)
  | o :: ops => '(r, p) ← step p o; '(rs, p) ← run p ops; Some (r :: rs, p)
  end.

(** The specification: a queue of messages that may be full.  Every message is
    found at an address its class can be read at. *)
Inductive explains : list Object -> list Op -> list Result -> list Object -> Prop :=
| ex_end q : explains q [] [] q
| ex_posted q o ops rs q' : explains (q ++ [o]) ops rs q' -> explains q (Post o :: ops) (Posted true :: rs) q'
| ex_full q o ops rs q' : explains q ops rs q' -> explains q (Post o :: ops) (Posted false :: rs) q'
| ex_took a o q ops rs q' : (8 | a) -> explains q ops rs q' -> explains (o :: q) (Take :: ops) (Took (Some (a, o)) :: rs) q'
| ex_nothing ops rs q' : explains [] ops rs q' -> explains [] (Take :: ops) (Took None :: rs) q'.

Definition posts_ok (ops : list Op) : Prop := Forall (fun o => match o with Post o => object_ok o | Take => True end) ops.

Lemma run_holds ops : forall p q, holds p q -> posts_ok ops ->
  exists rs p' q', run p ops = Some (rs, p') /\ holds p' q' /\ explains q ops rs q'.
Proof.
  induction ops as [|o ops IH]; intros p q H F; [exists [], p, q; split_and!; [done|done|constructor]|].
  apply list.Forall_cons in F as [Fo F]. cbn [run].
  assert (forall r p1 q1, step p o = Some (r, p1) -> holds p1 q1 ->
    (forall rs q', explains q1 ops rs q' -> explains q (o :: ops) (r :: rs) q') ->
    exists rs p' q', ('(r, p) ← step p o; '(rs, p) ← run p ops; Some (r :: rs, p)) = Some (rs, p') /\ holds p' q' /\ explains q (o :: ops) rs q') as Go.
  { intros r p1 q1 E H1 X. destruct (IH p1 q1 H1 F) as (rs & p' & q' & E' & H' & X'). rewrite E. cbn [mbind option_bind].
    rewrite E'. cbn [mbind option_bind]. eexists _, p', q'. split_and!; [done|done|by apply X]. }
  destruct o as [o|].
  - destruct (SendMsg_holds p q o H Fo) as (b & n & p1 & E & H1). destruct b.
    + apply (Go (Posted true) p1 (q ++ [o])); [cbn [step]; by rewrite E|done|by constructor].
    + subst p1. apply (Go (Posted false) p q); [cbn [step]; by rewrite E|done|by constructor].
  - destruct (ReceiveMsg_holds p q H) as (p1 & H1 & E). destruct q as [|o q].
    + apply (Go (Took None) p1 []); [cbn [step]; by rewrite E|done|by constructor].
    + destruct E as [E Hh]. destruct (MsgConsumed_holds p1 o q H1 Hh) as (p2 & E2 & H2).
      apply (Go (Took (Some (receiver_pace_ p1 + kMsgOffset, o))) p2 q); [cbn [step]; by rewrite E; cbn; rewrite E2|done|].
      intros rs q'. constructor; [|done]. apply Z.divide_add_r; [apply H1|by exists 1].
Qed.

Lemma Init_holds size thr hn base p : size < 2 ^ 31 -> 0 < base -> base + size < 2 ^ 48 -> (8 | base) ->
  Init size Msg.kMaxSizeMsg thr hn base = Some p -> holds p [].
Proof.
  intros Hs Hb Ha Al E. split; [exact (Init_rep size Msg.kMaxSizeMsg thr hn base p ltac:(done) Hs Hb Ha E)|].
  unfold Init in E. destruct (_ || _); [done|]. injection E as <-. by split_and!.
Qed.

(** C7: Whatever messages are posted to a mailbox and taken from it, through the
    bytes of their objects, the mailbox is a queue of messages: a receiver finds
    the oldest message, of the class it was sent as and with every field
    unchanged, whatever is in the padding, at an address that is aligned for its
    class; and it finds nothing only when it has received all messages that were
    taken. *)
Theorem mail_fifo size thr hn base p ops : size < 2 ^ 31 -> 0 < base -> base + size < 2 ^ 48 -> (8 | base) ->
  Init size Msg.kMaxSizeMsg thr hn base = Some p -> posts_ok ops ->
  exists rs p' q', run p ops = Some (rs, p') /\ explains [] ops rs q'.
Proof.
  intros Hs Hb Ha Al E F. destruct (run_holds ops p [] (Init_holds _ _ _ _ _ Hs Hb Ha Al E) F) as (rs & p' & q' & R & _ & X). eauto.
Qed.

(** One request goes to one scheduler, which its procedure determines. *)
Lemma SendToOneWorker_holds ps qs id fd t pr : Forall2 holds ps qs -> ps <> [] -> object_ok (MsgNewReq id fd t pr) ->
  exists i q b ps', i = Z.to_nat (u64 id mod Z.of_nat (length ps)) /\ qs !! i = Some q /\
    SendToOneWorker ps (MsgNewReq id fd t pr) = Some (b, ps') /\
    Forall2 holds ps' (if (b : bool) then <[i := q ++ [MsgNewReq id fd t pr]]> qs else qs).
Proof.
  intros F N Ho. set (i := Z.to_nat (u64 id mod Z.of_nat (length ps))). assert (0 < length ps)%nat as Lp by (destruct ps; [done|cbn; lia]).
  assert (i < length ps)%nat as Li.
  { unfold i. pose proof (Z.mod_pos_bound (u64 id) (Z.of_nat (length ps)) ltac:(lia)). lia. }
  destruct (lookup_lt_is_Some_2 ps i Li) as [p Ep]. destruct (Forall2_lookup_l _ _ _ _ _ F Ep) as (q & Eq & H).
  destruct (SendMsg_holds p q _ H Ho) as (b & n & p' & E & H'). exists i, q, b, (<[i := p']> ps). split_and!; [done|done| |].
  - unfold SendToOneWorker. rewrite decide_False by lia. fold i. rewrite Ep. cbn [mbind option_bind]. by rewrite E.
  - destruct b; [by apply Forall2_insert|]. subst p'. rewrite <- (list_insert_id qs i q Eq). by apply Forall2_insert.
Qed.
End Mail.

(** ** The mailbox of a scheduler *)

Section Scheduler.
Variable junk : nat -> ascii.
(** What is at the addresses that messages carry. *)
Variable listen_at : Z -> option Protocol.ListenAddr.
Variable remote_at : Z -> option Model.RemotePtr.
Variable vector_at : Z -> option (list Msg.CachedFd).

Definition nullable (a : Z) : option Z := if a =? 0 then None else Some a.
Definition view (o : Object) : option Msg.Msg :=
  match o with
  | MsgConfig => Some Msg.Config
  | MsgReadReq id fd la t => l ← listen_at la; Some (Msg.ReadReq (Msg.mkReadReq id fd l t))
  | MsgNewReq id fd t pr => Some (Msg.NewReq (Msg.mkNewReq id fd t (nullable pr)))
  | MsgSession ctx proc talks timeo error => Some (Msg.Session (Msg.mkMsgSession ctx proc talks timeo error))
  | MsgDestruct id fd t pr small big =>
      if big =? 0 then
        l ← mapM (fun e : Z * Z => r ← remote_at e.2; Some (e.1, r)) small;
        Some (Msg.Destruct (Msg.mkDestruct id fd t (nullable pr) l None))
      else v ← vector_at big; Some (Msg.Destruct (Msg.mkDestruct id fd t (nullable pr) [] (Some v)))
  end.

(** The ring as the world of a scheduler; a fault of the ring, which [holds]
    excludes, would be a message that is not there. *)
#[local] Instance ring_mail : SchedulerMail MPSCFixedPipe := {
  sched_ReceiveMsg p :=
    match ReceiveMsg_ p with
    | Some (Some (_, o), p) => (view o, p)
    | Some (None, p) => (None, p)
    | None => (None, p)
    end;
  sched_MsgConsumed p := default p (MsgConsumed p);
  sched_slot p := (true, p);
}.

Abbreviation Sched := (Scheduler.Scheduler MPSCFixedPipe).
Definition mailbox (s : Sched) : MPSCFixedPipe := BizProcedure.t_world (Scheduler.thread s).
Definition with_mailbox (p : MPSCFixedPipe) (s : Sched) : Sched :=
  let t := Scheduler.thread s in
  Scheduler.with_thread (BizProcedure.mkThread (BizProcedure.procs t) (BizProcedure.vectors t) (BizProcedure.t_protos t) p) s.

Lemma on_mailbox {A} (m : M MPSCFixedPipe A) s a p : m (mailbox s) = Some (a, p) ->
  Scheduler.on_thread (BizProcedure.on_world m) s = Some (a, with_mailbox p s).
Proof. intros E. unfold Scheduler.on_thread, BizProcedure.on_world, zoom. unfold mailbox in E. by rewrite E. Qed.

Lemma view_valid o m : view o = Some m -> Msg.Copy (Scheduler.blank_msg (Msg.category m)) m = Some m.
Proof. destruct o; cbn; intros E; take_apart; done. Qed.

(** The scheduler empties its mailbox into its queue of tasks: the messages it
    finds are those that were posted, in their order. *)
Theorem receive_mail n : forall os ms round (s : Sched), holds junk (mailbox s) os -> mapM view os = Some ms -> (length os < n)%nat ->
  exists s', Scheduler.Receive_loop n round s = Some (round || negb (length os =? 0)%nat, s') /\
    Scheduler.task_queue_ s' = Scheduler.task_queue_ s ++ ms /\ holds junk (mailbox s') [] /\
    Scheduler.pool_biz_procedure_ s' = Scheduler.pool_biz_procedure_ s.
Proof.
  induction n as [|n IH]; intros os ms round s H V L; [lia|]. cbn [Scheduler.Receive_loop].
  destruct (ReceiveMsg_holds junk (mailbox s) os H) as (p & Hp & E). destruct os as [|o os].
  - assert (call sched_ReceiveMsg (mailbox s) = Some (None, p)) as E1 by (unfold call; cbn [sched_ReceiveMsg ring_mail]; by rewrite E).
    mrun (on_mailbox _ s _ _ E1). injection V as <-. exists (with_mailbox p s). cbn. by rewrite orb_false_r, app_nil_r.
  - destruct E as [E Hh]. cbn [mapM] in V. apply option.bind_Some in V as (m & Em & V). apply option.bind_Some in V as (ms' & Ems & [= <-]).
    assert (call sched_ReceiveMsg (mailbox s) = Some (Some m, p)) as E1 by (unfold call; cbn [sched_ReceiveMsg ring_mail]; by rewrite E, Em).
    mrun (on_mailbox _ s _ _ E1). mderef (view_valid o m Em). set (s1 := Scheduler.with_queue (Scheduler.task_queue_ s ++ [m]) (with_mailbox p s)).
    rewrite (bind_run _ _ _ () s1 eq_refl). destruct (MsgConsumed_holds junk p o os Hp Hh) as (p2 & E2 & H2).
    assert (modify sched_MsgConsumed (mailbox s1) = Some ((), p2)) as E3 by (unfold modify; change (mailbox s1) with p; cbn [sched_MsgConsumed ring_mail]; by rewrite E2).
    mrun (on_mailbox _ s1 _ _ E3). destruct (IH os ms' true (with_mailbox p2 s1) H2 Ems ltac:(cbn in L; lia)) as (s' & Es & Q & H' & P).
    exists s'. rewrite Es. cbn. rewrite orb_true_r. split_and!; [done| |done|by rewrite P].
    rewrite Q. cbn. by rewrite <- app_assoc.
Qed.
End Scheduler.

(** ** Examples *)

(** A mailbox of 20016 bytes; three messages, read back through the ring. *)
Definition ex_junk (n : nat) : ascii := z2b (Z.of_nat n + 170).
Definition ex_mail : option (list Result) :=
  p ← Init 20016 Msg.kMaxSizeMsg 0 false 4096;
  '(rs, _) ← run ex_junk p [Post (MsgNewReq 7 (-1) 1700000000 0); Post (MsgDestruct 9 12 1700000001 8192 [(33, 65536); (-1, 65600)] 0);
                           Take; Post (MsgSession 16384 16640 16896 250 (-3)); Take; Take; Take];
  Some rs.
Example ex_mail_ok : ex_mail = Some [Posted true; Posted true; Took (Some (4104, MsgNewReq 7 (-1) 1700000000 0)); Posted true;
  Took (Some (4144, MsgDestruct 9 12 1700000001 8192 [(33, 65536); (-1, 65600)] 0));
  Took (Some (4440, MsgSession 16384 16640 16896 250 (-3))); Took None].
Proof. vm_compute. reflexivity. Qed.

Definition ex_box : MPSCFixedPipe :=
  mkPipe 20016 Msg.kMaxSizeMsg 0 4096 (blank (Z.to_nat 20016)) 4096 (EncodeSenderPace_ 4096 0) (EncodeSenderPace_ 4096 0).
Lemma mail_fifo_witness : exists rs p' q',
  run ex_junk ex_box [Post (MsgNewReq 7 (-1) 0 0); Take] = Some (rs, p') /\
  explains [] [Post (MsgNewReq 7 (-1) 0 0); Take] rs q'.
Proof.
  apply (mail_fifo ex_junk 20016 0 false 4096); try lia; [by exists 512|reflexivity|].
  repeat constructor; vm_compute; discriminate.
Defined.
End Mail.
