(* ===== verification/Agents.v ===== *)
(** * Agents: messages to agents, and the acceptor

    Models src/src/agents/agents.h (which agent gets a message) and
    src/src/agents/details/agent_master.cpp: listening on the configured
    addresses, accepting clients, stopping.  The books of the world say which
    clients were accepted, handed to an agent or closed, and which descriptors
    the kernel watches for this driver; the main theorem balances them over
    the whole life of the acceptor. *)

From Stdlib Require Import ZArith Lia String.
From stdpp Require Import base list gmap strings numbers option.
From S2P Require Import Prelude Os Protocol Rapid Redis IOHelper Model ConnsMgr EventsDriver Heap PoolObjs Protocols Confs EventCtx Msg Session IOBasic.
Import Os Buffer Model.

Module Agents.

(** [agent_slaves_[id % size]]: the [int] becomes a [size_t]. *)
Definition slave_index (id : Z) (num_slaves : nat) : nat := Z.to_nat (u64 id mod Z.of_nat num_slaves).

(** [ClientsNotFull]: the sum is an [int]. *)
Definition ClientsNotFull (counts : list Z) (max : Z) : bool := fold_left (fun acc n => i32 (acc + n)) counts 0 <? max.

(** [SendMsg] and [BroadcastWithRetry], where [send i] sends to the [i]-th agent. *)
Definition SendMsg {St} (send : nat -> Msg.Msg -> M St bool) (num_slaves : nat) (id : Z) (m : Msg.Msg) : M St bool :=
  if decide (num_slaves = 0%nat) then ub else send (slave_index id num_slaves) m.
Fixpoint SendMsgWithRetry {St} (send : nat -> Msg.Msg -> M St bool) (num_slaves : nat) (n : nat) (id : Z) (m : Msg.Msg) : M St () :=
  match n with
  | O => ub
  | S n => ret ← SendMsg send num_slaves id m; if (ret : bool) then mret () else SendMsgWithRetry send num_slaves n id m
  end.
Fixpoint Broadcast_loop {St} (send : nat -> Msg.Msg -> M St bool) (num_slaves fuel : nat) (k i : nat) (m : Msg.Msg) : M St () :=
  match k with
  | O => mret ()
  | S k => SendMsgWithRetry send num_slaves fuel (Z.of_nat i) m;; Broadcast_loop send num_slaves fuel k (S i) m
  end.
Definition BroadcastWithRetry {St} (send : nat -> Msg.Msg -> M St bool) (num_slaves fuel : nat) (m : Msg.Msg) : M St () :=
  Broadcast_loop send num_slaves fuel num_slaves 0 m.

Lemma slave_index_lt id n : n <> 0%nat -> (slave_index id n < n)%nat.
Proof. intros H. unfold slave_index. pose proof (Z.mod_pos_bound (u64 id) (Z.of_nat n) ltac:(lia)). lia. Qed.

Lemma slave_index_self (i n : nat) : (i < n)%nat -> Z.of_nat n < 2 ^ 63 -> slave_index (Z.of_nat i) n = i.
Proof.
  intros H Hn. unfold slave_index. rewrite uwrap_small by (unfold in_uint; lia). rewrite Z.mod_small by lia. lia.
Qed.
End Agents.

(** ** The acceptor *)

Class Acceptor (W : Type) : Type := {
  sys_Listen : Protocol.Addr -> Z -> W -> Z * W;
  sys_Accept : Z -> W -> Z * W;
  slave_counts : W -> list Z * W;
}.

(** What the world records: clients accepted, handed to agents and closed, and
    the descriptors in the epoll set of the acceptor. *)
Record Books := mkBooks { accepted : list Z; handed : list Z; dropped : list Z; registered : gset Z }.
Definition accept_client (fd : Z) (b : Books) : Books := mkBooks (accepted b ++ [fd]) (handed b) (dropped b) (registered b).
Definition hand_client (fd : Z) (b : Books) : Books := mkBooks (accepted b) (handed b ++ [fd]) (dropped b) (registered b).
Definition drop_client (fd : Z) (b : Books) : Books := mkBooks (accepted b) (handed b) (dropped b ++ [fd]) (registered b).
Definition register (r : gset Z) (b : Books) : Books := mkBooks (accepted b) (handed b) (dropped b) r.

(** What the acceptor relies on.  A new listening socket is not in the epoll
    set; a wait reports descriptors of the set; an accepted client has a
    positive number, since the standard input stays open. *)
Class AcceptSpec (W : Type) `{SK : !Sock W, CK : !Clock W, EP : !Epoll W, AC : !Acceptor W, AM : !AgentMail W} : Type := {
  books : W -> Books;
  accept_pos fd w : (sys_Accept fd w).1 = -1 \/ 0 < (sys_Accept fd w).1;
  books_accept fd w : books (sys_Accept fd w).2 =
    if (sys_Accept fd w).1 =? -1 then books w else accept_client (sys_Accept fd w).1 (books w);
  books_send id m w : books (agents_SendMsg id (Msg.ReadReq m) w).2 =
    if (agents_SendMsg id (Msg.ReadReq m) w).1 then hand_client (Msg.rr_fd_client m) (books w) else books w;
  books_close fd w : books (sys_close fd w) = drop_client fd (books w);
  books_add e fd ev w : books (epoll_ctl e EPOLL_CTL_ADD fd ev w).2 =
    if (epoll_ctl e EPOLL_CTL_ADD fd ev w).1 =? 0 then register ({[fd]} ∪ registered (books w)) (books w) else books w;
  books_del e fd ev w : books (epoll_ctl e EPOLL_CTL_DEL fd ev w).2 =
    if (epoll_ctl e EPOLL_CTL_DEL fd ev w).1 =? 0 then register (registered (books w) ∖ {[fd]}) (books w) else books w;
  books_wait e n w : books (epoll_wait e n w).2 = books w;
  wait_reports e n w : (epoll_wait e n w).1.1 <= Z.of_nat (length (epoll_wait e n w).1.2) /\
    Forall (fun ev => ev.2 ∈ registered (books w)) (epoll_wait e n w).1.2;
  books_listen a n w : books (sys_Listen a n w).2 = books w;
  listen_new a n w : 0 < (sys_Listen a n w).1 -> (sys_Listen a n w).1 ∉ registered (books w);
  books_counts w : books (slave_counts w).2 = books w;
  books_create w : books (epoll_create w).2 = books w;
  books_lock w : books (lock_Lock w).2 = books w;
  books_load w : books (load_time w).2 = books w;
  books_store t w : books (store_time t w) = books w;
  books_gettimeofday w : books (gettimeofday w).2 = books w;
}.

Module AgentMaster.
Definition kBacklog : Z := 20480.

Section Master.
Context {W Q : Type} `{SK : !Sock W, CK : !Clock W, EP : !Epoll W, AC : !Acceptor W, AM : !AgentMail W, RD : !Rand,
  TQ : !TimeoutQueue Q} {FU : Protocol.Fuel}.
Context (conf : Confs.ConfNormal).

(** The contexts are allocated one by one; [seed] is that of the ids in
    [BuildForReadReq]. *)
Record AgentMaster := mkMaster {
  events_driver_ : EventsDriver.EventsDriver Q;
  listen_ctxs : Store.Store EventCtx.EventCtx;
  seed : Z;
  m_world : W;
}.
(** The constructor: the driver is level triggered. *)
Definition AgentMaster_new (q : Q) (seed : Z) (w : W) : AgentMaster :=
  mkMaster (EventsDriver.EventsDriver_new true q) Store.nothing seed w.
Definition on_world {A} (m : M W A) : M AgentMaster A :=
  zoom m_world (fun w s => mkMaster (events_driver_ s) (listen_ctxs s) (seed s) w) m.
Definition on_ctxs {A} (m : M (Store.Store EventCtx.EventCtx) A) : M AgentMaster A :=
  zoom listen_ctxs (fun c s => mkMaster (events_driver_ s) c (seed s) (m_world s)) m.
Definition on_driver {A} (f : EventsDriver.EventsDriver Q -> M W (A * EventsDriver.EventsDriver Q)) : M AgentMaster A := fun s =>
  match f (events_driver_ s) (m_world s) with
  | Some ((a, d), w) => Some (a, mkMaster d (listen_ctxs s) (seed s) w)
  | None => None
  end.

(** *** Listening *)

Definition ListenOnAddr_ (la : Protocol.ListenAddr) : M AgentMaster bool :=
  fd ← on_world (call (sys_Listen (Protocol.la_addr la) kBacklog));
  if fd <=? 0 then mret false
  else
    c ← on_ctxs (Store.new (EventCtx.BuildForListen EventCtx.EventCtx_new fd la));
    ret ← on_driver (fun d => EventsDriver.RegEvent d fd EventsDriver.kAddEvent EventsDriver.kIn c (-1));
    if negb ret then on_ctxs (Store.free c);; mret false else mret true.

Fixpoint Init_loop (l : list Protocol.ListenAddr) : M AgentMaster bool :=
  match l with
  | [] => mret true
  | la :: l => ret ← ListenOnAddr_ la; if negb ret then mret false else Init_loop l
  end.
Definition Init : M AgentMaster bool := Init_loop (Confs.listen_addrs_ conf).

(** *** Accepting *)

(** A client was accepted on the address: it goes to an agent or is closed. *)
Definition Accepted (la : Protocol.ListenAddr) (new_fd : Z) : M AgentMaster () :=
  counts ← on_world (call slave_counts);
  if negb (Agents.ClientsNotFull counts (Confs.max_num_clients_keepalive_ conf)) then on_world (IOHelper.Close new_fd)
  else
    s ← gets id;
    '(m, seed) ← on_world (Msg.BuildForReadReq new_fd la 0 (seed s));
    modify (fun s => mkMaster (events_driver_ s) (listen_ctxs s) seed (m_world s));;
    ret ← on_world (call (agents_SendMsg (Msg.rr_id_procedure m) (Msg.ReadReq m)));
    if (ret : bool) then mret ()
    else when (0 <? new_fd) (on_world (IOHelper.Close new_fd)).

Definition CheckEvent (i : nat) : M AgentMaster () :=
  s ← gets id;
  '(ev, c) ← deref (EventsDriver.CheckReadyEvent (events_driver_ s) i);
  c ← deref c;
  e ← deref (Store.load (listen_ctxs s) c);
  match EventCtx.category e with
  | EventCtx.kListen =>
      la ← match EventCtx.data e with EventCtx.DListen la => mret la | _ => ub end;
      if decide (ev <> EventsDriver.kIn) then mret ()
      else
        new_fd ← on_world (call (sys_Accept (EventCtx.fd e)));
        if new_fd =? -1 then mret () else Accepted la new_fd
  | _ => mret ()
  end.

Fixpoint CheckEvents_loop (n i : nat) : M AgentMaster () :=
  match n with O => mret () | S n => CheckEvent i;; CheckEvents_loop n (S i) end.

Definition CheckEvents_ : M AgentMaster bool :=
  num_events_ready ← on_driver (fun d => EventsDriver.Wait d 0);
  if 0 <? num_events_ready then CheckEvents_loop (Z.to_nat num_events_ready) 0;; mret true else mret false.

(** The loop ends when a wait reports nothing. *)
Fixpoint Process_loop (n : nat) : M AgentMaster () :=
  match n with
  | O => ub
  | S n => ret ← CheckEvents_; if (ret : bool) then Process_loop n else mret ()
  end.
Definition Process_ : M AgentMaster () := Process_loop Protocol.fuel.

(** *** Stopping, after the thread was joined *)

Fixpoint Stop_loop (l : list ptr) : M AgentMaster () :=
  match l with [] => mret () | c :: l => on_ctxs (Store.free c);; Stop_loop l end.
Definition Stop : M AgentMaster () :=
  l ← on_driver (fun d => EventsDriver.ClearAll d);
  Stop_loop l.

(** ** The invariant *)

Context `{TQL : !TimeoutQueueLaws Q, AS : !AcceptSpec W}.
Import EventsDriver.

Definition settled (w w' : W) : Prop := books w' = books w.
#[local] Instance settled_preorder : PreOrder settled.
Proof. split; [done|]. intros w1 w2 w3 H1 H2. unfold settled in *. congruence. Qed.
Hint Extern 1 (settled _ _) => first [apply books_load | apply books_store | apply books_gettimeofday | apply books_lock | apply books_create |
  apply books_wait | apply books_counts | apply books_listen] : frame.

Lemma settled_refresh b : keeps settled (IOHelper.refresh b).
Proof using AS. unfold IOHelper.refresh, IOHelper.UpdateTimer. frame. Qed.
Hint Resolve settled_refresh : frame.
Lemma settled_Sec b : keeps settled (IOHelper.GetCurrentSec b).
Proof using AS. unfold IOHelper.GetCurrentSec. frame. Qed.
Lemma settled_Msec b : keeps settled (IOHelper.GetCurrentMsec b).
Proof using AS. unfold IOHelper.GetCurrentMsec. frame. Qed.
Lemma settled_raii (d : EventsDriver Q) : keeps settled (raii d).
Proof using AS. unfold raii, Init_. frame. Qed.

(** A driver that was never used, or one in use. *)
Definition fresh (d : EventsDriver Q) : Prop := init_ d = false /\ fd_to_event_ctx_ d = [] /\ q_ok (heap_timeo_ d) /\ q_live (heap_timeo_ d) = ∅.
Lemma raii_ok d w : fresh d \/ drv_ok d -> exists ok d' w', raii d w = Some ((ok, d'), w') /\ settled w w' /\ (fresh d' \/ drv_ok d') /\
  fd_to_event_ctx_ d' = fd_to_event_ctx_ d /\ (ok = true -> drv_ok d').
Proof using AS.
  intros [(Hi & Hs & Qo & Ql)|Ok]; [|exists true, d, w; split_and!; [by apply raii_ready, do_init|done|by right|done|done]].
  destruct (epoll_create w) as [fd w1] eqn:Ec. assert (raii d w = Some ((negb (fd <=? 0), mkDriver (event_in_ d) (event_out_ d) fd (events_ready_ d)
    (heap_timeo_ d) (fd_to_event_ctx_ d) (negb (fd <=? 0))), w1)) as E by (unfold raii, Init_; rewrite Hi; by mcall Ec).
  eexists _, _, w1. split; [exact E|]. pose proof (keeps_run _ _ _ _ _ E (settled_raii d)) as St. cbn [fd_to_event_ctx_].
  destruct (fd <=? 0) eqn:Hf; cbn [negb]; split_and!; try done; [by left|right|intros _];
    (split; [done|done|cbn; rewrite Hs; by intros i x|cbn; rewrite Ql; by intros h e]).
Qed.

(** The listening context of a descriptor. *)
Definition listening (la : Protocol.ListenAddr) (fd : Z) (s : AgentMaster) : Prop := exists sl c e,
  slot (events_driver_ s) fd = Some sl /\ context sl = Some c /\ Store.load (listen_ctxs s) c = Some e /\
  EventCtx.category e = EventCtx.kListen /\ EventCtx.fd e = fd /\ EventCtx.data e = EventCtx.DListen la.

Record master_ok (s : AgentMaster) : Prop := {
  mo_drv : fresh (events_driver_ s) \/ drv_ok (events_driver_ s);
  mo_store : Store.ok (listen_ctxs s);
  mo_listen fd : fd ∈ registered (books (m_world s)) -> exists la, la ∈ Confs.listen_addrs_ conf /\ listening la fd s;
  mo_slot fd sl c : slot (events_driver_ s) fd = Some sl -> context sl = Some c -> fd ∈ registered (books (m_world s));
  mo_sign fd sl : slot (events_driver_ s) fd = Some sl -> sign_timeo sl = 0%nat;
}.

(** Slots and contexts stay as they are. *)
Definition same_slots (s s' : AgentMaster) : Prop :=
  fd_to_event_ctx_ (events_driver_ s') = fd_to_event_ctx_ (events_driver_ s) /\ listen_ctxs s' = listen_ctxs s.
#[local] Instance same_slots_preorder : PreOrder same_slots.
Proof. split; [done|]. intros s1 s2 s3 [] []. split; congruence. Qed.
Lemma same_listening s s' la fd : same_slots s s' -> listening la fd s -> listening la fd s'.
Proof. intros [Sl Ct] (sl & c & e & H). exists sl, c, e. unfold slot in *. by rewrite Sl, Ct. Qed.

Lemma master_same s s' : fresh (events_driver_ s') \/ drv_ok (events_driver_ s') -> same_slots s s' ->
  registered (books (m_world s')) = registered (books (m_world s)) -> master_ok s -> master_ok s'.
Proof.
  intros D Sm Rg [D1 S1 L1 C1 G1]. pose proof Sm as [Sl Ct].
  assert (forall fd, slot (events_driver_ s') fd = slot (events_driver_ s) fd) as Es by (intros fd; unfold slot; by rewrite Sl).
  split; [done|by rewrite Ct|..].
  - intros fd. rewrite Rg. intros (la & Hla & L)%L1. exists la. split; [done|]. by eapply same_listening.
  - intros fd sl c. rewrite Es, Rg. apply C1.
  - intros fd sl. rewrite Es. apply G1.
Qed.

(** *** A turn *)

Lemma Wait_ok timeo s : master_ok s -> exists r s', on_driver (fun d => Wait d timeo) s = Some (r, s') /\ master_ok s' /\ same_slots s s' /\
  books (m_world s') = books (m_world s) /\
  (r <= 0 \/ r <= Z.of_nat (length (events_ready_ (events_driver_ s'))) /\
   Forall (fun ev => ev.2 ∈ registered (books (m_world s'))) (events_ready_ (events_driver_ s'))).
Proof using AS.
  intros Ok. unfold on_driver, Wait. destruct (raii_ok (events_driver_ s) (m_world s) (mo_drv s Ok)) as (ok & d & w & E & St & Dk & Sl & Rd). mrun E.
  destruct ok; cbn [negb].
  2: { eexists _, _. split; [done|]. split; [|split; [done|split; [done|left; lia]]]. eapply master_same; [..|exact Ok]; [done|done|by cbn; rewrite St]. }
  assert (exists t w1, match q_top (heap_timeo_ d) with
      | Some e => now ← IOHelper.GetCurrentMsec false; mret (Z.max 0 (Z.min (expire_time_ms e - now) timeo))
      | None => mret timeo end w = Some (t, w1) /\ settled w w1) as (t & w1 & E1 & St1).
  { destruct (q_top (heap_timeo_ d)); [|by eexists _, w]. destruct (IOHelper.GetCurrentMsec_run false w) as (now & w1 & E1).
    mrun E1. eexists _, w1. split; [done|]. exact (keeps_run _ _ _ _ _ E1 (settled_Msec false)). }
  mrun E1. pose proof (books_wait (fd_epoll_ d) t w1) as Bw. pose proof (wait_reports (fd_epoll_ d) t w1) as [Wl Wr].
  destruct (epoll_wait (fd_epoll_ d) t w1) as [[r evs] w2] eqn:Ew. mcall Ew. cbn [fst snd] in Bw, Wl, Wr.
  unfold IOHelper.UpdateTimer. pose proof (books_gettimeofday w2) as Bg. destruct (gettimeofday w2) as [tm w3] eqn:Eg. cbn [snd] in Bg.
  unfold mbind at 1, M_bind at 1. mcall Eg. cbn. eexists _, _. split; [done|]. cbn. unfold settled in St, St1. rewrite books_store.
  assert (books w3 = books (m_world s)) as Bs by congruence. split; [|split; [done|split; [done|right; split; [done|rewrite Bs, <- St, <- St1; done]]]].
  eapply master_same; [..|exact Ok]; cbn; [right; destruct (Rd eq_refl); by split|done|by rewrite books_store, Bs].
Qed.

(** Every client accepted in between was handed on or closed, once. *)
Definition balanced (b b' : Books) : Prop := registered b' = registered b /\
  exists new, accepted b' = accepted b ++ new /\ handed b' ++ dropped b' ≡ₚ handed b ++ dropped b ++ new.
#[local] Instance balanced_preorder : PreOrder balanced.
Proof.
  split; [intros b; split; [done|]; exists []; by rewrite !app_nil_r|]. intros b1 b2 b3 [R1 (n1 & A1 & P1)] [R2 (n2 & A2 & P2)].
  split; [congruence|]. exists (n1 ++ n2). split; [by rewrite A2, A1, (assoc_L (++))|]. rewrite P2, !(assoc_L (++)). f_equiv.
  by rewrite P1, (assoc_L (++)).
Qed.
Lemma hand_balanced fd b : balanced b (hand_client fd (accept_client fd b)).
Proof. split; [done|]. exists [fd]. cbn. split; [done|]. rewrite <- !(assoc_L (++)). f_equiv. apply Permutation_app_comm. Qed.
Lemma drop_balanced fd b : balanced b (drop_client fd (accept_client fd b)).
Proof. split; [done|]. exists [fd]. by split. Qed.

(** Only the books and the seed change. *)
Definition only_books (s s' : AgentMaster) : Prop := events_driver_ s' = events_driver_ s /\ listen_ctxs s' = listen_ctxs s.

Lemma BuildForReadReq_run fd la seed w : exists m seed' w', Msg.BuildForReadReq fd la 0 seed w = Some ((m, seed'), w') /\
  Msg.rr_fd_client m = fd /\ settled w w'.
Proof using AS.
  unfold Msg.BuildForReadReq. destruct (rand_r seed) as [id seed']. cbn [Z.eqb].
  destruct (IOHelper.GetCurrentSec_run false w) as (t & w' & E). mrun E. eexists _, _, w'. split; [done|].
  split; [done|exact (keeps_run _ _ _ _ _ E (settled_Sec false))].
Qed.

Lemma Accepted_run la fd s : 0 < fd -> exists s', Accepted la fd s = Some ((), s') /\ only_books s s' /\
  (books (m_world s') = hand_client fd (books (m_world s)) \/ books (m_world s') = drop_client fd (books (m_world s))).
Proof using AS.
  intros Hfd. destruct s as [d c sd w]. unfold Accepted. pose proof (books_counts w) as Bc. destruct (slave_counts w) as [counts w1] eqn:E1.
  cbn [snd] in Bc. assert (on_world (call slave_counts) (mkMaster d c sd w) = Some (counts, mkMaster d c sd w1)) as R1
    by (unfold on_world, zoom, call; cbn; by rewrite E1). mrun R1.
  destruct (Agents.ClientsNotFull _ _); cbn [negb].
  2: { eexists. split; [done|]. split; [done|]. right. cbn. by rewrite books_close, Bc. }
  destruct (BuildForReadReq_run fd la sd w1) as (m & sd' & w2 & E2 & F & B2). unfold settled in B2.
  assert ((gets id : M AgentMaster _) (mkMaster d c sd w1) = Some (mkMaster d c sd w1, mkMaster d c sd w1)) as Rg by done. mrun Rg. cbn [seed].
  assert (on_world (Msg.BuildForReadReq fd la 0 sd) (mkMaster d c sd w1) = Some ((m, sd'), mkMaster d c sd w2)) as R2
    by (unfold on_world, zoom; cbn [m_world]; by rewrite E2). mrun R2. cbn [events_driver_ listen_ctxs m_world].
  match goal with |- context [modify ?f] =>
    assert (modify f (mkMaster d c sd w2) = Some ((), mkMaster d c sd' w2)) as Rm by done end. mrun Rm.
  pose proof (books_send (Msg.rr_id_procedure m) m w2) as B3.
  destruct (agents_SendMsg (Msg.rr_id_procedure m) (Msg.ReadReq m) w2) as [b w3] eqn:E3. cbn [fst snd] in B3.
  assert (on_world (call (agents_SendMsg (Msg.rr_id_procedure m) (Msg.ReadReq m))) (mkMaster d c sd' w2) =
    Some (b, mkMaster d c sd' w3)) as R3 by (unfold on_world, zoom, call; cbn; by rewrite E3). mrun R3.
  destruct b; [eexists; split; [done|]; split; [done|]; left; cbn; congruence|].
  unfold when. rewrite (proj2 (Z.ltb_lt _ _)) by done. eexists. split; [done|]. split; [done|]. right. cbn. rewrite books_close. congruence.
Qed.

Lemma CheckEvent_ok i s ev : master_ok s -> events_ready_ (events_driver_ s) !! i = Some ev -> ev.2 ∈ registered (books (m_world s)) ->
  exists s', CheckEvent i s = Some ((), s') /\ only_books s s' /\ balanced (books (m_world s)) (books (m_world s')).
Proof using AS.
  intros Ok Hi Hr. destruct ev as [evs fd]. cbn [snd] in Hr. destruct (mo_listen s Ok fd Hr) as (la & _ & sl & c & e & Hs & Hc & He & Ec & Ef & Ed).
  unfold CheckEvent. assert ((gets id : M AgentMaster _) s = Some (s, s)) as Rg by done. mrun Rg.
  assert (CheckReadyEvent (events_driver_ s) i = Some (event_of evs, Some c)) as Rc by (unfold CheckReadyEvent; rewrite Hi; cbn; rewrite Hs; cbn; by rewrite Hc).
  mderef Rc. assert (Some c = Some c) as Rs by done. mderef Rs. mderef He. rewrite Ec, Ed. mpure.
  case_decide; [by exists s|]. pose proof (accept_pos (EventCtx.fd e) (m_world s)) as Ap. pose proof (books_accept (EventCtx.fd e) (m_world s)) as Ba.
  destruct (sys_Accept (EventCtx.fd e) (m_world s)) as [n w] eqn:Ea. cbn [fst snd] in Ap, Ba.
  assert (on_world (call (sys_Accept (EventCtx.fd e))) s = Some (n, mkMaster (events_driver_ s) (listen_ctxs s) (seed s) w)) as Ra
    by (unfold on_world, zoom, call; by rewrite Ea). mrun Ra. destruct (n =? -1) eqn:En.
  - eexists. split; [done|]. split; [done|]. cbn. by rewrite Ba.
  - destruct (Accepted_run la n (mkMaster (events_driver_ s) (listen_ctxs s) (seed s) w)) as (s' & E & O & [B|B]); [lia|..];
      (exists s'; split; [done|]; split; [done|]; rewrite B; cbn; rewrite Ba); [apply hand_balanced|apply drop_balanced].
Qed.

Lemma only_books_ok s s' : master_ok s -> only_books s s' -> balanced (books (m_world s)) (books (m_world s')) -> master_ok s'.
Proof. intros Ok [D C] [R _]. eapply master_same; [..|exact Ok]; [rewrite D; apply Ok|split; [by rewrite D|done]|done]. Qed.

Lemma CheckEvents_loop_ok n : forall i s, master_ok s -> (i + n <= length (events_ready_ (events_driver_ s)))%nat ->
  Forall (fun ev => ev.2 ∈ registered (books (m_world s))) (events_ready_ (events_driver_ s)) ->
  exists s', CheckEvents_loop n i s = Some ((), s') /\ only_books s s' /\ balanced (books (m_world s)) (books (m_world s')).
Proof using AS.
  induction n as [|n IH]; intros i s Ok Hn F; [by exists s|]. cbn [CheckEvents_loop].
  destruct (lookup_lt_is_Some_2 (events_ready_ (events_driver_ s)) i) as [ev Hi]; [lia|].
  destruct (CheckEvent_ok i s ev Ok Hi) as (s1 & E1 & O1 & B1); [by eapply list.Forall_lookup_1 in F|]. mrun E1. pose proof O1 as [D1 C1].
  destruct (IH (S i) s1) as (s2 & E2 & [D2 C2] & B2); [by eapply only_books_ok|rewrite D1; lia|rewrite D1, (proj1 B1); done|].
  exists s2. split; [done|]. split; [split; congruence|by etransitivity].
Qed.

(** A turn returns, whatever happens outside. *)
Lemma CheckEvents_ok s : master_ok s -> exists b s', CheckEvents_ s = Some (b, s') /\ master_ok s' /\ same_slots s s' /\
  balanced (books (m_world s)) (books (m_world s')).
Proof using AS.
  intros Ok. unfold CheckEvents_. destruct (Wait_ok 0 s Ok) as (r & s1 & E & Ok1 & Sm1 & B1 & R). mrun E.
  destruct (Z.ltb_spec 0 r) as [Hr|Hr]; [|exists false, s1; by rewrite B1]. destruct R as [|[Rl Rf]]; [lia|].
  destruct (CheckEvents_loop_ok (Z.to_nat r) 0 s1) as (s2 & E2 & O2 & B2); [done|lia|done|]. mrun E2. exists true, s2. rewrite <- B1.
  split; [done|]. split; [by eapply only_books_ok|]. split; [|done]. transitivity s1; [done|]. destruct O2 as [D C]. split; [by rewrite D|done].
Qed.

(** *** Turns of the thread *)

Fixpoint turns (n : nat) : M AgentMaster () :=
  match n with O => mret () | S n => CheckEvents_;; turns n end.
Lemma turns_ok n : forall s, master_ok s -> exists s', turns n s = Some ((), s') /\ same_slots s s' /\
  balanced (books (m_world s)) (books (m_world s')).
Proof using AS.
  induction n as [|n IH]; intros s Ok; [by exists s|]. cbn [turns]. destruct (CheckEvents_ok s Ok) as (b & s1 & E & Ok1 & Sm1 & B1). mrun E.
  destruct (IH s1 Ok1) as (s2 & E2 & Sm2 & B2). exists s2. split_and!; [done|by etransitivity|by etransitivity].
Qed.
Lemma Process_turns n : forall s s', Process_loop n s = Some ((), s') -> exists k, (k <= n)%nat /\ turns k s = Some ((), s').
Proof.
  induction n as [|n IH]; intros s s' E; [done|]. cbn [Process_loop] in E. step E as b s1 E1. destruct b.
  - apply IH in E as (k & Hk & E). exists (S k). split; [lia|]. cbn [turns]. by mrun E1.
  - injection E as <-. exists 1%nat. split; [lia|]. cbn [turns]. by mrun E1.
Qed.

(** *** Listening *)

Lemma RegEvent_books d fd c w d' w' : init_ d = true -> RegEvent d fd kAddEvent kIn c (-1) w = Some ((true, d'), w') ->
  d' = set_slot (grow d fd) (heap_timeo_ (grow d fd)) fd (mkSlot (Some c) 0) /\
  books w' = register ({[fd]} ∪ registered (books w)) (books w).
Proof using AS.
  intros Hi E. destruct (RegEvent_added _ _ _ _ _ _ _ Hi E) as (-> & ev & w1 & E1 & E2). split; [done|]. pose proof (books_lock w) as Bl.
  match type of E2 with epoll_ctl ?e _ _ ?v _ = _ => pose proof (books_add e fd v w1) as Ba end. rewrite E2 in Ba. rewrite E1 in Bl. cbn [fst snd] in Ba, Bl.
  by rewrite Ba, Bl.
Qed.

Lemma RegEvent_raii d fd op dir c timeo w d' w' : raii d w = Some ((true, d'), w') -> init_ d' = true ->
  RegEvent d fd op dir c timeo w = RegEvent d' fd op dir c timeo w'.
Proof. intros E Hi. unfold RegEvent. by rewrite (bind_run _ _ _ _ _ E), (bind_run _ _ _ _ _ (raii_ready d' w' Hi)). Qed.

(** Descriptors may have been added. *)
Definition more (s s' : AgentMaster) : Prop :=
  books (m_world s') = register (registered (books (m_world s'))) (books (m_world s)) /\
  forall la fd, fd ∈ registered (books (m_world s)) -> listening la fd s -> fd ∈ registered (books (m_world s')) /\ listening la fd s'.
#[local] Instance more_preorder : PreOrder more.
Proof.
  split; [intros s; split; [by destruct (books (m_world s))|by split]|]. intros s1 s2 s3 [B1 L1] [B2 L2].
  split; [rewrite B2 at 1; by rewrite B1|]. intros la fd H1 H2. destruct (L1 la fd H1 H2). by apply L2.
Qed.

(** A listening descriptor with its context is put into a driver in use. *)
Lemma listen_added la fd d ctxs sd w c ctxs' d' w' : master_ok (mkMaster d ctxs sd w) -> drv_ok d -> la ∈ Confs.listen_addrs_ conf -> 0 < fd ->
  fd ∉ registered (books w) -> Store.new (EventCtx.BuildForListen EventCtx.EventCtx_new fd la) ctxs = Some (c, ctxs') ->
  RegEvent d fd kAddEvent kIn c (-1) w = Some ((true, d'), w') ->
  master_ok (mkMaster d' ctxs' sd w') /\ fd ∈ registered (books w') /\ listening la fd (mkMaster d' ctxs' sd w') /\
  more (mkMaster d ctxs sd w) (mkMaster d' ctxs' sd w').
Proof using AS.
  intros Ok Dk Hla Hfd Hn Ec Er. destruct (Store.ok_new _ _ _ _ (mo_store _ Ok) Ec) as (So & _ & Cn & Co & _).
  destruct (RegEvent_books d fd c w d' w' (do_init d Dk) Er) as [Ed Bw].
  destruct (grow_spec d fd Dk ltac:(lia)) as (Gk & _ & [sl0 Gs] & G1 & G2).
  assert (forall f, slot d' f = if decide (f = fd) then Some (mkSlot (Some c) 0) else slot (grow d fd) f) as Sd.
  { intros f. subst d'. by rewrite (slot_set_slot _ _ _ _ _ _ Gs). }
  assert (sign_timeo sl0 = 0%nat) as Z0.
  { destruct (G2 fd sl0 Gs) as [G3| ->]; [exact (mo_sign _ Ok fd sl0 G3)|done]. }
  assert (drv_ok d') as Dk'. { subst d'. eapply set_slot_ok; [done|exact Gs|apply Gk|]. left. by rewrite Z0. }
  assert (listening la fd (mkMaster d' ctxs' sd w')) as Ln.
  { exists (mkSlot (Some c) 0), c, (EventCtx.BuildForListen EventCtx.EventCtx_new fd la). cbn [events_driver_ listen_ctxs].
    rewrite Sd, decide_True by done. split_and!; try done. unfold Store.load. by rewrite Co, lookup_insert_eq. }
  assert (forall la' f, f ∈ registered (books w) -> listening la' f (mkMaster d ctxs sd w) -> f <> fd -> listening la' f (mkMaster d' ctxs' sd w')) as Kl.
  { intros la' f Hf (sl & c' & e & S & C & L & R) Nf. exists sl, c', e. cbn [events_driver_ listen_ctxs] in *.
    rewrite Sd, decide_False by done. split_and!; [by apply G1|done| |apply R..]. unfold Store.load in *. rewrite Co, lookup_insert_ne; [done|congruence]. }
  assert (fd ∈ registered (books w')) as Rf by (rewrite Bw; cbn; set_solver).
  split; [|split; [done|split; [done|]]].
  - split; cbn [events_driver_ listen_ctxs m_world]; [by right|done|..].
    + intros f Hf. destruct (decide (f = fd)) as [->|Nf]; [by exists la|]. rewrite Bw in Hf. cbn in Hf.
      destruct (mo_listen _ Ok f) as (la' & Hl' & L'); [cbn; set_solver|]. exists la'. split; [done|]. apply Kl; [set_solver|done|done].
    + intros f sl c'. rewrite Sd. case_decide; [by subst|]. intros Hs Hc. rewrite Bw. cbn. apply elem_of_union_r.
      destruct (G2 f sl Hs) as [G3| ->]; [|done]. exact (mo_slot _ Ok f sl c' G3 Hc).
    + intros f sl. rewrite Sd. case_decide; [by intros [= <-]|]. intros Hs. destruct (G2 f sl Hs) as [G3| ->]; [|done]. exact (mo_sign _ Ok f sl G3).
  - split; cbn [m_world]; [by rewrite Bw|]. intros la' f Hf Hl. rewrite Bw. cbn. split; [set_solver|]. apply Kl; [done|done|set_solver].
Qed.

Lemma ListenOnAddr_ok la s : master_ok s -> la ∈ Confs.listen_addrs_ conf -> exists b s', ListenOnAddr_ la s = Some (b, s') /\
  (b = true -> master_ok s' /\ (exists fd, fd ∈ registered (books (m_world s')) /\ listening la fd s') /\ more s s').
Proof using AS.
  intros Ok Hla. destruct s as [d ctxs sd w]. unfold ListenOnAddr_. pose proof (books_listen (Protocol.la_addr la) kBacklog w) as Bl.
  pose proof (listen_new (Protocol.la_addr la) kBacklog w) as Ln. destruct (sys_Listen (Protocol.la_addr la) kBacklog w) as [fd w1] eqn:El.
  cbn [fst snd] in Bl, Ln. assert (on_world (call (sys_Listen (Protocol.la_addr la) kBacklog)) (mkMaster d ctxs sd w) = Some (fd, mkMaster d ctxs sd w1)) as Rl
    by (unfold on_world, zoom, call; cbn; by rewrite El). mrun Rl. destruct (Z.leb_spec fd 0); [by eexists false, _|]. specialize (Ln ltac:(lia)).
  destruct (Store.new (EventCtx.BuildForListen EventCtx.EventCtx_new fd la) ctxs) as [[c ctxs']|] eqn:Ec; [|done].
  assert (on_ctxs (Store.new (EventCtx.BuildForListen EventCtx.EventCtx_new fd la)) (mkMaster d ctxs sd w1) = Some (c, mkMaster d ctxs' sd w1)) as Rc
    by (unfold on_ctxs, zoom; cbn [listen_ctxs]; by rewrite Ec). mrun Rc. unfold on_driver. cbn [events_driver_ m_world listen_ctxs seed].
  destruct (raii_ok d w1 (mo_drv _ Ok)) as (ok & d1 & w2 & Ei & St & Dk & Sl & Rd).
  assert (forall d w, exists s', (on_ctxs (Store.free c);; mret false) (mkMaster d ctxs' sd w) = Some (false, s')) as Fr.
  { intros d3 w3. destruct (Store.ok_new _ _ _ _ (mo_store _ Ok) Ec) as (_ & _ & _ & Co & _). unfold on_ctxs, zoom, Store.free, mbind, M_bind. cbn.
    rewrite Co, lookup_insert_eq. eauto. }
  destruct ok.
  2: { unfold RegEvent, mbind at 1, M_bind at 1. rewrite (bind_run _ _ _ _ _ Ei). cbn [negb]. destruct (Fr d1 w2) as [s' E']. by exists false, s'. }
  specialize (Rd eq_refl). unfold mbind at 1, M_bind at 1. rewrite (RegEvent_raii _ _ _ _ _ _ _ _ _ Ei (do_init _ Rd)).
  assert (master_ok (mkMaster d1 ctxs sd w2)) as Ok1.
  { eapply master_same; [..|exact Ok]; [by right|done|cbn; by rewrite St, Bl]. }
  destruct (RegEvent_add d1 fd kIn c (-1) w2 Rd ltac:(lia)) as (b & d2 & w3 & Er & _); [intros sl Hs; exact (mo_sign _ Ok1 fd sl Hs)|]. rewrite Er.
  destruct b; cbn [negb].
  - eexists true, _. split; [done|]. intros _.
    destruct (listen_added la fd d1 ctxs sd w2 c ctxs' d2 w3 Ok1 Rd Hla ltac:(lia) ltac:(by rewrite St, Bl) Ec Er) as (Ok2 & Rf & Li & Mo).
    split; [done|]. split; [by exists fd|]. transitivity (mkMaster d1 ctxs sd w2); [|done]. split; cbn [m_world].
    + rewrite St, Bl. by destruct (books w).
    + rewrite St, Bl. intros la' f Hf (sl & c' & e & S & R). split; [done|]. exists sl, c', e. cbn [events_driver_ listen_ctxs] in *.
      unfold slot in *. by rewrite Sl.
  - destruct (Fr d2 w3) as [s' E']. by exists false, s'.
Qed.

Lemma Init_loop_ok l : forall s, master_ok s -> l ⊆ Confs.listen_addrs_ conf -> exists b s', Init_loop l s = Some (b, s') /\
  (b = true -> master_ok s' /\ (forall la, la ∈ l -> exists fd, fd ∈ registered (books (m_world s')) /\ listening la fd s') /\ more s s').
Proof using AS.
  induction l as [|la l IH]; intros s Ok Hl; cbn [Init_loop].
  - exists true, s. split; [done|]. intros _. split_and!; [done|by intros la []%not_elem_of_nil|done].
  - destruct (ListenOnAddr_ok la s Ok) as (b & s1 & E & H1); [apply Hl, list_elem_of_here|]. mrun E.
    destruct b; cbn [negb]; [|by exists false, s1]. destruct (H1 eq_refl) as (Ok1 & (fd & R1 & L1) & M1).
    destruct (IH s1 Ok1) as (b & s2 & E2 & H2); [intros x Hx; by apply Hl, list_elem_of_further|]. exists b, s2. split; [done|]. intros Hb.
    destruct (H2 Hb) as (Ok2 & L2 & M2). split_and!; [done| |by transitivity s1]. intros la' [->|H]%elem_of_cons; [|auto]. exists fd. by apply M2.
Qed.

(** C32: when [Init] succeeds, the acceptor listens on every configured address,
    and it stays so in any number of turns of its thread: every turn returns,
    and every client that is accepted is handed to an agent or closed, exactly
    one of the two and exactly once. *)
Theorem master_conserves q sd w n : q_ok q -> q_live q = ∅ -> registered (books w) = ∅ ->
  exists b s, Init (AgentMaster_new q sd w) = Some (b, s) /\
    (b = true -> exists s', turns n s = Some ((), s') /\
       (forall la, la ∈ Confs.listen_addrs_ conf -> exists fd, fd ∈ registered (books (m_world s')) /\ listening la fd s') /\
       exists new, accepted (books (m_world s')) = accepted (books w) ++ new /\
         handed (books (m_world s')) ++ dropped (books (m_world s')) ≡ₚ handed (books w) ++ dropped (books w) ++ new).
Proof using All.
  intros Qo Ql Rw. unfold Init. assert (master_ok (AgentMaster_new q sd w)) as Ok.
  { split; cbn; [by left|apply Store.ok_nothing|rewrite Rw; set_solver|..]; intros fd sl; unfold slot; cbn; by destruct (fd <? 0). }
  destruct (Init_loop_ok (Confs.listen_addrs_ conf) _ Ok ltac:(done)) as (b & s & E & H). exists b, s. split; [done|]. intros Hb.
  destruct (H Hb) as (Ok1 & L1 & [B1 _]). destruct (turns_ok n s Ok1) as (s' & E' & Sm & [R2 B2]). exists s'. split; [done|]. split.
  - intros la Hla. destruct (L1 la Hla) as (fd & Rf & Li). exists fd. rewrite R2. split; [done|]. by eapply same_listening.
  - rewrite B1 in B2. exact B2.
Qed.
End Master.
Arguments AgentMaster : clear implicits.

(** *** An acceptor on two ports *)

(** Sockets are numbered in order; a wait reports the first [calls] times that
    a client waits on every descriptor of the set; the second client is
    refused by the agent. *)
Record Port := mkPort { ledger : Books; next_fd : Z; calls : nat }.
Definition set_ledger (b : Books) (w : Port) : Port := mkPort b (next_fd w) (calls w).
#[local] Instance port_sock : Sock Port := {| CreateSocket _ w := (-1, w); sys_connect _ _ w := ((0, 0), w); sys_recv1 _ w := ((0, 0), w);
  sys_close fd w := set_ledger (drop_client fd (ledger w)) w |}.
#[local] Instance port_clock : Clock Port := {| load_time w := (5000000, w); store_time _ w := w; gettimeofday w := (5000000, w) |}.
#[local] Instance port_epoll : Epoll Port := {|
  epoll_create w := (3, w);
  epoll_ctl _ op fd _ w := (0, match op with
    | EPOLL_CTL_ADD => set_ledger (register ({[fd]} ∪ registered (ledger w)) (ledger w)) w
    | EPOLL_CTL_MOD => w
    | EPOLL_CTL_DEL => set_ledger (register (registered (ledger w) ∖ {[fd]}) (ledger w)) w end);
  epoll_wait _ _ w := match calls w with
    | O => ((0, []), w)
    | S n => let evs := (fun fd => (1, fd)) <$> elements (registered (ledger w)) in ((Z.of_nat (length evs), evs), mkPort (ledger w) (next_fd w) n) end;
  lock_Lock w := (true, w) |}.
(** Above every descriptor of the set. *)
Definition new_fd (w : Port) : Z := foldr Z.max (next_fd w) ((fun f => f + 1) <$> elements (registered (ledger w))).
#[local] Instance port_acceptor : Acceptor Port := {|
  sys_Listen _ _ w := (new_fd w, mkPort (ledger w) (new_fd w + 1) (calls w));
  sys_Accept _ w := let n := Z.max 1 (new_fd w) in (n, mkPort (accept_client n (ledger w)) (n + 1) (calls w));
  slave_counts w := ([Z.of_nat (length (handed (ledger w)))], w) |}.
#[local] Instance port_mail : AgentMail Port := {| agents_SendMsg _ m w :=
  match m with
  | Msg.ReadReq r => if (length (accepted (ledger w)) =? 2)%nat then (false, w) else (true, set_ledger (hand_client (Msg.rr_fd_client r) (ledger w)) w)
  | _ => (true, w)
  end |}.
#[local] Instance port_rand : Rand := {| rand_r s := (s, s + 1) |}.
#[local] Instance port_fuel : Protocol.Fuel := {| Protocol.fuel := 20 |}.
Lemma new_fd_unused w : new_fd w ∉ registered (ledger w).
Proof.
  unfold new_fd. rewrite <- elem_of_elements. generalize (elements (registered (ledger w))) as l. intros l.
  assert (forall f, f ∈ l -> f < foldr Z.max (next_fd w) ((fun f => f + 1) <$> l)) as H; [|by intros Hf%H; lia].
  induction l as [|x l IH]; [by intros f []%not_elem_of_nil|]. intros f [->|Hf%IH]%elem_of_cons; cbn; lia.
Qed.
#[local] Instance port_spec : AcceptSpec Port.
Proof.
  refine {| books := ledger |}; try done; intros.
  - right. cbn. lia.
  - cbn. by rewrite (proj2 (Z.eqb_neq _ _)) by lia.
  - cbn. by destruct (length _ =? 2)%nat.
  - cbn. by destruct (calls w).
  - cbn. destruct (calls w); cbn; [by split|]. split; [lia|]. apply list.Forall_fmap, list.Forall_forall. intros f Hf. cbn. by apply elem_of_elements.
  - apply new_fd_unused.
Defined.

Definition port0 : Port := mkPort (mkBooks [] [] [] ∅) 4 1.
Definition two_ports : Confs.ConfNormal :=
  Confs.mkConfNormal 1 1 60 10 60 10 20 30
    [Protocol.mkListenAddr (str "web") Protocol.kRapid (Protocol.mkAddr 2 0 80); Protocol.mkListenAddr (str "admin") Protocol.kRapid (Protocol.mkAddr 2 0 81)]
    1000000 1000000 65536 true 2 1.
Definition timeouts : TimeoutHeap := Heap.HeapBase_new 16.
Lemma timeouts_ok : q_ok timeouts /\ q_live timeouts = ∅.
Proof. apply (Heap.new_valid expire_time_ms false 16). apply Nat.leb_le. reflexivity. Qed.
Lemma port0_empty : registered (books port0) = ∅.
Proof. reflexivity. Qed.
(** The books after [n] turns. *)
Definition life (n : nat) : option (list Z * list Z * list Z) :=
  '(ok, s) ← Init two_ports (AgentMaster_new timeouts 1 port0);
  '(_, s) ← turns two_ports n s;
  let b := ledger (m_world s) in Some (accepted b, handed b, dropped b).

Lemma master_conserves_witness : exists s s', Init two_ports (AgentMaster_new timeouts 1 port0) = Some (true, s) /\ turns two_ports 2 s = Some ((), s') /\
  life 2 = Some ([6; 7], [6], [7]) /\ handed (ledger (m_world s')) ++ dropped (ledger (m_world s')) ≡ₚ accepted (ledger (m_world s')).
Proof.
  destruct timeouts_ok as [Qo Ql]. destruct (master_conserves two_ports timeouts 1 port0 2 Qo Ql port0_empty) as (b & s & E & H).
  assert (fst <$> Init two_ports (AgentMaster_new timeouts 1 port0) = Some true) as Eb by (vm_compute; reflexivity).
  rewrite E in Eb. injection Eb as ->. destruct (H eq_refl) as (s' & E' & _ & new & A & P). exists s, s'. split; [exact E|]. split; [exact E'|].
  split; [vm_compute; reflexivity|]. cbn [books port_spec] in A, P. rewrite P, A. reflexivity.
Defined.
End AgentMaster.
