(* ===== verification/Notifier.v ===== *)
(** * Notifier: waking an agent from another thread

    Models src/src/agents/mailbox_notifier.h and details/mailbox_notifier.cpp.
    A thread that sends to an agent gets a pipe of its own on first use; the
    read end is put into the driver of the agent with a context of its own, the
    write end is kept in the thread.  The member [event_ctx_] is never set: the
    declaration in [Notify] hides it. *)

From Stdlib Require Import ZArith Lia.
From stdpp Require Import base list gmap numbers option.
From S2P Require Import Prelude Heap Protocol IOHelper Model EventsDriver PoolObjs Protocols EventCtx.
Import Model.

(** [pipe] gives the result and the two ends. *)
Class PipeOs (W : Type) : Type := {
  key_create : W -> Z * W;
  sys_pipe : W -> (Z * (Z * Z)) * W;
  notifier_setspecific : W -> Z * W;
  sys_write1 : Z -> W -> Z * W;
}.

Module Notifier.
Section Notifier.
Context {W Q : Type} `{CK : !Clock W, EP : !Epoll W, PO : !PipeOs W, FC : !Fcntl W, TQ : !TimeoutQueue Q}.

(** The driver of the agent, the contexts, the write end of each thread. *)
Record MailboxNotifier := mkNotifier {
  driver_ : EventsDriver.EventsDriver Q;
  contexts : Store.Store EventCtx.EventCtx;
  pthread_key_ : gmap Z Z;
  n_world : W;
}.
Definition on_world {A} (m : M W A) : M MailboxNotifier A :=
  zoom n_world (fun w s => mkNotifier (driver_ s) (contexts s) (pthread_key_ s) w) m.
Definition on_contexts {A} (m : M (Store.Store EventCtx.EventCtx) A) : M MailboxNotifier A :=
  zoom contexts (fun c s => mkNotifier (driver_ s) c (pthread_key_ s) (n_world s)) m.
Definition on_driver {A} (f : EventsDriver.EventsDriver Q -> M W (A * EventsDriver.EventsDriver Q)) : M MailboxNotifier A := fun s =>
  match f (driver_ s) (n_world s) with
  | Some ((a, d), w) => Some (a, mkNotifier d (contexts s) (pthread_key_ s) w)
  | None => None
  end.

(** The constructor stops the process when there is no key. *)
Definition MailboxNotifier_new (d : EventsDriver.EventsDriver Q) (w : W) : option MailboxNotifier :=
  let '(ret, w) := key_create w in
  if ret =? 0 then Some (mkNotifier d Store.nothing ∅ w) else None.

(** The destructor, run by thread [t]: it deletes the descriptor number that is
    kept for this thread. *)
Definition MailboxNotifier_delete (t : Z) : M MailboxNotifier () :=
  modify (fun s => mkNotifier (driver_ s) (contexts s) (delete t (pthread_key_ s)) (n_world s)).

(** The pipe of thread [t]: the write end, or the code of the failure.  The
    result of the registration is not looked at. *)
Definition make_pipe (t : Z) : M MailboxNotifier (Z + Z) :=
  '(ret, (rd, wr)) ← on_world (call sys_pipe);
  ok ← (if negb (ret =? 0) then mret false
        else a ← on_world (IOHelper.SetNonBlock rd); if negb a then mret false else on_world (IOHelper.SetNonBlock wr));
  if negb ok then mret (inr (-1))
  else
    c ← on_contexts (Store.new (EventCtx.BuildForMailboxNotify EventCtx.EventCtx_new rd));
    on_driver (fun d => EventsDriver.RegEvent d rd EventsDriver.kAddEvent EventsDriver.kIn c (-1));;
    ret ← on_world (call notifier_setspecific);
    if negb (ret =? 0) then on_driver (fun d => EventsDriver.RegEventDel d wr);; mret (inr (-2))
    else
      modify (fun s => mkNotifier (driver_ s) (contexts s) (<[t := wr]> (pthread_key_ s)) (n_world s));;
      mret (inl wr).

Definition Notify (t : Z) : M MailboxNotifier Z :=
  s ← gets id;
  fd ← (match pthread_key_ s !! t with Some fd => mret (inl fd) | None => make_pipe t end);
  match fd with
  | inr err => mret err
  | inl fd => ret ← on_world (call (sys_write1 fd)); mret (if ret =? 1 then 0 else -3)
  end.

(** What the destructor leaves behind: the contexts of all pipes, the pipes, which
    stay open and registered, and what is kept for the other threads. *)
Lemma delete_leaves t s s' : MailboxNotifier_delete t s = Some ((), s') ->
  driver_ s' = driver_ s /\ contexts s' = contexts s /\ n_world s' = n_world s /\
  forall t' fd, t' <> t -> pthread_key_ s !! t' = Some fd -> pthread_key_ s' !! t' = Some fd.
Proof. intros [= <-]. split_and!; try done. intros t' fd N K. cbn. by rewrite lookup_delete_ne. Qed.

(** ** A thread is given one pipe *)

Context `{TQL : !TimeoutQueueLaws Q}.
Import EventsDriver.

Lemma world_run {A} (f : W -> A * W) s : exists a w, on_world (call f) s = Some (a, mkNotifier (driver_ s) (contexts s) (pthread_key_ s) w) /\ f (n_world s) = (a, w).
Proof. destruct s as [d c k w]. unfold on_world, zoom, call. cbn. destruct (f w) as [a w']. eauto. Qed.

(** Later calls of a thread that has its pipe only write. *)
Lemma Notify_again t fd s : pthread_key_ s !! t = Some fd -> exists k w, sys_write1 fd (n_world s) = (k, w) /\
  Notify t s = Some (if k =? 1 then 0 else -3, mkNotifier (driver_ s) (contexts s) (pthread_key_ s) w).
Proof.
  intros K. unfold Notify. assert ((gets id : M MailboxNotifier _) s = Some (s, s)) as Rg by done. mrun Rg. rewrite K. mpure.
  destruct (world_run (sys_write1 fd) s) as (k & w & E & Ew). mrun E. by exists k, w.
Qed.

(** The first steps of the first call of a thread: the pipe and its context. *)
Record first_call (s : MailboxNotifier) (rd wr c : Z) (cs : Store.Store EventCtx.EventCtx) (w1 w2 w3 : W) : Prop := {
  fc_pipe : sys_pipe (n_world s) = ((0, (rd, wr)), w1);
  fc_rd : IOHelper.SetNonBlock rd w1 = Some (true, w2);
  fc_wr : IOHelper.SetNonBlock wr w2 = Some (true, w3);
  fc_ctx : Store.new (EventCtx.BuildForMailboxNotify EventCtx.EventCtx_new rd) (contexts s) = Some (c, cs);
}.
Lemma first_pipe t s rd wr c cs w1 w2 w3 b d w4 : first_call s rd wr c cs w1 w2 w3 ->
  RegEvent (driver_ s) rd kAddEvent kIn c (-1) w3 = Some ((b, d), w4) ->
  make_pipe t s =
    (ret ← on_world (call notifier_setspecific);
     if negb (ret =? 0) then on_driver (fun d => RegEventDel d wr);; mret (inr (-2))
     else
       modify (fun s => mkNotifier (driver_ s) (contexts s) (<[t := wr]> (pthread_key_ s)) (n_world s));;
       mret (inl wr)) (mkNotifier d cs (pthread_key_ s) w4).
Proof.
  intros [P1 P2 P3 Cx] R. destruct s as [d0 c0 k w]. cbn in P1, Cx, R. unfold make_pipe.
  assert (on_world (call sys_pipe) (mkNotifier d0 c0 k w) = Some ((0, (rd, wr)), mkNotifier d0 c0 k w1)) as E1 by (unfold on_world, zoom, call; cbn; by rewrite P1).
  mrun E1. cbn [Z.eqb negb].
  assert ((a ← on_world (IOHelper.SetNonBlock rd); if negb a then mret false else on_world (IOHelper.SetNonBlock wr)) (mkNotifier d0 c0 k w1) =
    Some (true, mkNotifier d0 c0 k w3)) as E2.
  { unfold on_world, zoom, call, mbind, M_bind. cbn. rewrite P2. cbn. by rewrite P3. }
  mrun E2. cbn [negb].
  assert (on_contexts (Store.new (EventCtx.BuildForMailboxNotify EventCtx.EventCtx_new rd)) (mkNotifier d0 c0 k w3) = Some (c, mkNotifier d0 cs k w3)) as E3
    by (unfold on_contexts, zoom; cbn [contexts]; by rewrite Cx). mrun E3.
  assert (on_driver (fun d => RegEvent d rd kAddEvent kIn c (-1)) (mkNotifier d0 cs k w3) = Some (b, mkNotifier d cs k w4)) as E4
    by (unfold on_driver; cbn [driver_ n_world]; by rewrite R). by mrun E4.
Qed.

Definition with_world (w : W) (s : MailboxNotifier) : MailboxNotifier := mkNotifier (driver_ s) (contexts s) (pthread_key_ s) w.
(** The system gives no pipe, or its ends cannot be made non-blocking. *)
Definition pipe_refused (s : MailboxNotifier) : Prop := forall rd wr c cs w1 w2 w3, ~ first_call s rd wr c cs w1 w2 w3.

Lemma SetNonBlock_run fd (w : W) : exists b w', IOHelper.SetNonBlock fd w = Some (b, w').
Proof.
  unfold IOHelper.SetNonBlock, call, mbind, M_bind. destruct (fcntl_getfl fd w) as [r w1]. destruct (negb (-1 =? r)); [|by eexists _, _].
  destruct (fcntl_setfl fd (Z.lor r IOHelper.O_NONBLOCK) w1). by eexists _, _.
Qed.
Lemma make_pipe_refused t s : pipe_refused s -> exists w, make_pipe t s = Some (inr (-1), with_world w s).
Proof.
  intros N. unfold make_pipe. destruct (world_run sys_pipe s) as ([ret [rd wr]] & w1 & E1 & P1). mrun E1.
  assert (exists w, (if negb (ret =? 0) then mret false else a ← on_world (IOHelper.SetNonBlock rd); if negb a then mret false else on_world (IOHelper.SetNonBlock wr))
    (with_world w1 s) = Some (false, with_world w s)) as [w E].
  { destruct (Z.eqb_spec ret 0) as [->|]; cbn [negb]; [|by exists w1]. destruct (SetNonBlock_run rd w1) as (a & w2 & E2). unfold on_world, zoom, mbind, M_bind. cbn.
    rewrite E2. destruct a; cbn; [|by exists w2]. destruct (SetNonBlock_run wr w2) as (a & w3 & E3). rewrite E3. destruct a; [|by exists w3].
    exfalso. eapply (N rd wr _ _ w1 w2 w3). by split. }
  unfold with_world in E at 1. mrun E. by exists w.
Qed.

(** What the calls for a new pipe give: descriptors, the read one without a
    timeout left in the driver. *)
Definition pipe_fresh (s : MailboxNotifier) : Prop := forall rd wr w1, sys_pipe (n_world s) = ((0, (rd, wr)), w1) ->
  0 <= rd /\ 0 <= wr /\ forall sl, slot (driver_ s) rd = Some sl -> sign_timeo sl = 0%nat.

(** The read end [rd] waits in the driver [d] with the context [c] and without a
    timeout, and was added to the driver's epoll set. *)
Definition waits_for (s : MailboxNotifier) (d : EventsDriver.EventsDriver Q) (rd c : Z) (w w' : W) : Prop :=
  slot d rd = Some (mkSlot (Some c) 0) /\
  exists ev w1, lock_Lock w = (true, w1) /\ epoll_ctl (fd_epoll_ (driver_ s)) EPOLL_CTL_ADD rd ev w1 = (0, w').

Lemma registered s rd c w b d w' : drv_ok (driver_ s) -> 0 <= rd -> (forall sl, slot (driver_ s) rd = Some sl -> sign_timeo sl = 0%nat) ->
  RegEvent (driver_ s) rd kAddEvent kIn c (-1) w = Some ((b, d), w') -> drv_ok d /\ if b then waits_for s d rd c w w' else pending d = pending (driver_ s).
Proof.
  intros Ok Hrd Hs R. destruct (RegEvent_add (driver_ s) rd kIn c (-1) w Ok Hrd Hs) as (b' & d' & w2 & E & Ok' & _ & F & _).
  rewrite R in E. injection E as <- <- <-. split; [done|]. destruct b; [|by apply F]. destruct (RegEvent_added _ _ _ _ _ _ _ (do_init _ Ok) R) as [-> (ev & w1 & El & Ec)].
  split; [by apply added_slot|]. exists ev, w1. split; [done|]. rewrite <- Ec. f_equal. unfold grow. by destruct (_ <=? _).
Qed.

(** How the first call of a thread ends when there is a pipe: [b] is the result
    of the registration, [e] that of [pthread_setspecific]. *)
Definition kept (t : Z) (s : MailboxNotifier) (wr : Z) (d : EventsDriver.EventsDriver Q) (cs : Store.Store EventCtx.EventCtx) (e : Z) (w : W) : Prop :=
  if decide (e = 0) then
    exists k w', sys_write1 wr w = (k, w') /\ Notify t s = Some (if k =? 1 then 0 else -3, mkNotifier d cs (<[t := wr]> (pthread_key_ s)) w')
  else if slot d wr then exists s', Notify t s = Some (-2, s') /\ pthread_key_ s' = pthread_key_ s
  else Notify t s = None.

Lemma first_kept t s rd wr c cs w1 w2 w3 b d w4 : pthread_key_ s !! t = None -> first_call s rd wr c cs w1 w2 w3 -> drv_ok d ->
  RegEvent (driver_ s) rd kAddEvent kIn c (-1) w3 = Some ((b, d), w4) ->
  let '(e, w5) := notifier_setspecific w4 in kept t s wr d cs e w5.
Proof.
  intros K F Ok R. destruct (notifier_setspecific w4) as [e w5] eqn:Sp. unfold kept, Notify.
  assert ((gets id : M MailboxNotifier _) s = Some (s, s)) as Rg by done. rewrite (bind_run _ _ _ _ _ Rg). rewrite K. clear Rg.
  pose proof (first_pipe t s rd wr c cs w1 w2 w3 b d w4 F R) as Mp.
  assert (on_world (call notifier_setspecific) (mkNotifier d cs (pthread_key_ s) w4) = Some (e, mkNotifier d cs (pthread_key_ s) w5)) as E1
    by (unfold on_world, zoom, call; cbn; by rewrite Sp). rewrite (bind_run _ _ _ _ _ E1) in Mp.
  destruct (decide (e = 0)) as [->|Ne].
  - assert (make_pipe t s = Some (inl wr, mkNotifier d cs (<[t := wr]> (pthread_key_ s)) w5)) as E by exact Mp. mrun E.
    destruct (world_run (sys_write1 wr) (mkNotifier d cs (<[t := wr]> (pthread_key_ s)) w5)) as (k & w6 & Ex & Ew). mrun Ex. by exists k, w6.
  - rewrite (proj2 (Z.eqb_neq e 0) Ne) in Mp. cbn [negb] in Mp. destruct (slot d wr) as [sl|] eqn:Sl.
    + destruct (RegEventDel_spec d wr sl w5 Ok Sl) as (b2 & d2 & w6 & Ed & _).
      assert (on_driver (fun d => RegEventDel d wr) (mkNotifier d cs (pthread_key_ s) w5) = Some (b2, mkNotifier d2 cs (pthread_key_ s) w6)) as E2
        by (unfold on_driver; cbn; by rewrite Ed). rewrite (bind_run _ _ _ _ _ E2) in Mp. mrun Mp. by eexists.
    + enough (make_pipe t s = None) as E by (unfold mbind, M_bind; by rewrite E). rewrite Mp. unfold on_driver, mbind, M_bind. cbn.
      unfold RegEventDel. rewrite (bind_run _ _ _ _ _ (raii_ready d w5 (do_init d Ok))). cbn [negb]. unfold RegEventDel_body, mbind, M_bind, deref. by rewrite Sl.
Qed.

(** C35: a call of [Notify] by any thread, for an initialised driver and pipes
    whose read end has no timeout left in the driver.  A thread that has its pipe
    writes one byte to it, and nothing else changes.  The first call of a thread
    fails with -1 and keeps nothing when the system refuses the pipe or its
    flags.  Otherwise the context of the read end is made and the read end is
    registered: when the registration succeeds it waits in the driver without a
    timeout.  The write end is then kept for the thread and one byte is written
    to it, whether or not the registration succeeded; when it cannot be kept the
    call returns -2, or faults if the driver has no slot for the write end. *)
Theorem notify_wakes t s : drv_ok (driver_ s) -> pipe_fresh s ->
  match pthread_key_ s !! t with
  | Some fd => exists k w, sys_write1 fd (n_world s) = (k, w) /\ Notify t s = Some (if k =? 1 then 0 else -3, with_world w s)
  | None =>
      pipe_refused s /\ (exists w, Notify t s = Some (-1, with_world w s)) \/
      exists rd wr c cs w1 w2 w3 b d w4, first_call s rd wr c cs w1 w2 w3 /\
        RegEvent (driver_ s) rd kAddEvent kIn c (-1) w3 = Some ((b, d), w4) /\ drv_ok d /\
        (if b then waits_for s d rd c w3 w4 else pending d = pending (driver_ s)) /\
        (exists e, Store.load cs c = Some e /\ EventCtx.category e = EventCtx.kMailboxNotify /\ EventCtx.fd e = rd) /\
        let '(e, w5) := notifier_setspecific w4 in kept t s wr d cs e w5
  end.
Proof using All.
  intros Ok Fr. destruct (pthread_key_ s !! t) as [fd|] eqn:K; [by apply Notify_again|].
  destruct (sys_pipe (n_world s)) as [[ret [rd wr]] w1] eqn:P1. destruct (SetNonBlock_run rd w1) as (a & w2 & P2). destruct (SetNonBlock_run wr w2) as (a' & w3 & P3).
  destruct (decide (ret = 0 /\ a = true /\ a' = true)) as [(-> & -> & ->)|N].
  - right. destruct (Store.new (EventCtx.BuildForMailboxNotify EventCtx.EventCtx_new rd) (contexts s)) as [[c cs]|] eqn:Cx; [|done].
    destruct (Fr rd wr w1 P1) as (Hrd & _ & Hs). destruct (RegEvent_add (driver_ s) rd kIn c (-1) w3 Ok Hrd Hs) as (b & d & w4 & R & _).
    assert (first_call s rd wr c cs w1 w2 w3) as F by (by split). destruct (registered s rd c w3 b d w4 Ok Hrd Hs R) as [Ok' Hb].
    exists rd, wr, c, cs, w1, w2, w3, b, d, w4. split_and!; [done..| |by eapply first_kept].
    unfold Store.new in Cx. injection Cx as <- <-. eexists. split; [apply lookup_insert_eq|done].
  - left. assert (pipe_refused s) as Rf.
    { intros rd' wr' c cs w1' w2' w3' [Q1 Q2 Q3 _]. apply N. rewrite P1 in Q1. injection Q1 as -> -> -> ->. rewrite P2 in Q2. injection Q2 as -> ->.
      rewrite P3 in Q3. by injection Q3 as -> _. }
    split; [done|]. destruct (make_pipe_refused t s Rf) as [w E]. exists w. unfold Notify.
    assert ((gets id : M MailboxNotifier _) s = Some (s, s)) as Rg by done. mrun Rg. rewrite K. by mrun E.
Qed.

(** When the write end cannot be kept for the thread, the driver is asked to
    delete the write end, for which it has no slot: an access out of range. *)
Lemma notify_unkept_faults t s rd wr c cs w1 w2 w3 d w4 e w5 : drv_ok (driver_ s) -> 0 <= rd < wr ->
  (length (fd_to_event_ctx_ (driver_ s)) <= Z.to_nat rd)%nat -> pthread_key_ s !! t = None -> first_call s rd wr c cs w1 w2 w3 ->
  RegEvent (driver_ s) rd kAddEvent kIn c (-1) w3 = Some ((true, d), w4) -> notifier_setspecific w4 = (e, w5) -> e <> 0 -> Notify t s = None.
Proof.
  intros Ok Hrd Hl Hk F R Sp He. unfold Notify. assert ((gets id : M MailboxNotifier _) s = Some (s, s)) as Rg by done. mrun Rg. rewrite Hk.
  pose proof (first_pipe t s rd wr c cs w1 w2 w3 true d w4 F R) as Mp. assert (make_pipe t s = None) as E; [|by unfold mbind, M_bind; rewrite E].
  rewrite Mp. unfold on_world, zoom, call, mbind, M_bind. cbn. rewrite Sp. rewrite (proj2 (Z.eqb_neq e 0) He). cbn. unfold on_driver. cbn.
  destruct (RegEvent_added _ _ _ _ _ _ _ (do_init _ Ok) R) as [-> _]. unfold RegEventDel, raii. cbn [init_ set_slot with_slots].
  assert (init_ (grow (driver_ s) rd) = true) as Hi by (unfold grow; destruct (_ <=? _); apply Ok). rewrite Hi. rewrite bind_mret. cbn [negb].
  unfold RegEventDel_body, mbind, M_bind, deref. match goal with |- context [slot ?x wr] => assert (slot x wr = None) as -> end; [|done].
  unfold slot. destruct (wr <? 0); [done|]. apply lookup_ge_None_2. cbn. rewrite length_insert. unfold grow.
  rewrite (proj2 (Z.leb_le _ _)) by lia. cbn. rewrite length_app, length_replicate. lia.
Qed.
End Notifier.
Arguments MailboxNotifier : clear implicits.

(** A thread that notifies twice. *)
#[local] Instance calm_clock : Clock () := {| load_time w := (1000, w); store_time _ w := w; gettimeofday w := (1000, w) |}.
#[local] Instance calm_epoll : Epoll () :=
  {| epoll_create w := (3, w); epoll_ctl _ _ _ _ w := (0, w); epoll_wait _ _ w := ((0, []), w); lock_Lock w := (true, w) |}.
#[local] Instance calm_pipe : PipeOs () :=
  {| key_create w := (0, w); sys_pipe w := ((0, (7, 8)), w); notifier_setspecific w := (0, w); sys_write1 _ w := (1, w) |}.
#[local] Instance calm_flags : Fcntl () := {| fcntl_getfl _ w := (2, w); fcntl_setfl _ _ w := (0, w) |}.
Definition notifier0 : MailboxNotifier () TimeoutHeap := mkNotifier EventsDriver.ex_driver Store.nothing ∅ ().
Definition notifier1 : MailboxNotifier () TimeoutHeap := match Notify 20 notifier0 with Some (_, s) => s | None => notifier0 end.
Lemma fresh7 : pipe_fresh notifier0.
Proof. intros rd wr w1 [= <- <-]. split_and!; [done..|]. intros sl H. by rewrite EventsDriver.ex_driver_slot in H. Qed.

Lemma notify_wakes_witness : fst <$> Notify 20 notifier0 = Some 0 /\ pthread_key_ notifier1 = {[20 := 8]} /\
  EventsDriver.slot (driver_ notifier1) 7 = Some (EventsDriver.mkSlot (Some 1) 0) /\ Notify 20 notifier1 = Some (0, notifier1).
Proof.
  pose proof (notify_wakes 20 notifier0 EventsDriver.ex_driver_ok fresh7) as H.
  assert (pthread_key_ notifier0 !! 20 = None) as K by reflexivity. rewrite K in H.
  destruct H as [[_ (w & E)]|(rd & wr & c & cs & w1 & w2 & w3 & b & d & w4 & [F1 _ _ F2] & R & _ & Hb & _ & Hk)].
  { assert (fst <$> Notify 20 notifier0 = Some 0) as E' by (vm_compute; reflexivity). rewrite E in E'. discriminate E'. }
  injection F1 as <- <- _. injection F2 as <- <-. destruct w3, w4. assert (b = true) as ->.
  { assert ((fun r => r.1.1) <$> EventsDriver.RegEvent (driver_ notifier0) 7 EventsDriver.kAddEvent EventsDriver.kIn 1 (-1) () = Some true) as E by (vm_compute; reflexivity).
    rewrite R in E. by injection E. }
  destruct Hb as [Sl _]. cbn in Hk. destruct Hk as (k & w & Hk & E). injection Hk as <- <-. unfold notifier1. rewrite E.
  split; [reflexivity|]. split; [reflexivity|]. split; [exact Sl|]. reflexivity.
Defined.

(** The same when the registration fails: the call reports success, but nothing
    waits for the byte it has written. *)
Definition no_epoll : Epoll () :=
  {| epoll_create w := (3, w); epoll_ctl _ _ _ _ w := (-1, w); epoll_wait _ _ w := ((0, []), w); lock_Lock w := (true, w) |}.
Example unregistered_notify : (fun r => (r.1, EventsDriver.slot (driver_ r.2) 7)) <$> Notify (EP := no_epoll) 20 notifier0 =
  Some (0, Some (EventsDriver.mkSlot (Some 1) 0)).
Proof. vm_compute. reflexivity. Qed.
End Notifier.
