(* ===== verification/Lifecycle.v ===== *)
(** * Lifecycle: threads are started, stopped and joined

    Models the thread part of the agents, the acceptor and the schedulers
    ([Start], [Stop], [Run_]), the vectors of them in
    src/src/agents/details/agents.cpp and src/src/schedulers/details/schedulers.cpp,
    and their owner [MagnetoBase] (src/src/details/magneto_base.cpp) from
    [Init] to its destructor.

    The three classes that own a thread have the same code around it, so it is
    written once over an interface, [Worker]: what the thread runs until it
    sees [end_], and what [Stop] does after the join.  What a thread does is
    placed at its join; threads only meet in the world.  After a failed
    [pthread_create] the variable for the id holds any value; [Stop] joins it
    unless it is 0. *)

From Stdlib Require Import ZArith Lia.
From stdpp Require Import base list gmap numbers option.
From S2P Require Import Prelude Os Protocol Rapid Redis IOHelper Model ConnsMgr EventsDriver Heap PoolObjs Protocols Fds Confs EventCtx Msg Session AgentSlave AgentFrame Startup IOBasic Scheduler Agents.
Import Os Buffer Model.

(** [pthread_create(&tid, ...)]: the error number and the new value of the
    variable; [laps] is the number of turns a loop makes before it sees
    [end_]. *)
Class ThreadOs (W : Type) : Type := {
  pthread_create : Z -> W -> (Z * Z) * W;
  pthread_join : Z -> W -> Z * W;
  laps : W -> nat * W;
  (** [while (!*end_) sleep(1)]. *)
  wait_end : W -> W;
}.
(** The threads created and the ids joined so far.  The id of a thread is not
    0, which the program uses for no thread; nothing is said of the variable
    after a failed creation. *)
Class ThreadSpec (W : Type) `{TO : !ThreadOs W} : Type := {
  created : W -> list Z;
  joined : W -> list Z;
  create_joined tid w : joined (pthread_create tid w).2 = joined w;
  create_ok tid w : (pthread_create tid w).1.1 = 0 ->
    (pthread_create tid w).1.2 <> 0 /\ created (pthread_create tid w).2 = created w ++ [(pthread_create tid w).1.2];
  create_fail tid w : (pthread_create tid w).1.1 <> 0 -> created (pthread_create tid w).2 = created w;
  join_created tid w : created (pthread_join tid w).2 = created w;
  join_joined tid w : joined (pthread_join tid w).2 = joined w ++ [tid];
  laps_idle w : created (laps w).2 = created w /\ joined (laps w).2 = joined w;
  wait_end_idle w : created (wait_end w) = created w /\ joined (wait_end w) = joined w;
}.

(** What owns a thread. *)
Class Worker (W S : Type) : Type := {
  work_Run : nat -> S -> M W S;
  work_Clear : S -> M W S;
}.

Module Threads.
Section Threads.
Context {W S : Type} `{TO : !ThreadOs W, WK : !Worker W S}.

(** [running] is no variable of the program: it says whether there is a thread. *)
Record Thread := mkThread { obj : S; tid_ : Z; end_ : bool; running : bool }.
Definition Thread_new (o : S) : Thread := mkThread o 0 false false.

Definition Start (t : Thread) : M W (bool * Thread) :=
  '(ret, tid) ← call (pthread_create (tid_ t));
  mret (ret =? 0, mkThread (obj t) tid (end_ t) (ret =? 0)).

Definition Stop (t : Thread) : M W Thread :=
  o ← (if tid_ t =? 0 then mret (obj t)
       else
         o ← (if running t then n ← call laps; work_Run n (obj t) else mret (obj t));
         call (pthread_join (tid_ t));; mret o);
  o ← work_Clear o;
  mret (mkThread o 0 true false).

Fixpoint Start_all (l : list Thread) : M W (bool * list Thread) :=
  match l with
  | [] => mret (true, [])
  | t :: l =>
      '(ret, t) ← Start t;
      if negb ret then mret (false, t :: l) else '(ret, l) ← Start_all l; mret (ret, t :: l)
  end.
Fixpoint Stop_all (l : list Thread) : M W (list Thread) :=
  match l with
  | [] => mret []
  | t :: l => t ← Stop t; l ← Stop_all l; mret (t :: l)
  end.

(** ** Threads are joined once *)

(** The ids that [Stop] will join; those of threads, and the values left by
    failed creations. *)
Definition ids (l : list Thread) : list Z := filter (fun i => i <> 0) (tid_ <$> l).
Definition alive (l : list Thread) : list Z := ids (filter (fun t => running t = true) l).
Definition strays (l : list Thread) : list Z := ids (filter (fun t => running t = false) l).

Context `{TS : !ThreadSpec W}.
Definition idle (w w' : W) : Prop := created w' = created w /\ joined w' = joined w.
#[export] Instance idle_preorder : PreOrder idle.
Proof. split; [done|]. intros w1 w2 w3 [] []. split; congruence. Qed.

Context (quiet_Run : forall n o, keeps idle (work_Run n o)) (quiet_Clear : forall o, keeps idle (work_Clear o)).

Lemma ids_cons t l : ids (t :: l) = ids [t] ++ ids l.
Proof. unfold ids. cbn [fmap list_fmap]. rewrite !filter_cons. by destruct (decide (tid_ t <> 0)). Qed.
Lemma ids_app l l' : ids (l ++ l') = ids l ++ ids l'.
Proof. induction l as [|t l IH]; [done|]. cbn [app]. by rewrite (ids_cons t (l ++ l')), (ids_cons t l), IH, (assoc_L (++)). Qed.
Lemma ids_zero l : Forall (fun t => tid_ t = 0) l -> ids l = [].
Proof.
  induction 1 as [|t l H _ IH]; [done|]. rewrite ids_cons, IH. unfold ids. cbn [fmap list_fmap]. rewrite H, filter_cons_False; [done|]. intros N. by apply N.
Qed.

Lemma alive_app l l' : alive (l ++ l') = alive l ++ alive l'.
Proof. unfold alive. by rewrite list.filter_app, ids_app. Qed.
Lemma strays_app l l' : strays (l ++ l') = strays l ++ strays l'.
Proof. unfold strays. by rewrite list.filter_app, ids_app. Qed.
Lemma zero_filter (P : Thread -> Prop) `{!forall t, Decision (P t)} l : Forall (fun t => tid_ t = 0) l -> ids (filter P l) = [].
Proof. intros F. apply ids_zero. rewrite list.Forall_forall in *. intros t [_ Ht]%list_elem_of_filter. auto. Qed.
Lemma zero_ids l : ids l = [] -> Forall (fun t => tid_ t = 0) l.
Proof.
  induction l as [|t l IH]; [constructor|]. rewrite ids_cons. intros [H1 H2]%app_nil. constructor; [|auto]. destruct (decide (tid_ t = 0)) as [|Nz]; [done|].
  exfalso. revert H1. unfold ids. cbn [fmap list_fmap]. by rewrite filter_cons_True.
Qed.
(** Every id is that of a thread or a stray one. *)
Lemma ids_split l : ids l ≡ₚ alive l ++ strays l.
Proof.
  induction l as [|t l IH]; [done|]. change (t :: l) with ([t] ++ l). rewrite ids_app, alive_app, strays_app, IH.
  assert (ids [t] ≡ₚ alive [t] ++ strays [t]) as ->; [|solve_Permutation].
  unfold alive, strays. destruct (running t) eqn:R; rewrite (filter_cons (fun t => running t = true)), (filter_cons (fun t => running t = false)), R; cbn;
    by rewrite ?app_nil_r.
Qed.

(** What a start did: the new threads are in their places, and there is at
    most one stray id, and none when it succeeded. *)
Definition launched (b : bool) (l' : list Thread) (w w' : W) : Prop :=
  joined w' = joined w /\ created w' = created w ++ alive l' /\ (length (strays l') <= if b then 0 else 1)%nat.

Lemma Start_law t b t' w w' : Start t w = Some ((b, t'), w') -> launched b [t'] w w'.
Proof using All.
  intros E. unfold Start in E. step E as [ret tid] w1 E1. injection E as <- <- ->. unfold call in E1. injection E1 as E1.
  pose proof (create_joined (tid_ t) w) as J. pose proof (create_ok (tid_ t) w) as C. pose proof (create_fail (tid_ t) w) as F.
  rewrite E1 in J, C, F. cbn [fst snd] in J, C, F. split; [done|]. unfold alive, strays, ids.
  destruct (ret =? 0) eqn:Hr; rewrite ?Z.eqb_eq, ?Z.eqb_neq in Hr.
  - destruct (C Hr) as [Nz ->]. rewrite (filter_cons_True _ _ []), (filter_cons_False _ _ []) by done. cbn [fmap list_fmap tid_].
    by rewrite filter_cons_True.
  - rewrite (F Hr), (filter_cons_False _ _ []), (filter_cons_True _ _ []) by done. split; [by rewrite app_nil_r|].
    etransitivity; [apply length_filter|done].
Qed.

Lemma launched_app b b' l l' w w1 w' : launched b l w w1 -> (b = true -> launched b' l' w1 w') ->
  (b = false -> w' = w1 /\ Forall (fun t => tid_ t = 0) l') -> launched (b && b') (l ++ l') w w'.
Proof using All.
  intros (J1 & C1 & S1) H1 H0. unfold launched. rewrite alive_app, strays_app. destruct b; cbn [andb].
  - destruct (H1 eq_refl) as (J2 & C2 & S2). split_and!; [congruence|by rewrite C2, C1, (assoc_L (++))|]. rewrite length_app. destruct b'; lia.
  - destruct (H0 eq_refl) as [-> F]. unfold alive, strays in *. rewrite !(zero_filter _ l' F), !app_nil_r. by split_and!.
Qed.
Lemma Start_all_law l : forall b l' w w', Forall (fun t => tid_ t = 0) l -> Start_all l w = Some ((b, l'), w') -> launched b l' w w'.
Proof using All.
  induction l as [|t l IH]; intros b l' w w' F E; cbn [Start_all] in E; [injection E as <- <- <-; split_and!; [done|by rewrite app_nil_r|done]|].
  apply list.Forall_cons in F as [H0 F]. step E as [ret t'] w1 E1. apply Start_law in E1. destruct ret; cbn [negb] in E.
  - step E as [r l1] w2 E2. injection E as <- <- <-. apply (launched_app true r [t'] l1 w w1 w2 E1); [|done]. intros _. by apply IH.
  - injection E as <- <- <-. by apply (launched_app false true [t'] l w w1 w1 E1).
Qed.

Lemma Stop_law t t' w w' : Stop t w = Some (t', w') -> created w' = created w /\ joined w' = joined w ++ ids [t] /\ tid_ t' = 0.
Proof using All.
  intros E. unfold Stop in E. step E as o w1 E1. step E as o2 w2 E2. injection E as <- <-. apply quiet_Clear in E2 as [C2 J2].
  assert (created w1 = created w /\ joined w1 = joined w ++ ids [t]) as [C1 J1]; [|by rewrite C2, J2].
  unfold ids. cbn [fmap list_fmap]. destruct (tid_ t =? 0) eqn:H0; rewrite ?Z.eqb_eq, ?Z.eqb_neq in H0.
  - injection E1 as _ <-. rewrite H0, filter_cons_False by (intros N; by apply N). by rewrite app_nil_r.
  - rewrite filter_cons_True by done. step E1 as o3 w4 E4. step E1 as r w5 E5. injection E1 as _ ->.
    assert (created w4 = created w /\ joined w4 = joined w) as [C4 J4].
    { destruct (running t); [|by injection E4 as _ <-]. step E4 as n w3 E3. apply quiet_Run in E4 as [C4 J4].
      pose proof (laps_idle w) as [C3 J3]. unfold call in E3. injection E3 as E3. rewrite E3 in C3, J3. cbn in *. split; congruence. }
    unfold call in E5. injection E5 as E5. pose proof (join_created (tid_ t) w4) as C5. pose proof (join_joined (tid_ t) w4) as J5. rewrite E5 in C5, J5.
    cbn in *. split; congruence.
Qed.
Lemma Stop_all_law l : forall l' w w', Stop_all l w = Some (l', w') ->
  created w' = created w /\ joined w' = joined w ++ ids l /\ Forall (fun t => tid_ t = 0) l'.
Proof using All.
  induction l as [|t l IH]; intros l' w w' E; cbn [Stop_all] in E; [injection E as <- <-; by rewrite app_nil_r|].
  step E as t' w1 E1. step E as l1 w2 E2. injection E as <- <-. apply Stop_law in E1 as (C1 & J1 & Z1). apply IH in E2 as (C2 & J2 & Z2).
  split; [congruence|]. split; [by rewrite ids_cons, J2, J1, (assoc_L (++))|by constructor].
Qed.

End Threads.
Arguments Thread : clear implicits.
End Threads.

(** What a scheduler uses when it is set up: [DefaultNotifier::Init], and its
    own mailbox. *)
Class SchedulerSetup (W : Type) : Type := {
  notifier_Init : W -> bool * W;
  sched_SendMsg : Msg.Msg -> W -> bool * W;
}.

Module Lifecycle.
Import Threads.
Definition kThreholdSenderNotify : Z := 0.

Section Life.
Context {W Q : Type} `{NI : !NetIO W, SK : !Sock W, CK : !Clock W, EP : !Epoll W, PE : !Peers W, TQ : !TimeoutQueue Q, RD : !Rand, MA : !Malloc,
  MS : !MailboxSetup W, LA : !Layout, AC : !Acceptor W, AM : !AgentMail W, SM : !SchedulerMail W, SS : !SchedulerSetup W, TO : !ThreadOs W,
  IA : !Confs.InetAddr} {FU : Protocol.Fuel}.
(** The empty queue of timeouts, the first seed of the acceptor, and the
    procedures. *)
Context (q0 : Q) (seed0 : Z) (swapcontext : ptr -> M (Scheduler.Scheduler W) Z).

(** ** The three kinds of threads *)

Record Slave := mkSlave { slave_conf : Confs.ConfNormal; slave : Session.Agent W Q }.
Record Master := mkMaster { master_conf : Confs.ConfNormal; master : AgentMaster.AgentMaster W Q }.
Record Sched := mkSched { sched : Scheduler.Scheduler W; is_req_scheduler_ : bool; num_case_routine_item_ : nat }.

(** A computation on a state that has the world inside. *)
Definition inside {T} (get : T -> W) (set : W -> T -> T) (m : M T ()) (t : T) : M W T := fun w =>
  match m (set w t) with Some (_, t') => Some (t', get t') | None => None end.
(** [while (!end_) Process_(); Process_();] *)
Fixpoint rounds {S} (n : nat) (m : M S ()) : M S () := match n with O => m | S n => m;; rounds n m end.

Definition in_slave (m : Confs.ConfNormal -> M (Session.Agent W Q) ()) (s : Slave) : M W Slave :=
  a ← inside Session.world Session.set_world (m (slave_conf s)) (slave s); mret (mkSlave (slave_conf s) a).
#[export] Instance slave_worker : Worker W Slave := {|
  work_Run n := in_slave (fun conf => rounds n (AgentSlave.Process_ conf));
  work_Clear := in_slave (fun _ => AgentSlave.Stop) |}.

Definition master_world (w : W) (m : AgentMaster.AgentMaster W Q) : AgentMaster.AgentMaster W Q :=
  AgentMaster.mkMaster (AgentMaster.events_driver_ m) (AgentMaster.listen_ctxs m) (AgentMaster.seed m) w.
Definition in_master (f : Confs.ConfNormal -> M (AgentMaster.AgentMaster W Q) ()) (m : Master) : M W Master :=
  a ← inside AgentMaster.m_world master_world (f (master_conf m)) (master m); mret (mkMaster (master_conf m) a).
#[export] Instance master_worker : Worker W Master := {|
  work_Run n := in_master (fun conf => rounds n (AgentMaster.Process_ conf));
  work_Clear := in_master (fun _ => AgentMaster.Stop) |}.

Definition sched_world (w : W) (s : Scheduler.Scheduler W) : Scheduler.Scheduler W :=
  Scheduler.with_thread (BizProcedure.mkThread (BizProcedure.procs (Scheduler.thread s)) (BizProcedure.vectors (Scheduler.thread s))
    (BizProcedure.t_protos (Scheduler.thread s)) w) s.
Definition get_sched_world (s : Scheduler.Scheduler W) : W := BizProcedure.t_world (Scheduler.thread s).
(** The messages that start the routines: false when the mailbox is full. *)
Fixpoint start_routines (n : nat) : M (Scheduler.Scheduler W) bool :=
  match n with
  | O => mret true
  | S n =>
      ret ← Scheduler.on_thread (BizProcedure.on_world (call (sched_SendMsg (Msg.NewReq (Msg.mkNewReq 0 0 0 None)))));
      if negb ret then mret false else start_routines n
  end.
Definition Scheduler_Run_ (req : bool) (num_case n : nat) : M (Scheduler.Scheduler W) () :=
  ok ← (if req then mret true else start_routines num_case);
  if negb ok then mret () else rounds n (Scheduler.Process_ swapcontext).
#[export] Instance sched_worker : Worker W Sched := {|
  work_Run n s := x ← inside get_sched_world sched_world (Scheduler_Run_ (is_req_scheduler_ s) (num_case_routine_item_ s) n) (sched s);
                  mret (mkSched x (is_req_scheduler_ s) (num_case_routine_item_ s));
  work_Clear s := mret s |}.

(** ** Agents *)

Record Agents := mkAgents { agent_master_ : option (Thread Master); agent_slaves_ : list (Thread Slave) }.
Definition Agents_new : Agents := mkAgents None [].

(** The loop of [Init].  An agent that could not be set up is deleted: its
    [Stop] clears a driver without registrations. *)
Fixpoint Slaves_loop (slave_Init : M W (option (Session.Agent W Q))) (n : nat) (cn : Confs.ConfNormal) (acc : list (Thread Slave))
    : M W (bool * list (Thread Slave)) :=
  match n with
  | O => mret (true, acc)
  | S n =>
      r ← slave_Init;
      match r with
      | None => EventsDriver.ClearAll (EventsDriver.EventsDriver_new false q0);; mret (false, acc)
      | Some a => Slaves_loop slave_Init n cn (acc ++ [Thread_new (mkSlave cn a)])
      end
  end.
Definition Slaves_Init (cn : Confs.ConfNormal) (remotes : list Remote) : M W (bool * list (Thread Slave)) :=
  Slaves_loop (Startup.Init cn q0 remotes ∅ Protocols.Protos_new) (Z.to_nat (Confs.num_agents_ cn)) cn [].
Definition Master_Init (cn : Confs.ConfNormal) : M W (bool * AgentMaster.AgentMaster W Q) := fun w =>
  match AgentMaster.Init cn (AgentMaster.AgentMaster_new q0 seed0 w) with
  | Some (b, m) => Some ((b, m), AgentMaster.m_world m)
  | None => None
  end.
Definition Agents_Init (cn : Confs.ConfNormal) (remotes : list Remote) : M W (bool * Agents) :=
  '(ok, slaves) ← Slaves_Init cn remotes;
  if negb ok then mret (false, mkAgents None slaves)
  else
    '(ret, m) ← Master_Init cn;
    mret (ret, mkAgents (Some (Thread_new (mkMaster cn m))) slaves).
Definition Agents_Start (a : Agents) : M W (bool * Agents) :=
  '(ret, slaves) ← Start_all (agent_slaves_ a);
  if negb ret then mret (false, mkAgents (agent_master_ a) slaves)
  else
    m ← deref (agent_master_ a);
    '(ret, m) ← Start m;
    mret (ret, mkAgents (Some m) slaves).
(** [agent_master_] is used without a check. *)
Definition Agents_Stop (a : Agents) : M W Agents :=
  m ← deref (agent_master_ a);
  m ← Stop m;
  slaves ← Stop_all (agent_slaves_ a);
  mret (mkAgents (Some m) slaves).
(** [~Agents]; the destructors of the agents and of the acceptor stop them
    again. *)
Definition Agents_delete (a : Agents) : M W () :=
  a ← Agents_Stop a;
  Stop_all (agent_slaves_ a);;
  m ← deref (agent_master_ a);
  Stop m;;
  mret ().

(** ** Schedulers *)

Definition Scheduler_Init (cn : Confs.ConfNormal) (req : bool) (num_case : nat) : M W (option Sched) :=
  ret ← call notifier_Init;
  ret ← (if (ret : bool) then call (mailbox_Init (Confs.size_scheduler_mailbox_ cn) Msg.kMaxSizeMsg kThreholdSenderNotify) else mret false);
  if negb ret then mret None
  else
    w ← gets id;
    mret (Some (mkSched
      {| Scheduler.thread := BizProcedure.mkThread Store.nothing Store.nothing Protocols.Protos_new w;
         Scheduler.task_queue_ := [];
         Scheduler.pool_biz_procedure_ := PoolObjs.PoolObjs_new BizProcedure.Biz_new sizeof_BizProcedure 0 PoolObjs.kDefaultMemPerBlock true true
           PoolObjs.kDefaultMaxNumBlocks;
         Scheduler.current_biz_procedure := None |} req num_case)).

Record Schedulers := mkSchedulers { schedulers_req_ : list (Thread Sched); schedulers_routine_ : list (Thread Sched) }.
Definition Schedulers_new : Schedulers := mkSchedulers [] [].

(** One scheduler for each entry: the cases of a routine, or none for requests. *)
Fixpoint Schedulers_loop (cn : Confs.ConfNormal) (req : bool) (l : list nat) (acc : list (Thread Sched)) : M W (bool * list (Thread Sched)) :=
  match l with
  | [] => mret (true, acc)
  | num_case :: l =>
      r ← Scheduler_Init cn req num_case;
      match r with
      | None => mret (false, acc)
      | Some x => Schedulers_loop cn req l (acc ++ [Thread_new x])
      end
  end.
Definition Schedulers_Init (cn : Confs.ConfNormal) (req_handler : bool) (routine_items : option (list nat)) : M W (bool * Schedulers) :=
  '(ok, req) ← (if req_handler then Schedulers_loop cn true (replicate (Z.to_nat (Confs.num_schedulers_ cn)) 0%nat) [] else mret (true, []));
  if negb ok then mret (false, mkSchedulers req [])
  else
    '(ok, routine) ← (match routine_items with Some l => Schedulers_loop cn false l [] | None => mret (true, []) end);
    mret (ok, mkSchedulers req routine).
Definition Schedulers_Start (s : Schedulers) : M W (bool * Schedulers) :=
  '(ret, req) ← Start_all (schedulers_req_ s);
  if negb ret then mret (false, mkSchedulers req (schedulers_routine_ s))
  else '(ret, routine) ← Start_all (schedulers_routine_ s); mret (ret, mkSchedulers req routine).
Definition Schedulers_Stop (s : Schedulers) : M W Schedulers :=
  req ← Stop_all (schedulers_req_ s);
  routine ← Stop_all (schedulers_routine_ s);
  mret (mkSchedulers req routine).
Definition Schedulers_delete (s : Schedulers) : M W () :=
  s ← Schedulers_Stop s;
  Stop_all (schedulers_req_ s);;
  Stop_all (schedulers_routine_ s);;
  mret ().

(** ** Their owner *)

(** Null pointers are [None]; the object [IOBasic] is in Api.v. *)
Record MagnetoBase := mkBase {
  confs_ : option (Confs.ConfNormal * Confs.ConfServices);
  schedulers_ : option Schedulers;
  agents_ : option Agents;
}.
Definition MagnetoBase_new : MagnetoBase := mkBase None None None.

Definition delete_agents (a : option Agents) : M W () := match a with Some a => Agents_delete a | None => mret () end.
Definition delete_schedulers (s : option Schedulers) : M W () := match s with Some s => Schedulers_delete s | None => mret () end.

(** [Init], with the parsed files; on a failure what was made is deleted. *)
Definition MagnetoBase_Init (normal services : option Json.Json) (addr0 : Protocol.Addr) (req_handler : bool) (routine_items : option (list nat))
    : M W (bool * MagnetoBase) :=
  match Confs.ConfNormal_Init normal addr0 with
  | None => mret (false, MagnetoBase_new)
  | Some cn =>
      match Confs.ConfServices_Init services cn addr0 with
      | None => mret (false, MagnetoBase_new)
      | Some cs =>
          '(ret, ss) ← Schedulers_Init cn req_handler routine_items;
          if negb ret then delete_agents (Some Agents_new);; delete_schedulers (Some ss);; mret (false, MagnetoBase_new)
          else
            '(ret, ag) ← Agents_Init cn (Confs.remotes_ cs);
            if negb ret then delete_agents (Some ag);; delete_schedulers (Some ss);; mret (false, MagnetoBase_new)
            else mret (true, mkBase (Some (cn, cs)) (Some ss) (Some ag))
      end
  end.
Definition MagnetoBase_Start (m : MagnetoBase) : M W (bool * MagnetoBase) :=
  ag ← deref (agents_ m);
  '(ret, ag) ← Agents_Start ag;
  if negb ret then mret (false, mkBase (confs_ m) (schedulers_ m) (Some ag))
  else
    ss ← deref (schedulers_ m);
    '(ret, ss) ← Schedulers_Start ss;
    mret (ret, mkBase (confs_ m) (Some ss) (Some ag)).
Definition MagnetoBase_Stop (m : MagnetoBase) : M W MagnetoBase :=
  modify wait_end;;
  ag ← (match agents_ m with Some ag => ag ← Agents_Stop ag; mret (Some ag) | None => mret None end);
  ss ← (match schedulers_ m with Some ss => ss ← Schedulers_Stop ss; mret (Some ss) | None => mret None end);
  mret (mkBase (confs_ m) ss ag).
(** [~MagnetoBase]. *)
Definition MagnetoBase_delete (m : MagnetoBase) : M W () :=
  m ← MagnetoBase_Stop m;
  delete_agents (agents_ m);;
  delete_schedulers (schedulers_ m).

(** [Magneto], the owner of a [MagnetoBase] that the program sees. *)
Abbreviation Magneto := (option MagnetoBase).
Definition Magneto_new : Magneto := None.
Definition Magneto_Init (normal services : option Json.Json) (addr0 : Protocol.Addr) (req_handler : bool) (routine_items : option (list nat))
    : M W (bool * Magneto) :=
  '(ret, b) ← MagnetoBase_Init normal services addr0 req_handler routine_items; mret (ret, Some b).
Definition Magneto_Start (m : Magneto) : M W (bool * Magneto) :=
  b ← deref m; '(ret, b) ← MagnetoBase_Start b; mret (ret, Some b).
Definition Magneto_Stop (m : Magneto) : M W Magneto := b ← deref m; b ← MagnetoBase_Stop b; mret (Some b).
Definition Magneto_delete (m : Magneto) : M W () := match m with Some b => MagnetoBase_delete b | None => mret () end.

(** ** Every thread is joined once *)

Context `{TS : !ThreadSpec W}.
(** No other call starts or joins a thread. *)
Class ThreadFrame : Prop := {
  tf_agent :: AgentInert idle;
  tf_listen a n w : idle w (sys_Listen a n w).2;
  tf_accept fd w : idle w (sys_Accept fd w).2;
  tf_counts w : idle w (slave_counts w).2;
  tf_mail id m w : idle w (agents_SendMsg id m w).2;
  tf_receive w : idle w (sched_ReceiveMsg w).2;
  tf_consumed w : idle w (sched_MsgConsumed w);
  tf_send m w : idle w (sched_SendMsg m w).2;
  tf_notifier w : idle w (notifier_Init w).2;
  tf_mailbox a b c w : idle w (mailbox_Init a b c w).2;
  tf_slot w : idle w (sched_slot w).2;
  tf_swap b s r s' : swapcontext b s = Some (r, s') -> idle (get_sched_world s) (get_sched_world s');
}.
Context `{TF : !ThreadFrame}.
#[local] Instance idle_inert : Inert (idle (W := W)) := ag_inert.

Lemma inside_keeps {T} (get : T -> W) (set : W -> T -> T) (m : M T ()) t : (forall w, get (set w t) = w) ->
  keeps (fun t t' => idle (get t) (get t')) m -> keeps idle (inside get set m t).
Proof. intros G K w t' w'. unfold inside. destruct (m (set w t)) as [[[] t1]|] eqn:E; [|done]. intros [= <- <-]. apply K in E. by rewrite G in E. Qed.
Lemma rounds_keeps {S} (R : relation S) `{!PreOrder R} n (m : M S ()) : keeps R m -> keeps R (rounds n m).
Proof. intros K. induction n as [|n IH]; cbn [rounds]; [done|]. by apply keeps_bind. Qed.

(** *** Agents *)

Lemma slave_keeps (f : Confs.ConfNormal -> M (Session.Agent W Q) ()) s : (forall conf, keeps (AgentFrame.worlds idle) (f conf)) -> keeps idle (in_slave f s).
Proof. intros H. unfold in_slave. apply keeps_bind; [apply _|by apply inside_keeps; [|apply H]|intros a; apply keeps_ret, _]. Qed.
Lemma slave_Run n (s : Slave) : keeps idle (work_Run n s).
Proof using All.
  apply slave_keeps. intros conf. apply rounds_keeps; [exact (AgentFrame.worlds_pre idle)|]. exact (AgentFrame.Process_keeps conf idle).
Qed.
Lemma slave_Clear (s : Slave) : keeps idle (work_Clear s).
Proof using All. apply slave_keeps. intros conf. exact (AgentFrame.Stop_keeps idle). Qed.

(** *** The acceptor *)

Definition master_idle (m m' : AgentMaster.AgentMaster W Q) : Prop := idle (AgentMaster.m_world m) (AgentMaster.m_world m').
#[local] Instance master_idle_pre : PreOrder master_idle.
Proof. split; [by intros m|]. intros a b c H1 H2. unfold master_idle in *. by etransitivity. Qed.
Lemma master_world_keeps {A} (m : M W A) : keeps idle m -> keeps master_idle (AgentMaster.on_world (Q := Q) m).
Proof. intros H. eapply keeps_zoom; [exact H|done]. Qed.
Lemma master_driver_keeps {A} (f : EventsDriver.EventsDriver Q -> M W (A * EventsDriver.EventsDriver Q)) :
  (forall d, keeps idle (f d)) -> keeps master_idle (AgentMaster.on_driver f).
Proof. intros H a r a'. unfold AgentMaster.on_driver. destruct (f _ _) as [[[x d] w]|] eqn:E; [|done]. intros [= <- <-]. exact (H _ _ _ _ E). Qed.
Lemma master_ctxs_keeps {A} (m : M (Store.Store EventCtx.EventCtx) A) : keeps master_idle (AgentMaster.on_ctxs m).
Proof. intros a r a' (p & E & ->)%zoom_inv. by unfold master_idle. Qed.
Hint Resolve master_ctxs_keeps : frame.
Hint Extern 1 (keeps master_idle (modify _)) => apply keeps_modify; intros; unfold master_idle; reflexivity : frame.
Hint Extern 1 (idle _ _) => first [apply tf_listen | apply tf_accept | apply tf_counts | apply tf_mail | apply tf_receive | apply tf_consumed | apply tf_slot | apply tf_send |
  apply tf_notifier | apply tf_mailbox | apply (ag_close (R := idle))] : frame.
Ltac by_inert := first [apply Inert.inert_Wait | apply Inert.inert_RegEvent | apply Inert.inert_Close | apply Inert.inert_Sec | apply Inert.inert_raii |
  apply AgentFrame.ClearAll_driver_keeps]; first [apply idle_inert | apply tf_agent | intros; apply (ag_close (R := idle))].
Hint Extern 3 (keeps idle _) => by_inert : frame.
Ltac life_frame := repeat first [frame_step | apply master_world_keeps | apply master_driver_keeps; intros].

Lemma Accepted_keeps conf la fd : keeps master_idle (AgentMaster.Accepted (Q := Q) conf la fd).
Proof using All. unfold AgentMaster.Accepted, Msg.BuildForReadReq. life_frame. Qed.
Hint Resolve Accepted_keeps : frame.
Lemma accept_loop_keeps conf n : forall i, keeps master_idle (AgentMaster.CheckEvents_loop (Q := Q) conf n i).
Proof using All. induction n as [|n IH]; intros i; cbn [AgentMaster.CheckEvents_loop]; unfold AgentMaster.CheckEvent; life_frame. Qed.
Hint Resolve accept_loop_keeps : frame.
Lemma master_Process_keeps conf : keeps master_idle (AgentMaster.Process_ (Q := Q) conf).
Proof using All.
  unfold AgentMaster.Process_. induction Protocol.fuel as [|n IH]; cbn [AgentMaster.Process_loop]; unfold AgentMaster.CheckEvents_; life_frame.
Qed.
Lemma master_Stop_keeps : keeps master_idle (AgentMaster.Stop (Q := Q)).
Proof using All. unfold AgentMaster.Stop. life_frame. induction a as [|c l IH]; cbn [AgentMaster.Stop_loop]; life_frame. Qed.
Lemma master_Init_keeps cn : keeps idle (Master_Init cn).
Proof using All.
  intros w [b m] w'. unfold Master_Init. destruct (AgentMaster.Init _ _) as [[b1 m1]|] eqn:E; [|done]. intros [= <- <- <-].
  assert (keeps master_idle (AgentMaster.Init (Q := Q) cn)) as K; [|exact (K _ _ _ E)]. clear E. unfold AgentMaster.Init.
  induction (Confs.listen_addrs_ cn) as [|la l IH]; cbn [AgentMaster.Init_loop]; unfold AgentMaster.ListenOnAddr_; life_frame.
Qed.
Lemma in_master_keeps (f : Confs.ConfNormal -> M (AgentMaster.AgentMaster W Q) ()) m : (forall conf, keeps master_idle (f conf)) -> keeps idle (in_master f m).
Proof. intros H. unfold in_master. apply keeps_bind; [apply _|by apply inside_keeps; [|apply H]|intros a; apply keeps_ret, _]. Qed.
Lemma master_Run n (m : Master) : keeps idle (work_Run n m).
Proof using All. apply in_master_keeps. intros conf. apply rounds_keeps; [apply _|apply master_Process_keeps]. Qed.
Lemma master_Clear (m : Master) : keeps idle (work_Clear m).
Proof using All. apply in_master_keeps. intros conf. apply master_Stop_keeps. Qed.

(** *** Schedulers *)

Definition sched_idle (s s' : Scheduler.Scheduler W) : Prop := idle (get_sched_world s) (get_sched_world s').
#[local] Instance sched_idle_pre : PreOrder sched_idle.
Proof. split; [by intros m|]. intros a b c H1 H2. unfold sched_idle in *. by etransitivity. Qed.
Definition thread_idle (t t' : BizProcedure.Thread W) : Prop := idle (BizProcedure.t_world t) (BizProcedure.t_world t').
#[local] Instance thread_idle_pre : PreOrder thread_idle.
Proof. split; [by intros m|]. intros a b c H1 H2. unfold thread_idle in *. by etransitivity. Qed.
Lemma on_thread_keeps {A} (m : M (BizProcedure.Thread W) A) : keeps thread_idle m -> keeps sched_idle (Scheduler.on_thread m).
Proof. intros H. eapply keeps_zoom; [exact H|done]. Qed.
Lemma thread_world_keeps {A} (m : M W A) : keeps idle m -> keeps thread_idle (BizProcedure.on_world m).
Proof. intros H. eapply keeps_zoom; [exact H|done]. Qed.
Hint Extern 1 (keeps sched_idle (modify _)) => apply keeps_modify; intros; unfold sched_idle; reflexivity : frame.
Hint Extern 1 (keeps thread_idle (modify _)) => apply keeps_modify; intros; unfold thread_idle; reflexivity : frame.
Ltac sched_frame := repeat first [frame_step | apply on_thread_keeps | apply thread_world_keeps].

Lemma GetBizProcedure_keeps : keeps sched_idle (Scheduler.GetBizProcedure (W := W)).
Proof.
  intros s b s'. unfold Scheduler.GetBizProcedure. destruct (PoolObjs.Get _ _) as [[[[?|] ?] ?]|]; try done. by intros [= <- <-].
Qed.
Lemma swap_keeps b : keeps sched_idle (swapcontext b).
Proof using All. intros s r s' E. exact (tf_swap b s r s' E). Qed.
Hint Resolve GetBizProcedure_keeps swap_keeps : frame.
Lemma handle_keeps m : keeps sched_idle (Scheduler.handle swapcontext m).
Proof using All.
  unfold Scheduler.handle, Scheduler.switch, Scheduler.SetCurrentBizProcedure, BizProcedure.SetMsgSession, BizProcedure.Procedure, BizProcedure.load, BizProcedure.store.
  sched_frame.
Qed.
Hint Resolve handle_keeps : frame.
Lemma Receive_loop_keeps n : forall r, keeps sched_idle (Scheduler.Receive_loop (W := W) n r).
Proof using All. induction n as [|n IH]; intros r; cbn [Scheduler.Receive_loop]; sched_frame. Qed.
Lemma Tasks_loop_keeps n : keeps sched_idle (Scheduler.Tasks_loop swapcontext n).
Proof using All.
  induction n as [|n IH]; cbn [Scheduler.Tasks_loop]; unfold Scheduler.SelectTask_, Scheduler.ConsumeTask_; sched_frame.
Qed.
Hint Resolve Receive_loop_keeps Tasks_loop_keeps : frame.
Lemma sched_Process_keeps : keeps sched_idle (Scheduler.Process_ swapcontext).
Proof using All. unfold Scheduler.Process_. sched_frame. Qed.
Lemma start_routines_keeps n : keeps sched_idle (start_routines n).
Proof using All. induction n as [|n IH]; cbn [start_routines]; sched_frame. Qed.
Hint Resolve start_routines_keeps : frame.
Lemma sched_Run n (s : Sched) : keeps idle (work_Run n s).
Proof using All.
  cbn. apply keeps_bind; [apply _| |intros x; apply keeps_ret, _]. apply inside_keeps; [done|]. fold sched_idle. unfold Scheduler_Run_.
  sched_frame. apply rounds_keeps; [apply _|apply sched_Process_keeps].
Qed.
Lemma sched_Clear (s : Sched) : keeps idle (work_Clear s).
Proof using All. apply keeps_ret, _. Qed.

(** ** The account of threads *)

Definition agents_ids (a : Agents) : list Z := ids (agent_slaves_ a) ++ ids (option_list (agent_master_ a)).
Definition scheds_ids (s : Schedulers) : list Z := ids (schedulers_req_ s) ++ ids (schedulers_routine_ s).
Definition base_ids (m : MagnetoBase) : list Z :=
  match agents_ m with Some a => agents_ids a | None => [] end ++ match schedulers_ m with Some s => scheds_ids s | None => [] end.

Lemma Agents_Stop_law a a' w w' : Agents_Stop a w = Some (a', w') ->
  created w' = created w /\ joined w' ≡ₚ joined w ++ agents_ids a /\ agents_ids a' = [].
Proof using All.
  intros E. unfold Agents_Stop in E. step E as m w1 E1. apply deref_inv in E1 as [Em ->]. step E as m' w1 E1. step E as l' w2 E2. injection E as <- <-.
  apply (Stop_law master_Run master_Clear) in E1 as (C1 & J1 & Z1). apply (Stop_all_law slave_Run slave_Clear) in E2 as (C2 & J2 & Z2).
  unfold agents_ids. rewrite Em. cbn [option_list agent_slaves_ agent_master_]. split; [congruence|]. split.
  - rewrite J2, J1, <- (assoc_L (++)). f_equiv. apply Permutation_app_comm.
  - rewrite (ids_zero _ Z2). by apply ids_zero, list.Forall_singleton.
Qed.
Lemma Schedulers_Stop_law s s' w w' : Schedulers_Stop s w = Some (s', w') ->
  created w' = created w /\ joined w' = joined w ++ scheds_ids s /\ scheds_ids s' = [].
Proof using All.
  intros E. unfold Schedulers_Stop in E. step E as l1 w1 E1. step E as l2 w2 E2. injection E as <- <-.
  apply (Stop_all_law sched_Run sched_Clear) in E1 as (C1 & J1 & Z1). apply (Stop_all_law sched_Run sched_Clear) in E2 as (C2 & J2 & Z2).
  unfold scheds_ids. cbn [schedulers_req_ schedulers_routine_]. split; [congruence|]. split; [by rewrite J2, J1, (assoc_L (++))|]. by rewrite (ids_zero _ Z1), (ids_zero _ Z2).
Qed.
Lemma Agents_delete_law a w w' : Agents_delete a w = Some ((), w') -> created w' = created w /\ joined w' ≡ₚ joined w ++ agents_ids a.
Proof using All.
  intros E. unfold Agents_delete in E. step E as a1 w1 E1. apply Agents_Stop_law in E1 as (C1 & J1 & [Is Im]%app_nil).
  step E as l w2 E2. apply (Stop_all_law slave_Run slave_Clear) in E2 as (C2 & J2 & _). step E as m w3 E3. apply deref_inv in E3 as [Em ->].
  step E as m' w3 E3. injection E as <-. apply (Stop_law master_Run master_Clear) in E3 as (C3 & J3 & _). rewrite Em in Im. change (ids [m] = []) in Im.
  split; [congruence|]. rewrite J3, J2, Is, Im, !app_nil_r. exact J1.
Qed.
Lemma Schedulers_delete_law s w w' : Schedulers_delete s w = Some ((), w') -> created w' = created w /\ joined w' = joined w ++ scheds_ids s.
Proof using All.
  intros E. unfold Schedulers_delete in E. step E as s1 w1 E1. apply Schedulers_Stop_law in E1 as (C1 & J1 & [Ir Io]%app_nil).
  step E as l w2 E2. step E as l' w3 E3. injection E as <-. apply (Stop_all_law sched_Run sched_Clear) in E2 as (C2 & J2 & _).
  apply (Stop_all_law sched_Run sched_Clear) in E3 as (C3 & J3 & _). split; [congruence|]. by rewrite J3, J2, Ir, Io, !app_nil_r.
Qed.

(** Stopping joins what runs, and a second stop joins nothing. *)
Lemma MagnetoBase_Stop_law m m' w w' : MagnetoBase_Stop m w = Some (m', w') ->
  created w' = created w /\ joined w' ≡ₚ joined w ++ base_ids m /\ base_ids m' = [].
Proof using All.
  intros E. unfold MagnetoBase_Stop in E. step E as [] w1 E1. injection E1 as <-. step E as ag w1 E1. step E as ss w2 E2. injection E as <- <-.
  destruct (wait_end_idle w) as [C0 J0]. unfold base_ids. cbn [agents_ schedulers_].
  assert (created w1 = created w /\ joined w1 ≡ₚ joined w ++ match agents_ m with Some a => agents_ids a | None => [] end /\
    match ag with Some a => agents_ids a | None => [] end = []) as (C1 & J1 & Z1).
  { destruct (agents_ m) as [a|]; [|injection E1 as <- <-; by rewrite app_nil_r, C0, J0]. step E1 as a' w3 E3. injection E1 as <- <-.
    apply Agents_Stop_law in E3. by rewrite C0, J0 in E3. }
  rewrite Z1. destruct (schedulers_ m) as [s|].
  - step E2 as s' w3 E3. injection E2 as <- <-. apply Schedulers_Stop_law in E3 as (C2 & J2 & Z2). split; [congruence|]. split; [|done].
    by rewrite J2, J1, (assoc_L (++)).
  - injection E2 as <- <-. split; [done|]. by rewrite app_nil_r.
Qed.
Lemma MagnetoBase_delete_law m w w' : MagnetoBase_delete m w = Some ((), w') -> created w' = created w /\ joined w' ≡ₚ joined w ++ base_ids m.
Proof using All.
  intros E. unfold MagnetoBase_delete in E. step E as m1 w1 E1. apply MagnetoBase_Stop_law in E1 as (C1 & J1 & [Ia Is]%app_nil). step E as [] w2 E2.
  assert (created w2 = created w1 /\ joined w2 ≡ₚ joined w1) as [C2 J2].
  { destruct (agents_ m1) as [a|]; [|by injection E2 as <-]. apply Agents_delete_law in E2. by rewrite Ia, app_nil_r in E2. }
  assert (created w' = created w2 /\ joined w' = joined w2) as [C3 J3].
  { destruct (schedulers_ m1) as [a|]; [|by injection E as <-]. apply Schedulers_delete_law in E. by rewrite Is, app_nil_r in E. }
  split; [congruence|]. by rewrite J3, J2.
Qed.

(** Starting: every created thread is in its place, also when a later one
    could not be created. *)
Definition unstarted (m : MagnetoBase) : Prop := base_ids m = [].
(** [launched] over the parts of an owner. *)
Definition raised (b : bool) (new stray all : list Z) (w w' : W) : Prop :=
  joined w' = joined w /\ created w' = created w ++ new /\ (length stray <= if b then 0 else 1)%nat /\ all ≡ₚ new ++ stray.
Lemma launched_raised {T} b (l : list (Thread T)) w w' : launched b l w w' -> raised b (alive l) (strays l) (ids l) w w'.
Proof. intros (J & C & S). split_and!; [done..|apply ids_split]. Qed.
Lemma raised_app b b' n1 s1 a1 n2 s2 a2 w w1 w' : raised b n1 s1 a1 w w1 -> b = true -> raised b' n2 s2 a2 w1 w' ->
  raised b' (n1 ++ n2) (s1 ++ s2) (a1 ++ a2) w w'.
Proof.
  intros (J1 & C1 & S1 & A1) -> (J2 & C2 & S2 & A2). split_and!; [congruence|by rewrite C2, C1, (assoc_L (++))|rewrite length_app; lia|].
  rewrite A1, A2. solve_Permutation.
Qed.

Lemma Agents_Start_law a b a' w w' : agents_ids a = [] -> Agents_Start a w = Some ((b, a'), w') ->
  exists new stray, raised b new stray (agents_ids a') w w'.
Proof using All.
  intros [Fs Fm]%app_nil E. apply zero_ids in Fs. unfold Agents_Start in E. step E as [ret l] w1 E1.
  apply (Start_all_law slave_Run slave_Clear) in E1; [|done]. apply launched_raised in E1. unfold agents_ids. destruct ret; cbn [negb] in E.
  - step E as m w2 E2. apply deref_inv in E2 as [Em ->]. step E as [r m'] w2 E2. injection E as <- <- <-.
    apply (Start_law master_Run master_Clear) in E2. apply launched_raised in E2. eexists _, _. by eapply raised_app.
  - injection E as <- <- <-. cbn [agent_slaves_ agent_master_]. rewrite Fm, app_nil_r. eauto.
Qed.
Lemma Schedulers_Start_law s b s' w w' : scheds_ids s = [] -> Schedulers_Start s w = Some ((b, s'), w') ->
  exists new stray, raised b new stray (scheds_ids s') w w'.
Proof using All.
  intros [F1 F2]%app_nil E. unfold Schedulers_Start in E. step E as [ret l] w1 E1.
  apply (Start_all_law sched_Run sched_Clear) in E1; [|by apply zero_ids]. apply launched_raised in E1. unfold scheds_ids. destruct ret; cbn [negb] in E.
  - step E as [r l'] w2 E2. injection E as <- <- <-. apply (Start_all_law sched_Run sched_Clear) in E2; [|by apply zero_ids].
    apply launched_raised in E2. eexists _, _. by eapply raised_app.
  - injection E as <- <- <-. cbn [schedulers_req_ schedulers_routine_]. rewrite F2, app_nil_r. eauto.
Qed.
Lemma MagnetoBase_Start_law m b m' w w' : unstarted m -> MagnetoBase_Start m w = Some ((b, m'), w') ->
  exists new stray, raised b new stray (base_ids m') w w'.
Proof using All.
  intros [Ua Us]%app_nil E. unfold MagnetoBase_Start in E. step E as ag w1 E1. apply deref_inv in E1 as [Ea ->]. step E as [ret ag'] w1 E1.
  rewrite Ea in Ua. apply Agents_Start_law in E1 as (n1 & s1 & R1); [|done]. unfold base_ids. destruct ret; cbn [negb] in E.
  - step E as ss w2 E2. apply deref_inv in E2 as [Es ->]. step E as [r ss'] w2 E2. injection E as <- <- <-. rewrite Es in Us.
    apply Schedulers_Start_law in E2 as (n2 & s2 & R2); [|done]. eexists _, _. by eapply raised_app.
  - injection E as <- <- <-. cbn [agents_ schedulers_]. rewrite Us, app_nil_r. eauto.
Qed.

(** [Init] starts no thread. *)
Lemma ClearAll_fresh_keeps : keeps idle (EventsDriver.ClearAll (EventsDriver.EventsDriver_new (Q := Q) false q0)).
Proof using All. exact (AgentFrame.ClearAll_driver_keeps idle _). Qed.
Hint Resolve ClearAll_fresh_keeps master_Init_keeps : frame.
Lemma setup_keeps cn slots block rs tv p : keeps idle (Startup.setup (W := W) cn slots block q0 rs tv p).
Proof using All. unfold Startup.setup. life_frame. Qed.
Lemma slave_Init_keeps cn rs tv p : keeps idle (Startup.Init (W := W) cn q0 rs tv p).
Proof using All. exact (setup_keeps cn _ _ rs tv p). Qed.
Hint Resolve slave_Init_keeps : frame.
Lemma Slaves_loop_keeps i n : keeps idle i -> forall cn acc, keeps idle (Slaves_loop i n cn acc).
Proof using All. intros K. induction n as [|n IH]; intros cn acc; cbn [Slaves_loop]; life_frame. Qed.
Lemma Slaves_Init_keeps cn rs : keeps idle (Slaves_Init cn rs).
Proof using All. apply Slaves_loop_keeps, slave_Init_keeps. Qed.
Lemma Schedulers_loop_keeps cn req l : forall acc, keeps idle (Schedulers_loop cn req l acc).
Proof using All. induction l as [|k l IH]; intros acc; cbn [Schedulers_loop]; unfold Scheduler_Init; life_frame. Qed.
Hint Resolve Slaves_Init_keeps Schedulers_loop_keeps : frame.

Lemma Slaves_loop_zero i n : forall cn acc b l w w', Forall (fun t => tid_ t = 0) acc -> Slaves_loop i n cn acc w = Some ((b, l), w') ->
  Forall (fun t => tid_ t = 0) l.
Proof.
  induction n as [|n IH]; intros cn acc b l w w' F E; cbn [Slaves_loop] in E; [by injection E as <- <- <-|]. step E as r w1 E1.
  destruct r as [a|]; [|step E as x w2 E2; by injection E as <- <- <-]. refine (IH _ _ _ _ _ _ _ E). apply Forall_app. split; [done|]. by repeat constructor.
Qed.
Lemma Schedulers_loop_zero cn req k : forall acc b l w w', Forall (fun t => tid_ t = 0) acc -> Schedulers_loop cn req k acc w = Some ((b, l), w') ->
  Forall (fun t => tid_ t = 0) l.
Proof.
  induction k as [|n k IH]; intros acc b l w w' F E; cbn [Schedulers_loop] in E; [by injection E as <- <- <-|]. step E as r w1 E1.
  destruct r as [a|]; [|by injection E as <- <- <-]. refine (IH _ _ _ _ _ _ E). apply Forall_app. split; [done|]. by repeat constructor.
Qed.

Lemma Schedulers_Init_law cn h items b s w w' : Schedulers_Init cn h items w = Some ((b, s), w') ->
  idle w w' /\ scheds_ids s = [].
Proof using All.
  intros E. split; [assert (keeps idle (Schedulers_Init cn h items)) as K; [unfold Schedulers_Init; life_frame|by eapply K]|].
  unfold Schedulers_Init in E. step E as [ok l] w1 E1.
  assert (Forall (fun t => tid_ t = 0) l) as Z1 by (destruct h; [by eapply Schedulers_loop_zero in E1|by injection E1 as <- <- <-]).
  unfold scheds_ids. destruct ok; cbn [negb] in E; [|injection E as <- <- <-; cbn [schedulers_req_ schedulers_routine_]; by rewrite (ids_zero l Z1)]. step E as [ok l2] w2 E2.
  injection E as <- <- <-. cbn [schedulers_req_ schedulers_routine_]. rewrite (ids_zero l Z1). apply ids_zero.
  destruct items; [by eapply Schedulers_loop_zero in E2|by injection E2 as <- <- <-].
Qed.
Lemma Agents_Init_law cn rs b a w w' : Agents_Init cn rs w = Some ((b, a), w') ->
  idle w w' /\ agents_ids a = [].
Proof using All.
  intros E. split; [assert (keeps idle (Agents_Init cn rs)) as K; [unfold Agents_Init; life_frame|by eapply K]|].
  unfold Agents_Init in E. step E as [ok l] w1 E1. apply Slaves_loop_zero in E1; [|done].
  unfold agents_ids. destruct ok; cbn [negb] in E; [|injection E as <- <- <-; cbn [agent_slaves_ agent_master_]; by rewrite (ids_zero l E1)]. step E as [r m] w2 E2.
  injection E as <- <- <-. cbn [agent_slaves_ agent_master_]. by rewrite (ids_zero l E1).
Qed.
(** Whatever [Init] returns: on a failure what it made is deleted again. *)
Lemma MagnetoBase_Init_law nm sv a0 h items b m w w' : MagnetoBase_Init nm sv a0 h items w = Some ((b, m), w') ->
  created w' = created w /\ joined w' ≡ₚ joined w /\ unstarted m.
Proof using All.
  intros E. unfold MagnetoBase_Init in E. destruct (Confs.ConfNormal_Init nm a0) as [cn|]; [|by injection E as _ <- <-].
  destruct (Confs.ConfServices_Init sv cn a0) as [cs|]; [|by injection E as _ <- <-].
  step E as [ok ss] w1 E1. apply Schedulers_Init_law in E1 as ([C1 J1] & Z1). destruct ok; cbn [negb] in E.
  2: { step E as [] w2 E2. step E as [] w3 E3. injection E as _ <- <-. apply Agents_delete_law in E2 as [C2 J2]. apply Schedulers_delete_law in E3 as [C3 J3].
       rewrite Z1, app_nil_r in J3. rewrite app_nil_r in J2. split_and!; [congruence|by rewrite J3, J2, J1|done]. }
  step E as [ok ag] w2 E2. apply Agents_Init_law in E2 as ([C2 J2] & Z2). destruct ok; cbn [negb] in E.
  2: { step E as [] w3 E3. step E as [] w4 E4. injection E as _ <- <-. apply Agents_delete_law in E3 as [C3 J3]. apply Schedulers_delete_law in E4 as [C4 J4].
       rewrite Z1, app_nil_r in J4. rewrite Z2, app_nil_r in J3. split_and!; [congruence|by rewrite J4, J3, J2, J1|done]. }
  injection E as _ <- <-. split_and!; [congruence|by rewrite J2, J1|]. unfold unstarted, base_ids. cbn. by rewrite Z1, Z2.
Qed.

(** Calls of [Start] and [Stop] in any order, as long as [Start] is not called
    again before [Stop]; [fails] counts the starts that failed. *)
Definition magneto_ids (m : Magneto) : list Z := match m with Some b => base_ids b | None => [] end.
Inductive calls : Magneto -> W -> nat -> Magneto -> W -> Prop :=
| calls_nil m w : calls m w 0 m w
| calls_start m w b m1 w1 fails m2 w2 : magneto_ids m = [] -> Magneto_Start m w = Some ((b, m1), w1) -> calls m1 w1 fails m2 w2 ->
    calls m w (if (b : bool) then fails else S fails) m2 w2
| calls_stop m w m1 w1 fails m2 w2 : Magneto_Stop m w = Some (m1, w1) -> calls m1 w1 fails m2 w2 -> calls m w fails m2 w2.
Lemma calls_law m w fails m' w' : calls m w fails m' w' -> exists new stray, created w' = created w ++ new /\ (length stray <= fails)%nat /\
  joined w' ++ magneto_ids m' ≡ₚ joined w ++ magneto_ids m ++ new ++ stray.
Proof using All.
  induction 1 as [m w|m w b m1 w1 fails m2 w2 H0 E _ (new & stray & C & L & J)|m w m1 w1 fails m2 w2 E _ (new & stray & C & L & J)].
  - exists [], []. rewrite !app_nil_r. by split_and!.
  - step E as x w3 E3. apply deref_inv in E3 as [-> ->]. step E as [r b1] w3 E3. injection E as <- <- <-.
    apply MagnetoBase_Start_law in E3 as (n1 & s1 & J1 & C1 & L1 & A1); [|exact H0]. exists (n1 ++ new), (s1 ++ stray).
    split_and!; [by rewrite C, C1, (assoc_L (++))|rewrite length_app; destruct r; lia|]. rewrite J, J1, H0. cbn [magneto_ids]. rewrite A1. solve_Permutation.
  - step E as x w3 E3. apply deref_inv in E3 as [-> ->]. step E as b1 w3 E3. injection E as <- <-.
    apply MagnetoBase_Stop_law in E3 as (C1 & J1 & Z1). exists new, stray. split_and!; [congruence|done|]. rewrite J, J1. cbn [magneto_ids]. rewrite Z1.
    solve_Permutation.
Qed.

(** C33: whatever the number of threads, whatever [Init] returned, whether or
    not the threads could be started, and in whatever order [Start] and [Stop]
    were called, as long as [Start] is not called again before [Stop]: when the
    destructor has returned, every thread that was created has been joined,
    exactly once.  Besides, at most one other id is joined for each [Start] that
    failed: the value [pthread_create] left in the variable when it failed. *)
Theorem threads_joined nm sv a0 h items i m0 fails m1 w w0 w1 w2 :
  Magneto_Init nm sv a0 h items w = Some ((i, m0), w0) -> calls m0 w0 fails m1 w1 -> Magneto_delete m1 w1 = Some ((), w2) ->
  exists new stray, created w2 = created w ++ new /\ joined w2 ≡ₚ joined w ++ new ++ stray /\ (length stray <= fails)%nat.
Proof using All.
  intros E0 E1 E2. step E0 as [r b0] w0' E0'. injection E0 as <- <- <-. apply MagnetoBase_Init_law in E0' as (C0 & J0 & U).
  apply calls_law in E1 as (new & stray & C1 & L1 & J1). cbn [magneto_ids] in J1. rewrite U in J1. exists new, stray.
  assert (created w2 = created w1 /\ joined w2 ≡ₚ joined w1 ++ magneto_ids m1) as [C2 J2].
  { destruct m1 as [b1|]; [by apply MagnetoBase_delete_law in E2|]. injection E2 as <-. by rewrite app_nil_r. }
  split_and!; [congruence|by rewrite J2, J1, J0|done].
Qed.

(** C34: when the schedulers or an agent cannot be set up, [Init] does not return
    false: the error path deletes the agents, whose destructor calls the
    acceptor through a null pointer. *)
Theorem failed_init_faults nm sv a0 h items cn cs w : Confs.ConfNormal_Init nm a0 = Some cn -> Confs.ConfServices_Init sv cn a0 = Some cs ->
  (exists ss w1, Schedulers_Init cn h items w = Some ((false, ss), w1)) \/
  (exists ss w1 l w2, Schedulers_Init cn h items w = Some ((true, ss), w1) /\
     Slaves_Init cn (Confs.remotes_ cs) w1 = Some ((false, l), w2)) ->
  MagnetoBase_Init nm sv a0 h items w = None.
Proof using All.
  intros Cn Cs H. unfold MagnetoBase_Init. rewrite Cn, Cs. destruct H as [(ss & w1 & E)|(ss & w1 & l & w2 & E1 & E2)]; [by mrun E|]. mrun E1. cbn [negb].
  assert (Agents_Init cn (Confs.remotes_ cs) w1 = Some ((false, mkAgents None l), w2)) as E by (unfold Agents_Init; by mrun E2). by mrun E.
Qed.
End Life.

(** ** A whole life *)

(** A world in which nothing happens but threads; [memory] says whether a
    mailbox can be made.  There is room for three threads; the creation of
    another one leaves 55 in the variable. *)
Record Quiet := mkQuiet { q_created : list Z; q_joined : list Z; memory : bool }.
#[local] Instance quiet_net : NetIO Quiet := {| ReadNonBlock _ _ w := ((0, []), w); WriteNonBlock _ _ w := (0, w); WriteVecNonBlock _ l w := ((0, l), w) |}.
#[local] Instance quiet_sock : Sock Quiet := {| CreateSocket _ w := (-1, w); sys_connect _ _ w := ((0, 0), w); sys_recv1 _ w := ((0, 0), w); sys_close _ w := w |}.
#[local] Instance quiet_clock : Clock Quiet := {| load_time w := (1000, w); store_time _ w := w; gettimeofday w := (1000, w) |}.
#[local] Instance quiet_epoll : Epoll Quiet :=
  {| epoll_create w := (3, w); epoll_ctl _ _ _ _ w := (0, w); epoll_wait _ _ w := ((0, []), w); lock_Lock w := (true, w) |}.
#[local] Instance quiet_peers : Peers Quiet := {| scheduler_SendMsg _ w := (true, w); SendToOneWorker _ w := (true, w); mailbox_ReceiveMsg w := (None, w);
  mailbox_MsgConsumed w := w; current_remotes w := ([], w); sys_read1 _ w := (0, w) |}.
#[local] Instance quiet_setup : MailboxSetup Quiet := {| mailbox_Init _ _ _ w := (memory w, w) |}.
#[local] Instance quiet_layout : Layout.
Proof. refine {| sizeof_EventCtx := 48; sizeof_Session := 72; sizeof_BizProcedure := 200 |}. split; apply Nat.lt_0_succ. Defined.
#[local] Instance quiet_acceptor : Acceptor Quiet := {| sys_Listen _ _ w := (5, w); sys_Accept _ w := (-1, w); slave_counts w := ([], w) |}.
#[local] Instance quiet_mail : AgentMail Quiet := {| agents_SendMsg _ _ w := (true, w) |}.
#[local] Instance quiet_smail : SchedulerMail Quiet := {| sched_ReceiveMsg w := (None, w); sched_MsgConsumed w := w; sched_slot w := (true, w) |}.
#[local] Instance quiet_ssetup : SchedulerSetup Quiet := {| notifier_Init w := (true, w); sched_SendMsg _ w := (true, w) |}.
#[local] Instance quiet_threads : ThreadOs Quiet := {|
  pthread_create _ w := let tid := 100 + Z.of_nat (length (q_created w)) in
    if Z.of_nat (length (q_created w)) =? 3 then ((11, 55), w) else ((0, tid), mkQuiet (q_created w ++ [tid]) (q_joined w) (memory w));
  pthread_join tid w := (0, mkQuiet (q_created w) (q_joined w ++ [tid]) (memory w));
  laps w := (1%nat, w);
  wait_end w := w |}.
#[local] Instance quiet_spec : ThreadSpec Quiet.
Proof.
  refine {| created := q_created; joined := q_joined |}; try done; cbn; intros tid w; destruct (Z.of_nat (length (q_created w)) =? 3); cbn; try done.
  intros _. split; [lia|done].
Defined.
#[local] Instance quiet_rand : Rand := {| rand_r s := (s, s) |}.
#[local] Instance quiet_malloc : Malloc := {| junk _ := Ascii.zero; has_room _ := true |}.
#[local] Instance quiet_fuel : Protocol.Fuel := {| Protocol.fuel := 5 |}.
#[local] Existing Instance Confs.loopback.
Definition no_procedure (b : ptr) : M (Scheduler.Scheduler Quiet) Z := mret 0.
#[local] Instance quiet_frame : ThreadFrame no_procedure.
Proof. split; try done; [|by intros b s r s' [= _ <-]]. split; try done. split; try done. apply _. Qed.

Definition life_cn : Confs.ConfNormal := default Agents.AgentMaster.two_ports (Confs.ConfNormal_Init (Some Confs.ex_normal) Confs.no_addr).
Definition life_cs : Confs.ConfServices := default Confs.ConfServices_new (Confs.ConfServices_Init (Some (Confs.ex_services 3)) life_cn Confs.no_addr).
Lemma life_confs : Confs.ConfNormal_Init (Some Confs.ex_normal) Confs.no_addr = Some life_cn /\
  Confs.ConfServices_Init (Some (Confs.ex_services 3)) life_cn Confs.no_addr = Some life_cs.
Proof. split; vm_compute; reflexivity. Qed.
Definition no_timeouts : TimeoutHeap := Heap.HeapBase_new 16.

(** Without memory for the mailbox of a scheduler. *)
Lemma failed_init_faults_witness : exists ss w1, Schedulers_Init life_cn true None (mkQuiet [] [] false) = Some ((false, ss), w1) /\
  MagnetoBase_Init no_timeouts 1 no_procedure (Some Confs.ex_normal) (Some (Confs.ex_services 3)) Confs.no_addr true None (mkQuiet [] [] false) = None.
Proof.
  destruct life_confs as [Cn Cs]. eexists _, _. split; [vm_compute; reflexivity|].
  apply (failed_init_faults no_timeouts 1 no_procedure (Some Confs.ex_normal) (Some (Confs.ex_services 3)) Confs.no_addr true None life_cn life_cs); [exact Cn|exact Cs|].
  left. eexists _, _. vm_compute. reflexivity.
Defined.


(** One agent, the acceptor, one scheduler; everything can be made. *)
Definition quiet0 : Quiet := mkQuiet [] [] true.
Lemma slaves_made i cn n a w : i w = Some (Some a, w) -> forall acc,
  Slaves_loop no_timeouts i n cn acc w = Some ((true, acc ++ replicate n (Thread_new (mkSlave cn a))), w).
Proof.
  intros E. induction n as [|n IH]; intros acc; cbn [Slaves_loop replicate]; [by rewrite app_nil_r|]. mrun E. by rewrite IH, <- (assoc_L (++)).
Qed.
Lemma few_remotes : (length (Confs.remotes_ life_cs) <= kNumRemotes)%nat.
Proof. apply Nat.leb_le. vm_compute. reflexivity. Qed.

Section Run.
Context (m : ConnsMgr.ConnsMgr).
Definition agent0 : Session.Agent Quiet TimeoutHeap := Startup.built PoolObjs.kDefaultMemPerBlock no_timeouts m ∅ Protocols.Protos_new quiet0.
Definition scheds0 : option (bool * Schedulers * Quiet) := Schedulers_Init life_cn true None quiet0.
Definition master0 : option (bool * AgentMaster.AgentMaster Quiet TimeoutHeap * Quiet) := Master_Init no_timeouts 1 life_cn quiet0.
Definition base0 : MagnetoBase := mkBase (Some (life_cn, life_cs)) (match scheds0 with Some ((_, s), _) => Some s | None => None end)
  (match master0 with Some ((_, x), _) => Some (mkAgents (Some (Thread_new (mkMaster life_cn x))) [Thread_new (mkSlave life_cn agent0)]) | None => None end).
(** Three threads are started and stopped; a second start fails. *)
Definition base1 : option (bool * option MagnetoBase * Quiet) := Magneto_Start (Some base0) quiet0.
Definition base2 : option (option MagnetoBase * Quiet) := match base1 with Some ((_, b), w) => Magneto_Stop no_procedure b w | None => None end.
Definition base3 : option (bool * option MagnetoBase * Quiet) := match base2 with Some (b, w) => Magneto_Start b w | None => None end.
Definition base4 : option (() * Quiet) := match base3 with Some ((_, b), w) => Magneto_delete no_procedure b w | None => None end.
Lemma scheds0_made : exists s, scheds0 = Some ((true, s), quiet0).
Proof.
  assert ((fun r => (r.1.1, r.2)) <$> scheds0 = Some (true, quiet0)) as E by (vm_compute; reflexivity). destruct scheds0 as [[[b s] w]|]; [|done].
  injection E as -> ->. by exists s.
Qed.
Lemma master0_made : exists x, master0 = Some ((true, x), quiet0).
Proof.
  assert ((fun r => (r.1.1, r.2)) <$> master0 = Some (true, quiet0)) as E by (vm_compute; reflexivity). destruct master0 as [[[b s] w]|]; [|done].
  injection E as -> ->. by exists s.
Qed.
Lemma base4_run : exists m1 w1 m2 w2 m3 w3 w, base1 = Some ((true, m1), w1) /\ base2 = Some (m2, w2) /\ magneto_ids m2 = [] /\
  base3 = Some ((false, m3), w3) /\ base4 = Some ((), w) /\ q_created w = [100; 101; 102] /\ length (q_joined w) = 4%nat.
Proof.
  assert ((fun r => r.1.1) <$> base1 = Some true) as E1 by (vm_compute; reflexivity).
  assert ((fun r => magneto_ids r.1) <$> base2 = Some []) as E2 by (vm_compute; reflexivity).
  assert ((fun r => r.1.1) <$> base3 = Some false) as E3 by (vm_compute; reflexivity).
  assert ((fun r => (q_created r.2, length (q_joined r.2))) <$> base4 = Some ([100; 101; 102], 4%nat)) as E4 by (vm_compute; reflexivity).
  apply fmap_Some in E1 as ([[b1 m1] w1] & E1 & H1). apply fmap_Some in E2 as ([m2 w2] & E2 & H2).
  apply fmap_Some in E3 as ([[b3 m3] w3] & E3 & H3). apply fmap_Some in E4 as ([[] w] & E4 & H4). cbn [fst snd] in H1, H2, H3, H4. subst b1 b3.
  injection H4 as H4 H5. exists m1, w1, m2, w2, m3, w3, w. split; [exact E1|]. split; [exact E2|]. split; [exact (eq_sym H2)|].
  split; [exact E3|]. split; [exact E4|]. split; [exact (eq_sym H4)|exact (eq_sym H5)].
Qed.
End Run.

Lemma threads_joined_witness : exists m0 m3 w0 w3 w stray,
  Magneto_Init no_timeouts 1 no_procedure (Some Confs.ex_normal) (Some (Confs.ex_services 3)) Confs.no_addr true None quiet0 = Some ((true, m0), w0) /\
  calls no_procedure m0 w0 1 m3 w3 /\ Magneto_delete no_procedure m3 w3 = Some ((), w) /\
  q_created w = [100; 101; 102] /\ q_joined w ≡ₚ [100; 101; 102] ++ stray /\ length stray = 1%nat.
Proof.
  destruct (Startup.setup_run life_cn (kNumRemotes * 100)%nat PoolObjs.kDefaultMemPerBlock no_timeouts (Confs.remotes_ life_cs) ∅ Protocols.Protos_new quiet0
    Startup.real_slots (Nat.le_trans _ _ _ few_remotes Startup.remotes_fit)) as (m & E & _).
  destruct scheds0_made as [ss Es]. destruct master0_made as [x Ex]. destruct life_confs as [Cn Cs].
  assert (MagnetoBase_Init no_timeouts 1 no_procedure (Some Confs.ex_normal) (Some (Confs.ex_services 3)) Confs.no_addr true None quiet0 =
    Some ((true, base0 m), quiet0)) as Eb.
  { unfold MagnetoBase_Init. rewrite Cn, Cs. unfold base0. rewrite Es, Ex. unfold scheds0 in Es. mrun Es. cbn [negb].
    assert (Agents_Init no_timeouts 1 life_cn (Confs.remotes_ life_cs) quiet0 =
      Some ((true, mkAgents (Some (Thread_new (mkMaster life_cn x))) [Thread_new (mkSlave life_cn (agent0 m))]), quiet0)) as Ea; [|by mrun Ea].
    unfold Agents_Init, Slaves_Init. rewrite (bind_run _ _ _ _ _ (slaves_made _ life_cn (Z.to_nat (Confs.num_agents_ life_cn)) _ quiet0 E [])).
    cbn [negb]. unfold master0 in Ex. by mrun Ex. }
  assert (Magneto_Init no_timeouts 1 no_procedure (Some Confs.ex_normal) (Some (Confs.ex_services 3)) Confs.no_addr true None quiet0 =
    Some ((true, Some (base0 m)), quiet0)) as E0 by (unfold Magneto_Init; by mrun Eb).
  destruct (base4_run m) as (m1 & w1 & m2 & w2 & m3 & w3 & w & E1 & E2 & I2 & E3 & E4 & Cr & Ln).
  assert (calls no_procedure (Some (base0 m)) quiet0 1 m3 w3) as Ca.
  { apply (calls_start no_procedure _ _ true m1 w1 1); [vm_compute; reflexivity|exact E1|]. unfold base3 in E3. rewrite E2 in E3. unfold base2 in E2. rewrite E1 in E2.
    apply (calls_stop no_procedure _ _ m2 w2); [exact E2|]. apply (calls_start no_procedure _ _ false m3 w3 0); [exact I2|exact E3|apply calls_nil]. }
  assert (Magneto_delete no_procedure m3 w3 = Some ((), w)) as Ed by (unfold base4 in E4; rewrite E3 in E4; exact E4).
  destruct (threads_joined no_timeouts 1 no_procedure _ _ _ _ _ _ _ _ _ _ _ _ _ E0 Ca Ed) as (new & stray & C & J & L). cbn [created joined quiet_spec] in C, J.
  rewrite Cr in C. cbn [q_created quiet0 app] in C. subst new. cbn [q_joined quiet0] in J.
  exists (Some (base0 m)), m3, quiet0, w3, w, stray. split_and!; [exact E0|exact Ca|exact Ed|exact Cr|exact J|].
  apply Permutation_length in J. rewrite Ln, length_app in J. cbn in J. lia.
Defined.
End Lifecycle.
