(* ===== verification/Sim.v ===== *)
(** * Sim: a small world for concrete runs

    One world that implements every interface the models use, so that whole
    scenarios can be evaluated: sockets are numbered in order, the incoming
    bytes arrive in chunks, epoll reports a given script of events, the clock
    advances at every wait. *)

From Stdlib Require Import ZArith Lia Ascii String.
From stdpp Require Import base list gmap strings numbers option.
From S2P Require Import Prelude Os Protocol Rapid Redis Hashmap IOHelper Model ConnsMgr EventsDriver Heap PoolObjs Protocols Fds Confs EventCtx Msg Session AgentSlave SessionLaws SessionEvents Answers Timeouts Clients Runs Startup IOBasic Scheduler Wakeups.
Import Os Buffer Model.

Module Sim.

Record Sim := mkSim {
  next_fd : Z;
  closed_fds : list Z;
  now_us : Z;
  in_chunks : list bytes;
  out_bytes : bytes;
  script : list (list (Z * Z));
  mail : list Msg.Msg;
  sent_back : list Msg.MsgSession;
  new_reqs : list Msg.MsgNewReq;
  handed_fds : list Z;
}.

Definition set_closed (w : Sim) (n : Z) (c : list Z) : Sim :=
  mkSim n c (now_us w) (in_chunks w) (out_bytes w) (script w) (mail w) (sent_back w) (new_reqs w) (handed_fds w).
Definition set_io (w : Sim) (i : list bytes) (o : bytes) : Sim :=
  mkSim (next_fd w) (closed_fds w) (now_us w) i o (script w) (mail w) (sent_back w) (new_reqs w) (handed_fds w).
Definition set_time (w : Sim) (t : Z) (s : list (list (Z * Z))) : Sim :=
  mkSim (next_fd w) (closed_fds w) t (in_chunks w) (out_bytes w) s (mail w) (sent_back w) (new_reqs w) (handed_fds w).
Definition set_mail (w : Sim) (m : list Msg.Msg) (b : list Msg.MsgSession) (r : list Msg.MsgNewReq) (h : list Z) : Sim :=
  mkSim (next_fd w) (closed_fds w) (now_us w) (in_chunks w) (out_bytes w) (script w) m b r h.

(** A number that was never used. *)
Definition fresh_fd (w : Sim) : Z := foldr Z.max (next_fd w) ((fun f => f + 1) <$> closed_fds w).

#[export] Instance sim_sock : Sock Sim := {
  CreateSocket _ w := (fresh_fd w, set_closed w (fresh_fd w + 1) (closed_fds w));
  sys_connect _ _ w := ((0, 0), w);
  sys_recv1 _ w := ((-1, IOHelper.EAGAIN), w);
  sys_close fd w := set_closed w (next_fd w) (closed_fds w ++ [fd]);
}.
#[export] Instance sim_clock : Clock Sim := {
  load_time w := (now_us w, w);
  store_time t w := set_time w t (script w);
  gettimeofday w := (now_us w, w);
}.
#[export] Instance sim_clock_laws : ClockLaws Sim.
Proof. refine {| time_ := now_us |}; cbn; intros; lia. Defined.
#[export] Instance sim_sock_spec : SockSpec Sim.
Proof. by refine {| closed := closed_fds |}. Defined.
#[export] Instance sim_net : NetIO Sim := {
  ReadNonBlock fd n w := let '(r, c) := chunk_read fd n {| chunks := in_chunks w; sent_bytes := []; quota := 0 |} in
                         (r, set_io w (chunks c) (out_bytes w));
  WriteNonBlock fd bs w := (Z.of_nat (length bs), set_io w (in_chunks w) (out_bytes w ++ bs));
  WriteVecNonBlock fd iovs w := ((Z.of_nat (length (concat iovs)), []), set_io w (in_chunks w) (out_bytes w ++ concat iovs));
}.
#[export] Instance sim_epoll : Epoll Sim := {
  epoll_create w := (3, w);
  epoll_ctl _ _ _ _ w := (0, w);
  epoll_wait _ _ w := match script w with
                      | [] => ((0, []), set_time w (now_us w + 1000) [])
                      | evs :: s => ((Z.of_nat (length evs), evs), set_time w (now_us w + 1000) s)
                      end;
  lock_Lock w := (true, w);
}.
#[export] Instance sim_peers : Peers Sim := {
  scheduler_SendMsg m w := (true, set_mail w (mail w) (sent_back w ++ [m]) (new_reqs w) (handed_fds w));
  SendToOneWorker m w := (true, set_mail w (mail w) (sent_back w) (new_reqs w ++ [m]) (handed_fds w));
  mailbox_ReceiveMsg w := (head (mail w), w);
  mailbox_MsgConsumed w := set_mail w (tail (mail w)) (sent_back w) (new_reqs w) (handed_fds w);
  current_remotes w := ([], w);
  sys_read1 _ w := (0, w);
}.
Lemma fresh_fd_le w : next_fd w <= fresh_fd w /\ fresh_fd w ∉ closed_fds w.
Proof.
  unfold fresh_fd. assert (forall l, next_fd w <= foldr Z.max (next_fd w) ((fun f => f + 1) <$> l) /\
    forall f, f ∈ l -> f < foldr Z.max (next_fd w) ((fun f => f + 1) <$> l)) as H.
  { induction l as [|x l [IH1 IH2]]; cbn; [split; [lia|by intros f []%not_elem_of_nil]|]. split; [lia|].
    intros f [->|Hf]%elem_of_cons; [lia|]. specialize (IH2 f Hf). lia. }
  destruct (H (closed_fds w)) as [H1 H2]. split; [done|]. intros Hf%H2. lia.
Qed.
(** Numbers below the next one that were not closed are open. *)
#[export] Instance sim_open : OpenSpec Sim.
Proof.
  refine {| opened w g := g < next_fd w /\ g ∉ closed_fds w |}; try by (intros; cbn in *; tauto).
  - intros b w f g [H1 H2]. destruct (fresh_fd_le w). cbn. split; [split; [lia|done]|]. intros Ef _ Eg. lia.
  - intros b w _. destruct (fresh_fd_le w). cbn. split; [lia|done].
  - intros fd w g N [H1 H2]. cbn. rewrite elem_of_app, list_elem_of_singleton. tauto.
  - intros e n w g [H1 H2]. cbn. destruct (script w); done.
  - intros fd n w g [H1 H2]. cbn. by destruct (chunk_read fd n _).
Defined.
#[export] Instance sim_answer : AnswerSpec Sim.
Proof.
  refine {| answered := sent_back |}; try done. split; try done.
  - split; [done|]. intros a b c. congruence.
  - intros e n w. cbn. by destruct (script w).
  - intros fd n w. cbn. by destruct (chunk_read fd n _).
Defined.
#[export] Instance sim_peer_spec : PeerSpec Sim.
Proof. by split. Defined.
#[export] Instance sim_agent_mail : AgentMail Sim := {
  agents_SendMsg _ m w :=
    (true, set_mail w (mail w ++ [m]) (sent_back w) (new_reqs w)
       (handed_fds w ++ match m with Msg.ReadReq r => [Msg.rr_fd_client r] | _ => [] end));
}.
#[export] Instance sim_rand : Rand := {| rand_r s := (s mod 2 ^ 31, (s + 1) mod 2 ^ 31) |}.
#[export] Instance sim_malloc : Malloc := {| junk _ := zero; has_room _ := true |}.
#[export] Instance sim_fuel : Protocol.Fuel := {| Protocol.fuel := 20 |}.

Definition sim0 : Sim := mkSim 10 [] 1000000 [] [] [] [] [] [] [].

Definition conf : Confs.ConfNormal :=
  Confs.mkConfNormal 1 1 60 10 60 10 20 30 [] 1000000 1000000 65536 true 2 1.

(** *** An agent *)

Definition remote1 : Remote := mkRemote (Protocol.mkAddr 2 16777343 20480) 1 2 10 30 20.
Definition service1 : Service := mkService 0 "kv" Protocol.kRapid kWeight [remote1] 1 1.

Definition agent0 (w : Sim) (v : gmap Z (list Talk)) (p : Protocols.Protos) : option (Session.Agent Sim TimeoutHeap) :=
  m ← ConnsMgr.ConnsMgr_new 60 16;
  m ← ConnsMgr.ConfigRemotes m [remote1];
  Some {| Session.events_driver_ := EventsDriver.EventsDriver_new false (Heap.HeapBase_new 16);
          Session.conns_mgr_ := m;
          Session.event_ctxs := Store.nothing;
          Session.pool_event_ctxs_ := PoolObjs.PoolObjs_new EventCtx.EventCtx_new 48 0 192 true true 1000;
          Session.sessions := Store.nothing;
          Session.pool_sessions_ := PoolObjs.PoolObjs_new Session.Session_new 72 0 288 true true 1000;
          Session.talk_vectors := v; Session.protos := p; Session.num_clients_keepalive_ := 0;
          Session.world := w |}.

(** A talk with the service: request "ping", answer "pong". *)
Definition hello : Protocol.Buf := Protocol.mkSlice (str "ping") [].
(** Pools of small blocks, so that the scenario runs quickly. *)
Definition small_pools {Obj} (father : Obj) : ThreadPrivatePool.ThreadPrivatePool Obj :=
  ThreadPrivatePool.mkTP (fun _ => PoolObjs.PoolObjs_new father 8 0 16 true true 1000) 0.
Definition protos0 : Protocols.Protos :=
  {| Protocols.wobjs := Store.nothing; Protocols.wpool := small_pools Protocols.WBase;
     Protocols.robjs := Store.nothing; Protocols.rpool := small_pools (Protocols.RBase Protocol.ReqInfo_new) |}.
Definition talk1 : option (Talk * (Protocols.Protos * Sim)) :=
  TalkOps.Assign 0 kWriteAndRead (Some service1) Protocol.kRapid (Some hello) 100 0 None (protos0, sim0).

Definition answer : bytes := Rapid.header_bytes (Rapid.mkHeader (htons Rapid.kMagic) 0 (htonl 4)) ++ str "pong".

(** The session is started from the mailbox; the connection becomes writable,
    then readable; the session is sent back. *)
Definition scenario : option (list Z * list (Z * Z) * bytes * list Z) :=
  '(t, (p, w)) ← talk1;
  let w := mkSim 10 [] (now_us w) [answer] [] [[]; [(4, 10)]; [(1, 10)]] [Msg.Session (Msg.mkMsgSession 77 77 5 100 0)] [] [] [] in
  a ← agent0 w {[5 := [t]]} p;
  '(_, a) ← (AgentSlave.CheckEvents_ conf;; AgentSlave.CheckMailbox_ conf;; AgentSlave.CheckEvents_ conf;;
             AgentSlave.CheckEvents_ conf) a;
  l ← Session.talk_vectors a !! 5;
  t ← head l;
  pr ← protocol_read t;
  o ← Store.load (Protocols.robjs (Session.protos a)) pr;
  Some (Msg.ms_error <$> sent_back (Session.world a), [(error t, fd t)], Protocols.RData o, closed_fds (Session.world a)).

(** *** One session, step by step *)

Definition result {A} (d : A) (o : option (() * A)) : A := match o with Some (_, a) => a | None => d end.
Definition returns {A} (o : option A) : bool := match o with Some _ => true | None => false end.
Lemma result_run {A} (d : A) (o : option (() * A)) : returns o = true -> o = Some ((), result d o).
Proof. by destruct o as [[[] a]|]. Qed.

Definition talk0 : Talk :=
  mkTalk 0 kWriteAndRead (Some service1) (Some hello) (Some 3) (Some 3) 1000 1100 kWrite ErrorNo.kOk [] 1 0 None.
Definition protos1 : Protocols.Protos := match talk1 with Some (_, (p, _)) => p | None => protos0 end.

Lemma conns0 : is_Some (ConnsMgr.ConnsMgr_new 60 16).
Proof. vm_compute. by eexists. Qed.

(** An agent that has just been set up, with the vector 5 of talks. *)
Definition agent_with (l : list Talk) : Session.Agent Sim TimeoutHeap :=
  {| Session.events_driver_ := EventsDriver.ex_driver;
     Session.conns_mgr_ := is_Some_proj conns0;
     Session.event_ctxs := Store.nothing;
     Session.pool_event_ctxs_ := PoolObjs.PoolObjs_new EventCtx.EventCtx_new 48 0 192 true true 1000;
     Session.sessions := Store.nothing;
     Session.pool_sessions_ := PoolObjs.PoolObjs_new Session.Session_new 72 0 288 true true 1000;
     Session.talk_vectors := {[5 := l]}; Session.protos := protos1; Session.num_clients_keepalive_ := 0;
     Session.world := mkSim 10 [] 1000000 [answer] [] [[(4, 10)]] [] [] [] [] |}.
Definition agentA : Session.Agent Sim TimeoutHeap := agent_with [talk0].

Definition msg1 : Msg.MsgSession := Msg.mkMsgSession 77 77 5 100 0.
(** The session has started. *)
Definition agentB : Session.Agent Sim TimeoutHeap := result agentA (AgentSlave.HandleMsgSession conf msg1 agentA).
(** The driver has waited, and the connection is writable. *)
Definition waited : option (Z * Session.Agent Sim TimeoutHeap) :=
  Session.on_driver (fun d => EventsDriver.Wait d 0) agentB.
Definition agentC : Session.Agent Sim TimeoutHeap := match waited with Some (_, a) => a | None => agentB end.
(** Much later. *)
Definition agentL : Session.Agent Sim TimeoutHeap :=
  Session.set_world (set_time (Session.world agentB) 2000000 []) agentB.

Lemma conf_ok : SessionLaws.conf_timeo conf.
Proof. unfold SessionLaws.conf_timeo. cbn. lia. Qed.
Lemma agent_with_inv l : Answers.agent_inv [] [] [] (agent_with l).
Proof.
  assert (forall f, ~ Fds.live_fd (Session.events_driver_ (agent_with l)) f) as Nl.
  { intros f (sl & S & _). cbn [agent_with Session.events_driver_] in S. by rewrite EventsDriver.ex_driver_slot in S. }
  apply Answers.fresh_inv; [apply EventsDriver.ex_driver_ok|exact Nl|vm_compute; reflexivity..|reflexivity| |reflexivity|].
  - split; [right; split; [|reflexivity]|reflexivity|reflexivity]. repeat (split; [try reflexivity; cbn; lia|]). cbn. lia.
  - split; [right; split; [|reflexivity]|reflexivity|reflexivity]. repeat (split; [try reflexivity; cbn; lia|]). cbn. lia.
Qed.
Lemma agentA_inv : Answers.agent_inv [] [] [] agentA.
Proof. apply agent_with_inv. Qed.
Lemma agentA_startable : SessionEvents.startable 5 0 agentA.
Proof.
  assert (forall j t, SessionLaws.talk_at agentA 5 j = Some t -> j = 0%nat /\ t = talk0) as T.
  { intros [|j] t; cbn; [|done]. by intros [= <-]. }
  split; [|intros j k t u Hj [-> _]%T [-> _]%T; lia]. intros j t _ [-> ->]%T _. split.
  - split_and!; [done| |done]. intros sv [= <-]. repeat constructor; cbn; lia.
  - cbn. lia.
  - cbn. lia.
Qed.
Lemma agentB_run : AgentSlave.HandleMsgSession conf msg1 agentA = Some ((), agentB).
Proof.
  assert (returns (AgentSlave.HandleMsgSession conf msg1 agentA) = true) as R by (vm_compute; reflexivity). exact (result_run agentA _ R).
Qed.
Lemma no_answer (l l' : list Msg.MsgSession) m : length l = 0%nat -> l = l' ++ [m] -> False.
Proof. intros L ->. rewrite length_app in L. cbn in L. lia. Qed.
Lemma one_answer (l l' ms : list Msg.MsgSession) : length l = 1%nat -> length l' = 0%nat -> l = l' ++ ms -> length ms = 1%nat.
Proof. intros L L' ->. rewrite length_app in L. lia. Qed.
Lemma agentB_waits : exists s, Answers.agent_inv [] [] [s] agentB /\ 0 < SessionLaws.waits agentB s.
Proof.
  destruct (Answers.start_law conf [] msg1 [talk0] agentA agentB conf_ok agentA_inv eq_refl ltac:(done) agentA_startable agentB_run)
    as (s & _ & [(I & Wp & _)|(_ & _ & An)]); [exists s; split; [exact I|exact Wp]|]. exfalso. assert (length (answered (Session.world agentB)) = 0%nat) as E by (vm_compute; reflexivity).
  exact (no_answer _ _ _ E An).
Qed.

Lemma agentB_inv : exists s, Answers.agent_inv [] [] [s] agentB.
Proof. destruct agentB_waits as (s & I & _). exists s. exact I. Qed.


Lemma agentC_inv : exists s, Answers.agent_inv [] [] [s] agentC.
Proof.
  destruct agentB_inv as [s I]. exists s. assert (exists r, waited = Some (r, agentC)) as [r E].
  { unfold agentC. destruct waited as [[r a]|] eqn:E; [by exists r|]. exfalso. assert (returns waited = true) as R by (vm_compute; reflexivity).
    by rewrite E in R. }
  by destruct (Answers.Wait_inv [s] 0 r agentB agentC I E).
Qed.
Definition agentD : Session.Agent Sim TimeoutHeap := result agentC (AgentSlave.CheckEvent conf 0 agentC).

Lemma event_answers_witness : exists act x, Store.load (Session.sessions agentC) 4 = Some x /\
  AgentSlave.CheckEvent conf 0 agentC = Some ((), agentD) /\
  (Answers.agent_inv [] [] act agentD /\ 0 < SessionLaws.waits agentD 4 /\ answered (Session.world agentD) = answered (Session.world agentC) \/
   exists act' err, act ≡ₚ 4 :: act' /\ Answers.agent_inv [] [] act' agentD /\ SessionLaws.waits agentD 4 = 0 /\
     (err = ErrorNo.kOk \/ err = ErrorNo.kPartial) /\ answered (Session.world agentD) = answered (Session.world agentC) ++
       [Msg.BuildForSession (Session.biz_ctx_ x) (Session.biz_procedure_ x) (Session.talks_ x) 0 err]).
Proof.
  destruct agentC_inv as [s I].
  assert (returns (AgentSlave.CheckEvent conf 0 agentC) = true) as R by (vm_compute; reflexivity).
  pose proof (result_run agentC _ R : AgentSlave.CheckEvent conf 0 agentC = Some ((), agentD)) as E.
  destruct (Answers.event_answers conf [s] 0 4 10 4 (EventCtx.mkCtx EventCtx.kSession 10 20 1000 (EventCtx.DSession 4 0)) 4 0 agentC agentD
    conf_ok I ltac:(vm_compute; reflexivity) ltac:(vm_compute; reflexivity) ltac:(vm_compute; reflexivity) eq_refl eq_refl E) as (x & L & C).
  exists [s], x. split_and!; [exact L|exact E|exact C].
Defined.

(** The start of a session, a wait and the event of its talk are a run. *)
Definition traceD : list Runs.op := [Runs.OHandle (Msg.Session msg1) true; Runs.OWait 1; Runs.OEvent 0].
Lemma msg1_ok : Runs.sent_ok agentA (Msg.Session msg1) true.
Proof. exists [talk0]. split; [reflexivity|]. split; [cbn; lia|exact agentA_startable]. Qed.
Lemma agentD_run : Runs.run conf agentA traceD agentD.
Proof.
  eapply Runs.run_cons; [apply (Runs.step_handle conf (Msg.Session msg1) true agentA agentB); [exact msg1_ok|exact agentB_run]|].
  assert (returns (AgentSlave.CheckEvent conf 0 agentC) = true) as R by (vm_compute; reflexivity).
  pose proof (result_run agentC _ R : AgentSlave.CheckEvent conf 0 agentC = Some ((), agentD)) as E.
  assert (fst <$> waited = Some 1) as Ew by (vm_compute; reflexivity). apply fmap_Some in Ew as ([r a] & Ew & ->).
  eapply Runs.run_cons; [apply (Runs.step_wait conf 0 r agentB agentC); unfold agentC; by rewrite Ew|].
  eapply Runs.run_cons; [|apply Runs.run_nil]. apply (Runs.step_event conf 0); [|exact E].
  exists 4, 10. split; [vm_compute; reflexivity|left]. exists 4. vm_compute. reflexivity.
Qed.
Lemma run_conserves_witness : exists act', Answers.agent_inv [] [] act' agentD /\ (forall s, s ∈ act' -> 0 < SessionLaws.waits agentD s) /\
  Runs.accounts act' agentD ++ [] ≡ₚ Runs.accounts [] agentA ++ [(77, 77, 5)].
Proof.
  exact (Runs.run_conserves conf [] agentA traceD agentD conf_ok agentA_inv (fun s H => False_ind _ (not_elem_of_nil s H)) agentD_run).
Defined.

(** The talk that [WriteBack] assigns when the client is gone, as it is after a
    first [WriteBack] that failed ([SetFdClientInvalid] stores -1): the session
    is accepted, and then nothing waits for it and nothing is ever answered. *)
Definition talkW : Talk := mkTalk 0 kWriteOnly None (Some hello) (Some 3) None 1000 1100 kWrite ErrorNo.kOk [] 0 (-1) None.
Example talkW_assigned : exists s, TalkOps.Assign 0 kWriteOnly None Protocol.kRapid (Some hello) 100 (-1) None (protos0, sim0) = Some (talkW, s).
Proof. eexists. vm_compute. reflexivity. Qed.
Definition agentW : Session.Agent Sim TimeoutHeap := result (agent_with [talkW]) (AgentSlave.HandleMsgSession conf msg1 (agent_with [talkW])).
Lemma talkW_dead : Answers.dead 5 (agent_with [talkW]).
Proof. exists talkW. by split_and!. Qed.
Example lost_session : AgentSlave.HandleMsgSession conf msg1 (agent_with [talkW]) = Some ((), agentW) /\
  answered (Session.world agentW) = [] /\ Fds.armed (Session.events_driver_ agentW) = [].
Proof. split; [apply result_run; vm_compute; reflexivity|]. split; vm_compute; reflexivity. Qed.

(** The talk that [Read] assigns: no buffer to write. *)
Definition talkR : Talk := mkTalk 0 kReadOnly (Some service1) None None None 1000 1100 kEnd ErrorNo.kOk [] 1 0 None.
Lemma talkR_assigned : TalkOps.Assign 0 kReadOnly (Some service1) Protocol.kRapid None 100 0 None (protos0, sim0) = Some (talkR, (protos0, sim0)).
Proof. reflexivity. Qed.

Lemma no_buffer_broken_witness : exists a', AgentSlave.HandleMsgSession conf msg1 (agent_with [talkR]) = Some ((), a') /\
  answered (Session.world a') = answered (Session.world (agent_with [talkR])) ++ [Msg.mkMsgSession 77 77 5 100 ErrorNo.kBroken] /\
  Session.conns_mgr_ a' = Session.conns_mgr_ (agent_with [talkR]).
Proof.
  assert (Forall (fun t => exists no cat sv pc timeo f r (s s' : Protocols.Protos * Sim),
    TalkOps.Assign no cat sv pc None timeo f r s = Some (t, s')) [talkR]) as F.
  { constructor; [|constructor]. do 9 eexists. exact talkR_assigned. }
  assert (Protocol.fuel <> 0%nat) as Fu by (intros Fu; discriminate Fu).
  destruct (Answers.no_buffer_broken conf [] msg1 [talkR] (agent_with [talkR]) Fu (agent_with_inv _) eq_refl ltac:(cbn; lia) F eq_refl)
    as (a' & E & An & _ & Cm & _).
  exists a'. split; [exact E|]. split; [exact An|exact Cm].
Defined.

Definition swept : option (bool * Session.Agent Sim TimeoutHeap) := AgentSlave.CleanTimeouts_ conf agentL.
Definition agentS : Session.Agent Sim TimeoutHeap := match swept with Some (_, a) => a | None => agentL end.

Lemma timeouts_answers_witness : exists act gone act' ms, AgentSlave.CleanTimeouts_ conf agentL = Some (true, agentS) /\
  act ≡ₚ gone ++ act' /\ Answers.agent_inv [] [] act' agentS /\ Forall (fun s => SessionLaws.waits agentS s = 0) gone /\
  answered (Session.world agentS) = answered (Session.world agentL) ++ ms /\ Forall2 (Timeouts.answer_of agentL) gone ms /\ length ms = 1%nat /\
  (forall s, s ∈ act -> 0 < SessionLaws.waits agentL s) /\ (forall s, s ∈ act' -> 0 < SessionLaws.waits agentS s).
Proof.
  destruct agentB_waits as (s & I & Wp). apply (Answers.agent_inv_world [] [] [s] (set_time (Session.world agentB) 2000000 [])) in I; [|by intros g].
  assert (forall s', s' ∈ [s] -> 0 < SessionLaws.waits agentL s') as Wl by (intros s' ->%list_elem_of_singleton; exact Wp).
  assert (AgentSlave.CleanTimeouts_ conf agentL = Some (true, agentS)) as E.
  { assert (fst <$> swept = Some true) as R by (vm_compute; reflexivity). unfold agentS. change (AgentSlave.CleanTimeouts_ conf agentL) with swept.
    destruct swept as [[r a]|]; [|done]. injection R as ->. done. }
  destruct (Timeouts.timeouts_answers conf [s] true agentL agentS conf_ok I E) as (gone & act' & ms & P & I' & F & An & Fm & Ws).
  exists [s], gone, act', ms. split_and!; [exact E|exact P|exact I'|exact F|exact An|exact Fm| |exact Wl|exact (Ws Wl)].
  assert (length (answered (Session.world agentS)) = 1%nat) as L by (vm_compute; reflexivity).
  assert (length (answered (Session.world agentL)) = 0%nat) as L' by (vm_compute; reflexivity). exact (one_answer _ _ _ L L' An).
Defined.

(** A turn of the loop without events and mail. *)
Definition turn (a : Session.Agent Sim TimeoutHeap) : option (bool * Session.Agent Sim TimeoutHeap) :=
  (r1 ← AgentSlave.CheckEvents_ conf; r2 ← AgentSlave.CleanTimeouts_ conf; r3 ← AgentSlave.CheckMailbox_ conf; mret (r1 || r2 || r3)) a.
Definition mail_left (a : Session.Agent Sim TimeoutHeap) : option (list Msg.Msg) :=
  fst <$> (AgentSlave.CheckEvents_ conf;; AgentSlave.CleanTimeouts_ conf;; gets (fun a => mail (Session.world a))) a.
Definition no_events (a : Session.Agent Sim TimeoutHeap) : option Z := fst <$> Session.on_driver (fun d => EventsDriver.Wait d 0) a.
Lemma no_mails_ok n a : mail (Session.world a) = [] -> Runs.mails_ok conf n a.
Proof.
  intros E. destruct n as [|n]; [done|]. cbn [Runs.mails_ok]. intros m a1 (w & Er & _)%zoom_inv. unfold call in Er. cbn in Er. by rewrite E in Er.
Qed.
Lemma process_ok_S n a : no_events a = Some 0 -> mail_left a = Some [] -> (forall a', turn a = Some (true, a') -> Runs.process_ok conf n a') ->
  Runs.process_ok conf (S n) a.
Proof.
  intros Ne Ml H. cbn [Runs.process_ok]. split; [split|].
  - intros r a1 E. unfold no_events in Ne. change (Confs.low_latency_ conf) with true in E. rewrite E in Ne. injection Ne as ->. exact I.
  - intros r1 a1 r2 a2 E1 E2. apply no_mails_ok. unfold mail_left in Ml. rewrite (bind_run _ _ _ _ _ E1), (bind_run _ _ _ _ _ E2) in Ml. by injection Ml.
  - intros r1 a1 r2 a2 r3 a3 E1 E2 E3 Go. apply H. unfold turn. by rewrite (bind_run _ _ _ _ _ E1), (bind_run _ _ _ _ _ E2), (bind_run _ _ _ _ _ E3), Go.
Qed.
Definition agentT : Session.Agent Sim TimeoutHeap := match turn agentL with Some (_, a) => a | None => agentL end.
Lemma agentL_process_ok : Runs.process_ok conf 20 agentL.
Proof.
  assert (no_events agentL = Some 0) as N1 by (vm_compute; reflexivity). assert (mail_left agentL = Some []) as M1 by (vm_compute; reflexivity).
  assert (no_events agentT = Some 0) as N2 by (vm_compute; reflexivity). assert (mail_left agentT = Some []) as M2 by (vm_compute; reflexivity).
  assert (fst <$> turn agentT = Some false) as T2 by (vm_compute; reflexivity).
  apply process_ok_S; [exact N1|exact M1|]. intros a' E. assert (a' = agentT) as -> by (unfold agentT; by rewrite E).
  apply process_ok_S; [exact N2|exact M2|]. intros a2 E2. rewrite E2 in T2. discriminate T2.
Qed.
Definition agentP : Session.Agent Sim TimeoutHeap := result agentL (AgentSlave.Process_ conf agentL).

Lemma process_conserves_witness : exists act turns last act', Forall Runs.turn turns /\ Runs.idle_turn last /\
  Runs.run conf agentL (concat turns ++ last) agentP /\ Answers.agent_inv [] [] act' agentP /\
  (forall s, s ∈ act' -> 0 < SessionLaws.waits agentP s) /\
  Runs.accounts act' agentP ++ (Runs.addressee <$> Runs.lost (concat turns)) ≡ₚ Runs.accounts act agentL ++ (Runs.addressee <$> Runs.new (concat turns)) /\
  length (answered (Session.world agentP)) = 1%nat.
Proof.
  destruct agentB_waits as (s & I & Wp). apply (Answers.agent_inv_world [] [] [s] (set_time (Session.world agentB) 2000000 [])) in I; [|by intros g].
  assert (forall s', s' ∈ [s] -> 0 < SessionLaws.waits agentL s') as Wl by (intros s' ->%list_elem_of_singleton; exact Wp).
  assert (returns (AgentSlave.Process_ conf agentL) = true) as R by (vm_compute; reflexivity).
  pose proof (result_run agentL _ R : AgentSlave.Process_ conf agentL = Some ((), agentP)) as E.
  destruct (Runs.process_conserves conf [s] agentL agentP conf_ok I Wl agentL_process_ok E) as (turns & last & act' & T & Il & R' & I' & W' & Ac).
  exists [s], turns, last, act'. split; [exact T|]. split; [exact Il|]. split; [exact R'|]. split; [exact I'|]. split; [exact W'|].
  split; [exact Ac|]. vm_compute. reflexivity.
Defined.

(** *** From the configuration on *)

#[local] Existing Instance Confs.loopback.
#[export] Instance sim_setup : MailboxSetup Sim := {| mailbox_Init _ _ _ w := (true, w) |}.
#[export] Instance sim_layout : Layout.
Proof. refine {| sizeof_EventCtx := 48; sizeof_Session := 72; sizeof_BizProcedure := 200 |}. split; apply Nat.lt_0_succ. Defined.
Definition timeouts0 : TimeoutHeap := Heap.HeapBase_new 16.
Definition confN : Confs.ConfNormal := default conf (Confs.ConfNormal_Init (Some Confs.ex_normal) Confs.no_addr).
Lemma confN_ok : Confs.ConfNormal_Init (Some Confs.ex_normal) Confs.no_addr = Some confN.
Proof. vm_compute. reflexivity. Qed.
Lemma one_remote : (length [remote1] <= kNumRemotes)%nat.
Proof. apply Nat.leb_le. vm_compute. reflexivity. Qed.

Lemma timeouts0_ok : q_ok timeouts0 /\ q_live timeouts0 = ∅.
Proof. apply (Heap.new_valid expire_time_ms false 16). apply Nat.leb_le. reflexivity. Qed.

Lemma slave_ready_witness : exists m, Startup.Init confN timeouts0 [remote1] ∅ protos0 sim0 =
    Some (Some (Startup.built PoolObjs.kDefaultMemPerBlock timeouts0 m ∅ protos0 sim0), sim0) /\
  (forall r, ConnsMgr.mark_of m r = if ConnsMgr.set_mem [remote1] r then Some Pool.kFullMarkHealth else None) /\
  forall a timeo r a', Startup.Init confN timeouts0 [remote1] ∅ protos0 sim0 = Some (Some a, sim0) ->
    Session.on_driver (fun d => EventsDriver.Wait d timeo) a = Some (r, a') -> 0 <= r -> Answers.agent_inv [] [] [] a'.
Proof. exact (Startup.slave_ready confN timeouts0 [remote1] ∅ protos0 sim0 one_remote (proj1 timeouts0_ok) (proj2 timeouts0_ok)). Defined.

(** The agent [Init] made, its first wait, and a session whose talk has ended
    before it starts. *)
Definition talks5 : gmap Z (list Talk) := {[5 := [talkR]]}.
Section Life.
Context (m : ConnsMgr.ConnsMgr).
Definition born : Session.Agent Sim TimeoutHeap := Startup.built PoolObjs.kDefaultMemPerBlock timeouts0 m talks5 protos0 sim0.
Definition wait1 : option (Z * Session.Agent Sim TimeoutHeap) := Session.on_driver (fun d => EventsDriver.Wait d 0) born.
Definition agent1 : Session.Agent Sim TimeoutHeap := match wait1 with Some (_, a) => a | None => born end.
Lemma first_wait : wait1 = Some (0, agent1).
Proof.
  assert (fst <$> wait1 = Some 0) as E1 by (vm_compute; reflexivity). unfold agent1. destruct wait1 as [[]|]; [|discriminate E1]. by injection E1 as ->.
Qed.
Lemma agent1_handles : Answers.agent_inv [] [] [] agent1 ->
  exists a2, Runs.run confN agent1 [Runs.OHandle (Msg.Session msg1) true] a2 /\ length (answered (Session.world a2)) = 1%nat.
Proof.
  intros I. assert (Session.talk_vectors agent1 !! 5 = Some [talkR]) as Hv by (vm_compute; reflexivity).
  assert (Forall (fun t => status t = kEnd) [talkR]) as F by by repeat constructor.
  assert (Protocol.fuel <> 0%nat) as Fu by (intros Fu; discriminate Fu).
  destruct (Answers.ended_broken confN [] msg1 [talkR] agent1 Fu I Hv ltac:(cbn; lia) F eq_refl) as (a2 & E & An & _). exists a2. split.
  - eapply Runs.run_cons; [|apply Runs.run_nil]. apply Runs.step_handle; [|exact E]. exists [talkR]. split; [exact Hv|]. split; [cbn; lia|].
    exact (Answers.ended_startable 5 [talkR] agent1 Hv F).
  - rewrite An, length_app. assert (length (answered (Session.world agent1)) = 0%nat) as -> by (vm_compute; reflexivity). reflexivity.
Qed.
End Life.
Lemma confN_fits : Startup.timeouts_fit confN.
Proof. vm_compute. reflexivity. Qed.

Lemma life_conserves_witness : exists m a2 act, Startup.Init confN timeouts0 [remote1] talks5 protos0 sim0 = Some (Some (born m), sim0) /\
  Answers.agent_inv [] [] act a2 /\ (forall s, s ∈ act -> 0 < SessionLaws.waits a2 s) /\ length (answered (Session.world a2)) = 1%nat /\
  (Runs.addressee <$> answered (Session.world a2)) ++ Runs.owed act a2 ++ [] ≡ₚ (Runs.addressee <$> answered (Session.world (agent1 m))) ++ [(77, 77, 5)].
Proof.
  destruct (Startup.setup_run confN (kNumRemotes * 100)%nat PoolObjs.kDefaultMemPerBlock timeouts0 [remote1] talks5 protos0 sim0
    Startup.real_slots (Nat.le_trans _ _ _ one_remote Startup.remotes_fit)) as (m & E & _).
  pose proof (first_wait m) as E1. destruct timeouts0_ok as [Qo Ql].
  pose proof (Startup.setup_ready confN _ _ timeouts0 [remote1] talks5 protos0 sim0 sim0 0 0 (born m) (agent1 m) Startup.block_pos Qo Ql E E1 (Z.le_refl 0)) as I1.
  destruct (agent1_handles m I1) as (a2 & R & Ln).
  destruct (Startup.life_conserves confN (Some Confs.ex_normal) Confs.no_addr timeouts0 [remote1] talks5 protos0 sim0 sim0 0 0 (born m) (agent1 m) _ a2
    confN_ok confN_fits Qo Ql E E1 (Z.le_refl 0) R) as (act & I & Wp & Ac).
  exists m, a2, act. split; [exact E|]. split; [exact I|]. split; [exact Wp|]. split; [exact Ln|exact Ac].
Defined.

Example scenario_ok : scenario = Some ([ErrorNo.kOk], [(ErrorNo.kOk, 10)], str "pong", []).
Proof. vm_compute. reflexivity. Qed.

(** A scheduler whose procedures send the vector of talks 5 and wait; a request
    starts procedure 77, and the agent begins to serve its session. *)
#[local] Instance sim_smail : SchedulerMail (list Msg.MsgSession) := {| sched_ReceiveMsg w := (None, w); sched_MsgConsumed w := w; sched_slot w := (true, w) |}.
#[local] Instance sim_outbox : Outbox (list Msg.MsgSession).
Proof. refine {| outbox w := w |}. reflexivity. Defined.
Definition send_five (b : ptr) : M (Scheduler.Scheduler (list Msg.MsgSession)) Z :=
  Scheduler.on_thread (BizProcedure.on_world (modify (fun w => w ++ [Msg.BuildForSession b b 5 100 ErrorNo.kOk])));; mret 0.
Lemma send_five_ok : Wakeups.cooperative send_five.
Proof.
  intros b s r s' [= <- <-]. cbn [Z.eqb]. exists [Msg.BuildForSession b b 5 100 ErrorNo.kOk]. split; [done|]. left. split; [by eauto|]. by split.
Qed.
Definition sched0 : Scheduler.Scheduler (list Msg.MsgSession) :=
  {| Scheduler.thread := BizProcedure.mkThread (Store.mkStore ∅ 76) Store.nothing Protocols.Protos_new [];
     Scheduler.task_queue_ := [];
     Scheduler.pool_biz_procedure_ := PoolObjs.PoolObjs_new BizProcedure.Biz_new 200 0 400 true true 4;
     Scheduler.current_biz_procedure := None |}.
Definition sched1 := Scheduler.with_queue [Msg.NewReq (Msg.mkNewReq 1 5 0 (Some 9))] sched0.
Definition got : option (ptr * Scheduler.Scheduler (list Msg.MsgSession)) := Scheduler.GetBizProcedure sched1.
Definition sched_got := match got with Some (_, s) => s | None => sched1 end.
Lemma got_77 : Scheduler.GetBizProcedure sched1 = Some (77, sched_got).
Proof.
  assert (fst <$> got = Some 77) as R by (vm_compute; reflexivity). unfold sched_got. change (Scheduler.GetBizProcedure sched1) with got.
  destruct got as [[b s]|]; [|done]. by injection R as ->.
Qed.
Definition started : option (bool * Scheduler.Scheduler (list Msg.MsgSession)) := Scheduler.handle send_five (Msg.NewReq (Msg.mkNewReq 1 5 0 (Some 9))) sched1.
Definition sched2 := match started with Some (_, s) => s | None => sched1 end.
Definition sys0 : Wakeups.Sys := Wakeups.mkSys [Wakeups.mkSide agentA [] 0] sched0 [] [].
Definition sys3 : Wakeups.Sys :=
  Wakeups.mkSys [Wakeups.mkSide agentB [] 0] (Scheduler.with_queue (tail (Scheduler.task_queue_ sched2)) sched2) [(77, 77, 5)] [].

Lemma sys_runs : rtc (Wakeups.step conf send_five) sys0 sys3.
Proof.
  assert (Scheduler.handle send_five (Msg.NewReq (Msg.mkNewReq 1 5 0 (Some 9))) sched1 = Some (true, sched2)) as E.
  { assert (fst <$> started = Some true) as R by (vm_compute; reflexivity). apply fmap_Some in R as ([b s] & R & ->). unfold sched2. rewrite R. exact R. }
  eapply rtc_l; [by apply (Wakeups.step_request conf send_five (Msg.mkNewReq 1 5 0 (Some 9)))|].
  eapply rtc_l; [apply (Wakeups.step_start conf send_five (Msg.mkNewReq 1 5 0 (Some 9)) [] 0 (Wakeups.mkSide agentA [] 0) 77 sched_got true sched2 [msg1]);
    [reflexivity|reflexivity|exact got_77|exact E|vm_compute; reflexivity]|].
  eapply rtc_l; [|apply rtc_refl].
  apply (Wakeups.step_agent conf send_five 0 (Wakeups.mkSide agentA [msg1] 0) (Runs.OHandle (Msg.Session msg1) true) agentB []); [reflexivity| |reflexivity].
  apply (Runs.step_handle conf (Msg.Session msg1)); [exact msg1_ok|exact agentB_run].
Qed.
Lemma sched0_pool : Wakeups.pool_ok sched0 [].
Proof.
  split; [split; [done|]; intros q [x Hx]; cbn in Hx; done|]. exists []. split_and!; [|constructor|by intros b []%not_elem_of_nil].
  split; [right; split; [|reflexivity]|reflexivity|reflexivity]. repeat (split; [try reflexivity; cbn; lia|]). cbn. lia.
Qed.
Lemma no_lost_wakeup_witness : exists acts, [(77, 77, 5)] ≡ₚ concat (zip_with Wakeups.travelling acts [Wakeups.mkSide agentB [] 0]) ++ [] ++ [] /\
  Wakeups.pool_ok (Wakeups.sched sys3) [77] /\ forall act, acts !! 0%nat = Some act -> forall s, s ∈ act -> 0 < SessionLaws.waits agentB s.
Proof.
  assert (Wakeups.idle_sys sys0) as Id.
  { split; [constructor; [|constructor]|]; split_and!; [exact agentA_inv|vm_compute; reflexivity|done|done|done|exact sched0_pool|done|done]. }
  destruct (Wakeups.no_lost_wakeup conf send_five sys0 sys3 conf_ok send_five_ok Id sys_runs) as (acts & _ & H & P & _ & Po). exists acts. split_and!.
  - assert (Wakeups.queued (Scheduler.task_queue_ (Wakeups.sched sys3)) = []) as Eq by (vm_compute; reflexivity). rewrite <- Eq. exact P.
  - exact Po.
  - intros act Ha s Hs. exact (proj2 (H 0%nat act (Wakeups.mkSide agentB [] 0) Ha eq_refl) s Hs).
Defined.
End Sim.
